(* ===== verification/_CoqProject ===== *)
-Q . S2P
Prelude.v
Machine.v
Float64.v
Like.v
Types.v
Concrete.v
Text.v
Keys.v
Table.v
Eval.v
Queries.v
Rows.v
Joins.v
Ordering.v
Statement.v
Planner.v
Validate.v
Ddl.v
Execute.v
Integrity.v
Alter.v
Typing.v
Params.v
Str.v
Log.v
Coding.v
SqlAst.v
Convert.v
Express.v
Parser.v
NotSql.v
Normal.v
Wal.v
Database.v
Tracking.v
Durable.v
Replayable.v
Metadata.v
Soundness.v
Protocol.v
Wire.v
Prepared.v
Persistence.v
KvStore.v
KvDurable.v
KvConcrete.v
KvCrash.v
KvFaults.v
Calendar.v
Timestamp.v
Recovery.v
Restore.v
Render.v
Server.v
Shell.v
Version.v
