(* ===== verification/Prelude.v ===== *)
(** * RustyDB: a verification development (root file)

    RustyDB (src/src/) is a database in one process: a key-value store and a
    SQL engine, each durable through a write-ahead log and snapshots, served
    over HTTP, over the MySQL protocol and from a command line, with backups
    and point-in-time recovery.  This library translates it into executable
    definitions and proves what they do.  A definition keeps the source's name
    where Rocq allows; file and line references are to src/src/.

    ** Conventions

    A fallible call returns an [outcome]: [Ok], [Err] with the message of the
    source, or [Panic].  Effects are explicit: a call takes the state of its
    component and what it meets outside the program (the clock, the faults of
    the disk) and returns the new state with its result.  A lock held for a
    call makes the call one step; where the source releases a lock in the middle
    of a call (KVStore::set) the parts are steps of their own, and sessions are
    steps of a transition system.  [i64] is [Z] with overflow checked or wrapped
    by [overflow_checks], [u64] is [N] with the saturation or wrapping the
    source asks for, [i32] in the day count is checked, an [f64] is its bit
    pattern, a string is its bytes in UTF-8.

    Code outside src/ is a class, with the documented behaviour the program
    relies on as laws and a concrete instance for the examples:
    [RustStd] (float text, hash-map order, [select_nth_unstable_by], logarithm),
    [UnicodeTables] (case tables), [SqlGrammar] (the parser and the printer of
    the sqlparser crate, over the types of SqlAst; with [BraceRefused], that it
    refuses a text that begins with a brace, as no statement does), [LogFormat],
    [SnapshotFormat], [KvFormat], [BackupFormat] (serde_json and crc32fast on
    records, snapshots and manifests: what is written reads back, a record is one
    line that begins with its brace and first field, and no proper prefix of it is
    a record), [StatementDebug] (derived Debug), [DashIter] (dashmap),
    [Sha1], [Axum] (routing, extraction, header text, base64), [TwoDecimals]
    (the format of a float with two decimals) and [SemVer] (the semver crate).
    Concrete.v and KvConcrete.v hold the instances shared by the examples, with
    the codes of Coding.v.

    ** Files

    Foundations.  Prelude: outcomes, list, option and string lemmas,
    automation.  Machine: integers, bytes, number formatting.  Float64:
    binary64.  Str: [str].  Text: printed numbers and delimited text.  Log: text
    files of records with partial writes.  Coding: a text for every value of a
    countable type.

    SQL data (sql/types.rs): Types is values, three-valued logic, expressions,
    queries, schemas; Like is LIKE; Text has the parsing of values and
    [validate_row]; Render is the text of results (with sql/executor.rs).

    SQL engine (sql/executor.rs, sql/planner.rs): Keys is index keys and Bloom
    filters; Table is tables and B-tree indexes; Eval is the evaluator of
    expressions and queries, with Queries, Rows, Joins and Ordering its theorems;
    Statement is the statements of sql/parser.rs; Planner is constant folding and plans;
    Validate is CHECK, UNIQUE and FOREIGN KEY; Ddl is schema changes, with Alter
    its theorems; Execute is data changes and the dispatcher, with Integrity its
    theorems and Typing the types of stored values.

    SQL statements as text (sql/parser.rs): SqlAst is the part of the syntax
    tree of the sqlparser crate that the program looks at; Convert is the
    conversion of that tree to statements and Express the inverse embedding;
    Parser is [parse_sql] and the statements the program parses itself; Params
    is placeholders; NotSql is texts that are not SQL; Normal is what holds of
    every parsed statement.

    SQL database (sql/database.rs): Wal is the log and its replay; Database is
    opening, the plan cache, autocommit, snapshots, sessions and optimistic
    transactions; Tracking and Replayable are which statements give the same
    rows on a recovered catalog; Durable is the survival of committed data; Metadata is
    the columns announced for a prepared query and Soundness why their types are
    those of the result.

    Key-value store (persistence.rs, kvstore.rs): Persistence is the log, the
    queue and snapshots; KvStore is the operations; KvDurable is what the files
    hold; KvCrash is the refinement to a map and crashes; KvFaults is where
    writes are lost.

    Recovery (recovery.rs, lock.rs): Calendar and Timestamp are RFC 3339;
    Recovery is backup, restore and pruning, and the lock files they create, with
    Restore its theorems.

    Servers and shells: Protocol (wire/protocol.rs) and Wire (wire/mod.rs) are
    the MySQL server, with Prepared the execution of a prepared query from the
    client's packet to the result it reads; Server (server.rs) is the HTTP server; Shell (main.rs) is
    the command line; Version (version_check.rs) is the update check.

    The parts call each other as the source does: a shell, a wire connection or
    an HTTP handler calls [session_execute] or [database_execute] (Database),
    which parses through the plan cache (Parser, Params, Planner), runs
    [execute_catalog] (Execute, Ddl, Eval over Table) on a copy, validates it
    (Validate), logs it (Wal) and publishes it; opening replays the log through
    [execute_catalog] again.

    ** What the theorems show

    Integrity of the data.  [CatalogValid] (Validate) states the constraints
    over the rows, [Coherent] (Table) states that the indexes are what the rows
    say.  The validator decides validity; incremental index maintenance refines
    rebuilding; every history of statements leads to a coherent, valid catalog
    whose version counts the writes; a failed statement changes nothing;
    declared keys are enforced in every reachable catalog, and every stored
    value is NULL or of exactly the type of its column.  Validity speaks of the
    unique indexes, and is for foreign keys that name as many columns as they
    refer to: the program checks neither that number nor that the constraints of
    a table have different names (Validate.foreign_key_arity_unchecked,
    Alter.shared_constraint_name_unenforced).

    Meaning of queries.  Joins, hashed or nested, return the relational join,
    where names are unambiguous and no -0.0 is hashed; index scans, UPDATE and
    DELETE through an index agree with the plain scan, where literals are
    comparable with the indexed values and every row can be evaluated; ORDER BY
    and LIMIT, before the projection or after it, GROUP BY, DISTINCT and LIKE meet
    their declarative descriptions; folding preserves
    evaluation where no NULL literal decides, and the exact cases where it does
    not are given.  The values of a query over one table have the types
    announced for it before it ran, optimised or not.

    Durability and concurrency.  Transactions of interleaved sessions are
    serializable, and some transaction always progresses, a log that cannot be
    written included; the files of a SQL
    database open at any moment to the committed schemas and rows (Durable),
    for logged statements that are stable where they ran: every schema
    statement, INSERT of values, and UPDATE and DELETE over the rows of their
    table are proved so (Replayable), if no index can serve them or the literals
    have the types of their columns and every row can be evaluated; folding of
    NULL and other index scans are proved not to be; replay resumes after a snapshot,
    and a record of which only a part was written either counts or is ignored,
    or, cut inside a character, is reported as an error; the key-value store
    refines a map and a crash anywhere in a call recovers a prefix of its
    operations, with the same exception; a backup of a directory at rest restores
    to exactly the operations up to the point asked for.  Disk faults are the
    subject of KvFaults and the end of Wal: the survival theorems assume the
    writes succeed.

    SQL text.  A statement that SQL can say (Express says which, and with the
    constraints written in a column) is what the conversion makes of its syntax
    tree; parsing through the plan cache is parsing and optimising; every parsed
    statement has lower-case names and numbered placeholders; parsing ASCII text
    never panics.

    Protocols and front ends.  Packets, handshakes, parameters, results and
    timestamps make round trips, and so does a prepared query from end to end,
    on any database the connections of a server can reach; no client bytes
    cause a panic; without the configured credentials neither server changes its
    state; a statement typed over several lines runs once; the key-value shell ends
    exactly at EXIT; the backup commands change only an empty output directory,
    missing lock files and, when told to, archived logs that are old enough.

    Defects.  Where the code does not do what it means to, a theorem shows the
    behaviour on concrete input or under its exact condition (the Faults and
    end sections of the files, and the replay that differs from execution).

    ** Fuel and bounds

    Evaluation is structural and needs no fuel.  Binary search has the size of
    its interval as fuel and is proved to reach its answer; the scan for system
    variables and the splitting into characters consume at least one byte per
    unit, with the length of the text as fuel.  A wire connection and a shell
    run on the input they are given, one unit per packet or line; for the shell
    both halting and running forever are theorems about all fuel.  The day count
    is proved free of 32-bit overflow for the first two thousand million days.
    Versions and sequence numbers saturate at 2^64-1; theorems that need the
    next version assume that bound is not reached.

    ** Not modelled

    The sqlparser crate itself, whose grammar is not in the repository.
    Threads and sockets: accepting connections, a failing socket, the timer of
    the background flush (the flush itself is an operation).  File-system
    failures in recovery.rs, directories under two names or inside each other,
    and file permissions; the lock file of an engine that is running.
    Memory reuse in the executor (the scratch pool) and the memo table of
    subqueries (executor.rs, execute_subquery_cached).  Its key is the address of
    the query and lives as long as the statement, so it holds the results it would
    recompute as long as the query does; the copy of an assignment that ON
    DUPLICATE KEY UPDATE binds to the new row is freed after its evaluation, and a
    later copy at the same address may be given the earlier result.
    [duplicate_assignment] evaluates each assignment afresh: with two subqueries
    in the assignments of one statement the program can store another value.
    Prompts, banners, response headers, CORS and the requests to the package
    registry.

    ** Plan

    Next: stability of INSERT of a query and of ON DUPLICATE KEY UPDATE; announced
    types of joins and derived tables, where the code announces TEXT; an
    end-to-end statement for the HTTP server. *)

From stdpp Require Export base numbers list gmap strings option sorting.
From stdpp Require Export pretty.
From Stdlib Require Export ZArith Lia.

#[global] Set Default Goal Selector "!".

Declare Scope rdb_scope.
Delimit Scope rdb_scope with rdb.

(** ** Automation shared by the library *)

Create HintDb rdb discriminated.
Create Rewrite HintDb rdb.

(** ** Results of Rust code

    [Ok] and [Err] are the two sides of [Result<_, String>]; [Panic] is a Rust
    panic (an index out of bounds, a checked overflow, a division by zero of
    the machine integer, a poisoned [expect]). *)
Inductive outcome (A : Type) : Type :=
| Ok (a : A)
| Err (message : string)
| Panic.
Arguments Ok {A} a.
Arguments Err {A} message.
Arguments Panic {A}.

#[export] Instance outcome_ret : MRet outcome := λ A a, Ok a.
#[export] Instance outcome_bind : MBind outcome := λ A B f m,
  match m with Ok a => f a | Err e => Err e | Panic => Panic end.
#[export] Instance outcome_fmap : FMap outcome := λ A B f m,
  match m with Ok a => Ok (f a) | Err e => Err e | Panic => Panic end.

#[export] Instance outcome_eq_dec `{EqDecision A} : EqDecision (outcome A).
Proof. solve_decision. Defined.

(** [Option::ok_or_else]. *)
Definition ok_or {A} (o : option A) (e : string) : outcome A :=
  match o with Some a => Ok a | None => Err e end.

(** [v[i]] on a slice: a panic when the index is out of bounds. *)
Definition vec_index {A} (l : list A) (i : nat) : outcome A :=
  match l !! i with Some a => Ok a | None => Panic end.

(** [v[i] = x] on a vector. *)
Definition vec_set {A} (l : list A) (i : nat) (x : A) : outcome (list A) :=
  if decide (i < length l) then Ok (<[i := x]> l) else Panic.

Definition is_Ok {A} (m : outcome A) : Prop := ∃ a, m = Ok a.
Definition is_Err {A} (m : outcome A) : bool :=
  match m with Err _ => true | _ => false end.

Section outcome_laws.
Context {A B : Type}.
Implicit Types (m : outcome A) (f : A → outcome B).

Lemma bind_Ok m f b : (m ≫= f) = Ok b ↔ ∃ a, m = Ok a ∧ f a = Ok b.
Proof. destruct m; naive_solver. Qed.

Lemma bind_Err m f e :
  (m ≫= f) = Err e ↔ m = Err e ∨ ∃ a, m = Ok a ∧ f a = Err e.
Proof. destruct m; naive_solver. Qed.

Lemma bind_Panic m f :
  (m ≫= f) = Panic ↔ m = Panic ∨ ∃ a, m = Ok a ∧ f a = Panic.
Proof. destruct m; naive_solver. Qed.

Lemma bind_ext m f g :
  (∀ a, m = Ok a → f a = g a) → (m ≫= f) = (m ≫= g).
Proof. destruct m; naive_solver. Qed.

Lemma fmap_Ok m (f : A → B) b : (f <$> m) = Ok b ↔ ∃ a, m = Ok a ∧ f a = b.
Proof. destruct m; naive_solver. Qed.

Lemma ok_or_Ok (o : option A) e a : ok_or o e = Ok a ↔ o = Some a.
Proof. destruct o; naive_solver. Qed.

Lemma vec_index_Ok (l : list A) i a : vec_index l i = Ok a ↔ l !! i = Some a.
Proof. unfold vec_index. destruct (l !! i); naive_solver. Qed.

Lemma vec_set_Ok (l : list A) i x l' :
  vec_set l i x = Ok l' ↔ i < length l ∧ l' = <[i := x]> l.
Proof. unfold vec_set. case_decide; naive_solver. Qed.
End outcome_laws.

(** [collect::<Result<Vec<_>, _>>()] over a lazily mapped iterator is stdpp's
    [mapM]: elements are processed in order, the first failure is returned. *)
Section mapM_outcome.
Context {A B : Type} (f : A → outcome B).

Lemma mapM_Ok l k : mapM f l = Ok k ↔ Forall2 (λ x y, f x = Ok y) l k.
Proof.
  split.
  - revert k. induction l as [|x l IH]; intros k; cbn.
    + intros [= <-]. constructor.
    + rewrite bind_Ok. intros (y & Hy & H).
      apply bind_Ok in H as (k' & Hk & [= <-]). constructor; auto.
  - induction 1 as [|x y l k Hx _ IH]; cbn; [done|]. by rewrite Hx, IH.
Qed.

Lemma mapM_length l k : mapM f l = Ok k → length k = length l.
Proof. rewrite mapM_Ok. intros H. by apply Forall2_length in H. Qed.

Lemma mapM_Ok_total l :
  (∀ x, x ∈ l → is_Ok (f x)) → is_Ok (mapM f l).
Proof.
  induction l as [|x l IH]; intros H; [by exists []|].
  destruct (H x) as [y Hy]; [set_solver|].
  destruct IH as [k Hk]; [set_solver|].
  exists (y :: k). cbn. by rewrite Hy, Hk.
Qed.
End mapM_outcome.

Lemma mapM_ext {A B} (f g : A → outcome B) l :
  (∀ x, x ∈ l → f x = g x) → mapM f l = mapM g l.
Proof.
  induction l as [|x l IH]; intros H; [done|]. cbn.
  rewrite (H x) by set_solver. apply bind_ext. intros y _.
  rewrite IH; [done|]. set_solver.
Qed.

Lemma mapM_ret {A B} (f : A → B) l : mapM (λ x, Ok (f x)) l = Ok (f <$> l).
Proof. induction l as [|x l IH]; [done|]. cbn. by rewrite IH. Qed.

(** A call that does not panic and whose result, if it returns one, has a
    property. *)
Definition yields {A} (Q : A → Prop) (m : outcome A) : Prop :=
  match m with Ok a => Q a | Err _ => True | Panic => False end.

Section yields_laws.
Context {A B : Type} (Q : A → Prop) (R : B → Prop).

Lemma yields_bind (m : outcome A) (f : A → outcome B) :
  yields Q m → (∀ a, Q a → yields R (f a)) → yields R (m ≫= f).
Proof. destruct m; cbn; auto. Qed.

Lemma yields_ok_or (o : option A) e : (∀ a, o = Some a → Q a) → yields Q (ok_or o e).
Proof. destruct o; cbn; auto. Qed.

Lemma yields_mapM (f : B → outcome A) l :
  Forall (λ x, yields Q (f x)) l → yields (Forall Q) (mapM f l).
Proof.
  induction 1 as [|x l Hx _ IH]; [constructor|]. cbn.
  destruct (f x) as [a| |]; cbn in *; [|done..]. destruct (mapM f l); cbn in *; [|done..]. by constructor.
Qed.

Lemma yields_Ok (m : outcome A) a : yields Q m → m = Ok a → Q a.
Proof. by intros Hm ->. Qed.
Lemma yields_no_panic (m : outcome A) : yields Q m → m ≠ Panic.
Proof. by destruct m. Qed.
End yields_laws.

Lemma yields_impl {A} (Q R : A → Prop) m : yields Q m → (∀ a, Q a → R a) → yields R m.
Proof. destruct m; cbn; auto. Qed.

(** [o.map(f).transpose()?]. *)
Definition optM {A B} (f : A → outcome B) (o : option A) : outcome (option B) :=
  match o with Some x => y ← f x; Ok (Some y) | None => Ok None end.

(** A loop [for x in l { acc = f(acc, x)?; }]. *)
Definition foldM {A B} (f : B → A → outcome B) : B → list A → outcome B :=
  fix go (acc : B) (l : list A) {struct l} :=
    match l with [] => Ok acc | x :: l => acc ← f acc x; go acc l end.

Lemma foldM_cons {A B} (f : B → A → outcome B) acc x l :
  foldM f acc (x :: l) = (f acc x ≫= λ acc, foldM f acc l).
Proof. done. Qed.

Lemma foldM_app {A B} (f : B → A → outcome B) acc l k :
  foldM f acc (l ++ k) = (foldM f acc l ≫= λ acc, foldM f acc k).
Proof.
  revert acc. induction l as [|x l IH]; intros acc; [done|].
  cbn. destruct (f acc x); cbn; [apply IH|done..].
Qed.

(** The induction principle of such a loop: what one step preserves, the loop
    preserves. *)
Lemma foldM_inv {A B} (P : B → Prop) (f : B → A → outcome B) l acc res :
  P acc →
  (∀ acc x acc', x ∈ l → P acc → f acc x = Ok acc' → P acc') →
  foldM f acc l = Ok res → P res.
Proof.
  revert acc. induction l as [|x l IH]; intros acc HP Hstep H; cbn in H.
  - by simplify_eq.
  - apply bind_Ok in H as (acc' & Hx & H). eapply IH, H; [|set_solver].
    eapply Hstep, Hx; [set_solver|done].
Qed.

(** Breaks the equations between outcomes in the context into their parts. *)
Ltac inv_ok :=
  repeat match goal with
  | H : (_ ≫= _) = Ok _ |- _ => apply bind_Ok in H as (? & ? & ?)
  | H : mbind _ _ = Ok _ |- _ => apply bind_Ok in H as (? & ? & ?)
  | H : ok_or _ _ = Ok _ |- _ => apply ok_or_Ok in H
  | H : vec_index _ _ = Ok _ |- _ => apply vec_index_Ok in H
  | H : vec_set _ _ _ = Ok _ |- _ => apply vec_set_Ok in H as [? ?]
  | H : Ok _ = Ok _ |- _ => injection H as ?
  | H : mret _ = Ok _ |- _ => injection H as ?
  | H : Err _ = Ok _ |- _ => discriminate H
  | H : Panic = Ok _ |- _ => discriminate H
  end; simplify_eq.

(** Splits the innermost match, keeping the equation. *)
Ltac split_match :=
  match goal with
  | |- context [match ?x with _ => _ end] =>
      lazymatch x with context [match _ with _ => _ end] => fail | _ => idtac end;
      destruct x eqn:?
  end.
Ltac split_match_in H :=
  match type of H with
  | context [match ?x with _ => _ end] =>
      lazymatch x with context [match _ with _ => _ end] => fail | _ => idtac end;
      destruct x eqn:?
  end.

(** ** Booleans as propositions *)

#[export] Hint Rewrite andb_true_iff orb_true_iff negb_true_iff
  bool_decide_eq_true : rdb.

(** ** Strings

    A Rust [String] is the list of its UTF-8 bytes; [len] counts bytes. *)

Definition ascii_lower (c : Ascii.ascii) : Ascii.ascii :=
  let n := Ascii.N_of_ascii c in
  if decide (65 ≤ n ∧ n ≤ 90)%N then Ascii.ascii_of_N (n + 32) else c.

(** [str::to_ascii_lowercase]. *)
Fixpoint to_ascii_lowercase (s : string) : string :=
  match s with
  | EmptyString => EmptyString
  | String c s => String (ascii_lower c) (to_ascii_lowercase s)
  end.

(** [str::eq_ignore_ascii_case], documented as equality of the two ASCII
    lowercase copies. *)
Definition eq_ignore_ascii_case (a b : string) : bool :=
  bool_decide (to_ascii_lowercase a = to_ascii_lowercase b).

Lemma ascii_lower_idemp c : ascii_lower (ascii_lower c) = ascii_lower c.
Proof. destruct c as [[][][][][][][][]]; vm_compute; reflexivity. Qed.

Lemma to_ascii_lowercase_idemp s :
  to_ascii_lowercase (to_ascii_lowercase s) = to_ascii_lowercase s.
Proof. induction s as [|c s IH]; cbn; [done|]. by rewrite ascii_lower_idemp, IH. Qed.

Lemma eq_ignore_ascii_case_true a b :
  eq_ignore_ascii_case a b = true ↔ to_ascii_lowercase a = to_ascii_lowercase b.
Proof. apply bool_decide_eq_true. Qed.

Lemma eq_ignore_ascii_case_refl a : eq_ignore_ascii_case a a = true.
Proof. by apply eq_ignore_ascii_case_true. Qed.

Lemma eq_ignore_ascii_case_sym a b :
  eq_ignore_ascii_case a b = eq_ignore_ascii_case b a.
Proof. unfold eq_ignore_ascii_case. apply bool_decide_ext. split; congruence. Qed.

Lemma eq_ignore_ascii_case_trans a b c :
  eq_ignore_ascii_case a b = true → eq_ignore_ascii_case b c = true →
  eq_ignore_ascii_case a c = true.
Proof. rewrite !eq_ignore_ascii_case_true. congruence. Qed.

Lemma eq_ignore_ascii_case_lower_l a b :
  eq_ignore_ascii_case (to_ascii_lowercase a) b = eq_ignore_ascii_case a b.
Proof. unfold eq_ignore_ascii_case. by rewrite to_ascii_lowercase_idemp. Qed.

#[export] Hint Rewrite to_ascii_lowercase_idemp eq_ignore_ascii_case_refl
  eq_ignore_ascii_case_lower_l : rdb.
#[export] Hint Resolve eq_ignore_ascii_case_refl : rdb.

(** [slice.join(separator)]. *)
Fixpoint join_with (separator : string) (l : list string) : string :=
  match l with
  | [] => ""
  | [s] => s
  | s :: l => s +:+ separator +:+ join_with separator l
  end.

(** [Option::unwrap_or]. *)
Definition unwrap_or {A} (o : option A) (d : A) : A :=
  match o with Some a => a | None => d end.

(** [Option::is_some_and] and [Option::is_none_or]. *)
Definition is_some_and {A} (p : A → bool) (o : option A) : bool :=
  match o with Some a => p a | None => false end.
Definition is_none_or {A} (p : A → bool) (o : option A) : bool :=
  match o with Some a => p a | None => true end.

(** ** Lists *)

(** [iter().position(p)]. *)
Fixpoint position {A} (p : A → bool) (l : list A) : option nat :=
  match l with
  | [] => None
  | x :: l => if p x then Some 0 else S <$> position p l
  end.

(** [iter().find(p)]. *)
Fixpoint find_first {A} (p : A → bool) (l : list A) : option A :=
  match l with
  | [] => None
  | x :: l => if p x then Some x else find_first p l
  end.

Section position.
Context {A : Type} (p : A → bool).

Lemma position_Some l i :
  position p l = Some i ↔
  ∃ x, l !! i = Some x ∧ p x = true ∧ ∀ j y, j < i → l !! j = Some y → p y = false.
Proof.
  revert i. induction l as [|x l IH]; intros i; cbn.
  - split; [done|]. by intros (y & ? & _).
  - destruct (p x) eqn:Hp.
    + split.
      * intros [= <-]. exists x. repeat split; [done|]. intros j y Hj; lia.
      * intros (y & Hi & Hy & Hmin). destruct i as [|i]; [done|].
        specialize (Hmin 0 x ltac:(lia) eq_refl). congruence.
    + destruct i as [|i].
      * split; [by destruct (position p l)|]. intros (y & Hy & ? & _). simplify_eq/=; congruence.
      * rewrite fmap_Some. split.
        -- intros (k & Hk & [= <-]). apply IH in Hk as (y & Hy & Hpy & Hmin).
           exists y. repeat split; [done..|].
           intros [|j] z Hj Hz; [by simplify_eq/=|]. apply (Hmin j); [lia|done].
        -- intros (y & Hy & Hpy & Hmin). exists i. split; [|done]. apply IH.
           exists y. repeat split; [done..|].
           intros j z Hj Hz. apply (Hmin (S j)); [lia|done].
Qed.

Lemma position_None l : position p l = None ↔ ∀ x, x ∈ l → p x = false.
Proof.
  induction l as [|x l IH]; cbn; [split; [|done]; intros _ x; set_solver|].
  destruct (p x) eqn:Hp.
  - split; [done|]. intros H. specialize (H x ltac:(set_solver)). congruence.
  - rewrite fmap_None, IH. split; [|set_solver].
    intros H y [->|Hy]%elem_of_cons; auto.
Qed.

Lemma position_lt l i : position p l = Some i → i < length l.
Proof. intros (x & Hx & _)%position_Some. by eapply lookup_lt_Some. Qed.

Lemma find_first_Some l x : find_first p l = Some x → x ∈ l ∧ p x = true.
Proof.
  induction l as [|y l IH]; cbn; [done|]. destruct (p y) eqn:Hp; [|set_solver].
  intros [= ->]. set_solver.
Qed.

Lemma find_first_None l : find_first p l = None ↔ ∀ x, x ∈ l → p x = false.
Proof.
  induction l as [|y l IH]; cbn; [split; [|done]; set_solver|].
  destruct (p y) eqn:Hp; [|set_solver].
  split; [done|]. intros H. specialize (H y ltac:(set_solver)). congruence.
Qed.
End position.

Lemma position_ext {A} (p q : A → bool) l :
  (∀ x, p x = q x) → position p l = position q l.
Proof. intros Heq. induction l as [|x l IH]; cbn; [done|]. by rewrite Heq, IH. Qed.

Lemma foldl_ext {A B} (f g : A → B → A) l a :
  (∀ a b, f a b = g a b) → foldl f a l = foldl g a l.
Proof. intros Heq. revert a. induction l as [|x l IH]; intros a; cbn; [done|]. by rewrite Heq. Qed.

(** [existsb] and [forallb] in stdpp's membership. *)
Lemma existsb_true {A} (p : A → bool) l :
  existsb p l = true ↔ ∃ x, x ∈ l ∧ p x = true.
Proof.
  rewrite existsb_exists. split; intros (x & Hx & ?); exists x;
    (split; [by apply list_elem_of_In|done]).
Qed.

Lemma forallb_true {A} (p : A → bool) l :
  forallb p l = true ↔ ∀ x, x ∈ l → p x = true.
Proof.
  rewrite forallb_forall. split; intros H x Hx; apply H; by apply list_elem_of_In.
Qed.

(** ** Sorting

    [slice::sort_by] with a comparator that may fail: the stable insertion
    sort, which agrees with every stable sort when the comparator is a total
    preorder. *)
Section sort_by.
Context {A : Type} (compare : A → A → outcome comparison).

Fixpoint insert_by (x : A) (l : list A) : outcome (list A) :=
  match l with
  | [] => Ok [x]
  | y :: rest =>
      c ← compare x y;
      match c with
      | Gt => rest' ← insert_by x rest; Ok (y :: rest')
      | _ => Ok (x :: y :: rest)
      end
  end.
Fixpoint sort_by (l : list A) : outcome (list A) :=
  match l with
  | [] => Ok []
  | x :: l => l' ← sort_by l; insert_by x l'
  end.

(** [x] may stand before [y]. *)
Definition le_by (x y : A) : Prop := compare x y = Ok Lt ∨ compare x y = Ok Eq.

(** The comparator is a total preorder on [l]. *)
Record preorder_on (l : list A) : Prop := {
  po_total : ∀ x y, x ∈ l → y ∈ l → le_by x y ∨ (compare x y = Ok Gt ∧ le_by y x);
  po_trans : ∀ x y z, x ∈ l → y ∈ l → z ∈ l → le_by x y → le_by y z → le_by x z;
}.

Lemma insert_by_perm x l l' : insert_by x l = Ok l' → l' ≡ₚ x :: l.
Proof.
  revert l'. induction l as [|y l IH]; intros l'; cbn; [by intros [= <-]|].
  intros Hc. inv_ok. case_match; inv_ok; try done.
  rename select (insert_by x l = Ok _) into Hi. rewrite (IH _ Hi). constructor.
Qed.

Lemma sort_by_perm l l' : sort_by l = Ok l' → l' ≡ₚ l.
Proof.
  revert l'. induction l as [|x l IH]; intros l'; cbn; [by intros [= <-]|].
  intros Hs. apply bind_Ok in Hs as (k & Hk & Hi). apply insert_by_perm in Hi as ->.
  constructor. auto.
Qed.

Lemma preorder_on_subset l k : k ⊆ l → preorder_on l → preorder_on k.
Proof.
  intros Hsub [Ht Htr]. split.
  - intros x y Hx Hy. apply Ht; by apply Hsub.
  - intros x y z Hx Hy Hz. apply Htr; by apply Hsub.
Qed.

Lemma insert_by_sorted x l :
  preorder_on (x :: l) → StronglySorted le_by l →
  ∃ l', insert_by x l = Ok l' ∧ StronglySorted le_by l'.
Proof.
  intros Hpo Hs. induction Hs as [|y l Hs IH Hy]; cbn; [by repeat econstructor|].
  destruct IH as (l' & Hl' & Hs'). { eapply preorder_on_subset, Hpo. set_solver. }
  destruct (po_total _ Hpo x y) as [Hxy|[Hxy Hyx]]; [set_solver..| |].
  - exists (x :: y :: l). split; [by destruct Hxy as [-> | ->]|].
    constructor; [by constructor|]. constructor; [done|]. apply Forall_forall. intros z Hz.
    rewrite Forall_forall in Hy. eapply (po_trans _ Hpo); [..|apply Hxy|by apply Hy]; set_solver.
  - rewrite Hxy. cbn. rewrite Hl'. cbn. eexists; split; [done|]. constructor; [done|].
    apply insert_by_perm in Hl'. rewrite Hl'. by constructor.
Qed.

Lemma sort_by_sorted l :
  preorder_on l → ∃ l', sort_by l = Ok l' ∧ StronglySorted le_by l'.
Proof.
  induction l as [|x l IH]; intros Hpo; cbn; [by repeat econstructor|].
  destruct IH as (l' & Hl' & Hs). { eapply preorder_on_subset, Hpo. set_solver. }
  rewrite Hl'. cbn. apply insert_by_sorted; [|done]. eapply preorder_on_subset, Hpo.
  apply sort_by_perm in Hl'. intros z Hz. by rewrite <-Hl'.
Qed.
End sort_by.

(** ** Induction through nested lists and options

    The tree types of the source nest themselves in lists and options; these
    schemes give their induction principles the matching hypotheses. *)

Scheme All for list.
Scheme All for option.

Lemma list_all_Forall {A} (P : A → Prop) l : list_all A P l → Forall P l.
Proof. induction 1; constructor; auto. Qed.

Lemma option_all_Some {A} (P : A → Prop) a : option_all A P (Some a) → P a.
Proof. by inversion 1. Qed.
