(* ===== verification/Machine.v ===== *)
(** * Machine.v: fixed-width integers, byte order and number formatting

    The integer types of the source at their width: [i64] as [Z] with checked
    or wrapping arithmetic, [u64] as [N] with saturating addition, bytes as
    [Z] between 0 and 255, little-endian encoding, and the decimal and
    hexadecimal formatting of [format!]. *)

From S2P Require Import Prelude.

#[local] Open Scope Z_scope.

(** ** [i64] *)

Definition i64_min : Z := - 2 ^ 63.
Definition i64_max : Z := 2 ^ 63 - 1.
Definition in_i64 (z : Z) : bool := (i64_min <=? z) && (z <=? i64_max).

(** Two's complement reduction of an arbitrary integer to 64 bits. *)
Definition wrap_i64 (z : Z) : Z := (z + 2 ^ 63) mod 2 ^ 64 - 2 ^ 63.

(** [a + b], [a - b], [a * b] and [-a] on [i64]: with overflow checks the
    build panics, without them the result wraps. *)
Definition i64_arith (overflow_checks : bool) (z : Z) : outcome Z :=
  if in_i64 z then Ok z else if overflow_checks then Panic else Ok (wrap_i64 z).

(** [a / b] on [i64] truncates towards zero; a zero divisor and
    [i64::MIN / -1] panic in every build. *)
Definition i64_div (a b : Z) : outcome Z :=
  if (b =? 0) || negb (in_i64 (Z.quot a b)) then Panic else Ok (Z.quot a b).

Lemma in_i64_spec z : in_i64 z = true ↔ i64_min ≤ z ≤ i64_max.
Proof. unfold in_i64. lia. Qed.

Lemma wrap_i64_range z : in_i64 (wrap_i64 z) = true.
Proof.
  apply in_i64_spec. unfold wrap_i64, i64_min, i64_max.
  pose proof (Z.mod_pos_bound (z + 2 ^ 63) (2 ^ 64) ltac:(lia)). lia.
Qed.

Lemma wrap_i64_id z : in_i64 z = true → wrap_i64 z = z.
Proof.
  rewrite in_i64_spec. unfold wrap_i64, i64_min, i64_max. intros.
  rewrite Z.mod_small; lia.
Qed.

Lemma i64_arith_range oc z r : i64_arith oc z = Ok r → in_i64 r = true.
Proof.
  unfold i64_arith. destruct (in_i64 z) eqn:E; [by intros [= <-]|].
  destruct oc; [done|]. intros [= <-]. apply wrap_i64_range.
Qed.

Lemma i64_div_range a b r : i64_div a b = Ok r → in_i64 r = true.
Proof.
  unfold i64_div. destruct (b =? 0); [done|].
  destruct (in_i64 (Z.quot a b)) eqn:E; [|done]. by intros [= <-].
Qed.

#[export] Hint Resolve wrap_i64_range i64_arith_range i64_div_range : rdb.

(** ** [u64] *)

Definition u64_max : N := 2 ^ 64 - 1.

(** [saturating_add(1)]. *)
Definition sat_succ (n : N) : N := N.min (n + 1) u64_max.

Lemma sat_succ_below n : (n < u64_max)%N → sat_succ n = (n + 1)%N.
Proof. unfold sat_succ. lia. Qed.

Lemma sat_succ_bound n : (sat_succ n ≤ u64_max)%N.
Proof. unfold sat_succ. lia. Qed.

Lemma sat_succ_ge n : (n ≤ u64_max)%N → (n ≤ sat_succ n)%N.
Proof. unfold sat_succ. lia. Qed.

(** Wrapping arithmetic on 64-bit hashes, as [Z] modulo 2^64. *)
Definition wrap_u64 (z : Z) : Z := z mod 2 ^ 64.

Lemma wrap_u64_range z : 0 ≤ wrap_u64 z < 2 ^ 64.
Proof. apply Z.mod_pos_bound. lia. Qed.

(** ** Bytes and little-endian order *)

Definition is_byte (b : Z) : bool := (0 <=? b) && (b <? 256).

(** [to_le_bytes] of an [n]-byte unsigned integer, and the cast [as] of a
    wider one (the high bytes are dropped). *)
Fixpoint to_le_bytes (n : nat) (z : Z) : list Z :=
  match n with
  | O => []
  | S n => z mod 256 :: to_le_bytes n (z / 256)
  end.

(** [from_le_bytes]. *)
Fixpoint from_le_bytes (l : list Z) : Z :=
  match l with
  | [] => 0
  | b :: l => b + 256 * from_le_bytes l
  end.

Lemma to_le_bytes_length n z : length (to_le_bytes n z) = n.
Proof. revert z. induction n; intros; cbn; auto. Qed.

Lemma to_le_bytes_byte n z : Forall (λ b, is_byte b = true) (to_le_bytes n z).
Proof.
  revert z. induction n as [|n IH]; intros z; cbn; constructor; [|apply IH].
  unfold is_byte. pose proof (Z.mod_pos_bound z 256 ltac:(lia)). lia.
Qed.

Lemma from_to_le_bytes n z :
  from_le_bytes (to_le_bytes n z) = z mod 2 ^ (8 * Z.of_nat n).
Proof.
  revert z. induction n as [|n IH]; intros z; cbn [to_le_bytes from_le_bytes].
  - cbn. by rewrite Z.mod_1_r.
  - rewrite IH. replace (8 * Z.of_nat (S n)) with (8 + 8 * Z.of_nat n) by lia.
    rewrite Z.pow_add_r by lia. change (2 ^ 8) with 256.
    rewrite (Z.rem_mul_r z 256) by lia. lia.
Qed.

Lemma from_to_le_bytes_id n z :
  0 ≤ z < 2 ^ (8 * Z.of_nat n) → from_le_bytes (to_le_bytes n z) = z.
Proof. intros. rewrite from_to_le_bytes, Z.mod_small; lia. Qed.

Lemma from_le_bytes_range l :
  Forall (λ b, is_byte b = true) l → 0 ≤ from_le_bytes l < 2 ^ (8 * Z.of_nat (length l)).
Proof.
  induction 1 as [|b l Hb _ IH]; cbn [from_le_bytes length]; [cbn; lia|].
  replace (8 * Z.of_nat (S (length l))) with (8 + 8 * Z.of_nat (length l)) by lia.
  rewrite Z.pow_add_r by lia. unfold is_byte in Hb. change (2 ^ 8) with 256. lia.
Qed.

#[export] Hint Rewrite to_le_bytes_length : rdb.
#[export] Hint Resolve to_le_bytes_byte wrap_u64_range : rdb.

(** The bytes of a string and back. *)
Definition string_bytes (s : string) : list Z :=
  (λ c, Z.of_N (Ascii.N_of_ascii c)) <$> String.list_ascii_of_string s.
Definition bytes_string (l : list Z) : string :=
  String.string_of_list_ascii ((λ b, Ascii.ascii_of_N (Z.to_N b)) <$> l).

Lemma string_bytes_inv s : bytes_string (string_bytes s) = s.
Proof.
  unfold bytes_string, string_bytes. rewrite <-list_fmap_compose.
  rewrite <-(String.string_of_list_ascii_of_string s) at 2. f_equal.
  rewrite <-(list_fmap_id (String.list_ascii_of_string s)) at 2.
  apply list_fmap_ext. intros i c _. cbn. by rewrite N2Z.id, Ascii.ascii_N_embedding.
Qed.

Lemma string_bytes_length s : length (string_bytes s) = String.length s.
Proof. unfold string_bytes. rewrite length_fmap. induction s; cbn; auto. Qed.

Lemma string_bytes_byte s : Forall (λ b, is_byte b = true) (string_bytes s).
Proof.
  unfold string_bytes. apply Forall_fmap, Forall_true. intros c. cbn.
  pose proof (Ascii.N_ascii_bounded c). unfold is_byte. lia.
Qed.

Lemma bytes_string_inv l :
  Forall (λ b, is_byte b = true) l → string_bytes (bytes_string l) = l.
Proof.
  intros H. unfold bytes_string, string_bytes.
  rewrite String.list_ascii_of_string_of_list_ascii, <-list_fmap_compose.
  rewrite <-(list_fmap_id l) at 2. apply list_fmap_ext. intros i b Hb. cbn.
  rewrite Forall_lookup in H. specialize (H i b Hb). unfold is_byte in H.
  rewrite Ascii.N_ascii_embedding; lia.
Qed.

(** ** Formatting *)

Definition hex_digit (z : Z) : Ascii.ascii :=
  Ascii.ascii_of_N (Z.to_N (if z <? 10 then 48 + z else 87 + z)).

(** [format!("{:0n x}")]: [n] lowercase hexadecimal digits, most significant
    first. *)
Fixpoint hex_string (n : nat) (z : Z) : string :=
  match n with
  | O => EmptyString
  | S k => hex_string k (z / 16) +:+ String (hex_digit (z mod 16)) EmptyString
  end.

Lemma hex_digit_inj a b :
  0 ≤ a < 16 → 0 ≤ b < 16 → hex_digit a = hex_digit b → a = b.
Proof.
  intros Ha Hb H. unfold hex_digit in H.
  apply (f_equal Ascii.N_of_ascii) in H.
  destruct (a <? 10) eqn:?, (b <? 10) eqn:?;
    rewrite !Ascii.N_ascii_embedding in H by lia; lia.
Qed.

Lemma string_snoc_inj a b c d :
  a +:+ String c EmptyString = b +:+ String d EmptyString → a = b ∧ c = d.
Proof.
  revert b. induction a as [|x a IH]; intros [|y b] H; cbn in H.
  - by injection H.
  - injection H as -> H. by destruct b.
  - injection H as -> H. by destruct a.
  - injection H as -> H. apply IH in H as [-> ->]. done.
Qed.

Lemma hex_string_inj n a b :
  0 ≤ a < 16 ^ Z.of_nat n → 0 ≤ b < 16 ^ Z.of_nat n →
  hex_string n a = hex_string n b → a = b.
Proof.
  revert a b. induction n as [|n IH]; intros a b Ha Hb H.
  { cbn in *. lia. }
  cbn [hex_string] in H. apply string_snoc_inj in H as [H Hd].
  rewrite Nat2Z.inj_succ, Z.pow_succ_r in Ha, Hb by lia.
  apply IH in H; [|split; [apply Z.div_pos; lia|apply Z.div_lt_upper_bound; lia]..].
  apply hex_digit_inj in Hd; [|apply Z.mod_pos_bound; lia..].
  rewrite (Z.div_mod a 16), (Z.div_mod b 16) by lia. lia.
Qed.
