(* ===== verification/Float64.v ===== *)
(** * Float64.v: IEEE 754 binary64 on its bit pattern

    A Rust [f64] is its 64-bit pattern, so [to_bits], [from_bits] and
    [to_le_bytes] are exact; arithmetic and comparison go through the standard
    library's [SpecFloat] (precision 53, exponent bound 1024, round to nearest
    even).  The order on bit patterns the index keys rely on is related to the
    IEEE order by [f64_compare_key]. *)

From Stdlib Require Import Floats.SpecFloat.
From S2P Require Import Prelude Machine.

#[local] Open Scope Z_scope.

Record f64 := F64 { to_bits : Z }.

#[export] Instance f64_eq_dec : EqDecision f64.
Proof. solve_decision. Defined.
#[export] Instance f64_countable : Countable f64.
Proof. refine (inj_countable' to_bits F64 _); by intros []. Defined.

Definition f64_valid (a : f64) : Prop := 0 ≤ to_bits a < 2 ^ 64.

(** ** Decoding and encoding *)

Definition sign_bit (a : f64) : bool := Z.testbit (to_bits a) 63.
Definition magnitude (a : f64) : Z := to_bits a mod 2 ^ 63.

Definition decode_magnitude (s : bool) (m : Z) : spec_float :=
  let e := m / 2 ^ 52 in
  let f := m mod 2 ^ 52 in
  if e =? 2047 then (if f =? 0 then S754_infinity s else S754_nan)
  else if e =? 0 then
    match f with Z.pos p => S754_finite s p (-1074) | _ => S754_zero s end
  else
    match f + 2 ^ 52 with
    | Z.pos p => S754_finite s p (e - 1075)
    | _ => S754_nan
    end.

Definition decode (a : f64) : spec_float :=
  decode_magnitude (sign_bit a) (magnitude a).

Definition sign_weight (s : bool) : Z := if s then 2 ^ 63 else 0.

(** A NaN result is encoded as the quiet NaN without payload. *)
Definition encode (x : spec_float) : f64 :=
  F64 (match x with
       | S754_zero s => sign_weight s
       | S754_infinity s => sign_weight s + 2047 * 2 ^ 52
       | S754_nan => 2047 * 2 ^ 52 + 2 ^ 51
       | S754_finite s m e =>
           if Z.pos m <? 2 ^ 52 then sign_weight s + Z.pos m
           else sign_weight s + (e + 1075) * 2 ^ 52 + (Z.pos m - 2 ^ 52)
       end).

Definition is_nan (a : f64) : bool := 2047 * 2 ^ 52 <? magnitude a.

(** ** Arithmetic, comparison and conversions *)

Definition f64_add (a b : f64) : f64 := encode (SFadd 53 1024 (decode a) (decode b)).
Definition f64_sub (a b : f64) : f64 := encode (SFsub 53 1024 (decode a) (decode b)).
Definition f64_mul (a b : f64) : f64 := encode (SFmul 53 1024 (decode a) (decode b)).
Definition f64_div (a b : f64) : f64 := encode (SFdiv 53 1024 (decode a) (decode b)).

(** Negation flips the sign bit. *)
Definition f64_neg (a : f64) : f64 := F64 (Z.lxor (to_bits a) (2 ^ 63)).

(** [f64::partial_cmp] and [==]. *)
Definition f64_compare (a b : f64) : option comparison := SFcompare (decode a) (decode b).
Definition f64_eqb (a b : f64) : bool := SFeqb (decode a) (decode b).

(** [z as f64], rounding to nearest even. *)
Definition f64_of_Z (z : Z) : f64 := encode (binary_normalize 53 1024 z 0 false).

(** The integer part of a finite float, as truncated by a cast. *)
Definition sf_trunc (x : spec_float) : Z :=
  match x with
  | S754_finite s m e =>
      let a := if 0 <=? e then Z.pos m * 2 ^ e else Z.pos m / 2 ^ (- e) in
      if s then - a else a
  | _ => 0
  end.

(** [f as i64] and [f as usize]: truncation, saturating at the bounds, with
    NaN sent to zero. *)
Definition f64_as (lo hi : Z) (a : f64) : Z :=
  match decode a with
  | S754_nan => 0
  | S754_infinity s => if s then lo else hi
  | x => Z.max lo (Z.min hi (sf_trunc x))
  end.
Definition f64_as_i64 : f64 → Z := f64_as i64_min i64_max.
Definition f64_as_usize : f64 → Z := f64_as 0 (2 ^ 64 - 1).

(** [f64::max] and [clamp]: a NaN operand of [max] is ignored. *)
Definition f64_max (a b : f64) : f64 :=
  if is_nan a then b else
  match f64_compare a b with Some Lt => b | _ => a end.
Definition f64_clamp (lo hi a : f64) : f64 :=
  match f64_compare a lo with
  | Some Lt => lo
  | _ => match f64_compare a hi with Some Gt => hi | _ => a end
  end.

Definition f64_zero : f64 := F64 0.
Definition f64_one : f64 := f64_of_Z 1.

Example f64_add_ex : f64_add (f64_of_Z 1) (f64_of_Z 2) = f64_of_Z 3.
Proof. vm_compute. reflexivity. Qed.
Example f64_bits_ex : to_bits (f64_of_Z 1) = 4607182418800017408.
Proof. vm_compute. reflexivity. Qed.

(** ** The IEEE order on bit patterns *)

(** The sign-magnitude integer of a pattern. Both zeros have key 0. *)
Definition signed_key (a : f64) : Z :=
  if sign_bit a then - magnitude a else magnitude a.

(** [KeyPart::from_value] on a float: all bits inverted for a negative
    pattern, the sign bit flipped otherwise. *)
Definition ordered_bits (a : f64) : Z :=
  if sign_bit a then Z.lxor (to_bits a) (2 ^ 64 - 1) else Z.lxor (to_bits a) (2 ^ 63).

Lemma magnitude_range a : 0 ≤ magnitude a < 2 ^ 63.
Proof. unfold magnitude. apply Z.mod_pos_bound. lia. Qed.

(** The exponent and significand of a decoded non-NaN magnitude. *)
Lemma decode_magnitude_spec s m :
  0 ≤ m ≤ 2047 * 2 ^ 52 →
  (m = 0 ∧ decode_magnitude s m = S754_zero s) ∨
  (m = 2047 * 2 ^ 52 ∧ decode_magnitude s m = S754_infinity s) ∨
  (∃ p e, decode_magnitude s m = S754_finite s p e ∧ 0 < m < 2047 * 2 ^ 52 ∧
     ((e = -1074 ∧ Z.pos p = m ∧ m < 2 ^ 52) ∨
      (-1074 ≤ e ∧ m = (e + 1075) * 2 ^ 52 + (Z.pos p - 2 ^ 52) ∧
       2 ^ 52 ≤ Z.pos p < 2 ^ 53))).
Proof.
  intros Hm. unfold decode_magnitude.
  pose proof (Z.div_mod m (2 ^ 52) ltac:(lia)) as Hdm.
  pose proof (Z.mod_pos_bound m (2 ^ 52) ltac:(lia)) as Hf.
  set (e := m / 2 ^ 52) in *. set (f := m mod 2 ^ 52) in *.
  assert (0 ≤ e ≤ 2047) by lia.
  destruct (e =? 2047) eqn:He.
  { right; left. assert (f = 0) as -> by lia. split; [lia|done]. }
  destruct (e =? 0) eqn:He0.
  - destruct f as [|p|p] eqn:Hfe; [left; split; [lia|done]| |lia].
    right; right. exists p, (-1074). split; [done|]. lia.
  - destruct (f + 2 ^ 52) as [|p|p] eqn:Hp; [lia| |lia].
    right; right. exists p, (e - 1075). split; [done|]. lia.
Qed.

Lemma pos_compare_cont p q : Pos.compare_cont Eq p q = (Z.pos p ?= Z.pos q).
Proof. done. Qed.

(** Comparing decoded magnitudes of positive floats is comparing integers. *)
Lemma SFcompare_magnitude s t m n :
  0 ≤ m ≤ 2047 * 2 ^ 52 → 0 ≤ n ≤ 2047 * 2 ^ 52 →
  SFcompare (decode_magnitude s m) (decode_magnitude t n) =
  Some ((if s then - m else m) ?= (if t then - n else n)).
Proof.
  intros Hm Hn.
  destruct (decode_magnitude_spec s m Hm) as
    [[? ->]|[[? ->]|(p & e & -> & ? & Hp)]];
  destruct (decode_magnitude_spec t n Hn) as
    [[? ->]|[[? ->]|(q & f & -> & ? & Hq)]];
  destruct s, t; unfold SFcompare; f_equal;
    try (symmetry; first [apply Z.compare_eq_iff; lia | apply Z.compare_lt_iff; lia
                         | apply Z.compare_gt_iff; lia]).
  - rewrite pos_compare_cont. destruct (Z.compare_spec e f) as [->| |].
    + rewrite <-Z.compare_antisym. destruct (Z.compare_spec (Z.pos q) (Z.pos p));
        symmetry; first [apply Z.compare_eq_iff; lia | apply Z.compare_lt_iff; lia
                        | apply Z.compare_gt_iff; lia].
    + symmetry. apply Z.compare_gt_iff. nia.
    + symmetry. apply Z.compare_lt_iff. nia.
  - rewrite pos_compare_cont. destruct (Z.compare_spec e f) as [->| |].
    + destruct (Z.compare_spec (Z.pos p) (Z.pos q));
        symmetry; first [apply Z.compare_eq_iff; lia | apply Z.compare_lt_iff; lia
                        | apply Z.compare_gt_iff; lia].
    + symmetry. apply Z.compare_lt_iff. nia.
    + symmetry. apply Z.compare_gt_iff. nia.
Qed.

(** On patterns that are not NaN, the IEEE comparison is the integer
    comparison of the sign-magnitude keys. *)
Lemma f64_compare_key a b :
  is_nan a = false → is_nan b = false →
  f64_compare a b = Some (signed_key a ?= signed_key b).
Proof.
  unfold is_nan, f64_compare, decode, signed_key. intros Ha Hb.
  pose proof (magnitude_range a). pose proof (magnitude_range b).
  apply SFcompare_magnitude; lia.
Qed.

Lemma f64_compare_nan a b : is_nan a = true ∨ is_nan b = true → f64_compare a b = None.
Proof.
  assert (∀ a, is_nan a = true → decode a = S754_nan) as Hnan.
  { clear. intros a. unfold is_nan, decode, decode_magnitude. intros Ha.
    pose proof (magnitude_range a).
    pose proof (Z.div_mod (magnitude a) (2 ^ 52) ltac:(lia)).
    pose proof (Z.mod_pos_bound (magnitude a) (2 ^ 52) ltac:(lia)).
    assert (magnitude a / 2 ^ 52 =? 2047 = true) as -> by lia.
    by assert (magnitude a mod 2 ^ 52 =? 0 = false) as -> by lia. }
  unfold f64_compare. intros [Ha|Hb].
  - by rewrite Hnan.
  - rewrite (Hnan b) by done. by destruct (decode a) as [[]|[]| |[]].
Qed.

Lemma f64_eqb_compare a b : f64_eqb a b = true ↔ f64_compare a b = Some Eq.
Proof.
  unfold f64_eqb, f64_compare, SFeqb.
  destruct (SFcompare (decode a) (decode b)) as [[]|]; naive_solver.
Qed.

Lemma bits_split a : f64_valid a → to_bits a = sign_weight (sign_bit a) + magnitude a.
Proof.
  unfold f64_valid, sign_bit, magnitude. intros Ha.
  pose proof (Z.div_mod (to_bits a) (2 ^ 63) ltac:(lia)) as Hd.
  pose proof (Z.mod_pos_bound (to_bits a) (2 ^ 63) ltac:(lia)).
  rewrite Z.testbit_odd, Z.shiftr_div_pow2 by lia.
  assert (to_bits a / 2 ^ 63 = 0 ∨ to_bits a / 2 ^ 63 = 1) as [Hq|Hq] by lia;
    rewrite Hq in *; cbn; lia.
Qed.

(** Inverting all bits below [n], and setting a clear top bit. *)
Lemma lxor_ones x n : 0 ≤ n → 0 ≤ x < 2 ^ n → Z.lxor x (2 ^ n - 1) = 2 ^ n - 1 - x.
Proof.
  intros Hn Hx. replace (2 ^ n - 1) with (Z.ones n) by (rewrite Z.ones_equiv; lia).
  assert (∀ i, n ≤ i → Z.testbit x i = false) as Hhigh.
  { intros i Hi. rewrite <-(Z.mod_small x (2 ^ n)) by done.
    apply Z.mod_pow2_bits_high. lia. }
  rewrite Z.sub_nocarry_ldiff.
  - apply Z.bits_inj'. intros i Hi. rewrite Z.ldiff_spec, Z.lxor_spec.
    destruct (decide (i < n)).
    + rewrite Z.ones_spec_low by lia. by destruct (Z.testbit x i).
    + rewrite Z.ones_spec_high, Hhigh by lia. done.
  - apply Z.bits_inj'. intros i Hi. rewrite Z.ldiff_spec, Z.bits_0.
    destruct (decide (i < n)).
    + rewrite Z.ones_spec_low by lia. apply andb_false_r.
    + by rewrite Hhigh by lia.
Qed.

Lemma lxor_top x n : 0 ≤ n → 0 ≤ x < 2 ^ n → Z.lxor x (2 ^ n) = 2 ^ n + x.
Proof.
  intros Hn Hx. rewrite <-Z.add_nocarry_lxor; [lia|].
  apply Z.bits_inj'. intros i Hi. rewrite Z.land_spec, Z.bits_0.
  destruct (decide (i = n)) as [->|].
  - rewrite <-(Z.mod_small x (2 ^ n)) by done. by rewrite Z.mod_pow2_bits_high by lia.
  - rewrite Z.pow2_bits_false by lia. apply andb_false_r.
Qed.

Lemma ordered_bits_eq a :
  f64_valid a →
  ordered_bits a = if sign_bit a then 2 ^ 63 - 1 - magnitude a else 2 ^ 63 + magnitude a.
Proof.
  intros Ha. unfold ordered_bits. pose proof (magnitude_range a).
  pose proof (bits_split a Ha) as Hs. unfold f64_valid in Ha.
  destruct (sign_bit a); cbn [sign_weight] in Hs.
  - rewrite lxor_ones by lia. lia.
  - rewrite lxor_top by lia. lia.
Qed.

(** The order of the index keys is the IEEE order, except that the two zeros
    are distinct keys. *)
Lemma ordered_bits_compare a b :
  f64_valid a → f64_valid b → is_nan a = false → is_nan b = false →
  signed_key a ≠ 0 ∨ signed_key b ≠ 0 ∨ sign_bit a = sign_bit b →
  f64_compare a b = Some (ordered_bits a ?= ordered_bits b).
Proof.
  intros Ha Hb Hna Hnb Hz. rewrite f64_compare_key by done.
  rewrite !ordered_bits_eq by done. unfold signed_key in *.
  pose proof (magnitude_range a). pose proof (magnitude_range b).
  f_equal. destruct (sign_bit a), (sign_bit b);
    match goal with |- (?x ?= ?y) = (?u ?= ?v) =>
      destruct (Z.compare_spec x y), (Z.compare_spec u v) end;
    first [done | exfalso; lia | naive_solver lia].
Qed.

Lemma ordered_bits_inj a b :
  f64_valid a → f64_valid b → ordered_bits a = ordered_bits b → a = b.
Proof.
  intros Ha Hb. rewrite !ordered_bits_eq by done. intros H.
  pose proof (magnitude_range a). pose proof (magnitude_range b).
  destruct a as [x], b as [y]. f_equal.
  pose proof (bits_split _ Ha) as Hx. pose proof (bits_split _ Hb) as Hy.
  cbn [to_bits] in *. rewrite Hx, Hy.
  destruct (sign_bit (F64 x)), (sign_bit (F64 y)); cbn [sign_weight]; lia.
Qed.

Lemma ordered_bits_range a : f64_valid a → 0 ≤ ordered_bits a < 2 ^ 64.
Proof.
  intros Ha. rewrite ordered_bits_eq by done. pose proof (magnitude_range a).
  destruct (sign_bit a); lia.
Qed.

(** A float that is at least [64.0] truncates to at least 64. *)
Lemma f64_as_usize_ge_64 a :
  is_nan a = false → signed_key (f64_of_Z 64) ≤ signed_key a → 64 ≤ f64_as_usize a.
Proof.
  change (signed_key (f64_of_Z 64)) with (1029 * 2 ^ 52).
  unfold is_nan, signed_key, f64_as_usize, f64_as, decode. intros Hn H.
  pose proof (magnitude_range a) as Hr.
  destruct (sign_bit a); [lia|].
  destruct (decode_magnitude_spec false (magnitude a) ltac:(lia)) as
    [[? _]|[[_ ->]|(p & e & -> & _ & [(?&?&?)|(He & Hm & Hp)])]]; [lia|lia|lia|].
  assert (-46 ≤ e) by lia. apply Z.max_le_iff. right.
  apply Z.min_glb; [lia|]. cbn [sf_trunc]. destruct (0 <=? e) eqn:He0.
  - assert (1 ≤ 2 ^ e) by (apply (Z.pow_le_mono_r 2 0); lia). nia.
  - apply Z.div_le_lower_bound; [apply Z.pow_pos_nonneg; lia|].
    assert (2 ^ (- e) ≤ 2 ^ 46) by (apply Z.pow_le_mono_r; lia). lia.
Qed.

(** ** The conversion of integers *)

Lemma digits2_pos_bounds p :
  2 ^ (Z.pos (digits2_pos p) - 1) ≤ Z.pos p < 2 ^ Z.pos (digits2_pos p).
Proof.
  induction p as [p IH|p IH|]; cbn [digits2_pos]; [..|done];
    rewrite Pos2Z.inj_succ; replace (Z.succ (Z.pos (digits2_pos p)) - 1)
      with (Z.succ (Z.pos (digits2_pos p) - 1)) by lia;
    rewrite !Z.pow_succ_r by lia; lia.
Qed.

Lemma shr_1_half x : 0 ≤ shr_m x → shr_m (shr_1 x) = shr_m x / 2.
Proof.
  destruct x as [m r s]. cbn. intros Hm. destruct m as [|[p|p|]|p]; cbn; try done; try lia.
  - change (Z.pos p~1) with (2 * Z.pos p + 1). apply Z.div_unique with 1; lia.
  - change (Z.pos p~0) with (2 * Z.pos p). apply Z.div_unique with 0; lia.
Qed.

Lemma shr_iter p x : 0 ≤ shr_m x → shr_m (SpecFloat.iter_pos shr_1 p x) = shr_m x / 2 ^ Z.pos p.
Proof.
  assert (∀ m a b, 0 ≤ m → m / 2 ^ Z.pos a / 2 ^ Z.pos b = m / 2 ^ (Z.pos a + Z.pos b)) as Hdiv.
  { intros m a b Hm. rewrite Z.pow_add_r by lia. by rewrite Z.div_div by lia. }
  assert (∀ m a, 0 ≤ m → 0 ≤ m / 2 ^ Z.pos a) as Hpos by (intros; apply Z.div_pos; lia).
  revert x. induction p as [p IH|p IH|]; intros x Hx; cbn [SpecFloat.iter_pos].
  - assert (shr_m (shr_1 x) = shr_m x / 2 ^ Z.pos 1) as H1 by by apply shr_1_half.
    assert (shr_m (SpecFloat.iter_pos shr_1 p (shr_1 x)) = shr_m x / 2 ^ Z.pos 1 / 2 ^ Z.pos p) as H2.
    { rewrite IH; rewrite H1; auto. }
    rewrite IH by (rewrite H2; auto). rewrite H2, (Hdiv (shr_m x)), <-Pos2Z.inj_add, Hdiv by auto. do 2 f_equal. lia.
  - assert (shr_m (SpecFloat.iter_pos shr_1 p x) = shr_m x / 2 ^ Z.pos p) as H2 by auto.
    rewrite IH by (rewrite H2; auto). rewrite H2, Hdiv by done. do 2 f_equal. lia.
  - by apply shr_1_half.
Qed.

(** A mantissa and exponent of a normal number. *)
Definition normal_float (m e : Z) : Prop := 2 ^ 52 ≤ m < 2 ^ 53 ∧ -52 ≤ e ≤ 12.

Lemma shr_fexp_normal p e :
  -52 ≤ e → Z.pos (digits2_pos p) + e ≤ 65 → 53 ≤ Z.pos (digits2_pos p) →
  let r := shr_fexp 53 1024 (Z.pos p) e loc_Exact in
  normal_float (shr_m r.1) r.2 ∧ r.2 = Z.pos (digits2_pos p) + e - 53.
Proof.
  intros He Hd Hd53. pose proof (digits2_pos_bounds p) as Hp. unfold shr_fexp, normal_float. cbn [Zdigits2].
  unfold fexp, emin. set (d := Z.pos (digits2_pos p)) in *.
  rewrite Z.max_l by lia. replace (d + e - 53 - e) with (d - 53) by lia.
  destruct (d - 53) as [|n|n] eqn:Hn; [| |lia]; cbn [shr fst snd].
  - cbn. replace d with 53 in * by lia. change (53 - 1) with 52 in *. lia.
  - rewrite shr_iter by (cbn; lia). cbn [shr_m shr_record_of_loc]. rewrite <-Hn. split; [|lia]. split; [|lia].
    assert (2 ^ (d - 1) = 2 ^ (d - 53) * 2 ^ 52) as H1 by (rewrite <-Z.pow_add_r by lia; f_equal; lia).
    assert (2 ^ d = 2 ^ (d - 53) * 2 ^ 53) as H2 by (rewrite <-Z.pow_add_r by lia; f_equal; lia).
    rewrite H1, H2 in Hp. assert (0 < 2 ^ (d - 53)) by (apply Z.pow_pos_nonneg; lia).
    split; [apply Z.div_le_lower_bound|apply Z.div_lt_upper_bound]; lia.
Qed.

Lemma digits2_pos_ge n p : 0 ≤ n → 2 ^ n ≤ Z.pos p → n < Z.pos (digits2_pos p).
Proof.
  intros Hn Hp. pose proof (digits2_pos_bounds p). apply (Z.pow_lt_mono_r_iff 2); lia.
Qed.
Lemma digits2_pos_le n p : 0 ≤ n → Z.pos p < 2 ^ n → Z.pos (digits2_pos p) ≤ n.
Proof.
  intros Hn Hp. pose proof (digits2_pos_bounds p).
  assert (Z.pos (digits2_pos p) - 1 < n); [apply (Z.pow_lt_mono_r_iff 2); lia|lia].
Qed.

Lemma round_nearest_even_bounds m l : m ≤ round_nearest_even m l ≤ m + 1.
Proof. destruct l as [|[]]; cbn; try destruct (Z.even m); lia. Qed.

(** Rounding an integer of at most 64 bits gives a normal number. *)
Lemma binary_round_aux_normal s p e :
  -52 ≤ e → 53 ≤ Z.pos (digits2_pos p) → Z.pos (digits2_pos p) + e ≤ 64 →
  ∃ q k, binary_round_aux 53 1024 s (Z.pos p) e loc_Exact = S754_finite s q k ∧ normal_float (Z.pos q) k.
Proof.
  intros He Hd Hde. unfold binary_round_aux.
  pose proof (shr_fexp_normal p e He ltac:(lia) Hd) as Hr. cbv zeta in Hr.
  destruct (shr_fexp 53 1024 (Z.pos p) e loc_Exact) as [x e'] eqn:Hx. cbn [fst snd] in Hr.
  destruct Hr as [[Hm He'] Hee].
  pose proof (round_nearest_even_bounds (shr_m x) (loc_of_shr_record x)) as Hrn.
  destruct (round_nearest_even _ _) as [|q|q] eqn:Hq; [lia| |lia].
  assert (53 ≤ Z.pos (digits2_pos q)) by (pose proof (digits2_pos_ge 52 q ltac:(lia) ltac:(lia)); lia).
  assert (Z.pos (digits2_pos q) ≤ 54) by (apply digits2_pos_le; lia).
  pose proof (shr_fexp_normal q e' ltac:(lia) ltac:(lia) ltac:(lia)) as Hr. cbv zeta in Hr.
  destruct (shr_fexp 53 1024 (Z.pos q) e' loc_Exact) as [y e''] eqn:Hy. cbn [fst snd] in Hr.
  destruct Hr as [Hn _]. destruct (shr_m y) as [|t|t] eqn:Ht; [by destruct Hn; lia| |by destruct Hn; lia].
  exists t, e''. split; [|done]. destruct (Z.leb_spec e'' (1024 - 53)); [done|]. destruct Hn. lia.
Qed.

Lemma digits2_pos_shift p n : Z.pos (digits2_pos (Pos.iter xO p n)) = Z.pos (digits2_pos p) + Z.pos n.
Proof.
  revert p. induction n as [|n IH] using Pos.peano_ind; intros p; [cbn; lia|].
  rewrite Pos.iter_succ. cbn [digits2_pos]. specialize (IH p). lia.
Qed.

Lemma binary_round_normal s p :
  Z.pos (digits2_pos p) ≤ 64 →
  ∃ q k, binary_round 53 1024 s p 0 = S754_finite s q k ∧ normal_float (Z.pos q) k.
Proof.
  intros Hd. unfold binary_round, shl_align, fexp, emin. rewrite Z.add_0_r, Z.max_l by lia. rewrite Z.sub_0_r.
  destruct (Z.pos (digits2_pos p) - 53) as [|n|n] eqn:Hn; apply binary_round_aux_normal;
    rewrite ?digits2_pos_shift; lia.
Qed.

(** The float of an integer of 64 bits is a zero without sign or a normal
    number with its sign. *)
Lemma f64_of_Z_normal z :
  in_i64 z = true → z = 0 ∨ ∃ q k, f64_of_Z z = encode (S754_finite (z <? 0) q k) ∧ normal_float (Z.pos q) k.
Proof.
  unfold in_i64, i64_min, i64_max. intros Hz. destruct z as [|p|p]; [by left|right..]; unfold f64_of_Z; cbn [binary_normalize].
  - destruct (binary_round_normal false p) as (q & k & -> & Hn); [apply digits2_pos_le; lia|by exists q, k].
  - destruct (binary_round_normal true p) as (q & k & -> & Hn); [apply digits2_pos_le; [lia|]; change (Z.neg p) with (- Z.pos p) in Hz; lia|by exists q, k].
Qed.

Lemma encode_normal_bits s q k :
  normal_float (Z.pos q) k → to_bits (encode (S754_finite s q k)) = sign_weight s + (k + 1075) * 2 ^ 52 + (Z.pos q - 2 ^ 52).
Proof. intros [Hq _]. unfold encode. cbn [to_bits]. destruct (Z.ltb_spec (Z.pos q) (2 ^ 52)); [lia|done]. Qed.

Lemma f64_of_Z_valid z : in_i64 z = true → f64_valid (f64_of_Z z).
Proof.
  intros [->|(q & k & -> & Hn)]%f64_of_Z_normal; [done|]. unfold f64_valid. rewrite encode_normal_bits by done.
  destruct Hn. unfold sign_weight. destruct (z <? 0); lia.
Qed.

(** The pattern of -0.0. *)
Definition is_negative_zero (a : f64) : bool := to_bits a =? 2 ^ 63.

Lemma f64_of_Z_not_negative_zero z : in_i64 z = true → is_negative_zero (f64_of_Z z) = false.
Proof.
  unfold is_negative_zero. intros [->|(q & k & -> & Hn)]%f64_of_Z_normal; [done|]. rewrite encode_normal_bits by done.
  destruct Hn. unfold sign_weight. destruct (z <? 0); lia.
Qed.

(** Equality of floats is equality of patterns, away from -0.0. *)
Lemma f64_equal_bits a b :
  f64_valid a → f64_valid b → is_negative_zero a = false → is_negative_zero b = false →
  f64_compare a b = Some Eq → a = b.
Proof.
  intros Ha Hb Hza Hzb Hc.
  destruct (is_nan a) eqn:Hna; [by rewrite f64_compare_nan in Hc by auto|].
  destruct (is_nan b) eqn:Hnb; [by rewrite f64_compare_nan in Hc by auto|].
  rewrite f64_compare_key in Hc by done. injection Hc as Hc%Z.compare_eq.
  pose proof (magnitude_range a). pose proof (magnitude_range b).
  unfold is_negative_zero in *. rewrite (bits_split a) in Hza by done. rewrite (bits_split b) in Hzb by done.
  assert (to_bits a = to_bits b) as Hab.
  { rewrite (bits_split a), (bits_split b) by done.
    unfold signed_key, sign_weight in *. destruct (sign_bit a), (sign_bit b); lia. }
  destruct a, b. cbn in Hab. by subst.
Qed.
