(* ===== verification/Like.v ===== *)
(** * Like.v: SQL LIKE matching (like_match of src/sql/types.rs)

    The dynamic program over two character vectors, the declarative meaning of
    a pattern, and their equivalence. *)

From S2P Require Import Prelude.

Module Like.

(** The code points of the two wildcards. *)
Definition percent : N := 37.
Definition underscore : N := 95.

(** ** The dynamic program

    [dp] is filled row by row; [dp.(i).(j)] says whether the first [i] characters
    of the text match the first [j] of the pattern. *)

(** Row 0 after column [j]: [dp.(0).(j) = dp.(0).(j-1)] while the pattern is a
    percent sign, [false] otherwise. *)
Fixpoint first_row (left : bool) (pattern : list N) : list bool :=
  match pattern with
  | [] => []
  | c :: pattern =>
      let cell := if (c =? percent)%N then left else false in
      cell :: first_row cell pattern
  end.

(** Row [i] after column [j]: [left] is [dp.(i).(j-1)], [diagonal] is
    [dp.(i-1).(j-1)] and the head of [above] is [dp.(i-1).(j)]. *)
Fixpoint next_row (left diagonal : bool) (above : list bool) (t : N) (pattern : list N)
    : list bool :=
  match pattern, above with
  | c :: pattern, up :: above =>
      let cell :=
        if (c =? percent)%N then left || up
        else if (c =? underscore)%N then diagonal
        else (c =? t)%N && diagonal in
      cell :: next_row cell up above t pattern
  | _, _ => []
  end.

(** A row is its column 0 and the rest. *)
Definition row := (bool * list bool)%type.
Definition row0 (pattern : list N) : row := (true, first_row true pattern).
Definition step_row (pattern : list N) (above : row) (t : N) : row :=
  (false, next_row false above.1 above.2 t pattern).

(** [dp[text.len()][pattern.len()]]. *)
Definition like_chars (text pattern : list N) : bool :=
  let r := foldl (step_row pattern) (row0 pattern) text in
  List.last r.2 r.1.

(** ** The meaning of a pattern *)

Inductive matches : list N → list N → Prop :=
| matches_nil : matches [] []
| matches_percent t1 t2 p : matches t2 p → matches (t1 ++ t2) (percent :: p)
| matches_underscore c t p : matches t p → matches (c :: t) (underscore :: p)
| matches_char c t p :
    c ≠ percent → c ≠ underscore → matches t p → matches (c :: t) (c :: p).

#[local] Hint Constructors matches : core.

Lemma matches_app t1 t2 p1 p2 :
  matches t1 p1 → matches t2 p2 → matches (t1 ++ t2) (p1 ++ p2).
Proof.
  induction 1; intros; cbn; [done| |auto..].
  rewrite <-app_assoc. auto.
Qed.

Lemma matches_app_inv t p1 p2 :
  matches t (p1 ++ p2) → ∃ t1 t2, t = t1 ++ t2 ∧ matches t1 p1 ∧ matches t2 p2.
Proof.
  revert t. induction p1 as [|c p1 IH]; intros t H; cbn in H; [by exists [], t; auto|].
  inversion H; subst;
    match goal with Hm : matches _ (p1 ++ p2) |- _ =>
      apply IH in Hm as (u1 & u2 & -> & ? & ?) end.
  - exists (t1 ++ u1), u2. rewrite app_assoc. auto.
  - eexists (_ :: u1), u2. auto.
  - eexists (_ :: u1), u2. auto.
Qed.

Lemma matches_nil_pattern t : matches t [] ↔ t = [].
Proof. split; [by inversion 1|intros ->; auto]. Qed.

(** How a match ends, by the last pattern character. *)
Lemma matches_snoc_percent t p :
  matches t (p ++ [percent]) ↔ ∃ t1 t2, t = t1 ++ t2 ∧ matches t1 p.
Proof.
  split.
  - intros (t1 & t2 & -> & ? & _)%matches_app_inv. eauto.
  - intros (t1 & t2 & -> & ?). apply matches_app; [done|].
    rewrite <-(app_nil_r t2). auto.
Qed.

Lemma matches_snoc_single t p c :
  c ≠ percent →
  matches t (p ++ [c]) ↔
  ∃ t1 d, t = t1 ++ [d] ∧ (c = underscore ∨ c = d) ∧ matches t1 p.
Proof.
  intros Hc. split.
  - intros (t1 & t2 & -> & ? & Hm)%matches_app_inv.
    inversion Hm; subst; [done|..];
      match goal with H : matches _ [] |- _ => apply matches_nil_pattern in H as -> end;
      eauto 6.
  - intros (t1 & d & -> & Hd & ?). apply matches_app; [done|].
    destruct (decide (c = underscore)) as [->|]; [auto|].
    destruct Hd as [-> | ->]; [done|auto].
Qed.

Lemma matches_percent_extend t d p :
  matches (t ++ [d]) (p ++ [percent]) ↔
  matches (t ++ [d]) p ∨ matches t (p ++ [percent]).
Proof.
  rewrite !matches_snoc_percent. split.
  - intros (t1 & t2 & Heq & ?). destruct t2 as [|x t2 _] using rev_ind.
    + left. rewrite app_nil_r in Heq. by rewrite Heq.
    + right. rewrite app_assoc in Heq. apply app_inj_tail in Heq as [-> _]. eauto.
  - intros [?|(t1 & t2 & -> & ?)].
    + exists (t ++ [d]), []. by rewrite app_nil_r.
    + exists t1, (t2 ++ [d]). by rewrite app_assoc.
Qed.

(** ** Correctness of the rows *)

(** [cells] is correct for a text when its entries decide the match with the
    successive extensions of the pattern prefix [done]. *)
Fixpoint row_ok (text : list N) (prefix pattern : list N) (cells : list bool) : Prop :=
  match pattern, cells with
  | [], [] => True
  | c :: pattern, cell :: cells =>
      (cell = true ↔ matches text (prefix ++ [c])) ∧
      row_ok text (prefix ++ [c]) pattern cells
  | _, _ => False
  end.

Lemma first_row_ok left prefix pattern :
  (left = true ↔ matches [] prefix) →
  row_ok [] prefix pattern (first_row left pattern).
Proof.
  revert left prefix. induction pattern as [|c pattern IH]; intros left prefix Hl; cbn; [done|].
  assert ((if (c =? percent)%N then left else false) = true ↔ matches [] (prefix ++ [c])).
  { destruct (N.eqb_spec c percent) as [->|Hc].
    - rewrite Hl, matches_snoc_percent. split; [by exists [], []|].
      intros (t1 & t2 & Heq & ?). by destruct t1.
    - rewrite matches_snoc_single by done. split; [done|].
      intros (t1 & d & Heq & _). by destruct t1. }
  split; [done|]. by apply IH.
Qed.

Lemma next_row_ok text t left diagonal prefix pattern above :
  (left = true ↔ matches (text ++ [t]) prefix) →
  (diagonal = true ↔ matches text prefix) →
  row_ok text prefix pattern above →
  row_ok (text ++ [t]) prefix pattern (next_row left diagonal above t pattern).
Proof.
  revert left diagonal prefix above.
  induction pattern as [|c pattern IH]; intros left diagonal prefix [|up above] Hl Hd Ha;
    cbn in *; try done.
  destruct Ha as [Hup Ha].
  assert ((if (c =? percent)%N then left || up else if (c =? underscore)%N then diagonal
           else (c =? t)%N && diagonal) = true ↔ matches (text ++ [t]) (prefix ++ [c])).
  { destruct (N.eqb_spec c percent) as [->|Hc].
    - by rewrite orb_true_iff, Hl, Hup, matches_percent_extend.
    - rewrite matches_snoc_single by done.
      transitivity ((c = underscore ∨ c = t) ∧ matches text prefix).
      + rewrite <-Hd. destruct (N.eqb_spec c underscore), (N.eqb_spec c t);
          destruct diagonal; naive_solver.
      + split; [intros [??]; by exists text, t|]. intros (t1 & d & Heq & ?). apply app_inj_tail in Heq as [-> ->]. naive_solver. }
  split; [done|]. by apply IH.
Qed.

Definition row_inv (pattern text : list N) (r : row) : Prop :=
  (r.1 = true ↔ matches text []) ∧ row_ok text [] pattern r.2.

Lemma rows_ok pattern text :
  row_inv pattern text (foldl (step_row pattern) (row0 pattern) text).
Proof.
  induction text as [|t text IH] using rev_ind.
  - cbn. split; [cbn; by rewrite matches_nil_pattern|].
    apply first_row_ok. by rewrite matches_nil_pattern.
  - rewrite foldl_snoc. destruct IH as [H0 Hrow].
    assert (false = true ↔ matches (text ++ [t]) []).
    { rewrite matches_nil_pattern. split; [done|]. by destruct text. }
    split; [done|]. by apply next_row_ok.
Qed.

Lemma last_cons_default {A} (l : list A) x d : List.last (x :: l) d = List.last l x.
Proof.
  revert x d. induction l as [|y l IH]; intros x d; [done|].
  transitivity (List.last (y :: l) d); [done|]. by rewrite !IH.
Qed.

Lemma row_ok_last text prefix pattern cells d :
  row_ok text prefix pattern cells → (d = true ↔ matches text prefix) →
  List.last cells d = true ↔ matches text (prefix ++ pattern).
Proof.
  revert prefix cells d. induction pattern as [|c pattern IH]; intros prefix [|cell cells] d Hok Hd;
    cbn in Hok; try done.
  - cbn. by rewrite app_nil_r.
  - destruct Hok as [Hc Hok]. rewrite cons_middle, app_assoc.
    rewrite last_cons_default. by apply IH.
Qed.

(** The dynamic program decides the declarative match. *)
Lemma like_chars_correct text pattern :
  like_chars text pattern = true ↔ matches text pattern.
Proof.
  pose proof (rows_ok pattern text) as [H0 Hrow]. unfold like_chars.
  exact (row_ok_last text [] pattern _ _ Hrow H0).
Qed.

End Like.
