(* ===== verification/Types.v ===== *)
(** * Types.v: the data model of src/sql/types.rs

    Values, three-valued truth, operators, the expression and query trees,
    schemas and rows, with the operations types.rs defines on them.  The class
    [RustStd] collects the functions of the Rust standard library whose tables
    or algorithms are not restated here (Unicode case mapping, shortest float
    formatting, the natural logarithm, [HashMap] iteration order). *)

From Stdlib Require Import Ascii.
From S2P Require Import Prelude Machine Float64 Like.

#[local] Open Scope Z_scope.

(** ** Standard-library parameters *)

Class RustStd := {
  (** [debug_assertions]/[overflow-checks] of the build profile. *)
  overflow_checks : bool;
  (** The order in which a [HashMap] yields its entries: arbitrary, each
      entry once. *)
  hm_iter : ∀ {A : Type}, gmap string A → list (string * A);
  hm_iter_perm : ∀ (A : Type) (m : gmap string A), hm_iter m ≡ₚ map_to_list m;
  (** [f64]'s [Display] and [FromStr]. *)
  f64_to_string : f64 → string;
  f64_from_str : string → option f64;
  (** [str::to_lowercase] followed by [chars]. *)
  lowercase_chars : string → list N;
  (** [str]'s [Debug]. *)
  debug_str : string → string;
  (** [f64::ln]. *)
  f64_ln : f64 → f64;
  (** [slice::select_nth_unstable_by]: some permutation that puts the [n]
      smallest elements first. *)
  select_nth_unstable_by : ∀ {A : Type},
    (A → A → outcome comparison) → nat → list A → outcome (list A);
  select_nth_perm : ∀ (A : Type) (cmp : A → A → outcome comparison) n l l',
    select_nth_unstable_by cmp n l = Ok l' → l' ≡ₚ l;
  select_nth_partition : ∀ (A : Type) (cmp : A → A → outcome comparison) n l,
    preorder_on cmp l → (n < length l)%nat →
    ∃ l', select_nth_unstable_by cmp n l = Ok l' ∧
      ∀ i j x y, l' !! i = Some x → l' !! j = Some y → (i < n → n ≤ j → le_by cmp x y)%nat;
}.

(** [HashMap::keys] and [HashMap::values]. *)
Definition hm_keys `{RustStd} {A} (m : gmap string A) : list string := (hm_iter m).*1.
Definition hm_values `{RustStd} {A} (m : gmap string A) : list A := (hm_iter m).*2.

Section hash_iteration.
Context `{RustStd} {A : Type}.
Implicit Types m : gmap string A.

Lemma elem_of_hm_iter m k a : (k, a) ∈ hm_iter m ↔ m !! k = Some a.
Proof. rewrite (hm_iter_perm A m). apply elem_of_map_to_list. Qed.

Lemma elem_of_hm_values m a : a ∈ hm_values m ↔ ∃ k, m !! k = Some a.
Proof.
  unfold hm_values. rewrite list_elem_of_fmap. split.
  - intros ([k b] & -> & Hin). exists k. by apply elem_of_hm_iter.
  - intros [k Hk]. exists (k, a). by rewrite elem_of_hm_iter.
Qed.

Lemma elem_of_hm_keys m k : k ∈ hm_keys m ↔ k ∈ dom m.
Proof.
  unfold hm_keys. rewrite list_elem_of_fmap, elem_of_dom. split.
  - intros ([k' b] & -> & Hin). exists b. by apply elem_of_hm_iter.
  - intros [a Hk]. exists (k, a). by rewrite elem_of_hm_iter.
Qed.

Lemma hm_iter_NoDup m : NoDup (hm_iter m).*1.
Proof. rewrite (hm_iter_perm A m). apply NoDup_fst_map_to_list. Qed.
End hash_iteration.

(** ** Scalar types and values *)

Inductive DataType := TInteger | TFloat | TText | TBoolean | TNull.
#[export] Instance DataType_eq_dec : EqDecision DataType.
Proof. solve_decision. Defined.

Definition data_type_display (d : DataType) : string :=
  match d with
  | TInteger => "INTEGER" | TFloat => "FLOAT" | TText => "TEXT"
  | TBoolean => "BOOLEAN" | TNull => "NULL"
  end.

Inductive Value :=
| VInteger (z : Z) | VFloat (f : f64) | VText (s : string) | VBoolean (b : bool) | VNull.
#[export] Instance Value_eq_dec : EqDecision Value.
Proof. solve_decision. Defined.

Inductive SqlTruth := STrue | SFalse | SUnknown.
#[export] Instance SqlTruth_eq_dec : EqDecision SqlTruth.
Proof. solve_decision. Defined.

Inductive ComparisonOp :=
| CmpEqual | CmpNotEqual | CmpLessThan | CmpLessThanOrEqual
| CmpGreaterThan | CmpGreaterThanOrEqual | CmpLike.
#[export] Instance ComparisonOp_eq_dec : EqDecision ComparisonOp.
Proof. solve_decision. Defined.

Definition data_type (v : Value) : DataType :=
  match v with
  | VInteger _ => TInteger | VFloat _ => TFloat | VText _ => TText
  | VBoolean _ => TBoolean | VNull => TNull
  end.

Definition is_compatible_with (v : Value) (d : DataType) : bool :=
  match v, d with
  | VNull, _ => true
  | VInteger _, TInteger | VInteger _, TFloat => true
  | VFloat _, TFloat => true
  | VText _, TText => true
  | VBoolean _, TBoolean => true
  | _, _ => false
  end.

Definition coerce_to (v : Value) (d : DataType) : option Value :=
  match v, d with
  | VNull, _ => Some VNull
  | VInteger z, TInteger => Some (VInteger z)
  | VInteger z, TFloat => Some (VFloat (f64_of_Z z))
  | VFloat f, TFloat => Some (VFloat f)
  | VText s, TText => Some (VText s)
  | VBoolean b, TBoolean => Some (VBoolean b)
  | _, _ => None
  end.

Definition is_null (v : Value) : bool := match v with VNull => true | _ => false end.

(** [SqlTruth::from]. *)
Definition truth_of_bool (b : bool) : SqlTruth := if b then STrue else SFalse.

Definition truth (v : Value) : SqlTruth :=
  match v with
  | VBoolean true => STrue
  | VBoolean false => SFalse
  | VNull => SUnknown
  | VInteger z => if z =? 0 then SFalse else STrue
  | VFloat f => if f64_eqb f f64_zero then SFalse else STrue
  | VText s => if bool_decide (s = "") then SFalse else STrue
  end.

Definition truth_and (a b : SqlTruth) : SqlTruth :=
  match a, b with
  | SFalse, _ | _, SFalse => SFalse
  | STrue, STrue => STrue
  | _, _ => SUnknown
  end.

Definition truth_or (a b : SqlTruth) : SqlTruth :=
  match a, b with
  | STrue, _ | _, STrue => STrue
  | SFalse, SFalse => SFalse
  | _, _ => SUnknown
  end.

Definition truth_negate (a : SqlTruth) : SqlTruth :=
  match a with STrue => SFalse | SFalse => STrue | SUnknown => SUnknown end.

(** [executor.rs] and [planner.rs] share this conversion. *)
Definition truth_value (t : SqlTruth) : Value :=
  match t with STrue => VBoolean true | SFalse => VBoolean false | SUnknown => VNull end.

(** [PartialOrd for Value]. *)
Definition value_partial_cmp (a b : Value) : option comparison :=
  match a, b with
  | VInteger x, VInteger y => Some (x ?= y)
  | VFloat x, VFloat y => f64_compare x y
  | VInteger x, VFloat y => f64_compare (f64_of_Z x) y
  | VFloat x, VInteger y => f64_compare x (f64_of_Z y)
  | VText x, VText y => Some (String.compare x y)
  | VBoolean x, VBoolean y => Some (Bool.compare x y)
  | VNull, VNull => Some Eq
  | _, _ => None
  end.

(** The derived [PartialEq for Value]: constructors must agree, floats compare
    by IEEE equality. *)
Definition value_eqb (a b : Value) : bool :=
  match a, b with
  | VInteger x, VInteger y => x =? y
  | VFloat x, VFloat y => f64_eqb x y
  | VText x, VText y => bool_decide (x = y)
  | VBoolean x, VBoolean y => Bool.eqb x y
  | VNull, VNull => true
  | _, _ => false
  end.

(** [Vec<Value> == Vec<Value>]. *)
Fixpoint values_eqb (l k : list Value) : bool :=
  match l, k with
  | [], [] => true
  | x :: l, y :: k => value_eqb x y && values_eqb l k
  | _, _ => false
  end.

(** [i64]'s [FromStr]: an optional sign and at least one digit, in range. *)
Fixpoint parse_digits (s : string) (acc : Z) : option Z :=
  match s with
  | EmptyString => Some acc
  | String c s =>
      let n := Z.of_N (Ascii.N_of_ascii c) in
      if (48 <=? n) && (n <=? 57) then parse_digits s (10 * acc + (n - 48)) else None
  end.
Definition parse_int (lo hi : Z) (s : string) : option Z :=
  let digits (s : string) := match s with EmptyString => None | _ => parse_digits s 0 end in
  let z := match s with
           | String "-"%char s' => Z.opp <$> digits s'
           | String "+"%char s' => digits s'
           | _ => digits s
           end in
  match z with
  | Some z => if (lo <=? z) && (z <=? hi) then Some z else None
  | None => None
  end.

Definition value_display `{RustStd} (v : Value) : string :=
  match v with
  | VInteger z => pretty z
  | VFloat f => f64_to_string f
  | VText s => s
  | VBoolean b => if b then "true" else "false"
  | VNull => "NULL"
  end.

Definition value_parse `{RustStd} (s : string) (d : DataType) : option Value :=
  match d with
  | TInteger => VInteger <$> parse_int i64_min i64_max s
  | TFloat => VFloat <$> f64_from_str s
  | TText => Some (VText s)
  | TBoolean =>
      let l := to_ascii_lowercase s in
      if bool_decide (l = "true" ∨ l = "1" ∨ l = "yes") then Some (VBoolean true)
      else if bool_decide (l = "false" ∨ l = "0" ∨ l = "no") then Some (VBoolean false)
      else None
  | TNull => Some VNull
  end.

(** [like_match]: both sides are lowercased, then matched by characters. *)
Definition like_match `{RustStd} (text pattern : string) : bool :=
  Like.like_chars (lowercase_chars text) (lowercase_chars pattern).

(** [Value::compare_sql] and [Value::compare]. *)
Definition compare_sql `{RustStd} (a b : Value) (op : ComparisonOp) : SqlTruth :=
  if is_null a || is_null b then SUnknown
  else truth_of_bool
    match op with
    | CmpEqual => bool_decide (value_partial_cmp a b = Some Eq)
    | CmpNotEqual => negb (bool_decide (value_partial_cmp a b = Some Eq))
    | CmpLessThan => bool_decide (value_partial_cmp a b = Some Lt)
    | CmpLessThanOrEqual =>
        match value_partial_cmp a b with Some Lt | Some Eq => true | _ => false end
    | CmpGreaterThan => bool_decide (value_partial_cmp a b = Some Gt)
    | CmpGreaterThanOrEqual =>
        match value_partial_cmp a b with Some Gt | Some Eq => true | _ => false end
    | CmpLike => match a, b with VText t, VText p => like_match t p | _, _ => false end
    end.

Definition compare_holds `{RustStd} (a b : Value) (op : ComparisonOp) : bool :=
  bool_decide (compare_sql a b op = STrue).

(** ** Operators and the expression tree *)

Inductive BinaryOp :=
| OpAdd | OpSubtract | OpMultiply | OpDivide | OpCompare (c : ComparisonOp) | OpAnd | OpOr.
#[export] Instance BinaryOp_eq_dec : EqDecision BinaryOp.
Proof. solve_decision. Defined.

Inductive UnaryOp := UNot | UNegate | UPlus.
#[export] Instance UnaryOp_eq_dec : EqDecision UnaryOp.
Proof. solve_decision. Defined.

Inductive AggregateFunction := AggCount | AggSum | AggAvg | AggMax | AggMin.
#[export] Instance AggregateFunction_eq_dec : EqDecision AggregateFunction.
Proof. solve_decision. Defined.

(** [{:?}] of an aggregate function, lowercased. *)
Definition aggregate_name (f : AggregateFunction) : string :=
  match f with
  | AggCount => "count" | AggSum => "sum" | AggAvg => "avg" | AggMax => "max" | AggMin => "min"
  end.

Inductive JoinType := JInner | JLeft | JRight | JCross.
#[export] Instance JoinType_eq_dec : EqDecision JoinType.
Proof. solve_decision. Defined.

#[warnings="-register-all"]
Inductive Expr : Set :=
| EColumn (qualifier : option string) (name : string)
| ELiteral (v : Value)
| EParameter (index : N)
| EIncoming (column : string)
| EBinary (left : Expr) (op : BinaryOp) (right : Expr)
| EUnary (op : UnaryOp) (expr : Expr)
| EIsNull (expr : Expr) (negated : bool)
| ELike (expr pattern : Expr) (negated : bool)
| EInList (expr : Expr) (items : list Expr) (negated : bool)
| EInSubquery (expr : Expr) (query : Query) (negated : bool)
| EExists (query : Query) (negated : bool)
| EScalarSubquery (query : Query)
| EAggregate (function : AggregateFunction) (expr : option Expr) (distinct : bool)
with SelectItem : Set :=
| SWildcard (qualifier : option string)
| SExpr (expr : Expr) (alias : option string)
with TableSource : Set :=
| SrcTable (name : string) (alias : option string)
| SrcDerived (query : Query) (alias : string)
with Join : Set := mkJoin (join_type : JoinType) (source : TableSource) (on : option Expr)
with OrderBy : Set := mkOrderBy (expr : Expr) (descending : bool)
with Cte : Set := mkCte (name : string) (columns : list string) (query : Query)
with Query : Set :=
| mkQuery (ctes : list Cte) (distinct : bool) (projection : list SelectItem)
    (from : option TableSource) (joins : list Join) (selection : option Expr)
    (group_by : list Expr) (having : option Expr) (order_by : list OrderBy)
    (limit : option nat).

Definition q_ctes (q : Query) := let '(mkQuery c _ _ _ _ _ _ _ _ _) := q in c.
Definition q_distinct (q : Query) := let '(mkQuery _ d _ _ _ _ _ _ _ _) := q in d.
Definition q_projection (q : Query) := let '(mkQuery _ _ p _ _ _ _ _ _ _) := q in p.
Definition q_from (q : Query) := let '(mkQuery _ _ _ f _ _ _ _ _ _) := q in f.
Definition q_joins (q : Query) := let '(mkQuery _ _ _ _ j _ _ _ _ _) := q in j.
Definition q_selection (q : Query) := let '(mkQuery _ _ _ _ _ s _ _ _ _) := q in s.
Definition q_group_by (q : Query) := let '(mkQuery _ _ _ _ _ _ g _ _ _) := q in g.
Definition q_having (q : Query) := let '(mkQuery _ _ _ _ _ _ _ h _ _) := q in h.
Definition q_order_by (q : Query) := let '(mkQuery _ _ _ _ _ _ _ _ o _) := q in o.
Definition q_limit (q : Query) := let '(mkQuery _ _ _ _ _ _ _ _ _ l) := q in l.
Definition j_type (j : Join) := let '(mkJoin t _ _) := j in t.
Definition j_source (j : Join) := let '(mkJoin _ s _) := j in s.
Definition j_on (j : Join) := let '(mkJoin _ _ o) := j in o.
Definition o_expr (o : OrderBy) := let '(mkOrderBy e _) := o in e.
Definition o_descending (o : OrderBy) := let '(mkOrderBy _ d) := o in d.
Definition c_name (c : Cte) := let '(mkCte n _ _) := c in n.
Definition c_columns (c : Cte) := let '(mkCte _ l _) := c in l.
Definition c_query (c : Cte) := let '(mkCte _ _ q) := c in q.

(** ** Schemas and rows *)

Record ForeignKeyConstraint := {
  fk_name : option string;
  fk_columns : list string;
  foreign_table : string;
  referred_columns : list string;
}.

Inductive TableConstraint :=
| CPrimaryKey (name : option string) (columns : list string)
| CUnique (name : option string) (columns : list string)
| CCheck (name : option string) (expr : Expr)
| CForeignKey (fk : ForeignKeyConstraint).

Record IndexDef := {
  index_name : string;
  index_columns : list string;
  index_unique : bool;
  index_automatic : bool;
}.
#[export] Instance IndexDef_eq_dec : EqDecision IndexDef.
Proof. solve_decision. Defined.

Record ColumnDef := {
  col_name : string;
  col_type : DataType;
  col_nullable : bool;
  col_primary_key : bool;
  col_unique : bool;
  col_default : option Value;
  col_checks : list Expr;
}.

Record TableSchema := {
  schema_name : string;
  schema_columns : list ColumnDef;
  schema_constraints : list TableConstraint;
  schema_indexes : list IndexDef;
}.

(** A [Row] is its vector of values. *)
Abbreviation Row := (list Value).

Definition column_new (name : string) (d : DataType) : ColumnDef :=
  {| col_name := name; col_type := d; col_nullable := true; col_primary_key := false;
     col_unique := false; col_default := None; col_checks := [] |}.
Definition column_primary_key (c : ColumnDef) : ColumnDef :=
  {| col_name := col_name c; col_type := col_type c; col_nullable := false;
     col_primary_key := true; col_unique := true; col_default := col_default c;
     col_checks := col_checks c |}.
Definition column_set_unique (c : ColumnDef) : ColumnDef :=
  {| col_name := col_name c; col_type := col_type c; col_nullable := col_nullable c;
     col_primary_key := col_primary_key c; col_unique := true;
     col_default := col_default c; col_checks := col_checks c |}.
Definition schema_new (name : string) (columns : list ColumnDef) : TableSchema :=
  {| schema_name := name; schema_columns := columns; schema_constraints := [];
     schema_indexes := [] |}.

(** Assignments to the fields of a column. *)
Definition set_flags (c : ColumnDef) (nullable primary unique : bool) : ColumnDef :=
  {| col_name := col_name c; col_type := col_type c; col_nullable := nullable;
     col_primary_key := primary; col_unique := unique; col_default := col_default c;
     col_checks := col_checks c |}.
Definition set_name (c : ColumnDef) (name : string) : ColumnDef :=
  {| col_name := name; col_type := col_type c; col_nullable := col_nullable c;
     col_primary_key := col_primary_key c; col_unique := col_unique c;
     col_default := col_default c; col_checks := col_checks c |}.
Definition set_default (c : ColumnDef) (value : option Value) : ColumnDef :=
  {| col_name := col_name c; col_type := col_type c; col_nullable := col_nullable c;
     col_primary_key := col_primary_key c; col_unique := col_unique c;
     col_default := value; col_checks := col_checks c |}.
Definition set_type (c : ColumnDef) (d : DataType) : ColumnDef :=
  {| col_name := col_name c; col_type := d; col_nullable := col_nullable c;
     col_primary_key := col_primary_key c; col_unique := col_unique c;
     col_default := col_default c; col_checks := col_checks c |}.
Definition add_check (c : ColumnDef) (check : Expr) : ColumnDef :=
  {| col_name := col_name c; col_type := col_type c; col_nullable := col_nullable c;
     col_primary_key := col_primary_key c; col_unique := col_unique c;
     col_default := col_default c; col_checks := col_checks c ++ [check] |}.

Definition column_named (name : string) (c : ColumnDef) : bool :=
  eq_ignore_ascii_case (col_name c) name.

Definition column_index (s : TableSchema) (name : string) : option nat :=
  position (column_named name) (schema_columns s).
Definition schema_column (s : TableSchema) (name : string) : option ColumnDef :=
  find_first (column_named name) (schema_columns s).
Definition primary_key_position (s : TableSchema) : option nat :=
  position col_primary_key (schema_columns s).

(** [TableSchema::validate_row]: the width first, then column by column. *)
Definition validate_value (v : Value) (c : ColumnDef) : outcome () :=
  if is_null v then
    if col_nullable c then Ok tt
    else Err ("Column '" +:+ col_name c +:+ "' cannot be NULL")
  else if is_compatible_with v (col_type c) then Ok tt
  else Err ("Column '" +:+ col_name c +:+ "' expects " +:+ data_type_display (col_type c)
            +:+ ", got " +:+ data_type_display (data_type v)).

Definition validate_row (s : TableSchema) (row : Row) : outcome () :=
  if decide (length row = length (schema_columns s)) then
    foldM (λ _ '(v, c), validate_value v c) tt (zip row (schema_columns s))
  else Err ("Expected " +:+ pretty (length (schema_columns s)) +:+ " columns, got "
            +:+ pretty (length row)).

Record ResultSet := { rs_columns : list string; rs_rows : list Row }.

(** ** Lemmas on values *)

Definition value_valid (v : Value) : Prop :=
  match v with
  | VInteger z => in_i64 z = true
  | VFloat f => f64_valid f
  | _ => True
  end.

(** A value a column of a type can hold: NULL or of that type. *)
Definition cell_fits (dt : DataType) (v : Value) : Prop := v = VNull ∨ data_type v = dt.

(** A value fits a column. *)
Definition fits (v : Value) (c : ColumnDef) : Prop :=
  if is_null v then col_nullable c = true else is_compatible_with v (col_type c) = true.

Lemma validate_value_Ok v c u : validate_value v c = Ok u ↔ fits v c.
Proof.
  unfold validate_value, fits.
  destruct (is_null v), (col_nullable c), (is_compatible_with v (col_type c)), u; naive_solver.
Qed.

Lemma validate_value_Err v c : validate_value v c ≠ Panic.
Proof. unfold validate_value. by repeat case_match. Qed.

(** The row check accepts exactly the rows of the schema's width whose values
    fit their columns. *)
Lemma validate_row_Ok s row u :
  validate_row s row = Ok u ↔ Forall2 fits row (schema_columns s).
Proof.
  unfold validate_row. case_decide as Hlen.
  - revert Hlen. generalize (schema_columns s) as cs. intros cs.
    revert cs. induction row as [|v row IH]; intros [|c cs] Hlen; cbn in *; try done.
    + destruct u. split; constructor.
    + rewrite bind_Ok, Forall2_cons, <-(IH cs) by lia. split.
      * intros ([] & ?%validate_value_Ok & ?). done.
      * intros [? ?]. exists tt. by rewrite validate_value_Ok.
  - split; [done|]. intros ?%Forall2_length. done.
Qed.

Lemma coerce_to_compatible v d :
  is_Some (coerce_to v d) ↔ is_compatible_with v d = true.
Proof. destruct v, d; cbn; split; intros H; (done || (by destruct H) || eauto). Qed.

Lemma coerce_to_type v d w : coerce_to v d = Some w → w = VNull ∨ data_type w = d.
Proof. destruct v, d; cbn; intros; simplify_eq; auto. Qed.

Lemma coerce_to_null v d w : coerce_to v d = Some w → is_null w = is_null v.
Proof. destruct v, d; cbn; intros; by simplify_eq. Qed.

Lemma coerce_to_idemp v d w : coerce_to v d = Some w → coerce_to w d = Some w.
Proof. destruct v, d; cbn; intros; by simplify_eq. Qed.

Lemma truth_value_truth t : truth (truth_value t) = t.
Proof. by destruct t. Qed.

Lemma truth_negate_and a b :
  truth_negate (truth_and a b) = truth_or (truth_negate a) (truth_negate b).
Proof. by destruct a, b. Qed.

Lemma truth_and_false_l t : truth_and SFalse t = SFalse. Proof. by destruct t. Qed.
Lemma truth_or_true_l t : truth_or STrue t = STrue. Proof. by destruct t. Qed.
Lemma is_null_truth_value t : is_null (truth_value t) = bool_decide (t = SUnknown).
Proof. by destruct t. Qed.

#[export] Hint Rewrite truth_value_truth truth_and_false_l truth_or_true_l : rdb.

Lemma column_index_lt s name i : column_index s name = Some i → (i < length (schema_columns s))%nat.
Proof. apply position_lt. Qed.

(** ** Induction on the mutually defined trees *)

Scheme Expr_tree_ind := Induction for Expr Sort Prop
  with SelectItem_tree_ind := Induction for SelectItem Sort Prop
  with TableSource_tree_ind := Induction for TableSource Sort Prop
  with Join_tree_ind := Induction for Join Sort Prop
  with OrderBy_tree_ind := Induction for OrderBy Sort Prop
  with Cte_tree_ind := Induction for Cte Sort Prop
  with Query_tree_ind := Induction for Query Sort Prop.
Combined Scheme Expr_Query_ind from Expr_tree_ind, SelectItem_tree_ind,
  TableSource_tree_ind, Join_tree_ind, OrderBy_tree_ind, Cte_tree_ind, Query_tree_ind.
