(* ===== verification/Concrete.v ===== *)
(** * Concrete.v: one instance of the standard-library parameters

    The theorems hold for every [RustStd]; the examples that evaluate the model
    use this one.  Maps iterate in key order, text is ASCII, and the logarithm
    is the one of the default false-positive rate, the only argument the
    examples give it. *)

From S2P Require Import Prelude Machine Float64 Like Types.

Definition ascii_chars (s : string) : list N :=
  Ascii.N_of_ascii <$> String.list_ascii_of_string (to_ascii_lowercase s).

(** Sorting the whole slice puts the smallest elements first. *)
Definition select_by_sorting {A} (cmp : A → A → outcome comparison) (n : nat) (l : list A) :
    outcome (list A) := sort_by cmp l.

Lemma StronglySorted_nth {A} (R : A → A → Prop) l i j x y :
  StronglySorted R l → l !! i = Some x → l !! j = Some y → i < j → R x y.
Proof.
  intros Hs. revert i j. induction Hs as [|z l Hs IH Hz]; intros i j; [done|].
  destruct i as [|i], j as [|j]; cbn; intros Hx Hy Hij; [lia| |lia|eapply IH; eauto; lia].
  injection Hx as <-. rewrite Forall_lookup in Hz. eauto.
Qed.

Lemma select_by_sorting_perm A (cmp : A → A → outcome comparison) n l l' :
  select_by_sorting cmp n l = Ok l' → l' ≡ₚ l.
Proof. apply sort_by_perm. Qed.

Lemma select_by_sorting_partition A (cmp : A → A → outcome comparison) n l :
  preorder_on cmp l → n < length l →
  ∃ l', select_by_sorting cmp n l = Ok l' ∧
    ∀ i j x y, l' !! i = Some x → l' !! j = Some y → i < n → n ≤ j → le_by cmp x y.
Proof.
  intros Hpo Hn. destruct (sort_by_sorted cmp l Hpo) as (l' & Hl' & Hs).
  exists l'. split; [done|]. intros i j x y Hx Hy Hi Hj.
  eapply StronglySorted_nth; eauto. lia.
Qed.

Definition concrete_std : RustStd := {|
  overflow_checks := false;
  hm_iter := λ A, map_to_list;
  hm_iter_perm := λ A m, Permutation_refl _;
  f64_to_string := λ f, hex_string 16 (to_bits f);
  f64_from_str := λ _, None;
  lowercase_chars := ascii_chars;
  debug_str := λ s, s;
  f64_ln := λ _, F64 0xC0126BB1BBB55516;
  select_nth_unstable_by := @select_by_sorting;
  select_nth_perm := select_by_sorting_perm;
  select_nth_partition := select_by_sorting_partition;
|}.
