(* ===== verification/Text.v ===== *)
(** * Text.v: facts about decimal, hexadecimal and delimited text

    Characters of printed numbers, unique splitting at a delimiter, and the
    round trip of [i64] through its decimal form.  Shared by the row keys, the
    value parser and the protocol components. *)

From Stdlib Require Import Ascii.
From S2P Require Import Prelude Machine Float64 Like Types Concrete.

(** ** Characters of a string *)

Fixpoint str_all (P : ascii → Prop) (s : string) : Prop :=
  match s with EmptyString => True | String c s => P c ∧ str_all P s end.

Lemma str_all_app P a b : str_all P (a +:+ b) ↔ str_all P a ∧ str_all P b.
Proof. induction a as [|c a IH]; cbn; naive_solver. Qed.

Lemma str_all_impl (P Q : ascii → Prop) s : (∀ c, P c → Q c) → str_all P s → str_all Q s.
Proof. intros HPQ. induction s as [|c s IH]; cbn; naive_solver. Qed.

Definition is_digit (c : ascii) : Prop := (48 ≤ N_of_ascii c ≤ 57)%N.

Lemma pretty_N_char_digit x : is_digit (pretty_N_char x).
Proof. unfold pretty_N_char, is_digit. repeat case_match; cbn; lia. Qed.

Lemma pretty_N_go_digits x s : str_all is_digit s → str_all is_digit (pretty_N_go x s).
Proof.
  revert s. induction (N.lt_wf_0 x) as [x _ IH]; intros s Hs.
  assert (x = 0 ∨ 0 < x)%N as [->|Hx] by lia; [by rewrite pretty_N_go_0|].
  rewrite pretty_N_go_step by done. apply IH; [by apply N.div_lt|].
  split; [apply pretty_N_char_digit|done].
Qed.

Lemma pretty_N_digits (x : N) : str_all is_digit (pretty x).
Proof.
  unfold pretty, pretty_N. case_decide; [cbn; unfold is_digit; cbn; lia|].
  by apply pretty_N_go_digits.
Qed.

Lemma pretty_Z_chars (z : Z) : str_all (λ c, is_digit c ∨ c = "-"%char) (pretty z).
Proof.
  assert (∀ x : N, str_all (λ c, is_digit c ∨ c = "-"%char) (pretty x)) as HN.
  { intros x. eapply str_all_impl, pretty_N_digits. auto. }
  destruct z as [|p|p]; [apply (HN 0%N)|apply (HN (N.pos p))|].
  split; [by right|apply (HN (N.pos p))].
Qed.

Lemma hex_digit_char z : (0 ≤ z < 16)%Z → (48 ≤ N_of_ascii (hex_digit z) ≤ 102)%N.
Proof.
  intros Hz. unfold hex_digit. destruct (z <? 10)%Z eqn:?;
    rewrite N_ascii_embedding by lia; lia.
Qed.

Lemma hex_string_chars n z : str_all (λ c, (48 ≤ N_of_ascii c ≤ 102)%N) (hex_string n z).
Proof.
  revert z. induction n as [|n IH]; intros z; cbn; [done|].
  apply str_all_app. split; [apply IH|]. split; [|done].
  apply hex_digit_char, Z.mod_pos_bound. lia.
Qed.

(** ** Splitting at a delimiter *)

(** The remainder is empty or starts with the delimiter. *)
Definition stops_at (d : ascii) (s : string) : Prop :=
  match s with EmptyString => True | String c _ => c = d end.

Lemma delimited_inj d a b s t :
  str_all (λ c, c ≠ d) a → str_all (λ c, c ≠ d) b → stops_at d s → stops_at d t →
  a +:+ s = b +:+ t → a = b ∧ s = t.
Proof.
  revert b. induction a as [|x a IH]; intros [|y b]; cbn; intros Ha Hb Hs Ht Heq.
  - done.
  - change (s = String y (b +:+ t)) in Heq. subst s. cbn in Hs. naive_solver.
  - change (String x (a +:+ s) = t) in Heq. subst t. cbn in Ht. naive_solver.
  - injection Heq as -> Heq. destruct Ha, Hb. destruct (IH b) as [-> ->]; auto.
Qed.

Lemma app_length_inj a b s t :
  String.length a = String.length b → a +:+ s = b +:+ t → a = b ∧ s = t.
Proof.
  revert b. induction a as [|x a IH]; intros [|y b]; cbn; intros Hl Heq; try done.
  injection Heq as -> Heq. injection Hl as Hl. destruct (IH b) as [-> ->]; auto.
Qed.

Lemma string_app_inj_l a b c : a +:+ b = a +:+ c → b = c.
Proof. induction a as [|x a IH]; cbn; [done|]. intros [= H]. auto. Qed.

(** ** The byte order of strings *)

Definition string_lt (a b : string) : Prop := String.compare a b = Lt.

Lemma string_compare_refl a : String.compare a a = Eq.
Proof. induction a as [|x a IH]; cbn; [done|]. unfold Ascii.compare. by rewrite N.compare_refl. Qed.

Lemma string_lt_irrefl a : ¬ string_lt a a.
Proof. unfold string_lt. by rewrite string_compare_refl. Qed.

#[export] Instance string_lt_trans : Transitive string_lt.
Proof.
  unfold string_lt. intros a b c. revert b c.
  induction a as [|x a IH]; intros [|y b] [|z c]; cbn; try done.
  unfold Ascii.compare.
  destruct (N.compare_spec (N_of_ascii x) (N_of_ascii y)) as [H1|H1|H1];
  destruct (N.compare_spec (N_of_ascii y) (N_of_ascii z)) as [H2|H2|H2]; try done; intros Hab Hbc;
  destruct (N.compare_spec (N_of_ascii x) (N_of_ascii z)); try done; try lia.
  eauto.
Qed.

(** ** Decimal round trip *)

Lemma parse_digits_char x s acc :
  (x < 10)%N →
  parse_digits (String (pretty_N_char x) s) acc = parse_digits s (10 * acc + Z.of_N x)%Z.
Proof.
  intros Hx. assert (x = 0 ∨ x = 1 ∨ x = 2 ∨ x = 3 ∨ x = 4 ∨ x = 5 ∨ x = 6 ∨ x = 7 ∨ x = 8 ∨ x = 9)%N
    as Hcases by lia.
  repeat destruct Hcases as [-> |Hcases]; try subst x; cbn; f_equal; lia.
Qed.

(** Leading digits weigh a power of ten more. *)
Fixpoint pow10 (s : string) : Z :=
  match s with EmptyString => 1 | String _ s => 10 * pow10 s end.

Lemma parse_digits_acc s acc n :
  parse_digits s 0 = Some n → parse_digits s acc = Some (acc * pow10 s + n)%Z.
Proof.
  revert acc n.
  enough (∀ acc a n, parse_digits s a = Some n →
    parse_digits s acc = Some ((acc - a) * pow10 s + n)%Z) as Hgen.
  { intros acc n Hn. rewrite (Hgen acc _ _ Hn). f_equal. lia. }
  induction s as [|c s IH]; intros acc a n; cbn; [intros [= ->]; f_equal; lia|].
  destruct (_ && _); [|done]. intros Hn. rewrite (IH _ _ _ Hn). f_equal. lia.
Qed.

Lemma parse_pretty_N_go x s n :
  parse_digits s 0 = Some n →
  parse_digits (pretty_N_go x s) 0 = Some (Z.of_N x * pow10 s + n)%Z.
Proof.
  revert s n. induction (N.lt_wf_0 x) as [x _ IH]; intros s n Hs.
  assert (x = 0 ∨ 0 < x)%N as [->|Hx] by lia; [by rewrite pretty_N_go_0|].
  rewrite pretty_N_go_step by done.
  erewrite IH; [|by apply N.div_lt|].
  - cbn [pow10]. f_equal. pose proof (N.div_mod x 10 ltac:(done)).
    instantiate (1 := (Z.of_N (x `mod` 10) * pow10 s + n)%Z). nia.
  - rewrite parse_digits_char by (by apply N.mod_lt). rewrite (parse_digits_acc _ _ _ Hs).
    f_equal; lia.
Qed.

Lemma parse_pretty_N x : parse_digits (pretty x) 0 = Some (Z.of_N x).
Proof.
  unfold pretty, pretty_N. case_decide as Hx; [by subst|].
  rewrite (parse_pretty_N_go x "" 0) by done. f_equal. cbn. lia.
Qed.

(** [i64]'s [Display] is parsed back by its [FromStr]. *)
Lemma parse_int_pretty z : in_i64 z = true → parse_int i64_min i64_max (pretty z) = Some z.
Proof.
  intros Hz. unfold parse_int.
  assert (∀ p : positive, ∃ c s, (pretty (N.pos p) : string) = String c s ∧ is_digit c) as Hd.
  { intros p. pose proof (pretty_N_digits (N.pos p)) as Hc.
    destruct (pretty (N.pos p) : string) as [|c s] eqn:E.
    - by pose proof (parse_pretty_N (N.pos p)) as Hp; rewrite E in Hp.
    - exists c, s. by destruct Hc. }
  unfold in_i64 in Hz. destruct z as [|p|p]; [by vm_compute| |].
  - change (pretty (Z.pos p)) with (pretty (N.pos p)). pose proof (parse_pretty_N (N.pos p)) as Hp.
    destruct (Hd p) as (c & s & E & Hc). rewrite E in *. unfold is_digit in Hc.
    assert (c ≠ "-"%char ∧ c ≠ "+"%char) as [Hm Hpl] by (split; intros ->; cbn in Hc; lia).
    destruct c as [[] [] [] [] [] [] [] []]; try done; rewrite Hp; cbn; by rewrite Hz.
  - change (pretty (Z.neg p)) with ("-" +:+ pretty (N.pos p)).
    pose proof (parse_pretty_N (N.pos p)) as Hp. destruct (Hd p) as (c & s & E & Hc).
    rewrite E in *. change ("-" +:+ String c s) with (String "-" (String c s)).
    cbn -[parse_digits i64_min i64_max]. rewrite Hp. cbn [fmap option_fmap option_map].
    change (- Z.of_N (N.pos p))%Z with (Z.neg p). by rewrite Hz.
Qed.

(** ** Properties of values *)

Section value_properties.
Context `{RustStd}.

(** A row is accepted by its schema exactly when it has one value per
    column, NULL only where the column is nullable, and otherwise a value of
    the column's type or an integer in a FLOAT column; the check never
    panics. *)
Theorem validate_row_iff s row :
  validate_row s row ≠ Panic ∧
  (validate_row s row = Ok () ↔
   length row = length (schema_columns s) ∧
   ∀ i v c, row !! i = Some v → schema_columns s !! i = Some c →
     (v = VNull ∧ col_nullable c = true) ∨
     (v ≠ VNull ∧ (data_type v = col_type c ∨ (data_type v = TInteger ∧ col_type c = TFloat)))).
Proof.
  split.
  - unfold validate_row. case_decide; [|done].
    generalize (zip row (schema_columns s)) as l. intros l.
    induction l as [|[v c] l IH]; [done|]. rewrite foldM_cons.
    pose proof (validate_value_Err v c). destruct (validate_value v c) as [[]| |]; done.
  - rewrite validate_row_Ok, Forall2_same_length_lookup.
    assert (∀ v c, fits v c ↔ (v = VNull ∧ col_nullable c = true) ∨
      (v ≠ VNull ∧ (data_type v = col_type c ∨ (data_type v = TInteger ∧ col_type c = TFloat))))
      as Hfits.
    { intros v c. unfold fits. destruct v, (col_type c); cbn; naive_solver. }
    setoid_rewrite Hfits. naive_solver.
Qed.

(** C40. [LIKE] holds of a text and a pattern exactly when the lowercased text
    is in the language of the lowercased pattern: [%] stands for any run of
    characters, [_] for one, any other character for itself. *)
Theorem like_language t p :
  compare_sql (VText t) (VText p) CmpLike = STrue ↔
  Like.matches (lowercase_chars t) (lowercase_chars p).
Proof.
  rewrite <-Like.like_chars_correct. unfold compare_sql, like_match. cbn.
  by destruct (Like.like_chars _ _).
Qed.

(** Integers in the 64-bit range, texts, booleans and NULL survive being
    displayed and parsed back at their own type. *)
Theorem display_parse v :
  value_valid v → data_type v ≠ TFloat → value_parse (value_display v) (data_type v) = Some v.
Proof.
  destruct v as [z|f|s|b|]; cbn; intros Hv Hf; [|done| |by destruct b|]; try done.
  by rewrite parse_int_pretty.
Qed.

(** The truth tables of AND, OR and NOT are Kleene's: AND is the minimum
    and OR the maximum of FALSE < UNKNOWN < TRUE, NOT reverses that order,
    and a truth survives the detour through a value. *)
Theorem kleene_logic a b :
  let rank t := match t with SFalse => 0 | SUnknown => 1 | STrue => 2 end in
  rank (truth_and a b) = rank a `min` rank b ∧
  rank (truth_or a b) = rank a `max` rank b ∧
  rank (truth_negate a) = 2 - rank a ∧
  truth (truth_value a) = a.
Proof. by destruct a, b. Qed.
End value_properties.

Lemma display_parse_witness :
  value_parse (H := concrete_std) (value_display (H := concrete_std) (VInteger (-42))) TInteger
  = Some (VInteger (-42)).
Proof. apply (display_parse (H := concrete_std) (VInteger (-42))); [reflexivity|done]. Defined.
