(* ===== verification/Keys.v ===== *)
(** * Keys.v: index keys and Bloom filters (src/sql/executor.rs, lines 11-97)

    [KeyPart], its derived order and the ordered encoding of floats; the
    FNV-1a hash; the Bloom filter each B-tree index carries, with the proof
    that a filter never denies an inserted key. *)

From S2P Require Import Prelude Machine Float64 Like Types Concrete.

#[local] Open Scope Z_scope.

(** ** Key parts *)

Inductive KeyPart :=
| KNull | KBoolean (b : bool) | KInteger (z : Z) | KFloat (ordered : Z) | KText (s : string).
#[export] Instance KeyPart_eq_dec : EqDecision KeyPart.
Proof. solve_decision. Defined.
#[export] Instance KeyPart_countable : Countable KeyPart.
Proof.
  refine (inj_countable'
    (λ k, match k with
          | KNull => inl (inl ()) | KBoolean b => inl (inr b)
          | KInteger z => inr (inl (inl z)) | KFloat z => inr (inl (inr z))
          | KText s => inr (inr s) end)
    (λ x, match x with
          | inl (inl _) => KNull | inl (inr b) => KBoolean b
          | inr (inl (inl z)) => KInteger z | inr (inl (inr z)) => KFloat z
          | inr (inr s) => KText s end) _).
  by intros [].
Defined.

Abbreviation IndexKey := (list KeyPart).

Definition key_part_from_value (v : Value) : KeyPart :=
  match v with
  | VNull => KNull
  | VBoolean b => KBoolean b
  | VInteger z => KInteger z
  | VFloat f => KFloat (ordered_bits f)
  | VText s => KText s
  end.

(** The derived [Ord]: by variant, then by content. *)
Definition key_part_rank (k : KeyPart) : Z :=
  match k with KNull => 0 | KBoolean _ => 1 | KInteger _ => 2 | KFloat _ => 3 | KText _ => 4 end.
Definition key_part_cmp (a b : KeyPart) : comparison :=
  match a, b with
  | KNull, KNull => Eq
  | KBoolean x, KBoolean y => Bool.compare x y
  | KInteger x, KInteger y => x ?= y
  | KFloat x, KFloat y => x ?= y
  | KText x, KText y => String.compare x y
  | _, _ => key_part_rank a ?= key_part_rank b
  end.

Definition compare_key_part (left right : KeyPart) (op : ComparisonOp) : bool :=
  let ordering := key_part_cmp left right in
  match op with
  | CmpEqual => match ordering with Eq => true | _ => false end
  | CmpNotEqual => match ordering with Eq => false | _ => true end
  | CmpLessThan => match ordering with Lt => true | _ => false end
  | CmpLessThanOrEqual => match ordering with Gt => false | _ => true end
  | CmpGreaterThan => match ordering with Gt => true | _ => false end
  | CmpGreaterThanOrEqual => match ordering with Lt => false | _ => true end
  | CmpLike => false
  end.

(** [{:?}] of a key: the derived [Debug] of [Vec<KeyPart>]. *)
Definition key_part_debug `{RustStd} (k : KeyPart) : string :=
  match k with
  | KNull => "Null"
  | KBoolean b => "Boolean(" +:+ (if b then "true" else "false") +:+ ")"
  | KInteger z => "Integer(" +:+ pretty z +:+ ")"
  | KFloat z => "Float(" +:+ pretty z +:+ ")"
  | KText s => "Text(" +:+ debug_str s +:+ ")"
  end.
Definition key_debug `{RustStd} (key : IndexKey) : string :=
  "[" +:+ join_with ", " (key_part_debug <$> key) +:+ "]".

(** ** FNV-1a *)

Definition fnv1a (bytes : list Z) (seed : Z) : Z :=
  foldl (λ hash byte, wrap_u64 (Z.lxor hash byte * 0x100000001b3)) seed bytes.

(** ** The Bloom filter *)

Record BloomFilter := { bloom_bits : list Z; bloom_hashes : nat }.

(** [std::f64::consts::LN_2] and the decimal literals of the source, by their
    bit patterns. *)
Definition LN_2 : f64 := F64 0x3FE62E42FEFA39EF.
Definition F_0_000001 : f64 := F64 0x3EB0C6F7A0B5ED8D.
Definition F_0_5 : f64 := F64 0x3FE0000000000000.
Definition F_0_01 : f64 := F64 0x3F847AE147AE147B.

(** [f64::ceil] and [f64::round] on a value below 2^52 in magnitude (larger
    ones are integers already). *)
Definition f64_ceil (a : f64) : f64 :=
  match decode a with
  | SpecFloat.S754_finite s m e =>
      if 0 <=? e then a
      else let z := if s then - (Z.pos m / 2 ^ (- e)) else - ((- Z.pos m) / 2 ^ (- e)) in
           if z =? 0 then F64 (sign_weight s) else f64_of_Z z
  | _ => a
  end.
Definition f64_round (a : f64) : f64 :=
  match decode a with
  | SpecFloat.S754_finite s m e =>
      if 0 <=? e then a
      else let n := (2 * Z.pos m + 2 ^ (- e)) / 2 ^ (1 - e) in
           if n =? 0 then F64 (sign_weight s) else f64_of_Z (if s then - n else n)
  | _ => a
  end.

Section bloom.
Context `{RustStd}.

(** The number of bits for [expected] items at rate [rate], before
    rounding up to whole words. *)
Definition bloom_bit_count (expected rate : f64) : Z :=
  f64_as_usize
    (f64_max
      (f64_ceil (f64_div (f64_neg (f64_mul expected (f64_ln rate))) (f64_mul LN_2 LN_2)))
      (f64_of_Z 64)).

Definition bloom_new (expected_items : nat) (false_positive_rate : f64) : BloomFilter :=
  let expected := f64_of_Z (Z.max 1 (Z.of_nat expected_items)) in
  let rate := f64_clamp F_0_000001 F_0_5 false_positive_rate in
  let bit_count := bloom_bit_count expected rate in
  let hashes := f64_as_usize (f64_clamp f64_one (f64_of_Z 16)
    (f64_round (f64_mul (f64_div (f64_of_Z bit_count) expected) LN_2))) in
  {| bloom_bits := replicate (Z.to_nat ((bit_count + 63) / 64)) 0;
     bloom_hashes := Z.to_nat hashes |}.

(** The bit positions of a key. [hashes] is at most 16, so [index as u64]
    is exact. *)
Definition bloom_positions (b : BloomFilter) (key : IndexKey) : list Z :=
  let text := string_bytes (key_debug key) in
  let first := fnv1a text 0xcbf29ce484222325 in
  let second := Z.lor (fnv1a text 0x84222325cbf29ce4) 1 in
  let bit_count := Z.of_nat (length (bloom_bits b)) * 64 in
  (λ i, wrap_u64 (first + wrap_u64 (Z.of_nat i * second)) mod bit_count)
    <$> seq 0 (bloom_hashes b).

Definition set_bit (bits : list Z) (p : Z) : list Z :=
  alter (λ w, Z.lor w (Z.shiftl 1 (p mod 64))) (Z.to_nat (p / 64)) bits.

Definition bloom_insert (b : BloomFilter) (key : IndexKey) : BloomFilter :=
  {| bloom_bits := foldl set_bit (bloom_bits b) (bloom_positions b key);
     bloom_hashes := bloom_hashes b |}.

Definition bit_set (bits : list Z) (p : Z) : bool :=
  match bits !! Z.to_nat (p / 64) with
  | Some w => negb (Z.land w (Z.shiftl 1 (p mod 64)) =? 0)
  | None => false
  end.

Definition might_contain (b : BloomFilter) (key : IndexKey) : bool :=
  forallb (bit_set (bloom_bits b)) (bloom_positions b key).

(** ** The filter has no false negatives *)

(** Every position is inside the bit vector. *)
Definition in_bits (bits : list Z) (p : Z) : Prop :=
  0 ≤ p < Z.of_nat (length bits) * 64.

Lemma bloom_positions_bound b key p :
  (0 < length (bloom_bits b))%nat → p ∈ bloom_positions b key → in_bits (bloom_bits b) p.
Proof.
  intros Hlen. unfold bloom_positions. rewrite list_elem_of_fmap.
  intros (i & -> & _). apply Z.mod_pos_bound. lia.
Qed.

Lemma land_bit w k : 0 ≤ k → negb (Z.land w (Z.shiftl 1 k) =? 0) = Z.testbit w k.
Proof.
  intros Hk. rewrite Z.shiftl_1_l.
  destruct (Z.testbit w k) eqn:E.
  - apply negb_true_iff, Z.eqb_neq. intros H0.
    apply (f_equal (λ z, Z.testbit z k)) in H0.
    by rewrite Z.land_spec, E, Z.pow2_bits_true, Z.bits_0 in H0.
  - apply negb_false_iff, Z.eqb_eq. apply Z.bits_inj'. intros i Hi.
    rewrite Z.land_spec, Z.bits_0. destruct (decide (i = k)) as [->|].
    + by rewrite E.
    + rewrite Z.pow2_bits_false by lia. apply andb_false_r.
Qed.

Lemma bit_set_testbit bits p :
  bit_set bits p =
  match bits !! Z.to_nat (p / 64) with Some w => Z.testbit w (p mod 64) | None => false end.
Proof.
  unfold bit_set. destruct (bits !! _); [|done].
  apply land_bit. pose proof (Z.mod_pos_bound p 64). lia.
Qed.

Lemma set_bit_length bits p : length (set_bit bits p) = length bits.
Proof. apply length_alter. Qed.

Lemma set_bit_self bits p : in_bits bits p → bit_set (set_bit bits p) p = true.
Proof.
  intros [H0 H1]. rewrite bit_set_testbit. unfold set_bit. rewrite list_lookup_alter.
  destruct (decide _) as [_|]; [|done].
  destruct (lookup_lt_is_Some_2 bits (Z.to_nat (p / 64))) as [w ->].
  { apply Nat2Z.inj_lt. rewrite Z2Nat.id by (apply Z.div_pos; lia).
    apply Z.div_lt_upper_bound; lia. }
  cbn. pose proof (Z.mod_pos_bound p 64 ltac:(lia)).
  rewrite Z.lor_spec, Z.shiftl_1_l, Z.pow2_bits_true by lia. apply orb_true_r.
Qed.

Lemma set_bit_mono bits p q : bit_set bits q = true → bit_set (set_bit bits p) q = true.
Proof.
  rewrite !bit_set_testbit. unfold set_bit. rewrite list_lookup_alter.
  destruct (decide _) as [->|]; [|done].
  destruct (bits !! _); [|done]. cbn. intros Hb.
  rewrite Z.lor_spec, Hb. done.
Qed.

Lemma set_bits_mono ps bits q : bit_set bits q = true → bit_set (foldl set_bit bits ps) q = true.
Proof. revert bits. induction ps as [|p ps IH]; intros; cbn; [done|]. apply IH, set_bit_mono; done. Qed.

Lemma set_bits_length ps bits : length (foldl set_bit bits ps) = length bits.
Proof. revert bits. induction ps as [|p ps IH]; intros; cbn; [done|]. by rewrite IH, set_bit_length. Qed.

Lemma set_bits_self ps bits q :
  q ∈ ps → Forall (in_bits bits) ps → bit_set (foldl set_bit bits ps) q = true.
Proof.
  revert bits. induction ps as [|p ps IH]; intros bits Hq Hps; [by apply elem_of_nil in Hq|].
  apply Forall_cons in Hps as [Hp Hps]. cbn. apply elem_of_cons in Hq as [->|Hq].
  - apply set_bits_mono, set_bit_self; done.
  - apply IH; [done|]. eapply Forall_impl; [done|]. unfold in_bits. intros x.
    by rewrite set_bit_length.
Qed.

Lemma bloom_insert_length b key : length (bloom_bits (bloom_insert b key)) = length (bloom_bits b).
Proof. apply set_bits_length. Qed.

Lemma bloom_insert_positions b key key' :
  bloom_positions (bloom_insert b key) key' = bloom_positions b key'.
Proof. unfold bloom_positions. by rewrite bloom_insert_length. Qed.

Lemma bloom_insert_self b key :
  (0 < length (bloom_bits b))%nat → might_contain (bloom_insert b key) key = true.
Proof.
  intros Hlen. unfold might_contain. rewrite bloom_insert_positions.
  apply forallb_true. intros p Hp. apply set_bits_self; [done|].
  apply Forall_forall. intros q Hq. by eapply bloom_positions_bound.
Qed.

Lemma bloom_insert_mono b key key' :
  might_contain b key' = true → might_contain (bloom_insert b key) key' = true.
Proof.
  unfold might_contain. rewrite bloom_insert_positions, !forallb_true.
  intros Hb p Hp. apply set_bits_mono, Hb, Hp.
Qed.

(** A fresh filter has at least one word, so its positions are defined. *)
Lemma bloom_bit_count_ge expected rate : 64 ≤ bloom_bit_count expected rate.
Proof.
  unfold bloom_bit_count, f64_max.
  assert (is_nan (f64_of_Z 64) = false) as H64 by done.
  set (x := f64_ceil _). destruct (is_nan x) eqn:Hx; [by vm_compute|].
  rewrite f64_compare_key by done.
  destruct (Z.compare_spec (signed_key x) (signed_key (f64_of_Z 64))); [| by vm_compute |].
  - apply f64_as_usize_ge_64; [done|lia].
  - apply f64_as_usize_ge_64; [done|lia].
Qed.

Lemma bloom_new_nonempty n rate : (0 < length (bloom_bits (bloom_new n rate)))%nat.
Proof.
  unfold bloom_new. cbn. rewrite length_replicate.
  pose proof (bloom_bit_count_ge (f64_of_Z (Z.max 1 (Z.of_nat n)))
                (f64_clamp F_0_000001 F_0_5 rate)) as Hge.
  apply Nat2Z.inj_lt. rewrite Z2Nat.id by (apply Z.div_pos; lia).
  apply Z.lt_le_trans with (127 / 64); [done|]. apply Z.div_le_mono; lia.
Qed.
End bloom.

#[export] Hint Resolve bloom_insert_mono bloom_new_nonempty : rdb.

(** ** Properties *)

(** A Bloom filter has no false negatives: whatever was inserted, in any
    order and number, is reported as possibly present. *)
Theorem bloom_no_false_negatives `{RustStd} n rate keys key :
  key ∈ keys → might_contain (foldl bloom_insert (bloom_new n rate) keys) key = true.
Proof.
  enough (∀ b, (0 < length (bloom_bits b))%nat →
    (key ∈ keys ∨ might_contain b key = true) →
    might_contain (foldl bloom_insert b keys) key = true) as Hgen.
  { intros Hin. apply Hgen; auto with rdb. }
  induction keys as [|k keys IH]; intros b Hlen Hin; cbn.
  - destruct Hin as [Hin|Hin]; [by apply elem_of_nil in Hin|done].
  - apply IH; [by rewrite bloom_insert_length|].
    rewrite elem_of_cons in Hin. destruct Hin as [[-> |Hin]|Hin]; [right|by left|right].
    + by apply bloom_insert_self.
    + by apply bloom_insert_mono.
Qed.

Lemma bloom_no_false_negatives_witness :
  might_contain (H := concrete_std)
    (foldl (bloom_insert (H := concrete_std)) (bloom_new (H := concrete_std) 2 F_0_01)
       [[KInteger 7]; [KText "a"; KNull]]) [KInteger 7] = true.
Proof.
  apply (bloom_no_false_negatives (H := concrete_std)). apply elem_of_cons. by left.
Defined.

(** The order of float index keys is the IEEE order of the floats, except
    that the two zeros, equal as numbers, have distinct keys. *)
Theorem float_key_order a b c :
  f64_valid a → f64_valid b → f64_compare a b = Some c →
  key_part_cmp (key_part_from_value (VFloat a)) (key_part_from_value (VFloat b)) = c ∨
  (c = Eq ∧ signed_key a = 0 ∧ signed_key b = 0 ∧ sign_bit a ≠ sign_bit b).
Proof.
  intros Ha Hb Hc.
  destruct (is_nan a) eqn:Hna; [rewrite f64_compare_nan in Hc; auto; done|].
  destruct (is_nan b) eqn:Hnb; [rewrite f64_compare_nan in Hc; auto; done|].
  destruct (decide (signed_key a ≠ 0 ∨ signed_key b ≠ 0 ∨ sign_bit a = sign_bit b)) as [Hz|Hz].
  - left. rewrite ordered_bits_compare in Hc by done. by injection Hc.
  - right. rewrite f64_compare_key in Hc by done.
    assert (signed_key a = 0) as Ka by (destruct (decide (signed_key a = 0)); naive_solver).
    assert (signed_key b = 0) as Kb by (destruct (decide (signed_key b = 0)); naive_solver).
    rewrite Ka, Kb in Hc. split_and!; [by injection Hc|done..|naive_solver].
Qed.

Lemma float_key_order_witness :
  key_part_cmp (key_part_from_value (VFloat (f64_of_Z (-3)))) (key_part_from_value (VFloat (f64_of_Z 2)))
  = Lt ∨ (Lt = Eq ∧ signed_key (f64_of_Z (-3)) = 0 ∧ signed_key (f64_of_Z 2) = 0 ∧
          sign_bit (f64_of_Z (-3)) ≠ sign_bit (f64_of_Z 2)).
Proof.
  apply float_key_order; [vm_compute; split; discriminate || reflexivity..|vm_compute; reflexivity].
Defined.
