(* ===== verification/Table.v ===== *)
(** * Table.v: tables and their B-tree indexes (src/sql/executor.rs, 99-500)

    [BTreeIndex] and [Table] with their operations: migration of legacy rows,
    index rebuilding, indexed insertion and replacement, unique-conflict
    detection and the choice of candidate rows for a predicate.

    The specification is [Coherent]: the index map is exactly what the rows
    say, and each Bloom filter admits every indexed key.  Rebuilding
    establishes it; the two incremental operations preserve it. *)

From stdpp Require Import fin_map_dom.
From S2P Require Import Prelude Machine Float64 Like Types Concrete Keys.

(** ** Data *)

Record BTreeIndex := {
  ix_definition : IndexDef;
  ix_entries : gmap IndexKey (gset N);
  ix_bloom : BloomFilter;
}.

Record Table := {
  tb_schema : TableSchema;
  tb_rows : list Row;
  tb_row_ids : list N;
  tb_next_row_id : N;
  tb_primary_key_index : gmap string nat;
  tb_indexes : gmap string BTreeIndex;
  tb_bloom_false_positive_rate : f64;
}.

Definition with_schema (t : Table) (s : TableSchema) : Table :=
  {| tb_schema := s; tb_rows := tb_rows t; tb_row_ids := tb_row_ids t;
     tb_next_row_id := tb_next_row_id t; tb_primary_key_index := tb_primary_key_index t;
     tb_indexes := tb_indexes t;
     tb_bloom_false_positive_rate := tb_bloom_false_positive_rate t |}.
Definition with_rows (t : Table) (rows : list Row) (ids : list N) : Table :=
  {| tb_schema := tb_schema t; tb_rows := rows; tb_row_ids := ids;
     tb_next_row_id := tb_next_row_id t; tb_primary_key_index := tb_primary_key_index t;
     tb_indexes := tb_indexes t;
     tb_bloom_false_positive_rate := tb_bloom_false_positive_rate t |}.

(** ** Automatic indexes *)

Definition index_on (name : string) (columns : list string) (unique : bool) : IndexDef :=
  {| index_name := name; index_columns := columns; index_unique := unique;
     index_automatic := true |}.

Definition constraint_index (table : string) (c : TableConstraint) : option IndexDef :=
  match c with
  | CPrimaryKey name columns =>
      Some (index_on (unwrap_or name (table +:+ "_pk")) columns true)
  | CUnique name columns =>
      Some (index_on (unwrap_or name (table +:+ "_" +:+ join_with "_" columns +:+ "_uk"))
              columns true)
  | CForeignKey fk =>
      Some (index_on (unwrap_or (fk_name fk)
              (table +:+ "_" +:+ join_with "_" (fk_columns fk) +:+ "_fk"))
              (fk_columns fk) false)
  | CCheck _ _ => None
  end.

Definition add_column_index (table : string) (indexes : list IndexDef) (c : ColumnDef) :
    list IndexDef :=
  let covered := existsb (λ i, bool_decide (index_columns i = [col_name c])) indexes in
  if col_primary_key c && negb covered then
    indexes ++ [index_on (table +:+ "_" +:+ col_name c +:+ "_pk") [col_name c] true]
  else if col_unique c && negb covered then
    indexes ++ [index_on (table +:+ "_" +:+ col_name c +:+ "_uk") [col_name c] true]
  else indexes.

Definition automatic_indexes (s : TableSchema) : list IndexDef :=
  foldl (add_column_index (schema_name s))
    (omap (constraint_index (schema_name s)) (schema_constraints s)) (schema_columns s).

Section table.
Context `{RustStd}.

(** ** Keys and index maintenance *)

(** [Table::index_key] reads only the schema of the table. *)
Definition index_key (s : TableSchema) (row : Row) (columns : list string) : option IndexKey :=
  mapM (λ column,
    i ← column_index s column;
    v ← row !! i;
    Some (key_part_from_value v)) columns.

(** [BTreeIndex::empty]. *)
Definition index_empty (d : IndexDef) (expected_items : nat) (rate : f64) : BTreeIndex :=
  {| ix_definition := d; ix_entries := ∅; ix_bloom := bloom_new expected_items rate |}.

(** [entries.entry(key).or_default().insert(row_id); bloom.insert(&key)]. *)
Definition index_add (ix : BTreeIndex) (key : IndexKey) (row_id : N) : BTreeIndex :=
  {| ix_definition := ix_definition ix;
     ix_entries := <[key := {[row_id]} ∪ default ∅ (ix_entries ix !! key)]> (ix_entries ix);
     ix_bloom := bloom_insert (ix_bloom ix) key |}.

(** Removing a row id; an entry left empty is removed with it. *)
Definition index_remove (ix : BTreeIndex) (key : IndexKey) (row_id : N) : BTreeIndex :=
  {| ix_definition := ix_definition ix;
     ix_entries :=
       match ix_entries ix !! key with
       | Some ids =>
           let ids := ids ∖ {[row_id]} in
           if bool_decide (ids = ∅) then delete key (ix_entries ix)
           else <[key := ids]> (ix_entries ix)
       | None => ix_entries ix
       end;
     ix_bloom := ix_bloom ix |}.

Definition index_add_opt (ix : BTreeIndex) (key : option IndexKey) (row_id : N) : BTreeIndex :=
  match key with Some key => index_add ix key row_id | None => ix end.
Definition index_remove_opt (ix : BTreeIndex) (key : option IndexKey) (row_id : N) : BTreeIndex :=
  match key with Some key => index_remove ix key row_id | None => ix end.

(** The loop over the rows of one index definition. *)
Definition row_id_at (t : Table) (position : nat) : N :=
  unwrap_or (tb_row_ids t !! position) (N.of_nat position + 1)%N.

Definition build_index (t : Table) (d : IndexDef) : BTreeIndex :=
  foldl (λ ix '(position, row),
      index_add_opt ix (index_key (tb_schema t) row (index_columns d)) (row_id_at t position))
    (index_empty d (length (tb_rows t)) (tb_bloom_false_positive_rate t))
    (imap pair (tb_rows t)).

Definition primary_text (s : TableSchema) (row : Row) : option string :=
  i ← primary_key_position s; value_display <$> row !! i.

Definition rebuild_index (t : Table) : Table :=
  {| tb_schema := tb_schema t; tb_rows := tb_rows t; tb_row_ids := tb_row_ids t;
     tb_next_row_id := tb_next_row_id t;
     tb_primary_key_index :=
       foldl (λ m '(position, row),
           match primary_text (tb_schema t) row with
           | Some text => <[text := position]> m
           | None => m
           end) ∅ (imap pair (tb_rows t));
     tb_indexes :=
       foldl (λ m d, <[index_name d := build_index t d]> m) ∅
         (schema_indexes (tb_schema t));
     tb_bloom_false_positive_rate := tb_bloom_false_positive_rate t |}.

(** [Table::new]. *)
Definition table_new (s : TableSchema) : Table :=
  rebuild_index
    {| tb_schema := s; tb_rows := []; tb_row_ids := []; tb_next_row_id := 1%N;
       tb_primary_key_index := ∅; tb_indexes := ∅;
       tb_bloom_false_positive_rate := F_0_01 |}.

Definition set_bloom_false_positive_rate (t : Table) (rate : f64) : Table :=
  rebuild_index
    {| tb_schema := tb_schema t; tb_rows := tb_rows t; tb_row_ids := tb_row_ids t;
       tb_next_row_id := tb_next_row_id t;
       tb_primary_key_index := tb_primary_key_index t; tb_indexes := tb_indexes t;
       tb_bloom_false_positive_rate := f64_clamp F_0_000001 F_0_5 rate |}.

Definition column_constraint (c : ColumnDef) : option TableConstraint :=
  if col_primary_key c then Some (CPrimaryKey None [col_name c])
  else if col_unique c then Some (CUnique None [col_name c])
  else None.

Definition max_row_id (ids : list N) : N := foldr N.max 0%N ids.

Definition migrate_legacy_rows (t : Table) : Table :=
  let s := tb_schema t in
  let s := match schema_constraints s with
           | [] => {| schema_name := schema_name s; schema_columns := schema_columns s;
                      schema_constraints := omap column_constraint (schema_columns s);
                      schema_indexes := schema_indexes s |}
           | _ => s
           end in
  let s := match schema_indexes s with
           | [] => {| schema_name := schema_name s; schema_columns := schema_columns s;
                      schema_constraints := schema_constraints s;
                      schema_indexes := automatic_indexes s |}
           | _ => s
           end in
  let ids := if decide (length (tb_row_ids t) = length (tb_rows t)) then tb_row_ids t
             else (λ i, N.of_nat (S i)) <$> seq 0 (length (tb_rows t)) in
  rebuild_index
    {| tb_schema := s; tb_rows := tb_rows t; tb_row_ids := ids;
       tb_next_row_id := sat_succ (max_row_id ids);
       tb_primary_key_index := tb_primary_key_index t; tb_indexes := tb_indexes t;
       tb_bloom_false_positive_rate := tb_bloom_false_positive_rate t |}.

Definition insert_row_indexed (t : Table) (row : Row) : outcome Table :=
  _ ← validate_row (tb_schema t) row;
  let row_id := tb_next_row_id t in
  Ok {| tb_schema := tb_schema t;
        tb_rows := tb_rows t ++ [row];
        tb_row_ids := tb_row_ids t ++ [row_id];
        tb_next_row_id := sat_succ row_id;
        tb_primary_key_index :=
          match primary_text (tb_schema t) row with
          | Some text => <[text := length (tb_rows t)]> (tb_primary_key_index t)
          | None => tb_primary_key_index t
          end;
        tb_indexes :=
          (λ ix, index_add_opt ix
             (index_key (tb_schema t) row (index_columns (ix_definition ix))) row_id)
          <$> tb_indexes t;
        tb_bloom_false_positive_rate := tb_bloom_false_positive_rate t |}.

Definition move_primary (m : gmap string nat) (previous next : option string) (position : nat) :
    gmap string nat :=
  if bool_decide (previous = next) then m
  else
    let m := match previous with
             | Some p => if bool_decide (m !! p = Some position) then delete p m else m
             | None => m
             end in
    match next with Some n => <[n := position]> m | None => m end.

(** One index moves a row id from its previous key to its next one. *)
Definition index_move (row_id : N) (previous next : option IndexKey) (ix : BTreeIndex) :
    BTreeIndex :=
  if bool_decide (previous = next) then ix
  else index_add_opt (index_remove_opt ix previous row_id) next row_id.

Definition replace_row_indexed (t : Table) (position : nat) (row : Row) : outcome Table :=
  _ ← validate_row (tb_schema t) row;
  previous ← ok_or (tb_rows t !! position) "Row position is out of bounds";
  row_id ← ok_or (tb_row_ids t !! position) "Row ID is unavailable";
  Ok {| tb_schema := tb_schema t;
        tb_rows := <[position := row]> (tb_rows t);
        tb_row_ids := tb_row_ids t;
        tb_next_row_id := tb_next_row_id t;
        tb_primary_key_index :=
          move_primary (tb_primary_key_index t)
            (primary_text (tb_schema t) previous) (primary_text (tb_schema t) row) position;
        tb_indexes :=
          (λ ix, index_move row_id
             (index_key (tb_schema t) previous (index_columns (ix_definition ix)))
             (index_key (tb_schema t) row (index_columns (ix_definition ix))) ix)
          <$> tb_indexes t;
        tb_bloom_false_positive_rate := tb_bloom_false_positive_rate t |}.

(** [slice::binary_search] of the standard library: the search interval is
    halved until one element is left.  The fuel is the interval's size. *)
Fixpoint binary_search_loop (fuel : nat) (l : list N) (x : N) (base size : nat) : nat :=
  match fuel with
  | O => base
  | S fuel =>
      if decide (1 < size) then
        let half := size / 2 in
        let mid := base + half in
        let base := match l !! mid with
                    | Some y => if decide (x < y)%N then base else mid
                    | None => base
                    end in
        binary_search_loop fuel l x base (size - half)
      else base
  end.
Definition binary_search (l : list N) (x : N) : option nat :=
  let base := binary_search_loop (length l) l x 0 (length l) in
  if decide (l !! base = Some x) then Some base else None.

(** The conflicts one unique index reports for a row. *)
Definition index_conflicts (t : Table) (row : Row) (ix : BTreeIndex) : gset nat :=
  match index_key (tb_schema t) row (index_columns (ix_definition ix)) with
  | None => ∅
  | Some key =>
      if bool_decide (KNull ∈ key) || negb (might_contain (ix_bloom ix) key) then ∅
      else match ix_entries ix !! key with
           | None => ∅
           | Some row_ids => list_to_set (omap (binary_search (tb_row_ids t)) (elements row_ids))
           end
  end.

Definition unique_conflict_positions (t : Table) (row : Row) : gset nat :=
  ⋃ (index_conflicts t row <$>
       filter (λ ix, index_unique (ix_definition ix)) (hm_values (tb_indexes t))).

(** ** Predicates an index can answer *)

Record IndexPredicate := {
  ip_column : string;
  ip_operator : ComparisonOp;
  ip_value : Value;
}.

Definition reverse_comparison (op : ComparisonOp) : ComparisonOp :=
  match op with
  | CmpLessThan => CmpGreaterThan
  | CmpLessThanOrEqual => CmpGreaterThanOrEqual
  | CmpGreaterThan => CmpLessThan
  | CmpGreaterThanOrEqual => CmpLessThanOrEqual
  | other => other
  end.

Fixpoint collect_index_predicates (e : Expr) : list IndexPredicate :=
  match e with
  | EBinary l OpAnd r => collect_index_predicates l ++ collect_index_predicates r
  | EBinary (EColumn _ name) (OpCompare op) (ELiteral v) =>
      [{| ip_column := name; ip_operator := op; ip_value := v |}]
  | EBinary (ELiteral v) (OpCompare op) (EColumn _ name) =>
      [{| ip_column := name; ip_operator := reverse_comparison op; ip_value := v |}]
  | _ => []
  end.

Definition is_range_op (op : ComparisonOp) : bool :=
  match op with
  | CmpLessThan | CmpLessThanOrEqual | CmpGreaterThan | CmpGreaterThanOrEqual => true
  | _ => false
  end.

(** The walk over the index columns: an equality extends the prefix, the
    first range ends it. *)
Fixpoint index_prefix (predicates : list IndexPredicate) (columns : list string)
    (prefix : IndexKey) : IndexKey * option (ComparisonOp * KeyPart) :=
  match columns with
  | [] => (prefix, None)
  | column :: columns =>
      match find_first (λ p, eq_ignore_ascii_case (ip_column p) column) predicates with
      | Some p =>
          if bool_decide (ip_operator p = CmpEqual) then
            index_prefix predicates columns (prefix ++ [key_part_from_value (ip_value p)])
          else if is_range_op (ip_operator p) then
            (prefix, Some (ip_operator p, key_part_from_value (ip_value p)))
          else (prefix, None)
      | None => (prefix, None)
      end
  end.

Fixpoint starts_with (key prefix : IndexKey) : bool :=
  match prefix, key with
  | [], _ => true
  | x :: prefix, y :: key => bool_decide (x = y) && starts_with key prefix
  | _, _ => false
  end.

Definition key_matches (prefix : IndexKey) (range : option (ComparisonOp * KeyPart))
    (key : IndexKey) : bool :=
  starts_with key prefix &&
  match range with
  | Some (op, value) =>
      is_some_and (λ part, compare_key_part part value op) (key !! length prefix)
  | None => true
  end.

Definition scan_ids (ix : BTreeIndex) (prefix : IndexKey)
    (range : option (ComparisonOp * KeyPart)) : gset N :=
  if bool_decide (length prefix = length (index_columns (ix_definition ix))) && negb (is_some_and (λ _, true) range)
  then if might_contain (ix_bloom ix) prefix
       then default ∅ (ix_entries ix !! prefix) else ∅
  else ⋃ (filter (λ kv, key_matches prefix range kv.1) (map_to_list (ix_entries ix))).*2.

Definition range_score (range : option (ComparisonOp * KeyPart)) : nat :=
  match range with Some _ => 1 | None => 0 end.

(** One iteration of the loop over the indexes: the best choice so far is
    replaced only by a strictly better score. *)
Definition consider_index (predicates : list IndexPredicate)
    (best : option (gset N * string * nat)) (ix : BTreeIndex) :
    option (gset N * string * nat) :=
  let '(prefix, range) :=
    index_prefix predicates (index_columns (ix_definition ix)) [] in
  match prefix, range with
  | [], None => best
  | _, _ =>
      let score := length prefix * 2 + range_score range in
      if is_none_or (λ b : gset N * string * nat, bool_decide (b.2 < score)) best
      then Some (scan_ids ix prefix range, index_name (ix_definition ix), score)
      else best
  end.

Definition candidate_row_ids (t : Table) (selection : option Expr) :
    option (gset N) * option string :=
  match selection with
  | None => (None, None)
  | Some selection =>
      match foldl (consider_index (collect_index_predicates selection)) None
              (hm_values (tb_indexes t)) with
      | Some (ids, name, _) => (Some ids, Some name)
      | None => (None, None)
      end
  end.

Definition best_index_name (t : Table) (selection : option Expr) : option string :=
  (candidate_row_ids t selection).2.
End table.

(** ** The specification of an index *)

Section coherence.
Context `{RustStd}.

(** The row ids an index holds under a key. *)
Definition ix_ids (ix : BTreeIndex) (key : IndexKey) : gset N := default ∅ (ix_entries ix !! key).

(** No empty entry, and the filter admits every key. *)
Record index_wf (ix : BTreeIndex) : Prop := {
  wf_nonempty : ∀ key ids, ix_entries ix !! key = Some ids → ids ≠ ∅;
  wf_bloom : ∀ key ids, ix_entries ix !! key = Some ids → might_contain (ix_bloom ix) key = true;
  wf_bits : 0 < length (bloom_bits (ix_bloom ix));
}.

(** What the rows say: the row with identifier [id] has key [key]. *)
Definition indexed (t : Table) (columns : list string) (key : IndexKey) (id : N) : Prop :=
  ∃ p row, tb_rows t !! p = Some row ∧ tb_row_ids t !! p = Some id ∧
           index_key (tb_schema t) row columns = Some key.

Definition index_ok (t : Table) (ix : BTreeIndex) : Prop :=
  index_wf ix ∧
  ∀ key id, id ∈ ix_ids ix key ↔ indexed t (index_columns (ix_definition ix)) key id.

(** Row identifiers: one per row, increasing, below the next one. *)
Record ids_ok (t : Table) : Prop := {
  ids_length : length (tb_row_ids t) = length (tb_rows t);
  ids_sorted : StronglySorted N.lt (tb_row_ids t);
  ids_fresh : Forall (λ id, id < tb_next_row_id t)%N (tb_row_ids t);
}.

Record Coherent (t : Table) : Prop := {
  co_ids : ids_ok t;
  co_names : dom (tb_indexes t) = list_to_set (index_name <$> schema_indexes (tb_schema t));
  co_definition : ∀ name ix, tb_indexes t !! name = Some ix →
    index_name (ix_definition ix) = name ∧ ix_definition ix ∈ schema_indexes (tb_schema t);
  co_index : ∀ name ix, tb_indexes t !! name = Some ix → index_ok t ix;
}.

(** *** One index *)

Lemma ix_ids_add ix k i key id :
  id ∈ ix_ids (index_add ix k i) key ↔ (key = k ∧ id = i) ∨ id ∈ ix_ids ix key.
Proof.
  unfold ix_ids. cbn. destruct (decide (key = k)) as [->|].
  - rewrite lookup_insert_eq. set_solver.
  - rewrite lookup_insert_ne by done. naive_solver.
Qed.

Lemma ix_ids_remove ix k i key id :
  id ∈ ix_ids (index_remove ix k i) key ↔ id ∈ ix_ids ix key ∧ ¬ (key = k ∧ id = i).
Proof.
  unfold ix_ids. cbn. destruct (ix_entries ix !! k) as [ids|] eqn:Hk.
  - destruct (decide (key = k)) as [->|].
    + rewrite Hk. case_bool_decide.
      * rewrite lookup_delete_eq. set_solver.
      * rewrite lookup_insert_eq. set_solver.
    + case_bool_decide.
      * rewrite lookup_delete_ne by done. naive_solver.
      * rewrite lookup_insert_ne by done. naive_solver.
  - split; [|naive_solver]. intros Hid. split; [done|].
    intros [-> ->]. by rewrite Hk in Hid.
Qed.

Lemma index_add_wf ix k i : index_wf ix → index_wf (index_add ix k i).
Proof.
  intros [Hne Hb Hl]. split; cbn.
  - intros key ids [[_ <-]|[_ ?]]%lookup_insert_Some; [set_solver|eauto].
  - intros key ids [[<- _]|[_ ?]]%lookup_insert_Some.
    + by apply bloom_insert_self.
    + eapply bloom_insert_mono, Hb; done.
  - by rewrite set_bits_length.
Qed.

Lemma index_remove_wf ix k i : index_wf ix → index_wf (index_remove ix k i).
Proof.
  intros [Hne Hb Hl]. split; cbn; [| |done];
    (destruct (ix_entries ix !! k) as [ids0|] eqn:Hk; [case_bool_decide|by eauto]);
    intros key ids; rewrite ?lookup_delete_Some, ?lookup_insert_Some; naive_solver.
Qed.

Lemma index_add_opt_wf ix k i : index_wf ix → index_wf (index_add_opt ix k i).
Proof. destruct k; [apply index_add_wf|done]. Qed.
Lemma index_remove_opt_wf ix k i : index_wf ix → index_wf (index_remove_opt ix k i).
Proof. destruct k; [apply index_remove_wf|done]. Qed.

Lemma ix_ids_add_opt ix k i key id :
  id ∈ ix_ids (index_add_opt ix k i) key ↔ (k = Some key ∧ id = i) ∨ id ∈ ix_ids ix key.
Proof. destruct k; cbn; [rewrite ix_ids_add|]; naive_solver. Qed.
Lemma ix_ids_remove_opt ix k i key id :
  id ∈ ix_ids (index_remove_opt ix k i) key ↔ id ∈ ix_ids ix key ∧ ¬ (k = Some key ∧ id = i).
Proof. destruct k; cbn; [rewrite ix_ids_remove|]; naive_solver. Qed.

Lemma index_add_opt_definition ix k i : ix_definition (index_add_opt ix k i) = ix_definition ix.
Proof. by destruct k. Qed.
Lemma index_move_definition i k k' ix : ix_definition (index_move i k k' ix) = ix_definition ix.
Proof. unfold index_move. case_bool_decide; [done|]. by destruct k, k'. Qed.

Lemma index_empty_wf d n rate : index_wf (index_empty d n rate).
Proof. split; [done..|]. apply bloom_new_nonempty. Qed.

(** A loop that adds the keys of a list of rows. *)
Lemma index_fold_spec {A} (key_of : A → option IndexKey) (id_of : A → N) l ix :
  let res := foldl (λ ix a, index_add_opt ix (key_of a) (id_of a)) ix l in
  index_wf ix →
  index_wf res ∧ ix_definition res = ix_definition ix ∧
  ∀ key id, id ∈ ix_ids res key ↔
    id ∈ ix_ids ix key ∨ ∃ a, a ∈ l ∧ key_of a = Some key ∧ id = id_of a.
Proof.
  intros res. subst res. revert ix. induction l as [|a l IH]; intros ix Hwf; cbn.
  - set_solver.
  - destruct (IH (index_add_opt ix (key_of a) (id_of a))) as (Hwf' & Hd & Hids).
    { by apply index_add_opt_wf. }
    split_and!; [done|by rewrite Hd, index_add_opt_definition|].
    intros key id. rewrite Hids, ix_ids_add_opt. set_solver.
Qed.

Lemma elem_of_imap_pair {A} (l : list A) p x : (p, x) ∈ imap pair l ↔ l !! p = Some x.
Proof.
  rewrite elem_of_lookup_imap. split.
  - by intros (i & y & [= -> ->] & ?).
  - intros ?. by exists p, x.
Qed.

(** An index built from the rows says what the rows say. *)
Lemma build_index_ok t d :
  length (tb_row_ids t) = length (tb_rows t) →
  ix_definition (build_index t d) = d ∧ index_ok t (build_index t d).
Proof.
  intros Hlen. unfold build_index, index_ok.
  rewrite (foldl_ext _ (λ ix a, index_add_opt ix
    (index_key (tb_schema t) a.2 (index_columns d)) (row_id_at t a.1)))
    by (by intros ? []).
  destruct (index_fold_spec (λ a : nat * Row, index_key (tb_schema t) a.2 (index_columns d))
    (λ a, row_id_at t a.1) (imap pair (tb_rows t)) _
    (index_empty_wf d (length (tb_rows t)) (tb_bloom_false_positive_rate t)))
    as (Hwf & Hd & Hids).
  split_and!; [done..|]. intros key id. rewrite Hids, Hd. unfold indexed.
  split.
  - intros [?|([p row] & Hin%elem_of_imap_pair & Hkey & ->)]; [set_solver|].
    exists p, row. cbn in *. split_and!; [done| |done]. unfold row_id_at.
    destruct (lookup_lt_is_Some_2 (tb_row_ids t) p) as [i Hi].
    { rewrite Hlen. by eapply lookup_lt_Some. }
    by rewrite Hi.
  - intros (p & row & Hrow & Hid & Hkey). right. exists (p, row). cbn.
    rewrite elem_of_imap_pair. split_and!; [done..|]. unfold row_id_at. by rewrite Hid.
Qed.

Lemma rebuild_lookup t name ix :
  tb_indexes (rebuild_index t) !! name = Some ix →
  ∃ d, d ∈ schema_indexes (tb_schema t) ∧ index_name d = name ∧ ix = build_index t d.
Proof.
  cbn. generalize (schema_indexes (tb_schema t)) as ds. intros ds.
  induction ds as [|d ds IH] using rev_ind; [done|].
  rewrite foldl_app. cbn. rewrite lookup_insert_Some. set_solver.
Qed.

Lemma rebuild_dom t :
  dom (tb_indexes (rebuild_index t)) =
  list_to_set (index_name <$> schema_indexes (tb_schema t)).
Proof.
  cbn. generalize (schema_indexes (tb_schema t)) as ds. intros ds.
  induction ds as [|d ds IH] using rev_ind; [set_solver|].
  rewrite foldl_app. cbn. rewrite dom_insert_L, IH, fmap_app, list_to_set_app_L. set_solver.
Qed.

(** Rebuilding establishes coherence. *)
Lemma rebuild_coherent t : ids_ok t → Coherent (rebuild_index t).
Proof.
  intros Hids. split.
  - destruct Hids as [Hl Hs Hf]. exact (Build_ids_ok (rebuild_index t) Hl Hs Hf).
  - exact (rebuild_dom t).
  - intros name ix (d & Hd & Hn & ->)%rebuild_lookup.
    destruct (build_index_ok t d (ids_length _ Hids)) as [-> _]. done.
  - intros name ix (d & Hd & Hn & ->)%rebuild_lookup.
    destruct (build_index_ok t d (ids_length _ Hids)) as [_ Hok]. exact Hok.
Qed.

Lemma table_new_coherent s : Coherent (table_new s).
Proof. apply rebuild_coherent. split; cbn; [done|constructor..]. Qed.

(** Two well-formed indexes with the same meaning have the same entries:
    coherence determines the index map. *)
Lemma index_entries_ext ix ix' :
  index_wf ix → index_wf ix' → (∀ key, ix_ids ix key = ix_ids ix' key) →
  ix_entries ix = ix_entries ix'.
Proof.
  intros Hwf Hwf' Heq. apply map_eq. intros key. specialize (Heq key). unfold ix_ids in Heq.
  destruct (ix_entries ix !! key) as [ids|] eqn:E, (ix_entries ix' !! key) as [ids'|] eqn:E';
    cbn in *; [by subst| | |done].
  - by destruct (wf_nonempty _ Hwf _ _ E).
  - by destruct (wf_nonempty _ Hwf' _ _ E').
Qed.

(** *** Insertion *)

Lemma StronglySorted_snoc (l : list N) x :
  StronglySorted N.lt l → Forall (λ y, y < x)%N l → StronglySorted N.lt (l ++ [x]).
Proof.
  intros Hs Hx. induction Hs as [|y l Hs IH Hy]; cbn; [by repeat constructor|].
  apply Forall_cons in Hx as [Hyx Hx]. constructor; [auto|]. apply Forall_app. auto.
Qed.

Lemma insert_ids_ok t row t' :
  ids_ok t → (tb_next_row_id t < u64_max)%N → insert_row_indexed t row = Ok t' → ids_ok t'.
Proof.
  intros [Hl Hs Hf] Hmax Hins. unfold insert_row_indexed in Hins. inv_ok.
  constructor; cbn.
  - rewrite !length_app. cbn. lia.
  - by apply StronglySorted_snoc.
  - rewrite sat_succ_below by done. apply Forall_app. split; [|repeat constructor; lia].
    eapply Forall_impl; [done|]. cbn. lia.
Qed.

Lemma indexed_snoc t row columns key id :
  ids_ok t →
  let t' := with_rows t (tb_rows t ++ [row]) (tb_row_ids t ++ [tb_next_row_id t]) in
  indexed t' columns key id ↔
  indexed t columns key id ∨
  (id = tb_next_row_id t ∧ index_key (tb_schema t) row columns = Some key).
Proof.
  intros [Hl _ _] t'. unfold indexed. cbn. split.
  - intros (p & r & [Hr|[Hp Hr]]%lookup_app_Some & Hid & Hk).
    + rewrite lookup_app_l in Hid by (rewrite Hl; by eapply lookup_lt_Some). naive_solver.
    + rewrite lookup_app_r in Hid by lia. rewrite Hl in Hid.
      apply list_lookup_singleton_Some in Hr as [Hp' <-].
      rewrite Hp' in Hid. injection Hid as <-. auto.
  - intros [(p & r & Hr & Hid & Hk)|[-> Hk]].
    + exists p, r. split_and!; [by apply lookup_app_l_Some..|done].
    + exists (length (tb_rows t)), row. split_and!; [|rewrite <-Hl|done];
        by rewrite lookup_app_r, Nat.sub_diag.
Qed.

(** The incremental insertion keeps every index what a rebuild would make it. *)
Lemma insert_coherent t row t' :
  Coherent t → (tb_next_row_id t < u64_max)%N → insert_row_indexed t row = Ok t' →
  Coherent t'.
Proof.
  intros Hco Hmax Hins. pose proof (insert_ids_ok _ _ _ (co_ids _ Hco) Hmax Hins) as Hids'.
  destruct Hco as [Hids Hdom Hdef Hix]. unfold insert_row_indexed in Hins. inv_ok.
  split; cbn.
  - done.
  - by rewrite dom_fmap_L.
  - intros name ix'. rewrite lookup_fmap_Some. intros (ix & <- & Hlk).
    rewrite index_add_opt_definition. eauto.
  - intros name ix'. rewrite lookup_fmap_Some. intros (ix & <- & Hlk).
    destruct (Hix _ _ Hlk) as [Hwf Hspec]. split; [by apply index_add_opt_wf|].
    intros key id. rewrite ix_ids_add_opt, Hspec, index_add_opt_definition.
    pose proof (indexed_snoc t row (index_columns (ix_definition ix)) key id Hids) as Hs.
    cbn in Hs. unfold indexed in Hs |- *. cbn in Hs |- *. rewrite Hs. naive_solver.
Qed.

(** *** Replacement *)

Lemma StronglySorted_lookup_lt (l : list N) i j x y :
  StronglySorted N.lt l → l !! i = Some x → l !! j = Some y → i < j → (x < y)%N.
Proof.
  intros Hs. revert i j. induction Hs as [|z l Hs IH Hz]; intros i j; [done|].
  destruct i as [|i], j as [|j]; cbn; intros Hx Hy Hij; [lia| |lia|eapply IH; eauto; lia].
  injection Hx as <-. rewrite Forall_lookup in Hz. eauto.
Qed.

Lemma StronglySorted_lookup_inj (l : list N) i j x :
  StronglySorted N.lt l → l !! i = Some x → l !! j = Some x → i = j.
Proof.
  intros Hs Hi Hj. destruct (Nat.lt_trichotomy i j) as [Hij|[->|Hij]]; [|done|].
  - pose proof (StronglySorted_lookup_lt l i j x x Hs Hi Hj Hij). lia.
  - pose proof (StronglySorted_lookup_lt l j i x x Hs Hj Hi Hij). lia.
Qed.

Lemma indexed_replace t p previous row row_id columns key id :
  ids_ok t → tb_rows t !! p = Some previous → tb_row_ids t !! p = Some row_id →
  let t' := with_rows t (<[p := row]> (tb_rows t)) (tb_row_ids t) in
  indexed t' columns key id ↔
  (indexed t columns key id ∧
     ¬ (index_key (tb_schema t) previous columns = Some key ∧ id = row_id)) ∨
  (index_key (tb_schema t) row columns = Some key ∧ id = row_id).
Proof.
  intros [_ Hs _] Hprev Hid. unfold indexed. cbn. split.
  - intros (q & r & Hr & Hq & Hk). apply list_lookup_insert_Some in Hr as [(<- & -> & _)|(Hpq & Hr)].
    + right. split; [done|congruence].
    + left. split; [eauto|]. intros [_ ->]. apply Hpq. by eapply StronglySorted_lookup_inj.
  - intros [((q & r & Hr & Hq & Hk) & Hne)|[Hk ->]].
    + exists q, r. split_and!; [|done..]. rewrite list_lookup_insert_ne; [done|].
      intros <-. apply Hne. simplify_eq. done.
    + exists p, row. split_and!; [|done..]. apply list_lookup_insert_eq.
      by eapply lookup_lt_Some.
Qed.

Lemma index_move_ids i k k' ix key id :
  (∀ key, k = Some key → i ∈ ix_ids ix key) →
  id ∈ ix_ids (index_move i k k' ix) key ↔
  (id ∈ ix_ids ix key ∧ ¬ (k = Some key ∧ id = i)) ∨ (k' = Some key ∧ id = i).
Proof.
  intros Hin. unfold index_move. case_bool_decide as Hk.
  - subst k'. split; [|naive_solver]. intros Hid. destruct (decide (id = i)) as [->|]; [|naive_solver].
    destruct (decide (k = Some key)); naive_solver.
  - rewrite ix_ids_add_opt, ix_ids_remove_opt. naive_solver.
Qed.

Lemma index_move_wf i k k' ix : index_wf ix → index_wf (index_move i k k' ix).
Proof.
  intros Hwf. unfold index_move. case_bool_decide; [done|].
  by apply index_add_opt_wf, index_remove_opt_wf.
Qed.

Lemma replace_coherent t p row t' :
  Coherent t → replace_row_indexed t p row = Ok t' → Coherent t'.
Proof.
  intros [Hids Hdom Hdef Hix] Hrep. unfold replace_row_indexed in Hrep. inv_ok.
  rename select (tb_rows t !! p = Some _) into Hprev.
  rename select (tb_row_ids t !! p = Some _) into Hid.
  split; cbn.
  - destruct Hids. constructor; cbn; [by rewrite length_insert|done..].
  - by rewrite dom_fmap_L.
  - intros name ix'. rewrite lookup_fmap_Some. intros (ix & <- & Hlk).
    rewrite index_move_definition. eauto.
  - intros name ix'. rewrite lookup_fmap_Some. intros (ix & <- & Hlk).
    destruct (Hix _ _ Hlk) as [Hwf Hspec]. split; [by apply index_move_wf|].
    intros key id. rewrite index_move_ids, Hspec, index_move_definition.
    + symmetry. by apply indexed_replace.
    + intros key' Hkey'. apply Hspec. by eexists p, _.
Qed.

(** *** Binary search *)

Lemma binary_search_loop_spec fuel l x base size i :
  StronglySorted N.lt l → l !! i = Some x →
  base ≤ i < base + size → base + size ≤ length l → size ≤ fuel →
  binary_search_loop fuel l x base size = i.
Proof.
  intros Hs Hi. revert base size.
  induction fuel as [|fuel IH]; intros base size Hb Hlen Hf; cbn [binary_search_loop]; [lia|].
  case_decide as Hsize; [|lia].
  assert (0 < size / 2 < size) as Hhalf by (split; [apply Nat.div_str_pos|apply Nat.div_lt]; lia).
  destruct (lookup_lt_is_Some_2 l (base + size / 2)) as [y Hy]; [lia|]. rewrite Hy.
  assert (2 * (size / 2) ≤ size) by (apply Nat.Div0.mul_div_le).
  case_decide as Hxy.
  - apply IH; [|lia..]. destruct (decide (i < base + size / 2)); [lia|].
    destruct (decide (i = base + size / 2)) as [->|]; [simplify_eq; lia|].
    pose proof (StronglySorted_lookup_lt l (base + size / 2) i y x Hs Hy Hi). lia.
  - apply IH; [|lia..]. destruct (decide (base + size / 2 ≤ i)); [lia|].
    pose proof (StronglySorted_lookup_lt l i (base + size / 2) x y Hs Hi Hy). lia.
Qed.

Lemma binary_search_Some l x i :
  StronglySorted N.lt l → binary_search l x = Some i ↔ l !! i = Some x.
Proof.
  intros Hs. unfold binary_search. case_decide as Hb; split.
  - by intros [= <-].
  - intros Hi. f_equal. by eapply StronglySorted_lookup_inj.
  - done.
  - intros Hi. destruct Hb. pose proof (lookup_lt_Some _ _ _ Hi).
    by rewrite (binary_search_loop_spec _ _ _ _ _ i) by (done || lia).
Qed.

(** *** Unique conflicts *)

Lemma elem_of_index_conflicts t row name ix p :
  Coherent t → tb_indexes t !! name = Some ix →
  p ∈ index_conflicts t row ix ↔
  ∃ key other, index_key (tb_schema t) row (index_columns (ix_definition ix)) = Some key ∧
    KNull ∉ key ∧ tb_rows t !! p = Some other ∧
    index_key (tb_schema t) other (index_columns (ix_definition ix)) = Some key.
Proof.
  intros Hco Hlk. destruct (co_index _ Hco _ _ Hlk) as [Hwf Hspec].
  destruct (co_ids _ Hco) as [Hlen Hs _]. unfold index_conflicts.
  destruct (index_key _ row _) as [key|] eqn:Hkey; [|set_solver].
  destruct (bool_decide (KNull ∈ key)) eqn:Hnull; cbn.
  { apply bool_decide_eq_true in Hnull. split; [set_solver|]. naive_solver. }
  apply bool_decide_eq_false in Hnull. specialize (Hspec key). unfold ix_ids in Hspec.
  transitivity (∃ id, id ∈ default ∅ (ix_entries ix !! key) ∧ tb_row_ids t !! p = Some id).
  - destruct (ix_entries ix !! key) as [ids|] eqn:E; cbn.
    + rewrite (wf_bloom _ Hwf _ _ E). cbn. rewrite elem_of_list_to_set, list_elem_of_omap.
      setoid_rewrite elem_of_elements. setoid_rewrite binary_search_Some; [done|done].
    + destruct (negb _); set_solver.
  - setoid_rewrite Hspec. unfold indexed. split.
    + intros (id & (q & r & Hr & Hq & Hk) & Hp).
      assert (p = q) as -> by by eapply StronglySorted_lookup_inj. naive_solver.
    + intros (key' & other & [= <-] & _ & Ho & Hk).
      destruct (lookup_lt_is_Some_2 (tb_row_ids t) p) as [id Hid];
        [rewrite Hlen; by eapply lookup_lt_Some|]. naive_solver.
Qed.

Lemma elem_of_unique_conflicts t row p :
  Coherent t →
  p ∈ unique_conflict_positions t row ↔
  ∃ name ix key other, tb_indexes t !! name = Some ix ∧ index_unique (ix_definition ix) = true ∧
    index_key (tb_schema t) row (index_columns (ix_definition ix)) = Some key ∧
    KNull ∉ key ∧ tb_rows t !! p = Some other ∧
    index_key (tb_schema t) other (index_columns (ix_definition ix)) = Some key.
Proof.
  intros Hco. unfold unique_conflict_positions. rewrite elem_of_union_list.
  setoid_rewrite list_elem_of_fmap. setoid_rewrite list_elem_of_filter.
  setoid_rewrite elem_of_hm_values. split.
  - intros (X & (ix & -> & Hu & name & Hlk) & Hp).
    apply (elem_of_index_conflicts _ _ _ _ _ Hco Hlk) in Hp as (key & other & ?).
    exists name, ix, key, other. destruct (index_unique _); naive_solver.
  - intros (name & ix & key & other & Hlk & Hu & Hrest).
    exists (index_conflicts t row ix). split.
    + exists ix. split_and!; [done|by rewrite Hu|eauto].
    + apply (elem_of_index_conflicts _ _ _ _ _ Hco Hlk). by exists key, other.
Qed.

(** *** Candidate rows *)

(** A row satisfies a predicate at the level of key parts (an index uses
    equalities and ranges only). *)
Definition predicate_holds (s : TableSchema) (row : Row) (p : IndexPredicate) : Prop :=
  ip_operator p = CmpEqual ∨ is_range_op (ip_operator p) = true →
  ∀ i v, column_index s (ip_column p) = Some i → row !! i = Some v →
    compare_key_part (key_part_from_value v) (key_part_from_value (ip_value p)) (ip_operator p)
    = true.

(** Every index column exists. *)
Definition index_columns_ok (s : TableSchema) : Prop :=
  ∀ d column, d ∈ schema_indexes s → column ∈ index_columns d → is_Some (column_index s column).

Lemma column_index_ext s a b :
  eq_ignore_ascii_case a b = true → column_index s a = column_index s b.
Proof.
  intros Hab. apply position_ext. intros c. unfold column_named, eq_ignore_ascii_case.
  apply eq_ignore_ascii_case_true in Hab. by rewrite Hab.
Qed.

Lemma index_key_total s row columns :
  length row = length (schema_columns s) →
  (∀ c, c ∈ columns → is_Some (column_index s c)) → is_Some (index_key s row columns).
Proof.
  intros Hlen Hc. unfold index_key. apply mapM_is_Some_2. apply Forall_forall.
  intros c Hin. destruct (Hc c Hin) as [i Hi]. unfold compose. rewrite Hi. cbn.
  destruct (lookup_lt_is_Some_2 row i) as [v Hv].
  { rewrite Hlen. by eapply column_index_lt. }
  rewrite Hv. by eexists.
Qed.

Lemma index_key_cons s row c columns key :
  index_key s row (c :: columns) = Some key ↔
  ∃ i v rest, column_index s c = Some i ∧ row !! i = Some v ∧
    index_key s row columns = Some rest ∧ key = key_part_from_value v :: rest.
Proof.
  unfold index_key. cbn. destruct (column_index s c) as [i|]; cbn; [|naive_solver].
  destruct (row !! i) as [v|] eqn:Hv; cbn; [|naive_solver].
  destruct (mapM _ columns) as [rest|]; cbn; [|naive_solver]. split.
  - intros [= <-]. by exists i, v, rest.
  - intros (? & ? & ? & [= <-] & Hv' & [= <-] & ->). by simplify_eq.
Qed.

Lemma index_key_length s row columns key :
  index_key s row columns = Some key → length key = length columns.
Proof. unfold index_key. intros Hk. by apply length_mapM in Hk. Qed.

Lemma starts_with_app prefix rest : starts_with (prefix ++ rest) prefix = true.
Proof.
  induction prefix as [|x prefix IH]; cbn; [by destruct rest|].
  by rewrite bool_decide_eq_true_2.
Qed.

Lemma starts_with_length key prefix :
  starts_with key prefix = true → length prefix = length key → key = prefix.
Proof.
  revert key. induction prefix as [|x prefix IH]; intros [|y key]; cbn; try done.
  intros [->%bool_decide_eq_true Hs]%andb_true_iff [= Hl]. f_equal. auto.
Qed.

Lemma compare_key_part_Eq a b : compare_key_part a b CmpEqual = true → a = b.
Proof.
  unfold compare_key_part. destruct (key_part_cmp a b) eqn:E; try done. intros _.
  destruct a, b; cbn in E; try done.
  - by destruct b0, b.
  - by apply Z.compare_eq in E as ->.
  - by apply Z.compare_eq in E as ->.
  - by apply String.compare_eq_iff in E as ->.
Qed.

(** A row that satisfies every predicate has a key the prefix and range accept. *)
Lemma index_prefix_matches s row predicates columns prefix prefix' range rest :
  Forall (predicate_holds s row) predicates →
  index_key s row columns = Some rest →
  index_prefix predicates columns prefix = (prefix', range) →
  key_matches prefix' range (prefix ++ rest) = true.
Proof.
  intros Hp. revert prefix rest. induction columns as [|c columns IH]; intros prefix rest Hk; cbn.
  - intros [= <- <-]. unfold key_matches. by rewrite starts_with_app.
  - apply index_key_cons in Hk as (i & v & rest' & Hi & Hv & Hk & ->).
    destruct (find_first _ predicates) as [p|] eqn:Hf;
      [|intros [= <- <-]; unfold key_matches; by rewrite starts_with_app].
    apply find_first_Some in Hf as [Hin Heq].
    rewrite Forall_forall in Hp. specialize (Hp p Hin).
    assert (ip_operator p = CmpEqual ∨ is_range_op (ip_operator p) = true →
      compare_key_part (key_part_from_value v) (key_part_from_value (ip_value p))
        (ip_operator p) = true) as Hp'.
    { intros Hop. apply (Hp Hop i v); [|done]. by rewrite (column_index_ext _ _ _ Heq). }
    clear Hp. rename Hp' into Hp. case_bool_decide as Hop.
    + specialize (Hp (or_introl Hop)). rewrite Hop in Hp. apply compare_key_part_Eq in Hp as Hv'. intros Hrec.
      specialize (IH (prefix ++ [key_part_from_value (ip_value p)]) rest' Hk Hrec).
      by rewrite <-app_assoc, <-Hv' in IH.
    + destruct (is_range_op (ip_operator p)) eqn:Hr; intros [= <- <-]; unfold key_matches;
        rewrite starts_with_app; cbn; [|done].
      rewrite lookup_app_r, Nat.sub_diag by done. cbn. auto.
Qed.

Lemma elem_of_scan_ids ix prefix range key id :
  index_wf ix → id ∈ ix_ids ix key → length key = length (index_columns (ix_definition ix)) →
  key_matches prefix range key = true → id ∈ scan_ids ix prefix range.
Proof.
  intros Hwf Hid Hlen Hm. unfold scan_ids, ix_ids in *.
  destruct (ix_entries ix !! key) as [ids|] eqn:E; [|set_solver]. cbn in Hid.
  case_bool_decide as Hl; cbn; [destruct range as [[op k]|]; cbn|].
  2: { unfold key_matches in Hm. apply andb_true_iff in Hm as [Hm _].
       apply starts_with_length in Hm as ->; [|congruence].
       by rewrite (wf_bloom _ Hwf _ _ E), E. }
  all: rewrite elem_of_union_list; exists ids; split; [|done].
  all: apply list_elem_of_fmap; exists (key, ids); split; [done|].
  all: apply list_elem_of_filter; split; [by apply Is_true_true_2|by apply elem_of_map_to_list].
Qed.

(** The best choice is one of the indexes. *)
Lemma consider_index_fold predicates ixs best ids name score :
  foldl (consider_index predicates) best ixs = Some (ids, name, score) →
  best = Some (ids, name, score) ∨
  ∃ ix prefix range, ix ∈ ixs ∧
    index_prefix predicates (index_columns (ix_definition ix)) [] = (prefix, range) ∧
    ids = scan_ids ix prefix range ∧ name = index_name (ix_definition ix).
Proof.
  revert best. induction ixs as [|ix ixs IH]; intros best; cbn; [by left|].
  intros [Hb|(ix' & prefix & range & ? & ?)]%IH.
  - unfold consider_index in Hb.
    destruct (index_prefix _ _ _) as [prefix range] eqn:Hpre.
    assert (best = Some (ids, name, score) ∨
            (ids = scan_ids ix prefix range ∧ name = index_name (ix_definition ix)))
      as [->|[-> ->]]; [|by left|].
    { destruct prefix, range; repeat case_match; simplify_eq; auto. }
    right. exists ix, prefix, range. set_solver.
  - right. exists ix', prefix, range. set_solver.
Qed.

(** Skipping the rows outside the candidate set loses no row that satisfies
    the collected predicates. *)
Lemma candidate_row_ids_sound t selection ids p row id :
  Coherent t → index_columns_ok (tb_schema t) →
  (candidate_row_ids t (Some selection)).1 = Some ids →
  tb_rows t !! p = Some row → tb_row_ids t !! p = Some id →
  length row = length (schema_columns (tb_schema t)) →
  Forall (predicate_holds (tb_schema t) row) (collect_index_predicates selection) →
  id ∈ ids.
Proof.
  intros Hco Hcols Hc Hrow Hid Hlen Hp. unfold candidate_row_ids in Hc.
  destruct (foldl _ _ _) as [[[ids' name] score]|] eqn:Hf; [|done].
  cbn in Hc. injection Hc as ->.
  apply consider_index_fold in Hf as [?|(ix & prefix & range & Hix & Hpre & -> & ->)]; [done|].
  apply elem_of_hm_values in Hix as [name Hlk].
  destruct (co_index _ Hco _ _ Hlk) as [Hwf Hspec].
  destruct (co_definition _ Hco _ _ Hlk) as [_ Hdef].
  destruct (index_key_total (tb_schema t) row (index_columns (ix_definition ix)) Hlen)
    as [key Hkey]; [intros c; by apply Hcols|].
  apply (elem_of_scan_ids _ _ _ key); [done| |by eapply index_key_length|].
  - apply Hspec. by exists p, row.
  - by apply (index_prefix_matches _ _ _ _ [] _ _ _ Hp Hkey Hpre).
Qed.
End coherence.

(** ** The catalog

    The scratch pool (a free list of row buffers) and the subquery cache of the
    Rust structure hold no data of the database and are left out. *)

Record Catalog := {
  cat_version : N;
  cat_schema_version : N;
  cat_tables : gmap string Table;
}.

(** [Catalog::default()]. *)
Definition catalog_default : Catalog :=
  {| cat_version := 0; cat_schema_version := 0; cat_tables := ∅ |}.

Definition set_tables (c : Catalog) (tables : gmap string Table) : Catalog :=
  {| cat_version := cat_version c; cat_schema_version := cat_schema_version c;
     cat_tables := tables |}.
Definition insert_table (c : Catalog) (name : string) (t : Table) : Catalog :=
  set_tables c (<[name := t]> (cat_tables c)).

Section catalog.
Context `{RustStd}.

Definition from_tables (tables : gmap string Table) : Catalog :=
  {| cat_version := 0; cat_schema_version := 0;
     cat_tables :=
       foldl (λ m '(name, t), <[to_ascii_lowercase name := migrate_legacy_rows t]> m) ∅
         (hm_iter tables) |}.

Definition configure_bloom_false_positive_rate (c : Catalog) (rate : f64) : Catalog :=
  set_tables c ((λ t, set_bloom_false_positive_rate t rate) <$> cat_tables c).
End catalog.

(** ** Properties *)

Section table_properties.
Context `{RustStd}.

(** The index map of one table holds the entries of another's. *)
Definition same_entries (t t' : Table) : Prop :=
  ∀ name, ix_entries <$> tb_indexes t !! name = ix_entries <$> tb_indexes t' !! name.

(** Under distinct index names, coherence fixes the entries. *)
Lemma coherent_same_entries t t' :
  Coherent t → Coherent t' → tb_schema t = tb_schema t' → tb_rows t = tb_rows t' →
  tb_row_ids t = tb_row_ids t' → NoDup (index_name <$> schema_indexes (tb_schema t)) →
  same_entries t t'.
Proof.
  intros Hco Hco' Hs Hr Hi Hnd name.
  destruct (tb_indexes t !! name) as [ix|] eqn:E.
  - assert (name ∈ dom (tb_indexes t')) as [ix' E']%elem_of_dom.
    { rewrite (co_names _ Hco'), <-Hs, <-(co_names _ Hco). apply elem_of_dom. by exists ix. }
    rewrite E'. cbn. f_equal.
    destruct (co_definition _ Hco _ _ E) as [Hn Hd], (co_definition _ Hco' _ _ E') as [Hn' Hd'].
    destruct (co_index _ Hco _ _ E) as [Hwf Hspec], (co_index _ Hco' _ _ E') as [Hwf' Hspec'].
    assert (ix_definition ix = ix_definition ix') as Hdef.
    { rewrite <-Hs in Hd'. apply list_elem_of_lookup in Hd as [i Hd], Hd' as [j Hd'].
      assert (i = j) as ->; [|congruence].
      eapply (NoDup_lookup (index_name <$> _)); [done|rewrite list_lookup_fmap, Hd; done|].
      rewrite list_lookup_fmap, Hd'. cbn. congruence. }
    apply index_entries_ext; [done..|]. intros key. apply set_eq. intros id.
    rewrite Hspec, Hspec'. unfold indexed. by rewrite Hr, Hi, Hs, Hdef.
  - assert (name ∉ dom (tb_indexes t')) as E'%not_elem_of_dom; [|by rewrite E'].
    rewrite (co_names _ Hco'), <-Hs, <-(co_names _ Hco). by apply not_elem_of_dom.
Qed.

(** C8. Incremental index maintenance on insertion: the new row is last, its
    identifier is fresh, and every index holds exactly the entries that
    rebuilding all indexes from the rows would give. *)
Theorem insert_refines_rebuild t row t' :
  Coherent t → NoDup (index_name <$> schema_indexes (tb_schema t)) →
  (tb_next_row_id t < u64_max)%N → insert_row_indexed t row = Ok t' →
  tb_rows t' = tb_rows t ++ [row] ∧
  (∃ id, tb_row_ids t' = tb_row_ids t ++ [id] ∧ id ∉ tb_row_ids t) ∧
  Coherent t' ∧ same_entries t' (rebuild_index t').
Proof.
  intros Hco Hnd Hmax Hins. pose proof (insert_coherent _ _ _ Hco Hmax Hins) as Hco'.
  assert (tb_schema t' = tb_schema t) as Hs.
  { clear -Hins. unfold insert_row_indexed in Hins. by inv_ok. }
  split_and!.
  - clear -Hins. unfold insert_row_indexed in Hins. by inv_ok.
  - exists (tb_next_row_id t). split; [clear -Hins; unfold insert_row_indexed in Hins; by inv_ok|].
    intros Hin. pose proof (ids_fresh _ (co_ids _ Hco)) as Hf.
    rewrite Forall_forall in Hf. specialize (Hf _ Hin). lia.
  - done.
  - apply coherent_same_entries; [done| |done..|by rewrite Hs].
    apply rebuild_coherent, co_ids, Hco'.
Qed.

(** C11. Incremental index maintenance on replacement: only the row at the
    position changes, identifiers stay, and every index holds exactly the
    entries that rebuilding all indexes from the rows would give. *)
Theorem replace_refines_rebuild t p row t' :
  Coherent t → NoDup (index_name <$> schema_indexes (tb_schema t)) →
  replace_row_indexed t p row = Ok t' →
  tb_rows t' = <[p := row]> (tb_rows t) ∧ tb_row_ids t' = tb_row_ids t ∧
  Coherent t' ∧ same_entries t' (rebuild_index t').
Proof.
  intros Hco Hnd Hrep. pose proof (replace_coherent _ _ _ _ Hco Hrep) as Hco'.
  assert (tb_schema t' = tb_schema t ∧ tb_rows t' = <[p := row]> (tb_rows t) ∧
          tb_row_ids t' = tb_row_ids t) as (Hs & Hr & Hi).
  { clear -Hrep. unfold replace_row_indexed in Hrep. by inv_ok. }
  split_and!; [done..|].
  apply coherent_same_entries; [done| |done..|by rewrite Hs].
  apply rebuild_coherent, co_ids, Hco'.
Qed.

(** C34. The positions reported for a row are exactly those of the rows it
    conflicts with: equal and NULL-free keys in some unique index. The Bloom
    filter and the binary search over row identifiers lose none. *)
Theorem unique_conflicts_exact t row p :
  Coherent t →
  p ∈ unique_conflict_positions t row ↔
  ∃ name ix key other, tb_indexes t !! name = Some ix ∧ index_unique (ix_definition ix) = true ∧
    tb_rows t !! p = Some other ∧ KNull ∉ key ∧
    index_key (tb_schema t) row (index_columns (ix_definition ix)) = Some key ∧
    index_key (tb_schema t) other (index_columns (ix_definition ix)) = Some key.
Proof. intros Hco. rewrite elem_of_unique_conflicts by done. naive_solver. Qed.
End table_properties.

(** *** Witnesses: a table with a primary key and two rows *)

Section table_witnesses.
#[local] Existing Instance concrete_std.

Definition demo_schema : TableSchema :=
  {| schema_name := "t";
     schema_columns := [column_primary_key (column_new "id" TInteger); column_new "v" TText];
     schema_constraints := [CPrimaryKey None ["id"]];
     schema_indexes := [index_on "t_pk" ["id"] true] |}.
Definition demo_row (z : Z) (s : string) : Row := [VInteger z; VText s].
Definition demo_table (rows : list Row) : Table :=
  match foldM insert_row_indexed (table_new demo_schema) rows with
  | Ok t => t
  | _ => table_new demo_schema
  end.
Definition demo : Table := demo_table [demo_row 1 "a"; demo_row 2 "b"].

Lemma demo_coherent : Coherent demo.
Proof.
  unfold demo, demo_table. rewrite foldM_cons.
  destruct (insert_row_indexed (table_new demo_schema) (demo_row 1 "a")) as [t1| |] eqn:E1;
    [|apply table_new_coherent..]. cbn [mbind outcome_bind].
  assert (Coherent t1 ∧ tb_next_row_id t1 = 2%N) as [Hco1 Hn1].
  { split; [apply (insert_coherent _ _ _ (table_new_coherent _) ltac:(done) E1)|].
    clear -E1. unfold insert_row_indexed in E1. by inv_ok. }
  rewrite foldM_cons. destruct (insert_row_indexed t1 (demo_row 2 "b")) as [t2| |] eqn:E2;
    [|apply table_new_coherent..].
  cbn. apply (insert_coherent t1 (demo_row 2 "b")); [done|by rewrite Hn1|exact E2].
Qed.

Lemma demo_names_NoDup : NoDup (index_name <$> schema_indexes (tb_schema demo)).
Proof.
  replace (index_name <$> schema_indexes (tb_schema demo)) with ["t_pk"]
    by (vm_compute; reflexivity).
  apply NoDup_singleton.
Qed.

Lemma insert_refines_rebuild_witness :
  let t' := demo_table [demo_row 1 "a"; demo_row 2 "b"; demo_row 3 "c"] in
  tb_rows t' = tb_rows demo ++ [demo_row 3 "c"] ∧
  (∃ id, tb_row_ids t' = tb_row_ids demo ++ [id] ∧ id ∉ tb_row_ids demo) ∧
  Coherent t' ∧ same_entries t' (rebuild_index t').
Proof.
  apply (insert_refines_rebuild demo);
    [apply demo_coherent|apply demo_names_NoDup|reflexivity|vm_compute; reflexivity].
Defined.

Lemma replace_refines_rebuild_witness :
  let t' := match replace_row_indexed demo 1 (demo_row 9 "z") with Ok t => t | _ => demo end in
  tb_rows t' = <[1 := demo_row 9 "z"]> (tb_rows demo) ∧ tb_row_ids t' = tb_row_ids demo ∧
  Coherent t' ∧ same_entries t' (rebuild_index t').
Proof.
  apply (replace_refines_rebuild demo);
    [apply demo_coherent|apply demo_names_NoDup|vm_compute; reflexivity].
Defined.

Lemma unique_conflicts_exact_witness :
  1 ∈ unique_conflict_positions demo (demo_row 2 "x").
Proof.
  apply (unique_conflicts_exact demo); [apply demo_coherent|].
  assert (∃ ix, tb_indexes demo !! "t_pk" = Some ix ∧ ix_definition ix = index_on "t_pk" ["id"] true)
    as (ix & Hix & Hd) by (eexists; split; vm_compute; reflexivity).
  exists "t_pk", ix, [KInteger 2], (demo_row 2 "b"). rewrite Hd.
  split_and!; [exact Hix|done|vm_compute; reflexivity| |vm_compute; reflexivity..].
  intros [=]%list_elem_of_singleton.
Defined.
End table_witnesses.
