(* ===== verification/Eval.v ===== *)
(** * Eval.v: expressions and queries (src/sql/executor.rs, 1836-2822)

    The evaluator of expressions and queries.  [eval_expr] and [execute_query]
    call each other; every other function of the source is written here over
    those two as parameters ([Section open_recursion]) and the knot is tied by
    a mutual structural recursion on the trees at the end, so no fuel is
    involved.

    The subquery cache of the source memoises [execute_query] for the length
    of one statement and the scratch pool recycles buffers; both are elided
    (the value returned is the one the memoised call returns). *)

From S2P Require Import Prelude Machine Float64 Like Types Keys Table.

(** ** Relations *)

Record BoundColumn := { bc_table : string; bc_name : string }.
#[export] Instance BoundColumn_eq_dec : EqDecision BoundColumn.
Proof. solve_decision. Defined.

Record Relation := { rel_columns : list BoundColumn; rel_rows : list Row }.

Abbreviation Ctes := (gmap string Relation).

Definition relation_to_result (r : Relation) : ResultSet :=
  {| rs_columns := bc_name <$> rel_columns r; rs_rows := rel_rows r |}.

Definition rename_table (name : string) (r : Relation) : Relation :=
  {| rel_columns := (λ c, {| bc_table := name; bc_name := bc_name c |}) <$> rel_columns r;
     rel_rows := rel_rows r |}.

(** ** Keys of rows and values *)

Definition value_key (v : Value) : string :=
  match v with
  | VNull => "n"
  | VBoolean b => "b:" +:+ (if b then "true" else "false")
  | VInteger z => "i:" +:+ pretty z
  | VFloat f => "f:" +:+ hex_string 16 (to_bits f)
  | VText s => "s:" +:+ pretty (String.length s) +:+ ":" +:+ s
  end.

Definition unit_separator : string := String (Ascii.ascii_of_N 0x1f) EmptyString.
Definition row_key (row : Row) : string := join_with unit_separator (value_key <$> row).

Definition hash_join_key (v : Value) : string :=
  match v with
  | VInteger z => "number:" +:+ hex_string 16 (to_bits (f64_of_Z z))
  | VFloat f => "number:" +:+ hex_string 16 (to_bits f)
  | _ => value_key v
  end.

(** ** Pure helpers *)

Definition column_matches (qualifier : option string) (name : string) (c : BoundColumn) : bool :=
  eq_ignore_ascii_case (bc_name c) name
  && is_none_or (λ table, eq_ignore_ascii_case (bc_table c) table) qualifier.

(** The positions a predicate accepts, in order. *)
Definition positions {A} (p : A → bool) (l : list A) : list nat :=
  (filter (λ ix, p ix.2) (imap pair l)).*1.

Definition resolve_column (columns : list BoundColumn) (qualifier : option string)
    (name : string) : outcome nat :=
  match positions (column_matches qualifier name) columns with
  | [index] => Ok index
  | [] => Err ("Unknown column '" +:+ match qualifier with Some q => q +:+ "." | None => "" end
               +:+ name +:+ "'")
  | _ => Err ("Ambiguous column '" +:+ name +:+ "'")
  end.

Definition resolves (columns : list BoundColumn) (qualifier : option string) (name : string) : bool :=
  match resolve_column columns qualifier name with Ok _ => true | _ => false end.

(** The loop of [in_values]: the first equality decides, a NULL leaves the
    answer unknown. *)
Fixpoint in_values_from `{RustStd} (value : Value) (unknown : bool) (values : list Value) : SqlTruth :=
  match values with
  | [] => if unknown then SUnknown else SFalse
  | candidate :: values =>
      match compare_sql value candidate CmpEqual with
      | STrue => STrue
      | SUnknown => in_values_from value true values
      | SFalse => in_values_from value unknown values
      end
  end.

Definition negate_if (negated : bool) (t : SqlTruth) : SqlTruth :=
  if negated then truth_negate t else t.

(** The early return of TRUE (FALSE when negated) and the final result are
    negated alike. *)
Definition in_values `{RustStd} (value : Value) (values : list Value) (negated : bool) : SqlTruth :=
  if is_null value then SUnknown else negate_if negated (in_values_from value false values).

Definition numeric_binary (l r : Value) (integer : Z → Z → outcome Z) (float : f64 → f64 → f64) :
    outcome Value :=
  match l, r with
  | VNull, _ | _, VNull => Ok VNull
  | VInteger x, VInteger y => VInteger <$> integer x y
  | VInteger x, VFloat y => Ok (VFloat (float (f64_of_Z x) y))
  | VFloat x, VInteger y => Ok (VFloat (float x (f64_of_Z y)))
  | VFloat x, VFloat y => Ok (VFloat (float x y))
  | _, _ => Err "Arithmetic requires numeric values"
  end.

Definition is_zero (v : Value) : bool :=
  match v with
  | VInteger z => Z.eqb z 0
  | VFloat f => f64_eqb f f64_zero
  | _ => false
  end.

(** The operators other than AND and OR, on evaluated operands. *)
Definition apply_binary `{RustStd} (op : BinaryOp) (l r : Value) : outcome Value :=
  match op with
  | OpCompare c => Ok (truth_value (compare_sql l r c))
  | OpAdd => numeric_binary l r (λ a b, i64_arith overflow_checks (a + b)) f64_add
  | OpSubtract => numeric_binary l r (λ a b, i64_arith overflow_checks (a - b)) f64_sub
  | OpMultiply => numeric_binary l r (λ a b, i64_arith overflow_checks (a * b)) f64_mul
  | OpDivide =>
      if is_zero r then Err "Division by zero"
      else numeric_binary l r i64_div f64_div
  | OpAnd | OpOr => Panic
  end.

Definition apply_unary `{RustStd} (op : UnaryOp) (v : Value) : outcome Value :=
  match op, v with
  | UNot, v => Ok (truth_value (truth_negate (truth v)))
  | _, VNull => Ok VNull
  | UNegate, VInteger z => VInteger <$> i64_arith overflow_checks (- z)
  | UNegate, VFloat f => Ok (VFloat (f64_neg f))
  | UPlus, VInteger z => Ok (VInteger z)
  | UPlus, VFloat f => Ok (VFloat f)
  | _, _ => Err "Unary operator requires a numeric/boolean value"
  end.

Fixpoint expr_has_aggregate (e : Expr) : bool :=
  match e with
  | EAggregate _ _ _ => true
  | EBinary l _ r => expr_has_aggregate l || expr_has_aggregate r
  | EUnary _ e | EIsNull e _ | ELike e _ _ => expr_has_aggregate e
  | EInList e items _ => expr_has_aggregate e || existsb expr_has_aggregate items
  | _ => false
  end.

Definition select_item_has_aggregate (i : SelectItem) : bool :=
  match i with SExpr e _ => expr_has_aggregate e | SWildcard _ => false end.

Fixpoint expression_resolves (e : Expr) (columns : list BoundColumn) : bool :=
  match e with
  | EColumn qualifier name => resolves columns qualifier name
  | ELiteral _ | EParameter _ | EIncoming _ => true
  | EBinary l _ r => expression_resolves l columns && expression_resolves r columns
  | EUnary _ e | EIsNull e _ | ELike e _ _ => expression_resolves e columns
  | EInList e items _ =>
      expression_resolves e columns && forallb (λ i, expression_resolves i columns) items
  | EAggregate _ _ _ | EInSubquery _ _ _ | EExists _ _ | EScalarSubquery _ => false
  end.

Definition expression_name (e : Expr) : string :=
  match e with
  | EColumn _ name => name
  | EAggregate f _ _ => aggregate_name f
  | EScalarSubquery _ => "subquery"
  | _ => "expression"
  end.

Definition wildcard_matches (qualifier : option string) (c : BoundColumn) : bool :=
  is_none_or (λ name, eq_ignore_ascii_case (bc_table c) name) qualifier.

(** The output columns one projection item contributes. *)
Definition item_columns (source : list BoundColumn) (i : SelectItem) : outcome (list BoundColumn) :=
  match i with
  | SWildcard qualifier =>
      match filter (wildcard_matches qualifier) source with
      | [] => Err ("Unknown wildcard qualifier '" +:+ unwrap_or qualifier "*" +:+ "'")
      | matching => Ok matching
      end
  | SExpr e alias =>
      Ok [{| bc_table := match e, alias with
                         | EColumn (Some q) _, None => q
                         | _, _ => ""
                         end;
             bc_name := unwrap_or alias (expression_name e) |}]
  end.

Definition projection_columns (projection : list SelectItem) (source : list BoundColumn) :
    outcome (list BoundColumn) :=
  foldM (λ output i, cs ← item_columns source i; Ok (output ++ cs)) [] projection.

(** Pushing to the entry of a [BTreeMap<String, Vec<_>>]: the map is the list
    of its entries in key order. *)
Fixpoint btree_push {A} (key : string) (a : A) (m : list (string * list A)) :
    list (string * list A) :=
  match m with
  | [] => [(key, [a])]
  | (k, l) :: m' =>
      match String.compare key k with
      | Lt => (key, [a]) :: m
      | Eq => (k, l ++ [a]) :: m'
      | Gt => (k, l) :: btree_push key a m'
      end
  end.

(** [HashSet::insert] used as a filter: the first occurrence of each key is
    kept. *)
Fixpoint retain_first {A} (key : A → string) (seen : gset string) (l : list A) : list A :=
  match l with
  | [] => []
  | x :: l =>
      if bool_decide (key x ∈ seen) then retain_first key seen l
      else x :: retain_first key ({[key x]} ∪ seen) l
  end.

(** [Iterator::min_by] keeps the first minimum, [max_by] the last maximum. *)
Definition value_order (a b : Value) : comparison := unwrap_or (value_partial_cmp a b) Eq.
Definition min_value (x y : Value) : Value := match value_order x y with Gt => y | _ => x end.
Definition max_value (x y : Value) : Value := match value_order x y with Gt => x | _ => y end.

(** The running sum of SUM and AVG, and whether every value was an integer. *)
Definition sum_step (acc : f64 * bool) (v : Value) : outcome (f64 * bool) :=
  match v with
  | VInteger z => Ok (f64_add acc.1 (f64_of_Z z), acc.2)
  | VFloat f => Ok (f64_add acc.1 f, false)
  | _ => Err "SUM/AVG requires numeric values"
  end.

(** [eval_aggregate] after the argument has been evaluated on the group. *)
Definition aggregate_values (f : AggregateFunction) (distinct : bool) (values : list Value) :
    outcome Value :=
  let values := if distinct then retain_first value_key ∅ values else values in
  let present := filter (λ v, negb (is_null v)) values in
  match f with
  | AggCount => Ok (VInteger (Z.of_nat (length present)))
  | _ =>
      match present with
      | [] => Ok VNull
      | v :: rest =>
          match f with
          | AggSum | AggAvg =>
              acc ← foldM sum_step (f64_zero, true) present;
              let (sum, all_integer) := acc : f64 * bool in
              if bool_decide (f = AggAvg)
              then Ok (VFloat (f64_div sum (f64_of_Z (Z.of_nat (length present)))))
              else if all_integer then Ok (VInteger (f64_as_i64 sum))
              else Ok (VFloat sum)
          | AggMin => Ok (foldl min_value v rest)
          | AggMax => Ok (foldl max_value v rest)
          | AggCount => Panic
          end
      end
  end.

(** ** Scans *)

(** The filter of [relation_from_table], [execute_update] and
    [execute_delete]: a row outside the candidate set is skipped. *)
Definition is_candidate (t : Table) (ids : option (gset N)) (position : nat) : bool :=
  is_none_or (λ ids, is_some_and (λ id, bool_decide (id ∈ ids)) (tb_row_ids t !! position)) ids.

Definition table_columns (t : Table) (visible_name : string) : list BoundColumn :=
  (λ c, {| bc_table := visible_name; bc_name := col_name c |}) <$> schema_columns (tb_schema t).

Definition relation_from_table `{RustStd} (t : Table) (visible_name : string)
    (selection : option Expr) : Relation :=
  let ids := (candidate_row_ids t selection).1 in
  {| rel_columns := table_columns t visible_name;
     rel_rows := (filter (λ pr, is_candidate t ids pr.1) (imap pair (tb_rows t))).*2 |}.

(** ** Joins *)

Definition hash_join_indices (e : Expr) (l r : list BoundColumn) : option (nat * nat) :=
  match e with
  | EBinary (EColumn lq ln) (OpCompare CmpEqual) (EColumn rq rn) =>
      match resolve_column l lq ln, resolve_column r rq rn with
      | Ok i, Ok j => Some (i, j)
      | _, _ =>
          match resolve_column l rq rn, resolve_column r lq ln with
          | Ok i, Ok j => Some (i, j)
          | _, _ => None
          end
      end
  | _ => None
  end.

Definition nulls (n : nat) : Row := replicate n VNull.

(** The rows of the right side that no left row matched, for RIGHT JOIN. *)
Definition unmatched_right (left_width : nat) (rows : list Row) (matched : list bool) : list Row :=
  omap (λ '(position, row),
    if bool_decide (matched !! position = Some true) then None
    else Some (nulls left_width ++ row)) (imap pair rows).

Definition right_map (rows : list Row) (index : nat) : outcome (gmap string (list nat)) :=
  foldM (λ (m : gmap string (list nat)) (pr : nat * Row),
    v ← vec_index pr.2 index;
    Ok (if is_null v then m
        else <[hash_join_key v := default [] (m !! hash_join_key v) ++ [pr.1]]> m))
    ∅ (imap pair rows).

(** The loop over the positions a key maps to. *)
Definition hash_join_positions `{RustStd} (right : list Row) (right_index : nat)
    (left_row : Row) (v : Value) (state : bool * list bool * list Row) (positions : list nat) :
    outcome (bool * list bool * list Row) :=
  foldM (λ st position,
    let '(matched, right_matched, rows) := st : bool * list bool * list Row in
    right_row ← vec_index right position;
    w ← vec_index right_row right_index;
    Ok (if bool_decide (compare_sql v w CmpEqual = STrue)
        then (true, <[position := true]> right_matched, rows ++ [left_row ++ right_row])
        else (matched, right_matched, rows)))
    state positions.

Definition hash_join `{RustStd} (left right : Relation) (columns : list BoundColumn)
    (join_type : JoinType) (left_index right_index : nat) : outcome Relation :=
  m ← right_map (rel_rows right) right_index;
  st ← foldM (λ st left_row,
      let '(right_matched, rows) := st : list bool * list Row in
      v ← vec_index left_row left_index;
      let matches := if is_null v then [] else default [] (m !! hash_join_key v) in
      st' ← hash_join_positions (rel_rows right) right_index left_row v
              (false, right_matched, rows) matches;
      let '(matched, right_matched, rows) := st' : bool * list bool * list Row in
      Ok (right_matched,
          if negb matched && bool_decide (join_type = JLeft)
          then rows ++ [left_row ++ nulls (length (rel_columns right))] else rows))
    (replicate (length (rel_rows right)) false, []) (rel_rows left);
  let '(right_matched, rows) := st : list bool * list Row in
  Ok {| rel_columns := columns;
        rel_rows :=
          if bool_decide (join_type = JRight)
          then rows ++ unmatched_right (length (rel_columns left)) (rel_rows right) right_matched
          else rows |}.

(** ** The evaluator *)

Section evaluator.
Context `{RustStd} (catalog : Catalog).

Section open_recursion.
Variable eval_expr : Expr → list BoundColumn → Row → option (list Row) → Ctes → outcome Value.
Variable execute_query : Query → Ctes → outcome Relation.

(** [eval_aggregate]: the argument is evaluated on every row of the group,
    outside of any grouping. *)
Definition eval_aggregate (f : AggregateFunction) (e : option Expr) (distinct : bool)
    (columns : list BoundColumn) (group : list Row) (ctes : Ctes) : outcome Value :=
  values ← match e with
           | Some e => mapM (λ row, eval_expr e columns row None ctes) group
           | None => Ok (replicate (length group) (VInteger 1))
           end;
  aggregate_values f distinct values.

(** The keys of the first column of a subquery, for [IN]. *)
Definition first_column_keys (rows : list Row) : gset string :=
  list_to_set (omap (λ row : Row, v ← head row;
    if is_null v then None else Some (hash_join_key v)) rows).
Definition first_column_has_null (rows : list Row) : bool :=
  existsb (λ row : Row, is_some_and is_null (head row)) rows.

Definition in_subquery (value : Value) (r : Relation) : outcome SqlTruth :=
  if decide (length (rel_columns r) = 1) then
    Ok (if is_null value then SUnknown
        else if bool_decide (hash_join_key value ∈ first_column_keys (rel_rows r)) then STrue
        else if first_column_has_null (rel_rows r) then SUnknown
        else SFalse)
  else Err "IN subquery must return one column".

Definition scalar_of (r : Relation) : outcome Value :=
  if decide (length (rel_columns r) = 1) then
    match rel_rows r with
    | [] => Ok VNull
    | [row] => vec_index row 0
    | _ => Err "Scalar subquery returned more than one row"
    end
  else Err "Scalar subquery must return one column".

Definition eval_expr_body (e : Expr) (columns : list BoundColumn) (row : Row)
    (group : option (list Row)) (ctes : Ctes) : outcome Value :=
  match e with
  | ELiteral v => Ok v
  | EParameter index => Err ("Unbound prepared-statement parameter " +:+ pretty index)
  | EIncoming column =>
      Err ("Incoming value '" +:+ column +:+ "' is only valid in ON DUPLICATE KEY UPDATE")
  | EColumn qualifier name =>
      index ← resolve_column columns qualifier name;
      ok_or (row !! index) ("Column '" +:+ name +:+ "' is unavailable")
  | EUnary op e => v ← eval_expr e columns row group ctes; apply_unary op v
  | EBinary l OpAnd r =>
      a ← eval_expr l columns row group ctes;
      if bool_decide (truth a = SFalse) then Ok (VBoolean false)
      else b ← eval_expr r columns row group ctes;
           Ok (truth_value (truth_and (truth a) (truth b)))
  | EBinary l OpOr r =>
      a ← eval_expr l columns row group ctes;
      if bool_decide (truth a = STrue) then Ok (VBoolean true)
      else b ← eval_expr r columns row group ctes;
           Ok (truth_value (truth_or (truth a) (truth b)))
  | EBinary l op r =>
      a ← eval_expr l columns row group ctes;
      b ← eval_expr r columns row group ctes;
      apply_binary op a b
  | EIsNull e negated =>
      v ← eval_expr e columns row group ctes;
      Ok (VBoolean (if negated then negb (is_null v) else is_null v))
  | ELike e pattern negated =>
      v ← eval_expr e columns row group ctes;
      p ← eval_expr pattern columns row group ctes;
      Ok (truth_value (negate_if negated (compare_sql v p CmpLike)))
  | EInList e items negated =>
      v ← eval_expr e columns row group ctes;
      vs ← mapM (λ item, eval_expr item columns row group ctes) items;
      Ok (truth_value (in_values v vs negated))
  | EInSubquery e query negated =>
      v ← eval_expr e columns row group ctes;
      r ← execute_query query ctes;
      t ← in_subquery v r;
      Ok (truth_value (negate_if negated t))
  | EExists query negated =>
      r ← execute_query query ctes;
      let exists_ := negb (bool_decide (rel_rows r = [])) in
      Ok (VBoolean (if negated then negb exists_ else exists_))
  | EScalarSubquery query => r ← execute_query query ctes; scalar_of r
  | EAggregate f e distinct =>
      g ← ok_or group "Aggregate used outside grouping";
      eval_aggregate f e distinct columns g ctes
  end.

(** *** Sources and joins *)

Definition source_relation (source : TableSource) (ctes : Ctes) (selection : option Expr) :
    outcome Relation :=
  match source with
  | SrcTable name alias =>
      let visible_name := unwrap_or alias name in
      match ctes !! name with
      | Some cte => Ok (rename_table visible_name cte)
      | None =>
          t ← ok_or (cat_tables catalog !! name) ("Table '" +:+ name +:+ "' does not exist");
          Ok (relation_from_table t visible_name selection)
      end
  | SrcDerived query alias =>
      r ← execute_query query ctes;
      Ok (rename_table alias r)
  end.

Definition on_matches (on : option Expr) (columns : list BoundColumn) (row : Row) (ctes : Ctes) :
    outcome bool :=
  match on with
  | Some e => v ← eval_expr e columns row None ctes; Ok (bool_decide (truth v = STrue))
  | None => Ok true
  end.

(** The inner loop: one left row against every right row. *)
Definition join_left_row (columns : list BoundColumn) (right : list Row) (on : option Expr)
    (ctes : Ctes) (left_row : Row) (state : bool * list bool * list Row) :
    outcome (bool * list bool * list Row) :=
  foldM (λ st pr,
    let '(left_matched, right_matched, rows) := st : bool * list bool * list Row in
    let '(right_position, right_row) := pr : nat * Row in
    let combined := left_row ++ right_row in
    matches ← on_matches on columns combined ctes;
    Ok (if matches : bool
        then (true, <[right_position := true]> right_matched, rows ++ [combined])
        else (left_matched, right_matched, rows)))
    state (imap pair right).

Definition nested_loop_join (columns : list BoundColumn) (left right : Relation)
    (join_type : JoinType) (on : option Expr) (ctes : Ctes) : outcome Relation :=
  st ← foldM (λ st left_row,
      let '(right_matched, rows) := st : list bool * list Row in
      st' ← join_left_row columns (rel_rows right) on ctes left_row
              (false, right_matched, rows);
      let '(left_matched, right_matched, rows) := st' : bool * list bool * list Row in
      Ok (right_matched,
          if negb left_matched && bool_decide (join_type = JLeft)
          then rows ++ [left_row ++ nulls (length (rel_columns right))] else rows))
    (replicate (length (rel_rows right)) false, []) (rel_rows left);
  let '(right_matched, rows) := st : list bool * list Row in
  Ok {| rel_columns := columns;
        rel_rows :=
          if bool_decide (join_type = JRight)
          then rows ++ unmatched_right (length (rel_columns left)) (rel_rows right) right_matched
          else rows |}.

Definition join_relations (left right : Relation) (join_type : JoinType) (on : option Expr)
    (ctes : Ctes) : outcome Relation :=
  let columns := rel_columns left ++ rel_columns right in
  match e ← on; hash_join_indices e (rel_columns left) (rel_columns right) with
  | Some (left_index, right_index) => hash_join left right columns join_type left_index right_index
  | None => nested_loop_join columns left right join_type on ctes
  end.

(** *** Projection *)

Definition project_item (source : list BoundColumn) (row : Row) (group : option (list Row))
    (ctes : Ctes) (i : SelectItem) : outcome Row :=
  match i with
  | SWildcard qualifier => mapM (vec_index row) (positions (wildcard_matches qualifier) source)
  | SExpr e _ => v ← eval_expr e source row group ctes; Ok [v]
  end.

Definition project_row (projection : list SelectItem) (source : list BoundColumn) (row : Row)
    (group : option (list Row)) (ctes : Ctes) : outcome Row :=
  foldM (λ output i, vs ← project_item source row group ctes i; Ok (output ++ vs)) [] projection.

Definition project_query (q : Query) (source : Relation) (ctes : Ctes) : outcome Relation :=
  columns ← projection_columns (q_projection q) (rel_columns source);
  rows ← mapM (λ row, project_row (q_projection q) (rel_columns source) row None ctes)
           (rel_rows source);
  Ok {| rel_columns := columns; rel_rows := rows |}.

(** *** Grouping *)

Definition group_rows (q : Query) (source : Relation) (ctes : Ctes) :
    outcome (list (string * list Row)) :=
  foldM (λ groups row,
    key_values ← mapM (λ e, eval_expr e (rel_columns source) row None ctes) (q_group_by q);
    Ok (btree_push (row_key key_values) row groups)) [] (rel_rows source).

(** One group: HAVING first, then the projection of its representative. *)
Definition project_group (q : Query) (source : list BoundColumn) (ctes : Ctes)
    (rows : list Row) (group : list Row) : outcome (list Row) :=
  let representative := unwrap_or (head group) (nulls (length source)) in
  keep ← match q_having q with
         | Some having =>
             v ← eval_expr having source representative (Some group) ctes;
             Ok (bool_decide (truth v = STrue))
         | None => Ok true
         end;
  if keep : bool then
    row ← project_row (q_projection q) source representative (Some group) ctes;
    Ok (rows ++ [row])
  else Ok rows.

Definition aggregate_query (q : Query) (source : Relation) (ctes : Ctes) : outcome Relation :=
  groups ← group_rows q source ctes;
  let groups := match groups, q_group_by q with
                | [], [] => [("", [])]
                | _, _ => groups
                end in
  columns ← projection_columns (q_projection q) (rel_columns source);
  rows ← foldM (project_group q (rel_columns source) ctes) [] groups.*2;
  Ok {| rel_columns := columns; rel_rows := rows |}.

(** *** Ordering *)

Definition eval_order_value (e : Expr) (columns : list BoundColumn) (row : Row) (ctes : Ctes) :
    outcome Value :=
  match e with
  | EAggregate _ _ _ =>
      let name := expression_name e in
      index ← resolve_column columns None name;
      ok_or (row !! index) ("ORDER BY expression '" +:+ name +:+ "' is unavailable")
  | _ => eval_expr e columns row None ctes
  end.

Definition order_values (l r : Value) (descending : bool) : comparison :=
  let ordering := match l, r with
                  | VNull, VNull => Eq
                  | VNull, _ => Lt
                  | _, VNull => Gt
                  | _, _ => unwrap_or (value_partial_cmp l r) Eq
                  end in
  if descending then CompOpp ordering else ordering.

(** The first order item that separates the rows decides. *)
Definition compare_order_rows (l r : Row) (columns : list BoundColumn) (ctes : Ctes) :
    list OrderBy → outcome comparison :=
  fix go (order_by : list OrderBy) : outcome comparison :=
    match order_by with
    | [] => Ok Eq
    | o :: order_by =>
        a ← eval_order_value (o_expr o) columns l ctes;
        b ← eval_order_value (o_expr o) columns r ctes;
        match order_values a b (o_descending o) with
        | Eq => go order_by
        | ordering => Ok ordering
        end
    end.

(** [unwrap_or(Ordering::Equal)]: an error compares as equal. *)
Definition order_comparator (q : Query) (columns : list BoundColumn) (ctes : Ctes)
    (l r : Row) : outcome comparison :=
  match compare_order_rows l r columns ctes (q_order_by q) with
  | Err _ => Ok Eq
  | o => o
  end.

(** *** Queries *)

Fixpoint rename_columns (columns : list BoundColumn) (names : list string) : list BoundColumn :=
  match columns, names with
  | c :: columns, n :: names =>
      {| bc_table := bc_table c; bc_name := n |} :: rename_columns columns names
  | _, _ => columns
  end.

Definition add_cte (ctes : Ctes) (c : Cte) : outcome Ctes :=
  r ← execute_query (c_query c) ctes;
  columns ← match c_columns c with
            | [] => Ok (rel_columns r)
            | names =>
                if decide (length names = length (rel_columns r))
                then Ok (rename_columns (rel_columns r) names)
                else Err ("CTE '" +:+ c_name c +:+ "' column count does not match")
            end;
  Ok (<[c_name c := rename_table (c_name c)
         {| rel_columns := columns; rel_rows := rel_rows r |}]> ctes).

Definition filter_rows (selection : option Expr) (columns : list BoundColumn) (ctes : Ctes)
    (rows : list Row) : outcome (list Row) :=
  match selection with
  | None => Ok rows
  | Some e =>
      foldM (λ filtered row,
        v ← eval_expr e columns row None ctes;
        Ok (if bool_decide (truth v = STrue) then filtered ++ [row] else filtered)) [] rows
  end.

Definition is_aggregate_query (q : Query) : bool :=
  negb (bool_decide (length (q_group_by q) = 0))
  || existsb select_item_has_aggregate (q_projection q)
  || is_some_and expr_has_aggregate (q_having q).

Definition orders_before_projection (q : Query) (columns : list BoundColumn) : bool :=
  negb (is_aggregate_query q)
  && negb (bool_decide (length (q_order_by q) = 0))
  && forallb (λ o, expression_resolves (o_expr o) columns) (q_order_by q).

(** Ordering after the projection, with the top-k selection of LIMIT. *)
Definition order_projected (q : Query) (columns : list BoundColumn) (ctes : Ctes)
    (rows : list Row) : outcome (list Row) :=
  let compare := order_comparator q columns ctes in
  match q_limit q with
  | Some limit =>
      if decide (limit = 0) then Ok []
      else if decide (limit < length rows) then
        rows ← select_nth_unstable_by compare limit rows;
        sort_by compare (take limit rows)
      else sort_by compare rows
  | None => sort_by compare rows
  end.

Definition query_source (q : Query) (ctes : Ctes) : outcome Relation :=
  r ← match q_from q with
      | Some source => source_relation source ctes (q_selection q)
      | None => Ok {| rel_columns := []; rel_rows := [[]] |}
      end;
  foldM (λ r j,
    right ← source_relation (j_source j) ctes None;
    join_relations r right (j_type j) (j_on j) ctes) r (q_joins q).

Definition execute_query_body (q : Query) (inherited_ctes : Ctes) : outcome Relation :=
  ctes ← foldM add_cte inherited_ctes (q_ctes q);
  source ← query_source q ctes;
  rows ← filter_rows (q_selection q) (rel_columns source) ctes (rel_rows source);
  let before := orders_before_projection q (rel_columns source) in
  rows ← if before then sort_by (order_comparator q (rel_columns source) ctes) rows else Ok rows;
  let relation := {| rel_columns := rel_columns source; rel_rows := rows |} in
  projected ← if is_aggregate_query q then aggregate_query q relation ctes
              else project_query q relation ctes;
  let rows := if q_distinct q then retain_first row_key ∅ (rel_rows projected)
              else rel_rows projected in
  rows ← if negb (bool_decide (length (q_order_by q) = 0)) && negb before
         then order_projected q (rel_columns projected) ctes rows else Ok rows;
  Ok {| rel_columns := rel_columns projected;
        rel_rows := match q_limit q with Some limit => take limit rows | None => rows end |}.
End open_recursion.

Fixpoint eval_expr (e : Expr) (columns : list BoundColumn) (row : Row)
    (group : option (list Row)) (ctes : Ctes) {struct e} : outcome Value :=
  eval_expr_body eval_expr execute_query e columns row group ctes
with execute_query (q : Query) (ctes : Ctes) {struct q} : outcome Relation :=
  execute_query_body eval_expr execute_query q ctes.
End evaluator.

(** [eval_constant]. *)
Definition eval_constant `{RustStd} (e : Expr) : outcome Value :=
  eval_expr catalog_default e [] [] None ∅.
