(* ===== verification/Queries.v ===== *)
(** * Queries.v: what queries return

    Theorems about the evaluator of Eval.v: the shape of the relations it
    produces, index scans, hash joins, membership, keys of rows, ordering and
    LIMIT. *)

From S2P Require Import Prelude Machine Float64 Like Types Concrete Keys Table Eval.

Section queries.
Context `{RustStd}.
Implicit Types (r : Relation) (ctes : Ctes) (t : Table).

Lemma eval_expr_unfold c e columns row group ctes :
  eval_expr c e columns row group ctes =
  eval_expr_body (eval_expr c) (execute_query c) e columns row group ctes.
Proof. by destruct e. Qed.

Lemma execute_query_unfold c q ctes :
  execute_query c q ctes = execute_query_body c (eval_expr c) (execute_query c) q ctes.
Proof. by destruct q. Qed.

(** ** Widths *)

Definition rows_wide (n : nat) (rows : list Row) : Prop := Forall (λ row, length row = n) rows.
Definition wide (r : Relation) : Prop := rows_wide (length (rel_columns r)) (rel_rows r).
Definition ctes_wide (ctes : Ctes) : Prop := map_Forall (λ _ r, wide r) ctes.
Definition table_wide (t : Table) : Prop :=
  rows_wide (length (schema_columns (tb_schema t))) (tb_rows t).
Definition catalog_wide (c : Catalog) : Prop := map_Forall (λ _ t, table_wide t) (cat_tables c).

Lemma rows_wide_subset n rows rows' : rows' ⊆ rows → rows_wide n rows → rows_wide n rows'.
Proof. unfold rows_wide. rewrite !Forall_forall. auto. Qed.

Lemma rename_table_wide name r : wide r → wide (rename_table name r).
Proof. unfold wide. cbn. by rewrite length_fmap. Qed.

Lemma scan_subset {A} (P : nat * A → bool) (l : list A) : (filter P (imap pair l)).*2 ⊆ l.
Proof.
  intros x ([p y] & -> & Hin)%list_elem_of_fmap.
  apply list_elem_of_filter in Hin as [_ Hin%elem_of_imap_pair].
  by eapply list_elem_of_lookup_2.
Qed.

Lemma relation_from_table_wide t name sel :
  table_wide t → wide (relation_from_table t name sel).
Proof.
  unfold wide, relation_from_table, table_wide, table_columns. cbn. rewrite length_fmap.
  apply rows_wide_subset, scan_subset.
Qed.

Section open.
Variable c : Catalog.
Variable ev : Expr → list BoundColumn → Row → option (list Row) → Ctes → outcome Value.
Variable exq : Query → Ctes → outcome Relation.

Lemma nulls_length n : length (nulls n) = n.
Proof. apply length_replicate. Qed.

Lemma unmatched_right_wide n m rows matched :
  rows_wide m rows → rows_wide (n + m) (unmatched_right n rows matched).
Proof.
  unfold rows_wide. rewrite !Forall_forall. intros Hw row.
  unfold unmatched_right. rewrite list_elem_of_omap.
  intros ([p r] & Hin%elem_of_imap_pair & Hrow). case_bool_decide; [done|].
  injection Hrow as <-. rewrite length_app, nulls_length.
  by rewrite (Hw r) by by eapply list_elem_of_lookup_2.
Qed.

Lemma rows_wide_app n rows rows' : rows_wide n (rows ++ rows') ↔ rows_wide n rows ∧ rows_wide n rows'.
Proof. apply Forall_app. Qed.
Lemma rows_wide_snoc n rows row : rows_wide n rows → length row = n → rows_wide n (rows ++ [row]).
Proof. rewrite rows_wide_app. by repeat constructor. Qed.
Lemma rows_wide_elem n rows row : rows_wide n rows → row ∈ rows → length row = n.
Proof. unfold rows_wide. rewrite Forall_forall. auto. Qed.
Lemma rows_wide_lookup n rows i row : rows_wide n rows → rows !! i = Some row → length row = n.
Proof. unfold rows_wide. rewrite Forall_lookup. eauto. Qed.

Lemma hash_join_positions_wide n m right j left_row v st ps st' :
  rows_wide m right → length left_row = n → rows_wide (n + m) st.2 →
  hash_join_positions right j left_row v st ps = Ok st' → rows_wide (n + m) st'.2.
Proof.
  intros Hr Hl Hst Hf.
  refine (foldM_inv (λ st : bool * list bool * list Row, rows_wide (n + m) st.2)
    _ _ _ _ Hst _ Hf).
  intros [[matched rm] rows] p st2 _ Hrows Hstep. inv_ok. cbn in *.
  rename select (right !! p = Some _) into Hp.
  case_bool_decide; cbn; [|done]. apply rows_wide_snoc; [done|].
  rewrite length_app, (rows_wide_lookup _ _ _ _ Hr Hp). lia.
Qed.

Lemma hash_join_wide l r jt i j r' :
  wide l → wide r → hash_join l r (rel_columns l ++ rel_columns r) jt i j = Ok r' → wide r'.
Proof.
  intros Hl Hr Hj. unfold hash_join in Hj.
  apply bind_Ok in Hj as (m & _ & Hj). apply bind_Ok in Hj as ([rm rows] & Hf & Hj).
  set (n := length (rel_columns l)) in *. set (k := length (rel_columns r)) in *.
  assert (rows_wide (n + k) rows) as Hrows.
  { refine (foldM_inv (λ st : list bool * list Row, rows_wide (n + k) st.2) _ _ _ _ _ _ Hf);
      [constructor|].
    intros [rm1 rows1] left_row st2 Hin Hw Hstep.
    pose proof (rows_wide_elem _ _ _ Hl Hin) as Hlen.
    apply bind_Ok in Hstep as (v & _ & Hstep).
    apply bind_Ok in Hstep as ([[matched rm2] rows2] & Hps & Hstep).
    apply (hash_join_positions_wide n k) in Hps; [|done..].
    injection Hstep as <-. cbn in *.
    destruct (_ && _); [|done]. apply rows_wide_snoc; [done|].
    rewrite length_app, nulls_length. by rewrite Hlen. }
  injection Hj as <-. unfold wide. cbn. rewrite length_app.
  destruct (bool_decide (jt = JRight)); [|exact Hrows]. apply rows_wide_app. split; [exact Hrows|].
  apply unmatched_right_wide. exact Hr.
Qed.

Lemma join_left_row_wide n m columns right on ctes left_row st st' :
  rows_wide m right → length left_row = n → rows_wide (n + m) st.2 →
  join_left_row ev columns right on ctes left_row st = Ok st' → rows_wide (n + m) st'.2.
Proof.
  intros Hr Hl Hst Hf.
  refine (foldM_inv (λ st : bool * list bool * list Row, rows_wide (n + m) st.2)
    _ _ _ _ Hst _ Hf).
  intros [[matched rm] rows] [p row] st2 Hin%elem_of_imap_pair Hrows Hstep.
  apply bind_Ok in Hstep as (matches & _ & Hstep). injection Hstep as <-.
  destruct matches; cbn; [|done]. apply rows_wide_snoc; [done|].
  rewrite length_app, (rows_wide_lookup _ _ _ _ Hr Hin). lia.
Qed.

Lemma nested_loop_join_wide l r jt on ctes r' :
  wide l → wide r →
  nested_loop_join ev (rel_columns l ++ rel_columns r) l r jt on ctes = Ok r' → wide r'.
Proof.
  intros Hl Hr Hj. unfold nested_loop_join in Hj.
  apply bind_Ok in Hj as ([rm rows] & Hf & Hj).
  set (n := length (rel_columns l)) in *. set (k := length (rel_columns r)) in *.
  assert (rows_wide (n + k) rows) as Hrows.
  { refine (foldM_inv (λ st : list bool * list Row, rows_wide (n + k) st.2) _ _ _ _ _ _ Hf);
      [constructor|].
    intros [rm1 rows1] left_row st2 Hin Hw Hstep.
    pose proof (rows_wide_elem _ _ _ Hl Hin) as Hlen.
    apply bind_Ok in Hstep as ([[matched rm2] rows2] & Hps & Hstep).
    apply (join_left_row_wide n k) in Hps; [|exact Hr|exact Hlen|exact Hw].
    injection Hstep as <-. cbn in *.
    destruct (_ && _); [|done]. apply rows_wide_snoc; [done|].
    rewrite length_app, nulls_length. by rewrite Hlen. }
  injection Hj as <-. unfold wide. cbn. rewrite length_app.
  destruct (bool_decide (jt = JRight)); [|exact Hrows]. apply rows_wide_app. split; [exact Hrows|].
  apply unmatched_right_wide. exact Hr.
Qed.

Lemma join_relations_wide l r jt on ctes r' :
  wide l → wide r → join_relations ev l r jt on ctes = Ok r' → wide r'.
Proof.
  intros Hl Hr. unfold join_relations. destruct (_ ≫= _) as [[i j]|].
  - by apply hash_join_wide.
  - by apply nested_loop_join_wide.
Qed.

(** *** Projections have the width of their header *)

Lemma length_positions {A} (p : A → bool) (l : list A) :
  length (positions p l) = length (filter p l).
Proof.
  unfold positions. rewrite length_fmap.
  enough (∀ k, length (filter (λ ix : nat * A, p ix.2) (imap (λ i, pair (k + i)) l))
               = length (filter p l)) as Hk by apply (Hk 0).
  induction l as [|x l IH]; intros k; [done|]. rewrite imap_cons, !filter_cons. cbn.
  assert (imap ((λ i, pair (k + i)) ∘ S) l = imap (λ i, pair (S k + i)) l) as ->.
  { apply imap_ext. intros i y _. cbn. f_equal. lia. }
  specialize (IH (S k)). cbn in IH. destruct (decide (p x)); cbn; congruence.
Qed.

Lemma project_item_length columns row group ctes i out cols :
  item_columns columns i = Ok cols →
  project_item ev columns row group ctes i = Ok out → length out = length cols.
Proof.
  destruct i as [qualifier|e alias]; cbn; intros Hc Hp.
  - apply mapM_length in Hp. rewrite Hp, length_positions.
    by destruct (filter _ columns); [|injection Hc as <-].
  - inv_ok. done.
Qed.

Lemma project_row_length projection columns row group ctes out cols :
  projection_columns projection columns = Ok cols →
  project_row ev projection columns row group ctes = Ok out → length out = length cols.
Proof.
  unfold projection_columns, project_row.
  enough (∀ out0 cols0, length out0 = length cols0 →
    foldM (λ output i, cs ← item_columns columns i; Ok (output ++ cs)) cols0 projection = Ok cols →
    foldM (λ output i, vs ← project_item ev columns row group ctes i; Ok (output ++ vs))
      out0 projection = Ok out → length out = length cols) as Hgen by by apply Hgen.
  induction projection as [|i projection IH]; intros out0 cols0 Hlen; cbn.
  - intros [= <-] [= <-]. done.
  - intros Hc Hp. apply bind_Ok in Hc as (? & Hcs & Hc), Hp as (? & Hvs & Hp).
    apply bind_Ok in Hcs as (cs & Hcs & [= <-]), Hvs as (vs & Hvs & [= <-]).
    eapply IH; [|exact Hc|exact Hp].
    by rewrite !length_app, Hlen, (project_item_length _ _ _ _ _ _ _ Hcs Hvs).
Qed.

Lemma project_query_wide q r ctes r' : project_query ev q r ctes = Ok r' → wide r'.
Proof.
  unfold project_query. intros Hp. inv_ok. unfold wide. cbn.
  rename select (mapM _ _ = Ok _) into Hm. apply mapM_Ok in Hm.
  apply Forall_forall. intros row [i Hi]%list_elem_of_lookup_1.
  destruct (Forall2_lookup_r _ _ _ _ _ Hm Hi) as (src & _ & Hrow).
  by eapply project_row_length.
Qed.

Lemma aggregate_query_wide q r ctes r' : aggregate_query ev q r ctes = Ok r' → wide r'.
Proof.
  unfold aggregate_query. intros Hp. inv_ok. unfold wide. cbn.
  rename select (projection_columns _ _ = _) into Hcols.
  rename select (foldM (project_group _ _ _ _) _ _ = _) into Hf.
  refine (foldM_inv (rows_wide _) _ _ _ _ _ _ Hf); [constructor|].
  intros rows group rows' _ Hw Hg. unfold project_group in Hg.
  apply bind_Ok in Hg as (keep & _ & Hg). destruct keep; inv_ok; [|done].
  apply rows_wide_snoc; [done|]. by eapply project_row_length.
Qed.

(** *** Queries *)

Lemma filter_rows_subset sel columns ctes rows rows' :
  filter_rows ev sel columns ctes rows = Ok rows' → rows' ⊆ rows.
Proof.
  unfold filter_rows. destruct sel as [e|]; [|by intros [= <-]].
  intros Hf. refine (foldM_inv (λ rows', rows' ⊆ rows) _ _ _ _ _ _ Hf); [set_solver|].
  intros acc row acc' Hin Hacc Hstep. inv_ok. case_bool_decide; set_solver.
Qed.

Lemma retain_first_subset {A} (key : A → string) seen l : retain_first key seen l ⊆ l.
Proof.
  revert seen. induction l as [|x l IH]; intros seen; cbn; [done|].
  case_bool_decide; [|specialize (IH ({[key x]} ∪ seen))]; set_solver.
Qed.

Lemma take_subset' {A} (n : nat) (l : list A) : take n l ⊆ l.
Proof. intros x Hx. rewrite <-(take_drop n l). set_solver. Qed.

Lemma order_projected_subset q columns ctes rows rows' :
  order_projected ev q columns ctes rows = Ok rows' → rows' ⊆ rows.
Proof.
  assert (∀ cmp (l l' : list Row), sort_by cmp l = Ok l' → l' ⊆ l) as Hsort.
  { intros cmp l l' Hl%sort_by_perm x. by rewrite Hl. }
  unfold order_projected. destruct (q_limit q) as [n|]; [|apply Hsort].
  repeat case_decide; [intros [= <-]; set_solver| |apply Hsort].
  intros Hs. apply bind_Ok in Hs as (sel & Hsel%select_nth_perm & Hs%Hsort).
  intros x Hx%Hs%take_subset'. by rewrite <-Hsel.
Qed.

Lemma execute_query_body_wide q ctes r :
  execute_query_body c ev exq q ctes = Ok r → wide r.
Proof.
  intros Hx. unfold execute_query_body in Hx.
  apply bind_Ok in Hx as (ctes' & Hctes' & Hx).
  apply bind_Ok in Hx as (source & _ & Hx).
  apply bind_Ok in Hx as (rows1 & _ & Hx).
  apply bind_Ok in Hx as (rows2 & _ & Hx).
  apply bind_Ok in Hx as (projected & Hp & Hx).
  apply bind_Ok in Hx as (rows3 & Hrows3 & Hx). injection Hx as <-.
  assert (wide projected) as Hw.
  { destruct (is_aggregate_query q); [by eapply aggregate_query_wide|by eapply project_query_wide]. }
  unfold wide in *. cbn. eapply rows_wide_subset; [|exact Hw].
  transitivity rows3; [destruct (q_limit q); [apply take_subset'|done]|].
  transitivity (if q_distinct q then retain_first row_key ∅ (rel_rows projected)
                else rel_rows projected).
  - destruct (_ && _); [by eapply order_projected_subset|by injection Hrows3 as <-].
  - destruct (q_distinct q); [apply retain_first_subset|done].
Qed.

Hypothesis exq_wide : ∀ q ctes r, exq q ctes = Ok r → wide r.

Lemma source_relation_wide s ctes sel r :
  catalog_wide c → ctes_wide ctes → source_relation c exq s ctes sel = Ok r → wide r.
Proof.
  intros Hc Hctes Hr. destruct s as [name alias|q alias]; cbn in Hr.
  - destruct (ctes !! name) as [cte|] eqn:Hcte.
    + injection Hr as <-. apply rename_table_wide. by apply (Hctes name).
    + inv_ok. apply relation_from_table_wide. by eapply Hc.
  - inv_ok. apply rename_table_wide. by eapply exq_wide.
Qed.

Lemma add_cte_wide ctes cte ctes' :
  ctes_wide ctes → add_cte exq ctes cte = Ok ctes' → ctes_wide ctes'.
Proof.
  intros Hctes Ha. unfold add_cte in Ha. inv_ok.
  rename select (exq _ _ = _) into Hx. apply exq_wide in Hx.
  apply map_Forall_insert_2; [|done]. apply rename_table_wide. unfold wide in *. cbn.
  enough (length x0 = length (rel_columns x)) as -> by done.
  clear -H1. destruct (c_columns cte) as [|n names]; [by simplify_eq|].
  case_decide; simplify_eq. clear. revert n names.
  induction (rel_columns x) as [|b l IH]; intros n names; cbn; [done|].
  f_equal. destruct names; [by destruct l|apply IH].
Qed.

Lemma query_source_wide q ctes r :
  catalog_wide c → ctes_wide ctes → query_source c ev exq q ctes = Ok r → wide r.
Proof.
  intros Hc Hctes Hs. unfold query_source in Hs.
  apply bind_Ok in Hs as (r0 & Hr0 & Hf).
  assert (wide r0) as Hw0.
  { destruct (q_from q) as [s|]; [by eapply source_relation_wide; eauto|].
    injection Hr0 as <-. by repeat constructor. }
  refine (foldM_inv wide _ _ _ _ Hw0 _ Hf).
  intros acc j acc' Hj Hacc Hstep. inv_ok.
  eapply join_relations_wide; [| |done]; [done|].
  eapply source_relation_wide; eauto.
Qed.
End open.

(** Every relation a query returns is rectangular. *)
Lemma execute_query_wide c q ctes r : execute_query c q ctes = Ok r → wide r.
Proof. rewrite execute_query_unfold. apply execute_query_body_wide. Qed.

(** ** Column resolution *)

Lemma positions_cons {A} (p : A → bool) x (l : list A) :
  positions p (x :: l) = (if p x then [0] else []) ++ (S <$> positions p l).
Proof.
  unfold positions. rewrite imap_cons, filter_cons.
  assert (∀ l : list (nat * A), (filter (λ ix : nat * A, p ix.2) (prod_map S id <$> l)).*1
          = S <$> (filter (λ ix : nat * A, p ix.2) l).*1) as Hshift.
  { clear. induction l as [|[i y] l IH]; [done|]. rewrite fmap_cons, !filter_cons.
    cbn [prod_map snd fst]. change (id y) with y. destruct (decide (p y)); [|exact IH].
    rewrite !fmap_cons. by rewrite IH. }
  assert (imap (pair ∘ S) l = prod_map S id <$> imap pair l) as ->.
  { rewrite fmap_imap. apply imap_ext. done. }
  rewrite <-Hshift. destruct (p x) eqn:Hp.
  - by rewrite decide_True by (cbn; by rewrite Hp).
  - by rewrite decide_False by (cbn; rewrite Hp; auto).
Qed.

Lemma head_positions {A} (p : A → bool) (l : list A) : head (positions p l) = position p l.
Proof.
  induction l as [|x l IH]; [done|]. rewrite positions_cons. cbn.
  destruct (p x); [done|]. cbn. rewrite <-IH. by destruct (positions p l).
Qed.

Lemma resolve_column_position columns qualifier name i :
  resolve_column columns qualifier name = Ok i →
  positions (column_matches qualifier name) columns = [i].
Proof. unfold resolve_column. repeat case_match; naive_solver. Qed.

(** In the columns of one table, a resolved name is the schema's column. *)
Lemma resolve_table_column t table qualifier name i :
  resolve_column (table_columns t table) qualifier name = Ok i →
  column_index (tb_schema t) name = Some i.
Proof.
  intros Hr%resolve_column_position. apply (f_equal head) in Hr.
  rewrite head_positions in Hr. cbn in Hr. unfold column_index.
  pose proof Hr as (x & Hx & Hm & Hmin)%position_Some. unfold table_columns in *.
  apply list_lookup_fmap_Some in Hx as (col & -> & Hcol). unfold column_matches in Hm. cbn in Hm.
  apply andb_true_iff in Hm as [Hname Hq]. apply position_Some. exists col.
  split_and!; [done..|]. intros j y Hj Hy.
  specialize (Hmin j {| bc_table := table; bc_name := col_name y |} Hj).
  rewrite list_lookup_fmap, Hy in Hmin. specialize (Hmin eq_refl).
  unfold column_matches in Hmin. cbn in Hmin. rewrite Hq, andb_true_r in Hmin. done.
Qed.

(** ** Index scans *)

(** The comparison of key parts is the SQL comparison: same type, and no
    pair of zeros of opposite sign. *)
Definition key_comparable (v w : Value) : Prop :=
  match v, w with
  | VNull, _ | _, VNull => True
  | VInteger _, VInteger _ | VText _, VText _ | VBoolean _, VBoolean _ => True
  | VFloat a, VFloat b =>
      f64_valid a ∧ f64_valid b ∧
      (signed_key a ≠ 0 ∨ signed_key b ≠ 0 ∨ sign_bit a = sign_bit b)%Z
  | _, _ => False
  end.

Lemma key_comparable_sym v w : key_comparable v w → key_comparable w v.
Proof. destruct v, w; cbn; naive_solver. Qed.

(** On comparable values, a defined SQL order is the order of the keys. *)
Lemma key_part_cmp_sql v w c :
  key_comparable v w → is_null v = false → is_null w = false →
  value_partial_cmp v w = Some c →
  key_part_cmp (key_part_from_value v) (key_part_from_value w) = c.
Proof.
  destruct v as [x|x|x|x|], w as [y|y|y|y|]; cbn; try done; intros Hk _ _ Hc; simplify_eq; try done.
  destruct Hk as (Ha & Hb & Hz).
  destruct (is_nan x) eqn:Hx; [rewrite f64_compare_nan in Hc; auto; done|].
  destruct (is_nan y) eqn:Hy; [rewrite f64_compare_nan in Hc; auto; done|].
  rewrite ordered_bits_compare in Hc by done. by injection Hc.
Qed.

Lemma compare_sql_key v w op :
  key_comparable v w → op = CmpEqual ∨ is_range_op op = true →
  compare_sql v w op = STrue →
  compare_key_part (key_part_from_value v) (key_part_from_value w) op = true.
Proof.
  intros Hk Hop Hc. unfold compare_sql in Hc.
  destruct (is_null v) eqn:Hv; [done|]. destruct (is_null w) eqn:Hw; [done|]. cbn in Hc.
  pose proof (key_part_cmp_sql v w) as Hcmp. unfold compare_key_part.
  destruct (value_partial_cmp v w) as [c|] eqn:E; cycle 1.
  { destruct op; cbn in *; try done; by destruct Hop. }
  rewrite (Hcmp c Hk Hv Hw eq_refl).
  destruct op, c; cbn in *; done || by destruct Hop.
Qed.

Lemma key_part_cmp_antisym a b : key_part_cmp b a = CompOpp (key_part_cmp a b).
Proof.
  destruct a as [|[]| | |], b as [|[]| | |]; cbn; try done;
    [apply Z.compare_antisym..|apply String.compare_antisym].
Qed.

Lemma compare_key_part_reverse a b op :
  compare_key_part a b (reverse_comparison op) = compare_key_part b a op.
Proof.
  unfold compare_key_part. rewrite (key_part_cmp_antisym b a).
  by destruct op, (key_part_cmp b a).
Qed.

(** Every collected literal is comparable with the values it meets. *)
Definition predicates_typed (t : Table) (e : Expr) : Prop :=
  ∀ p row i v, p ∈ collect_index_predicates e → row ∈ tb_rows t →
    column_index (tb_schema t) (ip_column p) = Some i → row !! i = Some v →
    key_comparable v (ip_value p).

(** A row on which the predicate is true satisfies what the index walk uses. *)
Lemma true_predicates_hold c t table row ctes e v :
  row ∈ tb_rows t → predicates_typed t e →
  eval_expr c e (table_columns t table) row None ctes = Ok v → truth v = STrue →
  Forall (predicate_holds (tb_schema t) row) (collect_index_predicates e).
Proof.
  intros Hrow. revert v.
  assert (∀ q n i u, resolve_column (table_columns t table) q n = Ok i → row !! i = Some u →
    ∀ j w, column_index (tb_schema t) n = Some j → row !! j = Some w → w = u) as Hres.
  { intros q n i u Hi%resolve_table_column Hu j w Hj Hw. congruence. }
  induction e as [| | | |l IHl op r IHr| | | | | | | |]; intros res Hty Hev Htrue; try constructor.
  destruct op as [| | | |op| |]; try (cbn; by repeat case_match).
  - rewrite eval_expr_unfold in Hev. cbn [eval_expr_body] in Hev.
    destruct l as [q n|w| | | | | | | | | | |], r as [q' n'|w'| | | | | | | | | | |];
      try constructor; try constructor; cbn in Hev; inv_ok;
      rewrite truth_value_truth in Htrue; intros Hop i u Hi Hu; cbn in Hop, Hi |- *.
    + assert (u = x) as -> by by eapply Hres.
      apply compare_sql_key; [|done..].
      apply (Hty (Build_IndexPredicate n op w') row i); [|done..]. cbn. set_solver.
    + assert (u = x) as -> by by eapply Hres.
      rewrite compare_key_part_reverse. apply compare_sql_key;
        [|by clear -Hop; destruct op; naive_solver|done].
      apply key_comparable_sym.
      apply (Hty (Build_IndexPredicate n' (reverse_comparison op) w) row i); [|done..].
      cbn. set_solver.
  - rewrite eval_expr_unfold in Hev. cbn [eval_expr_body] in Hev.
    apply bind_Ok in Hev as (a & Ha & Hev). case_bool_decide as Hf; [by simplify_eq|].
    apply bind_Ok in Hev as (b & Hb & Hev). injection Hev as <-.
    rewrite truth_value_truth in Htrue.
    assert (truth a = STrue ∧ truth b = STrue) as [Ht1 Ht2].
    { destruct (truth a), (truth b); done. }
    assert (collect_index_predicates (EBinary l OpAnd r)
            = collect_index_predicates l ++ collect_index_predicates r) as Hand by by destruct l.
    rewrite Hand. apply Forall_app. split.
    + apply (IHl a); [|done..]. intros p row' i u Hp. apply Hty. rewrite Hand. set_solver.
    + apply (IHr b); [|done..]. intros p row' i u Hp. apply Hty. rewrite Hand. set_solver.
Qed.

(** Filtering a part of the rows that keeps every accepted row. *)
Lemma filter_rows_skip {A} (ev : Row → outcome Value) (P : A * Row → Prop)
    `{∀ x, Decision (P x)} (L : list (A * Row)) acc out :
  let step (filtered : list Row) row :=
    v ← ev row; Ok (if bool_decide (truth v = STrue) then filtered ++ [row] else filtered) in
  (∀ x v, x ∈ L → ev x.2 = Ok v → truth v = STrue → P x) →
  foldM step acc L.*2 = Ok out → foldM step acc (filter P L).*2 = Ok out.
Proof.
  intros step. revert acc. induction L as [|x L IH]; intros acc HP Hf; [done|].
  cbn [fmap list_fmap] in Hf. apply bind_Ok in Hf as (acc' & Hs & Hf).
  rewrite filter_cons. destruct (decide (P x)) as [Hx|Hx].
  - cbn [fmap list_fmap]. rewrite foldM_cons, Hs. cbn. apply IH; [set_solver|done].
  - apply IH; [set_solver|]. apply bind_Ok in Hs as (v & Hv & [= <-]).
    case_bool_decide as Ht; [|done]. destruct Hx. eapply HP; eauto. set_solver.
Qed.

Lemma snd_imap_pair {A} (l : list A) : (imap pair l).*2 = l.
Proof.
  rewrite fmap_imap. change (imap (λ _ x, x) l = l).
  induction l as [|x l IH]; [done|]. rewrite imap_cons. f_equal. exact IH.
Qed.

Lemma is_candidate_sound c t table e ctes pr v :
  Coherent t → table_wide t → index_columns_ok (tb_schema t) → predicates_typed t e →
  pr ∈ imap pair (tb_rows t) →
  eval_expr c e (table_columns t table) pr.2 None ctes = Ok v → truth v = STrue →
  is_candidate t (candidate_row_ids t (Some e)).1 pr.1 = true.
Proof.
  intros Hco Hw Hcols Hty Hin Hev Ht. destruct pr as [p row]. cbn in *.
  apply elem_of_imap_pair in Hin. unfold is_candidate.
  destruct (candidate_row_ids t (Some e)).1 as [ids|] eqn:Hc; cbn in Hc; rewrite Hc; [cbn|done].
  destruct (lookup_lt_is_Some_2 (tb_row_ids t) p) as [id Hid].
  { rewrite (ids_length _ (co_ids _ Hco)). by eapply lookup_lt_Some. }
  rewrite Hid. cbn. apply bool_decide_eq_true.
  eapply candidate_row_ids_sound; [done..| |].
  - by eapply rows_wide_lookup.
  - eapply true_predicates_hold; [|done..]. by eapply list_elem_of_lookup_2.
Qed.

(** Filtering the candidates of a scan is filtering the whole table. *)
Lemma scan_filter c t table e ctes out :
  Coherent t → table_wide t → index_columns_ok (tb_schema t) → predicates_typed t e →
  filter_rows (eval_expr c) (Some e) (table_columns t table) ctes (tb_rows t) = Ok out →
  filter_rows (eval_expr c) (Some e) (table_columns t table) ctes
    (rel_rows (relation_from_table t table (Some e))) = Ok out.
Proof.
  intros Hco Hw Hcols Hty Hf. unfold filter_rows, relation_from_table in *. cbn [rel_rows].
  rewrite <-(snd_imap_pair (tb_rows t)) in Hf.
  apply (filter_rows_skip (λ row, eval_expr c e (table_columns t table) row None ctes)); [|done].
  intros pr v Hin Hv Ht. apply Is_true_true_2. by eapply is_candidate_sound.
Qed.

(** ** Joins *)

(** Accumulating over a list, skipping what changes nothing. *)
Lemma foldl_filter_skip {A B} (f : B → A → B) (P : A → Prop) `{∀ x, Decision (P x)} l b :
  (∀ b x, x ∈ l → ¬ P x → f b x = b) → foldl f b (filter P l) = foldl f b l.
Proof.
  revert b. induction l as [|x l IH]; intros b Hf; [done|]. rewrite filter_cons. cbn.
  destruct (decide (P x)) as [Hx|Hx]; cbn.
  - apply IH. set_solver.
  - rewrite (Hf b x) by set_solver. apply IH. set_solver.
Qed.

Lemma foldM_pure {A B} (g : B → A → outcome B) (f : B → A → B) l b :
  (∀ b x, x ∈ l → g b x = Ok (f b x)) → foldM g b l = Ok (foldl f b l).
Proof.
  revert b. induction l as [|x l IH]; intros b Hg; [done|].
  rewrite foldM_cons, Hg by set_solver. cbn. apply IH. set_solver.
Qed.

Lemma foldM_ext' {A B} (f g : B → A → outcome B) l b :
  (∀ b x, x ∈ l → f b x = g b x) → foldM f b l = foldM g b l.
Proof.
  revert b. induction l as [|x l IH]; intros b Hg; [done|].
  rewrite !foldM_cons, Hg by set_solver. apply bind_ext. intros b' _. apply IH. set_solver.
Qed.

(** Matching one left row with one right row, as a pure step. *)
Definition match_step (left_row : Row) (holds : Row → bool)
    (st : bool * list bool * list Row) (pr : nat * Row) : bool * list bool * list Row :=
  let '(matched, right_matched, rows) := st in
  if holds pr.2 then (true, <[pr.1 := true]> right_matched, rows ++ [left_row ++ pr.2])
  else (matched, right_matched, rows).

(** The positions [right_map] stores under a key. *)
Definition key_at (j : nat) (k : string) (pr : nat * Row) : Prop :=
  ∃ w, pr.2 !! j = Some w ∧ is_null w = false ∧ hash_join_key w = k.
#[local] Instance key_at_dec j k pr : Decision (key_at j k pr).
Proof.
  unfold key_at. destruct (pr.2 !! j) as [w|]; [|right; naive_solver].
  destruct (decide (is_null w = false ∧ hash_join_key w = k)); [left|right]; naive_solver.
Defined.

Lemma right_map_lookup rows j :
  (∀ row, row ∈ rows → j < length row) →
  ∃ m, right_map rows j = Ok m ∧
    ∀ k, default [] (m !! k) = (filter (key_at j k) (imap pair rows)).*1.
Proof.
  intros Hj. unfold right_map.
  enough (∀ (L : list (nat * Row)) m0, (∀ pr, pr ∈ L → j < length pr.2) →
    ∃ m, foldM (λ (m : gmap string (list nat)) (pr : nat * Row),
        v ← vec_index pr.2 j;
        Ok (if is_null v then m
            else <[hash_join_key v := default [] (m !! hash_join_key v) ++ [pr.1]]> m)) m0 L = Ok m ∧
      ∀ k, default [] (m !! k) = default [] (m0 !! k) ++ (filter (key_at j k) L).*1) as Hgen.
  { destruct (Hgen (imap pair rows) ∅) as (m & Hm & Hk).
    - intros [p row] Hin%elem_of_imap_pair. apply Hj. by eapply list_elem_of_lookup_2.
    - exists m. split; [done|]. intros k. rewrite Hk. by rewrite lookup_empty. }
  intros L. induction L as [|pr L IH]; intros m0 HL.
  { exists m0. split; [done|]. intros k. by rewrite app_nil_r. }
  destruct (lookup_lt_is_Some_2 pr.2 j) as [w Hw]; [apply HL; set_solver|].
  pose proof (proj2 (vec_index_Ok _ _ _) Hw) as Hv. rewrite foldM_cons, Hv.
  cbn [mbind outcome_bind]. destruct (IH (if is_null w then m0 else
    <[hash_join_key w := default [] (m0 !! hash_join_key w) ++ [pr.1]]> m0)) as (m & Hm & Hk);
    [set_solver|].
  exists m. split; [done|]. intros k. rewrite Hk, filter_cons.
  destruct (is_null w) eqn:Hn.
  { rewrite decide_False; [done|]. intros (w' & Hw' & ? & _). congruence. }
  destruct (decide (hash_join_key w = k)) as [<-|Hne].
  - rewrite decide_True by by exists w. rewrite lookup_insert_eq. cbn. by rewrite <-app_assoc.
  - rewrite decide_False by (intros (w' & ? & _ & ?); congruence).
    by rewrite lookup_insert_ne.
Qed.

Definition equals_at (v : Value) (j : nat) (row : Row) : bool :=
  is_some_and (λ w, bool_decide (compare_sql v w CmpEqual = STrue)) (row !! j).

Lemma hash_join_positions_pure right j left_row v st L :
  (∀ pr, pr ∈ L → right !! pr.1 = Some pr.2 ∧ j < length pr.2) →
  hash_join_positions right j left_row v st L.*1 =
  Ok (foldl (match_step left_row (equals_at v j)) st L).
Proof.
  revert st. induction L as [|pr L IH]; intros [[matched rm] rows] HL; [done|].
  destruct (HL pr) as [Hpr Hlt]; [set_solver|].
  destruct (lookup_lt_is_Some_2 pr.2 j Hlt) as [w Hw].
  unfold hash_join_positions in *. cbn [fmap list_fmap]. rewrite foldM_cons.
  rewrite (proj2 (vec_index_Ok _ _ _) Hpr). cbn.
  rewrite (proj2 (vec_index_Ok _ _ _) Hw). cbn. rewrite IH by set_solver. do 2 f_equal.
  unfold equals_at. by rewrite Hw.
Qed.

(** *** Resolution in the columns of a join *)

Lemma positions_app {A} (p : A → bool) (l k : list A) :
  positions p (l ++ k) = positions p l ++ (Nat.add (length l) <$> positions p k).
Proof.
  induction l as [|x l IH]; [by rewrite list_fmap_id|].
  cbn [app length]. rewrite !positions_cons, IH, fmap_app, <-app_assoc.
  by rewrite <-list_fmap_compose.
Qed.

Lemma resolve_column_app lc rc q n k i :
  resolve_column (lc ++ rc) q n = Ok k →
  (resolve_column lc q n = Ok i → k = i) ∧ (resolve_column rc q n = Ok i → k = length lc + i).
Proof.
  intros Hk%resolve_column_position. rewrite positions_app in Hk.
  split; intros Hi%resolve_column_position; rewrite Hi in Hk.
  - by simplify_eq/=.
  - destruct (positions _ lc) as [|? [|]]; by simplify_eq/=.
Qed.

Lemma resolve_column_lt l q n i : resolve_column l q n = Ok i → i < length l.
Proof.
  intros Hi%resolve_column_position. apply (f_equal head) in Hi.
  rewrite head_positions in Hi. by eapply position_lt.
Qed.

Lemma value_partial_cmp_sym v w :
  value_partial_cmp v w = Some Eq → value_partial_cmp w v = Some Eq.
Proof.
  assert (∀ a b, f64_compare a b = Some Eq → f64_compare b a = Some Eq) as Hf.
  { intros a b. destruct (is_nan a) eqn:Ha; [by rewrite f64_compare_nan by auto|].
    destruct (is_nan b) eqn:Hb; [by rewrite f64_compare_nan by auto|].
    rewrite !f64_compare_key by done. intros [= H0].
    apply Z.compare_eq in H0. by rewrite H0, Z.compare_refl. }
  destruct v, w; cbn; try done; auto; intros [= H0]; f_equal.
  - apply Z.compare_eq in H0 as ->. apply Z.compare_refl.
  - rewrite String.compare_antisym, H0. done.
  - by destruct b, b0.
Qed.

Lemma compare_sql_equal_sym v w :
  bool_decide (compare_sql v w CmpEqual = STrue) = bool_decide (compare_sql w v CmpEqual = STrue).
Proof.
  apply bool_decide_ext. unfold compare_sql. rewrite (orb_comm (is_null w)).
  destruct (is_null v || is_null w); [done|]. unfold truth_of_bool.
  assert (bool_decide (value_partial_cmp v w = Some Eq) = bool_decide (value_partial_cmp w v = Some Eq))
    as ->; [|done].
  apply bool_decide_ext. split; apply value_partial_cmp_sym.
Qed.

(** The equality of a hash join, evaluated on a combined row. *)
Lemma join_on_evaluates c e lc rc i j lrow rrow ctes v :
  hash_join_indices e lc rc = Some (i, j) → expression_resolves e (lc ++ rc) = true →
  length lrow = length lc → length rrow = length rc → lrow !! i = Some v →
  on_matches (eval_expr c) (Some e) (lc ++ rc) (lrow ++ rrow) ctes = Ok (equals_at v j rrow).
Proof.
  intros Hij Hres Hl Hr Hv. unfold hash_join_indices in Hij.
  destruct e as [| | | |[lq ln| | | | | | | | | | | |] [| | | |[]| |] [rq rn| | | | | | | | | | | |]| | | | | | | |];
    try done.
  cbn in Hres. unfold resolves in Hres. apply andb_true_iff in Hres as [Hres1 Hres2].
  destruct (resolve_column (lc ++ rc) lq ln) as [k1| |] eqn:Hk1; [|done..].
  destruct (resolve_column (lc ++ rc) rq rn) as [k2| |] eqn:Hk2; [|done..].
  assert (∀ q n q' n' k k', resolve_column lc q n = Ok i → resolve_column rc q' n' = Ok j →
    resolve_column (lc ++ rc) q n = Ok k → resolve_column (lc ++ rc) q' n' = Ok k' →
    (lrow ++ rrow) !! k = Some v ∧ (lrow ++ rrow) !! k' = rrow !! j ∧ is_Some (rrow !! j)) as Hlk.
  { intros q n q' n' k k' Hi Hj Hk Hk'.
    apply (resolve_column_app _ _ _ _ _ i) in Hk as [Hk _]. rewrite (Hk Hi).
    apply (resolve_column_app _ _ _ _ _ j) in Hk' as [_ Hk']. rewrite (Hk' Hj).
    apply resolve_column_lt in Hj. split_and!.
    - by apply lookup_app_l_Some.
    - rewrite lookup_app_r by lia. f_equal. lia.
    - apply lookup_lt_is_Some_2. lia. }
  unfold on_matches. rewrite eval_expr_unfold. cbn [eval_expr_body].
  rewrite !eval_expr_unfold. cbn [eval_expr_body]. rewrite Hk1, Hk2. cbn [mbind outcome_bind].
  assert ((resolve_column lc lq ln = Ok i ∧ resolve_column rc rq rn = Ok j) ∨
          (resolve_column lc rq rn = Ok i ∧ resolve_column rc lq ln = Ok j)) as [[Hi Hj]|[Hi Hj]].
  { clear -Hij. repeat case_match; simplify_eq; auto. }
  - destruct (Hlk _ _ _ _ _ _ Hi Hj Hk1 Hk2) as (-> & -> & [w Hw]). unfold equals_at. rewrite Hw.
    cbn. by rewrite truth_value_truth.
  - destruct (Hlk _ _ _ _ _ _ Hi Hj Hk2 Hk1) as (-> & -> & [w Hw]). unfold equals_at. rewrite Hw.
    cbn. by rewrite truth_value_truth, compare_sql_equal_sym.
Qed.

(** Equal values hash alike. *)
Definition keys_agree (l r : Relation) (i j : nat) : Prop :=
  ∀ lrow rrow v w, lrow ∈ rel_rows l → rrow ∈ rel_rows r →
    lrow !! i = Some v → rrow !! j = Some w →
    compare_sql v w CmpEqual = STrue → hash_join_key v = hash_join_key w.

Lemma compare_sql_true_not_null v w op :
  compare_sql v w op = STrue → is_null v = false ∧ is_null w = false.
Proof. unfold compare_sql. by destruct (is_null v), (is_null w). Qed.

Lemma hash_matches_pure l r i j lrow v (m : gmap string (list nat)) st :
  wide r → keys_agree l r i j → j < length (rel_columns r) →
  lrow ∈ rel_rows l → lrow !! i = Some v →
  (∀ k, default [] (m !! k) = (filter (key_at j k) (imap pair (rel_rows r))).*1) →
  hash_join_positions (rel_rows r) j lrow v st
    (if is_null v then [] else default [] (m !! hash_join_key v)) =
  Ok (foldl (match_step lrow (equals_at v j)) st (imap pair (rel_rows r))).
Proof.
  intros Hr Hagree Hj Hl Hv Hm.
  assert (∀ pr, pr ∈ imap pair (rel_rows r) →
    rel_rows r !! pr.1 = Some pr.2 ∧ j < length pr.2) as Hpr.
  { intros [p row] Hin%elem_of_imap_pair. split; [done|].
    cbn. by rewrite (rows_wide_lookup _ _ _ _ Hr Hin). }
  assert (∀ st pr, pr ∈ imap pair (rel_rows r) →
    ¬ (is_null v = false ∧ key_at j (hash_join_key v) pr) →
    match_step lrow (equals_at v j) st pr = st) as Hskip.
  { intros [[a b] d] pr Hin Hno. unfold match_step.
    destruct (equals_at v j pr.2) eqn:He; [|done]. destruct Hno. unfold equals_at in He.
    destruct (pr.2 !! j) as [w|] eqn:Hw; [|done]. cbn in He. apply bool_decide_eq_true in He.
    destruct (compare_sql_true_not_null _ _ _ He) as [Hnv Hnw]. split; [done|].
    exists w. split_and!; [done..|]. symmetry. eapply (Hagree lrow pr.2); try done.
    destruct pr as [p row]. apply elem_of_imap_pair in Hin. by eapply list_elem_of_lookup_2. }
  destruct (is_null v) eqn:Hn.
  - cbn. f_equal. rewrite <-(foldl_filter_skip _ (λ _, False)); [|intros; apply Hskip; naive_solver].
    clear. induction (imap pair (rel_rows r)) as [|x L IH]; [done|].
    rewrite filter_cons_False by naive_solver. exact IH.
  - rewrite Hm, hash_join_positions_pure.
    + f_equal. apply foldl_filter_skip. intros st' pr Hin Hk. apply Hskip; [done|]. naive_solver.
    + intros pr [_ Hin]%list_elem_of_filter. by apply Hpr.
Qed.

(** The hash join computes the nested-loop join. *)
Lemma hash_join_nested_loop c e l r jt i j ctes :
  wide l → wide r →
  hash_join_indices e (rel_columns l) (rel_columns r) = Some (i, j) →
  expression_resolves e (rel_columns l ++ rel_columns r) = true →
  keys_agree l r i j →
  hash_join l r (rel_columns l ++ rel_columns r) jt i j =
  nested_loop_join (eval_expr c) (rel_columns l ++ rel_columns r) l r jt (Some e) ctes.
Proof.
  intros Hl Hr Hij Hres Hagree.
  assert (i < length (rel_columns l) ∧ j < length (rel_columns r)) as [Hi Hj].
  { clear -Hij. unfold hash_join_indices in Hij. repeat case_match; simplify_eq;
      split; by eapply resolve_column_lt. }
  unfold hash_join, nested_loop_join.
  destruct (right_map_lookup (rel_rows r) j) as (m & -> & Hm).
  { intros row Hrow. by rewrite (rows_wide_elem _ _ _ Hr Hrow). }
  cbn [mbind outcome_bind]. f_equal. apply foldM_ext'. intros [rm rows] lrow Hlrow.
  pose proof (rows_wide_elem _ _ _ Hl Hlrow) as Hlen.
  destruct (lookup_lt_is_Some_2 lrow i) as [v Hv]; [lia|].
  rewrite (proj2 (vec_index_Ok _ _ _) Hv). cbn [mbind outcome_bind].
  rewrite (hash_matches_pure l r i j lrow v m) by done.
  unfold join_left_row. rewrite (foldM_pure _ (match_step lrow (equals_at v j))); [done|].
  intros [[matched rm'] rows'] [p rrow] Hin%elem_of_imap_pair.
  rewrite (join_on_evaluates c e _ _ i j lrow rrow ctes v) by
    (done || by eapply rows_wide_lookup). cbn. by destruct (equals_at v j rrow).
Qed.
End queries.
