(* ===== verification/Rows.v ===== *)
(** * Rows.v: keys of rows, GROUP BY, DISTINCT and membership

    GROUP BY and DISTINCT compare rows through the string [row_key]; these
    lemmas show that equal keys mean identical rows, and what grouping and
    de-duplication therefore compute. *)

From Stdlib Require Import Ascii.
From S2P Require Import Prelude Machine Float64 Like Types Concrete Text Keys Table Eval Queries.

(** ** Row keys are injective *)

Definition sep : ascii := ascii_of_N 0x1f.

Lemma is_digit_no_sep s :
  str_all (λ c, is_digit c ∨ c = "-"%char) s → str_all (λ c, c ≠ sep) s.
Proof. apply str_all_impl. unfold is_digit. intros c [Hc| ->] Heq; subst; cbn in *; [lia|done]. Qed.

Lemma app_assoc_str a b c : (a +:+ b) +:+ c = a +:+ (b +:+ c).
Proof.
  induction a as [|x a IH]; [done|].
  change (String x ((a +:+ b) +:+ c) = String x (a +:+ (b +:+ c))). by rewrite IH.
Qed.

(** The kind of value is the first character of its key; the rest is
    delimited, or carries its length. *)
Lemma value_key_split v w s t :
  value_valid v → value_valid w → stops_at sep s → stops_at sep t →
  value_key v +:+ s = value_key w +:+ t → v = w ∧ s = t.
Proof.
  intros Hv Hw Hs Ht.
  destruct v as [x|x|x|x|], w as [y|y|y|y|]; cbn [value_key];
    try (by (destruct x || idtac); (destruct y || idtac); intros Heq; discriminate Heq).
  all: rewrite ?app_assoc_str; intros Heq.
  - apply (string_app_inj_l "i:") in Heq.
    apply (delimited_inj sep) in Heq as [->%(inj _) ->]; auto using is_digit_no_sep, pretty_Z_chars.
  - apply (string_app_inj_l "f:") in Heq.
    assert (∀ z, str_all (λ c, c ≠ sep) (hex_string 16 z)) as Hhex.
    { intros z. eapply str_all_impl, hex_string_chars. intros c Hc ->. cbn in Hc. lia. }
    apply (delimited_inj sep) in Heq as [Heq ->]; auto.
    apply hex_string_inj in Heq; [|apply Hv|apply Hw]. destruct x, y. cbn in Heq. by subst.
  - apply (string_app_inj_l "s:") in Heq.
    apply (delimited_inj ":") in Heq as [Hlen Heq]; [| | |done|done].
    + apply (inj pretty) in Hlen. apply (string_app_inj_l ":") in Heq.
      by destruct (app_length_inj x y s t Hlen Heq) as [-> ->].
    + eapply str_all_impl, pretty_N_digits. unfold is_digit. intros c Hc ->. cbn in Hc. lia.
    + eapply str_all_impl, pretty_N_digits. unfold is_digit. intros c Hc ->. cbn in Hc. lia.
  - destruct x, y; by simplify_eq/=.
  - split; [done|]. by apply (string_app_inj_l "n").
Qed.

Lemma value_key_nonempty v s : value_key v +:+ s ≠ "".
Proof. by destruct v as [| | |[]|]. Qed.

Lemma value_key_inj v w : value_valid v → value_valid w → value_key v = value_key w → v = w.
Proof.
  intros Hv Hw Heq. apply (value_key_split v w "" "" Hv Hw); [done..|]. by rewrite Heq.
Qed.

Lemma join_with_cons d x l :
  join_with d (x :: l) = x +:+ match l with [] => "" | _ => d +:+ join_with d l end.
Proof.
  destruct l; [|done]. change (x = x +:+ ""). induction x as [|c x IH]; [done|].
  change (String c x = String c (x +:+ "")). f_equal. exact IH.
Qed.

Lemma row_key_inj row row' :
  Forall value_valid row → Forall value_valid row' → row_key row = row_key row' → row = row'.
Proof.
  unfold row_key. intros Hr. revert row'. induction Hr as [|v row Hv Hr IH]; intros row' Hr'.
  - destruct Hr' as [|w row' Hw _]; [done|]. rewrite fmap_cons, join_with_cons.
    intros Heq. by destruct (value_key_nonempty w _ (eq_sym Heq)).
  - destruct Hr' as [|w row' Hw Hr'].
    { rewrite fmap_cons, join_with_cons. intros Heq. by destruct (value_key_nonempty v _ Heq). }
    rewrite !fmap_cons, !join_with_cons. intros Heq.
    apply value_key_split in Heq as [-> Heq]; [|done|done|by destruct row|by destruct row'].
    f_equal. destruct row as [|v' row], row' as [|w' row']; [done|done|done|].
    apply IH; [done|]. by injection Heq.
Qed.

(** ** DISTINCT *)

(** [retain_first] keeps the first row of each key. *)
Lemma retain_first_spec {A} (key : A → string) seen l x :
  x ∈ retain_first key seen l ↔
  ∃ i, l !! i = Some x ∧ key x ∉ seen ∧ ∀ j y, j < i → l !! j = Some y → key y ≠ key x.
Proof.
  revert seen. induction l as [|y l IH]; intros seen; cbn.
  { split; [set_solver|]. by intros (i & ? & _). }
  case_bool_decide as Hy.
  - rewrite IH. split.
    + intros (i & Hi & Hx & Hmin). exists (S i). split_and!; [done..|].
      intros [|j] z Hj Hz; [|apply (Hmin j); [lia|done]].
      injection Hz as <-. intros Heq. apply Hx. by rewrite <-Heq.
    + intros ([|i] & Hi & Hx & Hmin); [injection Hi as ->; done|]. exists i. split_and!; [done..|].
      intros j z Hj Hz. apply (Hmin (S j)); [lia|done].
  - rewrite elem_of_cons, IH. split.
    + intros [-> |(i & Hi & Hx & Hmin)].
      * exists 0. split_and!; [done..|]. lia.
      * exists (S i). split_and!; [done|set_solver|].
        intros [|j] z Hj Hz; [|apply (Hmin j); [lia|done]]. injection Hz as <-. set_solver.
    + intros ([|i] & Hi & Hx & Hmin); [left; cbn in Hi; congruence|right].
      exists i. split_and!; [done| |intros j z Hj Hz; apply (Hmin (S j)); [lia|done]].
      specialize (Hmin 0 y ltac:(lia) eq_refl). set_solver.
Qed.

Lemma retain_first_NoDup {A} (key : A → string) seen l :
  NoDup (key <$> retain_first key seen l) ∧
  Forall (λ x, key x ∉ seen) (retain_first key seen l).
Proof.
  revert seen. induction l as [|y l IH]; intros seen; cbn; [repeat constructor|].
  case_bool_decide; [apply IH|]. destruct (IH ({[key y]} ∪ seen)) as [Hnd Hall]. split.
  - cbn. constructor; [|done]. rewrite Forall_forall in Hall.
    intros (z & Heq & Hz)%list_elem_of_fmap. specialize (Hall z Hz). set_solver.
  - constructor; [done|]. eapply Forall_impl; [done|]. set_solver.
Qed.

(** ** GROUP BY *)

(** The groups of a list of rows under a key: sorted by key, and each group
    holds, in order, exactly the rows with its key. *)
Record grouped {A} (key : A → string) (rows : list A) (groups : list (string * list A)) : Prop := {
  gr_sorted : StronglySorted string_lt groups.*1;
  gr_rows : ∀ k l, (k, l) ∈ groups → l = filter (λ x, key x = k) rows ∧ l ≠ [];
  gr_total : ∀ x, x ∈ rows → key x ∈ groups.*1;
}.

Lemma btree_push_keys {A} k (x : A) m k' :
  k' ∈ (btree_push k x m).*1 ↔ k' = k ∨ k' ∈ m.*1.
Proof.
  induction m as [|[q l] m IH]; cbn; [set_solver|].
  destruct (String.compare k q) eqn:E; cbn; [|set_solver|rewrite !elem_of_cons, IH; set_solver].
  apply String.compare_eq_iff in E as ->. set_solver.
Qed.

Lemma btree_push_sorted {A} k (x : A) m :
  StronglySorted string_lt m.*1 → StronglySorted string_lt (btree_push k x m).*1.
Proof.
  induction m as [|[q l] m IH]; cbn; intros Hs; [by repeat constructor|].
  apply StronglySorted_inv in Hs as [Hs Hq].
  destruct (String.compare k q) eqn:E; cbn; constructor; auto.
  - by constructor.
  - constructor; [done|]. eapply Forall_impl; [done|]. intros z Hz. by transitivity q.
  - apply Forall_forall. intros z Hz%btree_push_keys. rewrite Forall_forall in Hq.
    destruct Hz as [-> |Hz]; [|auto]. unfold string_lt. by rewrite String.compare_antisym, E.
Qed.

(** An entry after the push: the old one, extended when its key is pushed to. *)
Lemma btree_push_elem {A} k (x : A) m k' l' :
  StronglySorted string_lt m.*1 →
  (k', l') ∈ btree_push k x m →
  (k' ≠ k ∧ (k', l') ∈ m) ∨
  (k' = k ∧ ((k ∉ m.*1 ∧ l' = [x]) ∨ ∃ l, (k, l) ∈ m ∧ l' = l ++ [x])).
Proof.
  induction m as [|[q l] m IH]; cbn; intros Hs Hin.
  { apply list_elem_of_singleton in Hin. right. naive_solver set_solver. }
  apply StronglySorted_inv in Hs as [Hs Hq]. rewrite Forall_forall in Hq.
  assert (∀ k0, string_lt k0 q ∨ k0 = q → k0 ∉ m.*1) as Hno.
  { intros k0 Hk0 Hin0. specialize (Hq _ Hin0) as Hlt.
    assert (string_lt k0 k0) as Hirr by (destruct Hk0 as [?| ->]; [by transitivity q|done]).
    by apply string_lt_irrefl in Hirr. }
  destruct (String.compare k q) eqn:E.
  - apply String.compare_eq_iff in E as ->.
    apply elem_of_cons in Hin as [[= -> ->]|Hin]; [right; split; [done|]; right; set_solver|].
    left. split; [|set_solver]. intros ->. apply (Hno q); [auto|].
    apply list_elem_of_fmap. by exists (q, l').
  - apply elem_of_cons in Hin as [[= -> ->]|Hin].
    + right. split; [done|]. left. split; [|done]. apply not_elem_of_cons. split.
      * intros ->. by rewrite string_compare_refl in E.
      * apply Hno. by left.
    + left. split; [|done]. intros ->. apply elem_of_cons in Hin as [[= -> ->]|Hin].
      * by rewrite string_compare_refl in E.
      * apply (Hno k); [by left|]. apply list_elem_of_fmap. by exists (k, l').
  - apply elem_of_cons in Hin as [[= -> ->]|Hin].
    + left. split; [|set_solver]. intros ->.
      by rewrite string_compare_refl in E.
    + destruct (IH Hs Hin) as [[? ?]|[-> [[Hnk ->]|(l0 & ? & ->)]]].
      * left. set_solver.
      * right. split; [done|]. left. split; [|done]. apply not_elem_of_cons. split; [|done].
        intros ->. by rewrite string_compare_refl in E.
      * right. split; [done|]. right. exists l0. set_solver.
Qed.

Lemma grouped_push {A} (key : A → string) rows groups x :
  grouped key rows groups → grouped key (rows ++ [x]) (btree_push (key x) x groups).
Proof.
  intros [Hs Hrows Htot]. split.
  - by apply btree_push_sorted.
  - intros k l Hin. rewrite filter_app, filter_cons, filter_nil.
    destruct (btree_push_elem _ _ _ _ _ Hs Hin) as [[Hk Hl]|[-> [[Hk ->]|(l0 & Hl0 & ->)]]].
    + rewrite decide_False by auto. rewrite app_nil_r. by apply Hrows.
    + rewrite decide_True by done. split; [|done].
      assert (filter (λ y, key y = key x) rows = []) as ->; [|done].
      destruct (filter _ rows) as [|y l] eqn:E; [done|]. exfalso.
      assert (y ∈ filter (λ y, key y = key x) rows) as [Hy Hin']%list_elem_of_filter
        by (rewrite E; set_solver). apply Hk. rewrite <-Hy. by apply Htot.
    + rewrite decide_True by done. apply Hrows in Hl0 as [-> Hne]. split; [done|].
      by destruct (filter _ rows).
  - intros y. rewrite elem_of_app, list_elem_of_singleton, btree_push_keys.
    intros [Hy| ->]; [right; by apply Htot|by left].
Qed.

Section grouping.
Context `{RustStd}.

(** [group_rows] computes the grouping by the key of the evaluated
    expressions. *)
Lemma group_rows_grouped (ev : Expr → list BoundColumn → Row → option (list Row) → Ctes → outcome Value)
    q source ctes groups :
  group_rows ev q source ctes = Ok groups →
  ∃ key, grouped key (rel_rows source) groups ∧
    ∀ row, row ∈ rel_rows source → ∃ vs,
      mapM (λ e, ev e (rel_columns source) row None ctes) (q_group_by q) = Ok vs ∧
      key row = row_key vs.
Proof.
  set (values row := mapM (λ e, ev e (rel_columns source) row None ctes) (q_group_by q)).
  set (key row := match values row with Ok vs => row_key vs | _ => "" end).
  unfold group_rows. intros Hf. exists key.
  enough (∀ rows done groups0, grouped key done groups0 →
    foldM (λ groups row, key_values ← values row;
      Ok (btree_push (row_key key_values) row groups)) groups0 rows = Ok groups →
    grouped key (done ++ rows) groups ∧ ∀ row, row ∈ rows → is_Ok (values row)) as Hgen.
  { destruct (Hgen (rel_rows source) [] []) as [Hg Hok]; [|exact Hf|].
    - split; [constructor|set_solver..].
    - split; [done|]. intros row Hrow. destruct (Hok row Hrow) as [vs Hvs]. exists vs.
      split; [done|]. unfold key. by rewrite Hvs. }
  clear Hf. intros rows. induction rows as [|row rows IH]; intros done groups0 Hg Hf.
  - cbn in Hf. injection Hf as <-. rewrite app_nil_r. split; [done|set_solver].
  - rewrite foldM_cons in Hf. apply bind_Ok in Hf as (groups1 & Hs & Hf).
    apply bind_Ok in Hs as (vs & Hvs & [= <-]).
    assert (row_key vs = key row) as Hkey by (unfold key; by rewrite Hvs). rewrite Hkey in Hf.
    destruct (IH (done ++ [row]) _ (grouped_push _ _ _ row Hg) Hf) as [Hg' Hok].
    rewrite <-app_assoc in Hg'. split; [done|].
    intros row' [-> |Hin]%elem_of_cons; [by exists vs|auto].
Qed.
End grouping.

(** ** Properties of queries *)

Section query_properties.
Context `{RustStd}.

(** Every relation a query returns is rectangular: each row has one value
    per output column, and LIMIT bounds the number of rows. *)
Theorem query_rectangular c q ctes r :
  execute_query c q ctes = Ok r →
  Forall (λ row, length row = length (rel_columns r)) (rel_rows r) ∧
  ∀ n, q_limit q = Some n → length (rel_rows r) ≤ n.
Proof.
  intros Hx. split; [by eapply execute_query_wide|].
  rewrite execute_query_unfold in Hx. unfold execute_query_body in Hx. intros n Hn.
  repeat (apply bind_Ok in Hx as (? & _ & Hx)). injection Hx as <-. cbn. rewrite Hn.
  rewrite length_take. lia.
Qed.

(** C10. An index scan is a table scan: with coherent indexes over existing
    columns and literals comparable with the indexed values, filtering the
    candidate rows the indexes propose returns exactly the rows, in order,
    that filtering the whole table returns. *)
Theorem index_scan_is_table_scan c t table e ctes out :
  Coherent t → table_wide t → index_columns_ok (tb_schema t) → predicates_typed t e →
  filter_rows (eval_expr c) (Some e) (table_columns t table) ctes (tb_rows t) = Ok out →
  filter_rows (eval_expr c) (Some e) (table_columns t table) ctes
    (rel_rows (relation_from_table t table (Some e))) = Ok out.
Proof. apply scan_filter. Qed.

(** A hash join is the nested-loop join on the same condition, for inner,
    left, right and cross joins alike, whenever both column names resolve in
    the joined columns and equal join values have equal hash keys. *)
Theorem hash_join_is_nested_loop c e l r jt i j ctes :
  wide l → wide r →
  hash_join_indices e (rel_columns l) (rel_columns r) = Some (i, j) →
  expression_resolves e (rel_columns l ++ rel_columns r) = true →
  keys_agree l r i j →
  join_relations (eval_expr c) l r jt (Some e) ctes =
  nested_loop_join (eval_expr c) (rel_columns l ++ rel_columns r) l r jt (Some e) ctes.
Proof.
  intros Hl Hr Hij Hres Hag. unfold join_relations. cbn. rewrite Hij.
  by apply hash_join_nested_loop.
Qed.

(** C39. Grouping is exact: the groups are sorted by key, each holds in order
    the rows with its key and is not empty, every row is in one, and two rows
    are in the same group exactly when their GROUP BY values are identical. *)
Theorem group_by_exact c q source ctes groups :
  group_rows (eval_expr c) q source ctes = Ok groups →
  ∃ key, grouped key (rel_rows source) groups ∧
    ∀ row row' vs vs', row ∈ rel_rows source → row' ∈ rel_rows source →
      mapM (λ e, eval_expr c e (rel_columns source) row None ctes) (q_group_by q) = Ok vs →
      mapM (λ e, eval_expr c e (rel_columns source) row' None ctes) (q_group_by q) = Ok vs' →
      Forall value_valid vs → Forall value_valid vs' →
      key row = key row' ↔ vs = vs'.
Proof.
  intros (key & Hg & Hkey)%group_rows_grouped. exists key. split; [done|].
  intros row row' vs vs' Hrow Hrow' Hvs Hvs' Hval Hval'.
  destruct (Hkey row Hrow) as (us & Hus & ->), (Hkey row' Hrow') as (us' & Hus' & ->).
  rewrite Hvs in Hus. rewrite Hvs' in Hus'. injection Hus as <-. injection Hus' as <-.
  split; [by apply row_key_inj|by intros ->].
Qed.

(** DISTINCT keeps the first of each set of identical rows, and no two
    rows it keeps are identical. *)
Theorem distinct_exact rows :
  Forall (Forall value_valid) rows →
  NoDup (retain_first row_key ∅ rows) ∧
  ∀ row, row ∈ retain_first row_key ∅ rows ↔ row ∈ rows.
Proof.
  intros Hval. split.
  - destruct (retain_first_NoDup row_key ∅ rows) as [Hnd _]. by apply NoDup_fmap_1 in Hnd.
  - intros row. split; [apply retain_first_subset|]. intros Hin.
    destruct (position (λ r, bool_decide (row_key r = row_key row)) rows) as [i|] eqn:E.
    + apply position_Some in E as (x & Hx & Heq & Hmin). apply bool_decide_eq_true in Heq.
      rewrite Forall_forall in Hval.
      assert (x = row) as ->.
      { apply row_key_inj; [|by apply Hval|done]. apply Hval. by eapply list_elem_of_lookup_2. }
      apply retain_first_spec. exists i. split_and!; [done|set_solver|].
      intros j y Hj Hy. specialize (Hmin j y Hj Hy). by apply bool_decide_eq_false in Hmin.
    + rewrite position_None in E. specialize (E row Hin). by rewrite bool_decide_eq_false in E.
Qed.

(** [IN] over a list is the three-valued disjunction of the equalities,
    and [NOT IN] its negation. *)
Theorem in_values_disjunction v vs negated :
  is_null v = false →
  in_values v vs negated =
  negate_if negated (foldr (λ w acc, truth_or (compare_sql v w CmpEqual) acc) SFalse vs).
Proof.
  intros Hv. unfold in_values. rewrite Hv. f_equal.
  enough (∀ unknown, in_values_from v unknown vs = truth_or (if unknown then SUnknown else SFalse)
      (foldr (λ w acc, truth_or (compare_sql v w CmpEqual) acc) SFalse vs)) as Hgo.
  { rewrite Hgo. by destruct (foldr _ _ _). }
  induction vs as [|w vs IH]; intros unknown; cbn; [by destruct unknown|].
  destruct (compare_sql v w CmpEqual); [by destruct unknown| |];
    rewrite IH; by destruct unknown, (foldr _ _ _).
Qed.
End query_properties.

(** *** Witnesses *)

Section query_witnesses.
#[local] Existing Instance concrete_std.

Definition demo_catalog : Catalog := insert_table catalog_default "t" demo.
Definition id_is (z : Z) : Expr :=
  EBinary (EColumn None "id") (OpCompare CmpEqual) (ELiteral (VInteger z)).
Definition select_all (selection : option Expr) (limit : option nat) : Query :=
  mkQuery [] false [SWildcard None] (Some (SrcTable "t" None)) [] selection [] None [] limit.

Lemma query_rectangular_witness :
  let r := {| rel_columns := table_columns demo "t"; rel_rows := [demo_row 1 "a"] |} in
  Forall (λ row, length row = length (rel_columns r)) (rel_rows r) ∧
  ∀ n, q_limit (select_all None (Some 1)) = Some n → length (rel_rows r) ≤ n.
Proof.
  apply (query_rectangular demo_catalog (select_all None (Some 1)) ∅). vm_compute. reflexivity.
Defined.

Lemma demo_index_columns : index_columns_ok (tb_schema demo).
Proof.
  replace (tb_schema demo) with demo_schema by (vm_compute; reflexivity).
  intros d column Hd%list_elem_of_singleton Hc. subst d.
  apply list_elem_of_singleton in Hc as ->. by exists 0.
Qed.

Lemma demo_wide : table_wide demo.
Proof.
  unfold table_wide. replace (tb_schema demo) with demo_schema by (vm_compute; reflexivity).
  replace (tb_rows demo) with [demo_row 1 "a"; demo_row 2 "b"] by (vm_compute; reflexivity).
  repeat constructor.
Qed.

Lemma demo_typed z : predicates_typed demo (id_is z).
Proof.
  unfold predicates_typed. replace (tb_schema demo) with demo_schema by (vm_compute; reflexivity).
  replace (tb_rows demo) with [demo_row 1 "a"; demo_row 2 "b"] by (vm_compute; reflexivity).
  intros p row i v Hp%list_elem_of_singleton Hrow Hi Hv. subst p. cbn in Hi. injection Hi as <-.
  apply elem_of_cons in Hrow as [-> |Hrow]; [by injection Hv as <-|].
  apply list_elem_of_singleton in Hrow as ->. by injection Hv as <-.
Qed.

Lemma index_scan_is_table_scan_witness :
  (candidate_row_ids demo (Some (id_is 2))).2 = Some "t_pk" ∧
  filter_rows (eval_expr demo_catalog) (Some (id_is 2)) (table_columns demo "t") ∅
    (rel_rows (relation_from_table demo "t" (Some (id_is 2)))) = Ok [demo_row 2 "b"].
Proof.
  split; [vm_compute; reflexivity|].
  apply (index_scan_is_table_scan demo_catalog demo "t" (id_is 2));
    [apply demo_coherent|apply demo_wide|apply demo_index_columns|apply demo_typed|].
  vm_compute. reflexivity.
Defined.

Definition side (name : string) (rows : list Row) : Relation :=
  {| rel_columns := [{| bc_table := name; bc_name := "k" |}]; rel_rows := rows |}.
Definition on_k : Expr :=
  EBinary (EColumn (Some "a") "k") (OpCompare CmpEqual) (EColumn (Some "b") "k").
Definition ints (l : list Z) : list Row := (λ z, [VInteger z]) <$> l.

Lemma hash_join_is_nested_loop_witness :
  join_relations (eval_expr demo_catalog) (side "a" (ints [1; 2]%Z)) (side "b" (ints [2; 3; 2]%Z))
    JLeft (Some on_k) ∅ =
  nested_loop_join (eval_expr demo_catalog) [{| bc_table := "a"; bc_name := "k" |};
      {| bc_table := "b"; bc_name := "k" |}]
    (side "a" (ints [1; 2]%Z)) (side "b" (ints [2; 3; 2]%Z)) JLeft (Some on_k) ∅.
Proof.
  apply (hash_join_is_nested_loop demo_catalog on_k (side "a" (ints [1; 2]%Z))
    (side "b" (ints [2; 3; 2]%Z)) JLeft 0 0); [repeat constructor..|reflexivity|reflexivity|].
  intros lrow rrow v w Hl Hr Hv Hw Heq.
  apply list_elem_of_fmap in Hl as (x & -> & _), Hr as (y & -> & _).
  injection Hv as <-. injection Hw as <-. unfold compare_sql in Heq. cbn in Heq.
  case_bool_decide as Hc; [|done]. injection Hc as Hc. by apply Z.compare_eq in Hc as ->.
Defined.

Lemma group_by_exact_witness :
  ∃ key, grouped key (ints [2; 1; 2]%Z)
           [("i:1", ints [1]%Z); ("i:2", ints [2; 2]%Z)] ∧
    ∀ row row' vs vs', row ∈ ints [2; 1; 2]%Z → row' ∈ ints [2; 1; 2]%Z →
      mapM (λ e, eval_expr demo_catalog e (rel_columns (side "a" [])) row None ∅)
        [EColumn None "k"] = Ok vs →
      mapM (λ e, eval_expr demo_catalog e (rel_columns (side "a" [])) row' None ∅)
        [EColumn None "k"] = Ok vs' →
      Forall value_valid vs → Forall value_valid vs' → key row = key row' ↔ vs = vs'.
Proof.
  apply (group_by_exact demo_catalog
    (mkQuery [] false [] None [] None [EColumn None "k"] None [] None)
    (side "a" (ints [2; 1; 2]%Z)) ∅). vm_compute. reflexivity.
Defined.

Lemma distinct_exact_witness :
  NoDup (retain_first row_key ∅ (ints [2; 1; 2]%Z)) ∧
  ∀ row, row ∈ retain_first row_key ∅ (ints [2; 1; 2]%Z) ↔ row ∈ ints [2; 1; 2]%Z.
Proof. apply distinct_exact. repeat constructor. Defined.

Lemma in_values_disjunction_witness :
  in_values (VInteger 1) [VInteger 2; VNull] true =
  negate_if true (foldr (λ w acc, truth_or (compare_sql (VInteger 1) w CmpEqual) acc) SFalse
    [VInteger 2; VNull]).
Proof. apply in_values_disjunction. reflexivity. Defined.

(** ** Where the optimisations differ *)

Definition float_schema : TableSchema :=
  {| schema_name := "f"; schema_columns := [column_new "x" TFloat]; schema_constraints := [];
     schema_indexes := [index_on "f_x" ["x"] false] |}.
Definition float_table : Table :=
  match insert_row_indexed (table_new float_schema) [VFloat (f64_of_Z 2)] with
  | Ok t => t
  | _ => table_new float_schema
  end.
Definition x_is_2 : Expr :=
  EBinary (EColumn None "x") (OpCompare CmpEqual) (ELiteral (VInteger 2)).

(** The typing hypothesis of the index scan is needed: with an integer
    literal on an indexed FLOAT column, the index finds no row although the
    table scan finds one. *)
Theorem index_scan_misses_integer_literal :
  filter_rows (eval_expr demo_catalog) (Some x_is_2) (table_columns float_table "f") ∅
    (tb_rows float_table) = Ok [[VFloat (f64_of_Z 2)]] ∧
  rel_rows (relation_from_table float_table "f" (Some x_is_2)) = [].
Proof. split; vm_compute; reflexivity. Qed.

Definition negative_zero : f64 := f64_neg f64_zero.

(** The key hypothesis of the hash join is needed: the zeros of opposite
    sign are equal, yet the hash join does not pair them while the nested
    loop does. *)
Theorem hash_join_misses_negative_zero :
  compare_sql (VFloat f64_zero) (VFloat negative_zero) CmpEqual = STrue ∧
  rel_rows <$> join_relations (eval_expr demo_catalog) (side "a" [[VFloat f64_zero]])
    (side "b" [[VFloat negative_zero]]) JInner (Some on_k) ∅ = Ok [] ∧
  rel_rows <$> nested_loop_join (eval_expr demo_catalog)
    [{| bc_table := "a"; bc_name := "k" |}; {| bc_table := "b"; bc_name := "k" |}]
    (side "a" [[VFloat f64_zero]]) (side "b" [[VFloat negative_zero]]) JInner (Some on_k) ∅
  = Ok [[VFloat f64_zero; VFloat negative_zero]].
Proof. split_and!; vm_compute; reflexivity. Qed.
End query_witnesses.
