(* ===== verification/Joins.v ===== *)
(** * Joins.v: what a join computes

    The loops of [join_relations], over a hash table or nested, compute the
    relational join: the pairs of rows on which the condition is true, left row
    by left row, with the rows that found no partner padded by NULLs for LEFT
    and RIGHT joins. *)

From S2P Require Import Prelude Machine Float64 Like Types Concrete Keys Table Eval Queries Rows.

(** ** The specification *)

Section spec.
Context (matches : Row → Row → bool) (left_width right_width : nat).

(** The results of one left row. *)
Definition left_results (join_type : JoinType) (right : list Row) (l : Row) : list Row :=
  let partners := filter (λ r, Is_true (matches l r)) right in
  if bool_decide (join_type = JLeft ∧ partners = []) then [l ++ nulls right_width]
  else (l ++.) <$> partners.

Definition has_partner (left : list Row) (r : Row) : bool := existsb (λ l, matches l r) left.

(** The right rows without a partner. *)
Definition right_results (left right : list Row) : list Row :=
  (nulls left_width ++.) <$> filter (λ r, Is_true (negb (has_partner left r))) right.

Definition relational_join (join_type : JoinType) (left right : list Row) : list Row :=
  (l ← left; left_results join_type right l) ++
  (if bool_decide (join_type = JRight) then right_results left right else []).
End spec.

(** ** The inner loop *)

(** Which right rows are marked after a left row. *)
Lemma match_steps (m : Row → Row → bool) l R : ∀ k b pre suf rows,
  length pre = k → length suf = length R →
  foldl (match_step l (m l)) (b, pre ++ suf, rows) (imap (λ i r, (k + i, r)) R) =
  (b || existsb (m l) R, pre ++ zip_with orb suf (m l <$> R),
   rows ++ ((l ++.) <$> filter (λ r, Is_true (m l r)) R)).
Proof.
  induction R as [|r R IH]; intros k b pre suf rows Hpre Hsuf.
  { destruct suf; [|done]. cbn. by rewrite orb_false_r, !app_nil_r. }
  destruct suf as [|s suf]; [done|]. injection Hsuf as Hsuf. cbn [imap foldl existsb fmap list_fmap zip_with].
  rewrite (imap_ext _ (λ i x, (S k + i, x))) by (intros; cbn; f_equal; lia).
  replace (match_step l (m l) (b, pre ++ s :: suf, rows) (k + 0, r))
    with (b || m l r, (pre ++ [s || m l r]) ++ suf, rows ++ (if m l r then [l ++ r] else [])).
  2: { unfold match_step. cbn [fst snd]. subst k. destruct (m l r).
       - rewrite insert_app_r, !orb_true_r. cbn. by rewrite <-app_assoc.
       - by rewrite !orb_false_r, app_nil_r, <-app_assoc. }
  rewrite IH by (rewrite ?length_app; cbn; lia). rewrite filter_cons, orb_assoc, <-!app_assoc. cbn [app].
  f_equal. f_equal. destruct (m l r); [rewrite decide_True by done|rewrite decide_False by auto]; done.
Qed.

Lemma zip_orb_fmap {A} (f g : A → bool) R :
  zip_with orb (f <$> R) (g <$> R) = (λ r, f r || g r) <$> R.
Proof. induction R as [|r R IH]; [done|]. cbn. by f_equal. Qed.

(** Whether a left row found a partner, read off its results. *)
Lemma partners_nil (m : Row → Row → bool) l R :
  existsb (m l) R = false ↔ filter (λ r, Is_true (m l r)) R = [].
Proof.
  induction R as [|r R IH]; [done|]. cbn [existsb]. rewrite filter_cons, orb_false_iff.
  destruct (m l r); [rewrite decide_True by done|rewrite decide_False by auto]; naive_solver.
Qed.

(** ** The outer loop *)

(** One left row against the right rows, when the condition has a value on
    every pair. *)
Definition left_step (m : Row → Row → bool) (jt : JoinType) (width : nat) (R : list Row)
    (st : list bool * list Row) (l : Row) : list bool * list Row :=
  (zip_with orb st.1 (m l <$> R), st.2 ++ left_results m width jt R l).

Lemma left_steps m jt width R L : ∀ done rows,
  foldl (left_step m jt width R) (has_partner m done <$> R, rows) L =
  (has_partner m (done ++ L) <$> R, rows ++ (l ← L; left_results m width jt R l)).
Proof.
  induction L as [|l L IH]; intros done rows; [cbn; by rewrite !app_nil_r|].
  cbn [foldl]. unfold left_step at 2. cbn [fst snd]. rewrite zip_orb_fmap.
  replace ((λ r, has_partner m done r || m l r) <$> R) with (has_partner m (done ++ [l]) <$> R).
  2: { apply list_fmap_ext. intros _ r _. unfold has_partner. rewrite existsb_app. cbn. by rewrite orb_false_r. }
  rewrite IH, <-!app_assoc. done.
Qed.

Lemma unmatched_right_results m width L R :
  unmatched_right width R (has_partner m L <$> R) = right_results m width L R.
Proof.
  unfold unmatched_right, right_results. generalize (has_partner m L). intros f.
  assert (∀ k pre, length pre = k →
    omap (λ '(position, row), if bool_decide ((pre ++ (f <$> R)) !! position = Some true) then None
                              else Some (nulls width ++ row)) (imap (λ i r, (k + i, r)) R)
    = (nulls width ++.) <$> filter (λ r, Is_true (negb (f r))) R) as Hgen; [|exact (Hgen 0 [] eq_refl)].
  induction R as [|r R IH]; intros k pre Hpre; [done|]. cbn [imap omap list_omap].
  rewrite (imap_ext _ (λ i x, (S k + i, x))) by (intros; cbn; f_equal; lia).
  specialize (IH (S k) (pre ++ [f r])). rewrite <-app_assoc in IH. cbn [app] in IH.
  rewrite Nat.add_0_r. cbn [fmap list_fmap]. rewrite list_lookup_middle by done. rewrite filter_cons.
  destruct (f r); cbn [negb].
  - rewrite bool_decide_true, decide_False by auto. apply IH. rewrite length_app. cbn. lia.
  - rewrite bool_decide_false, decide_True by done. cbn [fmap list_fmap]. f_equal. apply IH. rewrite length_app. cbn. lia.
Qed.

(** ** The nested loop *)

Lemma foldM_Ok_all {A B} (P : A → Prop) (f : B → A → outcome B) l b b' :
  (∀ b x b', f b x = Ok b' → P x) → foldM f b l = Ok b' → Forall P l.
Proof.
  intros Hf. revert b. induction l as [|x l IH]; intros b Hl; [done|].
  rewrite foldM_cons in Hl. apply bind_Ok in Hl as (b1 & Hx & Hl). constructor; eauto.
Qed.

Lemma foldM_same_inv {A B} (I : B → Prop) (g : B → A → outcome B) (f : B → A → B) l b :
  I b → (∀ b x, x ∈ l → I b → g b x = Ok (f b x) ∧ I (f b x)) → foldM g b l = Ok (foldl f b l).
Proof.
  revert b. induction l as [|x l IH]; intros b Hb Hg; [done|].
  destruct (Hg b x) as [Hx HI]; [set_solver|done|]. rewrite foldM_cons, Hx. cbn. apply IH; set_solver.
Qed.

Section nested.
Context `{RustStd}.
Context (ev : Expr → list BoundColumn → Row → option (list Row) → Ctes → outcome Value).
Context (on : option Expr) (columns : list BoundColumn) (ctes : Ctes).

(** The condition has a value on every pair of rows. *)
Definition decides (m : Row → Row → bool) (left right : list Row) : Prop :=
  ∀ l r, l ∈ left → r ∈ right → on_matches ev on columns (l ++ r) ctes = Ok (m l r).

Lemma join_left_row_computes m R l rm rows :
  decides m [l] R → length rm = length R →
  join_left_row ev columns R on ctes l (false, rm, rows) =
  Ok (existsb (m l) R, zip_with orb rm (m l <$> R), rows ++ ((l ++.) <$> filter (λ r, Is_true (m l r)) R)).
Proof.
  intros Hm Hlen. unfold join_left_row. rewrite (foldM_pure _ (match_step l (m l))).
  - f_equal. exact (match_steps m l R 0 false [] rm rows eq_refl Hlen).
  - intros [[b rm'] rows'] [p r] Hin%elem_of_imap_pair.
    rewrite (Hm l r) by (apply list_elem_of_singleton || eapply list_elem_of_lookup_2; done).
    cbn. by destruct (m l r).
Qed.

Lemma nested_loop_computes m (left right : Relation) jt :
  decides m (rel_rows left) (rel_rows right) →
  nested_loop_join ev columns left right jt on ctes =
  Ok {| rel_columns := columns;
        rel_rows := relational_join m (length (rel_columns left)) (length (rel_columns right)) jt
                      (rel_rows left) (rel_rows right) |}.
Proof.
  intros Hm. unfold nested_loop_join. set (w := length (rel_columns right)). set (R := rel_rows right) in *.
  rewrite (foldM_same_inv (λ st : list bool * list Row, length st.1 = length R) _ (left_step m jt w R)).
  - replace (replicate (length R) false) with (has_partner m [] <$> R) by (unfold has_partner; apply const_fmap; done).
    rewrite left_steps. cbn [mbind outcome_bind app]. rewrite unmatched_right_results. unfold relational_join.
    do 2 f_equal. case_bool_decide; [done|]. by rewrite app_nil_r.
  - cbn. by rewrite length_replicate.
  - intros [rm rows] l Hl Hrm. cbn [fst] in Hrm.
    rewrite (join_left_row_computes m) by (done || intros ? r ->%list_elem_of_singleton; auto).
    cbn [mbind outcome_bind]. split; [|by unfold left_step; cbn; rewrite length_zip_with, length_fmap, Hrm, Nat.min_id].
    unfold left_step, left_results. cbn [fst snd]. do 2 f_equal.
    destruct (existsb (m l) R) eqn:Hb; cbn [negb andb].
    + rewrite bool_decide_false; [done|]. intros [_ Hn%partners_nil]. congruence.
    + apply partners_nil in Hb. rewrite Hb. cbn. rewrite app_nil_r.
      destruct (decide (jt = JLeft)); [rewrite !bool_decide_true by done|rewrite !bool_decide_false by naive_solver]; [done|].
      by rewrite app_nil_r.
Qed.

Lemma nested_loop_decides (left right : Relation) jt out :
  nested_loop_join ev columns left right jt on ctes = Ok out →
  ∃ m, decides m (rel_rows left) (rel_rows right).
Proof.
  intros Hj. exists (λ l r, match on_matches ev on columns (l ++ r) ctes with Ok b => b | _ => false end).
  unfold nested_loop_join in Hj. apply bind_Ok in Hj as (st & Hj & _).
  apply (foldM_Ok_all (λ l, Forall (λ r, ∃ b, on_matches ev on columns (l ++ r) ctes = Ok b) (rel_rows right))) in Hj.
  - intros l r Hl Hr. rewrite Forall_forall in Hj. specialize (Hj l Hl). rewrite Forall_forall in Hj.
    by destruct (Hj r Hr) as [b ->].
  - intros [rm rows] l st' (st1 & Hl & _)%bind_Ok. unfold join_left_row in Hl.
    apply (foldM_Ok_all (λ pr, ∃ b, on_matches ev on columns (l ++ pr.2) ctes = Ok b)) in Hl.
    + rewrite Forall_forall in Hl. apply Forall_forall. intros r (p & Hp)%list_elem_of_lookup.
      apply (Hl (p, r)). by apply elem_of_imap_pair.
    + intros [[b rm'] rows'] [p r] st2 (b' & Hb & _)%bind_Ok. by exists b'.
Qed.

(** The nested loop succeeds exactly when the condition has a value on every
    pair of rows, and then computes the relational join. *)
Lemma nested_loop_exact (left right : Relation) jt out :
  nested_loop_join ev columns left right jt on ctes = Ok out ↔
  ∃ m, decides m (rel_rows left) (rel_rows right) ∧
    out = {| rel_columns := columns;
             rel_rows := relational_join m (length (rel_columns left)) (length (rel_columns right)) jt
                           (rel_rows left) (rel_rows right) |}.
Proof.
  split.
  - intros Hj. destruct (nested_loop_decides _ _ _ _ Hj) as [m Hm]. exists m. split; [done|].
    rewrite (nested_loop_computes m) in Hj by done. by injection Hj as <-.
  - intros (m & Hm & ->). by apply nested_loop_computes.
Qed.
End nested.

(** ** Hash keys *)

Section exact.
Context `{RustStd}.

(** The values of a column on which a hash join is a join: machine values
    other than -0.0. *)
Definition hashable_value (v : Value) : Prop :=
  value_valid v ∧ match v with VFloat f => is_negative_zero f = false | _ => True end.
Definition hashable (r : Relation) (i : nat) : Prop :=
  ∀ row v, row ∈ rel_rows r → row !! i = Some v → hashable_value v.

(** Values that are equal in SQL have the same hash key. *)
Lemma equal_hash_alike v w :
  hashable_value v → hashable_value w → compare_sql v w CmpEqual = STrue → hash_join_key v = hash_join_key w.
Proof.
  intros [Hv Hzv] [Hw Hzw] Heq. destruct (compare_sql_true_not_null _ _ _ Heq) as [Hnv Hnw].
  unfold compare_sql in Heq. rewrite Hnv, Hnw in Heq. cbn [orb] in Heq.
  unfold truth_of_bool in Heq. case_bool_decide as Hc; [|done]. clear Heq Hnv Hnw.
  destruct v as [x|x|x|x|], w as [y|y|y|y|]; try done; cbn [value_partial_cmp] in Hc; cbn [hash_join_key value_valid] in *.
  - injection Hc as ->%Z.compare_eq. done.
  - by rewrite (f64_equal_bits _ _ (f64_of_Z_valid x Hv) Hw (f64_of_Z_not_negative_zero x Hv) Hzw Hc).
  - by rewrite (f64_equal_bits _ _ Hv (f64_of_Z_valid y Hw) Hzv (f64_of_Z_not_negative_zero y Hw) Hc).
  - by rewrite (f64_equal_bits _ _ Hv Hw Hzv Hzw Hc).
  - injection Hc as Hc. by apply String.compare_eq_iff in Hc as ->.
  - by destruct x, y.
Qed.

Lemma hashable_agree l r i j : hashable l i → hashable r j → keys_agree l r i j.
Proof. intros Hl Hr lrow rrow v w Hlr Hrr Hv Hw. apply equal_hash_alike; [eapply Hl|eapply Hr]; done. Qed.

(** What the two strategies need to agree: the names of a hash join resolve
    among all columns, and its columns are hashable. *)
Definition joinable (l r : Relation) (on : option Expr) : Prop :=
  ∀ e i j, on = Some e → hash_join_indices e (rel_columns l) (rel_columns r) = Some (i, j) →
    expression_resolves e (rel_columns l ++ rel_columns r) = true ∧ hashable l i ∧ hashable r j.
End exact.

(** C9. A join, hashed or nested, succeeds exactly when its condition has a value
    on every pair of rows, and then returns the relational join: left row by left
    row the combined rows on which the condition is true, a left row of a LEFT
    join without a partner padded by NULLs, and after them the right rows of a
    RIGHT join without a partner. Where the join is hashed, this is for a
    condition whose names resolve unambiguously in the joined columns and join
    columns without -0.0. *)
Theorem join_exact `{RustStd} c l r jt on ctes out :
  wide l → wide r → joinable l r on →
  join_relations (eval_expr c) l r jt on ctes = Ok out ↔
  ∃ m, decides (eval_expr c) on (rel_columns l ++ rel_columns r) ctes m (rel_rows l) (rel_rows r) ∧
    rel_columns out = rel_columns l ++ rel_columns r ∧
    rel_rows out = relational_join m (length (rel_columns l)) (length (rel_columns r)) jt (rel_rows l) (rel_rows r).
Proof.
  intros Hl Hr Hj.
  assert (join_relations (eval_expr c) l r jt on ctes =
    nested_loop_join (eval_expr c) (rel_columns l ++ rel_columns r) l r jt on ctes) as ->.
  { unfold join_relations. destruct on as [e|]; [|done]. cbn [mbind option_bind].
    destruct (hash_join_indices e _ _) as [[i j]|] eqn:Hij; [|done].
    destruct (Hj e i j eq_refl Hij) as (Hres & Hi & Hk).
    by apply hash_join_nested_loop, hashable_agree. }
  rewrite nested_loop_exact. split; intros (m & Hm & Ho); exists m; (split; [done|]); [by subst|].
  destruct out. cbn in Ho. by destruct Ho as [-> ->].
Qed.

(** ** Witness: both strategies *)

Section join_witness.
#[local] Existing Instance concrete_std.

Definition below_k : Expr :=
  EBinary (EColumn (Some "b") "k") (OpCompare CmpLessThan) (EColumn (Some "a") "k").
Definition a_side : Relation := side "a" (ints [1; 2; 3]%Z).
Definition b_side : Relation := side "b" (ints [2; 2; 9]%Z).

Lemma ints_hashable name l : forallb in_i64 l = true → hashable (side name (ints l)) 0.
Proof.
  intros Hl row v (z & -> & Hz)%list_elem_of_fmap [= <-]. split; [|done].
  rewrite forallb_forall in Hl. by apply Hl, list_elem_of_In.
Qed.

Definition greater (l r : Row) : bool :=
  match l, r with [VInteger x], [VInteger y] => (y <? x)%Z | _, _ => false end.

Lemma sides_decide e m :
  forallb (λ l, forallb (λ r, bool_decide (on_matches (eval_expr demo_catalog) (Some e)
    (rel_columns a_side ++ rel_columns b_side) (l ++ r) ∅ = Ok (m l r))) (rel_rows b_side)) (rel_rows a_side) = true →
  decides (eval_expr demo_catalog) (Some e) (rel_columns a_side ++ rel_columns b_side) ∅ m (rel_rows a_side) (rel_rows b_side).
Proof.
  rewrite forallb_forall. intros Hf l r Hl%list_elem_of_In Hr%list_elem_of_In.
  specialize (Hf l Hl). rewrite forallb_forall in Hf. eapply bool_decide_eq_true_1, Hf, Hr.
Qed.

(** The hash join, and a comparison no hash table serves. *)
Lemma join_exact_witness :
  join_relations (eval_expr demo_catalog) a_side b_side JLeft (Some on_k) ∅ =
    Ok {| rel_columns := rel_columns a_side ++ rel_columns b_side;
          rel_rows := [[VInteger 1; VNull]; [VInteger 2; VInteger 2]; [VInteger 2; VInteger 2]; [VInteger 3; VNull]] |} ∧
  join_relations (eval_expr demo_catalog) a_side b_side JRight (Some below_k) ∅ =
    Ok {| rel_columns := rel_columns a_side ++ rel_columns b_side;
          rel_rows := [[VInteger 3; VInteger 2]; [VInteger 3; VInteger 2]; [VNull; VInteger 9]] |}.
Proof.
  split.
  - apply join_exact; [repeat constructor..| |].
    + intros e i j [= <-] [= <- <-]. split; [reflexivity|]. split; by apply ints_hashable.
    + exists (λ l r, bool_decide (l = r)). split; [|split; vm_compute; reflexivity].
      apply sides_decide. vm_compute. reflexivity.
  - apply join_exact; [repeat constructor..| |].
    + intros e i j [= <-] Hij. by vm_compute in Hij.
    + exists greater. split; [|split; vm_compute; reflexivity].
      apply sides_decide. vm_compute. reflexivity.
Defined.

(** Names must resolve among all columns: [ON k = k] over two tables with a
    column [k] is ambiguous everywhere else, but the hash join resolves one
    name on each side. *)
Theorem hash_join_accepts_ambiguous_names :
  let on := EBinary (EColumn None "k") (OpCompare CmpEqual) (EColumn None "k") in
  let columns := rel_columns a_side ++ rel_columns b_side in
  rel_rows <$> join_relations (eval_expr demo_catalog) a_side b_side JInner (Some on) ∅
    = Ok [[VInteger 2; VInteger 2]; [VInteger 2; VInteger 2]] ∧
  nested_loop_join (eval_expr demo_catalog) columns a_side b_side JInner (Some on) ∅
    = Err "Ambiguous column 'k'".
Proof. split; vm_compute; reflexivity. Qed.
End join_witness.
