(* ===== verification/Ordering.v ===== *)
(** * Ordering.v: what ORDER BY and LIMIT return

    A query sorts its rows before the projection, where the order is over
    columns of the source, or after it, where LIMIT first selects the smallest
    rows.  Both return the smallest rows in order, when the keys of the rows can
    be evaluated and the values of each key are comparable. *)

From S2P Require Import Prelude Machine Float64 Like Types Concrete Text Keys Table Eval Queries Rows.

(** ** Total preorders as comparisons *)

Record preorder_cmp {A} (cmp : A → A → comparison) (P : A → Prop) : Prop := {
  pc_antisym : ∀ x y, P x → P y → cmp y x = CompOpp (cmp x y);
  pc_trans : ∀ x y z, P x → P y → P z → cmp x y ≠ Gt → cmp y z ≠ Gt → cmp x z ≠ Gt;
}.

Lemma pc_eq {A} (cmp : A → A → comparison) P x y z :
  preorder_cmp cmp P → P x → P y → P z → cmp x y = Eq → cmp x z = cmp y z.
Proof.
  intros Hc Hx Hy Hz He. assert (cmp y x = Eq) as He' by (by rewrite (pc_antisym _ _ Hc x y), He).
  pose proof (pc_antisym _ _ Hc x z Hx Hz) as Hzx. pose proof (pc_antisym _ _ Hc y z Hy Hz) as Hzy.
  pose proof (pc_trans _ _ Hc x y z Hx Hy Hz) as H1. pose proof (pc_trans _ _ Hc y x z Hy Hx Hz) as H2.
  pose proof (pc_trans _ _ Hc z x y Hz Hx Hy) as H3. pose proof (pc_trans _ _ Hc z y x Hz Hy Hx) as H4.
  rewrite Hzx in *. rewrite Hzy in *. rewrite He, He' in *.
  destruct (cmp x z), (cmp y z); cbn in *; naive_solver.
Qed.

Lemma preorder_opp {A} (cmp : A → A → comparison) P :
  preorder_cmp cmp P → preorder_cmp (λ x y, CompOpp (cmp x y)) P.
Proof.
  intros Hc. split.
  - intros x y Hx Hy. by rewrite (pc_antisym _ _ Hc x y).
  - intros x y z Hx Hy Hz Hxy Hyz. rewrite <-(pc_antisym _ _ Hc) in * by done.
    by apply (pc_trans _ _ Hc z y x).
Qed.

Lemma preorder_map {A B} (f : A → B) (cmp : B → B → comparison) (Q : B → Prop) (P : A → Prop) :
  preorder_cmp cmp Q → (∀ x, P x → Q (f x)) → preorder_cmp (λ x y, cmp (f x) (f y)) P.
Proof. intros Hc Hf. split; intros; [apply (pc_antisym _ _ Hc)|eapply (pc_trans _ _ Hc _ (f y))]; auto. Qed.

Lemma preorder_Z : preorder_cmp Z.compare (λ _, True).
Proof. split; [intros x y _ _; apply Z.compare_antisym|]. intros x y z _ _ _ Hx Hy. change (x ≤ z)%Z. by trans y. Qed.

Lemma preorder_string : preorder_cmp String.compare (λ _, True).
Proof.
  split; [intros x y _ _; apply String.compare_antisym|]. intros x y z _ _ _ Hx Hy.
  destruct (String.compare x y) eqn:Exy; [|destruct (String.compare y z) eqn:Eyz|done].
  - apply String.compare_eq_iff in Exy as ->. done.
  - apply String.compare_eq_iff in Eyz as ->. by rewrite Exy.
  - pose proof (string_lt_trans x y z Exy Eyz) as ->. done.
  - done.
Qed.

Lemma preorder_bool : preorder_cmp Bool.compare (λ _, True).
Proof. split; [by intros [] []|by intros [] [] []]. Qed.

(** ** The order of values *)

(** The values of one key: NULL, or of one type, and no NaN. *)
Definition key_of (d : DataType) (v : Value) : Prop :=
  v = VNull ∨ (data_type v = d ∧ match v with VFloat f => is_nan f = false | _ => True end).

(** NULL comes first, then the values of a type in their order; DESC turns the
    order around. *)
Definition sort_order (v w : Value) : comparison :=
  match v, w with
  | VNull, VNull => Eq
  | VNull, _ => Lt
  | _, VNull => Gt
  | VInteger x, VInteger y => (x ?= y)%Z
  | VFloat x, VFloat y => (signed_key x ?= signed_key y)%Z
  | VText x, VText y => String.compare x y
  | VBoolean x, VBoolean y => Bool.compare x y
  | _, _ => Eq
  end.
Definition item_order (v w : Value) (descending : bool) : comparison :=
  if descending then CompOpp (sort_order v w) else sort_order v w.

(** The comparison of the program is that order. *)
Lemma order_values_item d v w desc : key_of d v → key_of d w → order_values v w desc = item_order v w desc.
Proof.
  intros Hv Hw. unfold order_values, item_order.
  assert (match v, w with VNull, VNull => Eq | VNull, _ => Lt | _, VNull => Gt
    | _, _ => unwrap_or (value_partial_cmp v w) Eq end = sort_order v w) as ->; [|done].
  destruct v, w; try done; destruct Hv as [?|[Hd Hv]], Hw as [?|[Hd' Hw]]; try done;
    try (cbn in Hd, Hd'; congruence). cbn. by rewrite f64_compare_key.
Qed.

Lemma sort_order_preorder d : preorder_cmp sort_order (key_of d).
Proof.
  pose proof preorder_Z as [Za Zt]. pose proof preorder_string as [Sa St]. pose proof preorder_bool as [Ba Bt].
  split.
  - intros x y Hx Hy. destruct x, y; try done; destruct Hx as [?|[Hd _]], Hy as [?|[Hd' _]]; try done;
      try (cbn in Hd, Hd'; congruence); cbn [sort_order]; auto.
  - intros x y z Hx Hy Hz. destruct x, y, z; try done;
      destruct Hx as [?|[Hd _]], Hy as [?|[Hd' _]], Hz as [?|[Hd'' _]]; try done;
      try (cbn in Hd, Hd', Hd''; congruence); cbn [sort_order]; eauto.
Qed.

(** ** The keys of rows *)

(** Keys are compared item by item; the first that differ decide. *)
Fixpoint key_compare (order_by : list OrderBy) (ks ls : list Value) : comparison :=
  match order_by, ks, ls with
  | o :: order_by, a :: ks, b :: ls =>
      match item_order a b (o_descending o) with Eq => key_compare order_by ks ls | c => c end
  | _, _, _ => Eq
  end.

Lemma order_item_preorder d desc : preorder_cmp (λ v w, item_order v w desc) (key_of d).
Proof. destruct desc; [exact (preorder_opp _ _ (sort_order_preorder d))|apply sort_order_preorder]. Qed.

Lemma key_compare_preorder order_by : ∀ kinds,
  length kinds = length order_by → preorder_cmp (key_compare order_by) (Forall2 key_of kinds).
Proof.
  induction order_by as [|o order_by IH]; intros [|d kinds] Hl; try done.
  injection Hl as Hl. pose proof (IH kinds Hl) as [Ia It]. pose proof (order_item_preorder d (o_descending o)) as Ho.
  split.
  - intros x y Hx Hy. inversion Hx as [|? a ? ks Ha Hks]; inversion Hy as [|? b ? ls Hb Hls]; subst.
    cbn [key_compare]. rewrite (pc_antisym _ _ Ho a b) by done. destruct (item_order a b (o_descending o)); cbn; auto.
  - intros x y z Hx Hy Hz. inversion Hx as [|? a ? ks Ha Hks]; inversion Hy as [|? b ? ls Hb Hls];
      inversion Hz as [|? e ? ms He Hms]; subst. cbn [key_compare].
    destruct (item_order a b (o_descending o)) eqn:Eab; [|destruct (item_order b e (o_descending o)) eqn:Ebe|done].
    + rewrite (pc_eq _ _ a b e Ho) by done. destruct (item_order b e (o_descending o)); [by apply It|done|done].
    + intros _ Hbe. rewrite (pc_antisym _ _ Ho e a) by done.
      rewrite (pc_eq _ _ e b a Ho), (pc_antisym _ _ Ho a b), Eab; try done. by rewrite (pc_antisym _ _ Ho b e), Ebe.
    + intros _ _. pose proof (pc_trans _ _ Ho a b e Ha Hb He) as Ht. cbv beta in Ht. rewrite Eab, Ebe in Ht.
      assert (item_order a e (o_descending o) ≠ Eq) as Hne.
      { intros Eae. pose proof (pc_eq _ _ a e b Ho Ha He Hb Eae) as Hab. cbv beta in Hab. rewrite Eab in Hab.
        pose proof (pc_antisym _ _ Ho b e Hb He) as Heb. cbv beta in Heb. rewrite Ebe in Heb. cbn in Heb. congruence. }
      destruct (item_order a e _); [done|done|by apply Ht].
    + by intros _ [].
Qed.

Section keys.
Context `{RustStd} (c : Catalog) (q : Query) (columns : list BoundColumn) (ctes : Ctes).

(** The key of a row, and the order of rows by key. *)
Definition row_order_key (row : Row) : outcome (list Value) :=
  mapM (λ o, eval_order_value (eval_expr c) (o_expr o) columns row ctes) (q_order_by q).
Definition key_le (l r : Row) : Prop :=
  ∃ ks ls, row_order_key l = Ok ks ∧ row_order_key r = Ok ls ∧ key_compare (q_order_by q) ks ls ≠ Gt.

(** Every row has a key, and the values of each item are of one type. *)
Definition sortable (rows : list Row) : Prop :=
  ∃ kinds, ∀ row, row ∈ rows → ∃ ks, row_order_key row = Ok ks ∧ Forall2 key_of kinds ks.

Lemma comparator_keys kinds l r ks ls :
  Forall2 key_of kinds ks → Forall2 key_of kinds ls →
  row_order_key l = Ok ks → row_order_key r = Ok ls →
  order_comparator (eval_expr c) q columns ctes l r = Ok (key_compare (q_order_by q) ks ls).
Proof.
  unfold row_order_key, order_comparator. intros Hk Hl Hks Hls.
  assert (∀ order_by kinds ks ls, Forall2 key_of kinds ks → Forall2 key_of kinds ls →
    mapM (λ o, eval_order_value (eval_expr c) (o_expr o) columns l ctes) order_by = Ok ks →
    mapM (λ o, eval_order_value (eval_expr c) (o_expr o) columns r ctes) order_by = Ok ls →
    compare_order_rows (eval_expr c) l r columns ctes order_by = Ok (key_compare order_by ks ls)) as Hgo.
  { clear. induction order_by as [|o order_by IH]; intros kinds ks ls Hk Hl Hks Hls.
    - injection Hks as <-. by injection Hls as <-.
    - apply bind_Ok in Hks as (a & Ha & (ks' & Hks & [= <-])%bind_Ok).
      apply bind_Ok in Hls as (b & Hb & (ls' & Hls & [= <-])%bind_Ok).
      inversion Hk as [|d ? kinds' ? Ka Kas]; inversion Hl as [|d' ? kinds'' ? Kb Kbs]; subst. simplify_eq.
      cbn [compare_order_rows key_compare]. rewrite Ha, Hb. cbn [mbind outcome_bind].
      rewrite (order_values_item d) by done. destruct (item_order a b _); [by eapply IH|done|done]. }
  by rewrite (Hgo _ _ _ _ Hk Hl Hks Hls).
Qed.

Lemma sortable_preorder rows : sortable rows → preorder_on (order_comparator (eval_expr c) q columns ctes) rows.
Proof.
  intros (kinds & Hk).
  assert (∀ row, row ∈ rows → ∃ ks, row_order_key row = Ok ks ∧ Forall2 key_of kinds ks ∧ length kinds = length (q_order_by q)) as Hkl.
  { intros row Hrow. destruct (Hk row Hrow) as (ks & Hks & Hf). exists ks. split_and!; [done..|].
    by rewrite (Forall2_length _ _ _ Hf), (mapM_length _ _ _ Hks). }
  split.
  - intros x y Hx Hy. destruct (Hkl x Hx) as (ks & Hks & Hfx & Hl), (Hkl y Hy) as (ls & Hls & Hfy & _).
    pose proof (key_compare_preorder (q_order_by q) kinds Hl) as Hp. unfold le_by.
    rewrite (comparator_keys kinds x y ks ls), (comparator_keys kinds y x ls ks), (pc_antisym _ _ Hp ks ls) by done.
    destruct (key_compare _ ks ls); cbn; auto.
  - intros x y z Hx Hy Hz. destruct (Hkl x Hx) as (ks & Hks & Hfx & Hl), (Hkl y Hy) as (ls & Hls & Hfy & _),
      (Hkl z Hz) as (ms & Hms & Hfz & _).
    pose proof (key_compare_preorder (q_order_by q) kinds Hl) as Hp. unfold le_by.
    rewrite (comparator_keys kinds x y ks ls), (comparator_keys kinds y z ls ms), (comparator_keys kinds x z ks ms) by done.
    pose proof (pc_trans _ _ Hp ks ls ms Hfx Hfy Hfz) as Ht. intros Hxy Hyz.
    destruct (key_compare _ ks ms); [by right|by left|].
    exfalso. apply Ht; [destruct Hxy as [[= ->]|[= ->]]; done|destruct Hyz as [[= ->]|[= ->]]; done|done].
Qed.

Lemma le_by_key rows l r :
  sortable rows → l ∈ rows → r ∈ rows → le_by (order_comparator (eval_expr c) q columns ctes) l r → key_le l r.
Proof.
  intros (kinds & Hk) Hl Hr Hle. destruct (Hk l Hl) as (ks & Hks & Kl), (Hk r Hr) as (ls & Hls & Kr).
  exists ks, ls. split_and!; [done..|]. unfold le_by in Hle. rewrite (comparator_keys kinds l r ks ls) in Hle by done.
  by destruct Hle as [[= ->]|[= ->]].
Qed.
End keys.

(** ** The smallest rows, in order *)

Definition top_k (le : Row → Row → Prop) (limit : option nat) (rows kept : list Row) : Prop :=
  StronglySorted le kept ∧
  ∃ rest, rows ≡ₚ kept ++ rest ∧
    length kept = match limit with Some n => n `min` length rows | None => length rows end ∧
    ∀ x y, x ∈ kept → y ∈ rest → le x y.

Definition take_limit (limit : option nat) (rows : list Row) : list Row :=
  match limit with Some n => take n rows | None => rows end.

Lemma StronglySorted_impl {A} (R S : A → A → Prop) l :
  (∀ x y, x ∈ l → y ∈ l → R x y → S x y) → StronglySorted R l → StronglySorted S l.
Proof.
  intros Hi Hs. induction Hs as [|x l Hs IH Hx]; constructor.
  - apply IH. intros y z Hy Hz. apply Hi; set_solver.
  - rewrite Forall_forall in Hx |- *. intros y Hy. apply Hi; [set_solver..|by apply Hx].
Qed.

(** The beginning of a sorted list. *)
Lemma sorted_top_k le limit rows sorted :
  rows ≡ₚ sorted → StronglySorted le sorted → top_k le limit rows (take_limit limit sorted).
Proof.
  intros Hp Hs. pose proof (Permutation_length Hp) as Hl. destruct limit as [n|]; cbn [take_limit].
  - rewrite <-(take_drop n sorted) in Hs. apply StronglySorted_app in Hs as (Hle & Hk & Hd).
    split; [done|]. exists (drop n sorted). rewrite take_drop, length_take. split_and!; [done|lia|auto].
  - split; [done|]. exists []. rewrite app_nil_r. split_and!; [done|done|set_solver].
Qed.

Lemma mapM_take {A B} (f : A → outcome B) n l k : mapM f l = Ok k → mapM f (take n l) = Ok (take n k).
Proof. rewrite !mapM_Ok. apply Forall2_take. Qed.

Section order.
Context `{RustStd} (c : Catalog).

(** Sorting after the projection, LIMIT first. *)
Lemma order_projected_top_k q columns ctes rows out :
  sortable c q columns ctes rows → order_projected (eval_expr c) q columns ctes rows = Ok out →
  top_k (key_le c q columns ctes) (q_limit q) rows out.
Proof.
  intros Hs Ho. pose proof (sortable_preorder c q columns ctes rows Hs) as Hpo.
  set (cmp := order_comparator (eval_expr c) q columns ctes) in *.
  assert (∀ l x y, l ⊆ rows → x ∈ l → y ∈ l → le_by cmp x y → key_le c q columns ctes x y) as Hle.
  { intros l x y Hl Hx Hy. apply (le_by_key c q columns ctes rows); auto. }
  assert (∀ l l', l ⊆ rows → sort_by cmp l = Ok l' → l' ≡ₚ l ∧ StronglySorted (key_le c q columns ctes) l') as Hsort.
  { intros l l' Hl Hs'. destruct (sort_by_sorted cmp l) as (k & Hk & Hss); [by eapply preorder_on_subset|].
    assert (k = l') as -> by congruence. apply sort_by_perm in Hs'. split; [done|].
    eapply StronglySorted_impl, Hss. intros x y Hx Hy. apply (Hle l); [done|by rewrite <-Hs'..]. }
  unfold order_projected in Ho. fold cmp in Ho. destruct (q_limit q) as [n|].
  2: { apply Hsort in Ho as [Hp Hss]; [|done]. by apply (sorted_top_k _ None). }
  destruct (decide (n = 0)) as [-> |Hn0]; [|destruct (decide (n < length rows)) as [Hlt|Hge]].
  - injection Ho as <-. split; [constructor|]. exists rows. split_and!; [done..|set_solver].
  - destruct (select_nth_partition _ cmp n rows Hpo Hlt) as (sel & Hsel & Hpart).
    rewrite Hsel in Ho. cbn [mbind outcome_bind] in Ho. pose proof (select_nth_perm _ _ _ _ _ Hsel) as Hperm.
    apply Hsort in Ho as [Hp Hss]; [|intros x Hx%take_subset'; by rewrite <-Hperm].
    pose proof (Permutation_length Hp) as Hlen. rewrite length_take in Hlen. pose proof (Permutation_length Hperm) as Hlen'.
    split; [done|]. exists (drop n sel). split_and!; [by rewrite Hp, take_drop|lia|].
    intros x y Hx Hy. apply (Hle rows); [done| | |].
    + rewrite <-Hperm, <-(take_drop n sel), <-Hp. set_solver.
    + rewrite <-Hperm, <-(take_drop n sel). set_solver.
    + rewrite Hp in Hx. apply list_elem_of_lookup in Hx as [a Ha], Hy as [b Hb].
      apply lookup_take_Some in Ha as [Ha Han]. rewrite lookup_drop in Hb. eapply Hpart; [done..|lia].
  - apply Hsort in Ho as [Hp Hss]; [|done]. pose proof (Permutation_length Hp) as Hlen.
    pose proof (sorted_top_k _ (Some n) rows out (symmetry Hp) Hss) as Ht. cbn [take_limit] in Ht.
    by rewrite take_ge in Ht by lia.
Qed.

(** Sorting before it. *)
Lemma order_source_top_k q columns ctes limit rows sorted :
  sortable c q columns ctes rows → sort_by (order_comparator (eval_expr c) q columns ctes) rows = Ok sorted →
  top_k (key_le c q columns ctes) limit rows (take_limit limit sorted).
Proof.
  intros Hs Ho. destruct (sort_by_sorted _ _ (sortable_preorder c q columns ctes rows Hs)) as (k & Hk & Hss).
  assert (k = sorted) as -> by congruence. apply sort_by_perm in Ho. apply sorted_top_k; [done|].
  eapply StronglySorted_impl, Hss. intros x y Hx Hy. apply (le_by_key c q columns ctes rows); by rewrite <-?Ho.
Qed.

Definition query_rows (q : Query) (rows : list Row) : list Row :=
  if q_distinct q then retain_first row_key ∅ rows else rows.

End order.

(** C38. ORDER BY and LIMIT return the smallest rows in order, whether the query
    sorts before or after its projection.  Where the order is over columns of the
    source of a plain query, the rows that pass WHERE are ordered by key (NULL
    first, then by value, or the other way round under DESC), and the result is the projection of the first ones (under DISTINCT, the first
    different rows of the projection of all).  Otherwise the projected,
    grouped and de-duplicated rows are.  The first ones are as many as LIMIT
    allows, sorted, and no row left out belongs before one that is kept; provided
    every row has a key, and the values of each ORDER BY item are NULL or of one
    type and not NaN. *)
Theorem ordered_query_exact `{RustStd} c q ctes0 out :
  q_order_by q ≠ [] → execute_query c q ctes0 = Ok out →
  ∃ ctes source rows,
    foldM (add_cte (execute_query c)) ctes0 (q_ctes q) = Ok ctes ∧
    query_source c (eval_expr c) (execute_query c) q ctes = Ok source ∧
    filter_rows (eval_expr c) (q_selection q) (rel_columns source) ctes (rel_rows source) = Ok rows ∧
    let le columns := key_le c q columns ctes in
    if orders_before_projection q (rel_columns source) then
      sortable c q (rel_columns source) ctes rows →
      (q_distinct q = false → ∃ kept, top_k (le (rel_columns source)) (q_limit q) rows kept ∧
        project_query (eval_expr c) q {| rel_columns := rel_columns source; rel_rows := kept |} ctes = Ok out) ∧
      (q_distinct q = true → ∃ sorted projected, top_k (le (rel_columns source)) None rows sorted ∧
        project_query (eval_expr c) q {| rel_columns := rel_columns source; rel_rows := sorted |} ctes = Ok projected ∧
        rel_rows out = take_limit (q_limit q) (retain_first row_key ∅ (rel_rows projected)))
    else
      ∃ projected,
        (if is_aggregate_query q then aggregate_query (eval_expr c) q {| rel_columns := rel_columns source; rel_rows := rows |} ctes
         else project_query (eval_expr c) q {| rel_columns := rel_columns source; rel_rows := rows |} ctes) = Ok projected ∧
        (sortable c q (rel_columns out) ctes (query_rows q (rel_rows projected)) →
         top_k (le (rel_columns out)) (q_limit q) (query_rows q (rel_rows projected)) (rel_rows out)).
Proof.
  intros Hne Hx. rewrite execute_query_unfold in Hx. unfold execute_query_body in Hx.
  apply bind_Ok in Hx as (ctes & Hctes & Hx). apply bind_Ok in Hx as (source & Hsource & Hx).
  apply bind_Ok in Hx as (rows & Hrows & Hx). exists ctes, source, rows. split_and!; [done..|].
  rewrite (bool_decide_false (length (q_order_by q) = 0)) in Hx by by destruct (q_order_by q). cbn [negb andb] in Hx.
  apply bind_Ok in Hx as (sorted & Hsorted & Hx). apply bind_Ok in Hx as (projected & Hproj & Hx).
  apply bind_Ok in Hx as (ordered & Hord & [= <-]). cbn [rel_columns rel_rows].
  destruct (orders_before_projection q (rel_columns source)) eqn:Hbefore; cbn [negb] in *.
  - injection Hord as <-. intros Hs.
    assert (is_aggregate_query q = false) as Hagg.
    { unfold orders_before_projection in Hbefore. by destruct (is_aggregate_query q). }
    rewrite Hagg in Hproj. split; intros Hdist; rewrite Hdist.
    + exists (take_limit (q_limit q) sorted). split; [by apply order_source_top_k|].
      unfold project_query in *. apply bind_Ok in Hproj as (columns & Hcols & (prows & Hprows & [= <-])%bind_Ok).
      cbn [rel_columns rel_rows] in *. rewrite Hcols. cbn [mbind outcome_bind].
      assert (mapM (λ row, project_row (eval_expr c) (q_projection q) (rel_columns source) row None ctes)
        (take_limit (q_limit q) sorted) = Ok (take_limit (q_limit q) prows)) as ->
        by (destruct (q_limit q); [by apply mapM_take|done]).
      done.
    + exists sorted, projected. split_and!; [by apply (order_source_top_k c q _ ctes None)|done|done].
  - injection Hsorted as <-. exists projected. split; [done|]. intros Hs.
    apply (order_projected_top_k c q (rel_columns projected) ctes) in Hord; [|exact Hs].
    replace (match q_limit q with Some limit => take limit ordered | None => ordered end) with ordered; [exact Hord|].
    destruct (q_limit q) as [n|] eqn:Hn; [|done]. destruct Hord as (_ & rest & _ & Hlen & _).
    symmetry. apply take_ge. lia.
Qed.

(** ** Witness: sorting before and after the projection *)

Section ordering_witness.
#[local] Existing Instance concrete_std.

(** [SELECT * FROM t ORDER BY id DESC LIMIT 1] and
    [SELECT id + 1 AS n FROM t ORDER BY n LIMIT 1]. *)
Definition newest : Query :=
  mkQuery [] false [SWildcard None] (Some (SrcTable "t" None)) [] None [] None
    [mkOrderBy (EColumn None "id") true] (Some 1).
Definition smallest_next : Query :=
  mkQuery [] false [SExpr (EBinary (EColumn None "id") OpAdd (ELiteral (VInteger 1))) (Some "n")]
    (Some (SrcTable "t" None)) [] None [] None [mkOrderBy (EColumn None "n") false] (Some 1).
Definition demo_rows : list Row := [demo_row 1 "a"; demo_row 2 "b"].
Definition demo_source : Relation := {| rel_columns := table_columns demo "t"; rel_rows := demo_rows |}.
Definition next_column : list BoundColumn := [{| bc_table := ""; bc_name := "n" |}].

Lemma sortable_by_computation c q columns ctes kinds rows :
  forallb (λ row, match row_order_key c q columns ctes row with
    | Ok ks => bool_decide (Forall2 (λ d v, data_type v = d ∧ is_null v = false ∧ d ≠ TFloat) kinds ks)
    | _ => false end) rows = true →
  sortable c q columns ctes rows.
Proof.
  rewrite forallb_forall. intros Hf. exists kinds. intros row Hrow%list_elem_of_In. specialize (Hf row Hrow).
  destruct (row_order_key c q columns ctes row) as [ks| |]; [|done..]. apply bool_decide_eq_true in Hf.
  exists ks. split; [done|]. eapply Forall2_impl; [exact Hf|]. intros d v (Hd & Hn & Hfl). right. split; [done|].
  by destruct v; simplify_eq/=.
Qed.

Lemma demo_evaluates q :
  q_ctes q = [] → q_from q = Some (SrcTable "t" None) → q_joins q = [] → q_selection q = None →
  ∀ ctes source rows, foldM (add_cte (execute_query demo_catalog)) ∅ (q_ctes q) = Ok ctes →
    query_source demo_catalog (eval_expr demo_catalog) (execute_query demo_catalog) q ctes = Ok source →
    filter_rows (eval_expr demo_catalog) (q_selection q) (rel_columns source) ctes (rel_rows source) = Ok rows →
    ctes = ∅ ∧ source = demo_source ∧ rows = demo_rows.
Proof.
  intros Hc Hf Hj Hs ctes source rows. unfold query_source. rewrite Hc, Hf, Hj, Hs. intros [= <-] Hsrc.
  assert (source = demo_source) as -> by (vm_compute in Hsrc |- *; congruence).
  by intros [= <-].
Qed.

Lemma ordered_query_exact_witness :
  (∃ kept, top_k (key_le demo_catalog newest (table_columns demo "t") ∅) (Some 1) demo_rows kept ∧
    project_query (eval_expr demo_catalog) newest {| rel_columns := table_columns demo "t"; rel_rows := kept |} ∅ =
      Ok {| rel_columns := table_columns demo "t"; rel_rows := [demo_row 2 "b"] |}) ∧
  top_k (key_le demo_catalog smallest_next next_column ∅) (Some 1) [[VInteger 2]; [VInteger 3]] [[VInteger 2]].
Proof.
  split.
  - destruct (ordered_query_exact demo_catalog newest ∅ {| rel_columns := table_columns demo "t"; rel_rows := [demo_row 2 "b"] |})
      as (ctes & source & rows & Hc & Hs & Hr & Hk); [done|vm_compute; reflexivity|].
    destruct (demo_evaluates newest eq_refl eq_refl eq_refl eq_refl _ _ _ Hc Hs Hr) as (-> & -> & ->).
    change (orders_before_projection newest (rel_columns demo_source)) with true in Hk. cbn iota in Hk.
    destruct Hk as [Hk _]; [apply (sortable_by_computation _ _ _ _ [TInteger]); vm_compute; reflexivity|].
    exact (Hk eq_refl).
  - destruct (ordered_query_exact demo_catalog smallest_next ∅ {| rel_columns := next_column; rel_rows := [[VInteger 2]] |})
      as (ctes & source & rows & Hc & Hs & Hr & Hk); [done|vm_compute; reflexivity|].
    destruct (demo_evaluates smallest_next eq_refl eq_refl eq_refl eq_refl _ _ _ Hc Hs Hr) as (-> & -> & ->).
    change (orders_before_projection smallest_next (rel_columns demo_source)) with false in Hk. cbn iota in Hk.
    destruct Hk as (projected & Hp & Ht).
    assert (projected = {| rel_columns := next_column; rel_rows := [[VInteger 2]; [VInteger 3]] |}) as ->
      by (vm_compute in Hp |- *; congruence).
    apply Ht. apply (sortable_by_computation _ _ _ _ [TInteger]). vm_compute. reflexivity.
Defined.
End ordering_witness.
