(* ===== verification/Statement.v ===== *)
(** * Statement.v: statements (src/sql/parser.rs, 10-132)

    The abstract syntax the parser hands to the planner and the executor. *)

From S2P Require Import Prelude Machine Float64 Like Types.

Inductive PrepareSource := PrepareSql (sql : string) | PrepareVariable (name : string).

Inductive InsertSource :=
| InsertValues (rows : list (list Expr))
| InsertQuery (query : Query).

Inductive AlterOperation :=
| AddColumn (column : ColumnDef) (constraints : list TableConstraint) (if_not_exists : bool)
| DropColumn (name : string) (if_exists : bool)
| RenameColumn (old_name new_name : string)
| ModifyColumn (old_name : string) (column : ColumnDef) (constraints : list TableConstraint)
| SetDefault (column : string) (value : option Value)
| SetNullable (column : string) (nullable : bool)
| SetDataType (column : string) (data_type : DataType)
| AddConstraint (constraint : TableConstraint)
| DropConstraint (name : string) (if_exists : bool)
| DropPrimaryKey.

Inductive Statement :=
| CreateTable (table_name : string) (columns : list ColumnDef)
    (constraints : list TableConstraint) (if_not_exists : bool)
| DropTable (table_name : string) (if_exists : bool)
| CreateIndex (name table_name : string) (columns : list string) (unique if_not_exists : bool)
| DropIndex (name table_name : string) (if_exists : bool)
| AlterTable (table_name : string) (operations : list AlterOperation)
| Insert (table_name : string) (columns : option (list string)) (source : InsertSource)
    (on_duplicate : list (string * Expr))
| SelectQuery (query : Query)
| Update (table_name : string) (assignments : list (string * Expr)) (selection : option Expr)
| Delete (table_name : string) (selection : option Expr)
| ShowTables
| ShowIndexes (table_name : string)
| DescribeTable (table_name : string)
| Explain (statement : Statement)
| SetVariable (name : string) (value : Value)
| Prepare (name : string) (source : PrepareSource)
| ExecutePrepared (name : string) (using_ : list string)
| DeallocatePrepared (name : string)
| Begin
| Commit
| Rollback.

(** [is_write_statement] and [is_transaction_control] (src/sql/executor.rs). *)
Definition is_write_statement (s : Statement) : bool :=
  match s with
  | CreateTable _ _ _ _ | DropTable _ _ | CreateIndex _ _ _ _ _ | DropIndex _ _ _
  | AlterTable _ _ | Insert _ _ _ _ | Update _ _ _ | Delete _ _ => true
  | _ => false
  end.

Definition is_transaction_control (s : Statement) : bool :=
  match s with Begin | Commit | Rollback => true | _ => false end.
