(* ===== verification/Planner.v ===== *)
(** * Planner.v: constant folding and logical plans (src/sql/planner.rs)

    [fold_expr] and [optimize_query] rewrite a statement before it enters the
    plan cache; [plan] builds the tree EXPLAIN prints.  A checked overflow
    while folding panics, so folding returns an outcome.

    The theorems relate a folded expression to the evaluator: where no NULL
    literal meets a deciding operand of AND, OR or a zero divisor, folding does
    not change what an expression evaluates to; where one does, it can. *)

From S2P Require Import Prelude Machine Float64 Like Types Concrete Keys Table Eval Queries.
From S2P Require Import Statement.

(** ** Constant folding *)

Section folding.
Context `{RustStd}.

Definition fold_numeric (l r : Value) (integer : Z → Z → outcome Z) (float : f64 → f64 → f64) :
    outcome (option Value) :=
  match l, r with
  | VInteger x, VInteger y => z ← integer x y; Ok (Some (VInteger z))
  | VInteger x, VFloat y => Ok (Some (VFloat (float (f64_of_Z x) y)))
  | VFloat x, VInteger y => Ok (Some (VFloat (float x (f64_of_Z y))))
  | VFloat x, VFloat y => Ok (Some (VFloat (float x y)))
  | _, _ => Ok None
  end.

Definition fold_binary (l : Value) (op : BinaryOp) (r : Value) : outcome (option Value) :=
  if is_null l || is_null r then Ok (Some VNull)
  else
    match op with
    | OpCompare c => Ok (Some (truth_value (compare_sql l r c)))
    | OpAnd => Ok (Some (truth_value (truth_and (truth l) (truth r))))
    | OpOr => Ok (Some (truth_value (truth_or (truth l) (truth r))))
    | OpAdd => fold_numeric l r (λ a b, i64_arith overflow_checks (a + b)) f64_add
    | OpSubtract => fold_numeric l r (λ a b, i64_arith overflow_checks (a - b)) f64_sub
    | OpMultiply => fold_numeric l r (λ a b, i64_arith overflow_checks (a * b)) f64_mul
    | OpDivide => if is_zero r then Ok None else fold_numeric l r i64_div f64_div
    end.

Definition fold_unary (op : UnaryOp) (v : Value) : outcome (option Value) :=
  match op, v with
  | UNot, v => Ok (Some (truth_value (truth_negate (truth v))))
  | UNegate, VInteger z => n ← i64_arith overflow_checks (- z); Ok (Some (VInteger n))
  | UNegate, VFloat f => Ok (Some (VFloat (f64_neg f)))
  | UPlus, VInteger z => Ok (Some (VInteger z))
  | UPlus, VFloat f => Ok (Some (VFloat f))
  | _, _ => Ok None
  end.

(** One node, its operands already folded. *)
Definition fold_binary_node (l : Expr) (op : BinaryOp) (r : Expr) : outcome Expr :=
  match l, r with
  | ELiteral a, ELiteral b =>
      v ← fold_binary a op b;
      Ok match v with Some v => ELiteral v | None => EBinary l op r end
  | _, _ => Ok (EBinary l op r)
  end.

Definition fold_unary_node (op : UnaryOp) (e : Expr) : outcome Expr :=
  match e with
  | ELiteral a =>
      v ← fold_unary op a;
      Ok match v with Some v => ELiteral v | None => EUnary op e end
  | _ => Ok (EUnary op e)
  end.

Definition fold_is_null_node (e : Expr) (negated : bool) : Expr :=
  match e with
  | ELiteral v => ELiteral (VBoolean (if negated then negb (is_null v) else is_null v))
  | _ => EIsNull e negated
  end.

Definition fold_like_node (e pattern : Expr) (negated : bool) : Expr :=
  match e, pattern with
  | ELiteral v, ELiteral p =>
      ELiteral (truth_value (negate_if negated (compare_sql v p CmpLike)))
  | _, _ => ELike e pattern negated
  end.

(** [Option::map] with a function that may panic. *)
Definition map_opt {A} (f : A → outcome A) (o : option A) : outcome (option A) :=
  match o with Some a => b ← f a; Ok (Some b) | None => Ok None end.

Fixpoint fold_expr (e : Expr) : outcome Expr :=
  match e with
  | EBinary l op r => l ← fold_expr l; r ← fold_expr r; fold_binary_node l op r
  | EUnary op e => e ← fold_expr e; fold_unary_node op e
  | EIsNull e negated => e ← fold_expr e; Ok (fold_is_null_node e negated)
  | ELike e p negated => e ← fold_expr e; p ← fold_expr p; Ok (fold_like_node e p negated)
  | EInList e items negated =>
      e ← fold_expr e; items ← mapM fold_expr items; Ok (EInList e items negated)
  | EInSubquery e q negated =>
      e ← fold_expr e; q ← optimize_query q; Ok (EInSubquery e q negated)
  | EExists q negated => q ← optimize_query q; Ok (EExists q negated)
  | EScalarSubquery q => q ← optimize_query q; Ok (EScalarSubquery q)
  | EAggregate f e distinct => e ← map_opt fold_expr e; Ok (EAggregate f e distinct)
  | other => Ok other
  end
with optimize_source (s : TableSource) : outcome TableSource :=
  match s with
  | SrcDerived q alias => q ← optimize_query q; Ok (SrcDerived q alias)
  | table => Ok table
  end
with optimize_item (i : SelectItem) : outcome SelectItem :=
  match i with
  | SExpr e alias => e ← fold_expr e; Ok (SExpr e alias)
  | wildcard => Ok wildcard
  end
with optimize_join (j : Join) : outcome Join :=
  match j with
  | mkJoin t source on => source ← optimize_source source; on ← map_opt fold_expr on;
                          Ok (mkJoin t source on)
  end
with optimize_order (o : OrderBy) : outcome OrderBy :=
  match o with mkOrderBy e d => e ← fold_expr e; Ok (mkOrderBy e d) end
with optimize_cte (c : Cte) : outcome Cte :=
  match c with mkCte n cols q => q ← optimize_query q; Ok (mkCte n cols q) end
with optimize_query (q : Query) : outcome Query :=
  match q with
  | mkQuery ctes distinct projection from joins selection group_by having order_by limit =>
      ctes ← mapM optimize_cte ctes;
      projection ← mapM optimize_item projection;
      from ← map_opt optimize_source from;
      joins ← mapM optimize_join joins;
      selection ← map_opt fold_expr selection;
      group_by ← mapM fold_expr group_by;
      having ← map_opt fold_expr having;
      order_by ← mapM optimize_order order_by;
      Ok (mkQuery ctes distinct projection from joins selection group_by having order_by limit)
  end.

Definition fold_assignment (a : string * Expr) : outcome (string * Expr) :=
  e ← fold_expr a.2; Ok (a.1, e).

Fixpoint optimize_statement (s : Statement) : outcome Statement :=
  match s with
  | SelectQuery q => q ← optimize_query q; Ok (SelectQuery q)
  | Insert table_name columns source on_duplicate =>
      source ← match source with
               | InsertValues rows => rows ← mapM (mapM fold_expr) rows; Ok (InsertValues rows)
               | InsertQuery q => q ← optimize_query q; Ok (InsertQuery q)
               end;
      on_duplicate ← mapM fold_assignment on_duplicate;
      Ok (Insert table_name columns source on_duplicate)
  | Update table_name assignments selection =>
      assignments ← mapM fold_assignment assignments;
      selection ← map_opt fold_expr selection;
      Ok (Update table_name assignments selection)
  | Delete table_name selection =>
      selection ← map_opt fold_expr selection; Ok (Delete table_name selection)
  | Explain s => s ← optimize_statement s; Ok (Explain s)
  | other => Ok other
  end.
End folding.

(** ** Logical plans *)

Inductive JoinAlgorithm := Hash | NestedLoop.

Inductive LogicalPlan :=
| LValues
| LTableScan (table : string) (alias index : option string)
| LDerivedScan (alias : string) (input : LogicalPlan)
| LFilter (predicate : Expr) (input : LogicalPlan)
| LProjection (expressions : list SelectItem) (input : LogicalPlan)
| LJoin (join_type : JoinType) (algorithm : JoinAlgorithm) (on : option Expr)
    (left right : LogicalPlan)
| LAggregate (group_by : list Expr) (having : option Expr) (input : LogicalPlan)
| LSort (order_by : list OrderBy) (input : LogicalPlan)
| LTopN (order_by : list OrderBy) (limit : nat) (input : LogicalPlan)
| LLimit (limit : nat) (input : LogicalPlan)
| LMaterializeCte (name : string) (cte input : LogicalPlan).

Definition is_hash_join (e : Expr) : bool :=
  match e with
  | EBinary (EColumn _ _) (OpCompare CmpEqual) (EColumn _ _) => true
  | _ => false
  end.

Section planning.
Context `{RustStd} (catalog : Catalog).

Section open_recursion.
Variable plan : Query → LogicalPlan.

Definition plan_source (s : TableSource) (selection : option Expr) : LogicalPlan :=
  match s with
  | SrcTable name alias =>
      LTableScan name alias
        (t ← cat_tables catalog !! name; best_index_name t selection)
  | SrcDerived q alias => LDerivedScan alias (plan q)
  end.

Definition plan_join (input : LogicalPlan) (j : Join) : LogicalPlan :=
  let right := plan_source (j_source j) None in
  LJoin (j_type j) (if is_some_and is_hash_join (j_on j) then Hash else NestedLoop) (j_on j)
    input right.

Definition plan_order (q : Query) (input : LogicalPlan) : LogicalPlan :=
  match q_order_by q, q_limit q with
  | [], None => input
  | [], Some limit => LLimit limit input
  | order_by, Some limit => LTopN order_by limit input
  | order_by, None => LSort order_by input
  end.

Definition plan_body (q : Query) : LogicalPlan :=
  let p := match q_from q with
           | Some s => plan_source s (q_selection q)
           | None => LValues
           end in
  let p := foldl plan_join p (q_joins q) in
  let p := match q_selection q with Some predicate => LFilter predicate p | None => p end in
  let p := if is_aggregate_query q then LAggregate (q_group_by q) (q_having q) p else p in
  let p := plan_order q (LProjection (q_projection q) p) in
  foldr (λ c p, LMaterializeCte (c_name c) (plan (c_query c)) p) p (q_ctes q).
End open_recursion.

Fixpoint plan (q : Query) {struct q} : LogicalPlan := plan_body plan q.
End planning.

(** ** EXPLAIN *)

Definition algorithm_debug (a : JoinAlgorithm) : string :=
  match a with Hash => "Hash" | NestedLoop => "NestedLoop" end.
Definition join_type_debug (t : JoinType) : string :=
  match t with JInner => "Inner" | JLeft => "Left" | JRight => "Right" | JCross => "Cross" end.

Fixpoint indent (depth : nat) : string :=
  match depth with O => "" | S d => "  " +:+ indent d end.

Definition scan_line (table : string) (alias index : option string) : string :=
  match index with
  | Some index => "IndexScan(table=" +:+ table +:+ ", alias=" +:+ unwrap_or alias table
                  +:+ ", index=" +:+ index +:+ ", bloom=true)"
  | None => "SeqScan(table=" +:+ table +:+ ", alias=" +:+ unwrap_or alias table +:+ ")"
  end.

Fixpoint write_explain (depth : nat) (p : LogicalPlan) : list string :=
  let line s := indent depth +:+ s in
  match p with
  | LValues => [line "Values(one_row)"]
  | LTableScan table alias index => [line (scan_line table alias index)]
  | LDerivedScan alias input =>
      line ("DerivedScan(alias=" +:+ alias +:+ ")") :: write_explain (S depth) input
  | LFilter _ input =>
      line "Filter(predicate_pushdown=true, constants_folded=true)" :: write_explain (S depth) input
  | LProjection _ input => line "Projection(pruned=true)" :: write_explain (S depth) input
  | LJoin t a _ l r =>
      line (algorithm_debug a +:+ "Join(type=" +:+ join_type_debug t +:+ ")")
        :: write_explain (S depth) l ++ write_explain (S depth) r
  | LAggregate _ _ input => line "HashAggregate" :: write_explain (S depth) input
  | LSort _ input => line "Sort" :: write_explain (S depth) input
  | LTopN _ limit input =>
      line ("TopN(limit=" +:+ pretty limit +:+ ")") :: write_explain (S depth) input
  | LLimit limit input => line ("Limit(" +:+ pretty limit +:+ ")") :: write_explain (S depth) input
  | LMaterializeCte name cte input =>
      line ("MaterializeCTE(name=" +:+ name +:+ ")")
        :: write_explain (S depth) cte ++ write_explain (S depth) input
  end.

Definition explain_lines (p : LogicalPlan) : list string := write_explain 0 p.

(** ** Folding and evaluation *)

Section folding_correct.
Context `{RustStd}.

(** What a NULL literal operand folds to is what the operator evaluates to:
    true of every operator except AND against FALSE, OR against TRUE, and a
    division by zero. *)
Definition null_fold_ok (a : Value) (op : BinaryOp) (b : Value) : Prop :=
  is_null a || is_null b = true →
  match op with
  | OpAnd => truth_and (truth a) (truth b) = SUnknown
  | OpOr => truth_or (truth a) (truth b) = SUnknown
  | OpDivide => is_zero b = false
  | _ => True
  end.

(** Expressions without subqueries whose folded literals meet that condition. *)
Fixpoint fold_safe (e : Expr) : Prop :=
  match e with
  | EBinary l op r =>
      fold_safe l ∧ fold_safe r ∧
      ∀ a b, fold_expr l = Ok (ELiteral a) → fold_expr r = Ok (ELiteral b) → null_fold_ok a op b
  | EUnary _ e | EIsNull e _ => fold_safe e
  | ELike e p _ => fold_safe e ∧ fold_safe p
  | EInList e items _ => fold_safe e ∧ foldr (λ i P, fold_safe i ∧ P) True items
  | EAggregate _ (Some e) _ => fold_safe e
  | EInSubquery _ _ _ | EExists _ _ | EScalarSubquery _ => False
  | _ => True
  end.

(** Evaluation agrees in every context. *)
Definition eval_same (c : Catalog) (e e' : Expr) : Prop :=
  ∀ columns row group ctes,
    eval_expr c e' columns row group ctes = eval_expr c e columns row group ctes.

(** A binary node on evaluated operands. *)
Definition binary_value (a : Value) (op : BinaryOp) (b : Value) : outcome Value :=
  match op with
  | OpAnd => Ok (truth_value (truth_and (truth a) (truth b)))
  | OpOr => Ok (truth_value (truth_or (truth a) (truth b)))
  | op => apply_binary op a b
  end.

Lemma fold_numeric_numeric a b integer float v :
  fold_numeric a b integer float = Ok (Some v) → numeric_binary a b integer float = Ok v.
Proof.
  destruct a, b; cbn; try done; try (by intros [= <-]).
  destruct (integer z z0); cbn; naive_solver.
Qed.

Lemma fold_binary_value a op b v :
  null_fold_ok a op b → fold_binary a op b = Ok (Some v) → binary_value a op b = Ok v.
Proof.
  intros Hok. unfold fold_binary. unfold null_fold_ok in Hok.
  destruct (is_null a || is_null b) eqn:Hn.
  - intros [= <-]. specialize (Hok eq_refl).
    assert (∀ i f, numeric_binary a b i f = Ok VNull) as Hnum.
    { intros i f. apply orb_true_iff in Hn. by destruct a, b; destruct Hn. }
    destruct op; cbn; rewrite ?Hnum, ?Hok; try done. unfold compare_sql. by rewrite Hn.
  - destruct op; cbn; try (by intros [= <-]); try (by apply fold_numeric_numeric).
    destruct (is_zero b); [done|]. apply fold_numeric_numeric.
Qed.

Lemma eval_binary_values c l op r columns row group ctes a b :
  eval_expr c l columns row group ctes = Ok a → eval_expr c r columns row group ctes = Ok b →
  eval_expr c (EBinary l op r) columns row group ctes = binary_value a op b.
Proof.
  intros Ha Hb. rewrite eval_expr_unfold.
  destruct op; cbn [eval_expr_body binary_value]; rewrite Ha; cbn [mbind outcome_bind];
    rewrite ?Hb; cbn [mbind outcome_bind]; try done.
  - by destruct (truth a), (truth b).
  - by destruct (truth a), (truth b).
Qed.

Lemma eval_literal c v columns row group ctes :
  eval_expr c (ELiteral v) columns row group ctes = Ok v.
Proof. done. Qed.

Lemma eval_same_binary c l op r l' r' :
  eval_same c l l' → eval_same c r r' → eval_same c (EBinary l op r) (EBinary l' op r').
Proof.
  intros Hl Hr columns row group ctes. rewrite !eval_expr_unfold.
  destruct op; cbn [eval_expr_body]; by rewrite ?Hl, ?Hr.
Qed.

Lemma fold_binary_node_same c l op r l' r' e' :
  eval_same c l l' → eval_same c r r' →
  (∀ a b, l' = ELiteral a → r' = ELiteral b → null_fold_ok a op b) →
  fold_binary_node l' op r' = Ok e' → eval_same c (EBinary l op r) e'.
Proof.
  intros Hl Hr Hok Hf. unfold fold_binary_node in Hf.
  destruct l' as [|a| | | | | | | | | | |]; try (injection Hf as <-; by apply eval_same_binary).
  destruct r' as [|b| | | | | | | | | | |]; try (injection Hf as <-; by apply eval_same_binary).
  apply bind_Ok in Hf as ([v|] & Hv & Hf); injection Hf as <-; [|by apply eval_same_binary].
  intros columns row group ctes. rewrite eval_literal. symmetry.
  rewrite (eval_binary_values c l op r columns row group ctes a b).
  - apply fold_binary_value; auto.
  - by rewrite <-Hl.
  - by rewrite <-Hr.
Qed.

Lemma fold_unary_node_same c op e e' e'' :
  eval_same c e e' → fold_unary_node op e' = Ok e'' → eval_same c (EUnary op e) e''.
Proof.
  intros He Hf. assert (eval_same c (EUnary op e) (EUnary op e')) as Hcong.
  { intros columns row group ctes. rewrite !eval_expr_unfold. cbn [eval_expr_body]. by rewrite He. }
  unfold fold_unary_node in Hf.
  destruct e' as [|a| | | | | | | | | | |]; try (injection Hf as <-; done).
  apply bind_Ok in Hf as ([v|] & Hv & Hf); injection Hf as <-; [|done].
  intros columns row group ctes. rewrite <-Hcong, eval_literal, eval_expr_unfold.
  cbn [eval_expr_body]. rewrite eval_literal. cbn [mbind outcome_bind].
  destruct op, a; cbn in *; try (by injection Hv as <-); try done;
    destruct (i64_arith _ _); cbn in *; naive_solver.
Qed.

Lemma mapM_eval_same c items items' columns row group ctes :
  Forall2 (eval_same c) items items' →
  mapM (λ i, eval_expr c i columns row group ctes) items' =
  mapM (λ i, eval_expr c i columns row group ctes) items.
Proof. induction 1 as [|i i' items items' Hi _ IH]; [done|]. cbn. by rewrite Hi, IH. Qed.

Lemma fold_expr_same c e : fold_safe e → ∀ e', fold_expr e = Ok e' → eval_same c e e'.
Proof.
  apply (Expr_tree_ind (λ e, fold_safe e → ∀ e', fold_expr e = Ok e' → eval_same c e e')
    (λ _, True) (λ _, True) (λ _, True) (λ _, True) (λ _, True) (λ _, True)); try done;
    clear e; try (intros; by simplify_eq/=).
  - intros l IHl op r IHr (Hl & Hr & Hok) e' Hf. cbn in Hf.
    apply bind_Ok in Hf as (l' & Hl' & Hf). apply bind_Ok in Hf as (r' & Hr' & Hf).
    eapply fold_binary_node_same; [by apply IHl|by apply IHr| |done]. intros a b -> ->. auto.
  - intros op e IH Hs e' Hf. cbn in Hf. apply bind_Ok in Hf as (e1 & He1 & Hf).
    eapply fold_unary_node_same; [by apply IH|done].
  - intros e IH negated Hs e' Hf columns row group ctes. cbn in Hf.
    apply bind_Ok in Hf as (e1 & He1 & [= <-]). specialize (IH Hs _ He1).
    rewrite (eval_expr_unfold c (EIsNull e negated)). cbn [eval_expr_body]. rewrite <-IH.
    by destruct e1.
  - intros e IHe p IHp negated [Hs Hsp] e' Hf columns row group ctes. cbn in Hf.
    apply bind_Ok in Hf as (e1 & He1 & Hf). apply bind_Ok in Hf as (p1 & Hp1 & [= <-]).
    specialize (IHe Hs _ He1). specialize (IHp Hsp _ Hp1).
    rewrite (eval_expr_unfold c (ELike e p negated)). cbn [eval_expr_body]. rewrite <-IHe, <-IHp.
    by destruct e1, p1.
  - intros e IHe items IHitems negated [Hs Hsi] e' Hf columns row group ctes. cbn in Hf.
    apply bind_Ok in Hf as (e1 & He1 & Hf). apply bind_Ok in Hf as (items1 & Hi1 & [= <-]).
    specialize (IHe Hs _ He1). rewrite !eval_expr_unfold. cbn [eval_expr_body]. rewrite IHe.
    apply bind_ext. intros v _. rewrite (mapM_eval_same c items items1); [done|].
    apply mapM_Ok in Hi1. apply list_all_Forall in IHitems. clear -Hsi Hi1 IHitems.
    induction Hi1 as [|i i1 items items1 Hi _ IH]; [constructor|].
    apply Forall_cons in IHitems as [IHi IHitems]. destruct Hsi as [Hsi Hss].
    constructor; [by apply IHi|by apply IH].
  - intros f o IHo distinct Hs e' Hf columns row group ctes. cbn in Hf.
    apply bind_Ok in Hf as (o' & Ho' & [= <-]). destruct o as [e|]; [|by injection Ho' as <-].
    apply bind_Ok in Ho' as (e1 & He1 & [= <-]). apply option_all_Some in IHo.
    specialize (IHo Hs _ He1). rewrite !eval_expr_unfold. cbn [eval_expr_body].
    apply bind_ext. intros g _. unfold eval_aggregate. f_equal. apply mapM_ext. intros r _. apply IHo.
Qed.

(** C37. Constant folding does not change what an expression means: on an
    expression without subqueries in which no NULL literal meets a FALSE under
    AND, a TRUE under OR or a zero divisor, the folded expression evaluates to the
    same value or the same error on every row, group and environment. *)
Theorem fold_preserves_evaluation c e e' columns row group ctes :
  fold_safe e → fold_expr e = Ok e' →
  eval_expr c e' columns row group ctes = eval_expr c e columns row group ctes.
Proof. intros Hs Hf. by apply fold_expr_same. Qed.
End folding_correct.

Section folding_examples.
#[local] Existing Instance concrete_std.

Definition lit (v : Value) : Expr := ELiteral v.

(** [id = 1 + 2]. *)
Definition foldable : Expr :=
  EBinary (EColumn None "id") (OpCompare CmpEqual)
    (EBinary (lit (VInteger 1)) OpAdd (lit (VInteger 2))).

Lemma fold_preserves_evaluation_witness :
  eval_expr catalog_default
    (EBinary (EColumn None "id") (OpCompare CmpEqual) (lit (VInteger 3)))
    [{| bc_table := "t"; bc_name := "id" |}] [VInteger 3] None ∅ =
  eval_expr catalog_default foldable
    [{| bc_table := "t"; bc_name := "id" |}] [VInteger 3] None ∅.
Proof.
  apply fold_preserves_evaluation; [|vm_compute; reflexivity].
  cbn. by split_and!.
Defined.

(** The condition on NULL literals is needed: the evaluator gives FALSE AND
    NULL the value FALSE, TRUE OR NULL the value TRUE and makes NULL / 0 an
    error, while all three fold to NULL; so NOT (FALSE AND NULL) selects every
    row before folding and none after. *)
Theorem fold_null_differs :
  let f := lit (VBoolean false) in let t := lit (VBoolean true) in
  let n := lit VNull in let z := lit (VInteger 0) in
  let eval e := eval_expr catalog_default e [] [] None ∅ in
  (fold_expr (EBinary f OpAnd n) = Ok n ∧ eval (EBinary f OpAnd n) = Ok (VBoolean false)) ∧
  (fold_expr (EBinary t OpOr n) = Ok n ∧ eval (EBinary t OpOr n) = Ok (VBoolean true)) ∧
  (fold_expr (EBinary n OpDivide z) = Ok n ∧
   eval (EBinary n OpDivide z) = Err "Division by zero") ∧
  (fold_expr (EUnary UNot (EBinary f OpAnd n)) = Ok n ∧
   eval (EUnary UNot (EBinary f OpAnd n)) = Ok (VBoolean true)).
Proof. repeat split; vm_compute; reflexivity. Qed.
End folding_examples.
