(* ===== verification/Validate.v ===== *)
(** * Validate.v: the integrity of a catalog (src/sql/executor.rs, 2824-2960)

    [validate_catalog] and its three parts: row types and CHECK constraints,
    UNIQUE indexes, foreign keys.  The specification is [CatalogValid], the
    declarative statement of the same constraints over the rows; the theorem
    is that the validator accepts exactly the valid catalogs. *)

From S2P Require Import Prelude Machine Float64 Like Types Concrete Keys Table Eval Queries.

Section validation.
Context `{RustStd}.

(** ** The validator *)

Definition validate_checks (c : Catalog) (t : Table) (row : Row) : outcome () :=
  foldM (λ _ constraint,
    match constraint with
    | CCheck name e =>
        v ← eval_expr c e (table_columns t (schema_name (tb_schema t))) row None ∅;
        if bool_decide (truth v = SFalse)
        then Err ("CHECK constraint '" +:+ unwrap_or name "<unnamed>" +:+ "' failed")
        else Ok tt
    | _ => Ok tt
    end) tt (schema_constraints (tb_schema t)).

(** An index whose rows share a key without NULL. *)
Definition index_violated (ix : BTreeIndex) : bool :=
  existsb (λ kv : IndexKey * gset N, negb (bool_decide (KNull ∈ kv.1)) && bool_decide (1 < size kv.2))
    (map_to_list (ix_entries ix)).

Definition validate_unique_indexes (t : Table) : outcome () :=
  foldM (λ _ ix,
    if index_violated ix
    then Err ("UNIQUE constraint '" +:+ index_name (ix_definition ix) +:+ "' failed")
    else Ok tt) tt
    (filter (λ ix, index_unique (ix_definition ix)) (hm_values (tb_indexes t))).

(** Comparing a parent row with a key, position by position; [key[i]] and
    [row.values[i]] panic out of bounds. *)
Fixpoint key_matches_row (row : Row) (parent_indices : list nat) (key : list Value) (i : nat) :
    outcome bool :=
  match parent_indices with
  | [] => Ok true
  | p :: parent_indices =>
      v ← vec_index row p;
      k ← vec_index key i;
      if value_eqb v k then key_matches_row row parent_indices key (S i) else Ok false
  end.

Fixpoint any_parent (rows : list Row) (parent_indices : list nat) (key : list Value) : outcome bool :=
  match rows with
  | [] => Ok false
  | row :: rows =>
      found ← key_matches_row row parent_indices key 0;
      if found : bool then Ok true else any_parent rows parent_indices key
  end.

Definition check_child_row (fk : ForeignKeyConstraint) (parent : Table)
    (child_indices parent_indices : list nat) (row : Row) : outcome () :=
  key ← mapM (vec_index row) child_indices;
  if existsb is_null key then Ok tt
  else found ← any_parent (tb_rows parent) parent_indices key;
       if found : bool then Ok tt
       else Err ("FOREIGN KEY constraint '" +:+ unwrap_or (fk_name fk) "<unnamed>" +:+ "' failed").

Definition parent_is_unique (parent : Table) (fk : ForeignKeyConstraint) : bool :=
  existsb (λ i, index_unique i
    && bool_decide (to_ascii_lowercase <$> index_columns i = to_ascii_lowercase <$> referred_columns fk))
    (schema_indexes (tb_schema parent)).

Definition column_positions (s : TableSchema) (what : string) (columns : list string) :
    outcome (list nat) :=
  mapM (λ column, ok_or (column_index s column)
    ("Unknown " +:+ what +:+ " column '" +:+ column +:+ "'")) columns.

Definition check_foreign_key (c : Catalog) (t : Table) (fk : ForeignKeyConstraint) : outcome () :=
  parent ← ok_or (cat_tables c !! foreign_table fk)
             ("Foreign key references missing table '" +:+ foreign_table fk +:+ "'");
  if parent_is_unique parent fk then
    child_indices ← column_positions (tb_schema t) "foreign-key" (fk_columns fk);
    parent_indices ← column_positions (tb_schema parent) "referenced" (referred_columns fk);
    foldM (λ _ row, check_child_row fk parent child_indices parent_indices row) tt (tb_rows t)
  else Err ("Foreign key target " +:+ foreign_table fk +:+ "("
            +:+ join_with ", " (referred_columns fk) +:+ ") is not PRIMARY KEY or UNIQUE").

Definition validate_foreign_keys (c : Catalog) : outcome () :=
  foldM (λ _ t,
    foldM (λ _ constraint,
      match constraint with CForeignKey fk => check_foreign_key c t fk | _ => Ok tt end)
      tt (schema_constraints (tb_schema t)))
    tt (hm_values (cat_tables c)).

Definition validate_table (c : Catalog) (t : Table) : outcome () :=
  _ ← foldM (λ _ row, _ ← validate_row (tb_schema t) row; validate_checks c t row) tt (tb_rows t);
  validate_unique_indexes t.

Definition validate_catalog (c : Catalog) : outcome () :=
  _ ← foldM (λ _ t, validate_table c t) tt (hm_values (cat_tables c));
  validate_foreign_keys c.

(** ** The specification *)

(** No CHECK evaluates to FALSE (TRUE and UNKNOWN pass). *)
Definition checks_hold (c : Catalog) (t : Table) (row : Row) : Prop :=
  ∀ name e, CCheck name e ∈ schema_constraints (tb_schema t) →
    ∃ v, eval_expr c e (table_columns t (schema_name (tb_schema t))) row None ∅ = Ok v ∧
         truth v ≠ SFalse.

(** No two rows share a NULL-free key of a unique index. *)
Definition unique_holds (t : Table) : Prop :=
  ∀ name ix p q row row' key, tb_indexes t !! name = Some ix →
    index_unique (ix_definition ix) = true →
    tb_rows t !! p = Some row → tb_rows t !! q = Some row' →
    index_key (tb_schema t) row (index_columns (ix_definition ix)) = Some key →
    index_key (tb_schema t) row' (index_columns (ix_definition ix)) = Some key →
    KNull ∉ key → p = q.

(** A NULL in the key exempts the row; otherwise some parent row agrees. *)
Definition fk_row_holds (parent : Table) (cs ps : list nat) (row : Row) : Prop :=
  ∃ key, Forall2 (λ i v, row !! i = Some v) cs key ∧
    (VNull ∈ key ∨
     ∃ prow, prow ∈ tb_rows parent ∧
       Forall2 (λ p k, ∃ v, prow !! p = Some v ∧ value_eqb v k = true) ps key).

Definition fk_holds (c : Catalog) (t : Table) (fk : ForeignKeyConstraint) : Prop :=
  ∃ parent cs ps, cat_tables c !! foreign_table fk = Some parent ∧
    parent_is_unique parent fk = true ∧
    Forall2 (λ name i, column_index (tb_schema t) name = Some i) (fk_columns fk) cs ∧
    Forall2 (λ name i, column_index (tb_schema parent) name = Some i) (referred_columns fk) ps ∧
    Forall (fk_row_holds parent cs ps) (tb_rows t).

Record TableValid (c : Catalog) (t : Table) : Prop := {
  tv_types : Forall (λ row, Forall2 fits row (schema_columns (tb_schema t))) (tb_rows t);
  tv_checks : Forall (checks_hold c t) (tb_rows t);
  tv_unique : unique_holds t;
  tv_foreign : ∀ fk, CForeignKey fk ∈ schema_constraints (tb_schema t) → fk_holds c t fk;
}.

Definition CatalogValid (c : Catalog) : Prop := map_Forall (λ _ t, TableValid c t) (cat_tables c).

(** ** The validator accepts exactly the valid catalogs *)

(** A loop of checks succeeds exactly when every check does. *)
Lemma foldM_unit {A} (f : A → outcome ()) l :
  foldM (λ _ x, f x) tt l = Ok tt ↔ Forall (λ x, f x = Ok tt) l.
Proof.
  induction l as [|x l IH]; [by split|]. rewrite foldM_cons, bind_Ok, Forall_cons, <-IH.
  split; [by intros ([] & ? & ?)|]. intros [? ?]. by exists tt.
Qed.

Lemma Forall_ext' {A} (P Q : A → Prop) l : (∀ x, x ∈ l → P x ↔ Q x) → Forall P l ↔ Forall Q l.
Proof. intros HPQ. rewrite !Forall_forall. split; intros Hx x Hin; by apply HPQ, Hx. Qed.

Lemma validate_checks_Ok c t row : validate_checks c t row = Ok tt ↔ checks_hold c t row.
Proof.
  unfold validate_checks, checks_hold.
  rewrite (foldM_unit (λ constraint, match constraint with
    | CCheck name e =>
        v ← eval_expr c e (table_columns t (schema_name (tb_schema t))) row None ∅;
        if bool_decide (truth v = SFalse)
        then Err ("CHECK constraint '" +:+ unwrap_or name "<unnamed>" +:+ "' failed")
        else Ok tt
    | _ => Ok tt
    end)), Forall_forall.
  split.
  - intros Hall name e Hin. specialize (Hall _ Hin). cbn in Hall.
    apply bind_Ok in Hall as (v & Hv & Hc). exists v. split; [done|]. by case_bool_decide.
  - intros Hall [| |name e|] Hin; try done. destruct (Hall _ _ Hin) as (v & -> & Hv). cbn.
    by rewrite bool_decide_eq_false_2.
Qed.

(** An index violates uniqueness exactly when two rows share a key. *)
Lemma index_violated_iff t name ix :
  Coherent t → tb_indexes t !! name = Some ix →
  index_violated ix = false ↔
  ∀ p q row row' key, tb_rows t !! p = Some row → tb_rows t !! q = Some row' →
    index_key (tb_schema t) row (index_columns (ix_definition ix)) = Some key →
    index_key (tb_schema t) row' (index_columns (ix_definition ix)) = Some key →
    KNull ∉ key → p = q.
Proof.
  intros Hco Hix. destruct (co_index _ Hco _ _ Hix) as [Hwf Hspec].
  destruct (co_ids _ Hco) as [Hlen Hsorted _]. unfold index_violated. split.
  - intros Hno p q row row' key Hp Hq Hk Hk' Hnull.
    assert (∀ p row, tb_rows t !! p = Some row → ∃ id, tb_row_ids t !! p = Some id) as Hid.
    { intros p0 row0 Hp0. apply lookup_lt_is_Some_2. rewrite Hlen. by eapply lookup_lt_Some. }
    destruct (Hid _ _ Hp) as [i Hi], (Hid _ _ Hq) as [j Hj].
    assert (i ∈ ix_ids ix key) as Hin by (apply Hspec; by exists p, row).
    assert (j ∈ ix_ids ix key) as Hjn by (apply Hspec; by exists q, row').
    unfold ix_ids in Hin, Hjn. destruct (ix_entries ix !! key) as [ids|] eqn:E; [|set_solver].
    cbn in Hin, Hjn. destruct (decide (i = j)) as [->|Hij].
    { by eapply StronglySorted_lookup_inj. }
    exfalso. apply not_true_iff_false in Hno. apply Hno. apply existsb_true.
    exists (key, ids). split; [by apply elem_of_map_to_list|]. cbn.
    rewrite bool_decide_eq_false_2 by done. cbn. apply bool_decide_eq_true.
    assert ({[i; j]} ⊆ ids) as Hsub by set_solver. apply subseteq_size in Hsub.
    rewrite size_union, !size_singleton in Hsub by set_solver. lia.
  - intros Huniq. apply not_true_iff_false. rewrite existsb_true.
    intros ([key ids] & Hin%elem_of_map_to_list & Hv). cbn in Hv.
    apply andb_true_iff in Hv as [Hnull Hsize]. apply negb_true_iff, bool_decide_eq_false in Hnull.
    apply bool_decide_eq_true in Hsize.
    assert (∀ id, id ∈ ids → ∃ p row, tb_rows t !! p = Some row ∧ tb_row_ids t !! p = Some id ∧
      index_key (tb_schema t) row (index_columns (ix_definition ix)) = Some key) as Hids.
    { intros id Hid. apply Hspec. unfold ix_ids. by rewrite Hin. }
    assert (size ids ≤ 1); [|lia]. apply Nat.le_ngt. intros Hgt.
    assert (∀ i j, i ∈ ids → j ∈ ids → i = j) as Hall.
    { intros i j (p & row & Hp & Hpi & Hk)%Hids (q & row' & Hq & Hqj & Hk')%Hids.
      assert (p = q) as -> by by eapply Huniq. congruence. }
    destruct (size_pos_elem_of ids) as [i Hi]; [lia|].
    assert (ids ⊆ {[i]}) as Hsub%subseteq_size by set_solver. rewrite size_singleton in Hsub. lia.
Qed.

Lemma validate_unique_Ok t : Coherent t → validate_unique_indexes t = Ok tt ↔ unique_holds t.
Proof.
  intros Hco. unfold validate_unique_indexes.
  rewrite (foldM_unit (λ ix, if index_violated ix
    then Err ("UNIQUE constraint '" +:+ index_name (ix_definition ix) +:+ "' failed") else Ok tt)).
  rewrite Forall_forall. setoid_rewrite list_elem_of_filter. setoid_rewrite elem_of_hm_values.
  split.
  - intros Hall name ix p q row row' key Hix Hu Hp Hq Hk Hk' Hn.
    specialize (Hall ix). destruct (index_violated ix) eqn:E.
    { discriminate Hall. split; [by rewrite Hu|by exists name]. }
    by eapply (proj1 (index_violated_iff t name ix Hco Hix) E).
  - intros Huniq ix [Hu [name Hix]].
    rewrite (proj2 (index_violated_iff t name ix Hco Hix)); [done|].
    intros p q row row' key Hp Hq Hk Hk' Hn. eapply (Huniq name ix); try done.
    by destruct (index_unique _).
Qed.

(** *** Foreign keys *)

Lemma key_matches_row_Ok row ps key pre b :
  length ps = length key →
  key_matches_row row ps (pre ++ key) (length pre) = Ok b →
  b = true ↔ Forall2 (λ p k, ∃ v, row !! p = Some v ∧ value_eqb v k = true) ps key.
Proof.
  revert key pre. induction ps as [|p ps IH]; intros [|k key] pre Hlen; cbn; try done.
  - intros [= <-]. by split.
  - intros Hm. inv_ok. rename select ((pre ++ _) !! _ = _) into Hk.
    rewrite lookup_app_r, Nat.sub_diag in Hk by done. injection Hk as <-.
    rename select (row !! p = Some _) into Hv. destruct (value_eqb x k) eqn:E.
    + specialize (IH key (pre ++ [k])). rewrite <-app_assoc, length_app in IH. cbn in IH.
      rewrite Nat.add_1_r in IH. rewrite IH by (done || lia). rewrite Forall2_cons. naive_solver.
    + inv_ok. split; [done|]. intros Hf. inversion Hf as [|? ? ? ? (v & Hv' & Hev) _]; subst.
      congruence.
Qed.

Lemma key_matches_row_total row ps key pre :
  length ps = length key → Forall (λ p, p < length row) ps →
  is_Ok (key_matches_row row ps (pre ++ key) (length pre)).
Proof.
  revert key pre. induction ps as [|p ps IH]; intros [|k key] pre Hlen Hps; cbn; try done.
  { by eexists. }
  apply Forall_cons in Hps as [Hp Hps]. destruct (lookup_lt_is_Some_2 row p Hp) as [v Hv].
  rewrite (proj2 (vec_index_Ok _ _ _) Hv). cbn. unfold vec_index.
  rewrite lookup_app_r, Nat.sub_diag by done. cbn. destruct (value_eqb v k); [|by eexists].
  specialize (IH key (pre ++ [k])). rewrite <-app_assoc, length_app, Nat.add_1_r in IH.
  apply IH; [|done]. cbn in Hlen. lia.
Qed.

Lemma any_parent_Ok rows ps key :
  length ps = length key → Forall (λ row, Forall (λ p, p < length row) ps) rows →
  ∃ b, any_parent rows ps key = Ok b ∧
    (b = true ↔ ∃ row, row ∈ rows ∧
       Forall2 (λ p k, ∃ v, row !! p = Some v ∧ value_eqb v k = true) ps key).
Proof.
  intros Hlen. induction 1 as [|row rows Hrow _ IH]; cbn.
  { exists false. split; [done|]. set_solver. }
  destruct (key_matches_row_total row ps key [] Hlen Hrow) as [b Hb]. cbn in Hb. rewrite Hb. cbn.
  pose proof (key_matches_row_Ok row ps key [] b Hlen Hb) as Hiff.
  destruct b; [exists true|destruct IH as (b & -> & Hb'); exists b]; (split; [done|]).
  - set_solver.
  - rewrite Hb'. split; [set_solver|]. intros (r & [-> |Hr]%elem_of_cons & Hf); [|set_solver].
    apply Hiff in Hf. done.
Qed.

Lemma mapM_Forall2_iff {A B} (f : A → outcome B) (P : A → B → Prop) l k :
  (∀ x y, f x = Ok y ↔ P x y) → mapM f l = Ok k ↔ Forall2 P l k.
Proof.
  intros HP. rewrite mapM_Ok. split; intros Hf; (eapply Forall2_impl; [exact Hf|]);
    intros x y; apply HP.
Qed.

Lemma column_positions_Ok s what columns idx :
  column_positions s what columns = Ok idx ↔
  Forall2 (λ name i, column_index s name = Some i) columns idx.
Proof. apply mapM_Forall2_iff. intros x y. apply ok_or_Ok. Qed.

Lemma column_positions_lt s columns idx :
  Forall2 (λ name i, column_index s name = Some i) columns idx →
  Forall (λ i, i < length (schema_columns s)) idx.
Proof. induction 1; constructor; [by eapply column_index_lt|done]. Qed.

Lemma rows_bounded s rows idx :
  rows_wide (length (schema_columns s)) rows →
  Forall (λ i, i < length (schema_columns s)) idx →
  Forall (λ row, Forall (λ i, i < length row) idx) rows.
Proof. intros Hw Hidx. eapply Forall_impl; [exact Hw|]. cbn. by intros row ->. Qed.

Lemma existsb_is_null key : existsb is_null key = true ↔ VNull ∈ key.
Proof.
  rewrite existsb_true. split; [|by exists VNull]. intros (v & Hv & Hn). by destruct v.
Qed.

Lemma check_child_row_Ok fk parent cs ps row :
  length cs = length ps →
  Forall (λ i, i < length row) cs →
  Forall (λ prow, Forall (λ i, i < length prow) ps) (tb_rows parent) →
  check_child_row fk parent cs ps row = Ok tt ↔ fk_row_holds parent cs ps row.
Proof.
  intros Hlen Hcs Hps. unfold check_child_row, fk_row_holds.
  destruct (mapM_Ok_total (vec_index row) cs) as [key Hkey].
  { intros i Hi. rewrite Forall_forall in Hcs.
    destruct (lookup_lt_is_Some_2 row i (Hcs _ Hi)) as [v Hv]. exists v. by apply vec_index_Ok. }
  rewrite Hkey. cbn [mbind outcome_bind].
  pose proof (proj1 (mapM_Forall2_iff _ _ _ _ (λ x y, vec_index_Ok row x y)) Hkey) as Hf.
  assert (∀ key', Forall2 (λ i v, row !! i = Some v) cs key' → key' = key) as Hdet.
  { intros key' Hf'. apply (proj2 (mapM_Forall2_iff _ _ _ _ (λ x y, vec_index_Ok row x y))) in Hf'.
    congruence. }
  apply Forall2_length in Hf as Hkl.
  destruct (any_parent_Ok (tb_rows parent) ps key ltac:(congruence) Hps) as (b & -> & Hb).
  destruct (existsb is_null key) eqn:Hn.
  - apply existsb_is_null in Hn. split; [|done]. intros _. exists key. auto.
  - apply not_true_iff_false in Hn. rewrite existsb_is_null in Hn. cbn [mbind outcome_bind]. split.
    + destruct b; [|done]. intros _. exists key. split; [done|]. right. by apply Hb.
    + intros (key' & ->%Hdet & [?|Hp]); [done|]. by rewrite (proj2 Hb Hp).
Qed.

(** A foreign key relates as many columns as it refers to. *)
Definition fk_arity_ok (c : Catalog) : Prop :=
  ∀ name t fk, cat_tables c !! name = Some t → CForeignKey fk ∈ schema_constraints (tb_schema t) →
    length (fk_columns fk) = length (referred_columns fk).

Lemma check_foreign_key_Ok c t fk :
  catalog_wide c → table_wide t → length (fk_columns fk) = length (referred_columns fk) →
  check_foreign_key c t fk = Ok tt ↔ fk_holds c t fk.
Proof.
  intros Hc Ht Harity. unfold check_foreign_key, fk_holds.
  destruct (cat_tables c !! foreign_table fk) as [parent|] eqn:Hp;
    [cbn|split; [done|]; by intros (? & ? & ? & ? & _)].
  assert (∀ cs ps,
    Forall2 (λ name i, column_index (tb_schema t) name = Some i) (fk_columns fk) cs →
    Forall2 (λ name i, column_index (tb_schema parent) name = Some i) (referred_columns fk) ps →
    foldM (λ _ row, check_child_row fk parent cs ps row) tt (tb_rows t) = Ok tt ↔
    Forall (fk_row_holds parent cs ps) (tb_rows t)) as Hrows.
  { intros cs ps Hcs Hps. rewrite (foldM_unit (check_child_row fk parent cs ps)).
    apply Forall_ext'. intros row Hrow. apply check_child_row_Ok.
    - apply Forall2_length in Hcs, Hps. congruence.
    - pose proof (rows_bounded _ _ _ Ht (column_positions_lt _ _ _ Hcs)) as Hb.
      rewrite Forall_forall in Hb. auto.
    - eapply rows_bounded, column_positions_lt, Hps. by eapply Hc. }
  destruct (parent_is_unique parent fk) eqn:Hu;
    [|split; [done|]; intros (parent' & ? & ? & [= <-] & Hu' & _); congruence]. split.
  - intros Hok. apply bind_Ok in Hok as (cs & Hcs%column_positions_Ok & Hok).
    apply bind_Ok in Hok as (ps & Hps%column_positions_Ok & Hok). exists parent, cs, ps.
    split_and!; try done. by apply Hrows.
  - intros (parent' & cs & ps & [= <-] & _ & Hcs & Hps & Hall).
    rewrite (proj2 (column_positions_Ok _ _ _ _) Hcs). cbn.
    rewrite (proj2 (column_positions_Ok _ _ _ _) Hps). cbn. by apply Hrows.
Qed.

Lemma validate_table_Ok c t :
  Coherent t →
  validate_table c t = Ok tt ↔
  Forall (λ row, Forall2 fits row (schema_columns (tb_schema t))) (tb_rows t) ∧
  Forall (checks_hold c t) (tb_rows t) ∧ unique_holds t.
Proof.
  intros Hco. unfold validate_table. rewrite bind_Ok.
  rewrite <-(validate_unique_Ok t Hco).
  assert (foldM (λ _ row, _ ← validate_row (tb_schema t) row; validate_checks c t row) tt (tb_rows t)
    = Ok tt ↔
    Forall (λ row, Forall2 fits row (schema_columns (tb_schema t))) (tb_rows t) ∧
    Forall (checks_hold c t) (tb_rows t)) as Hrows.
  { rewrite <-Forall_and. rewrite (foldM_unit (λ row, _ ← validate_row (tb_schema t) row; validate_checks c t row)).
    apply Forall_ext'. intros row _. rewrite bind_Ok, <-validate_checks_Ok, <-(validate_row_Ok _ _ tt).
    split; [by intros ([] & ? & ?)|]. intros [? ?]. by exists tt. }
  split.
  - intros ([] & [? ?]%Hrows & ?). done.
  - intros (? & ? & ?). exists tt. split; [by apply Hrows|done].
Qed.

Lemma Forall_hm_values (P : Table → Prop) c :
  Forall P (hm_values (cat_tables c)) ↔ map_Forall (λ _ t, P t) (cat_tables c).
Proof.
  rewrite Forall_forall. setoid_rewrite elem_of_hm_values. unfold map_Forall. naive_solver.
Qed.

Lemma fits_wide t :
  Forall (λ row, Forall2 fits row (schema_columns (tb_schema t))) (tb_rows t) → table_wide t.
Proof. intros Hf. eapply Forall_impl; [exact Hf|]. intros row Hr. by apply Forall2_length in Hr. Qed.

Lemma validate_foreign_keys_Ok c :
  catalog_wide c → fk_arity_ok c →
  validate_foreign_keys c = Ok tt ↔
  map_Forall (λ _ t, ∀ fk, CForeignKey fk ∈ schema_constraints (tb_schema t) → fk_holds c t fk)
    (cat_tables c).
Proof.
  intros Hw Harity. unfold validate_foreign_keys.
  set (check t constraint := match constraint with
    | CForeignKey fk => check_foreign_key c t fk | _ => Ok tt end).
  etransitivity; [exact (foldM_unit (λ t, foldM (λ _ constraint, check t constraint) tt
    (schema_constraints (tb_schema t))) _)|].
  rewrite Forall_hm_values.
  unfold map_Forall.
  assert (∀ name t, cat_tables c !! name = Some t →
    foldM (λ _ constraint, check t constraint) tt (schema_constraints (tb_schema t)) = Ok tt ↔
    ∀ fk, CForeignKey fk ∈ schema_constraints (tb_schema t) → fk_holds c t fk) as Ht.
  { intros name t Hlk. rewrite (foldM_unit (check t)), Forall_forall.
    assert (∀ fk, CForeignKey fk ∈ schema_constraints (tb_schema t) →
      check_foreign_key c t fk = Ok tt ↔ fk_holds c t fk) as Hfk.
    { intros fk Hin. apply check_foreign_key_Ok; [done|by eapply Hw|by eapply Harity]. }
    split.
    - intros Hall fk Hin. apply (Hfk fk Hin), (Hall _ Hin).
    - intros Hall [| | |fk] Hin; try done. by apply (Hfk fk Hin), Hall. }
  split; intros Hall name t Hlk; by apply (Ht name t Hlk), (Hall name t Hlk).
Qed.

(** The validator accepts exactly the valid catalogs. *)
Lemma validate_catalog_Ok c :
  map_Forall (λ _ t, Coherent t) (cat_tables c) → fk_arity_ok c →
  validate_catalog c = Ok tt ↔ CatalogValid c.
Proof.
  intros Hco Harity. unfold validate_catalog. rewrite bind_Ok.
  assert (foldM (λ _ t, validate_table c t) tt (hm_values (cat_tables c)) = Ok tt ↔
    map_Forall (λ _ t, Forall (λ row, Forall2 fits row (schema_columns (tb_schema t))) (tb_rows t) ∧
      Forall (checks_hold c t) (tb_rows t) ∧ unique_holds t) (cat_tables c)) as Htables.
  { rewrite (foldM_unit (validate_table c)), Forall_hm_values. unfold map_Forall.
    split; intros Hall name t Hlk; by apply (validate_table_Ok c t (Hco name t Hlk)), (Hall name t Hlk). }
  assert (map_Forall (λ _ t, Forall (λ row, Forall2 fits row (schema_columns (tb_schema t))) (tb_rows t) ∧
      Forall (checks_hold c t) (tb_rows t) ∧ unique_holds t) (cat_tables c) → catalog_wide c) as Hwide.
  { intros Hall name t Hlk. apply fits_wide. by apply (Hall name t Hlk). }
  split.
  - intros ([] & Ht%Htables & Hfk).
    apply (validate_foreign_keys_Ok c (Hwide Ht) Harity) in Hfk.
    intros name t Hlk. destruct (Ht name t Hlk) as (H1 & H2 & H3). by split; [..|apply (Hfk name t Hlk)].
  - intros Hv. exists tt. assert (map_Forall (λ _ t,
      Forall (λ row, Forall2 fits row (schema_columns (tb_schema t))) (tb_rows t) ∧
      Forall (checks_hold c t) (tb_rows t) ∧ unique_holds t) (cat_tables c)) as Hall.
    { intros name t Hlk. by destruct (Hv name t Hlk). }
    split; [by apply Htables|]. apply (validate_foreign_keys_Ok c (Hwide Hall) Harity).
    intros name t Hlk. by destruct (Hv name t Hlk).
Qed.
End validation.

(** ** Properties *)

(** C7. On catalogs with coherent indexes whose foreign keys name as many columns
    as they refer to, the validator accepts exactly those in which every row is
    well typed, no CHECK is FALSE, no two rows share a NULL-free key of a unique
    index, and every foreign key without NULL finds a parent row in a table unique
    on the referenced columns. *)
Theorem validator_decides_validity `{RustStd} c :
  map_Forall (λ _ t, Coherent t) (cat_tables c) → fk_arity_ok c →
  validate_catalog c = Ok tt ↔ CatalogValid c.
Proof. apply validate_catalog_Ok. Qed.

Section validation_examples.
#[local] Existing Instance concrete_std.

Lemma demo_only name t :
  cat_tables (insert_table catalog_default "t" demo) !! name = Some t → t = demo.
Proof.
  change (((<["t" := demo]> ∅ : gmap string Table) !! name = Some t) → t = demo).
  intros [[_ <-]|[_ Hlk]]%lookup_insert_Some; [done|]. by rewrite lookup_empty in Hlk.
Qed.

Lemma validator_decides_validity_witness :
  validate_catalog (insert_table catalog_default "t" demo) = Ok tt ↔
  CatalogValid (insert_table catalog_default "t" demo).
Proof.
  apply validator_decides_validity.
  - intros name t Hlk%demo_only. subst t. apply demo_coherent.
  - intros name t fk Hlk%demo_only. subst t.
    replace (tb_schema demo) with demo_schema by (vm_compute; reflexivity).
    intros [=]%list_elem_of_singleton.
Defined.

(** A parent with a composite key and a child that refers to it by one column
    or by one column too many. *)
Definition parent_table (key : list string) (row : Row) : Table :=
  match insert_row_indexed (table_new
    {| schema_name := "p"; schema_columns := [column_new "x" TInteger; column_new "y" TInteger];
       schema_constraints := [CPrimaryKey None key];
       schema_indexes := [index_on "p_pk" key true] |}) row with
  | Ok t => t
  | _ => table_new (schema_new "p" [])
  end.
Definition child_table (columns referred : list string) (row : Row) : Table :=
  match insert_row_indexed (table_new
    {| schema_name := "c"; schema_columns := [column_new "a" TInteger; column_new "b" TInteger];
       schema_constraints := [CForeignKey {| fk_name := None; fk_columns := columns;
         foreign_table := "p"; referred_columns := referred |}];
       schema_indexes := [] |}) row with
  | Ok t => t
  | _ => table_new (schema_new "c" [])
  end.
Definition family (key columns referred : list string) (prow crow : Row) : Catalog :=
  insert_table (insert_table catalog_default "p" (parent_table key prow)) "c"
    (child_table columns referred crow).
Definition pair_row (a b : Z) : Row := [VInteger a; VInteger b].

(** The arity condition on foreign keys is needed: a key with fewer columns
    than it refers to makes validation panic as soon as a child row agrees with
    a parent on the columns there are, and one with more columns is accepted
    although the surplus column matches nothing. *)
Theorem foreign_key_arity_unchecked :
  validate_catalog (family ["x"; "y"] ["a"] ["x"; "y"] (pair_row 1 2) (pair_row 1 5)) = Panic ∧
  validate_catalog (family ["x"] ["a"; "b"] ["x"] (pair_row 1 2) (pair_row 1 5)) = Ok tt.
Proof. split; vm_compute; reflexivity. Qed.
End validation_examples.
