(* ===== verification/Ddl.v ===== *)
(** * Ddl.v: CREATE, DROP and ALTER (src/sql/executor.rs, 874-1532)

    Every statement that changes a schema.  A statement returns the catalog it
    leaves and an [ExecutionResult]; an error keeps the changes made before it,
    as in the source (the caller discards the catalog then, see Execute.v). *)

From S2P Require Import Prelude Machine Float64 Like Types Concrete Keys Table Eval Queries.
From S2P Require Import Statement Validate.

(** ** Results *)

Inductive ExecutionResult :=
| RSelect (r : ResultSet)
| RRowsAffected (n : nat)
| RTableCreated (name : string)
| RTableDropped (name : string)
| RIndexCreated (name : string)
| RIndexDropped (name : string)
| RTables (names : list string)
| RIndexes (indexes : list IndexDef)
| RTableDescription (table_name : string) (columns : list ColumnDef)
| RExplain (lines : list string)
| RTransactionStarted
| RTransactionCommitted
| RTransactionRolledBack
| RError (message : string).

Definition is_error (r : ExecutionResult) : bool := match r with RError _ => true | _ => false end.

(** A statement's catalog and result; a panic is neither. *)
Abbreviation Outcome := (outcome (Catalog * ExecutionResult)).

(** [match m { Ok(a) => k(a), Err(error) => return Error(error) }]. *)
Definition or_error {A} (c : Catalog) (m : outcome A) (k : A → Outcome) : Outcome :=
  match m with Ok a => k a | Err e => Ok (c, RError e) | Panic => Panic end.

(** ** Updating schemas *)

Definition with_columns (s : TableSchema) (columns : list ColumnDef) : TableSchema :=
  {| schema_name := schema_name s; schema_columns := columns;
     schema_constraints := schema_constraints s; schema_indexes := schema_indexes s |}.
Definition with_constraints (s : TableSchema) (constraints : list TableConstraint) : TableSchema :=
  {| schema_name := schema_name s; schema_columns := schema_columns s;
     schema_constraints := constraints; schema_indexes := schema_indexes s |}.
Definition with_indexes (s : TableSchema) (indexes : list IndexDef) : TableSchema :=
  {| schema_name := schema_name s; schema_columns := schema_columns s;
     schema_constraints := schema_constraints s; schema_indexes := indexes |}.

(** [iter_mut().find(p)] and an assignment to what it finds. *)
Definition update_first {A} (p : A → bool) (f : A → A) (l : list A) : list A :=
  match position p l with Some i => alter f i l | None => l end.

(** PRIMARY KEY makes its columns NOT NULL; the other flags say whether the key
    is this one column. *)
Definition mark_primary (key : list string) (columns : list ColumnDef) : list ColumnDef :=
  let single := bool_decide (length key = 1) in
  foldl (λ columns name,
    update_first (column_named name) (λ c, set_flags c false single single) columns) columns key.

Definition constraint_columns (c : TableConstraint) : list string :=
  match c with
  | CPrimaryKey _ columns | CUnique _ columns => columns
  | CForeignKey fk => fk_columns fk
  | CCheck _ _ => []
  end.

Definition constraint_name (c : TableConstraint) : option string :=
  match c with
  | CPrimaryKey name _ | CUnique name _ | CCheck name _ => name
  | CForeignKey fk => fk_name fk
  end.

Definition generated_constraint_name (table : string) (c : TableConstraint) : string :=
  match c with
  | CPrimaryKey name _ => unwrap_or name (table +:+ "_pk")
  | CUnique name columns => unwrap_or name (table +:+ "_" +:+ join_with "_" columns +:+ "_uk")
  | CForeignKey fk =>
      unwrap_or (fk_name fk) (table +:+ "_" +:+ join_with "_" (fk_columns fk) +:+ "_fk")
  | CCheck name _ => unwrap_or name (table +:+ "_check")
  end.

Definition is_primary (c : TableConstraint) : bool :=
  match c with CPrimaryKey _ _ => true | _ => false end.

(** [std::mem::discriminant]. *)
Definition constraint_kind (c : TableConstraint) : nat :=
  match c with CPrimaryKey _ _ => 0 | CUnique _ _ => 1 | CCheck _ _ => 2 | CForeignKey _ => 3 end.

(** ** CREATE TABLE *)

Section ddl.
Context `{RustStd}.

Fixpoint duplicate_column (seen : gset string) (columns : list ColumnDef) : option string :=
  match columns with
  | [] => None
  | c :: columns =>
      let name := to_ascii_lowercase (col_name c) in
      if bool_decide (name ∈ seen) then Some (col_name c)
      else duplicate_column ({[name]} ∪ seen) columns
  end.

(** The loop over the constraints: the flags of key columns, the number of
    primary keys, and the columns every constraint names. *)
Definition create_constraint (seen : gset string) (st : list ColumnDef * nat)
    (c : TableConstraint) : outcome (list ColumnDef * nat) :=
  let '(columns, primary_keys) := st in
  let st := match c with
            | CPrimaryKey _ key => (mark_primary key columns, S primary_keys)
            | _ => (columns, primary_keys)
            end in
  match c with
  | CCheck _ _ => Ok st
  | _ =>
      match find_first (λ column, negb (bool_decide (to_ascii_lowercase column ∈ seen)))
              (constraint_columns c) with
      | Some column => Err ("Unknown constrained column '" +:+ column +:+ "'")
      | None => Ok st
      end
  end.

Definition execute_create_table (c : Catalog) (table_name : string) (columns : list ColumnDef)
    (constraints : list TableConstraint) (if_not_exists : bool) : Outcome :=
  let name := to_ascii_lowercase table_name in
  match cat_tables c !! name with
  | Some _ =>
      Ok (c, if if_not_exists then RTableCreated name
             else RError ("Table '" +:+ name +:+ "' already exists"))
  | None =>
      match duplicate_column ∅ columns with
      | Some column => Ok (c, RError ("Duplicate column '" +:+ column +:+ "'"))
      | None =>
          let seen := list_to_set (to_ascii_lowercase ∘ col_name <$> columns) in
          or_error c (foldM (create_constraint seen) (columns, 0) constraints) (λ st,
            if decide (1 < st.2) then Ok (c, RError "A table may have only one PRIMARY KEY")
            else
              let s := with_constraints (schema_new name st.1) constraints in
              let s := with_indexes s (automatic_indexes s) in
              Ok (insert_table c name (table_new s), RTableCreated name))
      end
  end.

(** ** DROP TABLE, CREATE INDEX, DROP INDEX *)

Definition references_table (name : string) (c : TableConstraint) : bool :=
  match c with CForeignKey fk => eq_ignore_ascii_case (foreign_table fk) name | _ => false end.

Definition execute_drop_table (c : Catalog) (table_name : string) (if_exists : bool) : Outcome :=
  let name := to_ascii_lowercase table_name in
  match cat_tables c !! name with
  | None =>
      Ok (c, if if_exists then RTableDropped name
             else RError ("Table '" +:+ name +:+ "' does not exist"))
  | Some _ =>
      match find_first (λ nt : string * Table, negb (bool_decide (nt.1 = name))
              && existsb (references_table name) (schema_constraints (tb_schema nt.2)))
              (hm_iter (cat_tables c)) with
      | Some (other_name, _) =>
          Ok (c, RError ("Cannot drop table '" +:+ name +:+ "': referenced by table '"
                         +:+ other_name +:+ "'"))
      | None => Ok (set_tables c (delete name (cat_tables c)), RTableDropped name)
      end
  end.

Definition index_named (name : string) (i : IndexDef) : bool :=
  eq_ignore_ascii_case (index_name i) name.

Definition missing_table (table_name : string) : ExecutionResult :=
  RError ("Table '" +:+ table_name +:+ "' does not exist").

Definition execute_create_index (c : Catalog) (name table_name : string) (columns : list string)
    (unique if_not_exists : bool) : Outcome :=
  let table_name := to_ascii_lowercase table_name in
  match cat_tables c !! table_name with
  | None => Ok (c, missing_table table_name)
  | Some existing =>
      let s := tb_schema existing in
      if existsb (index_named name) (schema_indexes s) then
        Ok (c, if if_not_exists then RIndexCreated name
               else RError ("Index '" +:+ name +:+ "' already exists"))
      else if bool_decide (columns = []) then
        Ok (c, RError "An index requires at least one column")
      else
        match find_first (λ column, bool_decide (column_index s column = None)) columns with
        | Some column => Ok (c, RError ("Unknown column '" +:+ column +:+ "'"))
        | None =>
            let d := {| index_name := to_ascii_lowercase name; index_columns := columns;
                        index_unique := unique; index_automatic := false |} in
            let t := rebuild_index
              (with_schema existing (with_indexes s (schema_indexes s ++ [d]))) in
            or_error c (validate_unique_indexes t)
              (λ _, Ok (insert_table c table_name t, RIndexCreated name))
        end
  end.

(** [Vec::remove(i)] for a position inside the vector. *)
Definition remove_at {A} (i : nat) (l : list A) : list A := take i l ++ drop (S i) l.

Definition execute_drop_index (c : Catalog) (name table_name : string) (if_exists : bool) : Outcome :=
  let table_name := to_ascii_lowercase table_name in
  match cat_tables c !! table_name with
  | None => Ok (c, missing_table table_name)
  | Some existing =>
      let s := tb_schema existing in
      match position (index_named name) (schema_indexes s) with
      | None =>
          Ok (c, if if_exists then RIndexDropped name
                 else RError ("Index '" +:+ name +:+ "' does not exist"))
      | Some i =>
          d ← vec_index (schema_indexes s) i;
          if index_automatic d then
            Ok (c, RError ("Cannot drop index '" +:+ name +:+ "': required by a constraint"))
          else
            let t := rebuild_index
              (with_schema existing (with_indexes s (remove_at i (schema_indexes s)))) in
            Ok (insert_table c table_name t, RIndexDropped name)
      end
  end.

(** ** ALTER TABLE *)

(** [refresh_constraint_metadata]: flags from the constraints, automatic
    indexes before the manual ones, and a rebuild. *)
Definition refresh_constraint (columns : list ColumnDef) (c : TableConstraint) : list ColumnDef :=
  match c with
  | CPrimaryKey _ key => mark_primary key columns
  | CUnique _ [name] => update_first (column_named name) column_set_unique columns
  | _ => columns
  end.

Definition refresh_schema (s : TableSchema) : TableSchema :=
  let cleared := (λ c, set_flags c (col_nullable c) false false) <$> schema_columns s in
  let s := with_columns s (foldl refresh_constraint cleared (schema_constraints s)) in
  let manual := filter (λ i, negb (index_automatic i)) (schema_indexes s) in
  with_indexes s (automatic_indexes s ++ manual).

Definition refresh_constraint_metadata (t : Table) : Table :=
  rebuild_index (with_schema t (refresh_schema (tb_schema t))).

Definition rename_names (old new : string) (names : list string) : list string :=
  (λ n, if eq_ignore_ascii_case n old then new else n) <$> names.

Fixpoint rename_expr (old new : string) (e : Expr) : Expr :=
  match e with
  | EColumn q name => EColumn q (if eq_ignore_ascii_case name old then new else name)
  | EBinary l op r => EBinary (rename_expr old new l) op (rename_expr old new r)
  | EUnary op e => EUnary op (rename_expr old new e)
  | EIsNull e negated => EIsNull (rename_expr old new e) negated
  | ELike e p negated => ELike (rename_expr old new e) (rename_expr old new p) negated
  | EInList e items negated =>
      EInList (rename_expr old new e) (map (rename_expr old new) items) negated
  | other => other
  end.

Definition rename_constraint (table old new : string) (c : TableConstraint) : TableConstraint :=
  match c with
  | CPrimaryKey name columns => CPrimaryKey name (rename_names old new columns)
  | CUnique name columns => CUnique name (rename_names old new columns)
  | CForeignKey fk =>
      CForeignKey {| fk_name := fk_name fk; fk_columns := rename_names old new (fk_columns fk);
        foreign_table := foreign_table fk;
        referred_columns := if eq_ignore_ascii_case (foreign_table fk) table
                            then rename_names old new (referred_columns fk)
                            else referred_columns fk |}
  | CCheck name e => CCheck name (rename_expr old new e)
  end.

Definition rename_schema_references (s : TableSchema) (old new : string) : TableSchema :=
  {| schema_name := schema_name s; schema_columns := schema_columns s;
     schema_constraints := rename_constraint (schema_name s) old new <$> schema_constraints s;
     schema_indexes := (λ i, {| index_name := index_name i;
       index_columns := rename_names old new (index_columns i);
       index_unique := index_unique i; index_automatic := index_automatic i |})
       <$> schema_indexes s |}.

(** Foreign keys of other tables that follow a renamed column. *)
Definition rename_referred (table old new : string) (c : TableConstraint) : TableConstraint :=
  match c with
  | CForeignKey fk =>
      if eq_ignore_ascii_case (foreign_table fk) table then
        CForeignKey {| fk_name := fk_name fk; fk_columns := fk_columns fk;
          foreign_table := foreign_table fk;
          referred_columns := rename_names old new (referred_columns fk) |}
      else c
  | c => c
  end.

Definition refers_to_column (table name : string) (c : TableConstraint) : bool :=
  match c with
  | CForeignKey fk => eq_ignore_ascii_case (foreign_table fk) table
      && existsb (λ column, eq_ignore_ascii_case column name) (referred_columns fk)
  | _ => false
  end.

(** The loop over the other tables touches each at its own key only, so its
    order does not matter. *)
Definition rename_in_others (table old new : string) (tables : gmap string Table) :
    gmap string Table :=
  map_imap (λ other_name other, Some
    (if bool_decide (other_name = table) then other
     else if existsb (refers_to_column table old) (schema_constraints (tb_schema other)) then
       refresh_constraint_metadata (with_schema other (with_constraints (tb_schema other)
         (rename_referred table old new <$> schema_constraints (tb_schema other))))
     else other)) tables.

Fixpoint validate_expr_columns (s : TableSchema) (e : Expr) : outcome () :=
  match e with
  | EColumn _ name =>
      if bool_decide (column_index s name = None) then Err ("Unknown column '" +:+ name +:+ "'")
      else Ok tt
  | EBinary l _ r => _ ← validate_expr_columns s l; validate_expr_columns s r
  | EUnary _ e | EIsNull e _ => validate_expr_columns s e
  | ELike e p _ => _ ← validate_expr_columns s e; validate_expr_columns s p
  | EInList e items _ =>
      _ ← validate_expr_columns s e;
      foldM (λ _ item, validate_expr_columns s item) tt items
  | _ => Ok tt
  end.

Definition column_missing (name : string) : string := "Column '" +:+ name +:+ "' does not exist".

(** Coercing the values of one column in every row. *)
Definition coerce_column (i : nat) (d : DataType) (message : string) (rows : list Row) :
    outcome (list Row) :=
  mapM (λ row, v ← vec_index row i; w ← ok_or (coerce_to v d) message;
               Ok (<[i := w]> row)) rows.

(** The column list of a schema changed in place. *)
Definition map_columns (t : Table) (f : list ColumnDef → list ColumnDef) : Table :=
  with_schema t (with_columns (tb_schema t) (f (schema_columns (tb_schema t)))).
Definition set_rows (t : Table) (rows : list Row) : Table := with_rows t rows (tb_row_ids t).

Definition alter_add_column (t : Table) (column : ColumnDef) (constraints : list TableConstraint)
    (if_not_exists : bool) : outcome (option Table) :=
  if bool_decide (is_Some (column_index (tb_schema t) (col_name column))) then
    if if_not_exists then Ok None else Err ("Column '" +:+ col_name column +:+ "' already exists")
  else
    v ← ok_or (coerce_to (unwrap_or (col_default column) VNull) (col_type column))
      ("Default for column '" +:+ col_name column +:+ "' cannot be converted to "
       +:+ data_type_display (col_type column));
    if is_null v && negb (col_nullable column) && negb (bool_decide (tb_rows t = [])) then
      Err ("Column '" +:+ col_name column +:+ "' cannot be NULL")
    else
      let t := set_rows t ((λ row, row ++ [v]) <$> tb_rows t) in
      let s := with_columns (tb_schema t) (schema_columns (tb_schema t) ++ [column]) in
      Ok (Some (with_schema t (with_constraints s (schema_constraints s ++ constraints)))).

Definition mentions_column (name : string) (columns : list string) : bool :=
  existsb (λ column, eq_ignore_ascii_case column name) columns.

Definition column_referenced (c : Catalog) (table_name : string) (t : Table) (name : string) : bool :=
  existsb (λ k, mentions_column name (constraint_columns k)) (schema_constraints (tb_schema t))
  || existsb (λ i, mentions_column name (index_columns i)) (schema_indexes (tb_schema t))
  || existsb (λ nt : string * Table, negb (bool_decide (nt.1 = table_name))
       && existsb (refers_to_column table_name name) (schema_constraints (tb_schema nt.2)))
       (hm_iter (cat_tables c)).

Definition alter_drop_column (c : Catalog) (table_name : string) (t : Table) (name : string)
    (if_exists : bool) : outcome (option Table) :=
  match column_index (tb_schema t) name with
  | None => if if_exists then Ok None else Err (column_missing name)
  | Some i =>
      if decide (length (schema_columns (tb_schema t)) = 1) then
        Err "Cannot drop the final column of a table"
      else if column_referenced c table_name t name then
        Err ("Cannot drop column '" +:+ name +:+ "': referenced by an index or constraint")
      else
        rows ← mapM (λ row, _ ← vec_index row i; Ok (remove_at i row)) (tb_rows t);
        Ok (Some (set_rows (map_columns t (remove_at i)) rows))
  end.

Definition alter_modify_column (t : Table) (old_name : string) (column : ColumnDef)
    (constraints : list TableConstraint) : outcome Table :=
  i ← ok_or (column_index (tb_schema t) old_name) (column_missing old_name);
  s ← (if eq_ignore_ascii_case old_name (col_name column) then Ok (tb_schema t)
       else if bool_decide (is_Some (column_index (tb_schema t) (col_name column))) then
         Err ("Column '" +:+ col_name column +:+ "' already exists")
       else Ok (rename_schema_references (tb_schema t) old_name (col_name column)));
  rows ← coerce_column i (col_type column)
    ("Value in column '" +:+ old_name +:+ "' cannot be converted to "
     +:+ data_type_display (col_type column)) (tb_rows t);
  let s := with_columns s (<[i := column]> (schema_columns s)) in
  let added := foldl (λ existing k,
    if existsb (λ e, bool_decide (constraint_kind e = constraint_kind k)
        && bool_decide (constraint_columns e = constraint_columns k)) existing
    then existing else existing ++ [k]) (schema_constraints s) constraints in
  Ok (with_schema (set_rows t rows) (with_constraints s added)).

Definition alter_set_default (t : Table) (column : string) (value : option Value) : outcome Table :=
  i ← ok_or (column_index (tb_schema t) column) (column_missing column);
  col ← vec_index (schema_columns (tb_schema t)) i;
  value ← match value with
          | Some v => w ← ok_or (coerce_to v (col_type col))
                        ("Default for column '" +:+ column +:+ "' has an incompatible type");
                      Ok (Some w)
          | None => Ok None
          end;
  Ok (map_columns t (alter (λ c, set_default c value) i)).

Definition alter_set_nullable (t : Table) (column : string) (nullable : bool) : outcome Table :=
  i ← ok_or (column_index (tb_schema t) column) (column_missing column);
  col ← vec_index (schema_columns (tb_schema t)) i;
  if nullable && col_primary_key col then Err "PRIMARY KEY columns cannot be nullable"
  else
    _ ← (if nullable then Ok tt
         else foldM (λ _ row, v ← vec_index row i;
                if is_null v then Err ("Column '" +:+ column +:+ "' contains NULL values")
                else Ok tt) tt (tb_rows t));
    Ok (map_columns t (alter (λ c, set_flags c nullable (col_primary_key c) (col_unique c)) i)).

Definition alter_set_data_type (t : Table) (column : string) (d : DataType) : outcome Table :=
  i ← ok_or (column_index (tb_schema t) column) (column_missing column);
  rows ← coerce_column i d ("Value in column '" +:+ column +:+ "' cannot be converted to "
                            +:+ data_type_display d) (tb_rows t);
  col ← vec_index (schema_columns (tb_schema t)) i;
  default ← match col_default col with
            | Some v => w ← ok_or (coerce_to v d) ("Default in column '" +:+ column
                          +:+ "' cannot be converted to " +:+ data_type_display d);
                        Ok (Some w)
            | None => Ok None
            end;
  Ok (map_columns (set_rows t rows) (alter (λ c, set_type (set_default c default) d) i)).

Definition alter_add_constraint (t : Table) (k : TableConstraint) : outcome Table :=
  let s := tb_schema t in
  _ ← match constraint_name k with
      | Some name =>
          if existsb (λ e, is_some_and (λ n, eq_ignore_ascii_case n name) (constraint_name e))
               (schema_constraints s)
          then Err ("Constraint '" +:+ name +:+ "' already exists") else Ok tt
      | None => Ok tt
      end;
  if is_primary k && existsb is_primary (schema_constraints s) then
    Err "A table may have only one PRIMARY KEY"
  else
    _ ← foldM (λ _ column,
          if bool_decide (column_index s column = None)
          then Err ("Unknown constrained column '" +:+ column +:+ "'") else Ok tt)
          tt (constraint_columns k);
    _ ← match k with CCheck _ e => validate_expr_columns s e | _ => Ok tt end;
    Ok (with_schema t (with_constraints s (schema_constraints s ++ [k]))).

Definition alter_drop_constraint (t : Table) (name : string) (if_exists : bool) : outcome Table :=
  let s := tb_schema t in
  match position (λ k, is_some_and (λ n, eq_ignore_ascii_case n name) (constraint_name k)
          || eq_ignore_ascii_case (generated_constraint_name (schema_name s) k) name)
          (schema_constraints s) with
  | Some i => Ok (with_schema t (with_constraints s (remove_at i (schema_constraints s))))
  | None => if if_exists then Ok t else Err ("Constraint '" +:+ name +:+ "' does not exist")
  end.

Definition alter_drop_primary_key (t : Table) : outcome Table :=
  let s := tb_schema t in
  i ← ok_or (position is_primary (schema_constraints s)) "PRIMARY KEY does not exist";
  Ok (with_schema t (with_constraints s (remove_at i (schema_constraints s)))).

Definition alter_rename_column (c : Catalog) (table_name : string) (t : Table)
    (old_name new_name : string) : outcome (Catalog * Table) :=
  if bool_decide (is_Some (column_index (tb_schema t) new_name)) then
    Err ("Column '" +:+ new_name +:+ "' already exists")
  else
    i ← ok_or (column_index (tb_schema t) old_name) (column_missing old_name);
    let t := map_columns t (alter (λ c, set_name c new_name) i) in
    let t := with_schema t (rename_schema_references (tb_schema t) old_name new_name) in
    Ok (set_tables c (rename_in_others table_name old_name new_name (cat_tables c)), t).

(** An operation that ends in [return Ok(())] (IF EXISTS, IF NOT EXISTS) skips
    the final refresh; the others refresh. *)
Definition refreshed (c : Catalog) (t : outcome Table) : outcome (Catalog * Table) :=
  t ← t; Ok (c, refresh_constraint_metadata t).
Definition refreshed_opt (c : Catalog) (t : Table) (t' : outcome (option Table)) :
    outcome (Catalog * Table) :=
  o ← t'; Ok (c, match o with Some t' => refresh_constraint_metadata t' | None => t end).

Definition apply_alter_operation (c : Catalog) (table_name : string) (t : Table)
    (op : AlterOperation) : outcome (Catalog * Table) :=
  match op with
  | AddColumn column constraints if_not_exists =>
      refreshed_opt c t (alter_add_column t column constraints if_not_exists)
  | DropColumn name if_exists => refreshed_opt c t (alter_drop_column c table_name t name if_exists)
  | RenameColumn old_name new_name =>
      '(c, t) ← alter_rename_column c table_name t old_name new_name; refreshed c (Ok t)
  | ModifyColumn old_name column constraints =>
      refreshed c (alter_modify_column t old_name column constraints)
  | SetDefault column value => refreshed c (alter_set_default t column value)
  | SetNullable column nullable => refreshed c (alter_set_nullable t column nullable)
  | SetDataType column d => refreshed c (alter_set_data_type t column d)
  | AddConstraint k => refreshed c (alter_add_constraint t k)
  | DropConstraint name if_exists => refreshed c (alter_drop_constraint t name if_exists)
  | DropPrimaryKey => refreshed c (alter_drop_primary_key t)
  end.

(** The loop over the operations: a failing one leaves the catalog the earlier
    ones made. *)
Fixpoint alter_loop (c : Catalog) (name : string) (t : Table) (ops : list AlterOperation) : Outcome :=
  match ops with
  | [] => Ok (insert_table c name (refresh_constraint_metadata t), RRowsAffected 0)
  | op :: ops =>
      or_error c (apply_alter_operation c name t op)
        (λ ct : Catalog * Table, alter_loop ct.1 name ct.2 ops)
  end.

Definition execute_alter_table (c : Catalog) (table_name : string) (ops : list AlterOperation) :
    Outcome :=
  let name := to_ascii_lowercase table_name in
  match cat_tables c !! name with
  | None => Ok (c, missing_table name)
  | Some t => alter_loop c name t ops
  end.
End ddl.
