(* ===== verification/Execute.v ===== *)
(** * Execute.v: INSERT, UPDATE, DELETE and the statement dispatcher
    (src/sql/executor.rs, 719-872, 1534-1839, 2962-3006)

    Data statements, EXPLAIN, [execute_statement] and its two transactional
    wrappers: [execute_catalog], which works on a copy and discards it on any
    error, and [Executor::execute], which also numbers the versions. *)

From S2P Require Import Prelude Machine Float64 Like Types Concrete Keys Table Eval Queries.
From S2P Require Import Statement Planner Validate Ddl.

(** [{:?}] of a statement, which EXPLAIN prints for utility statements. *)
Class StatementDebug := debug_statement : Statement → string.

Section execute.
Context `{RustStd}.

(** ** INSERT *)

(** The loop over an explicit column list: each named column takes its value,
    once. *)
Fixpoint place_named (s : TableSchema) (pairs : list (string * Value)) (used : gset nat)
    (ordered : Row) : outcome Row :=
  match pairs with
  | [] => Ok ordered
  | (column, v) :: pairs =>
      i ← ok_or (column_index s column) ("Unknown column '" +:+ column +:+ "'");
      if bool_decide (i ∈ used) then Err ("Duplicate column '" +:+ column +:+ "'")
      else place_named s pairs ({[i]} ∪ used) (<[i := v]> ordered)
  end.

Definition arrange (s : TableSchema) (columns : option (list string)) (raw : Row) : outcome Row :=
  let n := length (schema_columns s) in
  match columns with
  | Some columns =>
      if decide (length columns = length raw) then
        place_named s (zip columns raw) ∅ (nulls n)
      else Err ("Column count (" +:+ pretty (length columns) +:+ ") doesn't match value count ("
                +:+ pretty (length raw) +:+ ")")
  | None =>
      if decide (length raw = n) then Ok raw
      else Err ("Expected " +:+ pretty n +:+ " values, got " +:+ pretty (length raw))
  end.

(** A NULL takes the column's default; a value that converts to the column's
    type is converted, any other is left for validation to reject. *)
Definition complete_value (v : Value) (c : ColumnDef) : Value :=
  let v := if is_null v then unwrap_or (col_default c) v else v in
  unwrap_or (coerce_to v (col_type c)) v.

Definition build_row (s : TableSchema) (columns : option (list string)) (expressions : list Expr) :
    outcome Row :=
  raw ← mapM eval_constant expressions;
  ordered ← arrange s columns raw;
  Ok (zip_with complete_value ordered (schema_columns s)).

Fixpoint bind_incoming (s : TableSchema) (incoming : Row) (e : Expr) : Expr :=
  match e with
  | EIncoming column => ELiteral (unwrap_or (i ← column_index s column; incoming !! i) VNull)
  | EBinary l op r => EBinary (bind_incoming s incoming l) op (bind_incoming s incoming r)
  | EUnary op e => EUnary op (bind_incoming s incoming e)
  | EIsNull e negated => EIsNull (bind_incoming s incoming e) negated
  | ELike e p negated => ELike (bind_incoming s incoming e) (bind_incoming s incoming p) negated
  | EInList e items negated =>
      EInList (bind_incoming s incoming e) (map (bind_incoming s incoming) items) negated
  | other => other
  end.

(** One assignment of ON DUPLICATE KEY UPDATE; it sees the row as updated so
    far.  A subquery in it is evaluated afresh: the program may find the result
    of an earlier assignment's subquery under the same address. *)
Definition duplicate_assignment (c : Catalog) (t : Table) (name : string) (row updated : Row)
    (a : string * Expr) : outcome Row :=
  i ← ok_or (column_index (tb_schema t) a.1) ("Unknown column '" +:+ a.1 +:+ "'");
  let bound := bind_incoming (tb_schema t) row a.2 in
  v ← eval_expr c bound (table_columns t name) updated None ∅;
  col ← vec_index (schema_columns (tb_schema t)) i;
  vec_set updated i (unwrap_or (coerce_to v (col_type col)) v).

Definition duplicate_update (c : Catalog) (name : string) (t : Table) (position : nat)
    (row : Row) (on_duplicate : list (string * Expr)) : outcome (Table * nat) :=
  current ← vec_index (tb_rows t) position;
  updated ← foldM (duplicate_assignment c t name row) current on_duplicate;
  if values_eqb updated current then Ok (t, 0)
  else t ← replace_row_indexed t position updated; Ok (t, 2).

(** One row of the second loop: insert, reject or update in place. *)
Definition insert_one (c : Catalog) (name : string) (on_duplicate : list (string * Expr))
    (st : Table * nat) (row : Row) : outcome (Table * nat) :=
  let '(t, count) := st in
  match elements (unique_conflict_positions t row) with
  | [] => t ← insert_row_indexed t row; Ok (t, count + 1)
  | conflicts =>
      match on_duplicate, conflicts with
      | [], _ => Err "Duplicate entry for PRIMARY or UNIQUE key"
      | _, [position] =>
          r ← duplicate_update c name t position row on_duplicate;
          let '(t, n) := r : Table * nat in
          Ok (t, count + n)
      | _, _ => Err "ON DUPLICATE KEY matched multiple destination rows"
      end
  end.

(** Storing the table and checking the whole catalog: the catalog keeps the
    table even when the check fails. *)
Definition store_and_validate (c : Catalog) (name : string) (t : Table) (count : nat) : Outcome :=
  let c := insert_table c name t in
  or_error c (validate_catalog c) (λ _, Ok (c, RRowsAffected count)).

Definition source_rows (c : Catalog) (source : InsertSource) : outcome (list (list Expr)) :=
  match source with
  | InsertValues rows => Ok rows
  | InsertQuery q => r ← execute_query c q ∅; Ok (map ELiteral <$> rel_rows r)
  end.

Definition execute_insert (c : Catalog) (table_name : string) (columns : option (list string))
    (source : InsertSource) (on_duplicate : list (string * Expr)) : Outcome :=
  let name := to_ascii_lowercase table_name in
  or_error c (source_rows c source) (λ values,
    match cat_tables c !! name with
    | None => Ok (c, missing_table name)
    | Some t =>
        or_error c (mapM (build_row (tb_schema t) columns) values) (λ rows,
          or_error c (foldM (insert_one c name on_duplicate) (t, 0) rows) (λ st : Table * nat,
            store_and_validate c name st.1 st.2))
    end).

(** ** UPDATE *)

Definition selected (c : Catalog) (columns : list BoundColumn) (selection : option Expr) (row : Row) :
    outcome bool :=
  match selection with
  | Some e => v ← eval_expr c e columns row None ∅; Ok (bool_decide (truth v = STrue))
  | None => Ok true
  end.

(** Every assignment sees the original row. *)
Definition update_assignment (c : Catalog) (t : Table) (columns : list BoundColumn) (original : Row)
    (row : Row) (a : string * Expr) : outcome Row :=
  i ← ok_or (column_index (tb_schema t) a.1) ("Unknown column '" +:+ a.1 +:+ "'");
  v ← eval_expr c a.2 columns original None ∅;
  col ← vec_index (schema_columns (tb_schema t)) i;
  w ← ok_or (coerce_to v (col_type col)) ("Type mismatch for column '" +:+ a.1 +:+ "'");
  vec_set row i w.

(** One row of the loop, with whether it was updated. *)
Definition update_row (c : Catalog) (t : Table) (name : string) (ids : option (gset N))
    (assignments : list (string * Expr)) (selection : option Expr) (pr : nat * Row) :
    outcome (Row * bool) :=
  let '(position, row) := pr in
  if is_candidate t ids position then
    matches ← selected c (table_columns t name) selection row;
    if matches : bool then
      row' ← foldM (update_assignment c t (table_columns t name) row) row assignments;
      Ok (row', true)
    else Ok (row, false)
  else Ok (row, false).

Definition execute_update (c : Catalog) (table_name : string) (assignments : list (string * Expr))
    (selection : option Expr) : Outcome :=
  let name := to_ascii_lowercase table_name in
  match cat_tables c !! name with
  | None => Ok (c, missing_table name)
  | Some t =>
      let ids := (candidate_row_ids t selection).1 in
      or_error c (mapM (update_row c t name ids assignments selection) (imap pair (tb_rows t)))
        (λ results,
          store_and_validate c name (rebuild_index (set_rows t results.*1))
            (length (filter (λ r : Row * bool, r.2) results)))
  end.

(** ** DELETE *)

Definition delete_row (c : Catalog) (t : Table) (name : string) (ids : option (gset N))
    (selection : option Expr) (st : list Row * list N * nat) (pr : nat * Row) :
    outcome (list Row * list N * nat) :=
  let '(rows, row_ids, deleted) := st in
  let '(position, row) := pr in
  let keep := id ← vec_index (tb_row_ids t) position; Ok (rows ++ [row], row_ids ++ [id], deleted) in
  if is_candidate t ids position then
    matches ← selected c (table_columns t name) selection row;
    if matches : bool then Ok (rows, row_ids, S deleted) else keep
  else keep.

Definition execute_delete (c : Catalog) (table_name : string) (selection : option Expr) : Outcome :=
  let name := to_ascii_lowercase table_name in
  match cat_tables c !! name with
  | None => Ok (c, missing_table name)
  | Some t =>
      let ids := (candidate_row_ids t selection).1 in
      or_error c (foldM (delete_row c t name ids selection) ([], [], 0) (imap pair (tb_rows t)))
        (λ st : list Row * list N * nat,
          let '(rows, row_ids, deleted) := st in
          store_and_validate c name (rebuild_index (with_rows t rows row_ids)) deleted)
  end.

(** ** EXPLAIN *)

Definition explain_query (c : Catalog) (q : Query) : list string := explain_lines (plan c q).

Definition explain_scan (c : Catalog) (table_name : string) (selection : option Expr) : list string :=
  match cat_tables c !! to_ascii_lowercase table_name with
  | Some t =>
      match (candidate_row_ids t selection).2 with
      | Some index => ["IndexScan(table=" +:+ table_name +:+ ", index=" +:+ index +:+ ", bloom=true)"]
      | None => ["SeqScan(table=" +:+ table_name +:+ ")"]
      end
  | None => ["MissingTable(" +:+ table_name +:+ ")"]
  end.

Definition explain_statement `{StatementDebug} (c : Catalog) (s : Statement) : list string :=
  match s with
  | SelectQuery q => explain_query c q
  | Update table_name _ selection | Delete table_name selection => explain_scan c table_name selection
  | Insert table_name _ _ _ => ["Insert(table=" +:+ table_name +:+ ")"]
  | CreateIndex name table_name columns _ _ =>
      ["CreateBTreeIndex(name=" +:+ name +:+ ", table=" +:+ table_name +:+ ", columns="
       +:+ join_with "," columns +:+ ")"]
  | other => ["Utility(" +:+ debug_statement other +:+ ")"]
  end.

(** ** The dispatcher *)

(** [names.sort()]. *)
Definition sort_strings (l : list string) : list string :=
  merge_sort (λ a b, String.compare a b ≠ Gt) l.

Definition session_only : string := "Prepared statements and user variables require a session".

Definition execute_statement `{StatementDebug} (c : Catalog) (s : Statement) : Outcome :=
  match s with
  | CreateTable table_name columns constraints if_not_exists =>
      execute_create_table c table_name columns constraints if_not_exists
  | DropTable table_name if_exists => execute_drop_table c table_name if_exists
  | CreateIndex name table_name columns unique if_not_exists =>
      execute_create_index c name table_name columns unique if_not_exists
  | DropIndex name table_name if_exists => execute_drop_index c name table_name if_exists
  | AlterTable table_name operations => execute_alter_table c table_name operations
  | Insert table_name columns source on_duplicate =>
      execute_insert c table_name columns source on_duplicate
  | SelectQuery q =>
      or_error c (execute_query c q ∅) (λ r, Ok (c, RSelect (relation_to_result r)))
  | Update table_name assignments selection => execute_update c table_name assignments selection
  | Delete table_name selection => execute_delete c table_name selection
  | ShowTables => Ok (c, RTables (sort_strings (hm_keys (cat_tables c))))
  | ShowIndexes table_name =>
      Ok (c, match cat_tables c !! to_ascii_lowercase table_name with
             | Some t => RIndexes (schema_indexes (tb_schema t))
             | None => missing_table table_name
             end)
  | DescribeTable table_name =>
      Ok (c, match cat_tables c !! to_ascii_lowercase table_name with
             | Some t => RTableDescription (schema_name (tb_schema t)) (schema_columns (tb_schema t))
             | None => missing_table table_name
             end)
  | Explain s => Ok (c, RExplain (explain_statement c s))
  | Begin | Commit | Rollback => Ok (c, RError "Transaction control requires a session")
  | SetVariable _ _ | Prepare _ _ | ExecutePrepared _ _ | DeallocatePrepared _ =>
      Ok (c, RError session_only)
  end.

(** [Executor::execute_catalog]: a write works on a copy of the catalog, which
    replaces the catalog only when the statement succeeded and the result
    validates. *)
Definition execute_catalog `{StatementDebug} (c : Catalog) (s : Statement) : Outcome :=
  if is_write_statement s then
    '(working, result) ← execute_statement c s;
    if is_error result then Ok (c, result)
    else or_error c (validate_catalog working) (λ _, Ok (working, result))
  else execute_statement c s.

(** [Executor::execute] under the catalog lock. *)
Definition execute `{StatementDebug} (c : Catalog) (s : Statement) : Outcome :=
  if is_transaction_control s then
    Ok (c, RError "Transaction control requires SQLDatabase::session()")
  else if is_write_statement s then
    '(working, result) ← execute_catalog c s;
    if is_error result then Ok (c, result)
    else Ok ({| cat_version := sat_succ (cat_version c);
                cat_schema_version := cat_schema_version working;
                cat_tables := cat_tables working |}, result)
  else
    '(_, result) ← execute_statement c s; Ok (c, result).
End execute.
