(* ===== verification/Integrity.v ===== *)
(** * Integrity.v: statements keep the catalog coherent and valid

    Every statement leaves every table with coherent indexes; a write that
    reports success through [execute_catalog] leaves a valid catalog, and one
    that reports an error leaves the catalog untouched. *)

From S2P Require Import Prelude Machine Float64 Like Types Concrete Keys Table Eval Queries Rows.
From S2P Require Import Statement Planner Validate Ddl Execute.

(** ** Generic facts *)

(** A loop over the enumerated elements, with an invariant indexed by the
    position reached. *)
Lemma foldM_imap_inv {A B} (P : nat → B → Prop) (f : B → nat * A → outcome B) l acc res :
  P 0 acc →
  (∀ i x acc acc', l !! i = Some x → P i acc → f acc (i, x) = Ok acc' → P (S i) acc') →
  foldM f acc (imap pair l) = Ok res → P (length l) res.
Proof.
  intros H0 Hstep.
  enough (∀ k l0 acc, (∀ i x, l0 !! i = Some x → l !! (k + i) = Some x) → P k acc →
    foldM f acc (imap (λ i, pair (k + i)) l0) = Ok res → P (k + length l0) res) as Hgen.
  { intros Hf. by apply (Hgen 0 l acc). }
  clear H0 acc. intros k l0. revert k. induction l0 as [|x l0 IH]; intros k acc Hl Hk Hf.
  - cbn in Hf. injection Hf as <-. by rewrite Nat.add_0_r.
  - rewrite imap_cons, foldM_cons, Nat.add_0_r in Hf. apply bind_Ok in Hf as (acc' & Hs & Hf).
    cbn [length]. rewrite <-Nat.add_succ_comm. apply (IH (S k) acc').
    + intros i y Hi. rewrite Nat.add_succ_comm. by apply (Hl (S i)).
    + eapply Hstep; [|done..]. rewrite <-(Nat.add_0_r k). by apply (Hl 0).
    + rewrite <-Hf. f_equal. apply imap_ext. intros i y _. cbn. f_equal. lia.
Qed.

Lemma StronglySorted_sublist {A} (R : A → A → Prop) l k :
  l `sublist_of` k → StronglySorted R k → StronglySorted R l.
Proof.
  induction 1 as [|x l k Hs IH|x l k Hs IH]; [done|..]; intros [Hk Hx]%StronglySorted_inv; [|auto].
  constructor; [auto|]. rewrite Forall_forall in *. intros y Hy. apply Hx. by eapply elem_of_sublist.
Qed.

Lemma sublist_take_S {A} k (l : list A) : take k l `sublist_of` take (S k) l.
Proof. replace (take k l) with (take k (take (S k) l)); [apply sublist_take|]. rewrite take_take. f_equal. lia. Qed.

Section integrity.
Context `{RustStd}.

(** ** Row identifiers through schema changes *)

(** The table has the row identifiers of another, and as many rows. *)
Definition ids_same (t t' : Table) : Prop :=
  tb_row_ids t' = tb_row_ids t ∧ tb_next_row_id t' = tb_next_row_id t ∧
  length (tb_rows t') = length (tb_rows t).

Lemma ids_same_ok t t' : ids_same t t' → ids_ok t → ids_ok t'.
Proof. intros (Hi & Hn & Hl) [H1 H2 H3]. constructor; rewrite ?Hi, ?Hn, ?Hl; done. Qed.

Lemma ids_same_rebuild t t' : ids_same t t' → Coherent t → Coherent (rebuild_index t').
Proof. intros Hs Hco. apply rebuild_coherent. eapply ids_same_ok, co_ids, Hco. done. Qed.

Lemma ids_same_refl t : ids_same t t.
Proof. done. Qed.

Lemma refresh_coherent t t' :
  ids_same t t' → Coherent t → Coherent (refresh_constraint_metadata t').
Proof.
  intros (Hi & Hn & Hl) Hco. apply (ids_same_rebuild t); [|done]. by split_and!.
Qed.

Definition CatalogOk (c : Catalog) : Prop := map_Forall (λ _ t, Coherent t) (cat_tables c).

Lemma insert_table_ok c name t : CatalogOk c → Coherent t → CatalogOk (insert_table c name t).
Proof. intros Hc Ht. by apply map_Forall_insert_2. Qed.

Lemma or_error_Ok {A} c (m : outcome A) k res :
  or_error c m k = Ok res → (∃ a, m = Ok a ∧ k a = Ok res) ∨ (∃ e, m = Err e ∧ res = (c, RError e)).
Proof. destruct m; cbn; naive_solver. Qed.

(** ** CREATE and DROP *)

Lemma create_table_ok c n cols ks e c' r :
  CatalogOk c → execute_create_table c n cols ks e = Ok (c', r) → CatalogOk c'.
Proof.
  intros Hc Hx. unfold execute_create_table in Hx.
  destruct (cat_tables c !! _); [by simplify_eq|].
  destruct (duplicate_column _ _); [by simplify_eq|].
  apply or_error_Ok in Hx as [(st & _ & Hx)|(? & _ & ?)]; [|by simplify_eq].
  case_decide; simplify_eq; [done|]. apply insert_table_ok; [done|]. apply table_new_coherent.
Qed.

Lemma drop_table_ok c n e c' r :
  CatalogOk c → execute_drop_table c n e = Ok (c', r) → CatalogOk c'.
Proof.
  intros Hc Hx. unfold execute_drop_table in Hx.
  destruct (cat_tables c !! _); [|by simplify_eq].
  destruct (find_first _ _) as [[]|]; simplify_eq; [done|]. by apply map_Forall_delete.
Qed.

Lemma create_index_ok c n tn cols u e c' r :
  CatalogOk c → execute_create_index c n tn cols u e = Ok (c', r) → CatalogOk c'.
Proof.
  intros Hc Hx. unfold execute_create_index in Hx.
  destruct (cat_tables c !! _) as [t|] eqn:Ht; [|by simplify_eq].
  destruct (existsb _ _); [by simplify_eq|]. case_bool_decide; [by simplify_eq|].
  destruct (find_first _ _); [by simplify_eq|].
  apply or_error_Ok in Hx as [(st & _ & Hx)|(? & _ & ?)]; simplify_eq; [|done].
  apply insert_table_ok; [done|]. by eapply (ids_same_rebuild t), Hc.
Qed.

Lemma drop_index_ok c n tn e c' r :
  CatalogOk c → execute_drop_index c n tn e = Ok (c', r) → CatalogOk c'.
Proof.
  intros Hc Hx. unfold execute_drop_index in Hx.
  destruct (cat_tables c !! _) as [t|] eqn:Ht; [|by simplify_eq].
  destruct (position _ _); [|by simplify_eq]. apply bind_Ok in Hx as (d & _ & Hx).
  destruct (index_automatic d); simplify_eq; [done|].
  apply insert_table_ok; [done|]. by eapply (ids_same_rebuild t), Hc.
Qed.

(** ** ALTER *)

Lemma coerce_column_length i d m rows rows' :
  coerce_column i d m rows = Ok rows' → length rows' = length rows.
Proof. apply mapM_length. Qed.

Lemma alter_add_column_ids t col ks e t' :
  alter_add_column t col ks e = Ok (Some t') → ids_same t t'.
Proof.
  unfold alter_add_column. intros Ha. case_bool_decide; [by destruct e|].
  apply bind_Ok in Ha as (v & _ & Ha). destruct (_ && _); simplify_eq.
  split_and!; try done. cbn. by rewrite length_fmap.
Qed.

Lemma alter_drop_column_ids c n t col e t' :
  alter_drop_column c n t col e = Ok (Some t') → ids_same t t'.
Proof.
  unfold alter_drop_column. intros Ha. destruct (column_index _ _); [|by destruct e].
  case_decide; [done|]. destruct (column_referenced _ _ _ _); [done|].
  apply bind_Ok in Ha as (rows & Hrows%mapM_length & [= <-]). by split_and!.
Qed.

Lemma alter_modify_column_ids t o col ks t' :
  alter_modify_column t o col ks = Ok t' → ids_same t t'.
Proof.
  unfold alter_modify_column. intros Ha. apply bind_Ok in Ha as (i & _ & Ha).
  apply bind_Ok in Ha as (s & _ & Ha).
  apply bind_Ok in Ha as (rows & Hrows%coerce_column_length & [= <-]). by split_and!.
Qed.

Lemma alter_set_data_type_ids t col d t' : alter_set_data_type t col d = Ok t' → ids_same t t'.
Proof.
  unfold alter_set_data_type. intros Ha. apply bind_Ok in Ha as (i & _ & Ha).
  apply bind_Ok in Ha as (rows & Hrows%coerce_column_length & Ha).
  apply bind_Ok in Ha as (cl & _ & Ha). apply bind_Ok in Ha as (v & _ & [= <-]). by split_and!.
Qed.

(** The operations on the schema alone leave the rows as they are. *)
Lemma alter_schema_only_ids t t' :
  (∃ col v, alter_set_default t col v = Ok t') ∨
  (∃ col n, alter_set_nullable t col n = Ok t') ∨
  (∃ k, alter_add_constraint t k = Ok t') ∨
  (∃ n e, alter_drop_constraint t n e = Ok t') ∨
  alter_drop_primary_key t = Ok t' →
  ids_same t t'.
Proof.
  intros [(col & v & Ha)|[(col & n & Ha)|[(k & Ha)|[(n & e & Ha)|Ha]]]].
  - unfold alter_set_default in Ha. repeat (apply bind_Ok in Ha as (? & _ & Ha)). by simplify_eq.
  - unfold alter_set_nullable in Ha. repeat (apply bind_Ok in Ha as (? & _ & Ha)).
    destruct (_ && _); [done|]. apply bind_Ok in Ha as (? & _ & Ha). by simplify_eq.
  - unfold alter_add_constraint in Ha. apply bind_Ok in Ha as (? & _ & Ha).
    destruct (_ && _); [done|]. repeat (apply bind_Ok in Ha as (? & _ & Ha)). by simplify_eq.
  - unfold alter_drop_constraint in Ha. destruct (position _ _); [by simplify_eq|].
    destruct e; by simplify_eq.
  - unfold alter_drop_primary_key in Ha. apply bind_Ok in Ha as (? & _ & Ha). by simplify_eq.
Qed.

Lemma rename_in_others_ok n o o' tables :
  map_Forall (λ _ t, Coherent t) tables →
  map_Forall (λ _ t, Coherent t) (rename_in_others n o o' tables).
Proof.
  intros Hc name t Hlk. unfold rename_in_others in Hlk. rewrite map_lookup_imap in Hlk.
  destruct (tables !! name) as [t0|] eqn:Ht; [|done]. cbn in Hlk. injection Hlk as <-.
  specialize (Hc _ _ Ht). case_bool_decide; [done|]. destruct (existsb _ _); [|done].
  by eapply (refresh_coherent t0).
Qed.

Lemma refreshed_ok c t m c' t' :
  CatalogOk c → Coherent t → (∀ t1, m = Ok t1 → ids_same t t1) →
  refreshed c m = Ok (c', t') → CatalogOk c' ∧ Coherent t'.
Proof.
  intros Hc Ht Hm Hr. unfold refreshed in Hr. apply bind_Ok in Hr as (t1 & Ht1 & [= <- <-]).
  split; [done|]. eapply refresh_coherent; [by apply Hm|done].
Qed.

Lemma refreshed_opt_ok c t m c' t' :
  CatalogOk c → Coherent t → (∀ t1, m = Ok (Some t1) → ids_same t t1) →
  refreshed_opt c t m = Ok (c', t') → CatalogOk c' ∧ Coherent t'.
Proof.
  intros Hc Ht Hm Hr. unfold refreshed_opt in Hr. apply bind_Ok in Hr as (o & Ho & [= <- <-]).
  split; [done|]. destruct o as [t1|]; [|done]. eapply refresh_coherent; [by apply Hm|done].
Qed.

Lemma apply_alter_ok c n t op c' t' :
  CatalogOk c → Coherent t → apply_alter_operation c n t op = Ok (c', t') →
  CatalogOk c' ∧ Coherent t'.
Proof.
  intros Hc Ht. destruct op as [| |o o'| | | | | | |]; cbn [apply_alter_operation].
  3: { intros Hr. apply bind_Ok in Hr as ([c1 t1] & Hr & [= <- <-]).
       unfold alter_rename_column in Hr. case_bool_decide; [done|].
       apply bind_Ok in Hr as (i & _ & [= <- <-]). split; [by apply rename_in_others_ok|].
       by eapply (refresh_coherent t). }
  all: first [apply refreshed_opt_ok | apply (refreshed_ok c t)]; try done; intros t1.
  - apply alter_add_column_ids.
  - apply alter_drop_column_ids.
  - apply alter_modify_column_ids.
  - intros. apply alter_schema_only_ids. naive_solver.
  - intros. apply alter_schema_only_ids. naive_solver.
  - apply alter_set_data_type_ids.
  - intros. apply alter_schema_only_ids. naive_solver.
  - intros. apply alter_schema_only_ids. naive_solver.
  - intros. apply alter_schema_only_ids. naive_solver.
Qed.

Lemma alter_loop_ok c n t ops c' r :
  CatalogOk c → Coherent t → alter_loop c n t ops = Ok (c', r) → CatalogOk c'.
Proof.
  revert c t. induction ops as [|op ops IH]; intros c t Hc Ht Hx; cbn in Hx.
  - simplify_eq. apply insert_table_ok; [done|]. by eapply refresh_coherent.
  - apply or_error_Ok in Hx as [([c1 t1] & Ha & Hx)|(? & _ & ?)]; [|by simplify_eq].
    destruct (apply_alter_ok _ _ _ _ _ _ Hc Ht Ha). by eapply IH.
Qed.

(** ** INSERT, UPDATE, DELETE *)

Lemma insert_one_ok c n od t count row st :
  Coherent t → (tb_next_row_id t < u64_max)%N → insert_one c n od (t, count) row = Ok st →
  Coherent st.1 ∧ (tb_next_row_id st.1 ≤ tb_next_row_id t + 1)%N.
Proof.
  intros Ht Hmax Hx. unfold insert_one in Hx.
  destruct (elements _) as [|p [|p' ps]].
  - apply bind_Ok in Hx as (t' & Hi & [= <-]). split; [by eapply insert_coherent|].
    unfold insert_row_indexed in Hi. inv_ok. cbn. by rewrite sat_succ_below by done.
  - destruct od as [|a od]; [done|]. apply bind_Ok in Hx as ([t' k] & Hd & [= <-]). cbn.
    unfold duplicate_update in Hd. apply bind_Ok in Hd as (cur & _ & Hd).
    apply bind_Ok in Hd as (upd & _ & Hd). destruct (values_eqb _ _); [simplify_eq; split; [done|lia]|].
    apply bind_Ok in Hd as (t1 & Hr & [= -> _]). split; [by eapply replace_coherent|].
    unfold replace_row_indexed in Hr. inv_ok. cbn. lia.
  - by destruct od.
Qed.

Lemma insert_rows_ok c n od rows t count st :
  Coherent t → (tb_next_row_id t + N.of_nat (length rows) ≤ u64_max)%N →
  foldM (insert_one c n od) (t, count) rows = Ok st → Coherent st.1.
Proof.
  revert t count. induction rows as [|row rows IH]; intros t count Ht Hmax Hf.
  - cbn in Hf. by simplify_eq.
  - rewrite foldM_cons in Hf. apply bind_Ok in Hf as ([t' count'] & Hs & Hf).
    cbn [length] in Hmax. apply insert_one_ok in Hs as [Ht' Hn']; [|done|lia]. cbn in *.
    eapply IH; [done| |done]. lia.
Qed.

Lemma store_and_validate_ok c n t count c' r :
  CatalogOk c → Coherent t → store_and_validate c n t count = Ok (c', r) → CatalogOk c'.
Proof.
  intros Hc Ht Hx. assert (c' = insert_table c n t) as ->.
  { unfold store_and_validate in Hx. apply or_error_Ok in Hx as [(? & _ & ?)|(? & _ & ?)];
      by simplify_eq. }
  by apply insert_table_ok.
Qed.

(** Room for the rows an INSERT adds: the row counter does not saturate. *)
Definition has_room (c : Catalog) (s : Statement) : Prop :=
  match s with
  | Insert table_name _ source _ =>
      ∀ t rows, cat_tables c !! to_ascii_lowercase table_name = Some t →
        source_rows c source = Ok rows →
        (tb_next_row_id t + N.of_nat (length rows) ≤ u64_max)%N
  | _ => True
  end.

Lemma insert_ok c tn cols src od c' r :
  CatalogOk c → has_room c (Insert tn cols src od) →
  execute_insert c tn cols src od = Ok (c', r) → CatalogOk c'.
Proof.
  intros Hc Hroom Hx. unfold execute_insert in Hx.
  apply or_error_Ok in Hx as [(values & Hv & Hx)|(? & _ & ?)]; [|by simplify_eq].
  destruct (cat_tables c !! _) as [t|] eqn:Ht; [|by simplify_eq].
  apply or_error_Ok in Hx as [(rows & Hrows%mapM_length & Hx)|(? & _ & ?)]; [|by simplify_eq].
  apply or_error_Ok in Hx as [(st & Hst & Hx)|(? & _ & ?)]; [|by simplify_eq].
  eapply store_and_validate_ok; [done| |done]. eapply insert_rows_ok; [by eapply Hc| |done].
  rewrite Hrows. by eapply Hroom.
Qed.

Lemma update_ok c tn asg sel c' r :
  CatalogOk c → execute_update c tn asg sel = Ok (c', r) → CatalogOk c'.
Proof.
  intros Hc Hx. unfold execute_update in Hx.
  destruct (cat_tables c !! _) as [t|] eqn:Ht; [|by simplify_eq].
  apply or_error_Ok in Hx as [(res & Hres%mapM_length & Hx)|(? & _ & ?)]; [|by simplify_eq].
  eapply store_and_validate_ok; [done| |done]. eapply (ids_same_rebuild t); [|by eapply Hc].
  split_and!; try done. cbn. by rewrite length_fmap, Hres, length_imap.
Qed.

(** DELETE keeps a sublist of the rows and identifiers. *)
Lemma delete_rows_sublist c t n ids sel st :
  foldM (delete_row c t n ids sel) ([], [], 0) (imap pair (tb_rows t)) = Ok st →
  length st.1.1 = length st.1.2 ∧ st.1.2 `sublist_of` tb_row_ids t.
Proof.
  intros Hf.
  assert (length st.1.1 = length st.1.2 ∧
          st.1.2 `sublist_of` take (length (tb_rows t)) (tb_row_ids t)) as [Hl Hs].
  { refine (foldM_imap_inv (λ k (st : list Row * list N * nat), length st.1.1 = length st.1.2 ∧
      st.1.2 `sublist_of` take k (tb_row_ids t)) _ _ _ _ _ _ Hf); [done|].
    intros i row [[rows row_ids] d] st' _ [Hl Hs] Hstep. cbn in Hl, Hs.
    assert ((rows, row_ids, S d) = st' ∨ ∃ id, tb_row_ids t !! i = Some id ∧
      st' = (rows ++ [row], row_ids ++ [id], d)) as [<-|(id & Hid & ->)].
    { unfold delete_row in Hstep. destruct (is_candidate t ids i);
        [apply bind_Ok in Hstep as ([] & _ & Hstep)|]; [by left; simplify_eq| |];
        right; apply bind_Ok in Hstep as (id & Hid%vec_index_Ok & [= <-]); by exists id. }
    - cbn. split; [done|]. etrans; [exact Hs|]. apply sublist_take_S.
    - cbn. rewrite !length_app, Hl. split; [done|].
      rewrite (take_S_r _ _ _ Hid). by apply sublist_app. }
  split; [done|]. etrans; [exact Hs|]. apply sublist_take.
Qed.

Lemma deleted_ids_ok c t n ids sel rows row_ids d :
  Coherent t → foldM (delete_row c t n ids sel) ([], [], 0) (imap pair (tb_rows t)) = Ok (rows, row_ids, d) →
  ids_ok (with_rows t rows row_ids).
Proof.
  intros Ht [Hl Hs]%delete_rows_sublist. cbn in Hl, Hs. destruct (co_ids _ Ht) as [_ Hsort Hfresh].
  constructor; cbn.
  - done.
  - by eapply StronglySorted_sublist.
  - rewrite Forall_forall in *. intros x Hx'. apply Hfresh. by eapply elem_of_sublist.
Qed.

Lemma delete_ok c tn sel c' r :
  CatalogOk c → execute_delete c tn sel = Ok (c', r) → CatalogOk c'.
Proof.
  intros Hc Hx. unfold execute_delete in Hx.
  destruct (cat_tables c !! _) as [t|] eqn:Ht; [|by simplify_eq].
  apply or_error_Ok in Hx as [([[rows row_ids] d] & Hf & Hx)|(? & _ & ?)]; [|by simplify_eq].
  eapply store_and_validate_ok; [done| |done]. apply rebuild_coherent.
  by eapply deleted_ids_ok; [eapply Hc|].
Qed.

(** ** Every statement *)

Lemma execute_statement_ok `{StatementDebug} c s c' r :
  CatalogOk c → has_room c s → execute_statement c s = Ok (c', r) → CatalogOk c'.
Proof.
  intros Hc Hroom. destruct s; cbn [execute_statement]; try (by intros [= <- <-]).
  - by apply create_table_ok.
  - by apply drop_table_ok.
  - by apply create_index_ok.
  - by apply drop_index_ok.
  - unfold execute_alter_table. destruct (cat_tables c !! _) as [t|] eqn:Ht; [|by intros [= <- <-]].
    apply alter_loop_ok; [done|by eapply Hc].
  - by apply insert_ok.
  - intros Hx. by apply or_error_Ok in Hx as [(? & _ & ?)|(? & _ & ?)]; simplify_eq.
  - by apply update_ok.
  - by apply delete_ok.
Qed.

(** Outside writes the catalog does not change. *)
Lemma execute_statement_read `{StatementDebug} c s c' r :
  is_write_statement s = false → execute_statement c s = Ok (c', r) → c' = c.
Proof.
  intros Hw. destruct s; try discriminate Hw; cbn [execute_statement]; try (by intros [= <- <-]).
  intros Hx. by apply or_error_Ok in Hx as [(? & _ & ?)|(? & _ & ?)]; simplify_eq.
Qed.
End integrity.

(** ** Histories of the engine *)

Section histories.
Context `{RustStd} `{StatementDebug}.

Definition catalog_at (version : N) (c : Catalog) : Catalog :=
  {| cat_version := version; cat_schema_version := cat_schema_version c; cat_tables := cat_tables c |}.

(** Evaluation reads the tables only, so validity does not depend on the
    version counters. *)
Lemma catalog_at_valid version c : CatalogValid c → CatalogValid (catalog_at version c).
Proof.
  destruct c as [v s ts]. intros Hc name t Hlk. destruct (Hc name t Hlk) as [H1 H2 H3 H4].
  split; [done| |done|exact H4]. exact H2.
Qed.

Lemma execute_catalog_spec c s c' r :
  CatalogOk c → has_room c s → execute_catalog c s = Ok (c', r) →
  c' = c ∨ is_write_statement s = true ∧ is_error r = false ∧ CatalogOk c' ∧ validate_catalog c' = Ok tt.
Proof.
  intros Hc Hroom Hx. unfold execute_catalog in Hx.
  destruct (is_write_statement s) eqn:Hw; [|left; by eapply execute_statement_read].
  apply bind_Ok in Hx as ([w r'] & Hs & Hx). destruct (is_error r') eqn:He; [left; by simplify_eq|].
  apply or_error_Ok in Hx as [([] & Hv & [= <- <-])|(? & _ & ?)]; [|left; by simplify_eq].
  right. split_and!; try done. by eapply execute_statement_ok.
Qed.

(** Reads and failed writes leave the catalog as it was. *)
Lemma execute_catalog_unchanged c s c' r :
  execute_catalog c s = Ok (c', r) → is_write_statement s = false ∨ is_error r = true → c' = c.
Proof.
  intros Hx Hcase. unfold execute_catalog in Hx. destruct (is_write_statement s) eqn:Hw.
  - apply bind_Ok in Hx as ([w r'] & _ & Hx). destruct Hcase as [?|He]; [done|].
    destruct (is_error r') eqn:He'; [by simplify_eq|].
    apply or_error_Ok in Hx as [([] & _ & [= <- <-])|(? & _ & ?)]; simplify_eq; congruence.
  - by eapply execute_statement_read.
Qed.

(** The catalogs an engine started empty can hold, with the number of the
    writes that succeeded. *)
Inductive reachable : Catalog → N → Prop :=
| reach_init : reachable catalog_default 0
| reach_read c n s c' r :
    reachable c n → has_room c s → execute c s = Ok (c', r) →
    (is_write_statement s = false ∨ is_error r = true) → reachable c' n
| reach_write c n s c' r :
    reachable c n → has_room c s → execute c s = Ok (c', r) →
    is_write_statement s = true → is_error r = false → reachable c' (N.succ n).

Lemma execute_read c s c' r :
  execute c s = Ok (c', r) → is_write_statement s = false ∨ is_error r = true → c' = c.
Proof.
  intros Hx Hcase. unfold execute in Hx. destruct (is_transaction_control s); [by simplify_eq|].
  destruct (is_write_statement s) eqn:Hw.
  - apply bind_Ok in Hx as ([w r'] & _ & Hx). destruct Hcase as [?|He]; [done|].
    destruct (is_error r') eqn:He'; simplify_eq; congruence.
  - apply bind_Ok in Hx as ([w r'] & _ & Hx). by simplify_eq.
Qed.

Lemma execute_write c s c' r :
  CatalogOk c → has_room c s → execute c s = Ok (c', r) →
  is_write_statement s = true → is_error r = false →
  CatalogOk c' ∧ cat_version c' = sat_succ (cat_version c) ∧ ∃ w, c' = catalog_at (cat_version c') w ∧
    (CatalogOk w ∧ validate_catalog w = Ok tt ∨ w = c).
Proof.
  intros Hc Hroom Hx Hw He. unfold execute in Hx.
  assert (is_transaction_control s = false) as Htc by by destruct s.
  rewrite Htc, Hw in Hx. apply bind_Ok in Hx as ([w r'] & Hcat & Hx).
  destruct (is_error r') eqn:He'; simplify_eq; [congruence|].
  apply execute_catalog_spec in Hcat as Hspec; [|done..].
  assert (CatalogOk w) as Hw' by by destruct Hspec as [->|(_ & _ & ? & _)].
  split_and!; [exact Hw'|done|]. exists w. split; [done|]. destruct Hspec as [?|(_ & _ & ? & ?)]; auto.
Qed.

Lemma reachable_ok c n : reachable c n →
  CatalogOk c ∧ (fk_arity_ok c → CatalogValid c) ∧ ((n ≤ u64_max)%N → cat_version c = n).
Proof.
  induction 1 as [|c n s c' r _ (IHo & IHv & IHn) Hroom Hx Hcase|
    c n s c' r _ (IHo & IHv & IHn) Hroom Hx Hw He].
  - split_and!; [apply map_Forall_empty|intros _; apply map_Forall_empty|done].
  - apply execute_read in Hx; [|done]. by subst c'.
  - destruct (execute_write _ _ _ _ IHo Hroom Hx Hw He) as (Ho & Hver & w & Heq & Hwc).
    split_and!; [done| |].
    + intros Har. rewrite Heq. apply catalog_at_valid. destruct Hwc as [[Hwo Hv]| ->].
      * apply validate_catalog_Ok; [done| |done]. rewrite Heq in Har. exact Har.
      * apply IHv. rewrite Heq in Har. exact Har.
    + intros Hn. rewrite Hver, IHn by lia. rewrite sat_succ_below by lia. lia.
Qed.
End histories.

(** ** Data statements against their specifications *)

Section data_statements.
Context `{RustStd}.

Lemma store_and_validate_affected c name t count c' n :
  store_and_validate c name t count = Ok (c', RRowsAffected n) → c' = insert_table c name t ∧ n = count.
Proof.
  intros Hx. unfold store_and_validate in Hx.
  by apply or_error_Ok in Hx as [(? & _ & ?)|(? & _ & ?)]; simplify_eq.
Qed.

(** Without ON DUPLICATE KEY UPDATE the loop only appends. *)
Lemma insert_rows_append c name rows t count st :
  foldM (insert_one c name []) (t, count) rows = Ok st →
  tb_rows st.1 = tb_rows t ++ rows ∧ st.2 = count + length rows ∧
  tb_row_ids t `prefix_of` tb_row_ids st.1.
Proof.
  revert t count. induction rows as [|row rows IH]; intros t count Hf.
  - cbn in Hf. simplify_eq. cbn. by rewrite app_nil_r, Nat.add_0_r.
  - rewrite foldM_cons in Hf. apply bind_Ok in Hf as ([t1 count1] & Hs & Hf).
    apply IH in Hf as (Hr & Hc & Hi). unfold insert_one in Hs.
    destruct (elements _); [|by simplify_eq]. apply bind_Ok in Hs as (t' & Hins & [= -> <-]).
    assert (tb_rows t1 = tb_rows t ++ [row] ∧ tb_row_ids t `prefix_of` tb_row_ids t1) as [Hr1 Hi1].
    { clear -Hins. unfold insert_row_indexed in Hins. inv_ok. cbn. split; [done|]. by eexists. }
    split_and!; [|cbn [length]; lia|by etrans]. by rewrite Hr, Hr1, <-app_assoc.
Qed.

(** A reference UPDATE and DELETE that visit every row. *)
Definition update_reference (c : Catalog) (t : Table) (name : string)
    (assignments : list (string * Expr)) (selection : option Expr) (row : Row) :
    outcome (Row * bool) :=
  matches ← selected c (table_columns t name) selection row;
  if matches : bool then
    row' ← foldM (update_assignment c t (table_columns t name) row) row assignments; Ok (row', true)
  else Ok (row, false).

(** The conditions under which the chosen index may stand for the selection. *)
Definition indexable (t : Table) (selection : option Expr) : Prop :=
  Coherent t ∧ table_wide t ∧ index_columns_ok (tb_schema t) ∧
  ∀ e, selection = Some e → predicates_typed t e.

Lemma candidates_complete c t name selection position row :
  indexable t selection → tb_rows t !! position = Some row →
  selected c (table_columns t name) selection row = Ok true →
  is_candidate t (candidate_row_ids t selection).1 position = true.
Proof.
  intros (Hco & Hw & Hcols & Hty) Hrow Hsel. destruct selection as [e|]; [|done].
  cbn in Hsel. apply bind_Ok in Hsel as (v & Hv & Hsel).
  case_bool_decide as Ht; [|done].
  apply (is_candidate_sound c t name e ∅ (position, row) v); auto.
  by apply elem_of_imap_pair.
Qed.

(** Where the reference is defined, the statement computes it. *)
Lemma update_row_reference c t name asg sel position row res :
  indexable t sel → tb_rows t !! position = Some row →
  update_reference c t name asg sel row = Ok res →
  update_row c t name (candidate_row_ids t sel).1 asg sel (position, row) = Ok res.
Proof.
  intros Hix Hrow Href. unfold update_row, update_reference in *.
  destruct (is_candidate _ _ _) eqn:Hc; [done|].
  apply bind_Ok in Href as ([] & Hs & Href); [|by simplify_eq].
  apply (candidates_complete c t name sel position row Hix Hrow) in Hs. congruence.
Qed.

Lemma mapM_imap_pair {A B} (f : nat * A → outcome B) (g : A → outcome B) l l' :
  (∀ i x y, l !! i = Some x → g x = Ok y → f (i, x) = Ok y) →
  mapM g l = Ok l' → mapM f (imap pair l) = Ok l'.
Proof.
  rewrite !mapM_Ok, !Forall2_lookup. intros Hf Hm i. specialize (Hm i). rewrite list_lookup_imap.
  destruct (l !! i) as [x|] eqn:Hx; inversion Hm as [? y Hy|]; cbn; constructor. by apply Hf.
Qed.

(** DELETE keeps the rows the selection does not accept, with their
    identifiers. *)
Definition survivors (c : Catalog) (t : Table) (name : string) (selection : option Expr) :
    outcome (list (Row * N)) :=
  foldM (λ kept (p : Row * N),
    matches ← selected c (table_columns t name) selection p.1;
    Ok (if matches : bool then kept else kept ++ [p])) [] (zip (tb_rows t) (tb_row_ids t)).

Lemma delete_row_step c t name sel k row id m rows ids d :
  indexable t sel → tb_rows t !! k = Some row → tb_row_ids t !! k = Some id →
  selected c (table_columns t name) sel row = Ok m →
  delete_row c t name (candidate_row_ids t sel).1 sel (rows, ids, d) (k, row) =
  Ok (if m then (rows, ids, S d) else (rows ++ [row], ids ++ [id], d)).
Proof.
  intros Hix Hrow Hid Hm. unfold delete_row. rewrite (proj2 (vec_index_Ok _ _ _) Hid).
  destruct (is_candidate _ _ _) eqn:Hc; [rewrite Hm; by destruct m|].
  destruct m; [|done]. apply (candidates_complete c t name sel k row Hix Hrow) in Hm. congruence.
Qed.

Lemma delete_rows_reference c t name sel kept :
  indexable t sel → survivors c t name sel = Ok kept →
  ∃ deleted, foldM (delete_row c t name (candidate_row_ids t sel).1 sel) ([], [], 0)
      (imap pair (tb_rows t)) = Ok (kept.*1, kept.*2, deleted) ∧
    deleted + length kept = length (tb_rows t).
Proof.
  intros Hix Href. pose proof (ids_length _ (co_ids _ (proj1 Hix))) as Hlen.
  unfold survivors in Href.
  assert (∀ rows ids k pre d out, drop k (tb_rows t) = rows → drop k (tb_row_ids t) = ids →
    foldM (λ kept (p : Row * N), matches ← selected c (table_columns t name) sel p.1;
      Ok (if matches : bool then kept else kept ++ [p])) pre (zip rows ids) = Ok out →
    ∃ d', foldM (delete_row c t name (candidate_row_ids t sel).1 sel) (pre.*1, pre.*2, d)
      (imap (λ i, pair (k + i)) rows) = Ok (out.*1, out.*2, d') ∧
      d' + length out = d + length pre + length rows) as Hgen; cycle 1.
  { apply (Hgen _ _ 0 [] 0 kept) in Href as (d & Hd & Hn); [|done..]. cbn in Hn. by exists d. }
  induction rows as [|row rows IH]; intros ids k pre d out Hrows Hids Hf.
  { cbn in Hf. simplify_eq. exists d. cbn. split; [done|lia]. }
  assert (tb_rows t !! k = Some row) as Hrow.
  { rewrite <-(Nat.add_0_r k), <-lookup_drop, Hrows. done. }
  destruct (lookup_lt_is_Some_2 (tb_row_ids t) k) as [id Hid].
  { rewrite Hlen. by eapply lookup_lt_Some. }
  assert (ids = id :: drop (S k) (tb_row_ids t)) as -> by (rewrite <-Hids; by apply drop_S).
  cbn [zip zip_with] in Hf. rewrite foldM_cons in Hf. apply bind_Ok in Hf as (pre' & Hs & Hf).
  apply bind_Ok in Hs as (m & Hm & [= <-]).
  assert (drop (S k) (tb_rows t) = rows) as Hrows'.
  { apply (drop_S _ _ _) in Hrow. rewrite Hrows in Hrow. by injection Hrow. }
  rewrite imap_cons, foldM_cons, Nat.add_0_r.
  rewrite (delete_row_step _ _ _ _ _ _ _ _ _ _ _ Hix Hrow Hid Hm).
  replace (if m then (pre.*1, pre.*2, S d) else (pre.*1 ++ [row], pre.*2 ++ [id], d))
    with ((if m then pre else pre ++ [(row, id)]).*1, (if m then pre else pre ++ [(row, id)]).*2,
          if m then S d else d) by (destruct m; by rewrite ?fmap_app).
  cbn [mbind outcome_bind].
  destruct (IH _ (S k) _ (if m then S d else d) out Hrows' eq_refl Hf) as (d' & Hd & Hn).
  exists d'. split.
  - rewrite <-Hd. f_equal. apply imap_ext. intros i x _. cbn. f_equal. lia.
  - rewrite Hn. destruct m; cbn; rewrite ?length_app; cbn; lia.
Qed.
End data_statements.

(** ** Properties *)

Section properties.
Context `{RustStd}.

(** C12. execute_catalog is atomic and preserves integrity: a read or a failed
    write leaves the catalog as it was; a write that succeeds leaves coherent
    indexes and, where the foreign keys name as many columns as they refer to, a
    catalog in which every row is well typed and every CHECK, unique index and
    foreign key holds. *)
Theorem execute_catalog_atomic `{StatementDebug} c s c' r :
  CatalogOk c → has_room c s → execute_catalog c s = Ok (c', r) →
  (is_write_statement s = false ∨ is_error r = true → c' = c) ∧ CatalogOk c' ∧
  (is_write_statement s = true → is_error r = false → fk_arity_ok c' → CatalogValid c').
Proof.
  intros Hc Hroom Hx. split_and!.
  - by apply (execute_catalog_unchanged c s c' r).
  - by destruct (execute_catalog_spec _ _ _ _ Hc Hroom Hx) as [->|(_ & _ & ? & _)].
  - intros Hw He Har. unfold execute_catalog in Hx. rewrite Hw in Hx.
    apply bind_Ok in Hx as ([w r'] & Hs & Hx). destruct (is_error r') eqn:He'; [simplify_eq; congruence|].
    apply or_error_Ok in Hx as [([] & Hv & [= <- <-])|(? & _ & ?)]; [|by simplify_eq].
    apply validate_catalog_Ok; [by eapply execute_statement_ok|done..].
Qed.

(** C1. Every catalog that a history of statements leads to from the empty one has
    coherent indexes and is numbered with the writes that succeeded; and where its
    foreign keys name as many columns as they refer to, every row is well typed,
    no CHECK is FALSE, no two rows share a NULL-free key of a unique index, and
    every foreign key without NULL finds a parent row. *)
Theorem history_integrity `{StatementDebug} c n :
  reachable c n →
  CatalogOk c ∧ (fk_arity_ok c → CatalogValid c) ∧ ((n ≤ u64_max)%N → cat_version c = n).
Proof. apply reachable_ok. Qed.

(** A successful INSERT without ON DUPLICATE KEY UPDATE appends the rows it
    builds, in order, to the table, keeps the identifiers of the rows there
    were, changes no other table, and reports the number of rows. *)
Theorem insert_appends c tn columns source c' n :
  execute_insert c tn columns source [] = Ok (c', RRowsAffected n) →
  ∃ t values rows t', cat_tables c !! to_ascii_lowercase tn = Some t ∧
    source_rows c source = Ok values ∧
    mapM (build_row (tb_schema t) columns) values = Ok rows ∧
    c' = insert_table c (to_ascii_lowercase tn) t' ∧
    tb_rows t' = tb_rows t ++ rows ∧ tb_row_ids t `prefix_of` tb_row_ids t' ∧ n = length rows.
Proof.
  intros Hx. unfold execute_insert in Hx.
  apply or_error_Ok in Hx as [(values & Hv & Hx)|(? & _ & ?)]; [|by simplify_eq].
  destruct (cat_tables c !! _) as [t|] eqn:Ht; [|by simplify_eq].
  apply or_error_Ok in Hx as [(rows & Hrows & Hx)|(? & _ & ?)]; [|by simplify_eq].
  apply or_error_Ok in Hx as [(st & Hst & Hx)|(? & _ & ?)]; [|by simplify_eq].
  apply store_and_validate_affected in Hx as [-> ->].
  apply insert_rows_append in Hst as (Hr & Hn & Hi). exists t, values, rows, st.1. by split_and!.
Qed.

(** UPDATE, where the reference is defined on every row. *)
Lemma update_scans c tn t assignments selection results :
  let name := to_ascii_lowercase tn in
  cat_tables c !! name = Some t → indexable t selection →
  mapM (update_reference c t name assignments selection) (tb_rows t) = Ok results →
  execute_update c tn assignments selection =
    store_and_validate c name (rebuild_index (set_rows t results.*1))
      (length (filter (λ r : Row * bool, r.2) results)).
Proof.
  intros name Ht Hix Href. unfold execute_update. fold name. rewrite Ht. cbv zeta.
  rewrite (mapM_imap_pair _ (update_reference c t name assignments selection) _ results); [done| |done].
  intros i row res Hrow Hres. by apply update_row_reference.
Qed.

(** C33. UPDATE through an index is UPDATE by a full scan: where the literals the
    selection compares indexed columns with are comparable with the values there,
    and evaluating the selection and the assignments on every row succeeds, the
    statement stores exactly the rows this gives, and counts those it selected. *)
Theorem update_is_full_scan c tn t assignments selection results :
  let name := to_ascii_lowercase tn in
  cat_tables c !! name = Some t → indexable t selection →
  mapM (update_reference c t name assignments selection) (tb_rows t) = Ok results →
  execute_update c tn assignments selection =
    store_and_validate c name (rebuild_index (set_rows t results.*1))
      (length (filter (λ r : Row * bool, r.2) results)).
Proof. apply update_scans. Qed.

(** DELETE through an index is DELETE by a full scan: where evaluating the
    selection on every row succeeds, exactly the rows it accepts are removed
    and the others keep their identifiers. *)
Theorem delete_is_full_scan c tn t selection kept :
  let name := to_ascii_lowercase tn in
  cat_tables c !! name = Some t → indexable t selection →
  survivors c t name selection = Ok kept →
  execute_delete c tn selection =
    store_and_validate c name (rebuild_index (with_rows t kept.*1 kept.*2))
      (length (tb_rows t) - length kept).
Proof.
  intros name Ht Hix Href. unfold execute_delete. fold name. rewrite Ht. cbv zeta.
  destruct (delete_rows_reference c t name selection kept Hix Href) as (d & -> & Hn).
  cbn. f_equal. lia.
Qed.

(** DROP TABLE is restricted: it succeeds on a table exactly when no other
    table has a foreign key to it, and then removes that table only. *)
Theorem drop_table_restricted c tn if_exists c' r :
  let name := to_ascii_lowercase tn in
  is_Some (cat_tables c !! name) → execute_drop_table c tn if_exists = Ok (c', r) →
  (is_error r = false ↔ ∀ other t k, cat_tables c !! other = Some t → other ≠ name →
     k ∈ schema_constraints (tb_schema t) → references_table name k = false) ∧
  cat_tables c' = if is_error r then cat_tables c else delete name (cat_tables c).
Proof.
  intros name [t0 Ht0] Hx. unfold execute_drop_table in Hx. fold name in Hx. rewrite Ht0 in Hx.
  destruct (find_first _ _) as [[other t]|] eqn:Hf; simplify_eq; cbn.
  - split; [|done]. split; [done|]. intros Hno. apply find_first_Some in Hf as [Hin Hp].
    apply elem_of_hm_iter in Hin. cbn in Hp.
    apply andb_true_iff in Hp as [Hne%negb_true_iff%bool_decide_eq_false Href].
    apply existsb_true in Href as (k & Hk & Hr). rewrite (Hno other t k) in Hr; done.
  - split; [|done]. split; [|done]. intros _ other t k Hlk Hne Hk.
    rewrite find_first_None in Hf. apply elem_of_hm_iter in Hlk. specialize (Hf _ Hlk). cbn in Hf.
    apply andb_false_iff in Hf as [Hf%negb_false_iff%bool_decide_eq_true|Hf]; [done|].
    destruct (references_table name k) eqn:E; [|done].
    rewrite <-Hf. symmetry. apply existsb_true. eauto.
Qed.
End properties.

(** The arity condition as a test. *)
Definition fk_arity_okb (c : Catalog) : bool :=
  forallb (λ nt : string * Table, forallb (λ k,
    match k with
    | CForeignKey fk => bool_decide (length (fk_columns fk) = length (referred_columns fk))
    | _ => true
    end) (schema_constraints (tb_schema nt.2))) (map_to_list (cat_tables c)).

Lemma fk_arity_okb_sound c : fk_arity_okb c = true → fk_arity_ok c.
Proof.
  unfold fk_arity_okb. intros Hall name t fk Hlk Hk. rewrite forallb_forall in Hall.
  assert (List.In (name, t) (map_to_list (cat_tables c))) as Hin.
  { by apply list_elem_of_In, elem_of_map_to_list. }
  specialize (Hall _ Hin). cbn in Hall. rewrite forallb_forall in Hall.
  apply list_elem_of_In, Hall in Hk. by apply bool_decide_eq_true in Hk.
Qed.

(** *** Witnesses *)

Section integrity_witnesses.
#[local] Existing Instance concrete_std.
#[local] Instance debug_none : StatementDebug := λ _, "statement".

Lemma demo_catalog_ok : CatalogOk demo_catalog.
Proof. intros name t Hlk%demo_only. subst t. apply demo_coherent. Qed.

Lemma demo_catalog_room table columns rows od :
  length rows ≤ 1000 → has_room demo_catalog (Insert table columns (InsertValues rows) od).
Proof.
  intros Hlen t values Hlk%demo_only [= <-]. subst t.
  replace (tb_next_row_id demo) with 3%N by (vm_compute; reflexivity). unfold u64_max. lia.
Qed.

Definition insert_three : Statement :=
  Insert "t" None (InsertValues [[ELiteral (VInteger 3); ELiteral (VText "c")]]) [].
Definition demo_catalog' : Catalog :=
  match execute_catalog demo_catalog insert_three with Ok (c, _) => c | _ => demo_catalog end.

Lemma execute_catalog_atomic_witness : CatalogOk demo_catalog' ∧ CatalogValid demo_catalog'.
Proof.
  destruct (execute_catalog_atomic demo_catalog insert_three demo_catalog' (RRowsAffected 1))
    as (_ & Ho & Hv).
  - apply demo_catalog_ok.
  - apply demo_catalog_room. cbn. lia.
  - vm_compute. reflexivity.
  - split; [exact Ho|]. apply Hv; [done..|]. apply fk_arity_okb_sound. vm_compute. reflexivity.
Defined.

Definition create_t : Statement :=
  CreateTable "t" [column_new "id" TInteger; column_new "v" TText] [CPrimaryKey None ["id"]] false.
Definition after (c : Catalog) (s : Statement) : Catalog :=
  match execute c s with Ok (c', _) => c' | _ => c end.
Definition history : Catalog := after (after catalog_default create_t) insert_three.

Lemma history_reachable : reachable history 2.
Proof.
  apply (reach_write (after catalog_default create_t) 1 insert_three _ (RRowsAffected 1));
    [|..|done|done].
  - apply (reach_write catalog_default 0 create_t _ (RTableCreated "t")); [constructor|done|..|done|done].
    vm_compute. reflexivity.
  - intros t rows Ht [= <-].
    assert (tb_next_row_id <$> cat_tables (after catalog_default create_t) !! "t" = Some 1%N) as Hn
      by (vm_compute; reflexivity).
    change (cat_tables (after catalog_default create_t) !! "t" = Some t) in Ht.
    rewrite Ht in Hn. cbn in Hn.
    injection Hn as ->. done.
  - vm_compute. reflexivity.
Qed.

Lemma history_integrity_witness :
  CatalogOk history ∧ CatalogValid history ∧ cat_version history = 2%N.
Proof.
  destruct (history_integrity history 2) as (Ho & Hv & Hn); [apply history_reachable|].
  split; [exact Ho|]. split; [|by apply Hn]. apply Hv, fk_arity_okb_sound. vm_compute. reflexivity.
Defined.

Lemma insert_appends_witness :
  ∃ t values rows t', cat_tables demo_catalog !! to_ascii_lowercase "T" = Some t ∧
    source_rows demo_catalog (InsertValues [[ELiteral (VInteger 3)]]) = Ok values ∧
    mapM (build_row (tb_schema t) (Some ["ID"])) values = Ok rows ∧
    match execute_insert demo_catalog "T" (Some ["ID"]) (InsertValues [[ELiteral (VInteger 3)]]) [] with
    | Ok (c, _) => c | _ => demo_catalog end = insert_table demo_catalog (to_ascii_lowercase "T") t' ∧
    tb_rows t' = tb_rows t ++ rows ∧ tb_row_ids t `prefix_of` tb_row_ids t' ∧ 1 = length rows.
Proof. apply insert_appends. vm_compute. reflexivity. Defined.

Lemma demo_indexable z : indexable demo (Some (id_is z)).
Proof.
  split_and!; [apply demo_coherent|apply demo_wide|apply demo_index_columns|].
  intros e [= <-]. apply demo_typed.
Qed.

Lemma update_is_full_scan_witness :
  execute_update demo_catalog "t" [("v", ELiteral (VText "z"))] (Some (id_is 2)) =
  store_and_validate demo_catalog "t"
    (rebuild_index (set_rows demo [demo_row 1 "a"; demo_row 2 "z"])) 1.
Proof.
  apply (update_is_full_scan demo_catalog "t" demo [("v", ELiteral (VText "z"))] (Some (id_is 2))
    [(demo_row 1 "a", false); (demo_row 2 "z", true)]);
    [vm_compute; reflexivity|apply demo_indexable|vm_compute; reflexivity].
Defined.

Lemma delete_is_full_scan_witness :
  execute_delete demo_catalog "t" (Some (id_is 2)) =
  store_and_validate demo_catalog "t" (rebuild_index (with_rows demo [demo_row 1 "a"] [1%N])) 1.
Proof.
  apply (delete_is_full_scan demo_catalog "t" demo (Some (id_is 2)) [(demo_row 1 "a", 1%N)]);
    [vm_compute; reflexivity|apply demo_indexable|vm_compute; reflexivity].
Defined.

Lemma drop_table_restricted_witness :
  let c' := match execute_drop_table demo_catalog "T" false with Ok (c, _) => c | _ => demo_catalog end in
  ((false = false ↔ ∀ other t k, cat_tables demo_catalog !! other = Some t → other ≠ "t" →
     k ∈ schema_constraints (tb_schema t) → references_table "t" k = false) ∧
   cat_tables c' = delete "t" (cat_tables demo_catalog)).
Proof.
  apply (drop_table_restricted demo_catalog "T" false _ (RTableDropped "t"));
    [by exists demo|vm_compute; reflexivity].
Defined.
End integrity_witnesses.
