(* ===== verification/Alter.v ===== *)
(** * Alter.v: what schema changes mean

    Theorems about Ddl.v: a created table is well formed, ALTER keeps every
    table rectangular, added columns are filled, renaming a column keeps the
    meaning of the constraints, and dropping one can strand a CHECK. *)

From S2P Require Import Prelude Machine Float64 Like Types Concrete Keys Table Eval Queries.
From S2P Require Import Statement Planner Validate Ddl Execute Integrity.

(** ** Positions of accepted elements *)

Lemma elem_of_positions {A} (p : A → bool) l i :
  i ∈ positions p l ↔ ∃ x, l !! i = Some x ∧ p x = true.
Proof.
  unfold positions. rewrite list_elem_of_fmap. split.
  - intros ([j x] & -> & [Hp Hin]%list_elem_of_filter). exists x. cbn in Hp.
    apply elem_of_imap_pair in Hin. split; [done|by apply Is_true_true_1].
  - intros (x & Hx & Hp). exists (i, x). split; [done|]. apply list_elem_of_filter.
    split; [by apply Is_true_true_2|by apply elem_of_imap_pair].
Qed.

(** The positions depend on the verdicts alone. *)
Lemma positions_ext {A B} (p : A → bool) (q : B → bool) l k :
  p <$> l = q <$> k → positions p l = positions q k.
Proof.
  revert k. induction l as [|x l IH]; intros [|y k]; try done.
  intros [= Hpq Hlk]. rewrite !positions_cons, Hpq. by erewrite IH.
Qed.

Lemma list_lookup_insert_cases {A} (l : list A) i j x y :
  l !! j = Some y → <[i := x]> l !! j = Some (if decide (j = i) then x else y).
Proof.
  intros Hj. destruct (decide (j = i)) as [->|Hne].
  - apply list_lookup_insert_eq. by eapply lookup_lt_Some.
  - by rewrite list_lookup_insert_ne.
Qed.

Section alter.
Context `{RustStd}.

(** ** Renaming a column *)

Definition column_names (s : TableSchema) : list string := col_name <$> schema_columns s.

Lemma table_columns_names t table :
  table_columns t table =
  (λ n, {| bc_table := table; bc_name := n |}) <$> column_names (tb_schema t).
Proof. unfold table_columns, column_names. by rewrite <-list_fmap_compose. Qed.

Lemma column_index_name s name i :
  column_index s name = Some i →
  ∃ n, column_names s !! i = Some n ∧ eq_ignore_ascii_case n name = true.
Proof.
  intros (col & Hcol & Hn & _)%position_Some. exists (col_name col).
  unfold column_names. by rewrite list_lookup_fmap, Hcol.
Qed.

Lemma column_index_missing s name j n :
  column_index s name = None → column_names s !! j = Some n → eq_ignore_ascii_case n name = false.
Proof.
  intros Hnone Hn. unfold column_names in Hn. apply list_lookup_fmap_Some in Hn as (col & -> & Hcol).
  unfold column_index in Hnone. rewrite position_None in Hnone.
  by apply (Hnone col), list_elem_of_lookup_2 with j.
Qed.

(** What resolving in one table means for its column names. *)
Lemma resolve_table_spec t table q name k :
  resolve_column (table_columns t table) q name = Ok k →
  is_none_or (λ qualifier, eq_ignore_ascii_case table qualifier) q = true ∧
  (∃ n, column_names (tb_schema t) !! k = Some n ∧ eq_ignore_ascii_case n name = true) ∧
  ∀ j n, column_names (tb_schema t) !! j = Some n → eq_ignore_ascii_case n name = true → j = k.
Proof.
  intros Hpos%resolve_column_position. rewrite table_columns_names in Hpos.
  assert (∀ j, j ∈ [k] ↔ ∃ n, column_names (tb_schema t) !! j = Some n ∧
    column_matches q name {| bc_table := table; bc_name := n |} = true) as Hj.
  { intros j. rewrite <-Hpos, elem_of_positions. split.
    - intros (x & (n & -> & Hn)%list_lookup_fmap_Some & Hm). by exists n.
    - intros (n & Hn & Hm). eexists. split; [|exact Hm]. by rewrite list_lookup_fmap, Hn. }
  unfold column_matches in Hj. cbn in Hj.
  assert (k ∈ [k]) as (n & Hn & [Hm Hq]%andb_true_iff)%Hj by set_solver.
  split_and!; [done|by exists n|]. intros j n' Hn' Hm'. apply list_elem_of_singleton, Hj.
  exists n'. rewrite Hm'. auto.
Qed.

(** The verdict on a column name after the renaming is the one before it. *)
Lemma renamed_verdict s name old new i k j n :
  column_index s old = Some i → column_index s new = None →
  (∃ n, column_names s !! k = Some n ∧ eq_ignore_ascii_case n name = true) →
  (∀ j n, column_names s !! j = Some n → eq_ignore_ascii_case n name = true → j = k) →
  column_names s !! j = Some n →
  eq_ignore_ascii_case (if decide (j = i) then new else n)
    (if eq_ignore_ascii_case name old then new else name) = eq_ignore_ascii_case n name.
Proof.
  intros Hi Hnew (nk & Hnk & Hnkn) Honly Hn.
  destruct (column_index_name _ _ _ Hi) as (m & Hm & Hmo).
  pose proof (column_index_missing _ _ j n Hnew Hn) as Hfresh.
  pose proof (column_index_missing _ _ k nk Hnew Hnk) as Hfreshk.
  specialize (Honly j n Hn) as Honlyj. specialize (Honly i m Hm) as Honlyi.
  unfold eq_ignore_ascii_case in *. rewrite bool_decide_eq_true in Hmo, Hnkn, Honlyj, Honlyi.
  rewrite bool_decide_eq_false in Hfresh, Hfreshk.
  destruct (bool_decide (_ name = _ old)) eqn:Hno;
    [apply bool_decide_eq_true in Hno|apply bool_decide_eq_false in Hno];
    apply bool_decide_ext; destruct (decide (j = i)) as [->|Hne]; split; intros Heq; try congruence;
    exfalso; try (apply Hne; rewrite (Honlyj ltac:(congruence)); symmetry; apply Honlyi; congruence);
    congruence.
Qed.

(** A name that resolves in a table resolves, after the renaming, to the
    same column. *)
Lemma resolve_renamed t t' table q name old new i k :
  column_index (tb_schema t) old = Some i → column_index (tb_schema t) new = None →
  column_names (tb_schema t') = <[i := new]> (column_names (tb_schema t)) →
  resolve_column (table_columns t table) q name = Ok k →
  resolve_column (table_columns t' table) q (if eq_ignore_ascii_case name old then new else name) = Ok k.
Proof.
  intros Hi Hnew Hnames Hk. destruct (resolve_table_spec _ _ _ _ _ Hk) as (Hq & Hnk & Honly).
  apply resolve_column_position in Hk. unfold resolve_column.
  enough (positions (column_matches q (if eq_ignore_ascii_case name old then new else name))
    (table_columns t' table) = [k]) as -> by done.
  rewrite <-Hk. symmetry. apply positions_ext. rewrite !table_columns_names, Hnames.
  rewrite <-!list_fmap_compose. apply list_eq. intros j. rewrite !list_lookup_fmap.
  destruct (column_names (tb_schema t) !! j) as [n|] eqn:Hn.
  - rewrite (list_lookup_insert_cases _ _ _ _ _ Hn). cbn. f_equal. unfold column_matches. cbn.
    rewrite Hq, !andb_true_r. symmetry. by eapply renamed_verdict.
  - by rewrite (proj2 (lookup_ge_None _ _)) by (rewrite length_insert; by apply lookup_ge_None).
Qed.

(** *** Expressions *)

(** Row expressions: those the renaming reaches, without subqueries or
    aggregates. *)
Fixpoint row_expression (e : Expr) : bool :=
  match e with
  | EColumn _ _ | ELiteral _ => true
  | EBinary l _ r => row_expression l && row_expression r
  | EUnary _ e | EIsNull e _ => row_expression e
  | ELike e p _ => row_expression e && row_expression p
  | EInList e items _ => row_expression e && forallb row_expression items
  | _ => false
  end.

Lemma eval_renamed c c' t t' table old new i e row ctes v :
  column_index (tb_schema t) old = Some i → column_index (tb_schema t) new = None →
  column_names (tb_schema t') = <[i := new]> (column_names (tb_schema t)) →
  row_expression e = true →
  eval_expr c e (table_columns t table) row None ctes = Ok v →
  eval_expr c' (rename_expr old new e) (table_columns t' table) row None ctes = Ok v.
Proof.
  intros Hi Hnew Hnames. revert v.
  apply (Expr_tree_ind (λ e, ∀ v, row_expression e = true →
    eval_expr c e (table_columns t table) row None ctes = Ok v →
    eval_expr c' (rename_expr old new e) (table_columns t' table) row None ctes = Ok v)
    (λ _, True) (λ _, True) (λ _, True) (λ _, True) (λ _, True) (λ _, True)); try done; clear e;
    cbn [row_expression rename_expr].
  - intros q name v _ Hv. rewrite eval_expr_unfold in Hv |- *. cbn [eval_expr_body] in Hv |- *.
    apply bind_Ok in Hv as (k & Hk & Hv).
    rewrite (resolve_renamed t t' table q name old new i k) by done. cbn [mbind outcome_bind].
    apply ok_or_Ok in Hv. by rewrite Hv.
  - intros l IHl op r IHr v [Hl Hr]%andb_true_iff Hv.
    rewrite eval_expr_unfold in Hv |- *. cbn [eval_expr_body] in Hv |- *.
    assert (∃ a, eval_expr c l (table_columns t table) row None ctes = Ok a) as [a Ha].
    { destruct op; apply bind_Ok in Hv as (a & Ha & _); eauto. }
    rewrite Ha in Hv. cbn [mbind outcome_bind] in Hv.
    destruct op; rewrite (IHl a Hl Ha); cbn [mbind outcome_bind];
      repeat case_bool_decide; try done;
      apply bind_Ok in Hv as (b & Hb & Hv); by rewrite (IHr b Hr Hb).
  - intros op e IH v He Hv. rewrite eval_expr_unfold in Hv |- *. cbn [eval_expr_body] in Hv |- *.
    apply bind_Ok in Hv as (a & Ha & Hv). by rewrite (IH a He Ha).
  - intros e IH negated v He Hv. rewrite eval_expr_unfold in Hv |- *. cbn [eval_expr_body] in Hv |- *.
    apply bind_Ok in Hv as (a & Ha & Hv). by rewrite (IH a He Ha).
  - intros e IHe p IHp negated v [He Hp]%andb_true_iff Hv.
    rewrite eval_expr_unfold in Hv |- *. cbn [eval_expr_body] in Hv |- *.
    apply bind_Ok in Hv as (a & Ha & Hv). apply bind_Ok in Hv as (b & Hb & Hv).
    by rewrite (IHe a He Ha), (IHp b Hp Hb).
  - intros e IHe items IHitems negated v [He Hs]%andb_true_iff Hv.
    rewrite eval_expr_unfold in Hv |- *. cbn [eval_expr_body] in Hv |- *.
    apply bind_Ok in Hv as (a & Ha & Hv). apply bind_Ok in Hv as (vs & Hvs & Hv).
    rewrite (IHe a He Ha). cbn [mbind outcome_bind].
    enough (mapM (λ item, eval_expr c' item (table_columns t' table) row None ctes)
      (map (rename_expr old new) items) = Ok vs) as -> by done.
    rewrite mapM_Ok in *. apply list_all_Forall in IHitems. clear -IHitems Hs Hvs.
    induction Hvs as [|x y xs ys Hx _ IH]; [constructor|]. cbn in Hs.
    apply andb_true_iff in Hs as [Hs Hss]. apply Forall_cons in IHitems as [IHx IHxs].
    constructor; [by apply IHx|by apply IH].
Qed.
(** *** The final refresh *)

Lemma alter_names f i (l : list ColumnDef) :
  (∀ c, col_name (f c) = col_name c) → col_name <$> alter f i l = col_name <$> l.
Proof.
  intros Hf. apply list_eq. intros j. rewrite !list_lookup_fmap, list_lookup_alter.
  case_decide; [subst j|done]. destruct (l !! i); [|done]. cbn. by rewrite Hf.
Qed.

Lemma update_first_names p f (l : list ColumnDef) :
  (∀ c, col_name (f c) = col_name c) → col_name <$> update_first p f l = col_name <$> l.
Proof. intros Hf. unfold update_first. destruct (position p l); [|done]. by apply alter_names. Qed.

Lemma foldl_names {A} (f : list ColumnDef → A → list ColumnDef) l columns :
  (∀ columns x, col_name <$> f columns x = col_name <$> columns) →
  col_name <$> foldl f columns l = col_name <$> columns.
Proof. intros Hf. revert columns. induction l as [|x l IH]; intros columns; cbn; [done|]. by rewrite IH. Qed.

Lemma mark_primary_names key columns : col_name <$> mark_primary key columns = col_name <$> columns.
Proof. apply foldl_names. intros. by apply update_first_names. Qed.

Lemma refresh_schema_names s : column_names (refresh_schema s) = column_names s.
Proof.
  unfold column_names, refresh_schema. cbn [schema_columns with_indexes with_columns].
  rewrite foldl_names.
  - rewrite <-list_fmap_compose. by apply list_fmap_ext.
  - intros columns [name key|name [|k [|]]|name e|fk]; cbn; try done;
      [apply mark_primary_names|by apply update_first_names].
Qed.

(** ** Declared keys and their indexes *)

(** The indexes that the constraints and column flags call for are there. *)
Definition declared (t : Table) : Prop :=
  automatic_indexes (tb_schema t) ⊆ schema_indexes (tb_schema t).
Definition CatalogDeclared (c : Catalog) : Prop := map_Forall (λ _ t, declared t) (cat_tables c).

Lemma refresh_declared t : declared (refresh_constraint_metadata t).
Proof.
  intros d Hd. apply elem_of_app. left. exact Hd.
Qed.

Lemma insert_table_declared c n t : CatalogDeclared c → declared t → CatalogDeclared (insert_table c n t).
Proof. intros Hc Ht. by apply map_Forall_insert_2. Qed.

Lemma same_schema_declared t t' : tb_schema t' = tb_schema t → declared t → declared t'.
Proof. unfold declared. by intros ->. Qed.

Lemma automatic_are_automatic s d : d ∈ automatic_indexes s → index_automatic d = true.
Proof.
  unfold automatic_indexes. intros Hd.
  assert (∀ columns l, Forall (λ d, index_automatic d = true) l →
    Forall (λ d, index_automatic d = true) (foldl (add_column_index (schema_name s)) l columns)) as Hgen.
  { induction columns as [|col columns IH]; intros l Hl; [done|]. cbn. apply IH.
    unfold add_column_index. repeat case_match; try done; apply Forall_app; auto. }
  revert d Hd. apply Forall_forall, Hgen, Forall_forall.
  intros x (k & _ & Hk)%list_elem_of_omap. destruct k; cbn in Hk; by simplify_eq.
Qed.

Lemma elem_of_remove_at {A} i (l : list A) x y :
  l !! i = Some y → x ∈ l → x ≠ y → x ∈ remove_at i l.
Proof.
  intros Hi Hx Hne. rewrite <-(take_drop_middle l i y Hi) in Hx. unfold remove_at. set_solver.
Qed.

Lemma create_table_declared c n cols ks e c' r :
  CatalogDeclared c → execute_create_table c n cols ks e = Ok (c', r) → CatalogDeclared c'.
Proof.
  intros Hc Hx. unfold execute_create_table in Hx.
  destruct (cat_tables c !! _); [by simplify_eq|].
  destruct (duplicate_column _ _); [by simplify_eq|].
  apply or_error_Ok in Hx as [(st & _ & Hx)|(? & _ & ?)]; [|by simplify_eq].
  case_decide; simplify_eq; [done|]. apply insert_table_declared; [done|]. intros d Hd. exact Hd.
Qed.

Lemma drop_table_declared c n e c' r :
  CatalogDeclared c → execute_drop_table c n e = Ok (c', r) → CatalogDeclared c'.
Proof.
  intros Hc Hx. unfold execute_drop_table in Hx.
  destruct (cat_tables c !! _); [|by simplify_eq].
  destruct (find_first _ _) as [[]|]; simplify_eq; [done|]. by apply map_Forall_delete.
Qed.

Lemma create_index_declared c n tn cols u e c' r :
  CatalogDeclared c → execute_create_index c n tn cols u e = Ok (c', r) → CatalogDeclared c'.
Proof.
  intros Hc Hx. unfold execute_create_index in Hx.
  destruct (cat_tables c !! _) as [t|] eqn:Ht; [|by simplify_eq].
  destruct (existsb _ _); [by simplify_eq|]. case_bool_decide; [by simplify_eq|].
  destruct (find_first _ _); [by simplify_eq|].
  apply or_error_Ok in Hx as [(st & _ & Hx)|(? & _ & ?)]; simplify_eq; [|done].
  apply insert_table_declared; [done|]. specialize (Hc _ _ Ht). unfold declared in *. cbn.
  unfold automatic_indexes in *. cbn. set_solver.
Qed.

Lemma drop_index_declared c n tn e c' r :
  CatalogDeclared c → execute_drop_index c n tn e = Ok (c', r) → CatalogDeclared c'.
Proof.
  intros Hc Hx. unfold execute_drop_index in Hx.
  destruct (cat_tables c !! _) as [t|] eqn:Ht; [|by simplify_eq].
  destruct (position _ _) as [i|]; [|by simplify_eq]. apply bind_Ok in Hx as (d & Hd & Hx).
  destruct (index_automatic d) eqn:Ha; simplify_eq; [done|].
  apply insert_table_declared; [done|]. specialize (Hc _ _ Ht). apply vec_index_Ok in Hd.
  intros x Hx. cbn. change (x ∈ automatic_indexes (tb_schema t)) in Hx.
  eapply elem_of_remove_at; [done|by apply Hc|]. intros ->.
  apply automatic_are_automatic in Hx. congruence.
Qed.

Lemma rename_in_others_declared n o o' tables :
  map_Forall (λ _ t, declared t) tables → map_Forall (λ _ t, declared t) (rename_in_others n o o' tables).
Proof.
  intros Hc name t Hlk. unfold rename_in_others in Hlk. rewrite map_lookup_imap in Hlk.
  destruct (tables !! name) as [t0|] eqn:Ht; [|done]. cbn in Hlk. injection Hlk as <-.
  specialize (Hc _ _ Ht). case_bool_decide; [done|]. destruct (existsb _ _); [|done].
  apply refresh_declared.
Qed.

Lemma apply_alter_declared c n t op c' t' :
  CatalogDeclared c → apply_alter_operation c n t op = Ok (c', t') → CatalogDeclared c'.
Proof.
  intros Hc Hx. destruct op; cbn in Hx.
  3: { apply bind_Ok in Hx as ([c1 t1] & Hr & [= <- <-]). unfold alter_rename_column in Hr.
       case_bool_decide; [done|]. apply bind_Ok in Hr as (i & _ & [= <- <-]).
       by apply rename_in_others_declared. }
  all: unfold refreshed, refreshed_opt in Hx; apply bind_Ok in Hx as (? & _ & [= <- <-]); done.
Qed.

Lemma alter_loop_declared c n t ops c' r :
  CatalogDeclared c → alter_loop c n t ops = Ok (c', r) → CatalogDeclared c'.
Proof.
  revert c t. induction ops as [|op ops IH]; intros c t Hc Hx; cbn in Hx.
  - simplify_eq. apply insert_table_declared; [done|apply refresh_declared].
  - apply or_error_Ok in Hx as [([c1 t1] & Ha & Hx)|(? & _ & ?)]; [|by simplify_eq].
    eapply IH; [|exact Hx]. by eapply apply_alter_declared.
Qed.

Lemma store_declared c n t count c' r :
  CatalogDeclared c → declared t → store_and_validate c n t count = Ok (c', r) → CatalogDeclared c'.
Proof.
  intros Hc Ht Hx. assert (c' = insert_table c n t) as ->.
  { unfold store_and_validate in Hx. apply or_error_Ok in Hx as [(? & _ & ?)|(? & _ & ?)];
      by simplify_eq. }
  by apply insert_table_declared.
Qed.

Lemma insert_one_schema c n od st row st' :
  insert_one c n od st row = Ok st' → tb_schema st'.1 = tb_schema st.1.
Proof.
  destruct st as [t count]. intros Hx. unfold insert_one in Hx.
  destruct (elements _) as [|p [|p' ps]].
  - apply bind_Ok in Hx as (t' & Hi & [= <-]). unfold insert_row_indexed in Hi. by inv_ok.
  - destruct od as [|a od]; [done|]. apply bind_Ok in Hx as ([t' k] & Hd & [= <-]). cbn.
    unfold duplicate_update in Hd. apply bind_Ok in Hd as (cur & _ & Hd).
    apply bind_Ok in Hd as (upd & _ & Hd). destruct (values_eqb _ _); [by simplify_eq|].
    apply bind_Ok in Hd as (t1 & Hr & [= -> _]). unfold replace_row_indexed in Hr. by inv_ok.
  - by destruct od.
Qed.

Lemma execute_statement_declared `{StatementDebug} c s c' r :
  CatalogDeclared c → execute_statement c s = Ok (c', r) → CatalogDeclared c'.
Proof.
  intros Hc. destruct s; cbn [execute_statement]; try (by intros [= <- <-]).
  - by apply create_table_declared.
  - by apply drop_table_declared.
  - by apply create_index_declared.
  - by apply drop_index_declared.
  - unfold execute_alter_table. destruct (cat_tables c !! _) as [t|] eqn:Ht; [|by intros [= <- <-]].
    by apply alter_loop_declared.
  - intros Hx. unfold execute_insert in Hx.
    apply or_error_Ok in Hx as [(values & _ & Hx)|(? & _ & ?)]; [|by simplify_eq].
    destruct (cat_tables c !! _) as [t|] eqn:Ht; [|by simplify_eq].
    apply or_error_Ok in Hx as [(rows & _ & Hx)|(? & _ & ?)]; [|by simplify_eq].
    apply or_error_Ok in Hx as [(st & Hst & Hx)|(? & _ & ?)]; [|by simplify_eq].
    eapply store_declared; [done| |done]. apply (same_schema_declared t); [|by eapply Hc].
    refine (foldM_inv (λ st : Table * nat, tb_schema st.1 = tb_schema t) _ _ (t, 0) _ eq_refl _ Hst).
    intros st1 row st2 _ Hs Hstep. by rewrite (insert_one_schema _ _ _ _ _ _ Hstep).
  - intros Hx. by apply or_error_Ok in Hx as [(? & _ & ?)|(? & _ & ?)]; simplify_eq.
  - intros Hx. unfold execute_update in Hx.
    destruct (cat_tables c !! _) as [t|] eqn:Ht; [|by simplify_eq].
    apply or_error_Ok in Hx as [(res & _ & Hx)|(? & _ & ?)]; [|by simplify_eq].
    eapply store_declared; [done| |done]. by apply (same_schema_declared t), (Hc _ _ Ht).
  - intros Hx. unfold execute_delete in Hx.
    destruct (cat_tables c !! _) as [t|] eqn:Ht; [|by simplify_eq].
    apply or_error_Ok in Hx as [([[rows row_ids] d] & _ & Hx)|(? & _ & ?)]; [|by simplify_eq].
    eapply store_declared; [done| |done]. by apply (same_schema_declared t), (Hc _ _ Ht).
Qed.

Lemma execute_declared `{StatementDebug} c s c' r :
  CatalogDeclared c → execute c s = Ok (c', r) → CatalogDeclared c'.
Proof.
  intros Hc Hx. unfold execute in Hx. destruct (is_transaction_control s); [by simplify_eq|].
  destruct (is_write_statement s) eqn:Hw; apply bind_Ok in Hx as ([w r'] & Hcat & Hx); [|by simplify_eq].
  destruct (is_error r'); simplify_eq; [done|]. unfold execute_catalog in Hcat. rewrite Hw in Hcat.
  apply bind_Ok in Hcat as ([w' r''] & Hs & Hcat). apply execute_statement_declared in Hs; [|done].
  assert (CatalogDeclared w) as Hgoal; [|exact Hgoal].
  destruct (is_error r''); [by simplify_eq|].
  by apply or_error_Ok in Hcat as [([] & _ & [= <- <-])|(? & _ & ?)]; simplify_eq.
Qed.

Lemma reachable_declared `{StatementDebug} c n : reachable c n → CatalogDeclared c.
Proof.
  induction 1; [apply map_Forall_empty|..]; by eapply execute_declared.
Qed.

(** A column list declared unique has a unique index on it. *)
Lemma key_constraint_index s k columns :
  k ∈ schema_constraints s →
  (∃ name, k = CPrimaryKey name columns ∨ k = CUnique name columns) →
  ∃ d, d ∈ automatic_indexes s ∧ index_columns d = columns ∧ index_unique d = true.
Proof.
  intros Hk (name & Hname).
  assert (∃ d, constraint_index (schema_name s) k = Some d ∧ index_columns d = columns ∧
    index_unique d = true) as (d & Hd & Hc & Hu) by (destruct Hname as [->| ->]; by eexists).
  exists d. split; [|done]. unfold automatic_indexes.
  assert (∀ cols l, d ∈ l → d ∈ foldl (add_column_index (schema_name s)) l cols) as Hgen.
  { induction cols as [|col cols IH]; intros l Hl; [done|]. cbn. apply IH.
    unfold add_column_index. repeat case_match; set_solver. }
  apply Hgen, list_elem_of_omap. eauto.
Qed.

(** With distinct names, an index of the schema is the one under its name. *)
Lemma index_by_definition t d :
  Coherent t → NoDup (index_name <$> schema_indexes (tb_schema t)) →
  d ∈ schema_indexes (tb_schema t) →
  ∃ ix, tb_indexes t !! index_name d = Some ix ∧ ix_definition ix = d.
Proof.
  intros Hco Hnd Hd. assert (index_name d ∈ dom (tb_indexes t)) as [ix Hix]%elem_of_dom.
  { rewrite (co_names _ Hco). set_solver. }
  exists ix. split; [done|]. destruct (co_definition _ Hco _ _ Hix) as [Hname Hin].
  apply list_elem_of_lookup in Hin as [i Hi], Hd as [j Hj].
  assert (i = j) as ->; [|congruence].
  eapply (NoDup_lookup (index_name <$> _)); [done|rewrite list_lookup_fmap, Hi; done|].
  rewrite list_lookup_fmap, Hj. cbn. congruence.
Qed.
End alter.

(** ** Properties *)

Section properties.
Context `{RustStd}.

(** C32. Every PRIMARY KEY and UNIQUE constraint a history of statements has
    declared is enforced, whatever the ALTERs in between: in every reachable
    catalog, where the indexes of a table have distinct names, no two rows of
    the table share a NULL-free key on the constraint's columns. *)
Theorem declared_keys_enforced `{StatementDebug} c n tn t k columns p q row row' key :
  reachable c n → (n ≤ u64_max)%N → fk_arity_ok c →
  cat_tables c !! tn = Some t → NoDup (index_name <$> schema_indexes (tb_schema t)) →
  k ∈ schema_constraints (tb_schema t) →
  (∃ name, k = CPrimaryKey name columns ∨ k = CUnique name columns) →
  tb_rows t !! p = Some row → tb_rows t !! q = Some row' →
  index_key (tb_schema t) row columns = Some key →
  index_key (tb_schema t) row' columns = Some key → KNull ∉ key → p = q.
Proof.
  intros Hr Hn Har Ht Hnd Hk Hshape Hp Hq Hkey Hkey' Hnull.
  destruct (reachable_ok _ _ Hr) as (Hco & Hval & _). specialize (Hval Har).
  destruct (key_constraint_index _ _ _ Hk Hshape) as (d & Hd & <- & Hu).
  apply (reachable_declared _ _ Hr _ _ Ht) in Hd.
  destruct (index_by_definition t d (Hco _ _ Ht) Hnd Hd) as (ix & Hix & <-).
  by apply (tv_unique _ _ (Hval _ _ Ht) _ _ p q row row' key Hix Hu).
Qed.

(** Renaming a column keeps the rows and the meaning of every CHECK that is
    a row expression: the renamed constraint is in the new schema and gives
    each row the value the old one gave. *)
Theorem rename_preserves_checks c tn t old new c' t' name e :
  apply_alter_operation c tn t (RenameColumn old new) = Ok (c', t') →
  CCheck name e ∈ schema_constraints (tb_schema t) → row_expression e = true →
  tb_rows t' = tb_rows t ∧
  CCheck name (rename_expr old new e) ∈ schema_constraints (tb_schema t') ∧
  ∀ table row v, eval_expr c e (table_columns t table) row None ∅ = Ok v →
    eval_expr c' (rename_expr old new e) (table_columns t' table) row None ∅ = Ok v.
Proof.
  intros Hx Hk He. cbn in Hx. apply bind_Ok in Hx as ([c1 t1] & Hr & [= <- <-]).
  unfold alter_rename_column in Hr. case_bool_decide as Hnew; [done|].
  apply bind_Ok in Hr as (i & Hi%ok_or_Ok & [= <- <-]). apply eq_None_not_Some in Hnew.
  split_and!; [done| |].
  - cbn. apply list_elem_of_fmap. by exists (CCheck name e).
  - intros table row v Hv. eapply (eval_renamed c _ t _ table old new i); [done..| |done|done].
    cbn [tb_schema refresh_constraint_metadata rebuild_index with_schema].
    rewrite refresh_schema_names. unfold column_names. cbn. rewrite list_fmap_alter with
      (h := λ _, new) by (by apply Forall_true).
    apply column_index_name in Hi as (n & Hn & _). unfold column_names in Hn.
    apply list_eq. intros j. rewrite list_lookup_alter. case_decide as Hj.
    + subst j. rewrite Hn. cbn. symmetry. apply list_lookup_insert_eq. by eapply lookup_lt_Some.
    + by rewrite list_lookup_insert_ne.
Qed.

Lemma duplicate_column_None seen columns :
  duplicate_column seen columns = None →
  NoDup (to_ascii_lowercase ∘ col_name <$> columns) ∧
  ∀ c, c ∈ columns → to_ascii_lowercase (col_name c) ∉ seen.
Proof.
  revert seen. induction columns as [|col columns IH]; intros seen Hd; cbn in Hd.
  - split; [constructor|set_solver].
  - case_bool_decide as Hin; [done|]. apply IH in Hd as [Hnd Hno]. split.
    + rewrite fmap_cons. constructor; [|done]. intros (c & Hc & Hcin)%list_elem_of_fmap.
      apply (Hno c Hcin). cbn in Hc. rewrite <-Hc. set_solver.
    + intros c [->|Hc]%elem_of_cons; [done|]. specialize (Hno c Hc). set_solver.
Qed.

Lemma create_constraint_spec seen st c st' :
  create_constraint seen st c = Ok st' →
  col_name <$> st'.1 = col_name <$> st.1 ∧
  st'.2 = (if is_primary c then S st.2 else st.2) ∧
  ∀ column, column ∈ constraint_columns c → to_ascii_lowercase column ∈ seen.
Proof.
  destruct st as [columns n]. unfold create_constraint. intros Hc.
  assert (∀ A (m n : A), match find_first (λ column, negb (bool_decide (to_ascii_lowercase column ∈ seen)))
      (constraint_columns c) with Some column => Err ("Unknown constrained column '" +:+ column +:+ "'")
      | None => Ok m end = Ok n →
    m = n ∧ ∀ column, column ∈ constraint_columns c → to_ascii_lowercase column ∈ seen) as Hfind.
  { intros A m m' Hm. destruct (find_first _ _) eqn:E; [done|]. injection Hm as <-. split; [done|].
    intros column Hcol. rewrite find_first_None in E. specialize (E column Hcol).
    by apply negb_false_iff, bool_decide_eq_true in E. }
  destruct c; cbn in *; try (apply Hfind in Hc as [<- Hcols]; cbn); try (injection Hc as <-; cbn);
    split_and!; try done; try apply mark_primary_names; set_solver.
Qed.

Lemma create_constraints_spec seen constraints st st' :
  foldM (create_constraint seen) st constraints = Ok st' →
  col_name <$> st'.1 = col_name <$> st.1 ∧
  st'.2 = st.2 + length (filter is_primary constraints) ∧
  ∀ k column, k ∈ constraints → column ∈ constraint_columns k → to_ascii_lowercase column ∈ seen.
Proof.
  revert st. induction constraints as [|k constraints IH]; intros st Hf.
  - cbn in Hf. simplify_eq. split_and!; [done|cbn; lia|set_solver].
  - rewrite foldM_cons in Hf. apply bind_Ok in Hf as (st1 & Hs & Hf).
    apply create_constraint_spec in Hs as (Hn1 & Hc1 & Hk1). apply IH in Hf as (Hn & Hc & Hks).
    split_and!.
    + by rewrite Hn.
    + rewrite Hc, Hc1, filter_cons.
      case_decide as Hd; destruct (is_primary k); cbn in Hd; cbn [length];
        first [lia | by destruct Hd].
    + intros k' column [->|Hk']%elem_of_cons Hcol; [by apply Hk1|by eapply Hks].
Qed.

(** A table that CREATE TABLE adds is well formed: its columns are the
    given ones by name, distinct up to case, it has at most one primary key,
    every constraint names columns of the table, and it starts empty. *)
Theorem created_table_wellformed c tn columns constraints if_not_exists c' name :
  cat_tables c !! to_ascii_lowercase tn = None →
  execute_create_table c tn columns constraints if_not_exists = Ok (c', RTableCreated name) →
  ∃ t, c' = insert_table c (to_ascii_lowercase tn) t ∧ tb_rows t = [] ∧
    column_names (tb_schema t) = col_name <$> columns ∧
    NoDup (to_ascii_lowercase <$> column_names (tb_schema t)) ∧
    schema_constraints (tb_schema t) = constraints ∧
    length (filter is_primary constraints) ≤ 1 ∧
    ∀ k column, k ∈ constraints → column ∈ constraint_columns k →
      is_Some (column_index (tb_schema t) column).
Proof.
  intros Hnone Hx. unfold execute_create_table in Hx. rewrite Hnone in Hx.
  destruct (duplicate_column _ _) eqn:Hdup; [by simplify_eq|].
  apply duplicate_column_None in Hdup as [Hnd _].
  apply or_error_Ok in Hx as [(st & Hst & Hx)|(? & _ & ?)]; [|by simplify_eq].
  case_decide as Hpk; [by simplify_eq|]. injection Hx as <- _.
  apply create_constraints_spec in Hst as (Hnames & Hcount & Hcols). cbn in Hnames, Hcount.
  eexists. split; [reflexivity|]. unfold column_names. cbn. rewrite Hnames.
  rewrite <-list_fmap_compose. split_and!; try done; [lia|].
  intros k column Hk Hcol. specialize (Hcols k column Hk Hcol).
  apply elem_of_list_to_set, list_elem_of_fmap in Hcols as (col & Hcase & Hin).
  unfold column_index. cbn. destruct (position (column_named column) st.1) eqn:E; [by eexists|].
  rewrite position_None in E. assert (col_name col ∈ col_name <$> st.1) as Hin'.
  { rewrite Hnames. apply list_elem_of_fmap. eauto. }
  apply list_elem_of_fmap in Hin' as (col' & Heq & Hin'). specialize (E col' Hin').
  unfold column_named, eq_ignore_ascii_case in E. apply bool_decide_eq_false in E.
  destruct E. rewrite <-Heq. cbn in Hcase. congruence.
Qed.
End properties.

(** *** Witnesses and counterexamples *)

Section alter_examples.
#[local] Existing Instance concrete_std.
#[local] Instance debug_none : StatementDebug := λ _, "statement".

(** Running a script from a catalog; [None] if a statement panics. *)
Definition run_from (c : Catalog) (script : list Statement) : Catalog * list ExecutionResult :=
  foldl (λ st s, match execute st.1 s with
                 | Ok (c, r) => (c, st.2 ++ [r])
                 | _ => (st.1, st.2 ++ [RError "panic"])
                 end) (c, []) script.
Definition run := run_from catalog_default.
Definition rows_of (c : Catalog) (name : string) : option (list Row) :=
  tb_rows <$> cat_tables c !! name.

Definition int_col (name : string) : ColumnDef := column_new name TInteger.
Definition insert_values (table : string) (values : list Value) : Statement :=
  Insert table None (InsertValues [ELiteral <$> values]) [].
Definition positive (column : string) : Expr :=
  EBinary (EColumn None column) (OpCompare CmpGreaterThan) (ELiteral (VInteger 0)).

Lemma declared_keys_enforced_witness :
  rows_of history "t" = Some [[VInteger 3; VText "c"]] ∧ 0 = 0.
Proof.
  assert (rows_of history "t" = Some [[VInteger 3; VText "c"]]) as Hrows' by (vm_compute; reflexivity).
  split; [exact Hrows'|]. pose proof Hrows' as Hrows. unfold rows_of in Hrows.
  destruct (cat_tables history !! "t") as [t|] eqn:Ht; [|discriminate Hrows].
  cbn in Hrows. injection Hrows as Hrows.
  assert (tb_schema <$> cat_tables history !! "t" = Some
    {| schema_name := "t";
       schema_columns := [column_primary_key (column_new "id" TInteger); column_new "v" TText];
       schema_constraints := [CPrimaryKey None ["id"]];
       schema_indexes := [index_on "t_pk" ["id"] true] |}) as Hs by (vm_compute; reflexivity).
  rewrite Ht in Hs. injection Hs as Hs.
  apply (declared_keys_enforced history 2 "t" t (CPrimaryKey None ["id"]) ["id"] 0 0
    [VInteger 3; VText "c"] [VInteger 3; VText "c"] [KInteger 3]); rewrite ?Hs, ?Hrows; try reflexivity.
  - apply history_reachable.
  - done.
  - apply fk_arity_okb_sound. vm_compute. reflexivity.
  - exact Ht.
  - apply NoDup_singleton.
  - by apply list_elem_of_singleton.
  - exists None. by left.
  - by intros [=]%list_elem_of_singleton.
Defined.

Definition checked : Table :=
  table_new {| schema_name := "t"; schema_columns := [int_col "a"; int_col "b"];
    schema_constraints := [CCheck None (positive "B")]; schema_indexes := [] |}.
Definition renamed : Table :=
  match apply_alter_operation catalog_default "t" checked (RenameColumn "b" "c") with
  | Ok (_, t) => t
  | _ => checked
  end.

Lemma rename_preserves_checks_witness :
  tb_rows renamed = tb_rows checked ∧
  CCheck None (positive "c") ∈ schema_constraints (tb_schema renamed) ∧
  eval_expr catalog_default (positive "c") (table_columns renamed "t")
    [VInteger (-1); VInteger 1] None ∅ = Ok (VBoolean true).
Proof.
  destruct (rename_preserves_checks catalog_default "t" checked "b" "c" catalog_default renamed
    None (positive "B")) as (Hr & Hk & Hv).
  - vm_compute. reflexivity.
  - apply list_elem_of_singleton. vm_compute. reflexivity.
  - done.
  - split_and!; [exact Hr|exact Hk|]. apply (Hv "t" [VInteger (-1); VInteger 1]).
    vm_compute. reflexivity.
Defined.

Lemma created_table_wellformed_witness :
  ∃ t, after catalog_default create_t =
      catalog_at 1 (insert_table catalog_default "t" t) ∧ tb_rows t = [] ∧
    column_names (tb_schema t) = ["id"; "v"] ∧
    NoDup (to_ascii_lowercase <$> column_names (tb_schema t)) ∧
    schema_constraints (tb_schema t) = [CPrimaryKey None ["id"]] ∧
    length (filter is_primary [CPrimaryKey None ["id"]]) ≤ 1 ∧
    ∀ k column, k ∈ [CPrimaryKey None ["id"]] → column ∈ constraint_columns k →
      is_Some (column_index (tb_schema t) column).
Proof.
  destruct (created_table_wellformed catalog_default "T"
    [column_new "id" TInteger; column_new "v" TText] [CPrimaryKey None ["id"]] false
    (match execute_create_table catalog_default "T" [column_new "id" TInteger; column_new "v" TText]
       [CPrimaryKey None ["id"]] false with Ok (c, _) => c | _ => catalog_default end) "t")
    as (t & Hc & Hspec); [reflexivity|vm_compute; reflexivity|].
  exists t. split; [|exact Hspec].
  transitivity (catalog_at 1 (insert_table catalog_default (to_ascii_lowercase "T") t)); [|done].
  rewrite <-Hc. vm_compute. reflexivity.
Defined.

(** The condition on index names is needed: two UNIQUE constraints under one
    name are both accepted, but share one entry of the index map, so that rows
    that agree on the first constraint's column are stored. *)
Theorem shared_constraint_name_unenforced :
  let st := run [CreateTable "t" [int_col "a"; int_col "b"]
                   [CUnique (Some "u") ["a"]; CUnique (Some "u") ["b"]] false;
                 insert_values "t" [VInteger 1; VInteger 1];
                 insert_values "t" [VInteger 1; VInteger 2]] in
  st.2 = [RTableCreated "t"; RRowsAffected 1; RRowsAffected 1] ∧
  rows_of st.1 "t" = Some [[VInteger 1; VInteger 1]; [VInteger 1; VInteger 2]].
Proof. split; vm_compute; reflexivity. Qed.

(** DROP COLUMN overlooks CHECK constraints: the column of a CHECK can be
    dropped from an empty table, the constraint stays, and from then on every
    insertion is refused because the column is unknown. *)
Theorem drop_column_strands_check :
  (run [CreateTable "t" [int_col "a"; int_col "b"] [CCheck None (positive "b")] false;
        AlterTable "t" [DropColumn "b" false];
        insert_values "t" [VInteger 1]]).2 =
  [RTableCreated "t"; RRowsAffected 0; RError "Unknown column 'b'"].
Proof. vm_compute. reflexivity. Qed.
End alter_examples.
