(* ===== verification/Typing.v ===== *)
(** * Typing.v: the types of stored values

    A table stores every value in the type its column declares: an integer
    written to a FLOAT column is converted before it is stored, whichever
    statement writes it (INSERT, ON DUPLICATE KEY UPDATE, UPDATE, or an ALTER
    that adds, modifies or retypes the column).  Validation alone does not say
    so, since it lets an integer pass in a FLOAT column; the statements do. *)

From S2P Require Import Prelude Machine Float64 Like Types Concrete Keys Table Eval Queries.
From S2P Require Import Statement Planner Validate Ddl Execute Integrity.

(** ** Rows and their types *)

Definition table_types (t : Table) : list DataType := col_type <$> schema_columns (tb_schema t).

(** The value needs no conversion to the type: no integer where the type is
    FLOAT.  A value of a wrong type is left to validation. *)
Definition converted (v : Value) (d : DataType) : Prop := d = TFloat → data_type v ≠ TInteger.

Definition row_converted (types : list DataType) (row : Row) : Prop := Forall2 converted row types.
Definition table_converted (t : Table) : Prop := Forall (row_converted (table_types t)) (tb_rows t).
Definition catalog_converted (c : Catalog) : Prop := map_Forall (λ _ t, table_converted t) (cat_tables c).

(** A value as its column declares it: NULL where NULL is allowed, or of the
    column's very type. *)
Definition stores (v : Value) (c : ColumnDef) : Prop :=
  if is_null v then col_nullable c = true else data_type v = col_type c.
Definition table_typed (t : Table) : Prop :=
  Forall (λ row, Forall2 stores row (schema_columns (tb_schema t))) (tb_rows t).
Definition catalog_typed (c : Catalog) : Prop := map_Forall (λ _ t, table_typed t) (cat_tables c).

Lemma coerce_converted v d w : coerce_to v d = Some w → converted w d.
Proof. intros Hc ->. by destruct v; simplify_eq/=. Qed.

Lemma coerced_converted v d : converted (unwrap_or (coerce_to v d) v) d.
Proof. intros ->. by destruct v. Qed.

Lemma null_converted d : converted VNull d.
Proof. by intros _. Qed.

(** A value that fits its column and needs no conversion is stored as the
    column declares. *)
Lemma fits_stores v c : fits v c ∧ converted v (col_type c) ↔ stores v c.
Proof.
  unfold fits, stores, converted.
  destruct v, (col_type c); cbn; intuition congruence.
Qed.

Lemma rows_stored columns row :
  Forall2 fits row columns → row_converted (col_type <$> columns) row → Forall2 stores row columns.
Proof.
  intros Hf Hc. apply Forall2_fmap_r in Hc. revert Hc.
  induction Hf as [|v c row columns Hv _ IH]; intros Hc; inversion Hc; constructor; [|auto].
  by apply fits_stores.
Qed.

Lemma typed_converted t : table_typed t → table_converted t.
Proof.
  intros Ht. eapply Forall_impl; [exact Ht|]. intros row Hr. apply Forall2_fmap_r. eapply Forall2_impl; [exact Hr|].
  intros v c. by intros [_ ?]%fits_stores.
Qed.

Lemma catalog_typed_converted c : catalog_typed c → catalog_converted c.
Proof. intros Hc name t Ht. by eapply typed_converted, Hc. Qed.

(** ** Changes of the schema that leave rows and types alone *)

Definition types_same (t t' : Table) : Prop := tb_rows t' = tb_rows t ∧ table_types t' = table_types t.

Lemma types_same_converted t t' : types_same t t' → table_converted t → table_converted t'.
Proof. intros [Hr Ht]. unfold table_converted. by rewrite Hr, Ht. Qed.

Lemma alter_types (f : ColumnDef → ColumnDef) (i : nat) (columns : list ColumnDef) :
  (∀ c, col_type (f c) = col_type c) → col_type <$> alter f i columns = col_type <$> columns.
Proof.
  intros Hf. rewrite (list_fmap_alter col_type f id); [|by apply Forall_true].
  by apply list_alter_id.
Qed.

Lemma update_first_types p (f : ColumnDef → ColumnDef) (columns : list ColumnDef) :
  (∀ c, col_type (f c) = col_type c) → col_type <$> update_first p f columns = col_type <$> columns.
Proof. intros Hf. unfold update_first. destruct (position p columns); [by apply alter_types|done]. Qed.

Lemma mark_primary_types key columns : col_type <$> mark_primary key columns = col_type <$> columns.
Proof.
  unfold mark_primary. generalize (bool_decide (length key = 1)) as single. intros single.
  revert columns. induction key as [|name key IH]; intros columns; [done|].
  cbn [foldl]. rewrite IH. by apply update_first_types.
Qed.

Section typing.
Context `{RustStd}.

Lemma refresh_schema_types s :
  col_type <$> schema_columns (refresh_schema s) = col_type <$> schema_columns s.
Proof.
  unfold refresh_schema. cbn [schema_columns with_indexes with_columns].
  transitivity (col_type <$> ((λ c, set_flags c (col_nullable c) false false) <$> schema_columns s));
    [|by rewrite <-list_fmap_compose].
  generalize ((λ c, set_flags c (col_nullable c) false false) <$> schema_columns s) as columns.
  induction (schema_constraints s) as [|k ks IH]; intros columns; [done|]. cbn [foldl]. rewrite IH.
  destruct k as [n key|n [|name [|]]| |]; cbn [refresh_constraint]; try done;
    [apply mark_primary_types|by apply update_first_types].
Qed.

Lemma refresh_converted t : table_converted t → table_converted (refresh_constraint_metadata t).
Proof. apply types_same_converted. split; [done|]. apply refresh_schema_types. Qed.

(** ** CREATE, DROP and indexes *)

Lemma insert_table_converted c name t :
  catalog_converted c → table_converted t → catalog_converted (insert_table c name t).
Proof. intros Hc Ht. by apply map_Forall_insert_2. Qed.

Lemma create_table_converted c n cols ks e c' r :
  catalog_converted c → execute_create_table c n cols ks e = Ok (c', r) → catalog_converted c'.
Proof.
  intros Hc Hx. unfold execute_create_table in Hx.
  destruct (cat_tables c !! _); [by simplify_eq|]. destruct (duplicate_column _ _); [by simplify_eq|].
  apply or_error_Ok in Hx as [(st & _ & Hx)|(? & _ & ?)]; [|by simplify_eq].
  case_decide; simplify_eq; [done|]. apply insert_table_converted; [done|]. by apply Forall_nil_2.
Qed.

Lemma drop_table_converted c n e c' r :
  catalog_converted c → execute_drop_table c n e = Ok (c', r) → catalog_converted c'.
Proof.
  intros Hc Hx. unfold execute_drop_table in Hx. destruct (cat_tables c !! _); [|by simplify_eq].
  destruct (find_first _ _) as [[]|]; simplify_eq; [done|]. by apply map_Forall_delete.
Qed.

Lemma create_index_converted c n tn cols u e c' r :
  catalog_converted c → execute_create_index c n tn cols u e = Ok (c', r) → catalog_converted c'.
Proof.
  intros Hc Hx. unfold execute_create_index in Hx.
  destruct (cat_tables c !! _) as [t|] eqn:Ht; [|by simplify_eq].
  destruct (existsb _ _); [by simplify_eq|]. case_bool_decide; [by simplify_eq|].
  destruct (find_first _ _); [by simplify_eq|].
  apply or_error_Ok in Hx as [(st & _ & Hx)|(? & _ & ?)]; simplify_eq; [|done].
  apply insert_table_converted; [done|]. exact (Hc _ _ Ht).
Qed.

Lemma drop_index_converted c n tn e c' r :
  catalog_converted c → execute_drop_index c n tn e = Ok (c', r) → catalog_converted c'.
Proof.
  intros Hc Hx. unfold execute_drop_index in Hx.
  destruct (cat_tables c !! _) as [t|] eqn:Ht; [|by simplify_eq].
  destruct (position _ _); [|by simplify_eq]. apply bind_Ok in Hx as (d & _ & Hx).
  destruct (index_automatic d); simplify_eq; [done|].
  apply insert_table_converted; [done|]. exact (Hc _ _ Ht).
Qed.

(** ** ALTER *)

Lemma alter_const_insert {A} (a : A) (i : nat) (l : list A) : alter (λ _, a) i l = <[i := a]> l.
Proof. revert i. induction l as [|x l IH]; intros [|i]; [done..|]. cbn. f_equal. apply IH. Qed.

Lemma coerce_column_converted types i d m rows rows' :
  Forall (row_converted types) rows → coerce_column i d m rows = Ok rows' →
  Forall (row_converted (<[i := d]> types)) rows'.
Proof.
  intros Hr Hm%mapM_Ok. revert Hr. induction Hm as [|row row' rows rows' Hrow _ IH]; intros Hr; [done|].
  apply Forall_cons in Hr as [Hr Hrs]. constructor; [|auto].
  apply bind_Ok in Hrow as (v & _ & Hrow). apply bind_Ok in Hrow as (w & Hw & [= <-]).
  apply Forall2_insert; [done|]. destruct (coerce_to v d) eqn:Hc; cbn in Hw; simplify_eq.
  by eapply coerce_converted.
Qed.

Lemma alter_add_column_converted t col ks e t' :
  table_converted t → alter_add_column t col ks e = Ok (Some t') → table_converted t'.
Proof.
  unfold alter_add_column. intros Ht Ha. case_bool_decide; [by destruct e|].
  apply bind_Ok in Ha as (v & Hv & Ha). destruct (_ && _); simplify_eq.
  unfold table_converted, table_types. cbn. rewrite fmap_app. apply Forall_fmap.
  eapply Forall_impl; [exact Ht|]. intros row Hr. apply Forall2_app; [exact Hr|]. repeat constructor.
  destruct (coerce_to _ (col_type col)) eqn:Hc; cbn in Hv; simplify_eq. by eapply coerce_converted.
Qed.

Lemma remove_at_converted i types row :
  row_converted types row → row_converted (remove_at i types) (remove_at i row).
Proof. intros Hr. apply Forall2_app; [by apply Forall2_take|by apply Forall2_drop]. Qed.

Lemma alter_drop_column_converted c n t col e t' :
  table_converted t → alter_drop_column c n t col e = Ok (Some t') → table_converted t'.
Proof.
  unfold alter_drop_column. intros Ht Ha. destruct (column_index _ _) as [i|]; [|by destruct e].
  case_decide; [done|]. destruct (column_referenced _ _ _ _); [done|].
  apply bind_Ok in Ha as (rows & Hm%mapM_Ok & [= <-]).
  assert (table_types (map_columns t (remove_at i)) = remove_at i (table_types t)) as Hty.
  { unfold table_types, remove_at. cbn. by rewrite fmap_app, fmap_take, fmap_drop. }
  unfold table_converted. change (table_types _) with (table_types (map_columns t (remove_at i))).
  rewrite Hty. cbn. revert Ht. unfold table_converted. induction Hm as [|row row' rs rs' Hrow _ IH]; intros Ht; [done|].
  apply Forall_cons in Ht as [Hr Hrs]. constructor; [|auto].
  apply bind_Ok in Hrow as (_ & _ & [= <-]). by apply remove_at_converted.
Qed.

Lemma alter_modify_column_converted t o col ks t' :
  table_converted t → alter_modify_column t o col ks = Ok t' → table_converted t'.
Proof.
  unfold alter_modify_column. intros Ht Ha. apply bind_Ok in Ha as (i & _ & Ha).
  apply bind_Ok in Ha as (s & Hs & Ha). apply bind_Ok in Ha as (rows & Hrows & [= <-]).
  assert (schema_columns s = schema_columns (tb_schema t)) as Hcols.
  { destruct (eq_ignore_ascii_case _ _); [by simplify_eq|]. case_bool_decide; by simplify_eq. }
  unfold table_converted, table_types. cbn. rewrite Hcols, list_fmap_insert.
  by eapply coerce_column_converted.
Qed.

Lemma alter_set_data_type_converted t col d t' :
  table_converted t → alter_set_data_type t col d = Ok t' → table_converted t'.
Proof.
  unfold alter_set_data_type. intros Ht Ha. apply bind_Ok in Ha as (i & _ & Ha).
  apply bind_Ok in Ha as (rows & Hrows & Ha). apply bind_Ok in Ha as (cl & _ & Ha).
  apply bind_Ok in Ha as (v & _ & [= <-]). unfold table_converted, table_types. cbn.
  rewrite (list_fmap_alter col_type _ (λ _, d)), alter_const_insert; [|by apply Forall_true].
  by eapply coerce_column_converted.
Qed.

(** The other operations leave the rows and the types of the columns. *)
Lemma alter_schema_only_types t t' :
  (∃ col v, alter_set_default t col v = Ok t') ∨
  (∃ col n, alter_set_nullable t col n = Ok t') ∨
  (∃ k, alter_add_constraint t k = Ok t') ∨
  (∃ n e, alter_drop_constraint t n e = Ok t') ∨
  alter_drop_primary_key t = Ok t' →
  types_same t t'.
Proof.
  intros [(col & v & Ha)|[(col & n & Ha)|[(k & Ha)|[(n & e & Ha)|Ha]]]].
  - unfold alter_set_default in Ha. repeat (apply bind_Ok in Ha as (? & _ & Ha)). simplify_eq.
    split; [done|]. by apply alter_types.
  - unfold alter_set_nullable in Ha. repeat (apply bind_Ok in Ha as (? & _ & Ha)).
    destruct (_ && _); [done|]. apply bind_Ok in Ha as (? & _ & Ha). simplify_eq.
    split; [done|]. by apply alter_types.
  - unfold alter_add_constraint in Ha. apply bind_Ok in Ha as (? & _ & Ha).
    destruct (_ && _); [done|]. repeat (apply bind_Ok in Ha as (? & _ & Ha)). by simplify_eq.
  - unfold alter_drop_constraint in Ha. destruct (position _ _); [by simplify_eq|].
    destruct e; by simplify_eq.
  - unfold alter_drop_primary_key in Ha. apply bind_Ok in Ha as (? & _ & Ha). by simplify_eq.
Qed.

Lemma rename_in_others_converted n o o' tables :
  map_Forall (λ _ t, table_converted t) tables →
  map_Forall (λ _ t, table_converted t) (rename_in_others n o o' tables).
Proof.
  intros Hc name t Hlk. unfold rename_in_others in Hlk. rewrite map_lookup_imap in Hlk.
  destruct (tables !! name) as [t0|] eqn:Ht; [|done]. cbn in Hlk. injection Hlk as <-.
  specialize (Hc _ _ Ht). case_bool_decide; [done|]. destruct (existsb _ _); [|done].
  apply refresh_converted. exact Hc.
Qed.

Lemma refreshed_converted c m c' t' :
  catalog_converted c → (∀ t1, m = Ok t1 → table_converted t1) →
  refreshed c m = Ok (c', t') → catalog_converted c' ∧ table_converted t'.
Proof.
  intros Hc Hm Hr. unfold refreshed in Hr. apply bind_Ok in Hr as (t1 & Ht1 & [= <- <-]).
  split; [done|]. by apply refresh_converted, Hm.
Qed.

Lemma refreshed_opt_converted c t m c' t' :
  catalog_converted c → table_converted t → (∀ t1, m = Ok (Some t1) → table_converted t1) →
  refreshed_opt c t m = Ok (c', t') → catalog_converted c' ∧ table_converted t'.
Proof.
  intros Hc Ht Hm Hr. unfold refreshed_opt in Hr. apply bind_Ok in Hr as (o & Ho & [= <- <-]).
  split; [done|]. destruct o as [t1|]; [|done]. by apply refresh_converted, Hm.
Qed.

Lemma apply_alter_converted c n t op c' t' :
  catalog_converted c → table_converted t → apply_alter_operation c n t op = Ok (c', t') →
  catalog_converted c' ∧ table_converted t'.
Proof.
  intros Hc Ht. destruct op as [| |o o'| | | | | | |]; cbn [apply_alter_operation].
  3: { intros Hr. apply bind_Ok in Hr as ([c1 t1] & Hr & [= <- <-]).
       unfold alter_rename_column in Hr. case_bool_decide; [done|].
       apply bind_Ok in Hr as (i & _ & [= <- <-]). split; [by apply rename_in_others_converted|].
       apply refresh_converted. eapply types_same_converted; [|exact Ht]. split; [done|]. by apply alter_types. }
  all: first [apply refreshed_opt_converted | apply (refreshed_converted c)]; try done; intros t1.
  - by apply alter_add_column_converted.
  - by apply alter_drop_column_converted.
  - by apply alter_modify_column_converted.
  - intros Ha. eapply types_same_converted; [|exact Ht]. apply alter_schema_only_types. naive_solver.
  - intros Ha. eapply types_same_converted; [|exact Ht]. apply alter_schema_only_types. naive_solver.
  - by apply alter_set_data_type_converted.
  - intros Ha. eapply types_same_converted; [|exact Ht]. apply alter_schema_only_types. naive_solver.
  - intros Ha. eapply types_same_converted; [|exact Ht]. apply alter_schema_only_types. naive_solver.
  - intros Ha. eapply types_same_converted; [|exact Ht]. apply alter_schema_only_types. naive_solver.
Qed.

Lemma alter_loop_converted c n t ops c' r :
  catalog_converted c → table_converted t → alter_loop c n t ops = Ok (c', r) → catalog_converted c'.
Proof.
  revert c t. induction ops as [|op ops IH]; intros c t Hc Ht Hx; cbn in Hx.
  - simplify_eq. apply insert_table_converted; [done|]. by apply refresh_converted.
  - apply or_error_Ok in Hx as [([c1 t1] & Ha & Hx)|(? & _ & ?)]; [|by simplify_eq].
    destruct (apply_alter_converted _ _ _ _ _ _ Hc Ht Ha). by eapply IH.
Qed.

(** ** INSERT, UPDATE, DELETE *)

Lemma place_named_length s pairs used ordered row :
  place_named s pairs used ordered = Ok row → length row = length ordered.
Proof.
  revert used ordered. induction pairs as [|[name v] pairs IH]; intros used ordered Hp; [by simplify_eq/=|].
  cbn [place_named] in Hp. apply bind_Ok in Hp as (i & _ & Hp). case_bool_decide; [done|].
  rewrite (IH _ _ Hp). apply length_insert.
Qed.

Lemma arrange_length s columns raw row :
  arrange s columns raw = Ok row → length row = length (schema_columns s).
Proof.
  unfold arrange. intros Ha. destruct columns as [columns|]; case_decide; try done; [|by simplify_eq].
  rewrite (place_named_length _ _ _ _ _ Ha). apply nulls_length.
Qed.

Lemma build_row_converted s columns es row :
  build_row s columns es = Ok row → row_converted (col_type <$> schema_columns s) row.
Proof.
  unfold build_row. intros Hb. apply bind_Ok in Hb as (raw & _ & Hb).
  apply bind_Ok in Hb as (ordered & Ho%arrange_length & [= <-]). apply Forall2_fmap_r. revert Ho.
  generalize (schema_columns s) as cs. induction ordered as [|v ordered IH]; intros [|c cs] Hl; try done.
  constructor; [apply coerced_converted|]. apply IH. by injection Hl.
Qed.

Lemma type_at t i c :
  vec_index (schema_columns (tb_schema t)) i = Ok c → table_types t !! i = Some (col_type c).
Proof. intros Hc%vec_index_Ok. unfold table_types. by rewrite list_lookup_fmap, Hc. Qed.

Lemma set_converted types row i d v row' :
  row_converted types row → types !! i = Some d → converted v d → vec_set row i v = Ok row' →
  row_converted types row'.
Proof.
  intros Hr Hd Hv Hs. unfold vec_set in Hs. case_decide; [|done]. injection Hs as <-.
  rewrite <-(list_insert_id types i d Hd). by apply Forall2_insert.
Qed.

Lemma duplicate_assignment_converted c t n row updated a row' :
  row_converted (table_types t) updated → duplicate_assignment c t n row updated a = Ok row' →
  row_converted (table_types t) row'.
Proof.
  unfold duplicate_assignment. intros Hr Ha. apply bind_Ok in Ha as (i & _ & Ha).
  apply bind_Ok in Ha as (v & _ & Ha). apply bind_Ok in Ha as (col & Hcol%type_at & Ha).
  eapply set_converted; [exact Hr|exact Hcol| |exact Ha]. apply coerced_converted.
Qed.

Lemma update_assignment_converted c t columns original row a row' :
  row_converted (table_types t) row → update_assignment c t columns original row a = Ok row' →
  row_converted (table_types t) row'.
Proof.
  unfold update_assignment. intros Hr Ha. apply bind_Ok in Ha as (i & _ & Ha).
  apply bind_Ok in Ha as (v & _ & Ha). apply bind_Ok in Ha as (col & Hcol%type_at & Ha).
  apply bind_Ok in Ha as (w & Hw & Ha). eapply set_converted; [exact Hr|exact Hcol| |exact Ha].
  destruct (coerce_to v (col_type col)) eqn:Hc; cbn in Hw; simplify_eq. by eapply coerce_converted.
Qed.

(** What a loop of insertions keeps: the schema and the conversion. *)
Definition grows (t t' : Table) : Prop := tb_schema t' = tb_schema t ∧ table_converted t'.

Lemma insert_one_converted c n od t count row st :
  table_converted t → row_converted (table_types t) row → insert_one c n od (t, count) row = Ok st →
  grows t st.1.
Proof.
  intros Ht Hrow Hx. unfold insert_one in Hx. destruct (elements _) as [|p [|p' ps]].
  - apply bind_Ok in Hx as (t' & Hi & [= <-]). unfold insert_row_indexed in Hi.
    apply bind_Ok in Hi as (_ & _ & [= <-]). split; [done|].
    apply Forall_app. split; [exact Ht|]. by constructor.
  - destruct od as [|a od]; [done|]. apply bind_Ok in Hx as ([t' k] & Hd & [= <-]). cbn [fst].
    unfold duplicate_update in Hd. apply bind_Ok in Hd as (cur & Hcur%vec_index_Ok & Hd).
    apply bind_Ok in Hd as (upd & Hu & Hd). destruct (values_eqb _ _); [by simplify_eq|].
    apply bind_Ok in Hd as (t1 & Hr & [= -> _]). unfold replace_row_indexed in Hr.
    apply bind_Ok in Hr as (_ & _ & Hr). apply bind_Ok in Hr as (? & _ & Hr).
    apply bind_Ok in Hr as (? & _ & [= <-]). split; [done|]. apply Forall_insert; [exact Ht|].
    refine (foldM_inv (row_converted (table_types t)) _ _ _ _ _ _ Hu).
    + unfold table_converted in Ht. rewrite Forall_lookup in Ht. by eapply Ht.
    + intros row1 a' row2 _ Hr1. by apply duplicate_assignment_converted.
  - by destruct od.
Qed.

Lemma insert_rows_converted c n od rows t count st :
  table_converted t → Forall (row_converted (table_types t)) rows →
  foldM (insert_one c n od) (t, count) rows = Ok st → table_converted st.1.
Proof.
  revert t count. induction rows as [|row rows IH]; intros t count Ht Hrows Hf.
  - cbn in Hf. by simplify_eq.
  - rewrite foldM_cons in Hf. apply bind_Ok in Hf as ([t' count'] & Hs & Hf).
    apply Forall_cons in Hrows as [Hrow Hrows]. apply insert_one_converted in Hs as [Hsch Ht']; [|done..].
    cbn [fst] in *. eapply IH; [done| |done]. unfold table_types. by rewrite Hsch.
Qed.

Lemma store_and_validate_converted c n t count c' r :
  catalog_converted c → table_converted t → store_and_validate c n t count = Ok (c', r) → catalog_converted c'.
Proof.
  intros Hc Ht Hx. assert (c' = insert_table c n t) as ->.
  { unfold store_and_validate in Hx. apply or_error_Ok in Hx as [(? & _ & ?)|(? & _ & ?)];
      by simplify_eq. }
  by apply insert_table_converted.
Qed.

Lemma insert_converted c tn cols src od c' r :
  catalog_converted c → execute_insert c tn cols src od = Ok (c', r) → catalog_converted c'.
Proof.
  intros Hc Hx. unfold execute_insert in Hx.
  apply or_error_Ok in Hx as [(values & Hv & Hx)|(? & _ & ?)]; [|by simplify_eq].
  destruct (cat_tables c !! _) as [t|] eqn:Ht; [|by simplify_eq].
  apply or_error_Ok in Hx as [(rows & Hrows%mapM_Ok & Hx)|(? & _ & ?)]; [|by simplify_eq].
  apply or_error_Ok in Hx as [(st & Hst & Hx)|(? & _ & ?)]; [|by simplify_eq].
  eapply store_and_validate_converted; [done| |done]. eapply insert_rows_converted; [by eapply Hc| |done].
  clear -Hrows. induction Hrows as [|es row ess rows Hb _ IH]; constructor; [|done]. by eapply build_row_converted.
Qed.

Lemma update_row_converted c t n ids asg sel pr res :
  row_converted (table_types t) pr.2 → update_row c t n ids asg sel pr = Ok res →
  row_converted (table_types t) res.1.
Proof.
  destruct pr as [i row]. unfold update_row. cbn [snd]. intros Hr Hu.
  destruct (is_candidate t ids i); [|by simplify_eq]. apply bind_Ok in Hu as ([] & _ & Hu); [|by simplify_eq].
  apply bind_Ok in Hu as (row' & Hf & [= <-]).
  refine (foldM_inv (row_converted (table_types t)) _ _ _ _ Hr _ Hf).
  intros row1 a row2 _ Hr1. by apply update_assignment_converted.
Qed.

Lemma update_converted c tn asg sel c' r :
  catalog_converted c → execute_update c tn asg sel = Ok (c', r) → catalog_converted c'.
Proof.
  intros Hc Hx. unfold execute_update in Hx.
  destruct (cat_tables c !! _) as [t|] eqn:Ht; [|by simplify_eq].
  apply or_error_Ok in Hx as [(res & Hres%mapM_Ok & Hx)|(? & _ & ?)]; [|by simplify_eq].
  eapply store_and_validate_converted; [done| |done]. apply Forall_fmap.
  apply Forall_forall. intros re (i & Hi)%list_elem_of_lookup.
  destruct (Forall2_lookup_r _ _ _ _ _ Hres Hi) as ([j row] & Hj & Hu).
  change (row_converted (table_types t) re.1). eapply update_row_converted; [|exact Hu]. apply list_lookup_imap_Some in Hj as (row' & Hrow & [= _ <-]).
  specialize (Hc _ _ Ht). unfold table_converted in Hc. rewrite Forall_lookup in Hc. by eapply Hc.
Qed.

(** DELETE keeps rows it found. *)
Lemma delete_rows_converted c t n ids sel st types :
  Forall (row_converted types) (tb_rows t) →
  foldM (delete_row c t n ids sel) ([], [], 0) (imap pair (tb_rows t)) = Ok st →
  Forall (row_converted types) st.1.1.
Proof.
  intros Ht Hf. refine (foldM_imap_inv (λ _ st, Forall (row_converted types) st.1.1) _ _ _ _ _ _ Hf); [done|].
  intros i row [[rows row_ids] d] st' Hi Hrows Hstep. cbn [fst] in *.
  assert (row_converted types row) as Hrow by (rewrite Forall_lookup in Ht; by eapply Ht).
  unfold delete_row in Hstep. destruct (is_candidate t ids i);
    [apply bind_Ok in Hstep as ([] & _ & Hstep)|]; [by simplify_eq| |];
    apply bind_Ok in Hstep as (id & _ & [= <-]); apply Forall_app; (split; [done|]); by constructor.
Qed.

Lemma delete_converted c tn sel c' r :
  catalog_converted c → execute_delete c tn sel = Ok (c', r) → catalog_converted c'.
Proof.
  intros Hc Hx. unfold execute_delete in Hx.
  destruct (cat_tables c !! _) as [t|] eqn:Ht; [|by simplify_eq].
  apply or_error_Ok in Hx as [([[rows row_ids] d] & Hf & Hx)|(? & _ & ?)]; [|by simplify_eq].
  eapply store_and_validate_converted; [done| |done].
  eapply (delete_rows_converted c t _ _ _ (rows, row_ids, d)); [exact (Hc _ _ Ht)|exact Hf].
Qed.

(** ** Every statement *)

Lemma execute_statement_converted `{StatementDebug} c s c' r :
  catalog_converted c → execute_statement c s = Ok (c', r) → catalog_converted c'.
Proof.
  intros Hc. destruct s; cbn [execute_statement]; try (by intros [= <- <-]).
  - by apply create_table_converted.
  - by apply drop_table_converted.
  - by apply create_index_converted.
  - by apply drop_index_converted.
  - unfold execute_alter_table. destruct (cat_tables c !! _) as [t|] eqn:Ht; [|by intros [= <- <-]].
    apply alter_loop_converted; [done|by eapply Hc].
  - by apply insert_converted.
  - intros Hx. by apply or_error_Ok in Hx as [(? & _ & ?)|(? & _ & ?)]; simplify_eq.
  - by apply update_converted.
  - by apply delete_converted.
Qed.

(** What validation adds. *)
Lemma validated_fits c name t :
  validate_catalog c = Ok tt → cat_tables c !! name = Some t →
  Forall (λ row, Forall2 fits row (schema_columns (tb_schema t))) (tb_rows t).
Proof.
  intros (u & Hv & _)%bind_Ok Ht. destruct u.
  apply foldM_unit, Forall_hm_values in Hv. specialize (Hv name t Ht). cbn in Hv.
  apply bind_Ok in Hv as (u & Hv & _). destruct u. apply foldM_unit in Hv.
  eapply Forall_impl; [exact Hv|]. intros row (u & Hr%validate_row_Ok & _)%bind_Ok. exact Hr.
Qed.

Lemma execute_catalog_typed `{StatementDebug} c s c' r :
  catalog_typed c → execute_catalog c s = Ok (c', r) → catalog_typed c'.
Proof.
  intros Hc Hx. unfold execute_catalog in Hx.
  destruct (is_write_statement s) eqn:Hw; [|by rewrite (execute_statement_read _ _ _ _ Hw Hx)].
  apply bind_Ok in Hx as ([w r'] & Hs & Hx). destruct (is_error r'); [by simplify_eq|].
  apply or_error_Ok in Hx as [([] & Hv & [= <- <-])|(? & _ & ?)]; [|by simplify_eq].
  apply execute_statement_converted in Hs as Hcv; [|by apply catalog_typed_converted].
  intros name t Ht. pose proof (validated_fits _ _ _ Hv Ht) as Hf. specialize (Hcv name t Ht).
  unfold table_typed. unfold table_converted in Hcv. rewrite Forall_forall in *.
  intros row Hrow. apply rows_stored; [by apply Hf|by apply Hcv].
Qed.

Lemma execute_typed `{StatementDebug} c s c' r :
  catalog_typed c → execute c s = Ok (c', r) → catalog_typed c'.
Proof.
  intros Hc Hx. unfold execute in Hx. destruct (is_transaction_control s); [by simplify_eq|].
  destruct (is_write_statement s).
  - apply bind_Ok in Hx as ([w r'] & Hcat & Hx). apply execute_catalog_typed in Hcat; [|done].
    destruct (is_error r'); by simplify_eq.
  - apply bind_Ok in Hx as ([w r'] & _ & Hx). by simplify_eq.
Qed.

Lemma reachable_typed `{StatementDebug} c n : reachable c n → catalog_typed c.
Proof.
  induction 1 as [|c n s c' r _ IH _ Hx _|c n s c' r _ IH _ Hx _ _]; [apply map_Forall_empty|..];
    by eapply execute_typed.
Qed.

(** ** Property *)

(** C13. Stored values have the types of their columns: in every catalog that a
    history of statements leads to, each row of each table has one value per
    column, which is NULL, if the column allows NULL, or of exactly the column's
    type; in particular no integer is stored in a FLOAT column. *)
Theorem stored_values_typed `{StatementDebug} c n name t row :
  reachable c n → cat_tables c !! name = Some t → row ∈ tb_rows t →
  Forall2 (λ v column, (v = VNull ∧ col_nullable column = true) ∨
                       (v ≠ VNull ∧ data_type v = col_type column)) row (schema_columns (tb_schema t)).
Proof.
  intros Hr Ht Hrow. pose proof (reachable_typed _ _ Hr name t Ht) as Hty.
  unfold table_typed in Hty. rewrite Forall_forall in Hty.
  eapply Forall2_impl; [by apply Hty|]. intros v column Hs. unfold stores in Hs.
  destruct v; cbn in Hs; naive_solver.
Qed.
End typing.

(** ** Witness: an integer written to a FLOAT column *)

Section typing_witnesses.
#[local] Existing Instance concrete_std.
#[local] Existing Instance Integrity.debug_none.

Definition create_prices : Statement :=
  CreateTable "p" [column_new "id" TInteger; column_new "price" TFloat] [CPrimaryKey None ["id"]] false.
Definition insert_price : Statement :=
  Insert "p" None (InsertValues [[ELiteral (VInteger 1); ELiteral (VInteger 5)]]) [].
Definition priced : Catalog := after (after catalog_default create_prices) insert_price.
Definition prices : Table := default (table_new (schema_new "p" [])) (cat_tables priced !! "p").

Lemma priced_reachable : reachable priced 2.
Proof.
  apply (reach_write (after catalog_default create_prices) 1 insert_price _ (RRowsAffected 1)); [|..|done|done].
  - apply (reach_write catalog_default 0 create_prices _ (RTableCreated "p")); [constructor|done|..|done|done].
    vm_compute. reflexivity.
  - intros t rows Ht [= <-].
    assert (tb_next_row_id <$> cat_tables (after catalog_default create_prices) !! "p" = Some 1%N) as Hn
      by (vm_compute; reflexivity).
    change (cat_tables (after catalog_default create_prices) !! "p" = Some t) in Ht.
    rewrite Ht in Hn. cbn in Hn. injection Hn as ->. done.
  - vm_compute. reflexivity.
Qed.

Lemma prices_found : cat_tables priced !! "p" = Some prices.
Proof. vm_compute. reflexivity. Qed.
Lemma prices_rows : tb_rows prices = [[VInteger 1; VFloat (f64_of_Z 5)]].
Proof. vm_compute. reflexivity. Qed.

Lemma stored_values_typed_witness :
  Forall2 (λ v column, (v = VNull ∧ col_nullable column = true) ∨
                       (v ≠ VNull ∧ data_type v = col_type column))
    [VInteger 1; VFloat (f64_of_Z 5)] (schema_columns (tb_schema prices)).
Proof.
  apply (stored_values_typed priced 2 "p" prices); [apply priced_reachable|apply prices_found|].
  rewrite prices_rows. constructor.
Defined.
End typing_witnesses.
