(* ===== verification/Params.v ===== *)
(** * Params.v: placeholders of prepared statements (src/sql/parser.rs, 479-682)

    The visitors that reach every expression of a statement, and the three
    uses made of them: counting, numbering and binding placeholders.  A
    visitor threads a state and changes placeholders only, so it is given by
    what it does to a placeholder's index. *)

From S2P Require Import Prelude Machine Float64 Like Types Concrete Statement.

(** ** A state and failure monad *)

Definition visitM (S A : Type) : Type := S → outcome (S * A).
Definition vret {S A} (a : A) : visitM S A := λ s, Ok (s, a).
Definition vbind {S A B} (m : visitM S A) (k : A → visitM S B) : visitM S B :=
  λ s, match m s with Ok (s, a) => k a s | Err e => Err e | Panic => Panic end.

(** [for x in list { visit(x) }] and [if let Some(x) = option { visit(x) }]. *)
Definition visit_list {S A} (f : A → visitM S A) : list A → visitM S (list A) :=
  fix go l := match l with
              | [] => vret []
              | x :: l => vbind (f x) (λ x, vbind (go l) (λ l, vret (x :: l)))
              end.
Definition visit_opt {S A} (f : A → visitM S A) (o : option A) : visitM S (option A) :=
  match o with
  | Some x => vbind (f x) (λ x, vret (Some x))
  | None => vret None
  end.

Section visit.
Context {S : Type} (visitor : N → visitM S Expr).

Fixpoint visit_expr (e : Expr) : visitM S Expr :=
  match e with
  | EParameter index => visitor index
  | EBinary l op r =>
      vbind (visit_expr l) (λ l, vbind (visit_expr r) (λ r, vret (EBinary l op r)))
  | EUnary op e => vbind (visit_expr e) (λ e, vret (EUnary op e))
  | EIsNull e negated => vbind (visit_expr e) (λ e, vret (EIsNull e negated))
  | ELike e pattern negated =>
      vbind (visit_expr e) (λ e, vbind (visit_expr pattern) (λ p, vret (ELike e p negated)))
  | EInList e items negated =>
      vbind (visit_expr e) (λ e, vbind (visit_list visit_expr items) (λ items,
        vret (EInList e items negated)))
  | EInSubquery e query negated =>
      vbind (visit_expr e) (λ e, vbind (visit_query query) (λ q, vret (EInSubquery e q negated)))
  | EExists query negated => vbind (visit_query query) (λ q, vret (EExists q negated))
  | EScalarSubquery query => vbind (visit_query query) (λ q, vret (EScalarSubquery q))
  | EAggregate f e distinct =>
      vbind (visit_opt visit_expr e) (λ e, vret (EAggregate f e distinct))
  | other => vret other
  end
with visit_item (i : SelectItem) : visitM S SelectItem :=
  match i with
  | SExpr e alias => vbind (visit_expr e) (λ e, vret (SExpr e alias))
  | wildcard => vret wildcard
  end
with visit_source (s : TableSource) : visitM S TableSource :=
  match s with
  | SrcDerived query alias => vbind (visit_query query) (λ q, vret (SrcDerived q alias))
  | table => vret table
  end
with visit_join (j : Join) : visitM S Join :=
  match j with
  | mkJoin t source on =>
      vbind (visit_source source) (λ source, vbind (visit_opt visit_expr on) (λ on,
        vret (mkJoin t source on)))
  end
with visit_order (o : OrderBy) : visitM S OrderBy :=
  match o with mkOrderBy e d => vbind (visit_expr e) (λ e, vret (mkOrderBy e d)) end
with visit_cte (c : Cte) : visitM S Cte :=
  match c with mkCte n columns q => vbind (visit_query q) (λ q, vret (mkCte n columns q)) end
with visit_query (q : Query) : visitM S Query :=
  match q with
  | mkQuery ctes distinct projection from joins selection group_by having order_by limit =>
      vbind (visit_list visit_cte ctes) (λ ctes,
      vbind (visit_list visit_item projection) (λ projection,
      vbind (visit_opt visit_source from) (λ from,
      vbind (visit_list visit_join joins) (λ joins,
      vbind (visit_opt visit_expr selection) (λ selection,
      vbind (visit_list visit_expr group_by) (λ group_by,
      vbind (visit_opt visit_expr having) (λ having,
      vbind (visit_list visit_order order_by) (λ order_by,
        vret (mkQuery ctes distinct projection from joins selection group_by having order_by
                limit)))))))))
  end.

Definition visit_constraint_exprs (c : TableConstraint) : visitM S TableConstraint :=
  match c with
  | CCheck name e => vbind (visit_expr e) (λ e, vret (CCheck name e))
  | other => vret other
  end.

Definition visit_column (c : ColumnDef) : visitM S ColumnDef :=
  vbind (visit_list visit_expr (col_checks c)) (λ checks,
    vret {| col_name := col_name c; col_type := col_type c; col_nullable := col_nullable c;
            col_primary_key := col_primary_key c; col_unique := col_unique c;
            col_default := col_default c; col_checks := checks |}).

Definition visit_operation (op : AlterOperation) : visitM S AlterOperation :=
  match op with
  | AddColumn column constraints b =>
      vbind (visit_column column) (λ column,
      vbind (visit_list visit_constraint_exprs constraints) (λ constraints,
        vret (AddColumn column constraints b)))
  | ModifyColumn old column constraints =>
      vbind (visit_column column) (λ column,
      vbind (visit_list visit_constraint_exprs constraints) (λ constraints,
        vret (ModifyColumn old column constraints)))
  | AddConstraint c => vbind (visit_constraint_exprs c) (λ c, vret (AddConstraint c))
  | other => vret other
  end.

Definition visit_assignment (a : string * Expr) : visitM S (string * Expr) :=
  vbind (visit_expr a.2) (λ e, vret (a.1, e)).

Definition visit_insert_source (source : InsertSource) : visitM S InsertSource :=
  match source with
  | InsertValues rows => vbind (visit_list (visit_list visit_expr) rows) (λ rows, vret (InsertValues rows))
  | InsertQuery q => vbind (visit_query q) (λ q, vret (InsertQuery q))
  end.

Fixpoint visit_statement_exprs (s : Statement) : visitM S Statement :=
  match s with
  | CreateTable n columns constraints b =>
      vbind (visit_list visit_column columns) (λ columns,
      vbind (visit_list visit_constraint_exprs constraints) (λ constraints,
        vret (CreateTable n columns constraints b)))
  | AlterTable n operations =>
      vbind (visit_list visit_operation operations) (λ operations, vret (AlterTable n operations))
  | Insert n columns source on_duplicate =>
      vbind (visit_insert_source source) (λ source,
      vbind (visit_list visit_assignment on_duplicate) (λ on_duplicate,
        vret (Insert n columns source on_duplicate)))
  | SelectQuery q => vbind (visit_query q) (λ q, vret (SelectQuery q))
  | Update n assignments selection =>
      vbind (visit_list visit_assignment assignments) (λ assignments,
      vbind (visit_opt visit_expr selection) (λ selection,
        vret (Update n assignments selection)))
  | Delete n selection =>
      vbind (visit_opt visit_expr selection) (λ selection, vret (Delete n selection))
  | Explain s => vbind (visit_statement_exprs s) (λ s, vret (Explain s))
  | other => vret other
  end.
End visit.

(** ** Counting, numbering, binding *)

Definition parameter_count (s : Statement) : outcome N :=
  r ← visit_statement_exprs (λ index next, Ok (N.max next (sat_succ index), EParameter index)) s 0%N;
  Ok r.1.

Definition bind_parameters (s : Statement) (values : list Value) : outcome Statement :=
  expected ← parameter_count s;
  if decide (N.of_nat (length values) = expected) then
    r ← visit_statement_exprs (λ index (_ : ()),
          v ← vec_index values (N.to_nat index); Ok (tt, ELiteral v)) s tt;
    Ok r.2
  else Err ("Expected " +:+ pretty expected +:+ " parameters, got " +:+ pretty (length values)).

Definition assign_parameters (s : Statement) : outcome Statement :=
  r ← visit_statement_exprs (λ _ next, Ok (N.succ next, EParameter next)) s 0%N;
  Ok r.2.

(** ** The placeholders of a statement, in the order they are visited *)

Definition params_opt {A B} (f : A → list B) (o : option A) : list B :=
  match o with Some x => f x | None => [] end.
Definition params_list {A B} (f : A → list B) : list A → list B :=
  fix go l := match l with [] => [] | x :: l => f x ++ go l end.

Fixpoint params (e : Expr) : list N :=
  match e with
  | EParameter index => [index]
  | EBinary l _ r => params l ++ params r
  | EUnary _ e | EIsNull e _ => params e
  | ELike e p _ => params e ++ params p
  | EInList e items _ => params e ++ params_list params items
  | EInSubquery e q _ => params e ++ params_query q
  | EExists q _ | EScalarSubquery q => params_query q
  | EAggregate _ e _ => params_opt params e
  | _ => []
  end
with params_item (i : SelectItem) : list N :=
  match i with SExpr e _ => params e | SWildcard _ => [] end
with params_source (s : TableSource) : list N :=
  match s with SrcDerived q _ => params_query q | SrcTable _ _ => [] end
with params_join (j : Join) : list N :=
  match j with mkJoin _ source on => params_source source ++ params_opt params on end
with params_order (o : OrderBy) : list N := match o with mkOrderBy e _ => params e end
with params_cte (c : Cte) : list N := match c with mkCte _ _ q => params_query q end
with params_query (q : Query) : list N :=
  match q with
  | mkQuery ctes _ projection from joins selection group_by having order_by _ =>
      params_list params_cte ctes ++ params_list params_item projection ++
      params_opt params_source from ++ params_list params_join joins ++
      params_opt params selection ++ params_list params group_by ++
      params_opt params having ++ params_list params_order order_by
  end.

Definition params_constraint (c : TableConstraint) : list N :=
  match c with CCheck _ e => params e | _ => [] end.
Definition params_column (c : ColumnDef) : list N := params_list params (col_checks c).
Definition params_operation (op : AlterOperation) : list N :=
  match op with
  | AddColumn column constraints _ | ModifyColumn _ column constraints =>
      params_column column ++ params_list params_constraint constraints
  | AddConstraint c => params_constraint c
  | _ => []
  end.
Definition params_insert_source (source : InsertSource) : list N :=
  match source with
  | InsertValues rows => params_list (params_list params) rows
  | InsertQuery q => params_query q
  end.
Definition params_assignment (a : string * Expr) : list N := params a.2.

Fixpoint statement_params (s : Statement) : list N :=
  match s with
  | CreateTable _ columns constraints _ =>
      params_list params_column columns ++ params_list params_constraint constraints
  | AlterTable _ operations => params_list params_operation operations
  | Insert _ _ source on_duplicate =>
      params_insert_source source ++ params_list params_assignment on_duplicate
  | SelectQuery q => params_query q
  | Update _ assignments selection =>
      params_list params_assignment assignments ++ params_opt params selection
  | Delete _ selection => params_opt params selection
  | Explain s => statement_params s
  | _ => []
  end.

(** ** Visiting is running the visitor over the placeholders *)

Section visit_laws.
Context {S : Type} (visitor : N → visitM S Expr).

Fixpoint run (s : S) (l : list N) : outcome (S * list Expr) :=
  match l with
  | [] => Ok (s, [])
  | i :: l =>
      match visitor i s with
      | Ok (s, e) =>
          match run s l with Ok (s, es) => Ok (s, e :: es) | Err m => Err m | Panic => Panic end
      | Err m => Err m
      | Panic => Panic
      end
  end.

Lemma run_app s l k :
  run s (l ++ k) =
  match run s l with
  | Ok (s, es) => match run s k with Ok (s, fs) => Ok (s, es ++ fs) | Err m => Err m | Panic => Panic end
  | Err m => Err m
  | Panic => Panic
  end.
Proof.
  revert s. induction l as [|i l IH]; intros s; cbn; [by destruct (run s k) as [[]| |]|].
  destruct (visitor i s) as [[s1 e]| |]; [|done..]. rewrite IH.
  destruct (run s1 l) as [[s2 es]| |]; [|done..]. by destruct (run s2 k) as [[]| |].
Qed.

(** A visit has the state and failure of the run over the placeholders
    [ps]; [R] relates its result to the placeholders of what they became. *)
Definition spec {A} (m : visitM S A) (ps : list N) (R : A → list N → Prop) : Prop :=
  ∀ s, match m s with
       | Ok (s', a) => ∃ es, run s ps = Ok (s', es) ∧ R a (es ≫= params)
       | Err e => run s ps = Err e
       | Panic => run s ps = Panic
       end.

Lemma spec_ret {A} (a : A) (R : A → list N → Prop) : R a [] → spec (vret a) [] R.
Proof. intros HR s. by exists []. Qed.

Lemma spec_bind {A B} (m : visitM S A) (k : A → visitM S B) ps qs (R1 : A → list N → Prop)
    (R : B → list N → Prop) :
  spec m ps R1 → (∀ a l, R1 a l → spec (k a) qs (λ b l', R b (l ++ l'))) →
  spec (vbind m k) (ps ++ qs) R.
Proof.
  intros Hm Hk s. unfold vbind. specialize (Hm s). rewrite run_app.
  destruct (m s) as [[s1 a]| |]; [|by rewrite Hm..]. destruct Hm as (es & -> & HR).
  specialize (Hk a _ HR s1). destruct (k a s1) as [[s2 b]| |]; [|by rewrite Hk..].
  destruct Hk as (fs & -> & HRb). exists (es ++ fs). split; [done|]. by rewrite bind_app.
Qed.

Lemma spec_last {A B} (m : visitM S A) (k : A → B) ps (R1 : A → list N → Prop)
    (R : B → list N → Prop) :
  spec m ps R1 → (∀ a l, R1 a l → R (k a) l) → spec (vbind m (λ a, vret (k a))) ps R.
Proof.
  intros Hm HR. rewrite <-(app_nil_r ps). eapply spec_bind; [done|].
  intros a l Ha. apply spec_ret. rewrite app_nil_r. auto.
Qed.

Definition keeps {A} (p : A → list N) (a : A) (l : list N) : Prop := p a = l.

Lemma visit_list_spec {A} (f : A → visitM S A) (p : A → list N) l :
  Forall (λ x, spec (f x) (p x) (keeps p)) l →
  spec (visit_list f l) (params_list p l) (keeps (params_list p)).
Proof.
  induction 1 as [|x l Hx _ IH]; [by apply spec_ret|]. cbn. eapply spec_bind; [done|].
  intros x' lx Hx'. eapply spec_last; [done|]. intros l' ll Hl'. unfold keeps in *. cbn. congruence.
Qed.

Lemma visit_opt_spec {A} (f : A → visitM S A) (p : A → list N) o :
  (∀ x, o = Some x → spec (f x) (p x) (keeps p)) →
  spec (visit_opt f o) (params_opt p o) (keeps (params_opt p)).
Proof.
  destruct o as [x|]; intros Hx; [|by apply spec_ret]. cbn. eapply spec_last; [by apply Hx|].
  done.
Qed.
End visit_laws.

(** The traversals of the program satisfy the specification. *)
Section visit_program.
Context {S : Type} (visitor : N → visitM S Expr).

Lemma visit_list_all {A} (f : A → visitM S A) (p : A → list N) l :
  list_all _ (λ x, spec visitor (f x) (p x) (keeps p)) l →
  spec visitor (visit_list f l) (params_list p l) (keeps (params_list p)).
Proof.
  intros Hl. apply visit_list_spec.
  exact (list_all_Forall (λ x, spec visitor (f x) (p x) (keeps p)) l Hl).
Qed.

Lemma visit_opt_all {A} (f : A → visitM S A) (p : A → list N) o :
  option_all _ (λ x, spec visitor (f x) (p x) (keeps p)) o →
  spec visitor (visit_opt f o) (params_opt p o) (keeps (params_opt p)).
Proof.
  intros Ho. apply visit_opt_spec. intros x ->.
  exact (option_all_Some (λ x, spec visitor (f x) (p x) (keeps p)) x Ho).
Qed.

#[local] Hint Resolve visit_list_all visit_opt_all : core.

(** Solves one sequenced visit after another. *)
Ltac visit_step :=
  lazymatch goal with
  | |- spec _ (vret _) [] _ => apply spec_ret; unfold keeps in *; cbn; congruence
  | |- spec _ (vbind _ (λ _, vret _)) _ _ =>
      eapply spec_last; [solve [eauto]|]; intros ? ? ?; unfold keeps in *; cbn; congruence
  | |- spec _ (vbind _ _) _ _ => eapply spec_bind; [solve [eauto]|]; intros ? ? ?
  end.

Lemma visit_spec :
  (∀ e, spec visitor (visit_expr visitor e) (params e) (keeps params)) ∧
  (∀ i, spec visitor (visit_item visitor i) (params_item i) (keeps params_item)) ∧
  (∀ s, spec visitor (visit_source visitor s) (params_source s) (keeps params_source)) ∧
  (∀ j, spec visitor (visit_join visitor j) (params_join j) (keeps params_join)) ∧
  (∀ o, spec visitor (visit_order visitor o) (params_order o) (keeps params_order)) ∧
  (∀ c, spec visitor (visit_cte visitor c) (params_cte c) (keeps params_cte)) ∧
  (∀ q, spec visitor (visit_query visitor q) (params_query q) (keeps params_query)).
Proof.
  apply Expr_Query_ind; intros; cbn [visit_expr visit_item visit_source visit_join visit_order
    visit_cte visit_query params params_item params_source params_join params_order params_cte
    params_query]; try (repeat visit_step; done).
  (* A placeholder. *)
  intros s. cbn. destruct (visitor index s) as [[s' e]| |]; [|done..].
  exists [e]. split; [done|]. unfold keeps. cbn. by rewrite app_nil_r.
Qed.

Lemma visit_expr_spec e : spec visitor (visit_expr visitor e) (params e) (keeps params).
Proof. apply visit_spec. Qed.
Lemma visit_query_spec q : spec visitor (visit_query visitor q) (params_query q) (keeps params_query).
Proof. apply visit_spec. Qed.
#[local] Hint Resolve visit_expr_spec visit_query_spec : core.

Lemma visit_list_each {A} (f : A → visitM S A) (p : A → list N) l :
  (∀ x, spec visitor (f x) (p x) (keeps p)) →
  spec visitor (visit_list f l) (params_list p l) (keeps (params_list p)).
Proof. intros Hf. apply visit_list_spec, Forall_true, Hf. Qed.

Lemma visit_opt_each {A} (f : A → visitM S A) (p : A → list N) o :
  (∀ x, spec visitor (f x) (p x) (keeps p)) →
  spec visitor (visit_opt f o) (params_opt p o) (keeps (params_opt p)).
Proof. intros Hf. apply visit_opt_spec. auto. Qed.
#[local] Hint Resolve visit_list_each visit_opt_each : core.

Lemma visit_constraint_spec c :
  spec visitor (visit_constraint_exprs visitor c) (params_constraint c) (keeps params_constraint).
Proof. destruct c; cbn; by repeat visit_step. Qed.

Lemma visit_column_spec c : spec visitor (visit_column visitor c) (params_column c) (keeps params_column).
Proof. unfold visit_column, params_column. by repeat visit_step. Qed.

Lemma visit_assignment_spec a :
  spec visitor (visit_assignment visitor a) (params_assignment a) (keeps params_assignment).
Proof. unfold visit_assignment, params_assignment. by repeat visit_step. Qed.
#[local] Hint Resolve visit_constraint_spec visit_column_spec visit_assignment_spec : core.

Lemma visit_operation_spec op :
  spec visitor (visit_operation visitor op) (params_operation op) (keeps params_operation).
Proof. destruct op; cbn; by repeat visit_step. Qed.

Lemma visit_insert_source_spec s :
  spec visitor (visit_insert_source visitor s) (params_insert_source s) (keeps params_insert_source).
Proof. destruct s; cbn; by repeat visit_step. Qed.
#[local] Hint Resolve visit_operation_spec visit_insert_source_spec : core.

Lemma visit_statement_spec s :
  spec visitor (visit_statement_exprs visitor s) (statement_params s) (keeps statement_params).
Proof. induction s; cbn [visit_statement_exprs statement_params]; by repeat visit_step. Qed.
End visit_program.

(** ** Properties *)

(** One more than the largest index. *)
Definition max_index (l : list N) : N := foldl (λ next i, N.max next (sat_succ i)) 0%N l.

Lemma max_index_app l k : max_index (l ++ k) = foldl (λ next i, N.max next (sat_succ i)) (max_index l) k.
Proof. apply foldl_app. Qed.

Lemma max_index_bound l i : i ∈ l → (sat_succ i ≤ max_index l)%N.
Proof.
  induction l as [|j l IH] using rev_ind; [set_solver|].
  rewrite max_index_app. cbn. intros [Hin| ->%list_elem_of_singleton]%elem_of_app; [|lia].
  specialize (IH Hin). lia.
Qed.

Lemma max_index_seq n :
  (N.of_nat n ≤ u64_max)%N → max_index (N.of_nat <$> seq 0 n) = N.of_nat n.
Proof.
  induction n as [|n IH]; intros Hn; [done|].
  rewrite seq_S, fmap_app, max_index_app. cbn. rewrite IH by lia.
  rewrite sat_succ_below by lia. lia.
Qed.

(** The three runs. *)
Lemma run_count l n :
  run (λ index next, Ok (N.max next (sat_succ index), EParameter index)) n l =
  Ok (foldl (λ next i, N.max next (sat_succ i)) n l, EParameter <$> l).
Proof. revert n. induction l as [|i l IH]; intros n; cbn; [done|]. by rewrite IH. Qed.

Lemma run_assign l n :
  run (λ _ next, Ok (N.succ next, EParameter next)) n l =
  Ok ((n + N.of_nat (length l))%N, EParameter <$> ((λ i, n + N.of_nat i)%N <$> seq 0 (length l))).
Proof.
  revert n. induction l as [|i l IH]; intros n; [cbn; by rewrite N.add_0_r|].
  cbn [run length]. rewrite IH. cbn [seq]. rewrite !fmap_cons, <-fmap_S_seq, <-!list_fmap_compose.
  f_equal. f_equal; [lia|]. f_equal; [f_equal; lia|].
  apply list_fmap_ext. intros j x _. cbn. f_equal. lia.
Qed.

Lemma run_bind values l :
  Forall (λ i, N.to_nat i < length values) l →
  ∃ vs, run (λ index (_ : ()), v ← vec_index values (N.to_nat index); Ok (tt, ELiteral v)) tt l =
    Ok (tt, ELiteral <$> vs).
Proof.
  induction 1 as [|i l Hi _ [vs IH]]; [by exists []|]. cbn [run].
  destruct (lookup_lt_is_Some_2 values (N.to_nat i)) as [v Hv]; [done|].
  rewrite (proj2 (vec_index_Ok _ _ _) Hv). cbn. rewrite IH. by exists (v :: vs).
Qed.

Lemma params_literals vs : (ELiteral <$> vs) ≫= params = [].
Proof. by induction vs. Qed.
Lemma params_parameters l : (EParameter <$> l) ≫= params = l.
Proof. induction l as [|i l IH]; [done|]. cbn. f_equal. exact IH. Qed.

Lemma parameter_count_eq s : parameter_count s = Ok (max_index (statement_params s)).
Proof.
  unfold parameter_count.
  pose proof (visit_statement_spec (λ index next, Ok (N.max next (sat_succ index), EParameter index))
    s 0%N) as Hv. rewrite run_count in Hv.
  destruct (visit_statement_exprs _ _ _) as [[n s']| |]; [|done..].
  destruct Hv as (es & [= <- _] & _). done.
Qed.

Lemma assign_parameters_params s :
  ∃ s', assign_parameters s = Ok s' ∧
    statement_params s' = N.of_nat <$> seq 0 (length (statement_params s)).
Proof.
  unfold assign_parameters.
  pose proof (visit_statement_spec (λ _ next, Ok (N.succ next, EParameter next)) s 0%N) as Hv.
  rewrite run_assign in Hv. destruct (visit_statement_exprs _ _ _) as [[n s']| |]; [|done..].
  destruct Hv as (es & [= _ <-] & Hk). exists s'. split; [done|]. unfold keeps in Hk.
  rewrite Hk, params_parameters. apply list_fmap_ext. intros. lia.
Qed.

Lemma bind_parameters_cases s values :
  Forall (λ i, i < u64_max)%N (statement_params s) →
  if decide (N.of_nat (length values) = max_index (statement_params s))
  then ∃ s', bind_parameters s values = Ok s' ∧ statement_params s' = []
  else ∃ message, bind_parameters s values = Err message.
Proof.
  intros Hsmall. unfold bind_parameters. rewrite parameter_count_eq. cbn [mbind outcome_bind].
  case_decide as Hlen; [|by eexists].
  destruct (run_bind values (statement_params s)) as [vs Hvs].
  { apply Forall_forall. intros i Hi. apply max_index_bound in Hi as Hb.
    rewrite Forall_forall in Hsmall. specialize (Hsmall i Hi). rewrite sat_succ_below in Hb by done. lia. }
  pose proof (visit_statement_spec (λ index (_ : ()), v ← vec_index values (N.to_nat index);
    Ok (tt, ELiteral v)) s tt) as Hv. rewrite Hvs in Hv.
  destruct (visit_statement_exprs _ _ _) as [[[] s']| |]; [|done..].
  destruct Hv as (es & [= <-] & Hk). exists s'. split; [done|]. unfold keeps in Hk.
  by rewrite Hk, params_literals.
Qed.

(** C36. Binding never panics and leaves no placeholder: it succeeds exactly when
    as many values are given as the largest placeholder index calls for, and
    the bound statement then has no placeholder left. *)
Theorem bind_parameters_total s values :
  Forall (λ i, i < u64_max)%N (statement_params s) →
  bind_parameters s values ≠ Panic ∧
  ((∃ s', bind_parameters s values = Ok s') ↔
   parameter_count s = Ok (N.of_nat (length values))) ∧
  ∀ s', bind_parameters s values = Ok s' → statement_params s' = [].
Proof.
  intros Hsmall. pose proof (bind_parameters_cases s values Hsmall) as Hcases.
  rewrite parameter_count_eq. case_decide as Hlen.
  - destruct Hcases as (s' & -> & Hp). split_and!; [done| |by intros ? [= <-]].
    split; [intros _; by rewrite Hlen|by exists s'].
  - destruct Hcases as (message & ->). split_and!; [done| |done].
    split; [by intros [? ?]|]. intros [= Heq]. congruence.
Qed.

(** A prepared statement takes one value per placeholder: numbering gives
    the placeholders the indices 0, 1, 2, ... in the order of the text, so that
    binding the numbered statement succeeds exactly on as many values as there
    are placeholders. *)
Theorem prepared_takes_one_value_per_placeholder s :
  (N.of_nat (length (statement_params s)) ≤ u64_max)%N →
  ∃ s', assign_parameters s = Ok s' ∧
    statement_params s' = N.of_nat <$> seq 0 (length (statement_params s)) ∧
    ∀ values, (∃ bound, bind_parameters s' values = Ok bound) ↔
      length values = length (statement_params s).
Proof.
  intros Hn. destruct (assign_parameters_params s) as (s' & Hs' & Hp). exists s'.
  split_and!; [done..|]. intros values.
  assert (Forall (λ i, i < u64_max)%N (statement_params s')) as Hsmall.
  { rewrite Hp. apply Forall_fmap, Forall_seq. intros j Hj. cbn. lia. }
  pose proof (bind_parameters_cases s' values Hsmall) as Hcases.
  rewrite Hp, max_index_seq in Hcases by done. case_decide as Hlen.
  - destruct Hcases as (bound & -> & _). split; [lia|by exists bound].
  - destruct Hcases as (message & ->). split; [by intros [? ?]|lia].
Qed.

(** *** Witnesses *)

(** [UPDATE t SET v = ? WHERE id = ?], as the parser leaves it. *)
Definition placeholder_update : Statement :=
  Update "t" [("v", EParameter 0)]
    (Some (EBinary (EColumn None "id") (OpCompare CmpEqual) (EParameter 0))).
Definition numbered_update : Statement :=
  Update "t" [("v", EParameter 0)]
    (Some (EBinary (EColumn None "id") (OpCompare CmpEqual) (EParameter 1))).

Lemma bind_parameters_total_witness :
  ∃ s', bind_parameters numbered_update [VText "x"; VInteger 7] = Ok s'.
Proof.
  apply (bind_parameters_total numbered_update [VText "x"; VInteger 7]); [|reflexivity].
  repeat constructor.
Defined.

Lemma prepared_takes_one_value_per_placeholder_witness :
  ∃ s', assign_parameters placeholder_update = Ok s' ∧ statement_params s' = [0; 1]%N ∧
    ∀ values, (∃ bound, bind_parameters s' values = Ok bound) ↔ length values = 2.
Proof. apply (prepared_takes_one_value_per_placeholder placeholder_update). vm_compute. discriminate. Defined.
