(* ===== verification/Str.v ===== *)
(** * Str.v: Rust's [str] operations on UTF-8 strings

    The parts of the standard library's [str] that the statement extensions
    and the sessions use: characters and their boundaries, white space,
    trimming, splitting, searching and replacing. *)

From Stdlib Require Import Ascii.
From S2P Require Import Prelude Machine.

(** ** Characters *)

Definition ascii_code (c : ascii) : N := Ascii.N_of_ascii c.

(** Length in bytes of the character that starts with [c]. *)
Definition char_len (c : ascii) : nat :=
  let n := ascii_code c in
  if decide (n < 192)%N then 1 else if decide (n < 224)%N then 2 else if decide (n < 240)%N then 3 else 4.

(** [str::chars], each character as the bytes that encode it. *)
Fixpoint chars_fuel (fuel : nat) (s : string) : list string :=
  match fuel, s with
  | S fuel, String c _ =>
      let k := char_len c in
      String.substring 0 k s :: chars_fuel fuel (String.substring k (String.length s - k) s)
  | _, _ => []
  end.
Definition chars (s : string) : list string := chars_fuel (String.length s) s.
Definition of_chars (l : list string) : string := foldr String.append EmptyString l.

Definition char_codes (ch : string) : list N := ascii_code <$> String.list_ascii_of_string ch.

(** [char::is_whitespace]: the Unicode property White_Space. *)
Definition is_whitespace (ch : string) : bool :=
  match char_codes ch with
  | [n] => bool_decide (9 ≤ n ≤ 13)%N || bool_decide (n = 32)%N
  | [194; n]%N => bool_decide (n = 133 ∨ n = 160)%N
  | [225; 154; 128]%N => true
  | [226; 128; n]%N => bool_decide (128 ≤ n ≤ 138)%N || bool_decide (n = 168 ∨ n = 169 ∨ n = 175)%N
  | [226; 129; 159]%N => true
  | [227; 128; 128]%N => true
  | _ => false
  end.

Fixpoint drop_while {A} (p : A → bool) (l : list A) : list A :=
  match l with
  | [] => []
  | x :: l' => if p x then drop_while p l' else l
  end.

Definition trim_start_matches (p : string → bool) (s : string) : string :=
  of_chars (drop_while p (chars s)).
Definition trim_end_matches (p : string → bool) (s : string) : string :=
  of_chars (reverse (drop_while p (reverse (chars s)))).
Definition trim_matches (p : string → bool) (s : string) : string :=
  trim_end_matches p (trim_start_matches p s).
Definition trim (s : string) : string := trim_matches is_whitespace s.

Definition char_is (x ch : string) : bool := bool_decide (ch = x).

(** ** Splitting *)

(** Splitting a list at the elements a predicate accepts. *)
Fixpoint split_on {A} (p : A → bool) (l : list A) : list (list A) :=
  match l with
  | [] => [[]]
  | x :: l =>
      let rest := split_on p l in
      if p x then [] :: rest
      else match rest with [] => [[x]] | part :: rest => (x :: part) :: rest end
  end.

Lemma split_on_plain {A} (p : A → bool) l : Forall (λ x, p x = false) l → split_on p l = [l].
Proof. induction 1 as [|x l Hx _ IH]; [done|]. cbn. by rewrite Hx, IH. Qed.

Lemma split_on_app {A} (p : A → bool) l x l' :
  Forall (λ x, p x = false) l → p x = true → split_on p (l ++ x :: l') = l :: split_on p l'.
Proof.
  intros Hl Hx. induction Hl as [|y l Hy _ IH]; cbn [app split_on]; [by rewrite Hx|].
  by rewrite Hy, IH.
Qed.

(** [str::split(char)] and [str::split_whitespace]. *)
Definition split_char (x : string) (s : string) : list string :=
  of_chars <$> split_on (char_is x) (chars s).
Definition split_whitespace (s : string) : list string :=
  of_chars <$> filter (λ l, l ≠ []) (split_on is_whitespace (chars s)).

(** [str::split_once(char)]: around the first occurrence. *)
Definition split_once (x : string) (s : string) : option (string * string) :=
  let cs := chars s in
  i ← position (char_is x) cs;
  Some (of_chars (take i cs), of_chars (drop (S i) cs)).

(** ** Slicing, searching, replacing *)

(** A boundary is an end of the string or the first byte of a character. *)
Definition is_char_boundary (s : string) (i : nat) : bool :=
  bool_decide (i = 0 ∨ i = String.length s)
  || match String.get i s with
     | Some c => negb (bool_decide (128 ≤ ascii_code c < 192)%N)
     | None => false
     end.

(** [&s[..i]] and [&s[i..]] panic off a boundary. *)
Definition slice_to (s : string) (i : nat) : outcome string :=
  if is_char_boundary s i then Ok (String.substring 0 i s) else Panic.
Definition slice_from (s : string) (i : nat) : outcome string :=
  if is_char_boundary s i then Ok (String.substring i (String.length s - i) s) else Panic.
(** [&s[i..j]] also panics where [j] lies before [i]. *)
Definition slice (s : string) (i j : nat) : outcome string :=
  if bool_decide (i ≤ j) && is_char_boundary s i && is_char_boundary s j
  then Ok (String.substring i (j - i) s) else Panic.

Definition starts_with_str (prefix s : string) : bool := String.prefix prefix s.
Fixpoint last_char (s : string) : option ascii :=
  match s with
  | EmptyString => None
  | String c EmptyString => Some c
  | String _ s => last_char s
  end.

(** [str::find(&str)]: the byte offset of the first occurrence. *)
Definition find_str (pattern s : string) : option nat := String.index 0 pattern s.

Definition contains_char (codes : list N) (s : string) : bool :=
  existsb (λ c, bool_decide (ascii_code c ∈ codes)) (String.list_ascii_of_string s).

Definition ascii_upper (c : ascii) : ascii :=
  let n := ascii_code c in if decide (97 ≤ n ≤ 122)%N then Ascii.ascii_of_N (n - 32) else c.
Fixpoint to_ascii_uppercase (s : string) : string :=
  match s with EmptyString => EmptyString | String c s => String (ascii_upper c) (to_ascii_uppercase s) end.

(** The quote character, and [s.replace("''", "'")]: leftmost pairs first. *)
Definition quote : ascii := Ascii.ascii_of_N 39.
Fixpoint unescape_quotes (s : string) : string :=
  match s with
  | String a s' =>
      match s' with
      | String b rest =>
          if bool_decide (a = quote ∧ b = quote) then String quote (unescape_quotes rest)
          else String a (unescape_quotes s')
      | EmptyString => s
      end
  | EmptyString => s
  end.

(** ** ASCII strings *)

Fixpoint is_ascii (s : string) : bool :=
  match s with EmptyString => true | String c s => bool_decide (ascii_code c < 128)%N && is_ascii s end.

Lemma get_ascii s i c : is_ascii s = true → String.get i s = Some c → (ascii_code c < 128)%N.
Proof.
  revert i. induction s as [|d s IH]; intros i Ha Hg; [by destruct i|]. cbn in Ha.
  apply andb_true_iff in Ha as [Hd%bool_decide_eq_true Ha].
  destruct i; cbn in Hg; [by simplify_eq|by eapply IH].
Qed.

Lemma get_Some s i : i < String.length s → ∃ c, String.get i s = Some c.
Proof.
  revert i. induction s as [|d s IH]; intros i Hi; cbn in *; [lia|].
  destruct i; [by exists d|]. apply IH. lia.
Qed.

Lemma ascii_boundary s i : is_ascii s = true → i ≤ String.length s → is_char_boundary s i = true.
Proof.
  intros Ha Hi. unfold is_char_boundary. apply orb_true_iff.
  destruct (decide (i = String.length s)) as [->|Hne]; [left; apply bool_decide_eq_true; auto|right].
  destruct (get_Some s i) as [c Hc]; [lia|]. rewrite Hc. apply get_ascii in Hc; [|done].
  apply negb_true_iff, bool_decide_eq_false. lia.
Qed.

Lemma slice_to_ascii s i : is_ascii s = true → i ≤ String.length s → slice_to s i = Ok (String.substring 0 i s).
Proof. intros. unfold slice_to. by rewrite ascii_boundary. Qed.
Lemma slice_from_ascii s i : is_ascii s = true → i ≤ String.length s →
  slice_from s i = Ok (String.substring i (String.length s - i) s).
Proof. intros. unfold slice_from. by rewrite ascii_boundary. Qed.

Lemma slice_ascii s i j : is_ascii s = true → i ≤ j → j ≤ String.length s →
  slice s i j = Ok (String.substring i (j - i) s).
Proof. intros. unfold slice. by rewrite bool_decide_true, !ascii_boundary by (done || lia). Qed.

(** A byte that continues no character is a boundary. *)
Lemma get_append_r a c b : String.get (String.length a) (a +:+ String c b) = Some c.
Proof. by induction a as [|d a IH]; [|exact IH]. Qed.
Lemma lead_boundary a c b :
  bool_decide (128 ≤ ascii_code c < 192)%N = false → is_char_boundary (a +:+ String c b) (String.length a) = true.
Proof. intros Hc. unfold is_char_boundary. by rewrite get_append_r, Hc, orb_true_r. Qed.

Lemma to_ascii_uppercase_length s : String.length (to_ascii_uppercase s) = String.length s.
Proof. induction s; cbn; auto. Qed.

Lemma substring_ascii s n m : is_ascii s = true → is_ascii (String.substring n m s) = true.
Proof.
  revert n m. induction s as [|c s IH]; intros n m Ha; [by destruct n, m|]. cbn in Ha.
  apply andb_true_iff in Ha as [Hc Ha]. destruct n; cbn; [|by apply IH].
  destruct m; cbn; [done|]. rewrite Hc. by apply IH.
Qed.

Lemma append_ascii a b : is_ascii (a +:+ b) = is_ascii a && is_ascii b.
Proof. induction a as [|c a IH]; [done|]. cbn. by rewrite <-andb_assoc, <-IH. Qed.

Lemma chars_ascii s : is_ascii s = true → Forall (λ ch, is_ascii ch = true) (chars s).
Proof.
  unfold chars. generalize (String.length s) as fuel. intros fuel. revert s.
  induction fuel as [|fuel IH]; intros [|c s] Ha; cbn [chars_fuel]; [constructor..|].
  constructor; [by apply substring_ascii|]. by apply IH, substring_ascii.
Qed.

Lemma of_chars_ascii l : Forall (λ ch, is_ascii ch = true) l → is_ascii (of_chars l) = true.
Proof.
  induction 1 as [|ch l Hc _ IH]; [done|]. change (of_chars (ch :: l)) with (ch +:+ of_chars l).
  by rewrite append_ascii, Hc, IH.
Qed.

Lemma drop_while_Forall {A} (P : A → Prop) p l : Forall P l → Forall P (drop_while p l).
Proof. induction 1; cbn; [constructor|]. destruct (p x); auto. Qed.

Lemma trim_start_ascii p s : is_ascii s = true → is_ascii (trim_start_matches p s) = true.
Proof. intros. by apply of_chars_ascii, drop_while_Forall, chars_ascii. Qed.
Lemma trim_end_ascii p s : is_ascii s = true → is_ascii (trim_end_matches p s) = true.
Proof. intros. by apply of_chars_ascii, Forall_reverse, drop_while_Forall, Forall_reverse, chars_ascii. Qed.
Lemma split_once_ascii x s a b : is_ascii s = true → split_once x s = Some (a, b) → is_ascii a = true ∧ is_ascii b = true.
Proof.
  intros Hs%chars_ascii Hx. unfold split_once in Hx. destruct (position _ _) as [i|]; simplify_eq/=.
  split; apply of_chars_ascii; [by apply Forall_take|by apply (Forall_drop _ (S i))].
Qed.
Lemma trim_ascii s : is_ascii s = true → is_ascii (trim s) = true.
Proof. intros. by apply trim_end_ascii, trim_start_ascii. Qed.

Lemma substring_length_le n m s : String.length (String.substring n m s) ≤ String.length s - n.
Proof.
  revert n m. induction s as [|c s IH]; intros n m; [by destruct n, m|].
  destruct n; [|apply IH]. destruct m; cbn; [lia|]. specialize (IH 0 m). lia.
Qed.

(** An occurrence lies within the string. *)
Lemma find_str_bound p s i : p ≠ EmptyString → find_str p s = Some i → i + String.length p ≤ String.length s.
Proof.
  intros Hp Hf%String.index_correct1. pose proof (substring_length_le i (String.length p) s) as Hl.
  rewrite Hf in Hl. destruct p; [done|]. cbn in *. lia.
Qed.

#[export] Hint Resolve trim_ascii trim_start_ascii trim_end_ascii substring_ascii : str.

(** ** Well-formed strings *)

(** A character: as many bytes as its first one announces, the others
    continuation bytes. *)
Definition is_continuation (c : ascii) : bool := bool_decide (128 ≤ ascii_code c < 192)%N.
Definition wf_char (ch : string) : bool :=
  match ch with
  | EmptyString => false
  | String c rest => bool_decide (String.length ch = char_len c)
      && forallb is_continuation (String.list_ascii_of_string rest)
  end.
Definition wf_chars (l : list string) : Prop := Forall (λ ch, wf_char ch = true) l.

Lemma append_length a b : String.length (a +:+ b) = String.length a + String.length b.
Proof. induction a as [|c a IH]; [done|]. cbn. by rewrite <-IH. Qed.
Lemma substring_app_l a b : String.substring 0 (String.length a) (a +:+ b) = a.
Proof.
  induction a as [|c a IH]; [by destruct b|].
  change (String c a +:+ b) with (String c (a +:+ b)). cbn [String.length String.substring]. by rewrite IH.
Qed.
Lemma substring_app_r a b : String.substring (String.length a) (String.length b) (a +:+ b) = b.
Proof.
  induction a as [|c a IH]; [|exact IH].
  change ("" +:+ b) with b. induction b as [|c b IH]; [done|]. cbn in *. by rewrite IH.
Qed.

Lemma chars_of_chars l : wf_chars l → chars (of_chars l) = l.
Proof.
  intros Hl. enough (∀ fuel, String.length (of_chars l) ≤ fuel → chars_fuel fuel (of_chars l) = l)
    as Hgen by by apply Hgen.
  induction Hl as [|ch l Hch _ IH]; intros fuel Hf; [by destruct fuel|].
  change (of_chars (ch :: l)) with (ch +:+ of_chars l) in *.
  rewrite append_length in Hf. destruct ch as [|c rest]; [done|]. cbn [wf_char] in Hch.
  apply andb_true_iff in Hch as [Hlen%bool_decide_eq_true _].
  destruct fuel as [|fuel]; [cbn in Hf; lia|].
  change (String c rest +:+ of_chars l) with (String c (rest +:+ of_chars l)). cbn [chars_fuel].
  change (String c (rest +:+ of_chars l)) with (String c rest +:+ of_chars l).
  rewrite <-Hlen, append_length, substring_app_l.
  replace (String.length (String c rest) + String.length (of_chars l) - String.length (String c rest))
    with (String.length (of_chars l)) by lia.
  rewrite substring_app_r, IH; [done|]. cbn in Hf. lia.
Qed.

(** ** Lines of a file *)

(** One character of valid UTF-8: no overlong form, no surrogate, nothing
    beyond U+10FFFF. *)
Definition utf8_char (ch : string) : bool :=
  let cont n := bool_decide (128 ≤ n < 192)%N in
  match char_codes ch with
  | [a] => bool_decide (a < 128)%N
  | [a; b] => bool_decide (194 ≤ a < 224)%N && cont b
  | [a; b; c] =>
      cont b && cont c &&
      (bool_decide (a = 224 ∧ 160 ≤ b)%N || bool_decide (a = 237 ∧ b < 160)%N
       || bool_decide (225 ≤ a < 237)%N || bool_decide (238 ≤ a < 240)%N)
  | [a; b; c; d] =>
      cont b && cont c && cont d &&
      (bool_decide (a = 240 ∧ 144 ≤ b)%N || bool_decide (241 ≤ a < 244)%N
       || bool_decide (a = 244 ∧ b < 144)%N)
  | _ => false
  end.
Definition valid_utf8 (s : string) : bool := forallb utf8_char (chars s).

Definition newline : ascii := ascii_of_N 10.
Definition carriage_return : ascii := ascii_of_N 13.

(** [BufRead::lines]: the text up to each newline, without it and without a
    carriage return before it; a last line needs no newline. *)
Definition strip_cr (l : list ascii) : list ascii :=
  match reverse l with
  | c :: r => if bool_decide (c = carriage_return) then reverse r else l
  | [] => l
  end.
Fixpoint lines_of (l : list ascii) (current : list ascii) : list string :=
  match l with
  | [] => match current with [] => [] | _ => [String.string_of_list_ascii (reverse current)] end
  | c :: l =>
      if bool_decide (c = newline)
      then String.string_of_list_ascii (strip_cr (reverse current)) :: lines_of l []
      else lines_of l (c :: current)
  end.
Definition lines (file : string) : list string := lines_of (String.list_ascii_of_string file) [].

(** ** Trimming valid text *)

(** Valid text is a sequence of characters. *)
Definition valid_text (s : string) : Prop := ∃ l, wf_chars l ∧ s = of_chars l.

Definition trim_end_list {A} (p : A → bool) (l : list A) : list A :=
  reverse (drop_while p (reverse l)).
Definition trim_list {A} (p : A → bool) (l : list A) : list A := trim_end_list p (drop_while p l).

Lemma trim_end_list_Forall {A} (P : A → Prop) p l : Forall P l → Forall P (trim_end_list p l).
Proof. intros Hl. by apply Forall_reverse, drop_while_Forall, Forall_reverse. Qed.

Lemma trim_of_chars l : wf_chars l → trim (of_chars l) = of_chars (trim_list is_whitespace l).
Proof.
  intros Hl. unfold trim, trim_matches, trim_start_matches. rewrite (chars_of_chars l) by done.
  unfold trim_end_matches. rewrite chars_of_chars by by apply drop_while_Forall. done.
Qed.

Lemma trim_end_of_chars p l : wf_chars l → trim_end_matches p (of_chars l) = of_chars (trim_end_list p l).
Proof. intros Hl. unfold trim_end_matches. by rewrite chars_of_chars. Qed.

Lemma drop_while_head {A} (p : A → bool) l x k : drop_while p l = x :: k → p x = false.
Proof. induction l as [|y l IH]; [done|]. cbn. destruct (p y) eqn:E; [done|]. by intros [= <- <-]. Qed.

Lemma drop_while_idemp {A} (p : A → bool) l : drop_while p (drop_while p l) = drop_while p l.
Proof.
  destruct (drop_while p l) as [|x k] eqn:E; [done|]. cbn. by rewrite (drop_while_head _ _ _ _ E).
Qed.

(** Trimming the end keeps a head that is not trimmed. *)
Lemma drop_while_snoc {A} (p : A → bool) l x : p x = false → ∃ k, drop_while p (l ++ [x]) = k ++ [x].
Proof.
  intros Hx. induction l as [|y l [k IH]]; cbn; [rewrite Hx; by exists []|].
  destruct (p y); [by exists k|]. by exists (y :: l).
Qed.

Lemma drop_while_trim_end {A} (p : A → bool) l :
  drop_while p (trim_end_list p (drop_while p l)) = trim_end_list p (drop_while p l).
Proof.
  destruct (drop_while p l) as [|x k] eqn:E; [done|]. apply drop_while_head in E.
  unfold trim_end_list. rewrite reverse_cons.
  destruct (drop_while_snoc p (reverse k) x E) as [k' ->]. rewrite reverse_snoc. cbn. by rewrite E.
Qed.

Lemma trim_list_idemp {A} (p : A → bool) l : trim_list p (trim_list p l) = trim_list p l.
Proof.
  unfold trim_list at 1. unfold trim_list. rewrite drop_while_trim_end.
  unfold trim_end_list. by rewrite reverse_involutive, drop_while_idemp.
Qed.

Lemma trim_idemp s : valid_text s → trim (trim s) = trim s.
Proof.
  intros (l & Hl & ->). rewrite trim_of_chars by done.
  rewrite trim_of_chars by by apply trim_end_list_Forall, drop_while_Forall.
  by rewrite trim_list_idemp.
Qed.

(** [str::to_uppercase], [str::to_lowercase] and [char::is_alphanumeric]: the
    tables of the standard library; on ASCII text they are the ASCII ones. *)
Class UnicodeTables := {
  to_uppercase : string → string;
  to_lowercase : string → string;
  is_alphanumeric : string → bool;
  to_uppercase_ascii : ∀ s, is_ascii s = true → to_uppercase s = to_ascii_uppercase s;
  to_lowercase_ascii : ∀ s, is_ascii s = true → to_lowercase s = to_ascii_lowercase s;
}.

(** [str::splitn(n, char)]: at most [n] parts. *)
Fixpoint splitn (n : nat) (x s : string) : list string :=
  match n with
  | 0 => []
  | S n =>
      match n, split_once x s with
      | S _, Some (part, rest) => part :: splitn n x rest
      | _, _ => [s]
      end
  end.

(** [str::strip_prefix], and [str::trim_start_matches] of a string. *)
Definition strip_prefix (prefix s : string) : option string :=
  if starts_with_str prefix s
  then Some (String.substring (String.length prefix) (String.length s - String.length prefix) s) else None.
Fixpoint strip_prefixes_fuel (fuel : nat) (prefix s : string) : string :=
  match fuel, strip_prefix prefix s with
  | S fuel, Some rest => strip_prefixes_fuel fuel prefix rest
  | _, _ => s
  end.
Definition strip_prefixes (prefix s : string) : string := strip_prefixes_fuel (String.length s) prefix s.

(** ** Taking a string apart *)

Lemma substring_whole s n : String.length s ≤ n → String.substring 0 n s = s.
Proof.
  revert n. induction s as [|c s IH]; intros [|n] Hn; try done; cbn in Hn |- *; [lia|]. f_equal. apply IH. lia.
Qed.
Lemma substring_split s k : String.substring 0 k s +:+ String.substring k (String.length s - k) s = s.
Proof.
  revert k. induction s as [|c s IH]; intros k; [by destruct k|]. destruct k as [|k].
  - rewrite Nat.sub_0_r. by apply (substring_whole (String c s)).
  - exact (f_equal (String c) (IH k)).
Qed.

Lemma of_chars_chars s : of_chars (chars s) = s.
Proof.
  unfold chars. assert (∀ n s, String.length s ≤ n → of_chars (chars_fuel n s) = s) as Hgen; [|by apply Hgen].
  clear. induction n as [|n IH]; intros s Hs; [by destruct s; [|cbn in Hs; lia]|].
  destruct s as [|c s]; [done|]. cbn [chars_fuel].
  set (k := char_len c). assert (1 ≤ k) as Hc by (unfold k, char_len; repeat case_decide; lia).
  change (String.substring 0 k (String c s)
    +:+ of_chars (chars_fuel n (String.substring k (String.length (String c s) - k) (String c s))) = String c s).
  rewrite IH; [apply substring_split|]. etrans; [apply substring_length_le|]. cbn [String.length] in *. lia.
Qed.

Lemma get_append_l a b i : i < String.length a → String.get i (a +:+ b) = String.get i a.
Proof.
  revert i. induction a as [|c a IH]; intros i Hi; cbn in Hi; [lia|]. destruct i as [|i]; [done|]. apply (IH i). lia.
Qed.
