(* ===== verification/Log.v ===== *)
(** * Log.v: text logs, one record per line

    What the SQL log and the key-value log share: a file is its bytes, a record
    is a line without control characters, a write can fail in part, and
    [BufRead::lines] gives the records back. *)

From Stdlib Require Import Ascii.
From S2P Require Import Prelude Machine Str.

Definition u64_le (n : N) : list Z := to_le_bytes 8 (Z.of_N n).

(** No control characters, in particular no line ends. *)
Definition no_control (s : string) : Prop :=
  Forall (λ c, 32 ≤ ascii_code c)%N (String.list_ascii_of_string s).

(** What can go wrong with [writeln!] and [sync_all]: only some bytes reach the
    file, or all do but the sync fails. *)
Inductive WalFault := WalOk | WalWriteFails (bytes : nat) | WalSyncFails.

(** What a write leaves in the file. *)
Definition append_text (fault : WalFault) (file text : string) : string :=
  match fault with
  | WalWriteFails n => file +:+ String.substring 0 n text
  | WalOk | WalSyncFails => file +:+ text
  end.

(** ** Lines of a log *)

Lemma list_ascii_app a b :
  String.list_ascii_of_string (a +:+ b) = String.list_ascii_of_string a ++ String.list_ascii_of_string b.
Proof. induction a as [|c a IH]; [done|]. by apply (f_equal (cons c)). Qed.

Lemma lines_of_plain l rest current :
  Forall (λ c, 32 ≤ ascii_code c)%N l →
  lines_of (l ++ rest) current = lines_of rest (reverse l ++ current).
Proof.
  intros Hl. revert current. induction Hl as [|c l Hc _ IH]; intros current; [done|]. cbn [app lines_of].
  rewrite bool_decide_false, IH; [|intros ->; vm_compute in Hc; by apply Hc].
  by rewrite reverse_cons, <-app_assoc.
Qed.

Lemma strip_cr_plain l : Forall (λ c, 32 ≤ ascii_code c)%N l → strip_cr l = l.
Proof.
  intros Hl%Forall_reverse. unfold strip_cr. destruct (reverse l) as [|c r]; [done|].
  apply Forall_cons in Hl as [Hc _]. rewrite bool_decide_false; [done|]. intros ->.
  vm_compute in Hc. by apply Hc.
Qed.

Lemma lines_cons line rest :
  no_control line → lines (line +:+ String newline rest) = line :: lines rest.
Proof.
  intros Hl. unfold lines. rewrite list_ascii_app, lines_of_plain by done.
  cbn [String.list_ascii_of_string lines_of]. rewrite bool_decide_true by done.
  rewrite app_nil_r, reverse_involutive, strip_cr_plain by done.
  by rewrite String.string_of_list_ascii_of_string.
Qed.

Lemma lines_last tail : no_control tail → lines tail = if bool_decide (tail = EmptyString) then [] else [tail].
Proof.
  intros Ht. unfold lines. rewrite <-(app_nil_r (String.list_ascii_of_string tail)).
  rewrite lines_of_plain by done. cbn [lines_of]. rewrite app_nil_r. case_bool_decide as He; [by subst|].
  destruct tail as [|c tail]; [done|]. cbn [String.list_ascii_of_string].
  destruct (reverse _) as [|d r] eqn:E.
  - apply (f_equal length) in E. by rewrite length_reverse in E.
  - rewrite <-E, reverse_involutive. by rewrite <-(String.string_of_list_ascii_of_string (String c tail)).
Qed.

Lemma app_assoc_string (a b c : string) : (a +:+ b) +:+ c = a +:+ (b +:+ c).
Proof. induction a as [|x a IH]; [done|]. by apply (f_equal (String x)). Qed.

Lemma append_empty_r (a : string) : a +:+ EmptyString = a.
Proof. induction a as [|x a IH]; [done|]. by apply (f_equal (String x)). Qed.

(** The file of a sequence of lines. *)
Definition text_lines (ls : list string) : string :=
  foldr (λ l s, l +:+ String newline EmptyString +:+ s) EmptyString ls.

Lemma lines_text ls tail :
  Forall no_control ls → lines (text_lines ls +:+ tail) = ls ++ lines tail.
Proof.
  induction 1 as [|l ls Hl _ IH]; [done|].
  change (text_lines (l :: ls)) with (l +:+ String newline (text_lines ls)).
  rewrite app_assoc_string. change (String newline (text_lines ls) +:+ tail)
    with (String newline (text_lines ls +:+ tail)).
  rewrite lines_cons by done. by rewrite IH.
Qed.

Lemma text_lines_snoc ls l :
  text_lines (ls ++ [l]) = text_lines ls +:+ (l +:+ String newline EmptyString).
Proof.
  induction ls as [|x ls IH]; [done|].
  change (text_lines ((x :: ls) ++ [l])) with (x +:+ String newline (text_lines (ls ++ [l]))).
  rewrite IH. change (text_lines (x :: ls)) with (x +:+ String newline (text_lines ls)).
  by rewrite app_assoc_string.
Qed.

(** ** A line of which only a part was written *)

Lemma substring_full a : ∀ n s, String.length a ≤ n → String.substring 0 n (a +:+ s)
  = a +:+ String.substring 0 (n - String.length a) s.
Proof.
  induction a as [|c a IH]; intros n s Hn; cbn [String.length] in Hn |- *; [by rewrite Nat.sub_0_r|].
  destruct n as [|n]; [lia|]. change (String c a +:+ s) with (String c (a +:+ s)).
  cbn [String.substring]. rewrite IH by lia. done.
Qed.

Lemma substring_short a : ∀ n s, n ≤ String.length a → String.substring 0 n (a +:+ s)
  = String.substring 0 n a.
Proof.
  induction a as [|c a IH]; intros n s Hn; cbn [String.length] in Hn.
  - replace n with 0 by lia. by destruct s.
  - destruct n as [|n]; [done|]. change (String c a +:+ s) with (String c (a +:+ s)).
    cbn [String.substring]. by rewrite IH by lia.
Qed.

Lemma no_control_substring n s : no_control s → no_control (String.substring 0 n s).
Proof.
  revert n. induction s as [|c s IH]; intros [|n] Hs; [constructor..|].
  apply Forall_cons in Hs as [Hc Hs]. constructor; [done|by apply IH].
Qed.
