(* ===== verification/Coding.v ===== *)
(** * Coding.v: text for the values of countable types

    A concrete textual format for the examples: a tag, the bits of a number and
    a full stop.  It satisfies the laws the format classes ask of serde_json: a
    value is read back from its text, which is one line that is not blank, and
    no strict prefix of the text is read as a value. *)

From Stdlib Require Import Ascii.
From stdpp Require Import countable.
From S2P Require Import Prelude Machine Str Log.

(** ** Numbers as bits with an end mark *)

Fixpoint bit_chars (p : positive) : list ascii :=
  match p with xH => ["."%char] | xO p => "0"%char :: bit_chars p | xI p => "1"%char :: bit_chars p end.
Fixpoint char_bits (l : list ascii) : option positive :=
  match l with
  | ["."%char] => Some xH
  | "0"%char :: l => xO <$> char_bits l
  | "1"%char :: l => xI <$> char_bits l
  | _ => None
  end.

Lemma char_bits_bit_chars p : char_bits (bit_chars p) = Some p.
Proof. induction p as [p IH|p IH|]; [cbn; by rewrite IH..|done]. Qed.

(** A strict prefix has no end mark. *)
Lemma char_bits_prefix p : ∀ n, n < length (bit_chars p) → char_bits (take n (bit_chars p)) = None.
Proof.
  induction p as [p IH|p IH|]; intros [|n] Hn; try done; cbn [bit_chars length] in Hn |- *;
    rewrite firstn_cons; cbn [char_bits]; [by rewrite IH by lia..|lia].
Qed.

(** The text after a tag. *)
Fixpoint strip_tag (tag l : list ascii) : option (list ascii) :=
  match tag, l with
  | [], _ => Some l
  | a :: tag, b :: l => if bool_decide (a = b) then strip_tag tag l else None
  | _ :: _, [] => None
  end.

Lemma strip_tag_app tag l : strip_tag tag (tag ++ l) = Some l.
Proof. induction tag as [|a tag IH]; [done|]. cbn. by rewrite bool_decide_true. Qed.

Lemma strip_tag_take tag' tag l n r :
  length tag' = length tag → strip_tag tag' (take n (tag ++ l)) = Some r →
  r = take (n - length tag) l ∧ length tag ≤ n.
Proof.
  revert tag n. induction tag' as [|a tag' IH]; intros [|b tag] n Hl Hr; try done.
  - cbn in Hr. simplify_eq. rewrite Nat.sub_0_r. cbn. split; [done|lia].
  - destruct n as [|n]; [done|]. cbn [app] in Hr. rewrite firstn_cons in Hr. cbn [strip_tag] in Hr.
    case_bool_decide; [|done]. injection Hl as Hl. destruct (IH tag n Hl Hr) as [-> Hn]. cbn. split; [done|lia].
Qed.

Definition coded {A} `{Countable A} (tag : string) (x : A) : string :=
  String.string_of_list_ascii (String.list_ascii_of_string tag ++ bit_chars (encode x)).
Definition decoded {A} `{Countable A} (tag : string) (s : string) : option A :=
  l ← strip_tag (String.list_ascii_of_string tag) (String.list_ascii_of_string s);
  p ← char_bits l; decode p.

Lemma substring_take n l :
  String.substring 0 n (String.string_of_list_ascii l) = String.string_of_list_ascii (take n l).
Proof.
  revert n. induction l as [|c l IH]; intros [|n]; try done. rewrite firstn_cons.
  exact (f_equal (String c) (IH n)).
Qed.

Lemma string_length l : String.length (String.string_of_list_ascii l) = length l.
Proof. induction l as [|c l IH]; [done|]. exact (f_equal S IH). Qed.

Definition plain_char (c : ascii) : bool :=
  bool_decide (32 < ascii_code c < 127)%N.

Lemma of_chars_single s :
  of_chars ((λ c, String c EmptyString) <$> String.list_ascii_of_string s) = s.
Proof. induction s as [|c s IH]; [done|]. exact (f_equal (String c) IH). Qed.

Lemma plain_chars_wf l :
  Forall (λ c, plain_char c = true) l →
  Forall (λ ch, wf_char ch = true ∧ utf8_char ch = true) ((λ c, String c EmptyString) <$> l).
Proof.
  intros Hl. apply Forall_fmap. eapply Forall_impl; [exact Hl|]. intros c Hc.
  unfold plain_char in Hc. cbn. destruct c as [[] [] [] [] [] [] [] []]; vm_compute in Hc |- *; by split.
Qed.

(** Plain text with a first character is one line of text that is not blank. *)
Lemma plain_line c l :
  Forall (λ c, plain_char c = true) (c :: l) →
  let s := String.string_of_list_ascii (c :: l) in
  no_control s ∧ valid_utf8 s = true ∧ trim s ≠ EmptyString.
Proof.
  intros Hl s. pose proof (plain_chars_wf _ Hl) as Hwf.
  assert (s = of_chars ((λ c, String c EmptyString) <$> (c :: l))) as Hs.
  { rewrite <-(of_chars_single s). unfold s. by rewrite String.list_ascii_of_string_of_list_ascii. }
  assert (wf_chars ((λ c, String c EmptyString) <$> (c :: l))) as Hwf'
    by (eapply Forall_impl; [exact Hwf|naive_solver]).
  split_and!.
  - unfold no_control, s. rewrite String.list_ascii_of_string_of_list_ascii.
    eapply Forall_impl; [exact Hl|]. intros d Hd. apply bool_decide_eq_true in Hd. lia.
  - rewrite Hs. unfold valid_utf8. rewrite chars_of_chars by done. apply forallb_true.
    rewrite Forall_forall in Hwf. intros ch Hch. by apply Hwf.
  - rewrite Hs, trim_of_chars by done. rewrite fmap_cons. unfold trim_list. cbn [drop_while].
    apply Forall_cons in Hl as [Hc _].
    assert (is_whitespace (String c EmptyString) = false) as ->.
    { destruct c as [[] [] [] [] [] [] [] []]; vm_compute in Hc |- *; congruence. }
    unfold trim_end_list. rewrite reverse_cons.
    destruct (drop_while_snoc is_whitespace (reverse ((λ c, String c EmptyString) <$> l))
      (String c EmptyString)) as [k ->].
    { destruct c as [[] [] [] [] [] [] [] []]; vm_compute in Hc |- *; congruence. }
    rewrite reverse_app. intros Hbad. discriminate Hbad.
Qed.

Section coding.
Context `{Countable A} (tag : string).
Implicit Types x : A.

Lemma decoded_coded x : decoded tag (coded tag x) = Some x.
Proof.
  unfold decoded, coded. rewrite String.list_ascii_of_string_of_list_ascii, strip_tag_app.
  cbn [mbind option_bind]. rewrite char_bits_bit_chars. apply decode_encode.
Qed.

Lemma decoded_prefix `{Countable B} tag' x n :
  length (String.list_ascii_of_string tag') = length (String.list_ascii_of_string tag) →
  n < String.length (coded tag x) → decoded (A := B) tag' (String.substring 0 n (coded tag x)) = None.
Proof.
  intros Hl. unfold coded, decoded. rewrite string_length, substring_take, String.list_ascii_of_string_of_list_ascii.
  rewrite length_app. intros Hn. destruct (strip_tag _ _) as [r|] eqn:Hr; [|done]. cbn [mbind option_bind].
  destruct (strip_tag_take _ _ _ _ _ Hl Hr) as [-> Hle]. by rewrite char_bits_prefix by lia.
Qed.

Lemma coded_line x :
  tag ≠ EmptyString → forallb plain_char (String.list_ascii_of_string tag) = true →
  no_control (coded tag x) ∧ valid_utf8 (coded tag x) = true ∧ trim (coded tag x) ≠ EmptyString.
Proof.
  intros Hne Ht. unfold coded. destruct tag as [|c rest]; [done|]. cbn [String.list_ascii_of_string app].
  apply plain_line. cbn in Ht. apply andb_true_iff in Ht as [Hc Ht]. constructor; [done|]. apply Forall_app. split.
  - apply Forall_forall. intros d Hd. rewrite forallb_forall in Ht. by apply Ht, list_elem_of_In.
  - induction (encode x) as [p IH|p IH|]; cbn [bit_chars]; by constructor.
Qed.

Lemma coded_tag x : ∃ s, coded tag x = tag +:+ s.
Proof.
  exists (String.string_of_list_ascii (bit_chars (encode x))). unfold coded. generalize (bit_chars (encode x)). intros l.
  induction tag as [|c t IH]; [done|]. exact (f_equal (String c) IH).
Qed.
End coding.
