(* ===== verification/SqlAst.v ===== *)
(** * SqlAst.v: what the program reads of sqlparser's syntax tree

    sql/parser.rs calls the sqlparser crate and converts its syntax tree.  The
    crate is not in the repository; this file gives its types as the
    conversion sees them: a constructor for every variant that parser.rs names,
    with the fields that parser.rs reads, and one variant for all others of
    the type.  An identifier ([sql::Ident]) is its [value], an object name the
    list of its identifiers; a data type and the variants left apart are the
    text that their [Display] prints; a part that is only tested for presence
    is [opaque].  The crate's parser is a parameter of Parser.v. *)

From S2P Require Import Prelude.

(** A part of the tree that the program does not look into. *)
Definition opaque : Set := string.
Definition sql_ident : Set := string.
Definition sql_object_name : Set := list sql_ident.
(** The text that [Display for DataType] prints. *)
Definition sql_data_type : Set := string.

Inductive sql_value : Set :=
| SqlNumber (number : string)
| SqlSingleQuotedString (value : string)
| SqlDoubleQuotedString (value : string)
| SqlNationalStringLiteral (value : string)
| SqlEscapedStringLiteral (value : string)
| SqlBoolean (value : bool)
| SqlNull
| SqlPlaceholder (value : string)
| SqlOtherValue (text : string).

Inductive sql_binary_operator : Set :=
| SqlPlus | SqlMinus | SqlMultiply | SqlDivide
| SqlEq | SqlNotEq | SqlLt | SqlLtEq | SqlGt | SqlGtEq
| SqlAnd | SqlOr
| SqlOtherBinary (text : string).

Inductive sql_unary_operator : Set :=
| SqlNot | SqlUnaryMinus | SqlUnaryPlus
| SqlOtherUnary (text : string).

Inductive sql_duplicate_treatment : Set := SqlDistinct | SqlAll.

(** [TableAlias]: its name, and the names it gives to columns. *)
Record sql_table_alias : Set := mkSqlAlias {
  alias_name : sql_ident;
  alias_columns : list sql_ident;
}.

(** Expressions, queries and their parts.  [SqlJoinOther] and the like are the
    variants that the conversion rejects without looking further. *)
#[warnings="-register-all"]
Inductive sql_expr : Set :=
| SqlIdentifier (ident : string)
| SqlCompoundIdentifier (idents : list string)
| SqlValueExpr (value : sql_value)
| SqlNested (expr : sql_expr)
| SqlBinaryOp (left : sql_expr) (op : sql_binary_operator) (right : sql_expr)
| SqlUnaryOp (op : sql_unary_operator) (expr : sql_expr)
| SqlIsNull (expr : sql_expr)
| SqlIsNotNull (expr : sql_expr)
| SqlLike (negated any : bool) (expr pattern : sql_expr) (escape_char : option string)
| SqlInList (expr : sql_expr) (items : list sql_expr) (negated : bool)
| SqlInSubquery (expr : sql_expr) (subquery : sql_query) (negated : bool)
| SqlExists (subquery : sql_query) (negated : bool)
| SqlSubquery (query : sql_query)
| SqlFunctionCall (function : sql_function)
| SqlOtherExpr (text : string)
with sql_function : Set :=
| mkSqlFunction (name : list string) (args : sql_function_arguments)
    (over filter : option string) (within_group : list string)
with sql_function_arguments : Set :=
| SqlArgumentList (duplicate_treatment : option sql_duplicate_treatment)
    (args : list sql_function_arg)
| SqlOtherArguments
with sql_function_arg : Set :=
| SqlUnnamedExpr (expr : sql_expr)
| SqlUnnamedWildcard
| SqlOtherArg
with sql_query : Set :=
| mkSqlQuery (with_ : option sql_with) (body : sql_set_expr)
    (order_by : option (list sql_order_by_expr)) (limit : option sql_expr)
    (limit_by : list string) (offset fetch : option string)
with sql_with : Set :=
| mkSqlWith (recursive : bool) (cte_tables : list sql_cte)
with sql_cte : Set :=
| mkSqlCte (alias : sql_table_alias) (query : sql_query)
with sql_order_by_expr : Set :=
| mkSqlOrderByExpr (expr : sql_expr) (asc : option bool)
with sql_set_expr : Set :=
| SqlSelect (select : sql_select)
| SqlSetQuery (query : sql_query)
| SqlValues (rows : list (list sql_expr))
| SqlOtherSet
with sql_select : Set :=
| mkSqlSelect (distinct : option string) (projection : list sql_select_item)
    (from : list sql_table_with_joins) (selection : option sql_expr)
    (group_by : sql_group_by) (having : option sql_expr)
with sql_group_by : Set :=
| SqlGroupExpressions (exprs : list sql_expr) (modifiers : list string)
| SqlGroupAll
with sql_select_item : Set :=
(** [plain]: the options are the default ones. *)
| SqlWildcard (plain : bool)
| SqlQualifiedWildcard (name : list string) (plain : bool)
| SqlUnnamedItem (expr : sql_expr)
| SqlAliasedItem (expr : sql_expr) (alias : string)
with sql_table_with_joins : Set :=
| mkSqlTableWithJoins (relation : sql_table_factor) (joins : list sql_join)
with sql_table_factor : Set :=
| SqlTable (name : list string) (alias : option sql_table_alias) (args : option string)
| SqlDerived (lateral : bool) (subquery : sql_query) (alias : option sql_table_alias)
| SqlOtherTable
with sql_join : Set :=
| mkSqlJoin (relation : sql_table_factor) (join_operator : sql_join_operator)
with sql_join_operator : Set :=
| SqlInner (c : sql_join_constraint)
| SqlLeftOuter (c : sql_join_constraint)
| SqlRightOuter (c : sql_join_constraint)
| SqlCrossJoin
| SqlFullOuter
| SqlJoinOther
with sql_join_constraint : Set :=
| SqlOn (expr : sql_expr)
| SqlUsing
| SqlNatural
| SqlNoConstraint.

(** ** Schemas *)

Inductive sql_referential_action : Set := SqlRestrict | SqlNoAction | SqlOtherAction.

Inductive sql_column_option : Set :=
| SqlOptNull
| SqlOptNotNull
| SqlOptDefault (expr : sql_expr)
| SqlOptUnique (is_primary : bool)
| SqlOptCheck (expr : sql_expr)
| SqlOptForeignKey (foreign_table : list string) (referred_columns : list string)
    (on_delete on_update : option sql_referential_action)
| SqlOtherOption (text : string).

(** [ColumnDef]; an option may have a name. *)
Record sql_column_def : Set := mkSqlColumn {
  scol_name : sql_ident;
  scol_type : sql_data_type;
  scol_options : list (option string * sql_column_option);
}.

Inductive sql_table_constraint : Set :=
| SqlPrimaryKey (name : option string) (columns : list string)
| SqlUnique (name : option string) (columns : list string)
| SqlCheck (name : option string) (expr : sql_expr)
| SqlForeignKey (name : option string) (columns : list string) (foreign_table : list string)
    (referred_columns : list string) (on_delete on_update : option sql_referential_action)
| SqlIndex
| SqlOtherConstraint (text : string).

Inductive sql_alter_column_operation : Set :=
| SqlSetNotNull
| SqlDropNotNull
| SqlSetDefault (value : sql_expr)
| SqlDropDefault
| SqlSetDataType (data_type : string) (using_ : option string)
| SqlOtherColumnOperation.

Inductive sql_alter_operation : Set :=
| SqlAddColumn (column_def : sql_column_def) (if_not_exists : bool)
    (column_position : option string)
| SqlDropColumn (column_name : string) (if_exists cascade : bool)
| SqlRenameColumn (old_column_name new_column_name : string)
| SqlChangeColumn (old_name new_name : string) (data_type : string)
    (options : list sql_column_option) (column_position : option string)
| SqlModifyColumn (col_name : string) (data_type : string)
    (options : list sql_column_option) (column_position : option string)
| SqlAlterColumn (column_name : string) (op : sql_alter_column_operation)
| SqlAddConstraint (constraint : sql_table_constraint)
| SqlDropConstraint (name : string) (if_exists cascade : bool)
| SqlDropPrimaryKey
| SqlOtherOperation (text : string).

(** ** Statements *)

Record sql_create_table : Set := mkSqlCreateTable {
  ct_name : sql_object_name;
  ct_columns : list sql_column_def;
  ct_constraints : list sql_table_constraint;
  ct_if_not_exists : bool;
  ct_query : option string;
  ct_like : option string;
  ct_clone : option string;
}.

(** The columns are the expressions of the [OrderByExpr]s. *)
Record sql_create_index : Set := mkSqlCreateIndex {
  ci_name : option sql_object_name;
  ci_table_name : sql_object_name;
  ci_using : option string;
  ci_columns : list sql_expr;
  ci_unique : bool;
  ci_if_not_exists : bool;
  ci_include : list string;
  ci_predicate : option string;
}.

Inductive sql_assignment_target : Set :=
| SqlColumnName (name : list string)
| SqlTuple.
Definition sql_assignment : Set := (sql_assignment_target * sql_expr)%type.

Inductive sql_on_insert : Set :=
| SqlDuplicateKeyUpdate (assignments : list (sql_assignment_target * sql_expr))
| SqlOtherOnInsert (text : string).

Record sql_insert : Set := mkSqlInsert {
  si_ignore : bool;
  si_replace_into : bool;
  si_table_name : sql_object_name;
  si_columns : list sql_ident;
  si_source : option sql_query;
  si_on : option sql_on_insert;
}.

Inductive sql_from_table : Set :=
| SqlWithFromKeyword (tables : list sql_table_with_joins)
| SqlWithoutKeyword (tables : list sql_table_with_joins).

Inductive sql_object_type : Set := SqlObjectTable | SqlOtherObject.

Inductive sql_statement : Set :=
| SqlCreateTable (create : sql_create_table)
| SqlCreateIndex (create : sql_create_index)
| SqlAlterTable (name : list string) (if_exists only : bool)
    (operations : list sql_alter_operation) (location on_cluster : option string)
| SqlDrop (object_type : sql_object_type) (if_exists : bool) (names : list (list string))
| SqlInsertStatement (insert : sql_insert)
| SqlQueryStatement (query : sql_query)
| SqlUpdate (table : sql_table_with_joins)
    (assignments : list (sql_assignment_target * sql_expr)) (selection : option sql_expr)
| SqlDelete (from : sql_from_table) (selection : option sql_expr)
| SqlShowTables
| SqlExplainTable (table_name : list string)
| SqlExplain (statement : sql_statement)
| SqlStartTransaction
| SqlCommit
| SqlRollback (savepoint : option string)
| SqlOtherStatement (text : string).

(** ** The crate

    [Parser::parse_sql(&MySqlDialect {}, sql)] with its error as text, and the
    [Display] of the trees that error messages print. *)
Class SqlGrammar := {
  sql_parse : string → outcome (list sql_statement);
  sql_expr_display : sql_expr → string;
  sql_value_display : sql_value → string;
  sql_statement_display : sql_statement → string;
}.

(** ** Induction on the expressions and queries *)

Scheme sql_expr_tree_ind := Induction for sql_expr Sort Prop
  with sql_function_tree_ind := Induction for sql_function Sort Prop
  with sql_arguments_tree_ind := Induction for sql_function_arguments Sort Prop
  with sql_arg_tree_ind := Induction for sql_function_arg Sort Prop
  with sql_query_tree_ind := Induction for sql_query Sort Prop
  with sql_with_tree_ind := Induction for sql_with Sort Prop
  with sql_cte_tree_ind := Induction for sql_cte Sort Prop
  with sql_order_tree_ind := Induction for sql_order_by_expr Sort Prop
  with sql_set_tree_ind := Induction for sql_set_expr Sort Prop
  with sql_select_tree_ind := Induction for sql_select Sort Prop
  with sql_group_tree_ind := Induction for sql_group_by Sort Prop
  with sql_item_tree_ind := Induction for sql_select_item Sort Prop
  with sql_joins_tree_ind := Induction for sql_table_with_joins Sort Prop
  with sql_factor_tree_ind := Induction for sql_table_factor Sort Prop
  with sql_join_tree_ind := Induction for sql_join Sort Prop
  with sql_join_operator_tree_ind := Induction for sql_join_operator Sort Prop
  with sql_join_constraint_tree_ind := Induction for sql_join_constraint Sort Prop.
Combined Scheme sql_tree_ind from sql_expr_tree_ind, sql_function_tree_ind,
  sql_arguments_tree_ind, sql_arg_tree_ind, sql_query_tree_ind, sql_with_tree_ind,
  sql_cte_tree_ind, sql_order_tree_ind, sql_set_tree_ind, sql_select_tree_ind,
  sql_group_tree_ind, sql_item_tree_ind, sql_joins_tree_ind, sql_factor_tree_ind,
  sql_join_tree_ind, sql_join_operator_tree_ind, sql_join_constraint_tree_ind.
