(* ===== verification/Convert.v ===== *)
(** * Convert.v: from sqlparser's tree to RustyDB's (src/sql/parser.rs, 284-439, 684-1383)

    The conversion of the statements that the sqlparser crate reads (SqlAst)
    into the statements the engine executes (Statement): what the program
    supports, how it normalises names, and what it refuses. *)

From S2P Require Import Prelude Machine Float64 Like Types Statement Str SqlAst.

(** ** Identifiers *)

(** Backtick, double quote, quote and semicolon. *)
Definition is_identifier_quote (ch : string) : bool :=
  match char_codes ch with [n] => bool_decide (n ∈ [96; 34; 39; 59]%N) | _ => false end.
Definition clean_identifier (value : string) : string :=
  to_ascii_lowercase (trim_matches is_identifier_quote value).

Section convert.
Context `{RustStd} `{SqlGrammar}.

(** ** Names, operators, literals, types *)

(** The last identifier; a schema or database in front of it is dropped. *)
Definition object_name (name : sql_object_name) : string :=
  from_option to_ascii_lowercase "" (last name).

Definition convert_binary_op (op : sql_binary_operator) : outcome BinaryOp :=
  match op with
  | SqlPlus => Ok OpAdd
  | SqlMinus => Ok OpSubtract
  | SqlMultiply => Ok OpMultiply
  | SqlDivide => Ok OpDivide
  | SqlEq => Ok (OpCompare CmpEqual)
  | SqlNotEq => Ok (OpCompare CmpNotEqual)
  | SqlLt => Ok (OpCompare CmpLessThan)
  | SqlLtEq => Ok (OpCompare CmpLessThanOrEqual)
  | SqlGt => Ok (OpCompare CmpGreaterThan)
  | SqlGtEq => Ok (OpCompare CmpGreaterThanOrEqual)
  | SqlAnd => Ok OpAnd
  | SqlOr => Ok OpOr
  | SqlOtherBinary other => Err ("Unsupported binary operator: " +:+ other)
  end.

Definition convert_unary_op (op : sql_unary_operator) : outcome UnaryOp :=
  match op with
  | SqlNot => Ok UNot
  | SqlUnaryMinus => Ok UNegate
  | SqlUnaryPlus => Ok UPlus
  | SqlOtherUnary op => Err ("Unsupported unary operator: " +:+ op)
  end.

(** A number with a point or an exponent is a float, any other an [i64]. *)
Definition convert_value (value : sql_value) : outcome Value :=
  match value with
  | SqlNumber number =>
      if contains_char [46; 101; 69]%N number then
        f ← ok_or (f64_from_str number) ("Invalid number: " +:+ number); Ok (VFloat f)
      else
        z ← ok_or (parse_int i64_min i64_max number) ("Invalid integer: " +:+ number);
        Ok (VInteger z)
  | SqlSingleQuotedString value | SqlDoubleQuotedString value
  | SqlNationalStringLiteral value | SqlEscapedStringLiteral value => Ok (VText value)
  | SqlBoolean value => Ok (VBoolean value)
  | SqlNull => Ok VNull
  | other => Err ("Unsupported literal: " +:+ sql_value_display other)
  end.

Definition convert_data_type (data_type : sql_data_type) : outcome DataType :=
  let text := to_ascii_uppercase data_type in
  let starts_with_any := existsb (λ prefix, starts_with_str prefix text) in
  if starts_with_any ["INT"; "INTEGER"; "BIGINT"; "SMALLINT"] then Ok TInteger
  else if starts_with_any ["FLOAT"; "DOUBLE"; "REAL"; "DECIMAL"; "NUMERIC"] then Ok TFloat
  else if starts_with_any ["TEXT"; "VARCHAR"; "CHAR"; "STRING"] then Ok TText
  else if starts_with_str "BOOL" text then Ok TBoolean
  else Err ("Unsupported data type: " +:+ data_type).

(** ** Literals out of expressions *)

Definition expect_literal (e : Expr) : outcome Value :=
  match e with ELiteral value => Ok value | _ => Err "DEFAULT must be a literal" end.

Definition expect_usize (e : Expr) : outcome nat :=
  match e with
  | ELiteral (VInteger value) =>
      if decide (0 ≤ value)%Z then Ok (Z.to_nat value)
      else Err "LIMIT must be a non-negative integer"
  | _ => Err "LIMIT must be a non-negative integer"
  end.

Definition aggregate_function (name : string) : outcome AggregateFunction :=
  if bool_decide (name = "count") then Ok AggCount
  else if bool_decide (name = "sum") then Ok AggSum
  else if bool_decide (name = "avg") then Ok AggAvg
  else if bool_decide (name = "max") then Ok AggMax
  else if bool_decide (name = "min") then Ok AggMin
  else Err ("Unsupported function: " +:+ name).

(** [VALUES(column)], in ON DUPLICATE KEY UPDATE. *)
Definition incoming_column (args : sql_function_arguments) : outcome Expr :=
  match args with
  | SqlArgumentList _ [SqlUnnamedExpr (SqlIdentifier column)] =>
      Ok (EIncoming (to_ascii_lowercase column))
  | _ => Err "VALUES() requires one column argument"
  end.

(** ** Expressions and queries *)

Fixpoint convert_expr (expr : sql_expr) : outcome Expr :=
  match expr with
  | SqlIdentifier identifier => Ok (EColumn None (to_ascii_lowercase identifier))
  | SqlCompoundIdentifier [qualifier; name] =>
      Ok (EColumn (Some (to_ascii_lowercase qualifier)) (to_ascii_lowercase name))
  | SqlValueExpr (SqlPlaceholder _) => Ok (EParameter u64_max)
  | SqlValueExpr value => v ← convert_value value; Ok (ELiteral v)
  | SqlNested expr => convert_expr expr
  | SqlBinaryOp l op r =>
      l ← convert_expr l; op ← convert_binary_op op; r ← convert_expr r; Ok (EBinary l op r)
  | SqlUnaryOp op expr => op ← convert_unary_op op; e ← convert_expr expr; Ok (EUnary op e)
  | SqlIsNull expr => e ← convert_expr expr; Ok (EIsNull e false)
  | SqlIsNotNull expr => e ← convert_expr expr; Ok (EIsNull e true)
  | SqlLike negated false expr pattern None =>
      e ← convert_expr expr; p ← convert_expr pattern; Ok (ELike e p negated)
  | SqlInList expr items negated =>
      e ← convert_expr expr; items ← mapM convert_expr items; Ok (EInList e items negated)
  | SqlInSubquery expr subquery negated =>
      e ← convert_expr expr; q ← convert_query subquery; Ok (EInSubquery e q negated)
  | SqlExists subquery negated => q ← convert_query subquery; Ok (EExists q negated)
  | SqlSubquery query => q ← convert_query query; Ok (EScalarSubquery q)
  | SqlFunctionCall function => convert_function function
  | other => Err ("Unsupported expression: " +:+ sql_expr_display other)
  end
with convert_function (function : sql_function) : outcome Expr :=
  match function with
  | mkSqlFunction name args over filter within_group =>
      if bool_decide (is_Some over) || bool_decide (is_Some filter)
         || negb (bool_decide (within_group = [])) then
        Err "Window/FILTER/WITHIN GROUP functions are unsupported"
      else
        let function_name := object_name name in
        if bool_decide (function_name = "values") then incoming_column args
        else
          aggregate ← aggregate_function function_name;
          match args with
          | SqlArgumentList duplicate_treatment [arg] =>
              expr ← match arg with
                     | SqlUnnamedWildcard => Ok None
                     | SqlUnnamedExpr expr => e ← convert_expr expr; Ok (Some e)
                     | SqlOtherArg => Err "Unsupported aggregate argument"
                     end;
              if negb (bool_decide (is_Some expr)) && negb (bool_decide (aggregate = AggCount)) then
                Err "Only COUNT supports '*'"
              else
                Ok (EAggregate aggregate expr
                      (match duplicate_treatment with Some SqlDistinct => true | _ => false end))
          | SqlArgumentList _ _ => Err "Aggregate functions require exactly one argument"
          | SqlOtherArguments => Err "Aggregate functions require a normal argument list"
          end
  end
with convert_query (query : sql_query) : outcome Query :=
  match query with
  | mkSqlQuery with_ body order_by limit limit_by offset fetch =>
      if bool_decide (is_Some offset) || bool_decide (is_Some fetch)
         || negb (bool_decide (limit_by = [])) then
        Err "OFFSET/FETCH/LIMIT BY are unsupported"
      else
        ctes ← match with_ with
               | Some (mkSqlWith recursive cte_tables) =>
                   if recursive then Err "Recursive CTEs are unsupported"
                   else mapM convert_cte cte_tables
               | None => Ok []
               end;
        match body with
        | SqlSelect (mkSqlSelect distinct projection from selection group_by having) =>
            if decide (1 < length from) then
              Err "Comma joins are unsupported; use explicit JOIN syntax"
            else
              tables ← match from with
                       | mkSqlTableWithJoins relation joins :: _ =>
                           source ← convert_table_source relation;
                           joins ← mapM convert_join joins;
                           Ok (Some source, joins)
                       | [] => Ok (None, [])
                       end;
              group_by ← match group_by with
                         | SqlGroupExpressions expressions [] => mapM convert_expr expressions
                         | _ => Err "GROUP BY modifiers/ALL are unsupported"
                         end;
              order_by ← optM (mapM convert_order) order_by;
              limit ← optM (λ expr, e ← convert_expr expr; expect_usize e) limit;
              projection ← mapM convert_select_item projection;
              selection ← optM convert_expr selection;
              having ← optM convert_expr having;
              Ok (mkQuery ctes (bool_decide (is_Some distinct)) projection tables.1 tables.2
                    selection group_by having (default [] order_by) limit)
        | SqlSetQuery query => convert_query query
        | _ => Err "Set operations are unsupported"
        end
  end
with convert_cte (cte : sql_cte) : outcome Cte :=
  match cte with
  | mkSqlCte alias query =>
      q ← convert_query query;
      Ok (mkCte (to_ascii_lowercase (alias_name alias))
            (to_ascii_lowercase <$> alias_columns alias) q)
  end
with convert_order (item : sql_order_by_expr) : outcome OrderBy :=
  match item with
  | mkSqlOrderByExpr expr asc =>
      e ← convert_expr expr; Ok (mkOrderBy e (bool_decide (asc = Some false)))
  end
with convert_select_item (item : sql_select_item) : outcome SelectItem :=
  match item with
  | SqlWildcard true => Ok (SWildcard None)
  | SqlQualifiedWildcard name true => Ok (SWildcard (Some (object_name name)))
  | SqlUnnamedItem expr => e ← convert_expr expr; Ok (SExpr e None)
  | SqlAliasedItem expr alias =>
      e ← convert_expr expr; Ok (SExpr e (Some (to_ascii_lowercase alias)))
  | _ => Err "Wildcard modifiers are unsupported"
  end
with convert_table_source (source : sql_table_factor) : outcome TableSource :=
  match source with
  | SqlTable name alias None =>
      Ok (SrcTable (object_name name) (to_ascii_lowercase ∘ alias_name <$> alias))
  | SqlDerived false subquery (Some alias) =>
      q ← convert_query subquery; Ok (SrcDerived q (to_ascii_lowercase (alias_name alias)))
  | SqlDerived true _ _ => Err "LATERAL subqueries are unsupported"
  | SqlDerived _ _ None => Err "Derived tables require an alias"
  | _ => Err "Unsupported table source"
  end
with convert_join (join : sql_join) : outcome Join :=
  match join with
  | mkSqlJoin relation join_operator =>
      let convert_constraint c :=
        match c with
        | SqlNoConstraint => Ok None
        | SqlOn expr => e ← convert_expr expr; Ok (Some e)
        | SqlUsing | SqlNatural => Err "NATURAL/USING joins are unsupported; use ON"
        end in
      on ← match join_operator with
           | SqlInner c => on ← convert_constraint c; Ok (JInner, on)
           | SqlLeftOuter c => on ← convert_constraint c; Ok (JLeft, on)
           | SqlRightOuter c => on ← convert_constraint c; Ok (JRight, on)
           | SqlCrossJoin => Ok (JCross, None)
           | SqlFullOuter => Err "FULL JOIN is unsupported"
           | SqlJoinOther => Err "Unsupported JOIN type"
           end;
      source ← convert_table_source relation;
      Ok (mkJoin on.1 source on.2)
  end.

(** [literal_value] and [literal_usize]. *)
Definition literal_value (expr : sql_expr) : outcome Value :=
  e ← convert_expr expr; expect_literal e.
Definition literal_usize (expr : sql_expr) : outcome nat :=
  e ← convert_expr expr; expect_usize e.

(** ** Tables *)

(** A table factor that is only a name. *)
Definition table_factor_name (source : sql_table_factor) : outcome string :=
  match source with
  | SqlTable name _ None => Ok (object_name name)
  | _ => Err "Expected a table name"
  end.

Definition is_restrict (action : sql_referential_action) : bool :=
  match action with SqlRestrict | SqlNoAction => true | SqlOtherAction => false end.

Definition validate_referential_actions (on_delete on_update : option sql_referential_action) :
    outcome () :=
  if forallb (λ o, match o with Some action => is_restrict action | None => true end)
       [on_delete; on_update]
  then Ok tt else Err "Only RESTRICT/NO ACTION foreign keys are supported".

(** One option of a column: what it does to the column and the table
    constraints collected so far. *)
Definition convert_column_option (st : ColumnDef * list TableConstraint)
    (option : option string * sql_column_option) : outcome (ColumnDef * list TableConstraint) :=
  let '(converted, constraints) := st in
  let constraint_name := to_ascii_lowercase <$> option.1 in
  match option.2 with
  | SqlOptNull =>
      Ok (set_flags converted true (col_primary_key converted) (col_unique converted), constraints)
  | SqlOptNotNull =>
      Ok (set_flags converted false (col_primary_key converted) (col_unique converted), constraints)
  | SqlOptDefault expr => v ← literal_value expr; Ok (set_default converted (Some v), constraints)
  | SqlOptUnique is_primary =>
      Ok (if is_primary then column_primary_key converted else column_set_unique converted,
          constraints)
  | SqlOptCheck expr =>
      e ← convert_expr expr;
      Ok (add_check converted e, constraints ++ [CCheck constraint_name e])
  | SqlOptForeignKey table referred on_delete on_update =>
      _ ← validate_referential_actions on_delete on_update;
      Ok (converted, constraints ++ [CForeignKey {|
            fk_name := constraint_name; fk_columns := [col_name converted];
            foreign_table := object_name table;
            referred_columns := to_ascii_lowercase <$> referred |}])
  | SqlOtherOption unsupported => Err ("Unsupported column option: " +:+ unsupported)
  end.

Definition convert_column_def (column : sql_column_def) :
    outcome (ColumnDef * list TableConstraint) :=
  d ← convert_data_type (scol_type column);
  st ← foldM convert_column_option
         (column_new (to_ascii_lowercase (scol_name column)) d, []) (scol_options column);
  let '(converted, constraints) := st in
  Ok (converted,
      if col_primary_key converted then constraints ++ [CPrimaryKey None [col_name converted]]
      else if col_unique converted then constraints ++ [CUnique None [col_name converted]]
      else constraints).

Definition convert_table_constraint (constraint : sql_table_constraint) : outcome TableConstraint :=
  match constraint with
  | SqlPrimaryKey name columns =>
      Ok (CPrimaryKey (to_ascii_lowercase <$> name) (to_ascii_lowercase <$> columns))
  | SqlUnique name columns =>
      Ok (CUnique (to_ascii_lowercase <$> name) (to_ascii_lowercase <$> columns))
  | SqlCheck name expr => e ← convert_expr expr; Ok (CCheck (to_ascii_lowercase <$> name) e)
  | SqlForeignKey name columns table referred on_delete on_update =>
      _ ← validate_referential_actions on_delete on_update;
      Ok (CForeignKey {|
            fk_name := to_ascii_lowercase <$> name; fk_columns := to_ascii_lowercase <$> columns;
            foreign_table := object_name table;
            referred_columns := to_ascii_lowercase <$> referred |})
  | SqlIndex =>
      Err "Inline INDEX declarations are unsupported; use CREATE INDEX after CREATE TABLE"
  | SqlOtherConstraint other => Err ("Unsupported table constraint: " +:+ other)
  end.

Definition convert_create_table (create : sql_create_table) : outcome Statement :=
  if bool_decide (is_Some (ct_query create)) || bool_decide (is_Some (ct_like create))
     || bool_decide (is_Some (ct_clone create)) then
    Err "CREATE TABLE AS/LIKE/CLONE is unsupported"
  else
    columns ← mapM convert_column_def (ct_columns create);
    constraints ← mapM convert_table_constraint (ct_constraints create);
    Ok (CreateTable (object_name (ct_name create)) columns.*1
          (concat columns.*2 ++ constraints) (ct_if_not_exists create)).

(** ** ALTER TABLE *)

Definition convert_modified_column (old_name new_name : sql_ident) (data_type : sql_data_type)
    (options : list sql_column_option) (column_position : option opaque) : outcome AlterOperation :=
  if bool_decide (is_Some column_position) then
    Err "ALTER TABLE column positioning is unsupported"
  else
    column ← convert_column_def (mkSqlColumn new_name data_type ((λ o, (None, o)) <$> options));
    Ok (ModifyColumn (to_ascii_lowercase old_name) column.1 column.2).

Definition convert_alter_column (column_name : sql_ident) (op : sql_alter_column_operation) :
    outcome AlterOperation :=
  let column := clean_identifier column_name in
  match op with
  | SqlSetNotNull => Ok (SetNullable column false)
  | SqlDropNotNull => Ok (SetNullable column true)
  | SqlSetDefault value => v ← literal_value value; Ok (SetDefault column (Some v))
  | SqlDropDefault => Ok (SetDefault column None)
  | SqlSetDataType data_type None => d ← convert_data_type data_type; Ok (SetDataType column d)
  | _ => Err "Unsupported ALTER COLUMN operation"
  end.

Definition convert_alter_operation (operation : sql_alter_operation) : outcome AlterOperation :=
  match operation with
  | SqlAddColumn column_def if_not_exists column_position =>
      if bool_decide (is_Some column_position) then
        Err "ALTER TABLE column positioning is unsupported"
      else
        column ← convert_column_def column_def; Ok (AddColumn column.1 column.2 if_not_exists)
  | SqlDropColumn column_name if_exists cascade =>
      if cascade : bool then Err "ALTER TABLE DROP COLUMN CASCADE is unsupported"
      else Ok (DropColumn (to_ascii_lowercase column_name) if_exists)
  | SqlRenameColumn old_column_name new_column_name =>
      Ok (RenameColumn (to_ascii_lowercase old_column_name) (to_ascii_lowercase new_column_name))
  | SqlChangeColumn old_name new_name data_type options column_position =>
      convert_modified_column old_name new_name data_type options column_position
  | SqlModifyColumn col_name data_type options column_position =>
      convert_modified_column col_name col_name data_type options column_position
  | SqlAlterColumn column_name op => convert_alter_column column_name op
  | SqlAddConstraint constraint =>
      c ← convert_table_constraint constraint; Ok (AddConstraint c)
  | SqlDropConstraint name if_exists cascade =>
      if cascade : bool then Err "ALTER TABLE DROP CONSTRAINT CASCADE is unsupported"
      else Ok (DropConstraint (to_ascii_lowercase name) if_exists)
  | SqlDropPrimaryKey => Ok DropPrimaryKey
  | SqlOtherOperation other => Err ("Unsupported ALTER TABLE operation: " +:+ other)
  end.

(** ** INSERT *)

Definition convert_assignment (assignment : sql_assignment) : outcome (string * Expr) :=
  match assignment.1 with
  | SqlColumnName name => e ← convert_expr assignment.2; Ok (object_name name, e)
  | SqlTuple => Err "Tuple assignment is unsupported"
  end.

(** The body decides: the rows of VALUES, or the whole query. *)
Definition convert_insert_source (source : sql_query) : outcome InsertSource :=
  let '(mkSqlQuery _ body _ _ _ _ _) := source in
  match body with
  | SqlValues rows => rows ← mapM (mapM convert_expr) rows; Ok (InsertValues rows)
  | _ => q ← convert_query source; Ok (InsertQuery q)
  end.

Definition convert_on_insert (on : option sql_on_insert) : outcome (list (string * Expr)) :=
  match on with
  | None => Ok []
  | Some (SqlDuplicateKeyUpdate assignments) => mapM convert_assignment assignments
  | Some (SqlOtherOnInsert other) => Err ("Unsupported INSERT conflict clause: " +:+ other)
  end.

Definition convert_insert (insert : sql_insert) : outcome Statement :=
  if si_ignore insert || si_replace_into insert then
    Err "INSERT IGNORE/REPLACE clauses are unsupported"
  else
    source ← ok_or (si_source insert) "INSERT requires VALUES";
    source ← convert_insert_source source;
    on_duplicate ← convert_on_insert (si_on insert);
    Ok (Insert (object_name (si_table_name insert))
          (match si_columns insert with
           | [] => None
           | columns => Some (to_ascii_lowercase <$> columns)
           end)
          source on_duplicate).

(** ** Statements *)

Definition index_column (expr : sql_expr) : outcome string :=
  match expr with
  | SqlIdentifier identifier => Ok (to_ascii_lowercase identifier)
  | _ => Err "Index expressions are unsupported"
  end.

Definition convert_create_index (create : sql_create_index) : outcome Statement :=
  if bool_decide (is_Some (ci_using create)) || bool_decide (is_Some (ci_predicate create))
     || negb (bool_decide (ci_include create = [])) then
    Err "Partial, covering, and non-B-tree indexes are unsupported"
  else
    name ← ok_or (object_name <$> ci_name create) "CREATE INDEX requires an index name";
    columns ← mapM index_column (ci_columns create);
    Ok (CreateIndex name (object_name (ci_table_name create)) columns (ci_unique create)
          (ci_if_not_exists create)).

Definition from_tables_of (from : sql_from_table) : list sql_table_with_joins :=
  match from with SqlWithFromKeyword tables | SqlWithoutKeyword tables => tables end.

Definition convert_delete (from : sql_from_table) (selection : option sql_expr) : outcome Statement :=
  match from_tables_of from with
  | [mkSqlTableWithJoins relation []] =>
      table_name ← table_factor_name relation;
      selection ← optM convert_expr selection;
      Ok (Delete table_name selection)
  | _ => Err "Only single-table DELETE is supported"
  end.

Definition convert_update (table : sql_table_with_joins) (assignments : list sql_assignment)
    (selection : option sql_expr) : outcome Statement :=
  let '(mkSqlTableWithJoins relation joins) := table in
  match joins with
  | [] =>
      table_name ← table_factor_name relation;
      assignments ← mapM convert_assignment assignments;
      selection ← optM convert_expr selection;
      Ok (Update table_name assignments selection)
  | _ => Err "UPDATE with JOIN is unsupported"
  end.

Fixpoint convert_statement (statement : sql_statement) : outcome Statement :=
  match statement with
  | SqlCreateTable create => convert_create_table create
  | SqlCreateIndex create => convert_create_index create
  | SqlAlterTable name if_exists only operations location on_cluster =>
      if if_exists || only || bool_decide (is_Some location) || bool_decide (is_Some on_cluster)
      then Err "ALTER TABLE IF EXISTS/ONLY/location/cluster is unsupported"
      else
        operations ← mapM convert_alter_operation operations;
        Ok (AlterTable (object_name name) operations)
  | SqlDrop object_type if_exists names =>
      match object_type, names with
      | SqlObjectTable, [name] => Ok (DropTable (object_name name) if_exists)
      | _, _ => Err "Only DROP TABLE is supported by this form"
      end
  | SqlInsertStatement insert => convert_insert insert
  | SqlQueryStatement query => q ← convert_query query; Ok (SelectQuery q)
  | SqlUpdate table assignments selection => convert_update table assignments selection
  | SqlDelete from selection => convert_delete from selection
  | SqlShowTables => Ok ShowTables
  | SqlExplainTable table_name => Ok (DescribeTable (object_name table_name))
  | SqlExplain statement => s ← convert_statement statement; Ok (Explain s)
  | SqlStartTransaction => Ok Begin
  | SqlCommit => Ok Commit
  | SqlRollback None => Ok Rollback
  | other => Err ("Unsupported SQL statement: " +:+ sql_statement_display other)
  end.

(** What [parse_sql] does with the text that is not an extension. *)
Definition standard_statement (sql : string) : outcome Statement :=
  statements ← sql_parse sql;
  match statements with
  | [statement] => convert_statement statement
  | _ => Err "Expected exactly one SQL statement"
  end.
End convert.

(** ** What the conversion leaves out *)

Section omissions.
Context `{RustStd} `{SqlGrammar}.

(** Around a parenthesised query everything but its checks is dropped: the
    common table expressions, ORDER BY and LIMIT of the outer query. *)
Theorem parenthesised_query_drops_outer_clauses ctes order_by limit query :
  is_Ok (mapM convert_cte ctes) →
  convert_query (mkSqlQuery (Some (mkSqlWith false ctes)) (SqlSetQuery query) order_by limit
    [] None None) = convert_query query.
Proof.
  intros [l Hl]. transitivity (_ ← mapM convert_cte ctes; convert_query query); [done|]. by rewrite Hl.
Qed.

(** [FROM (SELECT ...) AS t (a, b)] names the table but not its columns. *)
Theorem derived_column_names_dropped query name columns :
  convert_table_source (SqlDerived false query (Some (mkSqlAlias name columns))) =
  convert_table_source (SqlDerived false query (Some (mkSqlAlias name []))).
Proof. done. Qed.

(** INTERVAL starts with INT. *)
Theorem interval_is_integer : convert_data_type "INTERVAL" = Ok TInteger.
Proof. done. Qed.

(** A negative number is a unary minus, so it is no literal: it cannot be a
    default value, and the smallest [i64] cannot be written at all. *)
Theorem negative_default_refused number v :
  convert_value (SqlNumber number) = Ok v →
  literal_value (SqlUnaryOp SqlUnaryMinus (SqlValueExpr (SqlNumber number))) =
    Err "DEFAULT must be a literal".
Proof. intros Hv. unfold literal_value. cbn [convert_expr convert_unary_op mbind outcome_bind]. by rewrite Hv. Qed.
Theorem smallest_integer_refused :
  convert_value (SqlNumber "9223372036854775808") = Err "Invalid integer: 9223372036854775808".
Proof. vm_compute. reflexivity. Qed.
End omissions.

(** Folds the mutual conversions after a step of evaluation. *)
Ltac fold_convert :=
  fold convert_expr convert_query convert_select_item convert_table_source convert_join convert_order
    convert_cte convert_function.
