(* ===== verification/Express.v ===== *)
(** * Express.v: the SQL texts of statements (src/sql/parser.rs)

    Every statement of the engine that SQL can express, written as the syntax
    tree of its text, and the theorem that the conversion of Convert.v reads
    the tree back as the statement. *)

From S2P Require Import Prelude Machine Float64 Like Types Text Concrete Statement Str SqlAst Convert.

(** ** Statements written back as syntax trees

    [sql_of_statement] writes a statement as the tree of the SQL text that
    expresses it; [expressible] says for which statements there is one: names
    in lower case, placeholders not yet numbered, no negative literal (it is a
    unary minus), floats that their text reads back as, and columns whose flags
    and checks agree with the constraints that the statement lists for them. *)

Section embedding.
Context `{RustStd}.

(** The text of a float: one without a fraction gets one. *)
Definition float_text (f : f64) : string :=
  let s := f64_to_string f in if contains_char [46; 101; 69]%N s then s else s +:+ ".0".

Definition sql_of_value (v : Value) : sql_value :=
  match v with
  | VInteger z => SqlNumber (pretty z)
  | VFloat f => SqlNumber (float_text f)
  | VText s => SqlSingleQuotedString s
  | VBoolean b => SqlBoolean b
  | VNull => SqlNull
  end.

Definition sql_of_binary_op (op : BinaryOp) : sql_binary_operator :=
  match op with
  | OpAdd => SqlPlus | OpSubtract => SqlMinus | OpMultiply => SqlMultiply | OpDivide => SqlDivide
  | OpAnd => SqlAnd | OpOr => SqlOr
  | OpCompare CmpEqual => SqlEq
  | OpCompare CmpNotEqual => SqlNotEq
  | OpCompare CmpLessThan => SqlLt
  | OpCompare CmpLessThanOrEqual => SqlLtEq
  | OpCompare CmpGreaterThan => SqlGt
  | OpCompare CmpGreaterThanOrEqual => SqlGtEq
  | OpCompare CmpLike => SqlOtherBinary "LIKE"
  end.

Definition sql_of_unary_op (op : UnaryOp) : sql_unary_operator :=
  match op with UNot => SqlNot | UNegate => SqlUnaryMinus | UPlus => SqlUnaryPlus end.

Definition sql_call (name : string) (distinct : bool) (arg : sql_function_arg) : sql_expr :=
  SqlFunctionCall (mkSqlFunction [name]
    (SqlArgumentList (if distinct then Some SqlDistinct else None) [arg]) None None []).

Definition sql_alias (name : string) : sql_table_alias := mkSqlAlias name [].

Fixpoint sql_of_expr (e : Expr) : sql_expr :=
  match e with
  | EColumn None name => SqlIdentifier name
  | EColumn (Some qualifier) name => SqlCompoundIdentifier [qualifier; name]
  | ELiteral v => SqlValueExpr (sql_of_value v)
  | EParameter _ => SqlValueExpr (SqlPlaceholder "?")
  | EIncoming column => sql_call "values" false (SqlUnnamedExpr (SqlIdentifier column))
  | EBinary l op r => SqlBinaryOp (sql_of_expr l) (sql_of_binary_op op) (sql_of_expr r)
  | EUnary op e => SqlUnaryOp (sql_of_unary_op op) (sql_of_expr e)
  | EIsNull e negated => (if negated then SqlIsNotNull else SqlIsNull) (sql_of_expr e)
  | ELike e p negated => SqlLike negated false (sql_of_expr e) (sql_of_expr p) None
  | EInList e items negated => SqlInList (sql_of_expr e) (sql_of_expr <$> items) negated
  | EInSubquery e q negated => SqlInSubquery (sql_of_expr e) (sql_of_query q) negated
  | EExists q negated => SqlExists (sql_of_query q) negated
  | EScalarSubquery q => SqlSubquery (sql_of_query q)
  | EAggregate f e distinct =>
      sql_call (aggregate_name f) distinct
        (match e with Some e => SqlUnnamedExpr (sql_of_expr e) | None => SqlUnnamedWildcard end)
  end
with sql_of_item (i : SelectItem) : sql_select_item :=
  match i with
  | SWildcard None => SqlWildcard true
  | SWildcard (Some qualifier) => SqlQualifiedWildcard [qualifier] true
  | SExpr e None => SqlUnnamedItem (sql_of_expr e)
  | SExpr e (Some alias) => SqlAliasedItem (sql_of_expr e) alias
  end
with sql_of_source (s : TableSource) : sql_table_factor :=
  match s with
  | SrcTable name alias => SqlTable [name] (sql_alias <$> alias) None
  | SrcDerived q alias => SqlDerived false (sql_of_query q) (Some (sql_alias alias))
  end
with sql_of_join (j : Join) : sql_join :=
  match j with
  | mkJoin t source on =>
      let c := match on with Some e => SqlOn (sql_of_expr e) | None => SqlNoConstraint end in
      mkSqlJoin (sql_of_source source)
        (match t with
         | JInner => SqlInner c | JLeft => SqlLeftOuter c | JRight => SqlRightOuter c
         | JCross => SqlCrossJoin
         end)
  end
with sql_of_order (o : OrderBy) : sql_order_by_expr :=
  match o with
  | mkOrderBy e descending => mkSqlOrderByExpr (sql_of_expr e) (Some (negb descending))
  end
with sql_of_cte (c : Cte) : sql_cte :=
  match c with mkCte name columns q => mkSqlCte (mkSqlAlias name columns) (sql_of_query q) end
with sql_of_query (q : Query) : sql_query :=
  match q with
  | mkQuery ctes distinct projection from joins selection group_by having order_by limit =>
      mkSqlQuery (Some (mkSqlWith false (sql_of_cte <$> ctes)))
        (SqlSelect (mkSqlSelect (if distinct then Some "DISTINCT" else None)
           (sql_of_item <$> projection)
           (match from with
            | Some source => [mkSqlTableWithJoins (sql_of_source source) (sql_of_join <$> joins)]
            | None => []
            end)
           (sql_of_expr <$> selection) (SqlGroupExpressions (sql_of_expr <$> group_by) [])
           (sql_of_expr <$> having)))
        (Some (sql_of_order <$> order_by)) ((λ n : nat, SqlValueExpr (SqlNumber (pretty n))) <$> limit)
        [] None None
  end.

(** *** Statements *)

Definition sql_of_literal (v : Value) : sql_expr := SqlValueExpr (sql_of_value v).

(** The constraints that a statement lists for a column: its checks and foreign
    keys, then the key that its flags stand for. *)
Definition key_constraint (c : ColumnDef) : list TableConstraint :=
  if col_primary_key c then [CPrimaryKey None [col_name c]]
  else if col_unique c then [CUnique None [col_name c]] else [].

Definition sql_of_inline (constraint : TableConstraint) : option string * sql_column_option :=
  match constraint with
  | CCheck name e => (name, SqlOptCheck (sql_of_expr e))
  | CForeignKey fk =>
      (fk_name fk, SqlOptForeignKey [foreign_table fk] (referred_columns fk) None (Some SqlRestrict))
  | _ => (None, SqlOtherOption "")
  end.

Definition sql_of_options (c : ColumnDef) (inline : list TableConstraint) :
    list (option string * sql_column_option) :=
  (if col_primary_key c then [(None, SqlOptUnique true)]
   else if col_unique c then [(None, SqlOptUnique false)] else []) ++
  (None, if col_nullable c then SqlOptNull else SqlOptNotNull) ::
  match col_default c with Some v => [(None, SqlOptDefault (sql_of_literal v))] | None => [] end ++
  (sql_of_inline <$> inline).

Definition sql_of_column (c : ColumnDef) (inline : list TableConstraint) : sql_column_def :=
  mkSqlColumn (col_name c) (data_type_display (col_type c)) (sql_of_options c inline).

(** The constraints of one column at the beginning of a list, and the rest. *)
Fixpoint take_inline (checks : nat) (name : string) (l : list TableConstraint) :
    list TableConstraint * list TableConstraint :=
  match l with
  | CCheck n e :: l' =>
      match checks with
      | 0 => ([], l)
      | S checks => let '(inline, rest) := take_inline checks name l' in (CCheck n e :: inline, rest)
      end
  | CForeignKey fk :: l' =>
      if bool_decide (fk_columns fk = [name]) then
        let '(inline, rest) := take_inline checks name l' in (CForeignKey fk :: inline, rest)
      else ([], l)
  | _ => ([], l)
  end.
Definition inline_of (c : ColumnDef) (l : list TableConstraint) : list TableConstraint :=
  (take_inline (length (col_checks c)) (col_name c) l).1.

(** The constraints of each column of a table, and those of the table. *)
Fixpoint split_columns (columns : list ColumnDef) (l : list TableConstraint) :
    list (ColumnDef * list TableConstraint) * list TableConstraint :=
  match columns with
  | [] => ([], l)
  | c :: columns =>
      let inline := inline_of c l in
      let '(columns, rest) := split_columns columns (drop (length (inline ++ key_constraint c)) l) in
      ((c, inline) :: columns, rest)
  end.

Definition sql_of_constraint (c : TableConstraint) : sql_table_constraint :=
  match c with
  | CPrimaryKey name columns => SqlPrimaryKey name columns
  | CUnique name columns => SqlUnique name columns
  | CCheck name e => SqlCheck name (sql_of_expr e)
  | CForeignKey fk =>
      SqlForeignKey (fk_name fk) (fk_columns fk) [foreign_table fk] (referred_columns fk) None
        (Some SqlRestrict)
  end.

Definition sql_of_operation (op : AlterOperation) : sql_alter_operation :=
  match op with
  | AddColumn column constraints if_not_exists =>
      SqlAddColumn (sql_of_column column (inline_of column constraints)) if_not_exists None
  | DropColumn name if_exists => SqlDropColumn name if_exists false
  | RenameColumn old_name new_name => SqlRenameColumn old_name new_name
  | ModifyColumn old_name column constraints =>
      SqlChangeColumn old_name (col_name column) (data_type_display (col_type column))
        (sql_of_options column (inline_of column constraints)).*2 None
  | SetDefault column (Some v) => SqlAlterColumn column (SqlSetDefault (sql_of_literal v))
  | SetDefault column None => SqlAlterColumn column SqlDropDefault
  | SetNullable column nullable =>
      SqlAlterColumn column (if nullable then SqlDropNotNull else SqlSetNotNull)
  | SetDataType column data_type =>
      SqlAlterColumn column (SqlSetDataType (data_type_display data_type) None)
  | AddConstraint constraint => SqlAddConstraint (sql_of_constraint constraint)
  | DropConstraint name if_exists => SqlDropConstraint name if_exists false
  | DropPrimaryKey => SqlDropPrimaryKey
  end.

Definition sql_of_assignment (a : string * Expr) : sql_assignment :=
  (SqlColumnName [a.1], sql_of_expr a.2).

Definition sql_of_insert_source (source : InsertSource) : sql_query :=
  match source with
  | InsertValues rows =>
      mkSqlQuery None (SqlValues (map (map sql_of_expr) rows)) None None [] None None
  | InsertQuery q => sql_of_query q
  end.

Definition sql_table (name : string) : sql_table_with_joins :=
  mkSqlTableWithJoins (SqlTable [name] None None) [].

(** Statements that the program parses itself have no tree. *)
Fixpoint sql_of_statement (s : Statement) : sql_statement :=
  match s with
  | CreateTable name columns constraints if_not_exists =>
      let '(columns, constraints) := split_columns columns constraints in
      SqlCreateTable (mkSqlCreateTable [name] (uncurry sql_of_column <$> columns)
        (sql_of_constraint <$> constraints) if_not_exists None None None)
  | DropTable name if_exists => SqlDrop SqlObjectTable if_exists [[name]]
  | CreateIndex name table_name columns unique if_not_exists =>
      SqlCreateIndex (mkSqlCreateIndex (Some [name]) [table_name] None (SqlIdentifier <$> columns)
        unique if_not_exists [] None)
  | AlterTable name operations =>
      SqlAlterTable [name] false false (sql_of_operation <$> operations) None None
  | Insert name columns source on_duplicate =>
      SqlInsertStatement (mkSqlInsert false false [name] (default [] columns)
        (Some (sql_of_insert_source source))
        (match on_duplicate with
         | [] => None
         | _ => Some (SqlDuplicateKeyUpdate (sql_of_assignment <$> on_duplicate))
         end))
  | SelectQuery q => SqlQueryStatement (sql_of_query q)
  | Update name assignments selection =>
      SqlUpdate (sql_table name) (sql_of_assignment <$> assignments) (sql_of_expr <$> selection)
  | Delete name selection => SqlDelete (SqlWithFromKeyword [sql_table name]) (sql_of_expr <$> selection)
  | ShowTables => SqlShowTables
  | DescribeTable name => SqlExplainTable [name]
  | Explain s => SqlExplain (sql_of_statement s)
  | Begin => SqlStartTransaction
  | Commit => SqlCommit
  | Rollback => SqlRollback None
  | _ => SqlOtherStatement ""
  end.

(** *** Which trees have a text *)

Definition lower (name : string) : bool := bool_decide (to_ascii_lowercase name = name).
Definition lower_opt (name : option string) : bool :=
  match name with Some name => lower name | None => true end.

Definition expressible_value (v : Value) : bool :=
  match v with
  | VInteger z => bool_decide (0 ≤ z ≤ i64_max)%Z
  | VFloat f =>
      match float_text f with
      | String c _ => bool_decide (48 ≤ ascii_code c ≤ 57)%N && bool_decide (f64_from_str (float_text f) = Some f)
      | EmptyString => false
      end
  | _ => true
  end.

Definition opt_test {A} (p : A → bool) (o : option A) : bool :=
  match o with Some x => p x | None => true end.

Fixpoint expressible (e : Expr) : bool :=
  match e with
  | EColumn qualifier name => lower_opt qualifier && lower name
  | ELiteral v => expressible_value v
  | EParameter index => bool_decide (index = u64_max)
  | EIncoming column => lower column
  | EBinary l op r =>
      expressible l && negb (bool_decide (op = OpCompare CmpLike)) && expressible r
  | EUnary _ e | EIsNull e _ => expressible e
  | ELike e p _ => expressible e && expressible p
  | EInList e items _ => expressible e && forallb expressible items
  | EInSubquery e q _ => expressible e && expressible_query q
  | EExists q _ | EScalarSubquery q => expressible_query q
  | EAggregate f e _ =>
      match e with Some e => expressible e | None => bool_decide (f = AggCount) end
  end
with expressible_item (i : SelectItem) : bool :=
  match i with
  | SWildcard qualifier => lower_opt qualifier
  | SExpr e alias => expressible e && lower_opt alias
  end
with expressible_source (s : TableSource) : bool :=
  match s with
  | SrcTable name alias => lower name && lower_opt alias
  | SrcDerived q alias => expressible_query q && lower alias
  end
with expressible_join (j : Join) : bool :=
  match j with
  | mkJoin t source on =>
      expressible_source source
      && match on with
         | Some e => expressible e && negb (bool_decide (t = JCross))
         | None => true
         end
  end
with expressible_order (o : OrderBy) : bool := match o with mkOrderBy e _ => expressible e end
with expressible_cte (c : Cte) : bool :=
  match c with
  | mkCte name columns q => lower name && forallb lower columns && expressible_query q
  end
with expressible_query (q : Query) : bool :=
  match q with
  | mkQuery ctes _ projection from joins selection group_by having order_by limit =>
      forallb expressible_cte ctes && forallb expressible_item projection
      && opt_test expressible_source from && forallb expressible_join joins
      && match from with None => match joins with [] => true | _ => false end | _ => true end
      && opt_test expressible selection && forallb expressible group_by
      && opt_test expressible having && forallb expressible_order order_by
      && opt_test (λ n, bool_decide (Z.of_nat n ≤ i64_max)%Z) limit
  end.

Definition expressible_constraint (c : TableConstraint) : bool :=
  match c with
  | CPrimaryKey name columns | CUnique name columns => lower_opt name && forallb lower columns
  | CCheck name e => lower_opt name && expressible e
  | CForeignKey fk =>
      lower_opt (fk_name fk) && forallb lower (fk_columns fk) && lower (foreign_table fk)
      && forallb lower (referred_columns fk)
  end.

Definition clean (name : string) : bool := bool_decide (clean_identifier name = name).

Definition expressible_inline (name : string) (constraint : TableConstraint) : bool :=
  expressible_constraint constraint &&
  match constraint with
  | CCheck _ _ => true
  | CForeignKey fk => bool_decide (fk_columns fk = [name])
  | _ => false
  end.
Definition checks_of (l : list TableConstraint) : list Expr :=
  omap (λ constraint, match constraint with CCheck _ e => Some e | _ => None end) l.

(** A column with its constraints: they hold its checks, and a primary key is
    unique. *)
Definition expressible_column (c : ColumnDef) (inline : list TableConstraint) : Prop :=
  lower (col_name c) = true ∧ col_type c ≠ TNull ∧ (col_primary_key c = true → col_unique c = true) ∧
  opt_test expressible_value (col_default c) = true ∧ forallb (expressible_inline (col_name c)) inline = true ∧
  col_checks c = checks_of inline.

Definition expressible_operation (op : AlterOperation) : Prop :=
  match op with
  | AddColumn column constraints _ =>
      let inline := inline_of column constraints in
      expressible_column column inline ∧ constraints = inline ++ key_constraint column
  | ModifyColumn old_name column constraints =>
      let inline := inline_of column constraints in
      lower old_name = true ∧ expressible_column column inline ∧ constraints = inline ++ key_constraint column ∧
      Forall (λ i, (sql_of_inline i).1 = None) inline
  | DropColumn name _ | DropConstraint name _ => lower name = true
  | RenameColumn old_name new_name => lower old_name && lower new_name = true
  | SetDefault column v => clean column && opt_test expressible_value v = true
  | SetNullable column _ => clean column = true
  | SetDataType column data_type => clean column && negb (bool_decide (data_type = TNull)) = true
  | AddConstraint constraint => expressible_constraint constraint = true
  | DropPrimaryKey => True
  end.

Definition expressible_assignment (a : string * Expr) : bool := lower a.1 && expressible a.2.

Definition expressible_insert_source (source : InsertSource) : bool :=
  match source with
  | InsertValues rows => forallb (forallb expressible) rows
  | InsertQuery q => expressible_query q
  end.

Fixpoint expressible_statement (s : Statement) : Prop :=
  match s with
  | CreateTable name columns constraints _ =>
      let '(columns, rest) := split_columns columns constraints in
      lower name = true ∧ Forall (uncurry expressible_column) columns ∧
      forallb expressible_constraint rest = true ∧
      constraints = concat ((λ c, c.2 ++ key_constraint c.1) <$> columns) ++ rest
  | DropTable name _ | DescribeTable name => lower name = true
  | CreateIndex name table_name columns _ _ => lower name && lower table_name && forallb lower columns = true
  | AlterTable name operations => lower name = true ∧ Forall expressible_operation operations
  | Insert name columns source on_duplicate =>
      lower name && match columns with None => true | Some [] => false | Some l => forallb lower l end
      && expressible_insert_source source && forallb expressible_assignment on_duplicate = true
  | SelectQuery q => expressible_query q = true
  | Update name assignments selection =>
      lower name && forallb expressible_assignment assignments && opt_test expressible selection = true
  | Delete name selection => lower name && opt_test expressible selection = true
  | Explain s => expressible_statement s
  | ShowTables | Begin | Commit | Rollback => True
  | _ => False
  end.
End embedding.

(** ** The conversion inverts the embedding *)

Lemma lower_eq name : lower name = true → to_ascii_lowercase name = name.
Proof. apply bool_decide_eq_true. Qed.
Lemma lower_opt_eq name : lower_opt name = true → to_ascii_lowercase <$> name = name.
Proof. destruct name as [name|]; [|done]. intros Hn. cbn. by rewrite lower_eq. Qed.
Lemma lower_list_eq names : forallb lower names = true → to_ascii_lowercase <$> names = names.
Proof.
  induction names as [|name names IH]; [done|]. cbn [forallb]. intros [Hn Hns]%andb_true_iff.
  rewrite fmap_cons. by rewrite lower_eq, IH.
Qed.

Lemma object_name_lower name : lower name = true → object_name [name] = name.
Proof. apply lower_eq. Qed.

#[export] Hint Rewrite lower_eq lower_opt_eq lower_list_eq object_name_lower using done : rdb.

(** A conversion [f] inverts an embedding [g] on what [p] accepts. *)
Definition inverts {A B} (p : A → bool) (g : A → B) (f : B → outcome A) (x : A) : Prop :=
  p x = true → f (g x) = Ok x.

Lemma inverts_list {A B} p (g : A → B) f l :
  Forall (inverts p g f) l → forallb p l = true → mapM f (g <$> l) = Ok l.
Proof.
  induction 1 as [|x l Hx _ IH]; [done|]. cbn [forallb]. intros [Hp Hl]%andb_true_iff.
  rewrite fmap_cons. cbn. rewrite Hx by done. cbn. by rewrite IH.
Qed.

Lemma inverts_list_all {A B} p (g : A → B) f l :
  list_all A (inverts p g f) l → forallb p l = true → mapM f (g <$> l) = Ok l.
Proof. intros Hl. by apply inverts_list, list_all_Forall. Qed.

Lemma inverts_opt {A B} p (g : A → B) f o :
  option_all A (inverts p g f) o → opt_test p o = true → optM f (g <$> o) = Ok o.
Proof.
  destruct o as [x|]; [|done]. intros Hx%option_all_Some Hp. cbn. by rewrite Hx.
Qed.

Section roundtrip.
Context `{RustStd} `{SqlGrammar}.

Lemma digits_plain s : str_all is_digit s → contains_char [46; 101; 69]%N s = false.
Proof.
  induction s as [|c s IH]; [done|]. intros [Hc Hs].
  change (contains_char ?l (String c s)) with
    (bool_decide (ascii_code c ∈ l) || contains_char l s).
  rewrite IH, orb_false_r by done. apply bool_decide_eq_false_2. unfold is_digit, ascii_code in *.
  rewrite !not_elem_of_cons. repeat split; [lia..|apply not_elem_of_nil].
Qed.

Lemma convert_integer z :
  (0 ≤ z ≤ i64_max)%Z → convert_value (SqlNumber (pretty z)) = Ok (VInteger z).
Proof.
  intros Hz. unfold convert_value. rewrite digits_plain.
  - rewrite parse_int_pretty; [done|]. unfold in_i64, i64_min, i64_max in *. lia.
  - destruct z as [|p|p]; [|apply (pretty_N_digits (N.pos p))|lia]. apply (pretty_N_digits 0).
Qed.

Lemma contains_char_append codes s t : contains_char codes (s +:+ t) = contains_char codes s || contains_char codes t.
Proof.
  induction s as [|c s IH]; [done|].
  change (bool_decide (ascii_code c ∈ codes) || contains_char codes (s +:+ t) =
    bool_decide (ascii_code c ∈ codes) || contains_char codes s || contains_char codes t).
  by rewrite IH, orb_assoc.
Qed.

Lemma float_text_float f : contains_char [46; 101; 69]%N (float_text f) = true.
Proof.
  unfold float_text. destruct (contains_char _ (f64_to_string f)) eqn:E; [done|].
  by rewrite contains_char_append, orb_true_r.
Qed.

Lemma convert_sql_value v : expressible_value v = true → convert_value (sql_of_value v) = Ok v.
Proof.
  destruct v as [z|f|s|b|]; try done.
  - intros Hz%bool_decide_eq_true. by apply convert_integer.
  - cbn [expressible_value sql_of_value convert_value]. destruct (float_text f) as [|c s] eqn:Hf; [done|].
    intros [_ Hr%bool_decide_eq_true]%andb_true_iff. rewrite <-Hf in *. by rewrite float_text_float, Hr.
Qed.

Lemma convert_sql_literal v :
  expressible_value v = true → convert_expr (SqlValueExpr (sql_of_value v)) = Ok (ELiteral v).
Proof.
  intros Hv. pose proof (convert_sql_value v Hv) as Hc.
  destruct v; cbn in Hc |- *; by rewrite ?Hc.
Qed.

Lemma convert_limit n :
  (Z.of_nat n ≤ i64_max)%Z →
  (e ← convert_expr (SqlValueExpr (SqlNumber (pretty n))); expect_usize e) = Ok n.
Proof.
  intros Hn. change (pretty n) with (pretty (N.of_nat n)).
  replace (pretty (N.of_nat n)) with (pretty (Z.of_nat n)) by (by destruct n).
  change (convert_expr _) with
    (v ← convert_value (SqlNumber (pretty (Z.of_nat n))); Ok (ELiteral v)).
  rewrite convert_integer by lia. cbn. rewrite decide_True by lia. by rewrite Nat2Z.id.
Qed.

Lemma convert_limit_opt limit :
  opt_test (λ n, bool_decide (Z.of_nat n ≤ i64_max)%Z) limit = true →
  optM (λ expr, e ← convert_expr expr; expect_usize e)
    ((λ n : nat, SqlValueExpr (SqlNumber (pretty n))) <$> limit) = Ok limit.
Proof.
  destruct limit as [n|]; [|done]. cbn [opt_test fmap option_fmap option_map optM].
  intros Hn%bool_decide_eq_true. by rewrite convert_limit.
Qed.

Lemma convert_sql_binary_op op :
  op ≠ OpCompare CmpLike → convert_binary_op (sql_of_binary_op op) = Ok op.
Proof. by destruct op as [| | | |[]| |]. Qed.
Lemma convert_sql_unary_op op : convert_unary_op (sql_of_unary_op op) = Ok op.
Proof. by destruct op. Qed.
Lemma aggregate_function_name f : aggregate_function (aggregate_name f) = Ok f.
Proof. by destruct f. Qed.

(** Splits a conjunction of tests. *)
Ltac split_tests :=
  repeat match goal with
  | Hb : _ && _ = true |- _ => apply andb_true_iff in Hb as [? ?]
  | Hb : negb _ = true |- _ => apply negb_true_iff in Hb
  | Hb : bool_decide _ = true |- _ => apply bool_decide_eq_true in Hb
  | Hb : bool_decide _ = false |- _ => apply bool_decide_eq_false in Hb
  end.

Notation inv_expr := (inverts expressible sql_of_expr convert_expr).
Notation inv_item := (inverts expressible_item sql_of_item convert_select_item).
Notation inv_source := (inverts expressible_source sql_of_source convert_table_source).
Notation inv_join := (inverts expressible_join sql_of_join convert_join).
Notation inv_order := (inverts expressible_order sql_of_order convert_order).
Notation inv_cte := (inverts expressible_cte sql_of_cte convert_cte).
Notation inv_query := (inverts expressible_query sql_of_query convert_query).

Lemma invert_call f e distinct :
  option_all Expr inv_expr e → inv_expr (EAggregate f e distinct).
Proof.
  intros He. unfold inverts. cbn [expressible sql_of_expr sql_call convert_expr].
  unfold convert_function; fold convert_expr. intros Hp.
  replace (object_name [aggregate_name f]) with (aggregate_name f) by (by destruct f).
  rewrite (bool_decide_false (aggregate_name f = "values")) by (by destruct f).
  cbn -[convert_expr]. rewrite aggregate_function_name. cbn -[convert_expr].
  destruct e as [e|].
  - apply option_all_Some in He. rewrite He by done. cbn. by destruct distinct.
  - apply bool_decide_eq_true in Hp. subst f. by destruct distinct.
Qed.

Ltac invert_all :=
  repeat match goal with
  | E : ?f _ = Ok _ |- context [?f] => rewrite E; cbn [mbind outcome_bind]
  | Hl : list_all _ _ ?l, Hp : forallb _ ?l = true |- _ =>
      rewrite (inverts_list_all _ _ _ l Hl Hp); clear Hl; cbn [mbind outcome_bind]
  | Ho : option_all _ _ ?o, Hp : opt_test _ ?o = true |- _ =>
      rewrite (inverts_opt _ _ _ o Ho Hp); clear Ho; cbn [mbind outcome_bind]
  end.
Ltac invert_step :=
  cbn [convert_expr convert_select_item convert_table_source convert_join convert_order convert_cte
       convert_query];
  fold_convert;
  rewrite ?convert_sql_binary_op, ?convert_sql_unary_op by done;
  invert_all; done.

Lemma convert_inverts :
  (∀ e, inv_expr e) ∧ (∀ i, inv_item i) ∧ (∀ s, inv_source s) ∧ (∀ j, inv_join j) ∧
  (∀ o, inv_order o) ∧ (∀ c, inv_cte c) ∧ (∀ q, inv_query q).
Proof.
  apply Expr_Query_ind; try (intros; by apply invert_call);
    unfold inverts; intros; cbn [expressible expressible_item expressible_source expressible_join
      expressible_order expressible_cte expressible_query] in *; split_tests;
    cbn [sql_of_expr sql_of_item sql_of_source sql_of_join sql_of_order sql_of_cte sql_of_query].
  all: repeat match goal with IH : ?p = true → _, Hp : ?p = true |- _ => specialize (IH Hp) end.
  all: try (by apply convert_sql_literal); try invert_step.
  all: try (destruct negated; invert_step).
  - destruct qualifier; cbn in *; by rewrite !lower_eq.
  - cbn. by subst.
  - cbn. by rewrite lower_eq.
  - destruct qualifier as [qualifier|]; cbn in *; by rewrite ?lower_eq.
  - destruct alias as [alias|]; [|invert_step]. cbn [lower_opt] in *.
    rewrite <-(lower_eq alias) at 2 by done. invert_step.
  - destruct alias; cbn in *; by rewrite ?lower_eq.
  - rewrite <-(lower_eq alias) at 2 by done. invert_step.
  - match goal with Ho : option_all _ _ on |- _ => rename Ho into Hon end.
    destruct on as [on|]; split_tests; destruct join_type; try congruence;
      try (apply option_all_Some in Hon; specialize (Hon ltac:(done))); invert_step.
  - destruct descending; invert_step.
  - rewrite <-(lower_eq name) at 2 by done. rewrite <-(lower_list_eq columns) at 2 by done. invert_step.
  - cbn [convert_query]. fold_convert.
    rewrite (bool_decide_false (is_Some None)), bool_decide_true by (done || by intros []).
    cbn [orb negb].
    match goal with Hl : list_all Cte _ _, Hp : forallb expressible_cte _ = true |- _ =>
      rewrite (inverts_list_all _ _ _ _ Hl Hp); cbn [mbind outcome_bind] end.
    destruct from as [source|];
      [match goal with Hs : option_all _ _ (Some source) |- _ =>
         apply option_all_Some in Hs; specialize (Hs ltac:(done)) end
      |destruct joins; [|done]]; rewrite decide_False by (cbn; lia); cbn [optM].
    all: invert_all; rewrite convert_limit_opt by done; invert_all; by destruct distinct.
Qed.

(** *** Statements *)

Lemma inverts_each {A B} p (g : A → B) f l :
  (∀ x, inverts p g f x) → forallb p l = true → mapM f (g <$> l) = Ok l.
Proof. intros Hf. by apply inverts_list, Forall_true. Qed.
Lemma inverts_opt_each {A B} p (g : A → B) f o :
  (∀ x, inverts p g f x) → opt_test p o = true → optM f (g <$> o) = Ok o.
Proof. intros Hf. destruct o as [x|]; [|done]. intros Hp. cbn. by rewrite Hf. Qed.

Lemma convert_sql_expr e : inv_expr e.
Proof. apply convert_inverts. Qed.
Lemma convert_sql_query q : inv_query q.
Proof. apply convert_inverts. Qed.

Lemma literal_sql_value v : expressible_value v = true → literal_value (sql_of_literal v) = Ok v.
Proof. intros Hv. unfold literal_value, sql_of_literal. by rewrite convert_sql_literal. Qed.

Lemma convert_display d : d ≠ TNull → convert_data_type (data_type_display d) = Ok d.
Proof. by destruct d. Qed.

Lemma convert_sql_constraint c :
  inverts expressible_constraint sql_of_constraint convert_table_constraint c.
Proof.
  intros Hc. destruct c as [name columns|name columns|name e|[name columns table referred]];
    cbn -[to_ascii_lowercase] in *; split_tests;
    rewrite ?lower_opt_eq, ?lower_list_eq by done; try done.
  - by rewrite convert_sql_expr.
  - by rewrite lower_eq.
Qed.

Lemma clean_eq name : clean name = true → clean_identifier name = name.
Proof. apply bool_decide_eq_true. Qed.

(** The options of a column, one group after the other. *)
Definition with_checks (c : ColumnDef) (checks : list Expr) : ColumnDef :=
  {| col_name := col_name c; col_type := col_type c; col_nullable := col_nullable c;
     col_primary_key := col_primary_key c; col_unique := col_unique c; col_default := col_default c;
     col_checks := col_checks c ++ checks |}.

Lemma convert_sql_inline inline : ∀ c l,
  forallb (expressible_inline (col_name c)) inline = true →
  foldM convert_column_option (c, l) (sql_of_inline <$> inline) = Ok (with_checks c (checks_of inline), l ++ inline).
Proof.
  induction inline as [|i inline IH]; intros c l.
  - intros _. cbn. rewrite app_nil_r. unfold with_checks. rewrite app_nil_r. by destruct c.
  - cbn [forallb]. intros [Hi Hl]%andb_true_iff. unfold expressible_inline in Hi.
    rewrite fmap_cons. cbn [foldM]. destruct i as [| |name e|[name columns table referred]]; split_tests; try done.
    + cbn [expressible_constraint] in *. split_tests.
      cbn [sql_of_inline convert_column_option fst snd]. rewrite convert_sql_expr by done. cbn [mbind outcome_bind].
      rewrite lower_opt_eq, IH by done. unfold with_checks. cbn. by rewrite <-!app_assoc.
    + cbn [expressible_constraint fk_name fk_columns foreign_table referred_columns] in *. split_tests.
      cbn -[to_ascii_lowercase foldM]. rewrite lower_opt_eq, lower_list_eq, lower_eq by done.
      subst columns. rewrite IH by done. by rewrite <-app_assoc.
Qed.

Lemma convert_sql_column c inline :
  expressible_column c inline → convert_column_def (sql_of_column c inline) = Ok (c, inline ++ key_constraint c).
Proof.
  intros (Hn & Hd & Hpu & Hv & Hi & Hc). unfold convert_column_def, sql_of_column.
  cbn [scol_type scol_name scol_options]. rewrite convert_display by done. cbn [mbind outcome_bind].
  rewrite lower_eq by done. set (c0 := column_new (col_name c) (col_type c)).
  unfold sql_of_options. rewrite !foldM_app.
  assert (foldM convert_column_option (c0, [])
    (if col_primary_key c then [(None, SqlOptUnique true)]
     else if col_unique c then [(None, SqlOptUnique false)] else []) =
    Ok (set_flags c0 (negb (col_primary_key c)) (col_primary_key c) (col_unique c), [])) as ->.
  { destruct (col_primary_key c); [by rewrite Hpu|]. by destruct (col_unique c). }
  cbn [mbind outcome_bind].
  assert (∀ o l', foldM convert_column_option o ((None, if col_nullable c then SqlOptNull else SqlOptNotNull) :: l') =
    foldM convert_column_option (set_flags o.1 (col_nullable c) (col_primary_key o.1) (col_unique o.1), o.2) l') as ->
    by (intros [] ?; by destruct (col_nullable c)).
  rewrite foldM_app. cbn [fst snd].
  set (c1 := set_flags _ (col_nullable c) _ _).
  assert (foldM convert_column_option (c1, [])
    match col_default c with Some v => [(None, SqlOptDefault (sql_of_literal v))] | None => [] end =
    Ok (set_default c1 (col_default c), [])) as ->.
  { destruct (col_default c) as [v|]; [|done]. cbn -[literal_value]. by rewrite literal_sql_value. }
  cbn [mbind outcome_bind]. rewrite convert_sql_inline by done. cbn [mbind outcome_bind].
  assert (with_checks (set_default c1 (col_default c)) (checks_of inline) = c) as ->.
  { subst c1 c0. unfold with_checks. cbn. rewrite <-Hc. by destruct c. }
  unfold key_constraint. by destruct (col_primary_key c), (col_unique c); rewrite ?app_nil_r.
Qed.

Lemma unnamed_options c inline :
  Forall (λ i, (sql_of_inline i).1 = None) inline →
  (λ o, (None, o)) <$> (sql_of_options c inline).*2 = sql_of_options c inline.
Proof.
  intros Hi. assert (Forall (λ o, o.1 = None) (sql_of_options c inline)) as Ho.
  { unfold sql_of_options. apply Forall_app. split; [by repeat case_match; repeat constructor|].
    constructor; [done|]. apply Forall_app. split; [by case_match; repeat constructor|]. by apply Forall_fmap. }
  induction Ho as [|[n o] l Hn _ IH]; [done|]. cbn in Hn. subst n. rewrite !fmap_cons. by rewrite IH.
Qed.

Lemma convert_sql_operation op :
  expressible_operation op → convert_alter_operation (sql_of_operation op) = Ok op.
Proof.
  intros Hop. destruct op as [column constraints b|name b|old new|old column constraints
    |column [v|]|column nullable|column d|constraint|name b|]; cbn [expressible_operation] in Hop; split_tests;
    cbn [sql_of_operation convert_alter_operation convert_alter_column]; unfold convert_modified_column.
  all: rewrite ?lower_eq, ?clean_eq by done; try done.
  - destruct Hop as [Hc Heq]. rewrite bool_decide_false by (by intros []).
    rewrite convert_sql_column by done. cbn [mbind outcome_bind fst snd]. by rewrite <-Heq.
  - destruct Hop as (Hl & Hc & Heq & Hn). rewrite bool_decide_false by (by intros []).
    rewrite lower_eq, unnamed_options by done. fold (sql_of_column column (inline_of column constraints)).
    rewrite convert_sql_column by done. cbn [mbind outcome_bind fst snd]. by rewrite <-Heq.
  - by rewrite literal_sql_value.
  - destruct nullable; cbn; by rewrite clean_eq.
  - by rewrite convert_display.
  - by rewrite convert_sql_constraint.
Qed.

Lemma convert_sql_columns columns :
  Forall (uncurry expressible_column) columns →
  mapM convert_column_def (uncurry sql_of_column <$> columns) =
    Ok ((λ c, (c.1, c.2 ++ key_constraint c.1)) <$> columns).
Proof.
  induction 1 as [|[c inline] columns Hc _ IH]; [done|]. rewrite !fmap_cons. cbn [mapM uncurry].
  rewrite convert_sql_column by done. cbn [mbind outcome_bind]. by rewrite IH.
Qed.

Lemma split_columns_fst columns l : (split_columns columns l).1.*1 = columns.
Proof.
  revert l. induction columns as [|c columns IH]; intros l; [done|]. cbn [split_columns].
  specialize (IH (drop (length (inline_of c l ++ key_constraint c)) l)).
  destruct (split_columns columns _) as [cs rest]. cbn in *. by rewrite IH.
Qed.

Lemma convert_sql_assignment a :
  inverts expressible_assignment sql_of_assignment convert_assignment a.
Proof.
  destruct a as [name e]. unfold inverts, expressible_assignment. cbn [fst snd]. intros Ha. split_tests.
  cbn [sql_of_assignment convert_assignment fst snd]. rewrite convert_sql_expr by done.
  cbn. by rewrite lower_eq.
Qed.

Lemma convert_sql_insert_source source :
  inverts expressible_insert_source sql_of_insert_source convert_insert_source source.
Proof.
  intros Hs. destruct source as [rows|q]; cbn [expressible_insert_source sql_of_insert_source] in *.
  - cbn [convert_insert_source]. change (map (map sql_of_expr) rows) with (fmap (M:=list) (fmap (M:=list) sql_of_expr) rows).
    rewrite (inverts_each (forallb expressible)); [done| |done].
    intros row Hrow. by apply (inverts_each expressible), Hrow; intros ?; apply convert_sql_expr.
  - destruct q as [ctes distinct projection from joins selection group_by having order_by limit].
    pose proof (convert_sql_query _ Hs) as Hq. cbn [sql_of_query] in *.
    unfold convert_insert_source. by rewrite Hq.
Qed.

Lemma convert_sql_on_duplicate on_duplicate :
  forallb expressible_assignment on_duplicate = true →
  convert_on_insert (match on_duplicate with
                     | [] => None
                     | _ => Some (SqlDuplicateKeyUpdate (sql_of_assignment <$> on_duplicate))
                     end) = Ok on_duplicate.
Proof.
  destruct on_duplicate as [|a l]; [done|]. intros Hl. cbn [convert_on_insert].
  by apply (inverts_each expressible_assignment), Hl; intros ?; apply convert_sql_assignment.
Qed.

Lemma index_columns_lower columns :
  forallb lower columns = true → mapM index_column (SqlIdentifier <$> columns) = Ok columns.
Proof. apply (inverts_each lower). intros name Hn. cbn. by rewrite lower_eq. Qed.

Lemma convert_sql_table name columns constraints b :
  expressible_statement (CreateTable name columns constraints b) →
  convert_statement (sql_of_statement (CreateTable name columns constraints b)) =
    Ok (CreateTable name columns constraints b).
Proof.
  intros Hs. cbn [expressible_statement sql_of_statement] in *. pose proof (split_columns_fst columns constraints) as Hfst.
  destruct (split_columns columns constraints) as [cs rest]. destruct Hs as (Hn & Hcs & Hrest & Heq).
  cbn [fst] in Hfst. cbn [convert_statement]. unfold convert_create_table.
  cbn [ct_name ct_columns ct_constraints ct_if_not_exists ct_query ct_like ct_clone].
  rewrite !bool_decide_false by (by intros []). cbn [orb].
  rewrite convert_sql_columns by done. cbn [mbind outcome_bind].
  rewrite (inverts_each _ _ _ rest convert_sql_constraint) by done. cbn [mbind outcome_bind].
  rewrite object_name_lower by done. rewrite <-!list_fmap_compose.
  change (fst ∘ (λ c : ColumnDef * list TableConstraint, (c.1, c.2 ++ key_constraint c.1))) with
    (fst (A:=ColumnDef) (B:=list TableConstraint)).
  change (snd ∘ (λ c : ColumnDef * list TableConstraint, (c.1, c.2 ++ key_constraint c.1))) with
    (λ c : ColumnDef * list TableConstraint, c.2 ++ key_constraint c.1).
  by rewrite Hfst, <-Heq.
Qed.

(** C26. The conversion loses nothing that SQL can say: a statement is what the
    conversion makes of the syntax tree of its text, for every statement that the
    parser crate reads and whose names are in lower case, whose placeholders are
    not yet numbered, whose literals are not negative (a sign is a unary operator)
    and, where they are floats, read back from their text, and whose columns have
    the PRIMARY KEY, UNIQUE and CHECK options that the constraints listed for
    them say. *)
Theorem conversion_roundtrip s :
  expressible_statement s → convert_statement (sql_of_statement s) = Ok s.
Proof.
  induction s as [name columns constraints b|name b|name table columns u b|name b|name operations
    |name columns source on_duplicate|q|name assignments selection|name selection| |name|name|s IH
    | | | | | | |]; cbn [expressible_statement]; intros Hs; try done; split_tests;
    cbn [sql_of_statement convert_statement].
  - by apply (convert_sql_table name columns constraints b).
  - by rewrite object_name_lower.
  - unfold convert_create_index. cbn [ci_name ci_table_name ci_using ci_columns ci_unique ci_if_not_exists ci_include ci_predicate].
    rewrite !(bool_decide_false (is_Some None)), bool_decide_true by (done || by intros []).
    cbn [orb negb fmap option_fmap option_map ok_or mbind outcome_bind].
    rewrite index_columns_lower by done. cbn [mbind outcome_bind]. by rewrite !object_name_lower.
  - destruct Hs as [Hn Ho]. rewrite !bool_decide_false by (by intros []). cbn [orb].
    assert (mapM convert_alter_operation (sql_of_operation <$> operations) = Ok operations) as ->.
    { clear -Ho. induction Ho as [|op l Hop _ IH]; [done|]. rewrite fmap_cons. cbn.
      rewrite convert_sql_operation by done. cbn. by rewrite IH. }
    cbn [mbind outcome_bind]. by rewrite object_name_lower.
  - unfold convert_insert. cbn [si_ignore si_replace_into si_table_name si_columns si_source si_on orb ok_or mbind outcome_bind].
    rewrite convert_sql_insert_source by done. cbn [mbind outcome_bind].
    rewrite convert_sql_on_duplicate by done. cbn [mbind outcome_bind]. rewrite object_name_lower by done.
    destruct columns as [[|c columns]|]; [done| |done]. cbn [default from_option]. unfold id. by rewrite lower_list_eq.
  - by rewrite convert_sql_query.
  - unfold convert_update, sql_table. cbn [table_factor_name]. rewrite object_name_lower by done. cbn [mbind outcome_bind].
    rewrite (inverts_each _ _ _ assignments convert_sql_assignment) by done. cbn [mbind outcome_bind].
    by rewrite (inverts_opt_each _ _ _ selection convert_sql_expr).
  - unfold convert_delete, sql_table. cbn [from_tables_of table_factor_name]. rewrite object_name_lower by done. cbn [mbind outcome_bind].
    by rewrite (inverts_opt_each _ _ _ selection convert_sql_expr).
  - by rewrite object_name_lower.
  - by rewrite IH.
Qed.
End roundtrip.

Section express_example.
#[local] Existing Instance concrete_std.

(** A grammar that reads nothing: conversion only takes the texts of its error
    messages from the grammar. *)
Definition silent_grammar : SqlGrammar :=
  {| sql_parse := λ _, Err "syntax error"; sql_expr_display := λ _, "expression";
     sql_value_display := λ _, "value"; sql_statement_display := λ _, "statement" |}.
#[local] Existing Instance silent_grammar.

(** [INSERT INTO t SELECT a, COUNT( * ) FROM s LEFT JOIN r ON s.a = r.a WHERE
    a IN (1, ?) GROUP BY a ORDER BY a DESC LIMIT 3
    ON DUPLICATE KEY UPDATE n = VALUES(n)]. *)
Definition grouped_insert : Statement :=
  Insert "t" None
    (InsertQuery (mkQuery [] false
       [SExpr (EColumn None "a") None; SExpr (EAggregate AggCount None false) (Some "n")]
       (Some (SrcTable "s" None))
       [mkJoin JLeft (SrcTable "r" None)
          (Some (EBinary (EColumn (Some "s") "a") (OpCompare CmpEqual) (EColumn (Some "r") "a")))]
       (Some (EInList (EColumn None "a") [ELiteral (VInteger 1); EParameter u64_max] false))
       [EColumn None "a"] None [mkOrderBy (EColumn None "a") true] (Some 3)))
    [("n", EIncoming "n")].

(** A standard library that reads one float. *)
Definition two : f64 := f64_of_Z 2.
Definition reads_two : RustStd := {|
  overflow_checks := @overflow_checks concrete_std; hm_iter := @hm_iter concrete_std;
  hm_iter_perm := @hm_iter_perm concrete_std; f64_to_string := λ _, "2";
  f64_from_str := λ s, if bool_decide (s = "2.0") then Some two else None;
  lowercase_chars := @lowercase_chars concrete_std; debug_str := @debug_str concrete_std;
  f64_ln := @f64_ln concrete_std; select_nth_unstable_by := @select_nth_unstable_by concrete_std;
  select_nth_perm := @select_nth_perm concrete_std; select_nth_partition := @select_nth_partition concrete_std |}.

(** [CREATE TABLE c (id INT PRIMARY KEY, x FLOAT DEFAULT 2.0 CONSTRAINT pos CHECK (x > 0),
    p INT UNIQUE REFERENCES parent (id), CHECK (id > 0))]. *)
Definition positive (column : string) : Expr :=
  EBinary (EColumn None column) (OpCompare CmpGreaterThan) (ELiteral (VInteger 0)).
Definition with_inline_constraints : Statement :=
  CreateTable "c"
    [column_primary_key (column_new "id" TInteger);
     add_check (set_default (column_new "x" TFloat) (Some (VFloat two))) (positive "x");
     column_set_unique (column_new "p" TInteger)]
    [CPrimaryKey None ["id"]; CCheck (Some "pos") (positive "x");
     CForeignKey {| fk_name := None; fk_columns := ["p"]; foreign_table := "parent"; referred_columns := ["id"] |};
     CUnique None ["p"]; CCheck None (positive "id")] false.

Lemma conversion_roundtrip_witness :
  convert_statement (sql_of_statement grouped_insert) = Ok grouped_insert ∧
  @convert_statement reads_two _ (@sql_of_statement reads_two with_inline_constraints) = Ok with_inline_constraints.
Proof.
  split; [apply conversion_roundtrip; vm_compute; reflexivity|].
  apply (@conversion_roundtrip reads_two). unfold expressible_statement, with_inline_constraints.
  cbn [split_columns]. split; [reflexivity|]. split; [|split; [vm_compute|]; reflexivity].
  repeat constructor; try (vm_compute; reflexivity); discriminate.
Defined.
End express_example.
