(* ===== verification/Parser.v ===== *)
(** * Parser.v: parsing statements (src/sql/parser.rs, 139-277, 440-477)

    [parse_sql] and the statements RustyDB recognises by itself, before the
    sqlparser crate: user variables, prepared statements, index commands.  The
    crate is the parameter [SqlGrammar] of SqlAst; Convert converts its tree. *)

From Stdlib Require Import Ascii.
From S2P Require Import Prelude Machine Float64 Like Types Concrete Statement Params Str SqlAst Convert.

Section parser.
Context `{RustStd}.

Definition clean_variable (value : string) : string :=
  to_ascii_lowercase (trim (trim_end_matches (char_is ":") (trim_start_matches (char_is "@") (trim value)))).

Definition starts_with_quote (s : string) : bool := starts_with_str "'" s.

(** The slice [value[1..value.len() - 1]] panics on a lone quote, which the test
    of the length excludes. *)
Definition parse_quoted_string (value : string) : outcome string :=
  let value := trim value in
  if decide (String.length value < 2) then Err "Expected a single-quoted SQL string"
  else if negb (starts_with_quote value) || negb (bool_decide (last_char value = Some quote)) then
    Err "Expected a single-quoted SQL string"
  else inner ← slice value 1 (String.length value - 1); Ok (unescape_quotes inner).

Definition not_a_literal : string := "SET user variables require a literal value".

Definition parse_user_literal (value : string) : outcome Value :=
  if eq_ignore_ascii_case value "NULL" then Ok VNull
  else if eq_ignore_ascii_case value "TRUE" then Ok (VBoolean true)
  else if eq_ignore_ascii_case value "FALSE" then Ok (VBoolean false)
  else if starts_with_quote value then s ← parse_quoted_string value; Ok (VText s)
  else if contains_char [46; 101; 69]%N value then
    f ← ok_or (f64_from_str value) not_a_literal; Ok (VFloat f)
  else z ← ok_or (parse_int i64_min i64_max value) not_a_literal; Ok (VInteger z).

(** [s.len() >= n && s[..n].eq_ignore_ascii_case(prefix)]; the slice panics
    inside a character. *)
Definition has_prefix (prefix s : string) : outcome bool :=
  if decide (String.length prefix ≤ String.length s) then
    t ← slice_to s (String.length prefix); Ok (eq_ignore_ascii_case t prefix)
  else Ok false.

Definition word_is (words : list string) (i : nat) (w : string) : bool :=
  is_some_and (λ x, eq_ignore_ascii_case x w) (words !! i).

(** [ALTER TABLE t DROP FOREIGN KEY k], [DROP CHECK k], [DROP INDEX k]. *)
Definition is_drop_constraint (words : list string) : bool :=
  bool_decide (6 ≤ length words) && word_is words 0 "ALTER" && word_is words 1 "TABLE"
  && word_is words 3 "DROP"
  && ((bool_decide (length words = 7) && word_is words 4 "FOREIGN" && word_is words 5 "KEY")
      || (bool_decide (length words = 6) && (word_is words 4 "CHECK" || word_is words 4 "INDEX"))).

Definition parse_drop_constraint (words : list string) : option Statement :=
  if is_drop_constraint words then
    table ← words !! 2; name ← last words;
    Some (AlterTable (clean_identifier table) [DropConstraint (clean_identifier name) false])
  else None.

(** [SET @name = literal]. *)
Definition parse_set (sql : string) : outcome (option Statement) :=
  b ← has_prefix "SET " sql;
  if b : bool then
    rest ← slice_from sql 4;
    match split_once "=" (trim rest) with
    | Some (name, value) =>
        if starts_with_str "@" (trim name) then
          v ← parse_user_literal (trim value); Ok (Some (SetVariable (clean_variable name) v))
        else Ok None
    | None => Ok None
    end
  else Ok None.

(** [PREPARE name FROM 'sql'] or [FROM @variable]. *)
Definition parse_prepare (sql : string) : outcome (option Statement) :=
  b ← has_prefix "PREPARE " sql;
  if b : bool then
    rest ← slice_from sql 8;
    let rest := trim rest in
    offset ← ok_or (find_str " FROM " (to_ascii_uppercase rest)) "PREPARE requires FROM";
    name ← slice_to rest offset;
    source ← slice_from rest (offset + 6);
    let source := trim source in
    source ← (if starts_with_str "@" source then Ok (PrepareVariable (clean_variable source))
              else s ← parse_quoted_string source; Ok (PrepareSql s));
    Ok (Some (Prepare (clean_identifier (trim name)) source))
  else Ok None.

(** [EXECUTE name] or [EXECUTE name USING @a, @b]. *)
Definition parse_execute (sql : string) : outcome (option Statement) :=
  b ← has_prefix "EXECUTE " sql;
  if b : bool then
    rest ← slice_from sql 8;
    let rest := trim rest in
    match find_str " USING " (to_ascii_uppercase rest) with
    | Some offset =>
        name ← slice_to rest offset;
        using_ ← slice_from rest (offset + 7);
        Ok (Some (ExecutePrepared (clean_identifier name) (clean_variable <$> split_char "," using_)))
    | None => Ok (Some (ExecutePrepared (clean_identifier rest) []))
    end
  else Ok None.

Fixpoint parse_deallocate (prefixes : list string) (sql : string) : outcome (option Statement) :=
  match prefixes with
  | [] => Ok None
  | prefix :: prefixes =>
      b ← has_prefix prefix sql;
      if b : bool then
        name ← slice_from sql (String.length prefix);
        Ok (Some (DeallocatePrepared (clean_identifier name)))
      else parse_deallocate prefixes sql
  end.

Definition is_show_indexes (words : list string) : bool :=
  bool_decide (3 ≤ length words) && word_is words 0 "SHOW"
  && (word_is words 1 "INDEX" || word_is words 1 "INDEXES" || word_is words 1 "KEYS")
  && (word_is words 2 "FROM" || word_is words 2 "ON").

(** [DROP INDEX [IF EXISTS] name ON table]. *)
Definition parse_drop_index (words : list string) : outcome (option Statement) :=
  if bool_decide (5 ≤ length words) && word_is words 0 "DROP" && word_is words 1 "INDEX" then
    let if_exists := word_is words 2 "IF" && word_is words 3 "EXISTS" in
    let offset := if if_exists then 4 else 2 in
    name ← ok_or (words !! offset) "DROP INDEX requires an index name";
    if word_is words (offset + 1) "ON" then
      table ← ok_or (words !! (offset + 2)) "DROP INDEX requires ON <table>";
      Ok (Some (DropIndex (clean_identifier name) (clean_identifier table) if_exists))
    else Ok None
  else Ok None.

(** The alternatives, in order; [None] when the statement is standard SQL. *)
Definition parse_rustydb_extension (sql : string) : outcome (option Statement) :=
  let words := split_whitespace sql in
  match parse_drop_constraint words with
  | Some s => Ok (Some s)
  | None =>
      set ← parse_set sql;
      if set is Some s then Ok (Some s) else
      prepare ← parse_prepare sql;
      if prepare is Some s then Ok (Some s) else
      execute ← parse_execute sql;
      if execute is Some s then Ok (Some s) else
      deallocate ← parse_deallocate ["DEALLOCATE PREPARE "; "DROP PREPARE "] sql;
      if deallocate is Some s then Ok (Some s) else
      if is_show_indexes words then
        table ← ok_or (words !! 3) "SHOW INDEXES requires a table name";
        Ok (Some (ShowIndexes (clean_identifier table)))
      else parse_drop_index words
  end.

(** Trimming a statement: white space, semicolons, white space. *)
Definition normalize (sql : string) : string := trim (trim_end_matches (char_is ";") (trim sql)).

Definition parse_sql `{SqlGrammar} (input : string) : outcome Statement :=
  let trimmed := normalize input in
  if bool_decide (trimmed = EmptyString) then Err "Empty statement"
  else
    extension ← parse_rustydb_extension trimmed;
    match extension with
    | Some s => Ok s
    | None => s ← standard_statement trimmed; assign_parameters s
    end.
End parser.

(** ** ASCII statements never panic *)

Section no_panic.
Context `{RustStd}.

Lemma bind_no_panic {A B} (m : outcome A) (f : A → outcome B) :
  m ≠ Panic → (∀ a, m = Ok a → f a ≠ Panic) → (m ≫= f) ≠ Panic.
Proof. intros Hm Hf. destruct m; cbn; [by apply Hf|done|done]. Qed.

Lemma ok_or_no_panic {A} (o : option A) e : ok_or o e ≠ Panic.
Proof. by destruct o. Qed.

Lemma parse_quoted_string_no_panic s : is_ascii s = true → parse_quoted_string s ≠ Panic.
Proof.
  intros Ha%trim_ascii. unfold parse_quoted_string. case_decide; [done|]. case_match; [done|].
  by rewrite slice_ascii by (done || lia).
Qed.

Lemma parse_user_literal_no_panic s : is_ascii s = true → parse_user_literal s ≠ Panic.
Proof.
  intros Ha. unfold parse_user_literal. repeat case_match; try done; apply bind_no_panic; try done;
    first [by apply parse_quoted_string_no_panic|apply ok_or_no_panic].
Qed.

Lemma has_prefix_ascii p s :
  is_ascii s = true → ∃ b, has_prefix p s = Ok b ∧ (b = true → String.length p ≤ String.length s).
Proof.
  intros Ha. unfold has_prefix. case_decide; [|by exists false].
  rewrite slice_to_ascii by done. by eexists.
Qed.

(** A command recognised by its prefix panics only if the rest of it does. *)
Lemma prefix_no_panic {A} p s (f : bool → outcome A) :
  is_ascii s = true → f false ≠ Panic →
  (String.length p ≤ String.length s → f true ≠ Panic) → (b ← has_prefix p s; f b) ≠ Panic.
Proof.
  intros Ha Hf Ht. destruct (has_prefix_ascii p s Ha) as ([|] & -> & Hl); cbn; [by apply Ht, Hl|done].
Qed.

Lemma slice_from_then {A} s i (f : string → outcome A) :
  is_ascii s = true → i ≤ String.length s →
  (∀ r, is_ascii r = true → f r ≠ Panic) → (r ← slice_from s i; f r) ≠ Panic.
Proof.
  intros Ha Hi Hf. rewrite slice_from_ascii by done. cbn. by apply Hf, substring_ascii.
Qed.

Lemma parse_set_no_panic s : is_ascii s = true → parse_set s ≠ Panic.
Proof.
  intros Ha. unfold parse_set. apply prefix_no_panic; [done..|]. intros Hl.
  apply slice_from_then; [done..|]. intros r Hr%trim_ascii.
  destruct (split_once "=" (trim r)) as [[name value]|] eqn:Hs; [|done].
  apply split_once_ascii in Hs as [_ Hv%trim_ascii]; [|done]. case_match; [|done].
  apply bind_no_panic; [by apply parse_user_literal_no_panic|done].
Qed.

Lemma parse_prepare_no_panic s : is_ascii s = true → parse_prepare s ≠ Panic.
Proof.
  intros Ha. unfold parse_prepare. apply prefix_no_panic; [done..|]. intros Hl.
  apply slice_from_then; [done..|]. intros r Hr%trim_ascii.
  apply bind_no_panic; [apply ok_or_no_panic|]. intros i Hi%ok_or_Ok.
  apply find_str_bound in Hi; [|done]. rewrite to_ascii_uppercase_length in Hi. cbn in Hi.
  rewrite slice_to_ascii by (done || lia). cbn [mbind outcome_bind].
  apply slice_from_then; [done|lia|]. intros q Hq.
  apply bind_no_panic; [|done]. case_match; [done|].
  apply bind_no_panic; [by apply parse_quoted_string_no_panic, trim_ascii|done].
Qed.

Lemma parse_execute_no_panic s : is_ascii s = true → parse_execute s ≠ Panic.
Proof.
  intros Ha. unfold parse_execute. apply prefix_no_panic; [done..|]. intros Hl.
  apply slice_from_then; [done..|]. intros r Hr%trim_ascii.
  destruct (find_str _ _) as [i|] eqn:Hi; [|done].
  apply find_str_bound in Hi; [|done]. rewrite to_ascii_uppercase_length in Hi. cbn in Hi.
  rewrite slice_to_ascii by (done || lia). cbn [mbind outcome_bind].
  by apply slice_from_then; [done|lia|].
Qed.

Lemma parse_deallocate_no_panic ps s : is_ascii s = true → parse_deallocate ps s ≠ Panic.
Proof.
  intros Ha. induction ps as [|p ps IH]; [done|]. cbn [parse_deallocate].
  apply prefix_no_panic; [done..|]. intros Hl. by apply slice_from_then.
Qed.

Lemma parse_drop_index_no_panic words : parse_drop_index words ≠ Panic.
Proof.
  unfold parse_drop_index. case_match; [|done].
  apply bind_no_panic; [apply ok_or_no_panic|]. intros name _. case_match; [|done].
  by apply bind_no_panic; [apply ok_or_no_panic|].
Qed.

Lemma extension_ascii_no_panic sql : is_ascii sql = true → parse_rustydb_extension sql ≠ Panic.
Proof.
  intros Ha. unfold parse_rustydb_extension. case_match; [done|].
  apply bind_no_panic; [by apply parse_set_no_panic|]. intros [s|] _; [done|].
  apply bind_no_panic; [by apply parse_prepare_no_panic|]. intros [s|] _; [done|].
  apply bind_no_panic; [by apply parse_execute_no_panic|]. intros [s|] _; [done|].
  apply bind_no_panic; [by apply parse_deallocate_no_panic|]. intros [s|] _; [done|].
  case_match; [|apply parse_drop_index_no_panic].
  by apply bind_no_panic; [apply ok_or_no_panic|].
Qed.

(** On ASCII text the statement extensions never panic: every slice they
    take is within the text and on a character boundary. *)
Theorem extension_never_panics_on_ascii sql :
  is_ascii sql = true → parse_rustydb_extension sql ≠ Panic.
Proof. apply extension_ascii_no_panic. Qed.
End no_panic.

(** ** Quoted strings *)

(** Writing a string literal: quotes are doubled. *)
Fixpoint escape_quotes (s : string) : string :=
  match s with
  | EmptyString => EmptyString
  | String c s =>
      if bool_decide (c = quote) then String c (String c (escape_quotes s))
      else String c (escape_quotes s)
  end.
Definition quote_string (s : string) : string :=
  String quote (escape_quotes s +:+ String quote EmptyString).

Lemma unescape_escape s : unescape_quotes (escape_quotes s) = s.
Proof.
  induction s as [|c s IH]; [done|]. cbn [escape_quotes]. case_bool_decide as Hc.
  - subst c. cbn [unescape_quotes]. by rewrite bool_decide_true, IH.
  - cbn [unescape_quotes]. destruct (escape_quotes s) as [|b rest] eqn:E.
    + by rewrite <-IH.
    + rewrite bool_decide_false by naive_solver. by rewrite IH.
Qed.

(** The same on characters. *)
Definition escape_chars (l : list string) : list string :=
  l ≫= λ ch, if bool_decide (ch = "'") then ["'"; "'"] else [ch].

Lemma escape_app a b : escape_quotes (a +:+ b) = escape_quotes a +:+ escape_quotes b.
Proof.
  induction a as [|c a IH]; [done|]. change (String c a +:+ b) with (String c (a +:+ b)).
  cbn [escape_quotes]. rewrite IH. by case_bool_decide.
Qed.

Lemma escape_other s : Forall (λ c, c ≠ quote) (String.list_ascii_of_string s) → escape_quotes s = s.
Proof.
  induction s as [|c s IH]; [done|]. cbn. intros [Hc Hs]%Forall_cons.
  rewrite bool_decide_false by done. by rewrite IH.
Qed.

Lemma wf_char_quote ch : wf_char ch = true → ch ≠ "'" → escape_quotes ch = ch.
Proof.
  destruct ch as [|c rest]; [done|]. cbn [wf_char]. intros [Hl%bool_decide_eq_true Hr]%andb_true_iff Hne.
  apply escape_other. cbn. rewrite forallb_forall in Hr.
  assert (Forall (λ c, c ≠ quote) (String.list_ascii_of_string rest)) as Hrest.
  { apply Forall_forall. intros x Hx%list_elem_of_In Heq. subst x. by specialize (Hr _ Hx). }
  constructor; [|done]. intros ->. apply Hne. change (char_len quote) with 1 in Hl.
  by destruct rest.
Qed.

Lemma escape_of_chars l : wf_chars l → escape_quotes (of_chars l) = of_chars (escape_chars l).
Proof.
  induction 1 as [|ch l Hch _ IH]; [done|].
  change (of_chars (ch :: l)) with (ch +:+ of_chars l). rewrite escape_app, IH.
  unfold escape_chars at 2. cbn. fold (escape_chars l). case_bool_decide as Hq.
  - by subst ch.
  - by rewrite wf_char_quote.
Qed.

Lemma escape_chars_wf l : wf_chars l → wf_chars (escape_chars l).
Proof.
  induction 1 as [|ch l Hch _ IH]; [constructor|]. unfold escape_chars. cbn. fold (escape_chars l).
  case_bool_decide; repeat (constructor; [done|]); exact IH.
Qed.

Lemma of_chars_app l k : of_chars (l ++ k) = of_chars l +:+ of_chars k.
Proof.
  induction l as [|ch l IH]; [done|]. change (of_chars ((ch :: l) ++ k)) with (ch +:+ of_chars (l ++ k)).
  rewrite IH. change (of_chars (ch :: l)) with (ch +:+ of_chars l).
  induction ch as [|c ch IHc]; [done|]. by apply (f_equal (String c)).
Qed.

(** Text between two characters that are not white space is not trimmed. *)
Lemma trim_delimited a l b :
  wf_chars (a :: l ++ [b]) → is_whitespace a = false → is_whitespace b = false →
  trim (of_chars (a :: l ++ [b])) = of_chars (a :: l ++ [b]).
Proof.
  intros Hwf Ha Hb. unfold trim, trim_matches, trim_end_matches, trim_start_matches.
  rewrite (chars_of_chars _ Hwf). cbn [drop_while]. rewrite Ha, (chars_of_chars _ Hwf).
  change (a :: l ++ [b]) with ((a :: l) ++ [b]). rewrite reverse_app. cbn [reverse app].
  change (reverse [b] ++ reverse (a :: l)) with (b :: reverse (a :: l)).
  cbn [drop_while]. rewrite Hb. change (b :: reverse (a :: l)) with (reverse [b] ++ reverse (a :: l)).
  by rewrite <-reverse_app, reverse_involutive.
Qed.

Lemma last_char_snoc a c : last_char (a +:+ String c EmptyString) = Some c.
Proof.
  induction a as [|d a IH]; [done|]. change (String d a +:+ String c "") with (String d (a +:+ String c "")).
  cbn [last_char]. rewrite IH. by destruct a.
Qed.

(** Escaped text begins with a character. *)
Lemma utf8_char_lead c rest :
  utf8_char (String c rest) = true → bool_decide (128 ≤ ascii_code c < 192)%N = false.
Proof.
  unfold utf8_char, char_codes. cbn. intros Hu. apply bool_decide_false. intros Hc.
  repeat case_match; try done; repeat (rewrite ?andb_true_iff, ?orb_true_iff, ?bool_decide_eq_true in Hu); lia.
Qed.

Lemma lead_escape l : Forall (λ ch, utf8_char ch = true) l →
  escape_quotes (of_chars l) = EmptyString ∨
  ∃ c rest, escape_quotes (of_chars l) = String c rest ∧ bool_decide (128 ≤ ascii_code c < 192)%N = false.
Proof.
  intros [|ch l' Hch _]; [by left|right]. destruct ch as [|c rest]; [done|]. exists c.
  change (of_chars (String c rest :: l')) with (String c (rest +:+ of_chars l')). cbn [escape_quotes].
  apply utf8_char_lead in Hch. destruct (bool_decide (c = quote)); (eexists; split; [reflexivity|done]).
Qed.

(** Quoting and parsing a string literal is a round trip: a UTF-8 string
    written between quotes with its quotes doubled is read back. *)
Theorem quoted_string_roundtrip l :
  wf_chars l → Forall (λ ch, utf8_char ch = true) l → parse_quoted_string (quote_string (of_chars l)) = Ok (of_chars l).
Proof.
  intros Hl Hu. unfold parse_quoted_string, quote_string.
  assert (String quote (escape_quotes (of_chars l) +:+ String quote "") =
          of_chars ("'" :: escape_chars l ++ ["'"])) as Heq.
  { change (of_chars ("'" :: escape_chars l ++ ["'"])) with
      (String quote (of_chars (escape_chars l ++ ["'"]))).
    by rewrite of_chars_app, escape_of_chars. }
  rewrite Heq, trim_delimited, <-Heq by
    (done || (constructor; [done|]; apply Forall_app; split; [by apply escape_chars_wf|by repeat constructor])).
  cbn [String.length]. rewrite append_length. cbn [String.length].
  rewrite decide_False by lia. unfold starts_with_quote, starts_with_str.
  set (m := escape_quotes (of_chars l)).
  replace (last_char (String quote (m +:+ String quote ""))) with (Some quote)
    by (symmetry; apply (last_char_snoc (String quote m))).
  replace (String.prefix "'" (String quote (m +:+ String quote ""))) with true
    by (transitivity (String.prefix "" (m +:+ String quote "")); [|reflexivity];
        by destruct (m +:+ String quote "")).
  rewrite bool_decide_true by done.
  cbn [negb orb]. unfold slice. rewrite (bool_decide_true (1 ≤ _)) by lia.
  replace (S (String.length m + 1) - 1) with (S (String.length m)) by lia.
  pose proof (lead_boundary (String quote m) quote EmptyString eq_refl) as Hend.
  change (String quote m +:+ String quote "") with (String quote (m +:+ String quote "")) in Hend.
  cbn [String.length] in Hend. rewrite Hend.
  assert (is_char_boundary (String quote (m +:+ String quote "")) 1 = true) as ->.
  { destruct (lead_escape l Hu) as [Hm|(c & rest & Hm & Hc)]; subst m; rewrite Hm; [done|].
    by apply (lead_boundary (String quote EmptyString) c). }
  cbn [andb mbind outcome_bind String.substring].
  replace (S (String.length m) - 1) with (String.length m) by lia.
  by rewrite substring_app_l; subst m; rewrite unescape_escape.
Qed.

Section parser_examples.
#[local] Existing Instance concrete_std.

Definition euro : string :=
  String (ascii_of_N 226) (String (ascii_of_N 130) (String (ascii_of_N 172) EmptyString)).

Lemma quoted_string_roundtrip_witness :
  parse_quoted_string (quote_string (of_chars ["i"; "t"; "'"; "s"; euro])) =
  Ok (of_chars ["i"; "t"; "'"; "s"; euro]).
Proof. apply quoted_string_roundtrip; repeat constructor. Defined.

Lemma extension_never_panics_on_ascii_witness :
  parse_rustydb_extension "PREPARE p FROM 'SELECT 1'" ≠ Panic.
Proof. apply extension_never_panics_on_ascii. vm_compute. reflexivity. Defined.

(** Outside ASCII the extensions do panic: the prefix tests slice the text
    at a fixed byte, which may lie inside a character, as in a statement whose
    fourth byte belongs to a euro sign. *)
Theorem extension_panics_inside_character `{SqlGrammar} :
  parse_rustydb_extension (of_chars ["a"; "b"; euro]) = Panic ∧
  parse_sql (of_chars ["a"; "b"; euro]) = Panic.
Proof. split; vm_compute; reflexivity. Qed.
End parser_examples.
