(* ===== verification/NotSql.v ===== *)
(** * NotSql.v: what an unfinished log record is not

    The log of an SQL database is read by falling back from records to plain
    SQL statements.  Text that begins as a record does, with a brace and the
    name of a field, is refused by the parser: by the statements the program
    recognises itself, and by the sqlparser crate, which is assumed to refuse
    every text that begins with a brace. *)

From Stdlib Require Import Ascii.
From S2P Require Import Prelude Machine Float64 Like Types Concrete Statement Params Str Log SqlAst Convert Parser.

(** ** Text that begins like a log record *)

(** sqlparser refuses a statement that begins with a brace. *)
Class BraceRefused `{SqlGrammar} := brace_refused : ∀ s, ∃ e, sql_parse (String "{" s) = Err e.

(** Trimming the end leaves a beginning, of at least the first character that
    stays. *)
Lemma trim_end_begin p ch s :
  p ch = false → (∃ cs, chars s = ch :: cs) →
  ∃ cs' b, trim_end_matches p s = of_chars (ch :: cs') ∧ s = trim_end_matches p s +:+ b.
Proof.
  intros Hp (cs & Hs). unfold trim_end_matches. rewrite Hs, reverse_cons.
  destruct (drop_while_snoc p (reverse cs) ch Hp) as (k & Hk). rewrite Hk, reverse_app. cbn [reverse rev_append app].
  assert (∃ m, reverse cs = m ++ k) as (m & Hm).
  { clear Hs. revert k Hk. induction (reverse cs) as [|x l IH]; intros k Hk.
    - cbn in Hk. rewrite Hp in Hk. exists []. by apply (app_inj_2 [] k [ch] [ch] eq_refl) in Hk as [<- _].
    - cbn in Hk. destruct (p x); [destruct (IH k Hk) as [m ->]; by exists (x :: m)|].
      exists []. change (x :: l ++ [ch]) with ((x :: l) ++ [ch]) in Hk. by apply app_inj_2 in Hk as [-> _]. }
  exists (reverse k), (of_chars (reverse m)). change (reverse [ch] ++ reverse k) with (ch :: reverse k).
  split; [done|]. rewrite <-(of_chars_chars s), Hs at 1. rewrite <-of_chars_app. cbn [app].
  f_equal. f_equal. rewrite <-reverse_app, <-Hm. by rewrite reverse_involutive.
Qed.

Lemma chars_brace s : ∃ cs, chars (String "{" s) = "{" :: cs.
Proof.
  unfold chars. cbn [String.length chars_fuel]. change (char_len "{") with 1. cbn [String.substring].
  destruct s; by eexists.
Qed.

Lemma trim_end_brace p s :
  p "{" = false → ∃ s' b, trim_end_matches p (String "{" s) = String "{" s' ∧ String "{" s = String "{" s' +:+ b.
Proof.
  intros Hp. destruct (trim_end_begin p "{" (String "{" s) Hp (chars_brace s)) as (cs & b & Ht & Hb).
  exists (of_chars cs), b. rewrite Ht in Hb. split; [exact Ht|exact Hb].
Qed.

Lemma trim_brace s : trim (String "{" s) = trim_end_matches is_whitespace (String "{" s).
Proof.
  unfold trim, trim_matches. f_equal. unfold trim_start_matches. destruct (chars_brace s) as [cs Hcs]. rewrite Hcs.
  cbn [drop_while]. change (is_whitespace "{") with false. cbn iota. rewrite <-Hcs. apply of_chars_chars.
Qed.

Lemma normalize_brace s : ∃ s' b, normalize (String "{" s) = String "{" s' ∧ String "{" s = String "{" s' +:+ b.
Proof.
  unfold normalize. rewrite trim_brace.
  destruct (trim_end_brace is_whitespace s eq_refl) as (s1 & b1 & -> & ->).
  destruct (trim_end_brace (char_is ";") s1 eq_refl) as (s2 & b2 & -> & ->). rewrite trim_brace.
  destruct (trim_end_brace is_whitespace s2 eq_refl) as (s3 & b3 & -> & ->).
  exists s3, (b3 +:+ (b2 +:+ b1)). by rewrite !app_assoc_string.
Qed.

(** *** None of the extensions begins so *)

Lemma lower_brace s w c : ascii_lower c ≠ "{"%char → eq_ignore_ascii_case (String "{" s) (String c w) = false.
Proof. intros Hc. unfold eq_ignore_ascii_case. apply bool_decide_false. intros Heq. injection Heq as Hh _. by apply Hc. Qed.

(** The first bytes are ASCII. *)
Definition ascii_begin (n : nat) (s : string) : Prop :=
  ∀ i c, i < n → String.get i s = Some c → (ascii_code c < 128)%N.

Lemma ascii_begin_boundary n s i : ascii_begin n s → i < n → i ≤ String.length s → is_char_boundary s i = true.
Proof.
  intros Ha Hn Hi. unfold is_char_boundary.
  destruct (decide (i = String.length s)) as [->|Hne]; [by rewrite bool_decide_true by auto|].
  destruct (get_Some s i) as [c Hc]; [lia|]. rewrite Hc. apply orb_true_iff. right.
  apply negb_true_iff, bool_decide_eq_false. specialize (Ha i c Hn Hc). lia.
Qed.

Lemma has_prefix_brace n s c p :
  ascii_begin n (String "{" s) → String.length (String c p) < n → ascii_lower c ≠ "{"%char →
  has_prefix (String c p) (String "{" s) = Ok false.
Proof.
  intros Ha Hn Hc. unfold has_prefix. case_decide as Hl; [|done]. unfold slice_to.
  rewrite (ascii_begin_boundary n) by done. cbn [mbind outcome_bind String.length String.substring].
  by rewrite lower_brace.
Qed.

Lemma first_word_brace s w c :
  ascii_lower c ≠ "{"%char → word_is (split_whitespace (String "{" s)) 0 (String c w) = false.
Proof.
  intros Hc. unfold word_is, split_whitespace. destruct (chars_brace s) as [cs ->]. cbn [split_on].
  change (is_whitespace "{") with false. cbn iota.
  assert (∀ part rest, is_some_and (λ x, eq_ignore_ascii_case x (String c w))
    ((of_chars <$> filter (λ l, l ≠ []) (("{" :: part) :: rest)) !! 0) = false) as Hw.
  { intros part rest. rewrite filter_cons_True by done. cbn. by apply (lower_brace (of_chars part)). }
  destruct (split_on is_whitespace cs); apply Hw.
Qed.

Lemma extension_brace `{RustStd} s :
  ascii_begin 20 (String "{" s) → parse_rustydb_extension (String "{" s) = Ok None.
Proof.
  intros Ha. unfold parse_rustydb_extension, parse_drop_constraint, is_drop_constraint.
  rewrite (first_word_brace s "LTER" "A"), andb_false_r by done. cbn [andb].
  unfold parse_set. rewrite (has_prefix_brace 20) by (done || cbn; lia). cbn [mbind outcome_bind].
  unfold parse_prepare. rewrite (has_prefix_brace 20) by (done || cbn; lia). cbn [mbind outcome_bind].
  unfold parse_execute. rewrite (has_prefix_brace 20) by (done || cbn; lia). cbn [mbind outcome_bind].
  cbn [parse_deallocate]. rewrite !(has_prefix_brace 20) by (done || cbn; lia). cbn [mbind outcome_bind].
  unfold is_show_indexes. rewrite (first_word_brace s "HOW" "S"), andb_false_r by done. cbn [andb].
  unfold parse_drop_index. by rewrite (first_word_brace s "ROP" "D"), andb_false_r by done.
Qed.

Lemma ascii_begin_prefix n a b : ascii_begin n (a +:+ b) → ascii_begin n a.
Proof.
  intros Ha i c Hi Hc. apply (Ha i c Hi). rewrite get_append_l; [done|].
  apply dec_stable. intros Hge. assert (∀ a i, String.length a ≤ i → String.get i a = None) as Hn.
  { clear. induction a as [|d a IH]; intros i Hi; [by destruct i|]. destruct i as [|i]; cbn in Hi; [lia|]. apply IH. lia. }
  rewrite Hn in Hc by lia. done.
Qed.

(** Text that begins with a brace and twenty bytes of ASCII is no statement. *)
Lemma parse_sql_brace `{RustStd} `{BraceRefused} s :
  ascii_begin 20 (String "{" s) → ∃ e, parse_sql (String "{" s) = Err e.
Proof.
  intros Ha. unfold parse_sql. destruct (normalize_brace s) as (s' & b & -> & Hb). rewrite Hb in Ha.
  cbn [mbind outcome_bind]. rewrite bool_decide_false by done.
  rewrite (extension_brace s') by by eapply ascii_begin_prefix. cbn [mbind outcome_bind].
  unfold standard_statement. destruct (brace_refused s') as [e ->]. by exists e.
Qed.
