(* ===== verification/Normal.v ===== *)
(** * Normal.v: what holds of every parsed statement (src/sql/parser.rs)

    The conversion of Convert.v and the extensions of Parser.v normalise what
    they read: names are in lower case and placeholders are numbered in the
    order of the text.  The same induction over the syntax tree shows that the
    conversion does not panic. *)

From S2P Require Import Prelude Machine Float64 Like Types Concrete Statement Params Str SqlAst.
From S2P Require Import Convert Parser.

(** ** The names in a statement *)

Fixpoint names (e : Expr) : list string :=
  match e with
  | EColumn qualifier name => option_list qualifier ++ [name]
  | EIncoming column => [column]
  | EBinary l _ r => names l ++ names r
  | EUnary _ e | EIsNull e _ => names e
  | ELike e p _ => names e ++ names p
  | EInList e items _ => names e ++ params_list names items
  | EInSubquery e q _ => names e ++ names_query q
  | EExists q _ | EScalarSubquery q => names_query q
  | EAggregate _ e _ => params_opt names e
  | _ => []
  end
with names_item (i : SelectItem) : list string :=
  match i with
  | SWildcard qualifier => option_list qualifier
  | SExpr e alias => names e ++ option_list alias
  end
with names_source (s : TableSource) : list string :=
  match s with
  | SrcTable name alias => name :: option_list alias
  | SrcDerived q alias => names_query q ++ [alias]
  end
with names_join (j : Join) : list string :=
  match j with mkJoin _ source on => names_source source ++ params_opt names on end
with names_order (o : OrderBy) : list string := match o with mkOrderBy e _ => names e end
with names_cte (c : Cte) : list string :=
  match c with mkCte name columns q => name :: columns ++ names_query q end
with names_query (q : Query) : list string :=
  match q with
  | mkQuery ctes _ projection from joins selection group_by having order_by _ =>
      params_list names_cte ctes ++ params_list names_item projection ++
      params_opt names_source from ++ params_list names_join joins ++
      params_opt names selection ++ params_list names group_by ++
      params_opt names having ++ params_list names_order order_by
  end.

Definition names_constraint (c : TableConstraint) : list string :=
  match c with
  | CPrimaryKey name columns | CUnique name columns => option_list name ++ columns
  | CCheck name e => option_list name ++ names e
  | CForeignKey fk =>
      option_list (fk_name fk) ++ fk_columns fk ++ [foreign_table fk] ++ referred_columns fk
  end.
Definition names_column (c : ColumnDef) : list string :=
  col_name c :: params_list names (col_checks c).
Definition names_operation (op : AlterOperation) : list string :=
  match op with
  | AddColumn column constraints _ =>
      names_column column ++ params_list names_constraint constraints
  | ModifyColumn old_name column constraints =>
      old_name :: names_column column ++ params_list names_constraint constraints
  | DropColumn name _ | DropConstraint name _ => [name]
  | RenameColumn old_name new_name => [old_name; new_name]
  | SetDefault column _ | SetNullable column _ | SetDataType column _ => [column]
  | AddConstraint c => names_constraint c
  | DropPrimaryKey => []
  end.
Definition names_insert_source (source : InsertSource) : list string :=
  match source with
  | InsertValues rows => params_list (params_list names) rows
  | InsertQuery q => names_query q
  end.
Definition names_assignment (a : string * Expr) : list string := a.1 :: names a.2.
Definition names_prepare (source : PrepareSource) : list string :=
  match source with PrepareVariable name => [name] | PrepareSql _ => [] end.

Fixpoint statement_names (s : Statement) : list string :=
  match s with
  | CreateTable name columns constraints _ =>
      name :: params_list names_column columns ++ params_list names_constraint constraints
  | DropTable name _ | ShowIndexes name | DescribeTable name | DeallocatePrepared name => [name]
  | CreateIndex name table columns _ _ => name :: table :: columns
  | DropIndex name table _ => [name; table]
  | AlterTable name operations => name :: params_list names_operation operations
  | Insert name columns source on_duplicate =>
      name :: default [] columns ++ names_insert_source source ++
      params_list names_assignment on_duplicate
  | SelectQuery q => names_query q
  | Update name assignments selection =>
      name :: params_list names_assignment assignments ++ params_opt names selection
  | Delete name selection => name :: params_opt names selection
  | Explain s => statement_names s
  | SetVariable name _ => [name]
  | Prepare name source => name :: names_prepare source
  | ExecutePrepared name using_ => name :: using_
  | ShowTables | Begin | Commit | Rollback => []
  end.

Definition lower_case (name : string) : Prop := to_ascii_lowercase name = name.
Notation normal p a := (Forall lower_case (p a)).

(** ** Tests on lists of names *)

Lemma lowered name : lower_case (to_ascii_lowercase name).
Proof. apply to_ascii_lowercase_idemp. Qed.
Lemma lowered_opt o : Forall lower_case (option_list (to_ascii_lowercase <$> o)).
Proof. destruct o; repeat constructor. apply lowered. Qed.
Lemma lowered_list l : Forall lower_case (to_ascii_lowercase <$> l).
Proof. apply Forall_fmap, Forall_true. intros. apply lowered. Qed.
Lemma object_name_lowered name : lower_case (object_name name).
Proof. unfold object_name. destruct (last name); [apply lowered|done]. Qed.
Lemma clean_identifier_lowered name : lower_case (clean_identifier name).
Proof. apply lowered. Qed.
Lemma clean_variable_lowered name : lower_case (clean_variable name).
Proof. apply lowered. Qed.

Lemma params_list_Forall {A B} (P : B → Prop) (p : A → list B) l :
  Forall P (params_list p l) ↔ Forall (λ x, Forall P (p x)) l.
Proof.
  induction l as [|x l IH]; cbn; [split; constructor|]. by rewrite Forall_app, Forall_cons, IH.
Qed.
Lemma params_opt_Forall {A B} (P : B → Prop) (p : A → list B) o :
  Forall P (params_opt p o) ↔ match o with Some x => Forall P (p x) | None => True end.
Proof. destruct o; cbn; [done|split; [done|constructor]]. Qed.

Lemma option_list_Some {A} (x : A) : option_list (Some x) = [x].
Proof. done. Qed.

Create HintDb normal discriminated.
#[export] Hint Resolve lowered lowered_opt lowered_list object_name_lowered clean_identifier_lowered
  clean_variable_lowered : normal.
#[export] Hint Rewrite @Forall_app @Forall_cons @params_list_Forall @params_opt_Forall
  @option_list_Some : normal.

(** ** The conversion normalises *)

Section conversion.
Context `{RustStd} `{SqlGrammar}.

(** [convert x] does not panic, and what it returns has lower-case names. *)
Notation conv p m := (yields (λ a, normal p a) m).

Definition conv_arg (a : sql_function_arg) : Prop :=
  match a with SqlUnnamedExpr e => conv names (convert_expr e) | _ => True end.
Definition conv_args (a : sql_function_arguments) : Prop :=
  match a with SqlArgumentList _ args => Forall conv_arg args | SqlOtherArguments => True end.
Definition conv_with (w : sql_with) : Prop :=
  match w with mkSqlWith _ ctes => Forall (λ c, conv names_cte (convert_cte c)) ctes end.
Definition conv_group (g : sql_group_by) : Prop :=
  match g with
  | SqlGroupExpressions l _ => Forall (λ e, conv names (convert_expr e)) l
  | SqlGroupAll => True
  end.
Definition conv_tables (t : sql_table_with_joins) : Prop :=
  match t with
  | mkSqlTableWithJoins relation joins =>
      conv names_source (convert_table_source relation) ∧
      Forall (λ j, conv names_join (convert_join j)) joins
  end.
Definition conv_opt (o : option sql_expr) : Prop :=
  match o with Some e => conv names (convert_expr e) | None => True end.
Definition conv_select (s : sql_select) : Prop :=
  match s with
  | mkSqlSelect _ projection from selection group_by having =>
      Forall (λ i, conv names_item (convert_select_item i)) projection ∧
      Forall conv_tables from ∧ conv_opt selection ∧ conv_group group_by ∧ conv_opt having
  end.
Definition conv_set (s : sql_set_expr) : Prop :=
  match s with
  | SqlSelect select => conv_select select
  | SqlSetQuery q => conv names_query (convert_query q)
  | _ => True
  end.
Definition conv_constraint (c : sql_join_constraint) : Prop :=
  match c with SqlOn e => conv names (convert_expr e) | _ => True end.
Definition conv_operator (o : sql_join_operator) : Prop :=
  match o with
  | SqlInner c | SqlLeftOuter c | SqlRightOuter c => conv_constraint c
  | _ => True
  end.

Lemma conv_mapM {A B} (p : B → list string) (f : A → outcome B) l :
  Forall (λ x, conv p (f x)) l → yields (Forall (λ y, normal p y)) (mapM f l).
Proof. apply yields_mapM. Qed.

Lemma conv_optM {A B} (p : B → list string) (f : A → outcome B) o :
  match o with Some x => conv p (f x) | None => True end →
  yields (λ y, match y with Some y => normal p y | None => True end) (optM f o).
Proof. destruct o as [x|]; cbn; [|done]. by destruct (f x). Qed.

Lemma conv_opt_all o :
  option_all sql_expr (λ e, conv names (convert_expr e)) o → conv_opt o.
Proof. destruct o as [e|]; [|done]. intros He. by apply option_all_Some in He. Qed.

Lemma conv_value v : yields (λ _, True) (convert_value v).
Proof.
  destruct v; cbn; try done. case_match; (apply (yields_bind (λ _, True)); [by apply yields_ok_or|done]).
Qed.
Lemma conv_binary_op op : yields (λ _, True) (convert_binary_op op).
Proof. by destruct op. Qed.
Lemma conv_unary_op op : yields (λ _, True) (convert_unary_op op).
Proof. by destruct op. Qed.
Lemma conv_aggregate name : yields (λ _, True) (aggregate_function name).
Proof. unfold aggregate_function. by repeat case_match. Qed.
Lemma conv_usize e : yields (λ _, True) (expect_usize e).
Proof. unfold expect_usize. by repeat case_match. Qed.
Lemma conv_literal e : yields (λ _, True) (expect_literal e).
Proof. unfold expect_literal. by case_match. Qed.

Lemma conv_incoming args : conv names (incoming_column args).
Proof.
  unfold incoming_column. repeat case_match; try done. cbn. repeat constructor. apply lowered.
Qed.


#[local] Hint Resolve conv_value conv_binary_op conv_unary_op conv_aggregate conv_usize conv_literal
  conv_incoming : normal.

(** A result: its names are those of its parts. *)
Ltac conv_done :=
  cbn [yields names names_item names_source names_join names_order names_cte names_query
       app params_opt fst snd] in *;
  autorewrite with normal in *;
  repeat split; try done; auto with normal.

(** One call after another, one case after another. *)
Ltac conv_step :=
  match goal with
  | |- yields _ (Err _) => exact I
  | |- yields _ (Ok _) => solve [conv_done]
  | |- yields _ (mapM _ _ ≫= _) =>
      eapply yields_bind; [apply conv_mapM; by first [eassumption|apply list_all_Forall]|intros ? ?]
  | |- yields _ (optM _ _ ≫= _) => eapply yields_bind; [apply conv_optM; eassumption|intros ? ?]
  | |- yields _ (_ ≫= _) =>
      eapply yields_bind; [solve [eassumption|eauto with normal]|intros ? ?]
  | |- yields _ (if _ then _ else _) => case_match
  | |- yields _ (match _ with _ => _ end) => case_match
  end.

Lemma conv_function name args over filter within_group :
  conv_args args → conv names (convert_function (mkSqlFunction name args over filter within_group)).
Proof.
  intros Hargs. cbn [convert_function]. fold_convert.
  case_match; [done|]. case_match; [apply conv_incoming|].
  eapply yields_bind; [apply conv_aggregate|]. intros aggregate _.
  destruct args as [treatment [|arg [|? ?]]|]; try done. apply Forall_cons in Hargs as [Harg _].
  apply (yields_bind (λ e, match e with Some e => normal names e | None => True end)).
  - destruct arg as [e| |]; cbn in *; [|done..]. by destruct (convert_expr e).
  - intros e He. destruct (_ && _); [done|]. destruct e as [e|]; [exact He|]. apply Forall_nil_2.
Qed.

Lemma conv_join relation operator :
  conv names_source (convert_table_source relation) → conv_operator operator →
  conv names_join (convert_join (mkSqlJoin relation operator)).
Proof.
  intros Hr Ho. cbn [convert_join]. fold_convert.
  apply (yields_bind (λ on, match on.2 with Some e => normal names e | None => True end)).
  - destruct operator as [c|c|c| | |]; try done; destruct c as [e| | |]; try done; cbn in Ho |- *;
      by destruct (convert_expr e).
  - intros on Hon. destruct (convert_table_source relation); try done. cbn in *.
    rewrite Forall_app. split; [done|]. by destruct on as [? [?|]].
Qed.

Lemma conv_from from :
  Forall conv_tables from →
  yields (λ tables, match tables.1 with Some s => normal names_source s | None => True end ∧
                    Forall (λ j, normal names_join j) tables.2)
    match from with
    | mkSqlTableWithJoins relation joins :: _ =>
        source ← convert_table_source relation; joins ← mapM convert_join joins;
        Ok (Some source, joins)
    | [] => Ok (None, [])
    end.
Proof.
  destruct from as [|[relation joins] from]; [by repeat constructor|].
  intros [[Hr Hj] _]%Forall_cons. eapply yields_bind; [exact Hr|]. intros source Hs.
  eapply yields_bind; [by apply conv_mapM|]. done.
Qed.

Lemma conv_group_by g :
  conv_group g →
  yields (Forall (λ e, normal names e))
    match g with
    | SqlGroupExpressions expressions [] => mapM convert_expr expressions
    | _ => Err "GROUP BY modifiers/ALL are unsupported"
    end.
Proof. destruct g as [l [|? ?]|]; try done. apply conv_mapM. Qed.

Lemma conv_query with_ body order_by limit limit_by offset fetch :
  match with_ with Some w => conv_with w | None => True end → conv_set body →
  match order_by with Some l => Forall (λ o, conv names_order (convert_order o)) l | None => True end →
  conv_opt limit →
  conv names_query (convert_query (mkSqlQuery with_ body order_by limit limit_by offset fetch)).
Proof.
  intros Hw Hb Ho Hl. cbn [convert_query]. fold_convert. destruct (_ || negb _); [done|].
  apply (yields_bind (Forall (λ c, normal names_cte c))).
  { destruct with_ as [[[] ctes]|]; [done| |constructor]. by apply conv_mapM. }
  intros ctes Hctes. destruct body as [sel|q|rows|]; try done.
  destruct sel as [distinct projection from selection group_by having].
  destruct Hb as (Hp & Hf & Hs & Hg & Hh). case_decide; [done|].
  eapply yields_bind; [by apply conv_from|]. intros tables [Hsource Hjoins].
  eapply yields_bind; [by apply conv_group_by|]. intros groups Hgroups.
  apply (yields_bind (λ o, Forall (λ o, normal names_order o) (default [] o))).
  { destruct order_by as [l|]; cbn; [|constructor]. eapply yields_bind; [by apply conv_mapM|]. done. }
  intros orders Horders. apply (yields_bind (λ _, True)).
  { destruct limit as [e|]; cbn in *; [|done]. destruct (convert_expr e) as [v| |]; [|done..].
    cbn. pose proof (conv_usize v) as Hu. by destruct (expect_usize v). }
  intros limit' _. eapply yields_bind; [by apply conv_mapM|]. intros items Hitems.
  eapply yields_bind; [by apply conv_optM|]. intros selection' Hselection.
  eapply yields_bind; [by apply conv_optM|]. intros having' Hhaving.
  cbn [yields names_query]. autorewrite with normal. done.
Qed.

Lemma conv_tree :
  (∀ e, conv names (convert_expr e)) ∧ (∀ f, conv names (convert_function f)) ∧
  (∀ a, conv_args a) ∧ (∀ a, conv_arg a) ∧ (∀ q, conv names_query (convert_query q)) ∧
  (∀ w, conv_with w) ∧ (∀ c, conv names_cte (convert_cte c)) ∧
  (∀ o, conv names_order (convert_order o)) ∧ (∀ s, conv_set s) ∧ (∀ s, conv_select s) ∧
  (∀ g, conv_group g) ∧ (∀ i, conv names_item (convert_select_item i)) ∧ (∀ t, conv_tables t) ∧
  (∀ f, conv names_source (convert_table_source f)) ∧ (∀ j, conv names_join (convert_join j)) ∧
  (∀ o, conv_operator o) ∧ (∀ c, conv_constraint c).
Proof.
  apply sql_tree_ind; intros;
    cbn [convert_expr convert_function convert_query convert_cte convert_order convert_select_item
         convert_table_source convert_join]; fold_convert;
    try (by repeat conv_step); try done.
  - by apply conv_function.
  - by apply list_all_Forall.
  - apply conv_query.
    + destruct with_; [by apply option_all_Some in H1|done].
    + done.
    + destruct order_by as [l|]; [|done]. inversion H3; subst. by apply list_all_Forall.
    + by apply conv_opt_all.
  - by apply list_all_Forall.
  - repeat split; try (by apply list_all_Forall); try (by apply conv_opt_all); done.
  - by apply list_all_Forall.
  - split; [done|]. by apply list_all_Forall.
  - case_match; [done|]. cbn. constructor; [auto with normal|]. destruct alias; repeat constructor.
    apply lowered.
  - by apply conv_join.
Qed.

Lemma conv_expr e : conv names (convert_expr e).
Proof. apply conv_tree. Qed.
Lemma conv_subquery q : conv names_query (convert_query q).
Proof. apply conv_tree. Qed.
Lemma conv_literal_value e : yields (λ _, True) (literal_value e).
Proof.
  unfold literal_value. eapply yields_bind; [apply conv_expr|]. intros v _. apply conv_literal.
Qed.
Lemma conv_each {A B} (p : B → list string) (f : A → outcome B) l :
  (∀ x, conv p (f x)) → yields (Forall (λ y, normal p y)) (mapM f l).
Proof. intros Hf. by apply conv_mapM, Forall_true. Qed.
Lemma conv_opt_each o :
  yields (λ y, match y with Some y => normal names y | None => True end) (optM convert_expr o).
Proof. apply conv_optM. destruct o; [apply conv_expr|done]. Qed.

Lemma conv_data_type d : yields (λ _, True) (convert_data_type d).
Proof. unfold convert_data_type. by repeat case_match. Qed.
Lemma conv_actions a b : yields (λ _, True) (validate_referential_actions a b).
Proof. unfold validate_referential_actions. by case_match. Qed.
Lemma conv_table_name t : yields lower_case (table_factor_name t).
Proof. destruct t as [name alias []| |]; cbn; try done. apply object_name_lowered. Qed.
#[local] Hint Resolve conv_expr conv_subquery conv_literal_value conv_data_type conv_actions
  conv_table_name : normal.

Definition normal_column (st : ColumnDef * list TableConstraint) : Prop :=
  normal names_column st.1 ∧ Forall (λ c, normal names_constraint c) st.2.

Lemma conv_column_option st option :
  normal_column st → yields normal_column (convert_column_option st option).
Proof.
  destruct st as [c constraints], option as [name option]. intros [Hc Hk].
  unfold names_column in Hc. cbn [fst snd] in *. destruct option as [| |e|[]|e|table referred d u|text];
    cbn [convert_column_option snd fst]; try done.
  - eapply yields_bind; [apply conv_literal_value|]. done.
  - eapply yields_bind; [apply conv_expr|]. intros e' He. split; cbn [fst snd].
    + unfold names_column. cbn [col_name col_checks add_check]. autorewrite with normal in *.
      destruct Hc. repeat split; [done..|constructor].
    + autorewrite with normal. repeat split; [done| |constructor]. cbn. autorewrite with normal.
      auto with normal.
  - eapply yields_bind; [apply conv_actions|]. intros _ _. split; cbn [fst snd]; [done|].
    autorewrite with normal. repeat split; [done| |constructor]. cbn. autorewrite with normal.
    apply Forall_cons in Hc as [? _]. auto 10 with normal.
Qed.

Lemma yields_foldM {A B} (Q : B → Prop) (f : B → A → outcome B) l acc :
  Q acc → (∀ acc x, Q acc → yields Q (f acc x)) → yields Q (foldM f acc l).
Proof.
  intros Hacc Hf. revert acc Hacc. induction l as [|x l IH]; intros acc Hacc; cbn; [done|].
  eapply yields_bind; [by apply Hf|]. exact IH.
Qed.

Lemma conv_column_def column : yields normal_column (convert_column_def column).
Proof.
  unfold convert_column_def. eapply yields_bind; [apply conv_data_type|]. intros d _.
  eapply yields_bind.
  { apply yields_foldM with (Q := normal_column); [|intros; by apply conv_column_option].
    split; [|constructor]. unfold names_column. cbn. repeat constructor. apply lowered. }
  intros [c constraints] [Hc Hk]. split; cbn [fst snd]; [done|].
  assert (lower_case (col_name c)) by (by apply Forall_cons in Hc as [? _]).
  repeat case_match; try done; autorewrite with normal; cbn; autorewrite with normal; auto with normal.
Qed.

Lemma conv_table_constraint c : conv names_constraint (convert_table_constraint c).
Proof.
  destruct c as [name columns|name columns|name e|name columns table referred d u| |text]; cbn; try done;
    autorewrite with normal; auto with normal.
  - eapply yields_bind; [apply conv_expr|]. intros e' He. cbn. autorewrite with normal. auto with normal.
  - eapply yields_bind; [apply conv_actions|]. intros _ _. cbn. autorewrite with normal. auto 10 with normal.
Qed.

Ltac normal_done :=
  unfold normal_column, names_column in *; cbn; cbn [fst snd] in *; autorewrite with normal in *;
  repeat match goal with Hn : _ ∧ _ |- _ => destruct Hn end; auto 10 with normal.

Lemma conv_columns columns :
  yields (λ l, Forall (λ c, normal names_column c) l.*1 ∧
               Forall (λ c, normal names_constraint c) (concat l.*2))
    (mapM convert_column_def columns).
Proof.
  eapply yields_impl; [apply yields_mapM, Forall_true, conv_column_def|].
  intros l Hl. induction Hl as [|[c k] l [Hc Hk] _ [IH1 IH2]]; cbn; [by repeat constructor|].
  by rewrite Forall_cons, Forall_app.
Qed.

Lemma conv_create_table c : conv statement_names (convert_create_table c).
Proof.
  unfold convert_create_table. destruct (_ || _); [done|].
  eapply yields_bind; [apply conv_columns|]. intros columns [Hc Hk].
  eapply yields_bind; [apply (conv_each names_constraint), conv_table_constraint|].
  intros constraints Hconstraints. normal_done.
Qed.

Lemma conv_modified old_name new_name d options position :
  conv names_operation (convert_modified_column old_name new_name d options position).
Proof.
  unfold convert_modified_column. case_match; [done|].
  eapply yields_bind; [apply conv_column_def|]. intros [c k] [Hc Hk]. normal_done.
Qed.

Lemma conv_alter_column column op : conv names_operation (convert_alter_column column op).
Proof.
  destruct op as [| |v| |d [|]|]; cbn; try done; try (normal_done; fail).
  - eapply yields_bind; [apply conv_literal_value|]. intros v' _. normal_done.
  - eapply yields_bind; [apply conv_data_type|]. intros d' _. normal_done.
Qed.

Lemma conv_alter_operation op : conv names_operation (convert_alter_operation op).
Proof.
  destruct op as [c b position|name b []|old new|old new d options position|name d options position
    |column op|c|name b []| |text]; cbn [convert_alter_operation];
    try (normal_done; fail); try apply conv_modified; try apply conv_alter_column.
  - case_match; [done|]. eapply yields_bind; [apply conv_column_def|].
    intros [c' k] [Hc Hk]. normal_done.
  - eapply yields_bind; [apply conv_table_constraint|]. done.
Qed.

Lemma conv_assignment a : conv names_assignment (convert_assignment a).
Proof.
  destruct a as [[name|] e]; [|done]. cbn. eapply yields_bind; [apply conv_expr|]. intros e' He.
  constructor; [apply object_name_lowered|done].
Qed.

Lemma conv_insert_source source : conv names_insert_source (convert_insert_source source).
Proof.
  destruct source as [w [sel|q|rows|] o l lb off fetch]; cbn [convert_insert_source];
    try (eapply yields_bind; [apply conv_subquery|done]).
  eapply yields_bind; [|intros rows' Hrows; cbn; autorewrite with normal; exact Hrows].
  eapply yields_impl; [apply yields_mapM, Forall_true; intros row; apply (conv_each names), conv_expr|].
  cbn. intros l' Hl. eapply Forall_impl; [exact Hl|]. intros row. by rewrite params_list_Forall.
Qed.

Lemma conv_on_insert on : yields (λ l, Forall (λ a, normal names_assignment a) l) (convert_on_insert on).
Proof.
  destruct on as [[l|]|]; cbn; [|done|constructor]. apply (conv_each names_assignment), conv_assignment.
Qed.

Lemma conv_insert i : conv statement_names (convert_insert i).
Proof.
  unfold convert_insert. destruct (_ || _); [done|].
  apply (yields_bind (λ _, True)); [by apply yields_ok_or|]. intros source _.
  eapply yields_bind; [apply conv_insert_source|]. intros source' Hs.
  eapply yields_bind; [apply conv_on_insert|]. intros l Hl. cbn. autorewrite with normal.
  repeat split; [apply object_name_lowered| |done..].
  destruct (si_columns i) as [|c cs]; [exact (Forall_nil_2 _)|exact (lowered_list (c :: cs))].
Qed.

Lemma conv_create_index c : conv statement_names (convert_create_index c).
Proof.
  unfold convert_create_index. destruct (_ || _); [done|].
  apply (yields_bind lower_case).
  { apply yields_ok_or. intros name. destruct (ci_name c); [|done]. intros [= <-]. apply object_name_lowered. }
  intros name Hname. apply (yields_bind (Forall lower_case)).
  { apply yields_mapM, Forall_true. intros []; try done. apply lowered. }
  intros columns Hcolumns. normal_done.
Qed.

Lemma conv_statement s : conv statement_names (convert_statement s).
Proof.
  induction s as [c|c|name b only ops location cluster|t b names|i|q|table assignments selection
    |from selection| |name|s IH| | |[]|text]; cbn [convert_statement]; try done;
    try exact (Forall_nil_2 _).
  - apply conv_create_table.
  - apply conv_create_index.
  - destruct (_ || _); [done|].
    eapply yields_bind; [apply (conv_each names_operation), conv_alter_operation|].
    intros ops' Hops. normal_done.
  - destruct t, names as [|name [|? ?]]; try done. normal_done.
  - apply conv_insert.
  - eapply yields_bind; [apply conv_subquery|]. done.
  - unfold convert_update. destruct table as [relation [|? ?]]; [|done].
    eapply yields_bind; [apply conv_table_name|]. intros name Hname.
    eapply yields_bind; [apply (conv_each names_assignment), conv_assignment|]. intros l Hl.
    eapply yields_bind; [apply conv_opt_each|]. intros o Ho. normal_done.
  - unfold convert_delete. destruct (from_tables_of from) as [|[relation [|? ?]] [|? ?]]; try done.
    eapply yields_bind; [apply conv_table_name|]. intros name Hname.
    eapply yields_bind; [apply conv_opt_each|]. intros o Ho. normal_done.
  - normal_done.
  - eapply yields_bind; [apply IH|]. done.
Qed.

Lemma conv_standard_statement sql :
  sql_parse sql ≠ Panic → conv statement_names (standard_statement sql).
Proof.
  intros Hp. apply (yields_bind (λ _, True)); [by destruct (sql_parse sql)|].
  intros [|s [|? ?]] _; try done. apply conv_statement.
Qed.
End conversion.

(** ** The extensions normalise *)

Section extensions.
Context `{RustStd}.

(** Every statement that is recognised has normal names and no placeholder. *)
Definition recognised (o : option Statement) : Prop :=
  match o with Some s => normal statement_names s ∧ statement_params s = [] | None => True end.
Notation recognises m := (∀ o, m = Ok o → recognised o).

Ltac recognise :=
  intros; inv_ok; repeat (case_match; inv_ok); try done;
  cbn; repeat constructor; auto using clean_identifier_lowered, clean_variable_lowered.

Lemma recognise_set sql : recognises (parse_set sql).
Proof. intros o. unfold parse_set. recognise. Qed.
Lemma recognise_prepare sql : recognises (parse_prepare sql).
Proof. intros o. unfold parse_prepare. recognise. Qed.
Lemma recognise_deallocate prefixes sql : recognises (parse_deallocate prefixes sql).
Proof.
  induction prefixes as [|prefix prefixes IH]; intros o; cbn; [by intros [= <-]|]. intros. inv_ok.
  case_match; inv_ok; [|eauto]. recognise.
Qed.
Lemma recognise_drop_index words : recognises (parse_drop_index words).
Proof. intros o. unfold parse_drop_index. recognise. Qed.
Lemma recognise_drop_constraint words : recognised (parse_drop_constraint words).
Proof.
  unfold parse_drop_constraint. case_match; [|done].
  destruct (words !! 2) as [table|]; [|done]. destruct (last words) as [name|]; [|done]. recognise.
Qed.
Lemma recognise_execute sql : recognises (parse_execute sql).
Proof.
  intros o. unfold parse_execute. intros. inv_ok. repeat (case_match; inv_ok); try done;
    (split; [apply Forall_cons; split; [apply clean_identifier_lowered|]|done]);
    try exact (Forall_nil_2 _).
  apply Forall_fmap, Forall_true. intros. apply clean_variable_lowered.
Qed.

Lemma recognise_extension sql : recognises (parse_rustydb_extension sql).
Proof.
  intros o. unfold parse_rustydb_extension.
  pose proof (recognise_drop_constraint (split_whitespace sql)) as Hdrop.
  destruct (parse_drop_constraint _) as [s|]; [by intros [= <-]|].
  intros (set & Hset & Hrest)%bind_Ok. pose proof (recognise_set _ _ Hset) as Hs.
  destruct set; [by injection Hrest as <-|].
  apply bind_Ok in Hrest as (prepare & Hp & Hrest). pose proof (recognise_prepare _ _ Hp) as Hs'.
  destruct prepare; [by injection Hrest as <-|].
  apply bind_Ok in Hrest as (execute & He & Hrest). pose proof (recognise_execute _ _ He) as Hs2.
  destruct execute; [by injection Hrest as <-|].
  apply bind_Ok in Hrest as (deallocate & Hd & Hrest). pose proof (recognise_deallocate _ _ _ Hd) as Hs3.
  destruct deallocate; [by injection Hrest as <-|].
  case_match; [|by apply recognise_drop_index in Hrest].
  apply bind_Ok in Hrest as (table & _ & [= <-]). cbn. repeat constructor. apply clean_identifier_lowered.
Qed.
End extensions.

(** ** Numbering placeholders keeps the names *)

Section visiting.
Context {S : Type} (visitor : N → visitM S Expr).
Hypothesis visitor_names : ∀ i s s' e, visitor i s = Ok (s', e) → names e = [].

(** What holds of the result of a visit, whatever the state. *)
Definition post {A} (m : visitM S A) (Q : A → Prop) : Prop :=
  ∀ s s' a, m s = Ok (s', a) → Q a.
(** A visit keeps the names [p]. *)
Notation same p m x := (post m (λ y, p y = p x)).

Lemma post_ret {A} (a : A) (Q : A → Prop) : Q a → post (vret a) Q.
Proof. by intros Ha s s' b [= _ <-]. Qed.
Lemma post_bind {A B} (m : visitM S A) (k : A → visitM S B) (Q : A → Prop) (R : B → Prop) :
  post m Q → (∀ a, Q a → post (k a) R) → post (vbind m k) R.
Proof.
  intros Hm Hk s s' b. unfold vbind. destruct (m s) as [[s1 a]| |] eqn:E; [|done..].
  intros Hb. eapply Hk, Hb. by eapply Hm.
Qed.

Lemma same_list {A} (f : A → visitM S A) (p : A → list string) l :
  Forall (λ x, same p (f x) x) l → same (params_list p) (visit_list f l) l.
Proof.
  induction 1 as [|x l Hx _ IH]; [by apply post_ret|]. cbn. eapply post_bind; [exact Hx|].
  intros y Hy. eapply post_bind; [exact IH|]. intros k Hk. apply post_ret. cbn. by f_equal.
Qed.
Lemma same_opt {A} (f : A → visitM S A) (p : A → list string) o :
  match o with Some x => same p (f x) x | None => True end →
  same (params_opt p) (visit_opt f o) o.
Proof.
  destruct o as [x|]; intros Hx; [|by apply post_ret]. cbn. eapply post_bind; [exact Hx|].
  intros y Hy. by apply post_ret.
Qed.
Lemma same_list_all {A} (f : A → visitM S A) (p : A → list string) l :
  list_all A (λ x, same p (f x) x) l → same (params_list p) (visit_list f l) l.
Proof. intros Hl. by apply same_list, list_all_Forall. Qed.
Lemma same_opt_all {A} (f : A → visitM S A) (p : A → list string) o :
  option_all A (λ x, same p (f x) x) o → same (params_opt p) (visit_opt f o) o.
Proof. intros Ho. apply same_opt. destruct o as [x|]; [|done]. by apply option_all_Some in Ho. Qed.
#[local] Hint Resolve same_list_all same_opt_all : core.

Ltac same_step :=
  lazymatch goal with
  | |- post (vbind _ _) _ => eapply post_bind; [solve [eauto]|]; intros ? ?; cbn beta in *
  | |- post (vret _) _ => apply post_ret; cbn [names names_item names_source names_join names_order
      names_cte names_query names_operation names_constraint names_insert_source statement_names];
      congruence
  end.

Lemma visit_names :
  (∀ e, same names (visit_expr visitor e) e) ∧
  (∀ i, same names_item (visit_item visitor i) i) ∧
  (∀ s, same names_source (visit_source visitor s) s) ∧
  (∀ j, same names_join (visit_join visitor j) j) ∧
  (∀ o, same names_order (visit_order visitor o) o) ∧
  (∀ c, same names_cte (visit_cte visitor c) c) ∧
  (∀ q, same names_query (visit_query visitor q) q).
Proof.
  apply Expr_Query_ind; intros; cbn [visit_expr visit_item visit_source visit_join visit_order
    visit_cte visit_query]; try (repeat same_step; done).
  intros s s' e He. cbn. by apply visitor_names in He.
Qed.

Lemma visit_expr_names e : same names (visit_expr visitor e) e.
Proof. apply visit_names. Qed.
Lemma visit_query_names q : same names_query (visit_query visitor q) q.
Proof. apply visit_names. Qed.
#[local] Hint Resolve visit_expr_names visit_query_names : core.

Lemma same_list_each {A} (f : A → visitM S A) (p : A → list string) l :
  (∀ x, same p (f x) x) → same (params_list p) (visit_list f l) l.
Proof. intros Hf. by apply same_list, Forall_true. Qed.
Lemma same_opt_each {A} (f : A → visitM S A) (p : A → list string) o :
  (∀ x, same p (f x) x) → same (params_opt p) (visit_opt f o) o.
Proof. intros Hf. apply same_opt. by destruct o. Qed.
#[local] Hint Resolve same_list_each same_opt_each : core.

Lemma visit_constraint_names c : same names_constraint (visit_constraint_exprs visitor c) c.
Proof. destruct c; cbn [visit_constraint_exprs names_constraint]; by repeat same_step. Qed.
Lemma visit_column_names c : same names_column (visit_column visitor c) c.
Proof.
  unfold visit_column, names_column. eapply post_bind; [solve [eauto]|]. intros checks Hchecks.
  apply post_ret. cbn in *. by f_equal.
Qed.
Lemma visit_assignment_names a : same names_assignment (visit_assignment visitor a) a.
Proof.
  unfold visit_assignment, names_assignment. eapply post_bind; [solve [eauto]|]. intros e He.
  apply post_ret. cbn in *. by f_equal.
Qed.
#[local] Hint Resolve visit_constraint_names visit_column_names visit_assignment_names : core.

Lemma visit_operation_names op : same names_operation (visit_operation visitor op) op.
Proof. destruct op; cbn [visit_operation names_operation]; by repeat same_step. Qed.
Lemma visit_insert_source_names source :
  same names_insert_source (visit_insert_source visitor source) source.
Proof.
  destruct source as [rows|q]; cbn; [|by repeat same_step].
  eapply post_bind; [apply (same_list_each _ (params_list names)); eauto|]. intros ? ?. by apply post_ret.
Qed.
#[local] Hint Resolve visit_operation_names visit_insert_source_names : core.

Lemma visit_statement_names s : same statement_names (visit_statement_exprs visitor s) s.
Proof. induction s; cbn [visit_statement_exprs]; by repeat same_step. Qed.
End visiting.

Lemma assign_parameters_names s s' :
  assign_parameters s = Ok s' → statement_names s' = statement_names s.
Proof.
  unfold assign_parameters. intros ([n s1] & Hv & [= <-])%bind_Ok.
  eapply visit_statement_names, Hv. by intros i k k' e [= _ <-].
Qed.

(** ** Parsed statements *)

Section parsed.
Context `{RustStd} `{SqlGrammar}.

Lemma conv_parse_sql input :
  (parse_rustydb_extension (normalize input) ≠ Panic) → sql_parse (normalize input) ≠ Panic →
  yields (λ s, normal statement_names s) (parse_sql input).
Proof.
  intros He Hp. unfold parse_sql. case_bool_decide; [done|].
  apply (yields_bind recognised).
  { pose proof (recognise_extension (normalize input)) as Hr.
    destruct (parse_rustydb_extension _); [by apply Hr|done|done]. }
  intros [s|] Hs; [exact (proj1 Hs)|]. eapply yields_bind; [by apply conv_standard_statement|].
  intros s' Hs'. destruct (assign_parameters_params s') as (s2 & Hs2 & _).
  rewrite Hs2. cbn. by rewrite (assign_parameters_names _ _ Hs2).
Qed.

(** C27. Every parsed statement is in normal form: all its names (tables, columns,
    aliases, constraints, indexes, variables) are in lower case, so that
    identifiers are case-insensitive throughout the engine, and its placeholders
    are numbered 0, 1, 2, ... in the order in which they are visited. *)
Theorem parsed_statement_normal input s :
  parse_sql input = Ok s →
  Forall lower_case (statement_names s) ∧
  statement_params s = N.of_nat <$> seq 0 (length (statement_params s)).
Proof.
  unfold parse_sql. case_bool_decide; [done|].
  intros ([s'|] & He & Hs)%bind_Ok; apply recognise_extension in He.
  - injection Hs as <-. destruct He as [Hn Hp]. by rewrite Hp.
  - apply bind_Ok in Hs as (s0 & Hs0 & Hs). split.
    + rewrite (assign_parameters_names _ _ Hs).
      eapply (yields_Ok (λ s, normal statement_names s)); [|exact Hs0].
      apply conv_standard_statement. intros Hp. unfold standard_statement in Hs0. by rewrite Hp in Hs0.
    + destruct (assign_parameters_params s0) as (s1 & Hs1 & Hp). rewrite Hs in Hs1. injection Hs1 as <-.
      by rewrite Hp, length_fmap, length_seq.
Qed.

(** C28. Parsing text in ASCII never panics as long as the sqlparser crate does
    not: every slice of the extensions is within the text, and the conversion
    answers every syntax tree with a statement or an error. *)
Theorem parse_never_panics_on_ascii input :
  is_ascii input = true → (∀ sql, is_ascii sql = true → sql_parse sql ≠ Panic) →
  parse_sql input ≠ Panic.
Proof.
  intros Ha Hp. assert (is_ascii (normalize input) = true) as Hn.
  { by apply trim_ascii, trim_end_ascii, trim_ascii. }
  eapply yields_no_panic, conv_parse_sql; [by apply extension_ascii_no_panic|by apply Hp].
Qed.
End parsed.

(** *** Witnesses *)

Section normal_examples.
#[local] Existing Instance concrete_std.

(** [UPDATE Shop.T SET V = ? WHERE T.Id = ?]. *)
Definition mixed_case : sql_statement :=
  SqlUpdate (mkSqlTableWithJoins (SqlTable ["Shop"; "T"] None None) [])
    [(SqlColumnName ["V"], SqlValueExpr (SqlPlaceholder "?"))]
    (Some (SqlBinaryOp (SqlCompoundIdentifier ["T"; "Id"]) SqlEq (SqlValueExpr (SqlPlaceholder "?")))).
#[local] Instance mixed_grammar : SqlGrammar :=
  {| sql_parse := λ sql, if bool_decide (sql = "UPDATE") then Ok [mixed_case] else Err "syntax error";
     sql_expr_display := λ _, "expression"; sql_value_display := λ _, "value";
     sql_statement_display := λ _, "statement" |}.
Definition normal_update : Statement :=
  Update "t" [("v", EParameter 0)]
    (Some (EBinary (EColumn (Some "t") "id") (OpCompare CmpEqual) (EParameter 1))).

Lemma parsed_statement_normal_witness :
  parse_sql "UPDATE ;" = Ok normal_update ∧ Forall lower_case (statement_names normal_update).
Proof.
  assert (parse_sql "UPDATE ;" = Ok normal_update) as Hp by (vm_compute; reflexivity).
  split; [exact Hp|]. exact (proj1 (parsed_statement_normal "UPDATE ;" normal_update Hp)).
Defined.

Lemma parse_never_panics_on_ascii_witness : parse_sql "UPDATE t" ≠ Panic.
Proof.
  apply parse_never_panics_on_ascii; [vm_compute; reflexivity|].
  intros sql _. unfold sql_parse, mixed_grammar. by case_bool_decide.
Defined.
End normal_examples.
