(* ===== verification/Wal.v ===== *)
(** * Wal.v: the write-ahead log and its replay (src/sql/database.rs, 67-160,
    407-525)

    Log records with their checksum, appending a transaction to the log with
    the ways an append can fail, and replaying a log over a catalog when a
    database is opened.  The file is its bytes; serde_json and crc32fast are
    parameters with the laws they document. *)

From Stdlib Require Import Ascii.
From S2P Require Import Prelude Machine Float64 Like Types Concrete Keys Table Eval Queries.
From S2P Require Import Statement Planner Validate Ddl Execute Integrity Params Str Log Coding SqlAst Convert Express Parser NotSql.

(** ** Records *)

Inductive DurableStatement :=
| DurableSql (sql : string)
| DurableBound (statement : Statement).

Record WalRecord := {
  wr_format_version : N;
  wr_base_version : N;
  wr_commit_version : N;
  wr_timestamp_millis : N;
  wr_statements : list DurableStatement;
  wr_checksum : N;
}.

(** The format before it: raw SQL strings, no timestamp. *)
Record LegacyWalRecord := {
  lr_format_version : N;
  lr_base_version : N;
  lr_commit_version : N;
  lr_statements : list string;
  lr_checksum : N;
}.

(** [crc32fast] over all bytes fed to the hasher; [serde_json] on records.  A
    record that holds only floats JSON can express ([json_safe]) is read back
    as it was written, on one line that is not blank: JSON text escapes control
    characters.  The text is an object with the fields in the order of their
    declaration, so none of its strict prefixes is JSON. *)
Definition dquote : ascii := ascii_of_N 34.
Definition record_start : string :=
  String "{" (String dquote ("format_version" +:+ String dquote ":2,")).

Class LogFormat := {
  crc32 : list Z → N;
  statements_json : list DurableStatement → string;
  record_to_json : WalRecord → string;
  record_from_json : string → option WalRecord;
  legacy_from_json : string → option LegacyWalRecord;
  json_safe : list DurableStatement → bool;
  record_json_roundtrip : ∀ r, json_safe (wr_statements r) = true →
    record_from_json (record_to_json r) = Some r;
  record_json_line : ∀ r, json_safe (wr_statements r) = true →
    no_control (record_to_json r) ∧ valid_utf8 (record_to_json r) = true ∧
    trim (record_to_json r) ≠ EmptyString;
  record_json_start : ∀ r, json_safe (wr_statements r) = true → wr_format_version r = 2%N →
    ∃ s, record_to_json r = record_start +:+ s;
  record_json_prefix : ∀ r (n : nat), json_safe (wr_statements r) = true →
    n < String.length (record_to_json r) →
    record_from_json (String.substring 0 n (record_to_json r)) = None ∧
    legacy_from_json (String.substring 0 n (record_to_json r)) = None;
}.

Definition WAL_FORMAT_VERSION : N := 2.

Section wal.
Context `{RustStd} `{SqlGrammar} `{LogFormat}.

Definition wal_checksum (base commit timestamp : N) (statements : list DurableStatement) : N :=
  crc32 (u64_le base ++ u64_le commit ++ u64_le timestamp ++ string_bytes (statements_json statements)).

Definition legacy_wal_checksum (base commit : N) (statements : list string) : N :=
  crc32 (u64_le base ++ u64_le commit
    ++ concat ((λ s, u64_le (N.of_nat (String.length s)) ++ string_bytes s) <$> statements)).

(** [WalRecord::new], with the time it reads. *)
Definition wal_record_new (now base commit : N) (statements : list DurableStatement) : WalRecord :=
  {| wr_format_version := WAL_FORMAT_VERSION; wr_base_version := base; wr_commit_version := commit;
     wr_timestamp_millis := now; wr_statements := statements;
     wr_checksum := wal_checksum base commit now statements |}.

Definition wal_record_valid (r : WalRecord) : bool :=
  bool_decide (wr_format_version r = WAL_FORMAT_VERSION)
  && bool_decide (wr_checksum r = wal_checksum (wr_base_version r) (wr_commit_version r)
       (wr_timestamp_millis r) (wr_statements r)).

Definition legacy_record_valid (r : LegacyWalRecord) : bool :=
  bool_decide (lr_format_version r = 1%N)
  && bool_decide (lr_checksum r =
       legacy_wal_checksum (lr_base_version r) (lr_commit_version r) (lr_statements r)).

(** ** Appending *)

Definition log_line (r : WalRecord) : string := record_to_json r +:+ String newline EmptyString.

Definition append_record (fault : WalFault) (file : string) (r : WalRecord) :
    string * option string :=
  match fault with
  | WalOk => (file +:+ log_line r, None)
  | WalWriteFails n => (file +:+ String.substring 0 n (log_line r), Some "Failed to write WAL: fault")
  | WalSyncFails => (file +:+ log_line r, Some "Failed to sync WAL: fault")
  end.

(** ** Replay *)

Definition is_schema_statement (s : Statement) : bool :=
  match s with
  | CreateTable _ _ _ _ | DropTable _ _ | CreateIndex _ _ _ _ _ | DropIndex _ _ _ | AlterTable _ _ => true
  | _ => false
  end.

Definition with_version (c : Catalog) (version : N) : Catalog := catalog_at version c.
Definition with_schema_version (c : Catalog) (version : N) : Catalog :=
  {| cat_version := cat_version c; cat_schema_version := version; cat_tables := cat_tables c |}.

Definition map_err {A} (prefix : string) (m : outcome A) : outcome A :=
  match m with Err e => Err (prefix +:+ e) | m => m end.

Definition durable_statement (d : DurableStatement) : outcome Statement :=
  match d with
  | DurableSql sql => map_err "Failed to parse WAL statement: " (parse_sql sql)
  | DurableBound s => Ok s
  end.

Context `{StatementDebug}.

Definition replay_statement (c : Catalog) (d : DurableStatement) : outcome Catalog :=
  s ← durable_statement d;
  '(c', result) ← execute_catalog c s;
  match result with
  | RError e => Err ("Failed to replay WAL statement: " +:+ e)
  | _ => Ok (if is_schema_statement s
             then with_schema_version c' (sat_succ (cat_schema_version c')) else c')
  end.

(** One transaction: skipped if the catalog has it already, an error if it
    does not follow the catalog. *)
Definition replay_transaction (c : Catalog) (base commit : N) (statements : list DurableStatement) :
    outcome Catalog :=
  if decide (commit ≤ cat_version c)%N then Ok c
  else if decide (base = cat_version c) then
    c ← foldM replay_statement c statements; Ok (with_version c commit)
  else Err ("WAL version gap: catalog=" +:+ pretty (cat_version c) +:+ ", record base=" +:+ pretty base).

(** A line of the v0.2 format: one SQL statement, errors ignored. *)
Definition replay_sql_line (c : Catalog) (s : Statement) : outcome Catalog :=
  '(c', result) ← execute_catalog c s;
  if is_error result then Ok c'
  else
    let c' := with_version c' (sat_succ (cat_version c')) in
    Ok (if is_schema_statement s
        then with_schema_version c' (sat_succ (cat_schema_version c')) else c').

Fixpoint replay_lines (ls : list string) (c : Catalog) : outcome Catalog :=
  match ls with
  | [] => Ok c
  | line :: ls =>
      if negb (valid_utf8 line) then Err "Failed to read WAL: stream did not contain valid UTF-8"
      else if bool_decide (trim line = EmptyString) then replay_lines ls c
      else
        match record_from_json line with
        | Some r =>
            if wal_record_valid r then
              c ← replay_transaction c (wr_base_version r) (wr_commit_version r) (wr_statements r);
              replay_lines ls c
            else Ok c
        | None =>
            match legacy_from_json line with
            | Some r =>
                if legacy_record_valid r then
                  c ← replay_transaction c (lr_base_version r) (lr_commit_version r)
                        (DurableSql <$> lr_statements r);
                  replay_lines ls c
                else Ok c
            | None =>
                match parse_sql line with
                | Ok s => c ← replay_sql_line c s; replay_lines ls c
                | Err _ => Ok c
                | Panic => Panic
                end
            end
        end
  end.

Definition replay_wal (file : string) (c : Catalog) : outcome Catalog := replay_lines (lines file) c.
End wal.

(** ** Logs as sequences of records *)

Section replay_laws.
Context `{RustStd} `{SqlGrammar} `{LogFormat} `{StatementDebug}.

(** The file a sequence of appended records makes. *)
Definition log_of (rs : list WalRecord) : string := foldr (λ r s, log_line r +:+ s) EmptyString rs.

(** Records this program wrote: valid and expressible. *)
Definition written (r : WalRecord) : Prop := wal_record_valid r = true ∧ json_safe (wr_statements r) = true.

Lemma lines_log rs tail :
  Forall written rs → lines (log_of rs +:+ tail) = (record_to_json <$> rs) ++ lines tail.
Proof.
  induction 1 as [|r rs [Hv Hs] _ IH]; [done|].
  change (log_of (r :: rs)) with (log_line r +:+ log_of rs). unfold log_line.
  rewrite !app_assoc_string. change (String newline "" +:+ (log_of rs +:+ tail)) with
    (String newline (log_of rs +:+ tail)).
  rewrite lines_cons by by apply record_json_line. cbn. by rewrite IH.
Qed.

Definition replay_record (c : Catalog) (r : WalRecord) : outcome Catalog :=
  replay_transaction c (wr_base_version r) (wr_commit_version r) (wr_statements r).

(** Replaying records is replaying their transactions, in order. *)
Lemma replay_records rs ls c :
  Forall written rs →
  replay_lines ((record_to_json <$> rs) ++ ls) c = (c ← foldM replay_record c rs; replay_lines ls c).
Proof.
  intros Hrs. revert c. induction Hrs as [|r rs [Hv Hs] _ IH]; intros c; [done|].
  cbn [fmap list_fmap app replay_lines]. destruct (record_json_line r Hs) as (_ & -> & Hb).
  cbn [negb]. rewrite bool_decide_false by done. rewrite record_json_roundtrip, Hv by done.
  rewrite foldM_cons. change (replay_transaction c (wr_base_version r) (wr_commit_version r) (wr_statements r))
    with (replay_record c r). destruct (replay_record c r); cbn; [apply IH|done|done].
Qed.

Lemma replay_log rs tail c :
  Forall written rs →
  replay_wal (log_of rs +:+ tail) c = (c ← foldM replay_record c rs; replay_wal tail c).
Proof. intros Hrs. unfold replay_wal. rewrite lines_log by done. by apply replay_records. Qed.

(** Records whose versions follow each other. *)
Inductive chained : N → list WalRecord → N → Prop :=
| chained_nil v : chained v [] v
| chained_cons v r rs w :
    wr_base_version r = v → (v < wr_commit_version r)%N → written r →
    chained (wr_commit_version r) rs w → chained v (r :: rs) w.

Lemma chained_written v rs w : chained v rs w → Forall written rs.
Proof. induction 1; constructor; auto. Qed.

Lemma chained_le v rs w : chained v rs w → (v ≤ w)%N ∧ Forall (λ r, wr_commit_version r ≤ w)%N rs.
Proof.
  induction 1 as [|v r rs w Hb Hlt Hw Hc [IH1 IH2]]; [done|].
  split; [lia|]. constructor; [lia|done].
Qed.

(** The transactions of records, without the version checks. *)
Definition apply_record (c : Catalog) (r : WalRecord) : outcome Catalog :=
  c ← foldM replay_statement c (wr_statements r); Ok (with_version c (wr_commit_version r)).

Lemma replay_record_next c r :
  wr_base_version r = cat_version c → (cat_version c < wr_commit_version r)%N →
  replay_record c r = apply_record c r.
Proof.
  intros Hb Hlt. unfold replay_record, replay_transaction. rewrite decide_False by lia.
  by rewrite decide_True.
Qed.

Lemma replay_record_old c r : (wr_commit_version r ≤ cat_version c)%N → replay_record c r = Ok c.
Proof. intros Hle. unfold replay_record, replay_transaction. by rewrite decide_True. Qed.

Lemma apply_record_version c r c' : apply_record c r = Ok c' → cat_version c' = wr_commit_version r.
Proof. intros (c1 & _ & [= <-])%bind_Ok. done. Qed.

Lemma replay_chained v rs w c :
  chained v rs w → cat_version c = v → foldM replay_record c rs = foldM apply_record c rs.
Proof.
  intros Hch. revert c. induction Hch as [v|v r rs w Hb Hlt _ _ IH]; intros c Hv; [done|].
  rewrite !foldM_cons, replay_record_next by lia. apply bind_ext.
  intros c' Hc'%apply_record_version. by apply IH.
Qed.

Lemma replay_old rs c :
  Forall (λ r, wr_commit_version r ≤ cat_version c)%N rs → foldM replay_record c rs = Ok c.
Proof.
  induction 1 as [|r rs Hr _ IH]; [done|]. rewrite foldM_cons, replay_record_old by done. exact IH.
Qed.

Lemma foldM_apply_version rs v w c c' :
  chained v rs w → cat_version c = v → foldM apply_record c rs = Ok c' → cat_version c' = w.
Proof.
  intros Hch. revert c. induction Hch as [v|v r rs w _ _ _ _ IH]; intros c Hv Hf.
  - cbn in Hf. by simplify_eq.
  - rewrite foldM_cons in Hf. apply bind_Ok in Hf as (c1 & Hc1 & Hf).
    by apply (IH c1); [by eapply apply_record_version|].
Qed.

Lemma replay_from_snapshot v0 old new w c :
  chained v0 old (cat_version c) → chained (cat_version c) new w →
  replay_wal (log_of (old ++ new)) c = foldM apply_record c new.
Proof.
  intros Hold Hnew. pose proof (replay_log (old ++ new) EmptyString c) as Hlog.
  rewrite append_empty_r in Hlog. rewrite Hlog.
  - rewrite foldM_app, replay_old by by apply (chained_le _ _ _ Hold).
    cbn [mbind outcome_bind]. rewrite (replay_chained _ _ _ _ Hnew eq_refl).
    by destruct (foldM apply_record c new).
  - apply Forall_app. split; by eapply chained_written.
Qed.

(** A line that no format accepts. *)
Definition torn (line : string) : Prop :=
  no_control line ∧ valid_utf8 line = true ∧ record_from_json line = None ∧
  legacy_from_json line = None ∧ ∃ e, parse_sql line = Err e.

Lemma replay_torn line ls c : torn line → trim line ≠ EmptyString → replay_lines (line :: ls) c = Ok c.
Proof.
  intros (_ & Hu & Hr & Hl & e & Hp) Hb. cbn [replay_lines]. rewrite Hu. cbn [negb].
  by rewrite bool_decide_false, Hr, Hl, Hp.
Qed.

Lemma replay_torn_tail rs tail c :
  Forall written rs → torn tail → replay_wal (log_of rs +:+ tail) c = replay_wal (log_of rs) c.
Proof.
  intros Hrs Ht. rewrite replay_log by done.
  pose proof (replay_log rs EmptyString c Hrs) as Hlog. rewrite append_empty_r in Hlog. rewrite Hlog.
  apply bind_ext. intros c' _. unfold replay_wal. rewrite lines_last by apply Ht.
  case_bool_decide as He; [by subst|]. destruct (decide (trim tail = EmptyString)) as [Hb|Hb].
  - cbn. rewrite (proj1 (proj2 Ht)). cbn. by rewrite bool_decide_true.
  - by rewrite replay_torn.
Qed.

(** *** Records of which only a part was written *)

Context `{!BraceRefused}.

Lemma record_start_ascii r n : written r → ascii_begin 20 (String.substring 0 n (record_to_json r)).
Proof.
  intros [Hv Hs]. destruct (record_json_start r Hs) as [s Heq].
  { unfold wal_record_valid in Hv. by apply andb_true_iff in Hv as [Hv%bool_decide_eq_true _]. }
  apply (ascii_begin_prefix _ _ (String.substring n (String.length (record_to_json r) - n) (record_to_json r))).
  rewrite substring_split, Heq. intros i c Hi Hc.
  rewrite get_append_l in Hc by exact Hi. do 20 (destruct i as [|i]; [injection Hc as <-; vm_compute; done|]). lia.
Qed.

(** The beginning of a record, up to the end of a character, is read by nothing. *)
Lemma cut_torn r n :
  written r → n < String.length (record_to_json r) →
  let tail := String.substring 0 n (record_to_json r) in valid_utf8 tail = true → torn tail.
Proof.
  intros Hw Hn tail Hu. pose proof Hw as [_ Hs]. destruct (record_json_prefix r n Hs Hn) as [Hr Hl].
  destruct (record_json_line r Hs) as (Hc & _ & _).
  split_and!; [by apply no_control_substring|done..|].
  destruct n as [|n].
  { exists "Empty statement". unfold tail. by destruct (record_to_json r). }
  pose proof (record_start_ascii r (S n) Hw) as Ha. fold tail in Ha.
  assert (∃ s, tail = String "{" s) as [s Heq].
  { unfold tail. destruct (record_json_start r Hs) as [s ->]; [|by eexists].
    destruct Hw as [Hv _]. unfold wal_record_valid in Hv. by apply andb_true_iff in Hv as [Hv%bool_decide_eq_true _]. }
  rewrite Heq in Ha |- *. by apply parse_sql_brace.
Qed.

(** What recovery makes of a log whose last record was cut after [n] bytes:
    without the end of its line alone the record is read, otherwise it is
    ignored, unless the cut lies inside a character. *)
Lemma replay_cut_record rs r n c :
  Forall written rs → written r → n < String.length (log_line r) →
  replay_wal (log_of rs +:+ String.substring 0 n (log_line r)) c =
    if bool_decide (n = String.length (record_to_json r)) then replay_wal (log_of (rs ++ [r])) c
    else if valid_utf8 (String.substring 0 n (record_to_json r)) then replay_wal (log_of rs) c
    else _ ← replay_wal (log_of rs) c; Err "Failed to read WAL: stream did not contain valid UTF-8".
Proof.
  intros Hrs Hr Hn. unfold log_line in Hn. rewrite append_length in Hn. cbn [String.length] in Hn.
  unfold log_line. rewrite substring_short by lia. case_bool_decide as Hfull.
  - subst n. rewrite substring_whole by done. pose proof Hr as [Hv Hs]. destruct (record_json_line r Hs) as (Hc & Hu & Hb).
    rewrite <-(append_empty_r (log_of (rs ++ [r]))), !replay_log by (done || (apply Forall_app; by split; [|constructor])).
    rewrite foldM_app. destruct (foldM replay_record c rs) as [c1| |]; cbn [mbind outcome_bind]; [|done..].
    unfold replay_wal. rewrite lines_last, bool_decide_false by (done || (intros He; by rewrite He in Hb)).
    pose proof (replay_records [r] [] c1 ltac:(by constructor)) as Hone. exact Hone.
  - destruct (valid_utf8 _) eqn:Hu.
    + apply replay_torn_tail; [done|]. apply cut_torn; [done|lia|done].
    + rewrite replay_log by done. pose proof (replay_log rs EmptyString c Hrs) as Hlog.
      rewrite append_empty_r in Hlog. rewrite Hlog.
      destruct (foldM replay_record c rs) as [c1| |]; cbn [mbind outcome_bind]; [|done..].
      unfold replay_wal. destruct Hr as [_ Hs]. destruct (record_json_line r Hs) as (Hc & _).
      rewrite lines_last by by apply no_control_substring. case_bool_decide as He; [by rewrite He in Hu|].
      cbn. by rewrite Hu.
Qed.
End replay_laws.

(** ** Properties *)

Section properties.
Context `{RustStd} `{SqlGrammar} `{LogFormat} `{StatementDebug}.

(** C14. Recovery resumes after the snapshot: on the log of a sequence of commits
    whose versions follow each other, opening with a catalog at any of those
    versions replays exactly the later transactions, in order and never with a
    version gap, and ends at the last commit's version. *)
Theorem replay_resumes_after_snapshot v0 old new w c :
  chained v0 old (cat_version c) → chained (cat_version c) new w →
  replay_wal (log_of (old ++ new)) c = foldM apply_record c new ∧
  ∀ c', replay_wal (log_of (old ++ new)) c = Ok c' → cat_version c' = w.
Proof.
  intros Hold Hnew.
  pose proof (replay_from_snapshot v0 old new w c Hold Hnew) as Heq.
  split; [exact Heq|]. intros c' Hc'. rewrite Heq in Hc'.
  by eapply foldM_apply_version.
Qed.

(** C19. A record of which a crash wrote only a part, at any byte of its line,
    never corrupts what recovery restores: if just the end of the line is
    missing the record is replayed, otherwise the log means what its complete
    records mean; the exception is a cut inside a character, which recovery
    reports as an error. *)
Theorem cut_record_recovery `{!BraceRefused} rs r n c :
  Forall written rs → written r → n < String.length (log_line r) →
  replay_wal (log_of rs +:+ String.substring 0 n (log_line r)) c =
    if bool_decide (n = String.length (record_to_json r)) then replay_wal (log_of (rs ++ [r])) c
    else if valid_utf8 (String.substring 0 n (record_to_json r)) then replay_wal (log_of rs) c
    else _ ← replay_wal (log_of rs) c; Err "Failed to read WAL: stream did not contain valid UTF-8".
Proof. apply replay_cut_record. Qed.

(** But the tail is not removed: the first commit after the recovery is
    appended to the torn line, and the next recovery stops there, losing that
    commit and every later one although all were synced. *)
Theorem torn_tail_swallows_commits rs tail r rs' c :
  Forall written (rs ++ r :: rs') → no_control tail →
  torn (tail +:+ record_to_json r) → trim (tail +:+ record_to_json r) ≠ EmptyString →
  replay_wal (log_of rs +:+ tail +:+ log_of (r :: rs')) c = replay_wal (log_of rs) c.
Proof.
  intros [Hrs [Hr _]%Forall_cons]%Forall_app Ht Htorn Hb. rewrite replay_log by done.
  pose proof (replay_log rs EmptyString c Hrs) as Hlog. rewrite append_empty_r in Hlog. rewrite Hlog.
  apply bind_ext. intros c' _. unfold replay_wal.
  change (log_of (r :: rs')) with (log_line r +:+ log_of rs'). unfold log_line.
  rewrite app_assoc_string, <-app_assoc_string.
  change (String newline "" +:+ log_of rs') with (String newline (log_of rs')).
  rewrite lines_cons by apply Htorn. by rewrite replay_torn.
Qed.

(** A tail cut inside a character is not ignored: opening fails. *)
Theorem torn_character_blocks_open rs tail c c' :
  Forall written rs → no_control tail → valid_utf8 tail = false →
  replay_wal (log_of rs) c = Ok c' →
  replay_wal (log_of rs +:+ tail) c = Err "Failed to read WAL: stream did not contain valid UTF-8".
Proof.
  intros Hrs Ht Hu Hc. rewrite replay_log by done.
  pose proof (replay_log rs EmptyString c Hrs) as Hlog. rewrite append_empty_r in Hlog.
  rewrite Hlog in Hc. apply bind_Ok in Hc as (c1 & -> & _). cbn [mbind outcome_bind].
  unfold replay_wal. rewrite lines_last by done. rewrite bool_decide_false by (intros ->; done).
  cbn. by rewrite Hu.
Qed.

(** A commit whose sync failed shadows the next one: the failed record is in
    the file, the catalog still has its base version, so the next commit is
    logged with the same versions, and recovery applies the transaction that
    was reported as failed and skips the one that was reported as committed. *)
Theorem failed_sync_shadows_next_commit rs r r' c :
  Forall written (rs ++ [r; r']) → wr_base_version r' = wr_base_version r →
  wr_commit_version r' = wr_commit_version r →
  replay_wal (fst (append_record WalOk (fst (append_record WalSyncFails (log_of rs) r)) r')) c =
  replay_wal (fst (append_record WalOk (log_of rs) r)) c.
Proof.
  intros Hw Hb Hc. cbn [fst append_record].
  apply Forall_app in Hw as [Hrs Hrr].
  assert (Forall written [r]) as Hr by (apply Forall_cons in Hrr as [? _]; by constructor).
  assert (∀ r, log_line r = log_of [r]) as Hone by (intros x; exact (eq_sym (append_empty_r (log_line x)))).
  rewrite app_assoc_string, (Hone r').
  change (log_line r +:+ log_of [r']) with (log_of [r; r']).
  rewrite (Hone r), <-(append_empty_r (log_of [r; r'])), <-(append_empty_r (log_of [r])).
  rewrite !replay_log by done. apply bind_ext. intros c1 _.
  rewrite !replay_log by done. rewrite !foldM_cons.
  destruct (replay_record c1 r) as [c2| |] eqn:Hrec; cbn [mbind outcome_bind foldM]; [|done..].
  rewrite (replay_record_old c2 r'); [done|]. rewrite Hc.
  unfold replay_record, replay_transaction in Hrec. case_decide as Hle; [by simplify_eq|].
  case_decide; [|done]. apply bind_Ok in Hrec as (c3 & _ & [= <-]). cbn. lia.
Qed.
End properties.

(** *** A concrete log format and grammar, for the witnesses *)

Section concrete_log.
#[local] Existing Instance concrete_std.

Definition all_sql (ds : list DurableStatement) : option (list string) :=
  mapM (λ d, match d with DurableSql s => Some s | DurableBound _ => None end) ds.

Lemma all_sql_Some ds l : all_sql ds = Some l → ds = DurableSql <$> l.
Proof.
  unfold all_sql. rewrite mapM_Some. induction 1 as [|d s ds l Hd _ IH]; [done|].
  destruct d; simplify_eq. cbn. by f_equal.
Qed.

Definition fields : Type := N * N * N * N * list string * N.
Definition concrete_to_json (r : WalRecord) : string :=
  match all_sql (wr_statements r) with
  | Some l => coded (A := fields) record_start (wr_format_version r, wr_base_version r, wr_commit_version r,
        wr_timestamp_millis r, l, wr_checksum r)
  | None => "X"
  end.
Definition concrete_from_json (s : string) : option WalRecord :=
  '(version, base, commit, time, l, checksum) ← decoded (A := fields) record_start s;
  Some {| wr_format_version := version; wr_base_version := base; wr_commit_version := commit;
          wr_timestamp_millis := time; wr_statements := DurableSql <$> l; wr_checksum := checksum |}.

Lemma concrete_roundtrip r :
  bool_decide (is_Some (all_sql (wr_statements r))) = true →
  concrete_from_json (concrete_to_json r) = Some r.
Proof.
  intros [l Hl]%bool_decide_eq_true. unfold concrete_to_json. rewrite Hl. unfold concrete_from_json.
  rewrite decoded_coded. cbn. apply all_sql_Some in Hl. rewrite <-Hl. by destruct r.
Qed.

Lemma concrete_line r :
  bool_decide (is_Some (all_sql (wr_statements r))) = true →
  no_control (concrete_to_json r) ∧ valid_utf8 (concrete_to_json r) = true ∧
  trim (concrete_to_json r) ≠ EmptyString.
Proof. intros [l Hl]%bool_decide_eq_true. unfold concrete_to_json. rewrite Hl. by apply coded_line. Qed.

Lemma concrete_start r :
  bool_decide (is_Some (all_sql (wr_statements r))) = true → wr_format_version r = 2%N →
  ∃ s, concrete_to_json r = record_start +:+ s.
Proof. intros [l Hl]%bool_decide_eq_true _. unfold concrete_to_json. rewrite Hl. apply coded_tag. Qed.

Lemma concrete_prefix r n :
  bool_decide (is_Some (all_sql (wr_statements r))) = true → n < String.length (concrete_to_json r) →
  concrete_from_json (String.substring 0 n (concrete_to_json r)) = None ∧ None = @None LegacyWalRecord.
Proof.
  intros [l Hl]%bool_decide_eq_true. unfold concrete_to_json. rewrite Hl. intros Hn. split; [|done].
  unfold concrete_from_json. by rewrite decoded_prefix.
Qed.

Definition concrete_log : LogFormat :=
  {| crc32 := λ bytes, Z.to_N (foldr Z.add 0 bytes mod 2 ^ 32)%Z;
     statements_json := λ ds, join_with ";" (default [] (all_sql ds));
     record_to_json := concrete_to_json;
     record_from_json := concrete_from_json;
     legacy_from_json := λ _, None;
     json_safe := λ ds, bool_decide (is_Some (all_sql ds));
     record_json_roundtrip := concrete_roundtrip;
     record_json_line := concrete_line;
     record_json_start := concrete_start;
     record_json_prefix := concrete_prefix |}.

(** [DELETE FROM t WHERE NOT (FALSE AND NULL)], [SELECT id + ? AS n, v FROM t
    WHERE id = ?], and a grammar of a few statements. *)
Definition delete_unless_null : Statement :=
  Delete "t" (Some (EUnary UNot (EBinary (ELiteral (VBoolean false)) OpAnd (ELiteral VNull)))).
Definition select_shifted : Statement :=
  SelectQuery (mkQuery [] false
    [SExpr (EBinary (EColumn None "id") OpAdd (EParameter u64_max)) (Some "n"); SExpr (EColumn None "v") None]
    (Some (SrcTable "t" None)) []
    (Some (EBinary (EColumn None "id") (OpCompare CmpEqual) (EParameter u64_max))) [] None [] None).
Definition concrete_grammar : SqlGrammar := {|
  sql_parse := λ sql,
    if bool_decide (sql = "CREATE t") then Ok [sql_of_statement create_t]
    else if bool_decide (sql = "INSERT 3") then Ok [sql_of_statement insert_three]
    else if bool_decide (sql = "INSERT 4") then
      Ok [sql_of_statement
            (Insert "t" None (InsertValues [[ELiteral (VInteger 4); ELiteral (VText "d")]]) [])]
    else if bool_decide (sql = "DELETE") then Ok [sql_of_statement delete_unless_null]
    else if bool_decide (sql = "SELECT") then Ok [sql_of_statement select_shifted]
    else if bool_decide (sql = "ALTER") then Ok [sql_of_statement (AlterTable "t" [SetDataType "id" TFloat])]
    else if bool_decide (sql = "BEGIN") then Ok [sql_of_statement Begin]
    else Err "syntax error";
  sql_expr_display := λ _, "expression";
  sql_value_display := λ _, "value";
  sql_statement_display := λ _, "statement" |}.
#[export] Instance concrete_brace : BraceRefused (H := concrete_grammar).
Proof. intros s. by exists "syntax error". Qed.

#[local] Existing Instance concrete_log.
#[local] Existing Instance concrete_grammar.
#[local] Instance debug_none : StatementDebug := λ _, "statement".

Definition record (base : N) (sql : string) : WalRecord :=
  wal_record_new 1000 base (N.succ base) [DurableSql sql].

Lemma record_written base sql : written (record base sql).
Proof. split; [|done]. unfold wal_record_valid. cbn. by rewrite !bool_decide_true. Qed.

Lemma record_chained base sqls w :
  w = (base + N.of_nat (length sqls))%N →
  chained base (imap (λ i sql, record (base + N.of_nat i)%N sql) sqls) w.
Proof.
  intros ->. revert base. induction sqls as [|sql sqls IH]; intros base.
  - cbn. rewrite N.add_0_r. constructor.
  - rewrite imap_cons. constructor; [cbn; lia|cbn; lia|apply record_written|]. cbn.
    specialize (IH (N.succ (base + 0))).
    replace (N.succ (base + 0) + N.of_nat (length sqls))%N
      with (base + N.pos (Pos.of_succ_nat (length sqls)))%N in IH by lia.
    erewrite imap_ext; [exact IH|]. intros i x _. cbn. f_equal. lia.
Qed.

Definition rows_at (name : string) (m : outcome Catalog) : option (list Row) :=
  match m with Ok c => tb_rows <$> cat_tables c !! name | _ => None end.

Definition created : WalRecord := record 0 "CREATE t".
Definition inserts : list WalRecord := [record 1 "INSERT 3"; record 2 "INSERT 4"].
(** The catalog of a snapshot taken after the first commit. *)
Definition after_create : Catalog :=
  match apply_record catalog_default created with Ok c => c | _ => catalog_default end.
Definition both_rows : list Row := [[VInteger 3; VText "c"]; [VInteger 4; VText "d"]].

Lemma created_chained : chained 0 [created] (cat_version after_create).
Proof.
  replace (cat_version after_create) with 1%N by (vm_compute; reflexivity).
  by apply (record_chained 0 ["CREATE t"]).
Qed.
Lemma inserts_chained : chained (cat_version after_create) inserts 3.
Proof.
  replace (cat_version after_create) with 1%N by (vm_compute; reflexivity).
  by apply (record_chained 1 ["INSERT 3"; "INSERT 4"]).
Qed.

Lemma replay_resumes_after_snapshot_witness :
  rows_at "t" (replay_wal (log_of ([created] ++ inserts)) after_create) = Some both_rows.
Proof.
  destruct (replay_resumes_after_snapshot 0 [created] inserts 3 after_create) as [-> _].
  - apply created_chained.
  - apply inserts_chained.
  - vm_compute. reflexivity.
Defined.

Lemma records_written : Forall written (created :: inserts).
Proof. repeat (constructor; [apply record_written|]). constructor. Qed.

(** The beginning of a record's line. *)
Definition torn_line : string := String.substring 0 9 (log_line created).

Lemma torn_line_torn : torn torn_line.
Proof.
  split_and!; [|vm_compute; reflexivity..|exists "syntax error"; vm_compute; reflexivity].
  replace torn_line with (of_chars (chars torn_line)) by (vm_compute; reflexivity).
  vm_compute. repeat constructor; intros [=].
Qed.

Lemma cut_record_recovery_witness :
  rows_at "t" (replay_wal (log_of (created :: inserts) +:+ torn_line) catalog_default) = Some both_rows ∧
  rows_at "t" (replay_wal (log_of [created] +:+ record_to_json (record 1 "INSERT 3")) catalog_default)
    = Some [[VInteger 3; VText "c"]].
Proof.
  split.
  - unfold torn_line. rewrite (cut_record_recovery (created :: inserts) created 9 catalog_default).
    + vm_compute. reflexivity.
    + apply records_written.
    + apply record_written.
    + apply Nat.ltb_lt. vm_compute. reflexivity.
  - set (r := record 1 "INSERT 3"). set (n := String.length (record_to_json r)).
    assert (record_to_json r = String.substring 0 n (log_line r)) as ->.
    { unfold n, log_line. by rewrite substring_short, substring_whole. }
    rewrite (cut_record_recovery [created] r n catalog_default).
    + rewrite bool_decide_true by done. vm_compute. reflexivity.
    + constructor; [apply record_written|constructor].
    + apply record_written.
    + unfold n, log_line. rewrite append_length. cbn. lia.
Defined.

(** A crash tears the first insertion's record, the second is committed after
    the recovery and lost. *)
Lemma torn_tail_swallows_commits_witness :
  rows_at "t" (replay_wal (log_of [created] +:+ torn_line +:+ log_of [record 1 "INSERT 4"])
    catalog_default) = Some [].
Proof.
  rewrite (torn_tail_swallows_commits [created] torn_line (record 1 "INSERT 4") [] catalog_default).
  - vm_compute. reflexivity.
  - repeat (constructor; [apply record_written|]). constructor.
  - apply torn_line_torn.
  - assert (no_control (torn_line +:+ record_to_json (record 1 "INSERT 4"))) as Hn.
    { unfold no_control. rewrite list_ascii_app. apply Forall_app. split; [apply torn_line_torn|].
      by apply concrete_line. }
    split_and!; [exact Hn|vm_compute; reflexivity..|exists "syntax error"; vm_compute; reflexivity].
  - vm_compute. discriminate.
Defined.

Lemma failed_sync_shadows_next_commit_witness :
  rows_at "t" (replay_wal (fst (append_record WalOk (fst (append_record WalSyncFails
    (log_of [created]) (record 1 "INSERT 3"))) (record 1 "INSERT 4"))) catalog_default)
  = Some [[VInteger 3; VText "c"]].
Proof.
  rewrite (failed_sync_shadows_next_commit [created] (record 1 "INSERT 3") (record 1 "INSERT 4")).
  - vm_compute. reflexivity.
  - repeat (constructor; [apply record_written|]). constructor.
  - reflexivity.
  - reflexivity.
Defined.
End concrete_log.
