(* ===== verification/Database.v ===== *)
(** * Database.v: the database, its plan cache and its sessions
    (src/sql/database.rs, 168-416, 527-632, 665-1094)

    A database shares a catalog, a plan cache, a write-ahead log and a
    snapshot; sessions run statements against it, in autocommit mode or in
    optimistic transactions.  Every call is a function on the database and the
    session, performed under the locks it takes; [Env] is what a call meets
    outside the program: the clock and the faults of the disk. *)

From Stdlib Require Import Ascii.
From S2P Require Import Prelude Machine Float64 Like Types Concrete Keys Table Eval Queries.
From S2P Require Import Statement Planner Validate Ddl Execute Integrity Params Str Log SqlAst Parser Wal.

(** ** The plan cache *)

Record PlanCacheEntry := {
  pe_schema_version : N;
  pe_statement : Statement;
  pe_last_used : N;
}.

Record PlanCache := {
  pc_capacity : nat;
  pc_clock : N;
  pc_entries : gmap string PlanCacheEntry;
}.

Definition cache_new (capacity : nat) : PlanCache :=
  {| pc_capacity := capacity; pc_clock := 0; pc_entries := ∅ |}.

Definition cache_get (cache : PlanCache) (sql : string) (version : N) :
    PlanCache * option Statement :=
  let clock := sat_succ (pc_clock cache) in
  let with_entries entries :=
    {| pc_capacity := pc_capacity cache; pc_clock := clock; pc_entries := entries |} in
  match pc_entries cache !! sql with
  | None => (with_entries (pc_entries cache), None)
  | Some e =>
      if decide (pe_schema_version e = version) then
        (with_entries (<[sql := {| pe_schema_version := pe_schema_version e;
           pe_statement := pe_statement e; pe_last_used := clock |}]> (pc_entries cache)),
         Some (pe_statement e))
      else (with_entries (delete sql (pc_entries cache)), None)
  end.

Section cache.
Context `{RustStd}.

(** [iter().min_by_key(last_used)]: the first of the least recently used. *)
Definition oldest_entry (entries : gmap string PlanCacheEntry) : option string :=
  fst <$> foldl (λ best (ke : string * PlanCacheEntry),
    match best with
    | Some (_, used) => if decide (pe_last_used ke.2 < used)%N then Some (ke.1, pe_last_used ke.2) else best
    | None => Some (ke.1, pe_last_used ke.2)
    end) None (hm_iter entries).

Definition cache_insert (cache : PlanCache) (sql : string) (version : N) (s : Statement) : PlanCache :=
  if decide (pc_capacity cache = 0) then cache
  else
    let clock := sat_succ (pc_clock cache) in
    let entries :=
      if decide (pc_capacity cache ≤ size (pc_entries cache) ∧ pc_entries cache !! sql = None) then
        match oldest_entry (pc_entries cache) with
        | Some oldest => delete oldest (pc_entries cache)
        | None => pc_entries cache
        end
      else pc_entries cache in
    {| pc_capacity := pc_capacity cache; pc_clock := clock;
       pc_entries := <[sql := {| pe_schema_version := version; pe_statement := s;
                                 pe_last_used := clock |}]> entries |}.

Definition cache_clear (cache : PlanCache) : PlanCache :=
  {| pc_capacity := pc_capacity cache; pc_clock := pc_clock cache; pc_entries := ∅ |}.
End cache.

(** ** Files and options *)

Record SQLDatabaseOptions := {
  plan_cache_capacity : nat;
  memory_pool_capacity : nat;
  bloom_false_positive_rate : f64;
}.

Record CatalogSnapshot := {
  sn_format_version : N;
  sn_catalog_version : N;
  sn_schema_version : N;
  sn_timestamp_millis : N;
  sn_tables : gmap string Table;
}.

(** The data directory: [catalog.json], [sql_wal.log], the archived logs and
    the files of the [tables] directory of v0.2. *)
Record Disk := {
  disk_catalog : option string;
  disk_wal : option string;
  disk_archive : list string;
  disk_tables : list string;
}.

(** serde_json on snapshots: tables are written without their runtime indexes
    and read back with none. *)
Class SnapshotFormat := {
  snapshot_to_json : CatalogSnapshot → string;
  snapshot_from_json : string → option CatalogSnapshot;
  legacy_table_from_json : string → option (TableSchema * list Row);
}.

(** How far [save] gets: it may fail before the new snapshot replaces the old
    one, or after, while the log is being archived. *)
Inductive SaveFault := SaveOk | SaveBeforePublish | SaveAfterPublish.

Record Env := { env_now : N; env_wal_fault : WalFault; env_save_fault : SaveFault }.

Record Db := {
  db_catalog : Catalog;
  db_options : SQLDatabaseOptions;
  db_auto_save : bool;
  db_wal_open : bool;
  db_cache : PlanCache;
  db_disk : Disk;
}.

Definition CATALOG_FORMAT_VERSION : N := 1.

Definition with_catalog (d : Db) (c : Catalog) : Db :=
  {| db_catalog := c; db_options := db_options d; db_auto_save := db_auto_save d;
     db_wal_open := db_wal_open d; db_cache := db_cache d; db_disk := db_disk d |}.
Definition with_cache (d : Db) (cache : PlanCache) : Db :=
  {| db_catalog := db_catalog d; db_options := db_options d; db_auto_save := db_auto_save d;
     db_wal_open := db_wal_open d; db_cache := cache; db_disk := db_disk d |}.
Definition with_disk (d : Db) (disk : Disk) (wal_open : bool) : Db :=
  {| db_catalog := db_catalog d; db_options := db_options d; db_auto_save := db_auto_save d;
     db_wal_open := wal_open; db_cache := db_cache d; db_disk := disk |}.
Definition with_wal (disk : Disk) (wal : option string) : Disk :=
  {| disk_catalog := disk_catalog disk; disk_wal := wal; disk_archive := disk_archive disk;
     disk_tables := disk_tables disk |}.
Definition empty_disk : Disk :=
  {| disk_catalog := None; disk_wal := None; disk_archive := []; disk_tables := [] |}.

Section database.
Context `{RustStd} `{SqlGrammar} `{LogFormat} `{StatementDebug} `{SnapshotFormat}.

(** ** What the database answers without executing a statement *)

(** The names in order. *)
Definition list_tables (d : Db) : list string :=
  sort_strings (hm_keys (cat_tables (db_catalog d))).
Definition table_row_count (d : Db) (table_name : string) : option nat :=
  length ∘ tb_rows <$> cat_tables (db_catalog d) !! to_ascii_lowercase table_name.
Definition current_version (d : Db) : N := cat_version (db_catalog d).

(** [SQLDatabase::with_options]: in memory only. *)
Definition database_new (options : SQLDatabaseOptions) : Db :=
  {| db_catalog := configure_bloom_false_positive_rate catalog_default
       (bloom_false_positive_rate options);
     db_options := options; db_auto_save := false; db_wal_open := false;
     db_cache := cache_new (plan_cache_capacity options); db_disk := empty_disk |}.

(** ** Opening *)

Definition legacy_table (file : string) : outcome (string * Table) :=
  p ← ok_or (legacy_table_from_json file) "Failed to parse legacy table";
  let '(s, rows) := p : TableSchema * list Row in
  let t := table_new s in
  Ok (schema_name s, migrate_legacy_rows (with_rows t rows (tb_row_ids t))).

Definition load_catalog (disk : Disk) : outcome Catalog :=
  match disk_catalog disk with
  | Some content =>
      snapshot ← ok_or (snapshot_from_json content) "Failed to parse catalog";
      if decide (sn_format_version snapshot = CATALOG_FORMAT_VERSION) then
        Ok {| cat_version := sn_catalog_version snapshot;
              cat_schema_version := sn_schema_version snapshot;
              cat_tables := cat_tables (from_tables (sn_tables snapshot)) |}
      else Err ("Unsupported catalog format " +:+ pretty (sn_format_version snapshot))
  | None =>
      tables ← mapM legacy_table (disk_tables disk);
      Ok (from_tables (foldl (λ m '(name, t), <[name := t]> m) ∅ tables))
  end.

Definition open_with_options (disk : Disk) (options : SQLDatabaseOptions) : outcome Db :=
  c ← load_catalog disk;
  c ← match disk_wal disk with Some file => replay_wal file c | None => Ok c end;
  Ok {| db_catalog := configure_bloom_false_positive_rate c (bloom_false_positive_rate options);
        db_options := options; db_auto_save := true; db_wal_open := true;
        db_cache := cache_new (plan_cache_capacity options);
        db_disk := with_wal disk (Some (default EmptyString (disk_wal disk))) |}.

(** ** Parsing through the cache *)

(** Parsing and optimising from scratch. *)
Definition prepare_statement (sql : string) : outcome Statement :=
  s ← parse_sql sql; optimize_statement s.

Definition parse_cached (d : Db) (sql : string) : Db * outcome Statement :=
  let normalized := normalize sql in
  let version := cat_schema_version (db_catalog d) in
  let '(cache, hit) := cache_get (db_cache d) normalized version in
  let d := with_cache d cache in
  match hit with
  | Some s => (d, Ok s)
  | None =>
      match prepare_statement normalized with
      | Ok s => (with_cache d (cache_insert cache normalized version s), Ok s)
      | m => (d, m)
      end
  end.

(** ** The log and the snapshot *)

(** [log_transaction]; without an open file nothing is logged. *)
Definition log_transaction (d : Db) (env : Env) (base commit : N)
    (statements : list DurableStatement) : Db * option string :=
  if db_wal_open d then
    let '(file, error) := append_record (env_wal_fault env) (default EmptyString (disk_wal (db_disk d)))
      (wal_record_new (env_now env) base commit statements) in
    (with_disk d (with_wal (db_disk d) (Some file)) true, error)
  else (d, None).

Definition snapshot_of (now : N) (c : Catalog) : CatalogSnapshot :=
  {| sn_format_version := CATALOG_FORMAT_VERSION; sn_catalog_version := cat_version c;
     sn_schema_version := cat_schema_version c; sn_timestamp_millis := now;
     sn_tables := cat_tables c |}.

(** [save]: publish the snapshot, then archive the log and start a new one.
    The handle is dropped first, so a failure there leaves no log open. *)
Definition save (d : Db) (env : Env) : Db * option string :=
  if db_auto_save d then
    let published := {| disk_catalog := Some (snapshot_to_json (snapshot_of (env_now env) (db_catalog d)));
                        disk_wal := disk_wal (db_disk d); disk_archive := disk_archive (db_disk d);
                        disk_tables := disk_tables (db_disk d) |} in
    match env_save_fault env with
    | SaveBeforePublish => (d, Some "Failed to publish catalog snapshot: fault")
    | SaveAfterPublish =>
        if db_wal_open d then (with_disk d published false, Some "Failed to archive SQL WAL: fault")
        else (with_disk d published false, None)
    | SaveOk =>
        if db_wal_open d then
          let file := default EmptyString (disk_wal published) in
          (with_disk d {| disk_catalog := disk_catalog published; disk_wal := Some EmptyString;
             disk_archive := if bool_decide (file = EmptyString) then disk_archive published
                             else disk_archive published ++ [file];
             disk_tables := disk_tables published |} true, None)
        else (with_disk d published false, None)
    end
  else (d, None).

(** ** Autocommit *)

Definition execute_autocommit_durable (d : Db) (env : Env) (durable : DurableStatement)
    (s : Statement) : outcome (Db * ExecutionResult) :=
  let c := db_catalog d in
  if negb (is_write_statement s) then
    '(_, result) ← execute_catalog c s; Ok (d, result)
  else
    '(working, result) ← execute_catalog c s;
    if is_error result then Ok (d, result)
    else
      let working := configure_bloom_false_positive_rate working
        (bloom_false_positive_rate (db_options d)) in
      let working := if is_schema_statement s
                     then with_schema_version working (sat_succ (cat_schema_version c)) else working in
      let working := with_version working (sat_succ (cat_version c)) in
      let '(d, error) := log_transaction d env (cat_version c) (cat_version working) [durable] in
      match error with
      | Some e => Ok (d, RError ("WAL error: " +:+ e))
      | None =>
          let d := with_catalog d working in
          if is_schema_statement s && db_auto_save d then
            let '(d, error) := save d env in
            Ok (d, match error with
                   | Some e => RError ("Statement committed but snapshot failed: " +:+ e)
                   | None => result
                   end)
          else Ok (d, result)
      end.

Definition execute_autocommit (d : Db) (env : Env) (sql : string) (s : Statement) :
    outcome (Db * ExecutionResult) :=
  execute_autocommit_durable d env (DurableSql (trim sql)) s.

Definition is_session_statement (s : Statement) : bool :=
  match s with
  | SetVariable _ _ | Prepare _ _ | ExecutePrepared _ _ | DeallocatePrepared _ => true
  | _ => false
  end.

(** An [Err] of a callee becomes an error result. *)
Definition on_error {A R} (m : outcome A) (error : string → R) (k : A → outcome R) : outcome R :=
  match m with Ok a => k a | Err e => Ok (error e) | Panic => Panic end.

(** [SQLDatabase::execute]. *)
Definition database_execute (d : Db) (env : Env) (sql : string) : outcome (Db * ExecutionResult) :=
  let '(d, parsed) := parse_cached d sql in
  on_error parsed (λ e, (d, RError e)) (λ s,
    if is_transaction_control s then
      Ok (d, RError "BEGIN/COMMIT/ROLLBACK require SQLDatabase::session()")
    else if is_session_statement s then
      Ok (d, RError "Prepared statements and user variables require SQLDatabase::session()")
    else execute_autocommit d env sql s).
End database.

(** ** Sessions *)

Record TransactionState := {
  tx_base_version : N;
  tx_catalog : Catalog;
  tx_statements : list DurableStatement;
  tx_schema_changed : bool;
}.

Record PreparedStatement := {
  ps_sql : string;
  ps_statement : Statement;
  ps_parameter_count : N;
  ps_schema_version : N;
}.

Record SQLSession := {
  s_transaction : option TransactionState;
  s_variables : gmap string Value;
  s_prepared : gmap string PreparedStatement;
}.

Definition session_new : SQLSession :=
  {| s_transaction := None; s_variables := ∅; s_prepared := ∅ |}.
Definition with_transaction (s : SQLSession) (t : option TransactionState) : SQLSession :=
  {| s_transaction := t; s_variables := s_variables s; s_prepared := s_prepared s |}.
Definition with_variables (s : SQLSession) (v : gmap string Value) : SQLSession :=
  {| s_transaction := s_transaction s; s_variables := v; s_prepared := s_prepared s |}.
Definition with_prepared (s : SQLSession) (p : gmap string PreparedStatement) : SQLSession :=
  {| s_transaction := s_transaction s; s_variables := s_variables s; s_prepared := p |}.

(** Whether a session has an open transaction. *)
Inductive SessionTransactionState := Autocommit | Active.
#[export] Instance SessionTransactionState_eq_dec : EqDecision SessionTransactionState.
Proof. solve_decision. Defined.
Definition transaction_state (s : SQLSession) : SessionTransactionState :=
  match s_transaction s with Some _ => Active | None => Autocommit end.
Definition is_in_transaction (s : SQLSession) : bool := bool_decide (transaction_state s = Active).

Section sessions.
Context `{RustStd} `{SqlGrammar} `{LogFormat} `{StatementDebug} `{SnapshotFormat}.

(** What a session call leaves: the database, the session, the result. *)
Abbreviation SessionOutcome := (outcome (Db * SQLSession * ExecutionResult)).

Definition begin (d : Db) (s : SQLSession) : Db * SQLSession * ExecutionResult :=
  match s_transaction s with
  | Some _ => (d, s, RError "A transaction is already active")
  | None =>
      let c := db_catalog d in
      (d, with_transaction s (Some {| tx_base_version := cat_version c; tx_catalog := c;
                                      tx_statements := []; tx_schema_changed := false |}),
       RTransactionStarted)
  end.

Definition rollback (d : Db) (s : SQLSession) : Db * SQLSession * ExecutionResult :=
  (d, with_transaction s None, RTransactionRolledBack).

(** The catalog a transaction commits. *)
Definition committed_catalog (d : Db) (t : TransactionState) : Catalog :=
  let c := db_catalog d in
  let working := configure_bloom_false_positive_rate (tx_catalog t)
    (bloom_false_positive_rate (db_options d)) in
  with_version (with_schema_version working
    (if tx_schema_changed t then sat_succ (cat_schema_version c) else cat_schema_version c))
    (sat_succ (cat_version c)).

Definition commit (d : Db) (env : Env) (s : SQLSession) : Db * SQLSession * ExecutionResult :=
  match s_transaction s with
  | None => (d, s, RTransactionCommitted)
  | Some t =>
      let s := with_transaction s None in
      let c := db_catalog d in
      if decide (cat_version c = tx_base_version t) then
        match tx_statements t with
        | [] => (d, s, RTransactionCommitted)
        | _ =>
            let working := committed_catalog d t in
            let '(d, error) :=
              log_transaction d env (tx_base_version t) (cat_version working) (tx_statements t) in
            match error with
            | Some e =>
                (* The state put back is the one already prepared for the commit. *)
                (d, with_transaction s (Some {| tx_base_version := tx_base_version t;
                       tx_catalog := working; tx_statements := tx_statements t;
                       tx_schema_changed := tx_schema_changed t |}),
                 RError ("WAL error: " +:+ e))
            | None =>
                let d := with_catalog d working in
                (if tx_schema_changed t then with_cache d (cache_clear (db_cache d)) else d,
                 s, RTransactionCommitted)
            end
        end
      else
        (d, s, RError ("Serialization conflict: transaction snapshot version "
                       +:+ pretty (tx_base_version t) +:+ ", current version " +:+ pretty (cat_version c)))
  end.

(** A statement inside or outside of a transaction; [durable] is what the log
    keeps of it. *)
Definition execute_in_session (d : Db) (env : Env) (s : SQLSession) (durable : DurableStatement)
    (st : Statement) : SessionOutcome :=
  match s_transaction s with
  | Some t =>
      '(working, result) ← execute_catalog (tx_catalog t) st;
      let logged := negb (is_error result) && is_write_statement st in
      Ok (d, with_transaction s (Some {| tx_base_version := tx_base_version t; tx_catalog := working;
            tx_statements := if logged then tx_statements t ++ [durable] else tx_statements t;
            tx_schema_changed := tx_schema_changed t || (logged && is_schema_statement st) |}), result)
  | None =>
      '(d, result) ← execute_autocommit_durable d env durable st; Ok (d, s, result)
  end.

Definition prepare (d : Db) (sql : string) : Db * outcome PreparedStatement :=
  let '(d, parsed) := parse_cached d sql in
  (d, st ← parsed;
      if is_transaction_control st || is_session_statement st then
        Err "Transaction/session control statements cannot be prepared"
      else
        count ← parameter_count st;
        Ok {| ps_sql := trim sql; ps_statement := st; ps_parameter_count := count;
              ps_schema_version := cat_schema_version (db_catalog d) |}).

Definition execute_prepared (d : Db) (env : Env) (s : SQLSession) (p : PreparedStatement)
    (parameters : list Value) : SessionOutcome :=
  let '(d, parsed) :=
    if decide (cat_schema_version (db_catalog d) = ps_schema_version p) then (d, Ok (ps_statement p))
    else parse_cached d (ps_sql p) in
  on_error parsed (λ e, (d, s, RError e)) (λ st,
    on_error (bind_parameters st parameters) (λ e, (d, s, RError e)) (λ bound,
      bound ← optimize_statement bound;
      execute_in_session d env s (DurableBound bound) bound)).

Definition prepare_source (s : SQLSession) (source : PrepareSource) : outcome string :=
  match source with
  | PrepareSql sql => Ok sql
  | PrepareVariable variable =>
      match s_variables s !! variable with
      | Some (VText sql) => Ok sql
      | Some _ => Err ("User variable '@" +:+ variable +:+ "' must contain SQL text")
      | None => Err ("User variable '@" +:+ variable +:+ "' is not set")
      end
  end.

Definition missing_prepared (name : string) : ExecutionResult :=
  RError ("Prepared statement '" +:+ name +:+ "' does not exist").

Definition execute_session_statement (d : Db) (env : Env) (s : SQLSession) (sql : string)
    (st : Statement) : SessionOutcome :=
  match st with
  | Begin => Ok (begin d s)
  | Commit => Ok (commit d env s)
  | Rollback => Ok (rollback d s)
  | SetVariable name value =>
      Ok (d, with_variables s (<[name := value]> (s_variables s)), RRowsAffected 0)
  | Prepare name source =>
      on_error (prepare_source s source) (λ e, (d, s, RError e)) (λ text,
        let '(d, prepared) := prepare d text in
        on_error prepared (λ e, (d, s, RError e)) (λ p,
          Ok (d, with_prepared s (<[name := p]> (s_prepared s)), RRowsAffected 0)))
  | ExecutePrepared name using_ =>
      match s_prepared s !! name with
      | None => Ok (d, s, missing_prepared name)
      | Some p =>
          on_error (mapM (λ v, ok_or (s_variables s !! v) ("User variable '@" +:+ v +:+ "' is not set"))
                      using_) (λ e, (d, s, RError e)) (λ parameters,
            execute_prepared d env s p parameters)
      end
  | DeallocatePrepared name =>
      Ok (match s_prepared s !! name with
          | Some _ => (d, with_prepared s (delete name (s_prepared s)), RRowsAffected 0)
          | None => (d, s, missing_prepared name)
          end)
  | st => execute_in_session d env s (DurableSql (trim sql)) st
  end.

(** [SQLSession::execute]. *)
Definition session_execute (d : Db) (env : Env) (s : SQLSession) (sql : string) : SessionOutcome :=
  let '(d, parsed) := parse_cached d sql in
  on_error parsed (λ e, (d, s, RError e)) (λ st, execute_session_statement d env s sql st).

(** [split_statements] and [execute_batch]: a fresh session runs the parts
    between semicolons. *)
Definition split_statements (sql : string) : list string :=
  filter (λ s, s ≠ EmptyString) (trim <$> split_char ";" sql).

Definition execute_batch (d : Db) (env : Env) (sql : string) :
    outcome (Db * SQLSession * list ExecutionResult) :=
  foldM (λ (st : Db * SQLSession * list ExecutionResult) statement,
    let '(d, s, results) := st in
    '(d', s', r) ← session_execute d env s statement; Ok (d', s', results ++ [r]))
    (d, session_new, []) (split_statements sql).
End sessions.

(** ** The plan cache is transparent *)

Section cache_laws.
Context `{RustStd} `{SqlGrammar} `{LogFormat} `{StatementDebug} `{SnapshotFormat}.

Record cache_ok (cache : PlanCache) : Prop := {
  cache_bounded : size (pc_entries cache) ≤ pc_capacity cache;
  cache_sound : ∀ sql e, pc_entries cache !! sql = Some e → prepare_statement sql = Ok (pe_statement e);
}.

Lemma cache_new_ok capacity : cache_ok (cache_new capacity).
Proof. split; cbn; [rewrite map_size_empty; lia|]. intros sql e. by rewrite lookup_empty. Qed.

Lemma cache_clear_ok cache : cache_ok (cache_clear cache).
Proof. split; cbn; [rewrite map_size_empty; lia|]. intros sql e. by rewrite lookup_empty. Qed.

Lemma cache_get_ok cache sql version :
  cache_ok cache →
  cache_ok (cache_get cache sql version).1 ∧
  ∀ s, (cache_get cache sql version).2 = Some s → prepare_statement sql = Ok s.
Proof.
  intros [Hb Hs]. unfold cache_get. destruct (pc_entries cache !! sql) as [e|] eqn:He; [|by split].
  case_decide; cbn.
  - split; [|intros s [= <-]; by apply Hs]. split; cbn.
    + rewrite map_size_insert, He. exact Hb.
    + intros k x [[<- <-]|[_ Hk]]%lookup_insert_Some; [exact (Hs _ _ He)|by apply Hs].
  - split; [|done]. split; cbn.
    + rewrite map_size_delete, He. lia.
    + intros k x [_ Hk]%lookup_delete_Some. by apply Hs.
Qed.

Lemma oldest_entry_elem entries :
  entries ≠ ∅ → ∃ k, oldest_entry entries = Some k ∧ is_Some (entries !! k).
Proof.
  intros Hne. unfold oldest_entry.
  set (step := λ best (ke : string * PlanCacheEntry), _).
  assert (∀ l best, (∀ k u, best = Some (k, u) → is_Some (entries !! k)) →
    (∀ ke, ke ∈ l → is_Some (entries !! ke.1)) →
    (is_Some best ∨ l ≠ []) →
    ∃ k u, foldl step best l = Some (k, u) ∧ is_Some (entries !! k)) as Hgen.
  { induction l as [|ke l IH]; intros best Hbest Hl Hsome.
    - destruct Hsome as [[[k u] ->]|?]; [|done]. exists k, u. split; [done|by eapply Hbest].
    - cbn. apply IH; [|set_solver|left].
      + intros k u Hk. unfold step in Hk. destruct best as [[k' u']|]; [case_decide|]; simplify_eq;
          first [by eapply Hbest|by apply Hl; set_solver].
      + unfold step. destruct best as [[k' u']|]; [case_decide|]; by eexists. }
  destruct (Hgen (hm_iter entries) None) as (k & u & -> & Hk); [done| | |by exists k].
  - intros [k e] Hin%elem_of_hm_iter. by exists e.
  - right. intros Hnil. apply Hne, map_empty. intros k.
    destruct (entries !! k) as [e|] eqn:He; [|done]. apply elem_of_hm_iter in He. rewrite Hnil in He.
    by apply not_elem_of_nil in He.
Qed.

Lemma cache_insert_ok cache sql version s :
  cache_ok cache → prepare_statement sql = Ok s → cache_ok (cache_insert cache sql version s).
Proof.
  intros [Hb Hs] Hp. unfold cache_insert. case_decide as Hcap; [done|].
  destruct (decide _) as [[Hfull Hnew]|Hroom].
  - destruct (oldest_entry_elem (pc_entries cache)) as (k & -> & [e Hk]).
    { intros He. rewrite He, map_size_empty in Hfull. lia. }
    assert (k ≠ sql) as Hne by (intros ->; congruence).
    split; cbn.
    + rewrite map_size_insert, lookup_delete_ne by done. rewrite Hnew, map_size_delete, Hk. cbn. lia.
    + intros k' x [[<- <-]|[_ [_ Hx]%lookup_delete_Some]]%lookup_insert_Some; [done|by apply Hs].
  - split; cbn.
    + rewrite map_size_insert. destruct (pc_entries cache !! sql) eqn:He; [done|].
      destruct (decide (pc_capacity cache ≤ size (pc_entries cache))); [by destruct Hroom|lia].
    + intros k' x [[<- <-]|[_ Hx]]%lookup_insert_Some; [done|by apply Hs].
Qed.

Lemma parse_cached_spec d sql d' m :
  cache_ok (db_cache d) → parse_cached d sql = (d', m) →
  m = prepare_statement (normalize sql) ∧ cache_ok (db_cache d') ∧ d' = with_cache d (db_cache d').
Proof.
  intros Hok Hp. unfold parse_cached in Hp.
  destruct (cache_get_ok _ (normalize sql) (cat_schema_version (db_catalog d)) Hok) as [Hget Hhit].
  destruct (cache_get _ _ _) as [cache [s|]]; cbn in Hget, Hhit.
  - injection Hp as <- <-. rewrite (Hhit s eq_refl). done.
  - destruct (prepare_statement (normalize sql)) as [s| |] eqn:Hps; injection Hp as <- <-; [|done..].
    split_and!; [done| |done]. cbn. by apply cache_insert_ok.
Qed.
End cache_laws.

(** ** Sessions against their specification *)

Section serializability.
Context `{RustStd} `{SqlGrammar} `{LogFormat} `{StatementDebug} `{SnapshotFormat}.

(** What a logged statement stands for: SQL text is parsed and optimised, a
    bound statement is itself; both then run on the catalog. *)
Definition durable_meaning (dur : DurableStatement) : outcome Statement :=
  match dur with DurableSql sql => prepare_statement (normalize sql) | DurableBound st => Ok st end.
(** A logged statement, which is one that succeeded. *)
Definition run_durable (c : Catalog) (dur : DurableStatement) : outcome Catalog :=
  st ← durable_meaning dur; '(c', r) ← execute_catalog c st;
  match r with RError e => Err e | _ => Ok c' end.

(** The transaction's catalog is its statements run on its snapshot, and the
    snapshot is the database's catalog as long as the version is the same. *)
Definition tx_ok (d : Db) (t : TransactionState) : Prop :=
  (tx_base_version t ≤ cat_version (db_catalog d))%N ∧
  ∃ snapshot, cat_version snapshot = tx_base_version t ∧
    (cat_version (db_catalog d) = tx_base_version t → db_catalog d = snapshot) ∧
    foldM run_durable snapshot (tx_statements t) = Ok (tx_catalog t).

Definition session_ok (d : Db) (s : SQLSession) : Prop := ∀ t, s_transaction s = Some t → tx_ok d t.

(** The catalog stays, or moves to the next version. *)
Definition advances (d d' : Db) : Prop :=
  db_catalog d' = db_catalog d ∨ cat_version (db_catalog d') = sat_succ (cat_version (db_catalog d)).

Lemma advances_refl d : advances d d.
Proof. by left. Qed.

Lemma session_ok_advances d d' s :
  (cat_version (db_catalog d) < u64_max)%N → advances d d' → session_ok d s → session_ok d' s.
Proof.
  intros Hmax Hadv Hs t Ht. destruct (Hs t Ht) as (Hle & c0 & Hc0 & Hsame & Hrun).
  destruct Hadv as [Heq|Hnext].
  - split; rewrite Heq; [done|]. by exists c0.
  - rewrite sat_succ_below in Hnext by done. split; [lia|]. exists c0. split_and!; [done| |done].
    intros Heq. lia.
Qed.

Lemma begin_ok d s : session_ok d s → session_ok d (begin d s).1.2.
Proof.
  intros Hs. unfold begin. destruct (s_transaction s) as [t0|] eqn:Ht0.
  - exact Hs.
  - intros t [= <-]. split; [done|]. exists (db_catalog d). by split_and!.
Qed.

Lemma no_transaction_ok d s : session_ok d (with_transaction s None).
Proof. by intros t. Qed.

(** A statement in a transaction extends what it logs by what it did. *)
Lemma execute_in_session_ok d env s dur st d' s' r :
  session_ok d s → durable_meaning dur = Ok st →
  execute_in_session d env s dur st = Ok (d', s', r) → session_ok d s'.
Proof.
  intros Hs Hdur Hx. unfold execute_in_session in Hx.
  destruct (s_transaction s) as [t|] eqn:Ht.
  - apply bind_Ok in Hx as ([w res] & Hc & [= <- <- <-]). intros t' [= <-].
    destruct (Hs t Ht) as (Hle & c0 & Hc0 & Hsame & Hrun). split; [done|].
    exists c0. cbn [tx_base_version tx_statements tx_catalog]. split_and!; [done..|].
    destruct (negb (is_error res) && is_write_statement st) eqn:Hlog.
    + rewrite foldM_app, Hrun. cbn [mbind outcome_bind]. rewrite foldM_cons. unfold run_durable.
      rewrite Hdur. cbn [mbind outcome_bind]. rewrite Hc. cbn [mbind outcome_bind].
      apply andb_true_iff in Hlog as [Hlog _]. by destruct res.
    + rewrite Hrun. f_equal. symmetry. eapply execute_catalog_unchanged; [done|].
      apply andb_false_iff in Hlog as [Hlog%negb_false_iff|Hlog]; auto.
  - apply bind_Ok in Hx as ([d1 res] & _ & [= <- <- <-]). exact Hs.
Qed.

Lemma log_transaction_catalog d env base w ds :
  db_catalog (log_transaction d env base w ds).1 = db_catalog d.
Proof. unfold log_transaction. destruct (db_wal_open d); [|done]. by destruct (append_record _ _ _). Qed.

Lemma log_transaction_cache d env base w ds :
  db_cache (log_transaction d env base w ds).1 = db_cache d.
Proof. unfold log_transaction. destruct (db_wal_open d); [|done]. by destruct (append_record _ _ _). Qed.

Lemma save_catalog d env : db_catalog (save d env).1 = db_catalog d ∧ db_cache (save d env).1 = db_cache d.
Proof. unfold save. by repeat case_match. Qed.

Lemma autocommit_advances d env dur st d' r :
  execute_autocommit_durable d env dur st = Ok (d', r) → advances d d' ∧ db_cache d' = db_cache d.
Proof.
  intros Hx. unfold execute_autocommit_durable in Hx. destruct (negb _).
  { apply bind_Ok in Hx as ([w res] & _ & [= <- <-]). by split; [left|]. }
  apply bind_Ok in Hx as ([w res] & _ & Hx). destruct (is_error res); [simplify_eq; by split; [left|]|].
  set (working := with_version _ _) in Hx.
  pose proof (log_transaction_catalog d env (cat_version (db_catalog d)) (cat_version working) [dur]) as Hlc.
  pose proof (log_transaction_cache d env (cat_version (db_catalog d)) (cat_version working) [dur]) as Hcc.
  destruct (log_transaction _ _ _ _ _) as [d1 [e|]]; cbn in Hlc, Hcc.
  { simplify_eq. split; [by left|done]. }
  destruct (_ && _).
  - destruct (save_catalog (with_catalog d1 working) env) as [Hs1 Hs2].
    destruct (save _ _) as [d2 o]. cbn in Hs1, Hs2. simplify_eq. split; [right; by rewrite Hs1|congruence].
  - simplify_eq. split; [by right|done].
Qed.

Lemma commit_advances d env s d' s' r :
  commit d env s = (d', s', r) →
  advances d d' ∧ (db_cache d' = db_cache d ∨ db_cache d' = cache_clear (db_cache d)).
Proof.
  intros Hx. unfold commit in Hx. destruct (s_transaction s) as [t|]; [|simplify_eq; by split; [left|left]].
  case_decide; [|simplify_eq; by split; [left|left]].
  destruct (tx_statements t) as [|dur ds]; [simplify_eq; by split; [left|left]|].
  set (working := committed_catalog d t) in Hx.
  pose proof (log_transaction_catalog d env (tx_base_version t) (cat_version working) (dur :: ds)) as Hlc.
  pose proof (log_transaction_cache d env (tx_base_version t) (cat_version working) (dur :: ds)) as Hcc.
  destruct (log_transaction _ _ _ _ _) as [d1 [e|]]; cbn in Hlc, Hcc.
  - simplify_eq. split; [by left|by left].
  - destruct (tx_schema_changed t); simplify_eq; (split; [by right|]); cbn; rewrite Hcc; auto.
Qed.

(** At the current version, and over a log that does not fail, a commit succeeds. *)
Lemma commit_succeeds d env s t :
  env_wal_fault env = WalOk → s_transaction s = Some t → cat_version (db_catalog d) = tx_base_version t →
  (commit d env s).2 = RTransactionCommitted.
Proof.
  intros Henv Ht Hv. unfold commit. rewrite Ht, decide_True by done. destruct (tx_statements t); [done|].
  unfold log_transaction. rewrite Henv. by destruct (db_wal_open d), (tx_schema_changed t).
Qed.

(** Without a fault of the log a commit ends the transaction. *)
Lemma commit_ends d env s :
  env_wal_fault env = WalOk → s_transaction (commit d env s).1.2 = None.
Proof.
  intros Henv. unfold commit. destruct (s_transaction s) as [t|] eqn:Ht; [|done].
  case_decide; [|done]. destruct (tx_statements t); [done|].
  unfold log_transaction. rewrite Henv. by destruct (db_wal_open d).
Qed.

Lemma normalize_trim sql : valid_text sql → normalize (trim sql) = normalize sql.
Proof. intros Hv. unfold normalize. by rewrite trim_idemp. Qed.

Lemma execute_in_session_advances d env s dur st d' s' r :
  execute_in_session d env s dur st = Ok (d', s', r) → advances d d' ∧ db_cache d' = db_cache d.
Proof.
  intros Hx. unfold execute_in_session in Hx. destruct (s_transaction s) as [t|].
  - apply bind_Ok in Hx as ([w res] & _ & [= <- <- <-]). by split; [left|].
  - apply bind_Ok in Hx as ([d1 res] & Ha & [= <- <- <-]). by eapply autocommit_advances.
Qed.

(** The database keeps a sound cache, and its sessions sound transactions. *)
Definition call_ok (d : Db) (d' : Db) (s' : SQLSession) : Prop :=
  advances d d' ∧ cache_ok (db_cache d') ∧ session_ok d s'.

Lemma call_ok_same d s : cache_ok (db_cache d) → session_ok d s → call_ok d d s.
Proof. intros. split_and!; [by left|done|done]. Qed.

Lemma execute_in_session_call d env s dur st d' s' r :
  cache_ok (db_cache d) → session_ok d s → durable_meaning dur = Ok st →
  execute_in_session d env s dur st = Ok (d', s', r) → call_ok d d' s'.
Proof.
  intros Hc Hs Hdur Hx. destruct (execute_in_session_advances _ _ _ _ _ _ _ _ Hx) as [Ha Hcc].
  split_and!; [done|by rewrite Hcc|]. by eapply execute_in_session_ok.
Qed.

(** Calls after a lookup of the cache, which changes nothing else. *)
Lemma call_ok_cache d cache d' s' :
  call_ok (with_cache d cache) d' s' → call_ok d d' s'.
Proof. intros (Ha & Hc & Hs). by split_and!. Qed.

Lemma session_ok_cache d cache s : session_ok d s → session_ok (with_cache d cache) s.
Proof. intros Hs t Ht. exact (Hs t Ht). Qed.

Lemma session_ok_vars d s v : session_ok d s → session_ok d (with_variables s v).
Proof. intros Hs t Ht. exact (Hs t Ht). Qed.
Lemma session_ok_prepared d s p : session_ok d s → session_ok d (with_prepared s p).
Proof. intros Hs t Ht. exact (Hs t Ht). Qed.

Lemma on_error_Ok {A R} (m : outcome A) (e : string → R) (k : A → outcome R) r :
  on_error m e k = Ok r → (∃ a, m = Ok a ∧ k a = Ok r) ∨ (∃ x, m = Err x ∧ r = e x).
Proof. destruct m; cbn; intros Hr; simplify_eq; eauto. Qed.

Lemma prepare_call d sql d' m s :
  cache_ok (db_cache d) → session_ok d s → prepare d sql = (d', m) → call_ok d d' s.
Proof.
  intros Hc Hs Hp. unfold prepare in Hp. destruct (parse_cached d sql) as [d1 m1] eqn:E.
  injection Hp as <- _. apply parse_cached_spec in E as (_ & Hc1 & Hd1); [|done].
  apply (call_ok_cache d (db_cache d1)). rewrite <-Hd1. apply call_ok_same; [done|].
  rewrite Hd1. by apply session_ok_cache.
Qed.

Lemma execute_prepared_call d env s p ps d' s' r :
  cache_ok (db_cache d) → session_ok d s → execute_prepared d env s p ps = Ok (d', s', r) →
  call_ok d d' s'.
Proof.
  intros Hc Hs Hx. unfold execute_prepared in Hx.
  assert (∃ cache parsed, (if decide (cat_schema_version (db_catalog d) = ps_schema_version p)
    then (d, Ok (ps_statement p)) else parse_cached d (ps_sql p)) = (with_cache d cache, parsed) ∧
    cache_ok cache) as (cache & parsed & Heq & Hc1).
  { case_decide.
    - exists (db_cache d), (Ok (ps_statement p)). split; [by destruct d|done].
    - destruct (parse_cached d (ps_sql p)) as [d1 m1] eqn:E.
      apply parse_cached_spec in E as (_ & Hc1 & Hd1); [|done].
      exists (db_cache d1), m1. by rewrite <-Hd1. }
  rewrite Heq in Hx. apply (call_ok_cache d cache).
  assert (call_ok (with_cache d cache) (with_cache d cache) s) as Hsame
    by (apply call_ok_same; [done|by apply session_ok_cache]).
  apply on_error_Ok in Hx as [(st & _ & Hx)|(e & _ & [= -> -> ->])]; [|done].
  apply on_error_Ok in Hx as [(bound & _ & Hx)|(e & _ & [= -> -> ->])]; [|done].
  apply bind_Ok in Hx as (bound' & _ & Hx).
  apply (execute_in_session_call (with_cache d cache) env s (DurableBound bound') bound' d' s' r);
    [done|by apply session_ok_cache|done|exact Hx].
Qed.

Lemma session_statement_call d env s sql st d' s' r :
  env_wal_fault env = WalOk → cache_ok (db_cache d) → session_ok d s →
  durable_meaning (DurableSql (trim sql)) = Ok st →
  execute_session_statement d env s sql st = Ok (d', s', r) → call_ok d d' s'.
Proof.
  intros Henv Hc Hs Hdur Hx.
  assert (call_ok d d s) as Hsame by by apply call_ok_same.
  destruct st as [| | | | | | | | | | | | |name value|name source|name using_|name| | |];
    cbn [execute_session_statement] in Hx;
    try (eapply execute_in_session_call; [done|done|exact Hdur|exact Hx]).
  - injection Hx as <- <- _. split_and!; [by left|done|by apply session_ok_vars].
  - apply on_error_Ok in Hx as [(text & _ & Hx)|(e & _ & [= -> -> ->])]; [|done].
    destruct (prepare d text) as [d1 m] eqn:Hp. apply (prepare_call _ _ _ _ s) in Hp; [|done..].
    apply on_error_Ok in Hx as [(p & _ & Hx)|(e & _ & [= -> -> ->])]; [|done].
    injection Hx as <- <- _. destruct Hp as (? & ? & ?). split_and!; [done|done|by apply session_ok_prepared].
  - destruct (s_prepared s !! name) as [p|]; [|by simplify_eq].
    apply on_error_Ok in Hx as [(ps & _ & Hx)|(e & _ & [= -> -> ->])]; [|done].
    by eapply execute_prepared_call.
  - destruct (s_prepared s !! name); simplify_eq; [|done].
    split_and!; [by left|done|by apply session_ok_prepared].
  - injection Hx as Hx. assert (d' = d ∧ s' = (begin d s).1.2) as [-> ->].
    { rewrite Hx. split; [|done]. unfold begin in Hx. by destruct (s_transaction s); simplify_eq. }
    split_and!; [by left|done|by apply begin_ok].
  - injection Hx as Hx. destruct (commit_advances _ _ _ _ _ _ Hx) as [Ha Hcc].
    split_and!; [done|destruct Hcc as [-> | ->]; [done|by apply cache_clear_ok]|].
    pose proof (commit_ends d env s Henv) as He. rewrite Hx in He. cbn in He. intros t Ht. congruence.
  - injection Hx as <- <- _. split_and!; [by left|done|apply no_transaction_ok].
Qed.

Lemma session_execute_call d env s sql d' s' r :
  env_wal_fault env = WalOk → valid_text sql → cache_ok (db_cache d) → session_ok d s →
  session_execute d env s sql = Ok (d', s', r) → call_ok d d' s'.
Proof.
  intros Henv Hv Hc Hs Hx. unfold session_execute in Hx.
  destruct (parse_cached d sql) as [d1 m] eqn:E. apply parse_cached_spec in E as (Hm & Hc1 & Hd1); [|done].
  apply (call_ok_cache d (db_cache d1)). rewrite <-Hd1.
  assert (session_ok d1 s) as Hs1 by (rewrite Hd1; by apply session_ok_cache).
  apply on_error_Ok in Hx as [(st & Hst & Hx)|(e & _ & [= -> -> ->])].
  - eapply session_statement_call; [done|done|done| |exact Hx].
    cbn. rewrite normalize_trim by done. congruence.
  - by apply call_ok_same.
Qed.

(** ** Systems of sessions *)

Record Sys := { sys_db : Db; sys_sessions : gmap nat SQLSession }.

(** Sessions connect and disconnect, prepare statements, and make one call after
    the other, in any order, over a log that does not fail. *)
Inductive sys_step : Sys → Sys → Prop :=
| step_connect d ss i : ss !! i = None →
    sys_step {| sys_db := d; sys_sessions := ss |}
             {| sys_db := d; sys_sessions := <[i := session_new]> ss |}
| step_disconnect d ss i :
    sys_step {| sys_db := d; sys_sessions := ss |} {| sys_db := d; sys_sessions := delete i ss |}
| step_execute d ss i s env sql d' s' r :
    ss !! i = Some s → env_wal_fault env = WalOk → valid_text sql →
    (cat_version (db_catalog d) < u64_max)%N →
    session_execute d env s sql = Ok (d', s', r) →
    sys_step {| sys_db := d; sys_sessions := ss |} {| sys_db := d'; sys_sessions := <[i := s']> ss |}
| step_prepare d ss sql d' m :
    prepare d sql = (d', m) →
    sys_step {| sys_db := d; sys_sessions := ss |} {| sys_db := d'; sys_sessions := ss |}
| step_execute_prepared d ss i s env p ps d' s' r :
    ss !! i = Some s → env_wal_fault env = WalOk → (cat_version (db_catalog d) < u64_max)%N →
    execute_prepared d env s p ps = Ok (d', s', r) →
    sys_step {| sys_db := d; sys_sessions := ss |} {| sys_db := d'; sys_sessions := <[i := s']> ss |}
| step_save d ss env :
    sys_step {| sys_db := d; sys_sessions := ss |}
             {| sys_db := (save d env).1; sys_sessions := ss |}.

Definition sys_ok (sys : Sys) : Prop :=
  cache_ok (db_cache (sys_db sys)) ∧ map_Forall (λ _ s, session_ok (sys_db sys) s) (sys_sessions sys).

Lemma sys_step_ok sys sys' : sys_step sys sys' → sys_ok sys → sys_ok sys'.
Proof.
  intros Hstep [Hc Hs].
  destruct Hstep as [d ss i Hi|d ss i|d ss i s env sql d' s' r Hi Henv Hv Hmax Hx|d ss sql d' m Hp
    |d ss i s env p ps d' s' r Hi Henv Hmax Hx|d ss env]; unfold sys_ok; cbn [sys_db sys_sessions] in *.
  - split; [done|]. apply map_Forall_insert_2; [by intros t|done].
  - split; [done|]. by apply map_Forall_delete.
  - destruct (session_execute_call _ _ _ _ _ _ _ Henv Hv Hc (Hs i s Hi) Hx) as (Ha & Hc' & Hs').
    split; [done|]. apply map_Forall_insert_2; [by eapply session_ok_advances|].
    intros j sj Hj. eapply session_ok_advances; [done|done|]. by apply (Hs j).
  - unfold prepare in Hp. destruct (parse_cached d sql) as [d1 m1] eqn:E. injection Hp as <- _.
    apply parse_cached_spec in E as (_ & Hc1 & Hd1); [|done]. split; [done|]. rewrite Hd1.
    intros j sj Hj. by apply session_ok_cache, (Hs j).
  - destruct (execute_prepared_call _ _ _ _ _ _ _ _ Hc (Hs i s Hi) Hx) as (Ha & Hc' & Hs').
    split; [done|]. apply map_Forall_insert_2; [by eapply session_ok_advances|].
    intros j sj Hj. eapply session_ok_advances; [done|done|]. by apply (Hs j).
  - destruct (save_catalog d env) as [Hcat Hcache]. split; [by rewrite Hcache|].
    intros j sj Hj. intros t Ht. destruct (Hs j sj Hj t Ht) as (Hle & Hsnap). split; rewrite Hcat; done.
Qed.

Inductive sys_reachable (d0 : Db) : Sys → Prop :=
| reachable_start : sys_reachable d0 {| sys_db := d0; sys_sessions := ∅ |}
| reachable_step sys sys' : sys_reachable d0 sys → sys_step sys sys' → sys_reachable d0 sys'.

(** A database in memory, or opened from its files. *)
Definition freshly_opened (d : Db) : Prop :=
  (∃ options, d = database_new options) ∨ ∃ disk options, open_with_options disk options = Ok d.

Lemma opened_cache d : freshly_opened d → cache_ok (db_cache d).
Proof.
  intros [(options & ->)|(disk & options & Ho)]; [apply cache_new_ok|].
  unfold open_with_options in Ho. apply bind_Ok in Ho as (c & _ & (c' & _ & [= <-])%bind_Ok). apply cache_new_ok.
Qed.

Lemma sys_reachable_ok d0 sys : cache_ok (db_cache d0) → sys_reachable d0 sys → sys_ok sys.
Proof.
  intros Hc. induction 1 as [|sys sys' _ IH Hstep]; [split; [done|apply map_Forall_empty]|].
  by eapply sys_step_ok.
Qed.
End serializability.

(** ** Properties *)

Section properties.
Context `{RustStd} `{SqlGrammar} `{LogFormat} `{StatementDebug} `{SnapshotFormat}.

(** C2. Transactions are serializable. Whatever the interleaving of sessions, a
    COMMIT whose log can be written either reports a conflict and changes nothing,
    or publishes exactly the catalog that the transaction's logged statements give
    when run, without interruption, on the catalog the database has at that
    moment; it logs them as one record and moves to the next version. *)
Theorem transactions_are_serializable d0 sys i s t env d' s' r :
  cache_ok (db_cache d0) → sys_reachable d0 sys → sys_sessions sys !! i = Some s →
  s_transaction s = Some t → tx_statements t ≠ [] → env_wal_fault env = WalOk →
  commit (sys_db sys) env s = (d', s', r) →
  (d' = sys_db sys ∧ is_error r = true ∧
   cat_version (db_catalog (sys_db sys)) ≠ tx_base_version t) ∨
  (r = RTransactionCommitted ∧
   (∃ c, foldM run_durable (db_catalog (sys_db sys)) (tx_statements t) = Ok c ∧
     cat_tables (db_catalog d') = cat_tables (configure_bloom_false_positive_rate c
       (bloom_false_positive_rate (db_options (sys_db sys))))) ∧
   cat_version (db_catalog d') = sat_succ (cat_version (db_catalog (sys_db sys))) ∧
   (db_wal_open (sys_db sys) = true →
    disk_wal (db_disk d') = Some (default EmptyString (disk_wal (db_disk (sys_db sys))) +:+
      log_line (wal_record_new (env_now env) (tx_base_version t) (cat_version (db_catalog d'))
        (tx_statements t))))).
Proof.
  intros Hc0 Hreach Hi Ht Hne Henv Hx.
  destruct (sys_reachable_ok _ _ Hc0 Hreach) as [_ Hs].
  destruct (Hs i s Hi t Ht) as (_ & c0 & Hc & Hsame & Hrun).
  unfold commit in Hx. rewrite Ht in Hx. case_decide as Hver; [right|left; by simplify_eq].
  specialize (Hsame Hver). destruct (tx_statements t) as [|dur ds]; [done|].
  unfold log_transaction in Hx. rewrite Henv in Hx.
  destruct (db_wal_open (sys_db sys)); cbn [append_record] in Hx;
    destruct (tx_schema_changed t); simplify_eq; (split; [done|]);
    (split; [by exists (tx_catalog t)|]); (split; [done|]); by intros.
Qed.

Lemma with_transaction_same s t : s_transaction s = Some t → with_transaction s (Some t) = s.
Proof. destruct s. cbn. by intros ->. Qed.

(** C5. COMMIT, in any session of any reachable system, does one of three things:
    it commits and ends the transaction; or the database is at a later version
    than the one the transaction began at, and COMMIT ends the transaction,
    reports an error and changes nothing, while every transaction that began at
    the current version would commit if the log can be written; or writing the log
    failed, and the catalog is as it was and the transaction is kept, with its
    statements, and the next COMMIT commits it if the log can be written then. *)
Theorem some_transaction_progresses d0 sys i s t env d' s' r :
  cache_ok (db_cache d0) → sys_reachable d0 sys → sys_sessions sys !! i = Some s →
  s_transaction s = Some t → commit (sys_db sys) env s = (d', s', r) →
  (s_transaction s' = None ∧ r = RTransactionCommitted) ∨
  (s_transaction s' = None ∧ is_error r = true ∧ d' = sys_db sys ∧
   (tx_base_version t < cat_version (db_catalog (sys_db sys)))%N ∧
   ∀ t' env', (cat_version (db_catalog (sys_db sys)) ≤ tx_base_version t')%N →
     session_ok (sys_db sys) (with_transaction s (Some t')) → env_wal_fault env' = WalOk →
     (commit (sys_db sys) env' (with_transaction s (Some t'))).2 = RTransactionCommitted) ∨
  (env_wal_fault env ≠ WalOk ∧ is_error r = true ∧ db_catalog d' = db_catalog (sys_db sys) ∧
   (∃ t', s_transaction s' = Some t' ∧ tx_statements t' = tx_statements t) ∧
   ∀ env', env_wal_fault env' = WalOk → (commit d' env' s').2 = RTransactionCommitted).
Proof.
  intros Hc0 Hreach Hi Ht Hx. destruct (sys_reachable_ok _ _ Hc0 Hreach) as [_ Hs].
  destruct (Hs i s Hi t Ht) as (Hle & _).
  destruct (decide (cat_version (db_catalog (sys_db sys)) = tx_base_version t)) as [Hv|Hv].
  - unfold commit in Hx. rewrite Ht, decide_True in Hx by done.
    destruct (tx_statements t) as [|dur ds] eqn:Hds; [left; by simplify_eq|].
    destruct (log_transaction _ _ _ _ _) as [d1 [e|]] eqn:Hlog; [|left; destruct (tx_schema_changed t); by simplify_eq].
    right. right. simplify_eq.
    assert (db_catalog d' = db_catalog (sys_db sys) ∧ env_wal_fault env ≠ WalOk) as [Hcat Hf].
    { unfold log_transaction in Hlog. destruct (db_wal_open _); [|done].
      destruct (env_wal_fault env); cbn [append_record] in Hlog; by simplify_eq. }
    split_and!; [done..| |].
    + eexists. split; [reflexivity|]. done.
    + intros env' Henv. apply commit_succeeds with (2 := eq_refl); [done|]. cbn. by rewrite Hcat.
  - right. left. unfold commit in Hx. rewrite Ht, decide_False in Hx by done. simplify_eq.
    split_and!; [done|done|done|lia|].
    intros t' env' Hle' Hok' Henv. apply commit_succeeds with (2 := eq_refl); [done|].
    destruct (Hok' t' eq_refl) as [Hle'' _]. lia.
Qed.

(** C35. The plan cache is transparent. However a database was opened and whatever
    its sessions have done, parsing a statement through the cache gives what
    parsing and optimising its text gives, the cache never holds more entries than
    its capacity, and nothing else of the database changes. *)
Theorem plan_cache_transparent d0 sys sql :
  freshly_opened d0 → sys_reachable d0 sys →
  let '(d', m) := parse_cached (sys_db sys) sql in
  m = prepare_statement (normalize sql) ∧
  size (pc_entries (db_cache d')) ≤ pc_capacity (db_cache d') ∧
  d' = with_cache (sys_db sys) (db_cache d').
Proof.
  intros Hd0 Hreach. destruct (sys_reachable_ok _ _ (opened_cache _ Hd0) Hreach) as [Hc _].
  destruct (parse_cached (sys_db sys) sql) as [d' m] eqn:E.
  destruct (parse_cached_spec _ _ _ _ Hc E) as (-> & [Hb _] & Heq). done.
Qed.
End properties.

(** *** Witnesses and the divergence of replay *)

Section database_examples.
#[local] Existing Instance concrete_std.
#[local] Existing Instance concrete_log.
#[local] Existing Instance concrete_grammar.
#[local] Instance debug_none : StatementDebug := λ _, "statement".
#[local] Instance no_snapshots : SnapshotFormat :=
  {| snapshot_to_json := λ _, EmptyString; snapshot_from_json := λ _, None;
     legacy_table_from_json := λ _, None |}.

Definition options : SQLDatabaseOptions :=
  {| plan_cache_capacity := 2; memory_pool_capacity := 1;
     bloom_false_positive_rate := F_0_01 |}.
Definition disk_of (rs : list WalRecord) : Disk := with_wal empty_disk (Some (log_of rs)).
Definition opened (disk : Disk) : Db :=
  match open_with_options disk options with Ok d => d | _ => database_new options end.
Definition fine : Env := {| env_now := 1000; env_wal_fault := WalOk; env_save_fault := SaveOk |}.

Definition db0 : Db := opened (disk_of [created]).
Definition call (st : Db * SQLSession) (sql : string) : Db * SQLSession :=
  match session_execute st.1 fine st.2 sql with Ok (d, s, _) => (d, s) | _ => st end.
Definition in_transaction : Db * SQLSession := foldl call (db0, session_new) ["BEGIN"; "INSERT 3"].
Definition sys_in_transaction : Sys :=
  {| sys_db := in_transaction.1; sys_sessions := {[0 := in_transaction.2]} |}.

Lemma db0_opened : freshly_opened db0.
Proof.
  right. exists (disk_of [created]), options. unfold db0, opened.
  destruct (open_with_options (disk_of [created]) options) as [d| |] eqn:E; [done|by vm_compute in E..].
Qed.

Lemma db0_cache_ok : cache_ok (db_cache db0).
Proof.
  replace (db_cache db0) with (cache_new 2) by (vm_compute; reflexivity). apply cache_new_ok.
Qed.

Lemma text_valid l : forallb wf_char l = true → valid_text (of_chars l).
Proof. intros Hl. exists l. split; [|done]. apply Forall_forall. by apply forallb_true. Qed.

Definition sys_of (st : Db * SQLSession) : Sys :=
  {| sys_db := st.1; sys_sessions := {[0 := st.2]} |}.

Lemma call_step st l :
  forallb wf_char l = true →
  (cat_version (db_catalog st.1) <? u64_max)%N = true →
  match session_execute st.1 fine st.2 (of_chars l) with Ok _ => True | _ => False end →
  sys_step (sys_of st) (sys_of (call st (of_chars l))).
Proof.
  destruct st as [d s]. intros Hl Hmax%N.ltb_lt. unfold call, sys_of. cbn [fst snd].
  destruct (session_execute d fine s (of_chars l)) as [[[d' s'] r]| |] eqn:E; intros Hx; [|done..].
  cbn [fst snd].
  replace ({[0 := s']} : gmap nat SQLSession) with (<[0 := s']> ({[0 := s]} : gmap nat SQLSession))
    by apply insert_singleton_eq.
  refine (step_execute d _ 0 s fine _ d' s' r _ _ _ Hmax E);
    [apply lookup_singleton_eq|done|by apply text_valid].
Qed.

Lemma sys_in_transaction_reachable : sys_reachable db0 sys_in_transaction.
Proof.
  refine (reachable_step _ (sys_of (call (db0, session_new) "BEGIN")) _ _ _).
  - refine (reachable_step _ (sys_of (db0, session_new)) _ _ _).
    + refine (reachable_step _ {| sys_db := db0; sys_sessions := ∅ |} _ (reachable_start _) _).
      apply (step_connect db0 ∅ 0). apply lookup_empty.
    + refine (call_step _ ["B"; "E"; "G"; "I"; "N"] _ _ _); vm_compute; [done..|exact I].
  - refine (call_step (call (db0, session_new) "BEGIN")
      ["I"; "N"; "S"; "E"; "R"; "T"; " "; "3"] _ _ _); vm_compute; [done..|exact I].
Qed.

Definition committed : Db * SQLSession * ExecutionResult :=
  commit in_transaction.1 fine in_transaction.2.
Definition transaction : TransactionState :=
  match s_transaction in_transaction.2 with
  | Some t => t
  | None => {| tx_base_version := 0; tx_catalog := catalog_default; tx_statements := [];
               tx_schema_changed := false |}
  end.

Lemma transactions_are_serializable_witness : cat_version (db_catalog committed.1.1) = 2%N.
Proof.
  destruct (transactions_are_serializable db0 sys_in_transaction 0 in_transaction.2 transaction fine
    committed.1.1 committed.1.2 committed.2) as [(_ & He & _)|(_ & _ & Hv & _)].
  - apply db0_cache_ok.
  - apply sys_in_transaction_reachable.
  - apply lookup_singleton_eq.
  - vm_compute. reflexivity.
  - vm_compute. discriminate.
  - reflexivity.
  - unfold committed. by destruct (commit _ _ _) as [[? ?] ?].
  - exfalso. revert He. vm_compute. discriminate.
  - rewrite Hv. vm_compute. reflexivity.
Defined.

(** The commit of the session, and a commit whose log record cannot be written. *)
Definition broken : Env := {| env_now := 1000; env_wal_fault := WalWriteFails 0; env_save_fault := SaveOk |}.
Definition refused : Db * SQLSession * ExecutionResult := commit (sys_db sys_in_transaction) broken in_transaction.2.

Lemma some_transaction_progresses_witness :
  (s_transaction committed.1.2 = None ∧ committed.2 = RTransactionCommitted) ∧
  (∀ env', env_wal_fault env' = WalOk → (commit refused.1.1 env' refused.1.2).2 = RTransactionCommitted).
Proof.
  split.
  - destruct (some_transaction_progresses db0 sys_in_transaction 0 in_transaction.2 transaction fine
      committed.1.1 committed.1.2 committed.2) as [Hr|[(_ & _ & _ & Hlt & _)|(Hf & _)]].
    + apply db0_cache_ok.
    + apply sys_in_transaction_reachable.
    + apply lookup_singleton_eq.
    + vm_compute. reflexivity.
    + unfold committed. by destruct (commit _ _ _) as [[? ?] ?].
    + exact Hr.
    + exfalso. revert Hlt. vm_compute. discriminate.
    + by destruct Hf.
  - destruct (some_transaction_progresses db0 sys_in_transaction 0 in_transaction.2 transaction broken
      refused.1.1 refused.1.2 refused.2) as [[_ Hr]|[(_ & _ & _ & Hlt & _)|(_ & _ & _ & _ & Hretry)]].
    + apply db0_cache_ok.
    + apply sys_in_transaction_reachable.
    + apply lookup_singleton_eq.
    + vm_compute. reflexivity.
    + unfold refused. by destruct (commit _ _ _) as [[? ?] ?].
    + exfalso. revert Hr. vm_compute. discriminate.
    + exfalso. revert Hlt. vm_compute. discriminate.
    + exact Hretry.
Defined.

Lemma plan_cache_transparent_witness :
  (parse_cached (sys_db sys_in_transaction) " INSERT 3; ").2 = prepare_statement (normalize " INSERT 3; ").
Proof.
  pose proof (plan_cache_transparent db0 sys_in_transaction " INSERT 3; " db0_opened sys_in_transaction_reachable) as Hp.
  destruct (parse_cached _ _) as [d' m]. exact (proj1 Hp).
Defined.

(** Replay is not execution: a statement runs optimised but is logged as
    text and replayed without the optimiser, so where constant folding changes
    its meaning a committed state is not the state recovered.  Here a DELETE
    that removed nothing empties the table at the next start. *)
Theorem replay_diverges_from_execution :
  let d := opened (disk_of [created; record 1 "INSERT 3"]) in
  ∃ d', database_execute d fine "DELETE" = Ok (d', RRowsAffected 0) ∧
    rows_at "t" (Ok (db_catalog d')) = Some [[VInteger 3; VText "c"]] ∧
    rows_at "t" (Ok (db_catalog (opened (db_disk d')))) = Some [].
Proof.
  exists (match database_execute (opened (disk_of [created; record 1 "INSERT 3"])) fine "DELETE" with
          | Ok (d, _) => d | _ => db0 end).
  split_and!; vm_compute; reflexivity.
Qed.
End database_examples.
