(* ===== verification/Tracking.v ===== *)
(** * Tracking.v: catalogs that hold the same data

    A recovered catalog is not the catalog that was lost: Bloom filters, row
    identifiers and version numbers differ.  [tracks] relates two catalogs with
    the same schemas and rows whose indexes are coherent with them, and the
    statements that keep the relation are those a log can replay. *)

From S2P Require Import Prelude Machine Float64 Like Types Concrete Keys Table Eval Queries.
From S2P Require Import Statement Planner Validate Ddl Execute Integrity Alter.

(** ** The relation *)

Section tracking.
Context `{RustStd}.

(** [t'] holds the schema and the rows of [t], under coherent indexes on both
    sides, and has at least its room for new row identifiers. *)
Record table_tracks (t' t : Table) : Prop := {
  tt_schema : tb_schema t' = tb_schema t;
  tt_rows : tb_rows t' = tb_rows t;
  tt_room : (tb_next_row_id t' ≤ tb_next_row_id t)%N;
  tt_coherent' : Coherent t';
  tt_coherent : Coherent t;
}.

Definition tracks (c' c : Catalog) : Prop :=
  ∀ name, option_Forall2 table_tracks (cat_tables c' !! name) (cat_tables c !! name).

(** Tables on which the engine is deterministic: distinct index names, CHECK
    expressions without subqueries. *)
Record regular_table (t : Table) : Prop := {
  rt_names : NoDup (index_name <$> schema_indexes (tb_schema t));
  rt_checks : ∀ name e, CCheck name e ∈ schema_constraints (tb_schema t) → row_expression e = true;
}.
Definition regular (c : Catalog) : Prop := map_Forall (λ _ t, regular_table t) (cat_tables c).

(** Expressions over the row alone do not look at the catalog. *)
Lemma eval_row_expression c c' e columns row group ctes :
  row_expression e = true →
  eval_expr c e columns row group ctes = eval_expr c' e columns row group ctes.
Proof.
  set (P e := row_expression e = true →
    eval_expr c e columns row group ctes = eval_expr c' e columns row group ctes).
  change (P e). revert e.
  apply (Expr_tree_ind P (λ _, True) (λ _, True) (λ _, True) (λ _, True) (λ _, True) (λ _, True));
    try done; subst P; cbn beta; cbn [row_expression].
  - intros l IHl op r IHr [Hl Hr]%andb_true_iff. rewrite !eval_expr_unfold. cbn [eval_expr_body].
    by rewrite IHl, IHr.
  - intros op e IH He. rewrite !eval_expr_unfold. cbn [eval_expr_body]. by rewrite IH.
  - intros e IH negated He. rewrite !eval_expr_unfold. cbn [eval_expr_body]. by rewrite IH.
  - intros e IHe p IHp negated [He Hp]%andb_true_iff. rewrite !eval_expr_unfold. cbn [eval_expr_body].
    by rewrite IHe, IHp.
  - intros e IHe items IHitems negated [He Hs]%andb_true_iff. rewrite !eval_expr_unfold. cbn [eval_expr_body].
    rewrite IHe by done. apply bind_ext. intros v _.
    enough (mapM (λ item, eval_expr c item columns row group ctes) items
      = mapM (λ item, eval_expr c' item columns row group ctes) items) as -> by done.
    apply list_all_Forall in IHitems. induction IHitems as [|x items Hx _ IH]; [done|].
    cbn [forallb] in Hs. apply andb_true_iff in Hs as [Hxs Hs].
    change (mapM ?f (x :: items)) with (y ← f x; ys ← mapM f items; mret (y :: ys)).
    cbn beta. by rewrite Hx, IH.
Qed.

(** *** Reading the relation *)

Lemma tracks_lookup c' c name t :
  tracks c' c → cat_tables c !! name = Some t → ∃ t', cat_tables c' !! name = Some t' ∧ table_tracks t' t.
Proof. intros Ht Hn. specialize (Ht name). rewrite Hn in Ht. inversion Ht; subst; eauto. Qed.

Lemma tracks_lookup_l c' c name t' :
  tracks c' c → cat_tables c' !! name = Some t' → ∃ t, cat_tables c !! name = Some t ∧ table_tracks t' t.
Proof. intros Ht Hn. specialize (Ht name). rewrite Hn in Ht. inversion Ht; subst; eauto. Qed.

Lemma tracks_none c' c name : tracks c' c → cat_tables c !! name = None → cat_tables c' !! name = None.
Proof. intros Ht Hn. specialize (Ht name). rewrite Hn in Ht. by inversion Ht. Qed.

Lemma tracks_ok' c' c : tracks c' c → CatalogOk c'.
Proof. intros Ht name t' Hn. destruct (tracks_lookup_l _ _ _ _ Ht Hn) as (t & _ & []). done. Qed.
Lemma tracks_ok c' c : tracks c' c → CatalogOk c.
Proof. intros Ht name t Hn. destruct (tracks_lookup _ _ _ _ Ht Hn) as (t' & _ & []). done. Qed.

Lemma tracks_insert c' c name t' t :
  tracks c' c → table_tracks t' t → tracks (insert_table c' name t') (insert_table c name t).
Proof.
  intros Hc Ht n. unfold insert_table, set_tables. cbn [cat_tables].
  destruct (decide (n = name)) as [->|Hne]; [rewrite !lookup_insert_eq; by constructor|].
  rewrite !lookup_insert_ne by done. apply Hc.
Qed.

Lemma tracks_same_tables c' c d' d :
  tracks c' c → cat_tables d' = cat_tables c' → cat_tables d = cat_tables c → tracks d' d.
Proof. intros Ht H1 H2 name. rewrite H1, H2. apply Ht. Qed.

(** The indexes of both sides are on the same definitions. *)
Lemma tracks_definitions t' t name ix :
  table_tracks t' t → NoDup (index_name <$> schema_indexes (tb_schema t)) → tb_indexes t' !! name = Some ix →
  ∃ ix', tb_indexes t !! name = Some ix' ∧ ix_definition ix' = ix_definition ix.
Proof.
  intros [Hs _ _ Hco' Hco] Hnd Hix.
  assert (name ∈ dom (tb_indexes t)) as [ix' E]%elem_of_dom.
  { rewrite (co_names _ Hco), <-Hs, <-(co_names _ Hco'). apply elem_of_dom. by exists ix. }
  exists ix'. split; [done|].
  destruct (co_definition _ Hco _ _ E) as [Hn Hd], (co_definition _ Hco' _ _ Hix) as [Hn' Hd'].
  rewrite Hs in Hd'. apply list_elem_of_lookup in Hd as [i Hd], Hd' as [j Hd'].
  assert (i = j) as ->; [|congruence].
  eapply (NoDup_lookup (index_name <$> _)); [done|rewrite list_lookup_fmap, Hd; done|].
  rewrite list_lookup_fmap, Hd'. cbn. congruence.
Qed.

(** *** Validation *)

Lemma unique_holds_tracks t' t :
  table_tracks t' t → NoDup (index_name <$> schema_indexes (tb_schema t)) → unique_holds t → unique_holds t'.
Proof.
  intros Ht Hnd Hu name ix p q row row' key Hix Huq Hp Hq Hk Hk' Hn.
  destruct (tracks_definitions _ _ _ _ Ht Hnd Hix) as (ix' & Hix' & Hd). destruct Ht as [Hs Hr _ _ _].
  rewrite Hr in Hp, Hq. rewrite Hs, <-Hd in Hk, Hk'. rewrite <-Hd in Huq.
  by eapply (Hu name ix' p q row row' key).
Qed.

Lemma check_foreign_key_tracks c' c t' t fk :
  tracks c' c → table_tracks t' t → check_foreign_key c' t' fk = check_foreign_key c t fk.
Proof.
  intros Hc Ht. unfold check_foreign_key. specialize (Hc (foreign_table fk)).
  destruct Hc as [p' p Hp|]; [|done]. cbn [ok_or mbind outcome_bind].
  unfold parent_is_unique, check_child_row. rewrite (tt_schema _ _ Hp), (tt_rows _ _ Hp), (tt_schema _ _ Ht), (tt_rows _ _ Ht).
  done.
Qed.

Lemma checks_hold_tracks c' c t' t row :
  table_tracks t' t → regular_table t → checks_hold c t row → checks_hold c' t' row.
Proof.
  intros Ht Hr Hc name e He. rewrite (tt_schema _ _ Ht) in He |- *. destruct (Hc name e He) as (v & Hv & Htv).
  exists v. split; [|done]. rewrite <-Hv. unfold table_columns. rewrite (tt_schema _ _ Ht).
  apply eval_row_expression. by eapply (rt_checks t).
Qed.

Lemma validate_catalog_tracks c' c :
  tracks c' c → regular c → validate_catalog c = Ok tt → validate_catalog c' = Ok tt.
Proof.
  intros Hc Hreg. unfold validate_catalog. rewrite !bind_Ok. intros ([] & Ht & Hf). exists tt. split.
  - rewrite (foldM_unit (validate_table c)), Forall_hm_values in Ht. rewrite (foldM_unit (validate_table c')), Forall_hm_values.
    intros name t' Hn. destruct (tracks_lookup_l _ _ _ _ Hc Hn) as (t & Hnt & Htt).
    specialize (Ht name t Hnt). apply (validate_table_Ok c t (tt_coherent _ _ Htt)) in Ht as (H1 & H2 & H3).
    apply (validate_table_Ok c' t' (tt_coherent' _ _ Htt)). rewrite (tt_schema _ _ Htt), (tt_rows _ _ Htt).
    split_and!; [done| |].
    + eapply Forall_impl; [exact H2|]. intros row. by eapply checks_hold_tracks, Hreg.
    + eapply unique_holds_tracks; [done|by eapply rt_names, Hreg|done].
  - unfold validate_foreign_keys in *.
    set (check c t constraint := match constraint with CForeignKey fk => check_foreign_key c t fk | _ => Ok tt end).
    change (foldM (λ _ t, foldM (λ _ k, check c t k) tt (schema_constraints (tb_schema t))) tt
      (hm_values (cat_tables c)) = Ok tt) in Hf.
    change (foldM (λ _ t, foldM (λ _ k, check c' t k) tt (schema_constraints (tb_schema t))) tt
      (hm_values (cat_tables c')) = Ok tt).
    rewrite (foldM_unit (λ t, foldM (λ _ k, check c t k) tt (schema_constraints (tb_schema t)))), Forall_hm_values in Hf.
    rewrite (foldM_unit (λ t, foldM (λ _ k, check c' t k) tt (schema_constraints (tb_schema t)))), Forall_hm_values.
    intros name t' Hn. destruct (tracks_lookup_l _ _ _ _ Hc Hn) as (t & Hnt & Htt).
    specialize (Hf name t Hnt). cbn beta in Hf |- *. rewrite (foldM_unit (check c t)) in Hf. rewrite (foldM_unit (check c' t')).
    rewrite (tt_schema _ _ Htt). eapply Forall_impl; [exact Hf|]. intros [| | |fk]; cbn; try done.
    by rewrite (check_foreign_key_tracks c' c t' t).
Qed.

(** ** Statements that keep the relation *)

(** Where [st] succeeds on [c], [st'] succeeds on every catalog that tracks [c],
    with a result that tracks.  ([st] is what was executed, [st'] what is
    replayed.)  A stable statement is so on every catalog. *)
Definition stable_at `{StatementDebug} (c : Catalog) (st' st : Statement) : Prop := ∀ c' w r,
  tracks c' c → regular c → regular w → has_room c st →
  execute_catalog c st = Ok (w, r) → is_error r = false →
  ∃ w' r', execute_catalog c' st' = Ok (w', r') ∧ is_error r' = false ∧ tracks w' w.
Definition stable `{StatementDebug} (st' st : Statement) : Prop := ∀ c, stable_at c st' st.

Lemma unique_conflicts_tracks t' t row :
  table_tracks t' t → NoDup (index_name <$> schema_indexes (tb_schema t)) →
  unique_conflict_positions t row = ∅ → unique_conflict_positions t' row = ∅.
Proof.
  intros Ht Hnd He. apply set_eq. intros p. split; [|set_solver].
  rewrite (elem_of_unique_conflicts t' row p (tt_coherent' _ _ Ht)).
  intros (name & ix & key & other & Hix & Hu & Hk & Hn & Ho & Hk').
  destruct (tracks_definitions _ _ _ _ Ht Hnd Hix) as (ix' & Hix' & Hd).
  rewrite <-He, (elem_of_unique_conflicts t row p (tt_coherent _ _ Ht)).
  rewrite (tt_schema _ _ Ht), <-Hd in Hk, Hk'. rewrite <-Hd in Hu. rewrite (tt_rows _ _ Ht) in Ho.
  by exists name, ix', key, other.
Qed.

Lemma insert_row_tracks t' t row t1 :
  table_tracks t' t → (tb_next_row_id t < u64_max)%N → insert_row_indexed t row = Ok t1 →
  ∃ t1', insert_row_indexed t' row = Ok t1' ∧ table_tracks t1' t1 ∧ tb_schema t1 = tb_schema t ∧
    tb_next_row_id t1 = (tb_next_row_id t + 1)%N.
Proof.
  intros Ht Hmax Hi. assert (∃ t1', insert_row_indexed t' row = Ok t1') as [t1' Hi'].
  { unfold insert_row_indexed in *. rewrite (tt_schema _ _ Ht). apply bind_Ok in Hi as ([] & -> & _). by eexists. }
  exists t1'. split; [done|]. pose proof (tt_room _ _ Ht) as Hroom.
  pose proof (insert_coherent _ _ _ (tt_coherent _ _ Ht) Hmax Hi) as Hco.
  pose proof (insert_coherent _ _ _ (tt_coherent' _ _ Ht) (N.le_lt_trans _ _ _ Hroom Hmax) Hi') as Hco'.
  unfold insert_row_indexed in Hi, Hi'. apply bind_Ok in Hi as (? & _ & [= <-]), Hi' as (? & _ & [= <-]).
  split_and!; [|done|cbn; by rewrite sat_succ_below].
  split; [apply Ht|cbn; by rewrite (tt_rows _ _ Ht)| |exact Hco'|exact Hco].
  cbn. rewrite !sat_succ_below by lia. lia.
Qed.

Lemma insert_rows_tracks c' c name rows : ∀ t' t count t1 n,
  table_tracks t' t → regular_table t → (tb_next_row_id t + N.of_nat (length rows) ≤ u64_max)%N →
  foldM (insert_one c name []) (t, count) rows = Ok (t1, n) →
  ∃ t1', foldM (insert_one c' name []) (t', count) rows = Ok (t1', n) ∧ table_tracks t1' t1.
Proof.
  induction rows as [|row rows IH]; intros t' t count t1 n Ht Hreg Hmax Hf.
  { injection Hf as <- <-. by exists t'. }
  rewrite foldM_cons in Hf |- *. apply bind_Ok in Hf as ([t2 k] & Hi & Hf). cbn [length] in Hmax.
  unfold insert_one in Hi |- *. destruct (elements (unique_conflict_positions t row)) as [|p ps] eqn:He; [|done].
  apply elements_empty_iff, leibniz_equiv in He.
  rewrite (unique_conflicts_tracks t' t row), elements_empty by (done || apply rt_names, Hreg).
  apply bind_Ok in Hi as (t3 & Hi & [= -> <-]).
  destruct (insert_row_tracks t' t row t2) as (t2' & -> & Ht2 & Hs & Hnext); [done|lia|done|].
  cbn [mbind outcome_bind]. apply (IH t2' t2); [done| |lia|done].
  destruct Hreg as [Hn Hch]. split; by rewrite Hs.
Qed.

(** A write that succeeds has validated its result; one that does the same on a
    catalog that tracks succeeds too. *)
Lemma write_stable_at `{StatementDebug} c st' st :
  is_write_statement st = true → is_write_statement st' = true →
  (∀ c' w r, tracks c' c → regular c → regular w → has_room c st →
    execute_statement c st = Ok (w, r) → is_error r = false → validate_catalog w = Ok tt →
    ∃ w', execute_statement c' st' = Ok (w', r) ∧ tracks w' w) →
  stable_at c st' st.
Proof.
  intros Hst Hst' Hsame c' w r Hc Hreg Hregw Hroom Hx He. unfold execute_catalog in *. rewrite Hst in Hx. rewrite Hst'.
  apply bind_Ok in Hx as ([c1 r1] & Hi & Hx). destruct (is_error r1) eqn:He1; [simplify_eq; congruence|].
  apply or_error_Ok in Hx as [([] & Hv & [= <- <-])|(? & _ & ?)]; [|by simplify_eq].
  destruct (Hsame c' c1 r1 Hc Hreg Hregw Hroom Hi He1 Hv) as (w' & -> & Hw). cbn [mbind outcome_bind].
  rewrite He1, (validate_catalog_tracks _ _ Hw Hregw Hv). by do 2 eexists.
Qed.

Lemma write_stable `{StatementDebug} st' st :
  is_write_statement st = true → is_write_statement st' = true →
  (∀ c' c w r, tracks c' c → regular c → regular w → has_room c st →
    execute_statement c st = Ok (w, r) → is_error r = false → validate_catalog w = Ok tt →
    ∃ w', execute_statement c' st' = Ok (w', r) ∧ tracks w' w) →
  stable st' st.
Proof. intros Hst Hst' Hsame c. apply write_stable_at; [done..|]. intros c'. apply Hsame. Qed.

Lemma store_tracks c' c name t' t n w r :
  tracks c' c → table_tracks t' t → regular w → is_error r = false →
  store_and_validate c name t n = Ok (w, r) →
  store_and_validate c' name t' n = Ok (insert_table c' name t', r) ∧ tracks (insert_table c' name t') w.
Proof.
  intros Hc Ht Hreg He Hi. unfold store_and_validate in *.
  apply or_error_Ok in Hi as [([] & Hv & [= <- <-])|(? & _ & ?)]; [|by simplify_eq].
  pose proof (tracks_insert _ _ name _ _ Hc Ht) as Hw. by rewrite (validate_catalog_tracks _ _ Hw Hreg Hv).
Qed.

(** INSERT of rows of values, without ON DUPLICATE KEY UPDATE. *)
Lemma insert_values_stable `{StatementDebug} table_name columns rows :
  stable (Insert table_name columns (InsertValues rows) []) (Insert table_name columns (InsertValues rows) []).
Proof.
  apply write_stable; [done..|]. intros c' c w r Hc Hreg Hregw Hroom Hi He _. cbn [execute_statement] in *.
  unfold execute_insert in *. cbn [source_rows or_error] in *. set (name := to_ascii_lowercase table_name) in *.
  destruct (cat_tables c !! name) as [t|] eqn:Hn; [|by simplify_eq].
  destruct (tracks_lookup _ _ _ _ Hc Hn) as (t' & -> & Ht). rewrite (tt_schema _ _ Ht).
  apply or_error_Ok in Hi as [(built & Hb & Hi)|(? & _ & ?)]; [|by simplify_eq]. rewrite Hb. cbn [or_error].
  apply or_error_Ok in Hi as [([t1 n] & Hf & Hi)|(? & _ & ?)]; [|by simplify_eq].
  destruct (insert_rows_tracks c' c name built t' t 0 t1 n) as (t1' & -> & Ht1); [done|by eapply Hreg| |done|].
  { rewrite (mapM_length _ _ _ Hb). by eapply (Hroom t rows). }
  destruct (store_tracks c' c name t1' t1 n w r) as [Hs Hw]; [done..|]. eexists. split; [exact Hs|done].
Qed.

(** CREATE TABLE. *)
Lemma table_tracks_refl t : Coherent t → table_tracks t t.
Proof. by split. Qed.

Lemma create_table_stable `{StatementDebug} table_name columns constraints if_not_exists :
  stable (CreateTable table_name columns constraints if_not_exists)
    (CreateTable table_name columns constraints if_not_exists).
Proof.
  apply write_stable; [done..|]. intros c' c w r Hc _ _ _ Hi He _. cbn [execute_statement] in *.
  unfold execute_create_table in *. set (name := to_ascii_lowercase table_name) in *.
  destruct (cat_tables c !! name) as [t|] eqn:Hn.
  { destruct (tracks_lookup _ _ _ _ Hc Hn) as (t' & -> & _). simplify_eq. by exists c'. }
  rewrite (tracks_none _ _ _ Hc Hn). destruct (duplicate_column ∅ columns); [by simplify_eq|].
  apply or_error_Ok in Hi as [(st & -> & Hi)|(? & _ & ?)]; [|by simplify_eq]. cbn [or_error].
  case_decide; simplify_eq. eexists. split; [done|].
  apply tracks_insert; [done|]. apply table_tracks_refl, table_new_coherent.
Qed.

(** *** UPDATE and DELETE over the rows *)

(** A selection that looks at the row alone, and one that no index can serve. *)
Definition row_only (selection : option Expr) : Prop :=
  ∀ e, selection = Some e → row_expression e = true.
Definition row_selection (selection : option Expr) : Prop :=
  ∀ e, selection = Some e → collect_index_predicates e = [] ∧ row_expression e = true.

Lemma row_selection_only selection : row_selection selection → row_only selection.
Proof. intros Hs e He. by destruct (Hs e He). Qed.

Lemma no_candidates t selection : row_selection selection → (candidate_row_ids t selection).1 = None.
Proof.
  intros Hs. destruct selection as [e|]; [|done]. destruct (Hs e eq_refl) as [Hp _].
  unfold candidate_row_ids. rewrite Hp.
  assert (∀ ixs, foldl (consider_index []) None ixs = None) as ->; [|done].
  induction ixs as [|ix ixs IH]; [done|]. cbn [foldl]. rewrite <-IH. f_equal.
  unfold consider_index. by destruct (index_columns _).
Qed.

Lemma selected_tracks c' c columns selection row :
  row_only selection → selected c' columns selection row = selected c columns selection row.
Proof.
  intros Hs. destruct selection as [e|]; [|done]. cbn. by rewrite (eval_row_expression c' c) by auto.
Qed.

Lemma update_row_tracks c' c t' t name assignments selection pr :
  table_tracks t' t → row_only selection → Forall (λ a, row_expression a.2 = true) assignments →
  update_row c' t' name None assignments selection pr = update_row c t name None assignments selection pr.
Proof.
  intros Ht Hs Ha. destruct pr as [position row]. unfold update_row, is_candidate. cbn [is_none_or].
  unfold table_columns. rewrite (tt_schema _ _ Ht), (selected_tracks c' c) by done. apply bind_ext. intros [] _; [|done].
  set (columns := _ <$> schema_columns (tb_schema t)).
  enough (∀ current, foldM (update_assignment c' t' columns row) current assignments
    = foldM (update_assignment c t columns row) current assignments) as -> by done.
  induction Ha as [|a assignments Ha _ IH]; intros current; [done|]. rewrite !foldM_cons.
  assert (update_assignment c' t' columns row current a = update_assignment c t columns row current a) as ->.
  { unfold update_assignment. by rewrite (tt_schema _ _ Ht), (eval_row_expression c' c). }
  by apply bind_ext.
Qed.

(** Stored again under rebuilt indexes. *)
Lemma rebuilt_tracks t1' t1 :
  tb_schema t1' = tb_schema t1 → tb_rows t1' = tb_rows t1 → (tb_next_row_id t1' ≤ tb_next_row_id t1)%N →
  ids_ok t1' → ids_ok t1 → table_tracks (rebuild_index t1') (rebuild_index t1).
Proof. intros. split; [done..| |]; by apply rebuild_coherent. Qed.

Lemma update_stable `{StatementDebug} table_name assignments selection :
  row_selection selection → Forall (λ a, row_expression a.2 = true) assignments →
  stable (Update table_name assignments selection) (Update table_name assignments selection).
Proof.
  intros Hs Ha. apply write_stable; [done..|]. intros c' c w r Hc _ Hregw _ Hi He _. cbn [execute_statement] in *.
  unfold execute_update in *. set (name := to_ascii_lowercase table_name) in *.
  destruct (cat_tables c !! name) as [t|] eqn:Hn; [|by simplify_eq].
  destruct (tracks_lookup _ _ _ _ Hc Hn) as (t' & -> & Ht). rewrite !no_candidates in * by done.
  apply or_error_Ok in Hi as [(results & Hr & Hi)|(? & _ & ?)]; [|by simplify_eq].
  assert (mapM (update_row c' t' name None assignments selection) (imap pair (tb_rows t')) = Ok results) as ->.
  { rewrite (tt_rows _ _ Ht), <-Hr. apply mapM_ext. intros pr _. apply update_row_tracks; auto using row_selection_only. }
  cbn [or_error]. assert (length results.*1 = length (tb_rows t)) as Hlen.
  { rewrite length_fmap, (mapM_length _ _ _ Hr). apply length_imap. }
  eapply store_tracks in Hi as [Hs' Hw]; [eexists; split; [exact Hs'|exact Hw]|done| |done|done].
  destruct Ht as [Hsc Hro Hnx Hco' Hco], (co_ids _ Hco') as [Hl' Hso' Hf'], (co_ids _ Hco) as [Hl Hso Hf].
  apply rebuilt_tracks; [done|done|done|split; cbn..]; try done; congruence.
Qed.

Lemma delete_rows_tracks c' c t' t name selection l : ∀ rows ids ids' d out kept n,
  table_tracks t' t → row_only selection → (∀ pr, pr ∈ l → pr.1 < length (tb_row_ids t')) →
  foldM (delete_row c t name None selection) (rows, ids, d) l = Ok (out, kept, n) →
  ∃ kept', foldM (delete_row c' t' name None selection) (rows, ids', d) l = Ok (out, kept', n).
Proof.
  induction l as [|[p row] l IH]; intros rows ids ids' d out kept n Ht Hs Hlt Hf.
  { injection Hf as <- <- <-. by exists ids'. }
  rewrite foldM_cons in Hf |- *. apply bind_Ok in Hf as ([[rows1 ids1] d1] & Hd & Hf).
  assert (∃ ids1', delete_row c' t' name None selection (rows, ids', d) (p, row) = Ok (rows1, ids1', d1)) as [ids1' ->].
  { unfold delete_row, is_candidate in *. cbn [is_none_or] in *. unfold table_columns in *.
    rewrite (tt_schema _ _ Ht), (selected_tracks c' c) by done.
    apply bind_Ok in Hd as (m & -> & Hd). cbn [mbind outcome_bind]. destruct m; [simplify_eq; by eexists|].
    apply bind_Ok in Hd as (id & _ & [= <- <- <-]).
    destruct (lookup_lt_is_Some_2 (tb_row_ids t') p) as [id' Hid']; [apply (Hlt (p, row)); set_solver|].
    rewrite (proj2 (vec_index_Ok _ _ _) Hid'). by eexists. }
  cbn [mbind outcome_bind]. eapply IH; [done|done| |exact Hf]. intros pr Hpr. apply Hlt. set_solver.
Qed.

Lemma delete_stable `{StatementDebug} table_name selection :
  row_selection selection → stable (Delete table_name selection) (Delete table_name selection).
Proof.
  intros Hs. apply write_stable; [done..|]. intros c' c w r Hc _ Hregw _ Hi He _. cbn [execute_statement] in *.
  unfold execute_delete in *. set (name := to_ascii_lowercase table_name) in *.
  destruct (cat_tables c !! name) as [t|] eqn:Hn; [|by simplify_eq].
  destruct (tracks_lookup _ _ _ _ Hc Hn) as (t' & -> & Ht). rewrite !no_candidates in * by done.
  apply or_error_Ok in Hi as [([[rows ids] n] & Hf & Hi)|(? & _ & ?)]; [|by simplify_eq].
  destruct (delete_rows_tracks c' c t' t name selection (imap pair (tb_rows t)) [] [] [] 0 rows ids n) as [ids' Hf'];
    [done|by apply row_selection_only| |done|].
  { intros [p row] Hp%elem_of_imap_pair. rewrite (ids_length _ (co_ids _ (tt_coherent' _ _ Ht))), (tt_rows _ _ Ht).
    by eapply lookup_lt_Some. }
  rewrite <-(tt_rows _ _ Ht) in Hf'. rewrite Hf'. cbn [or_error].
  eapply store_tracks in Hi as [Hs' Hw]; [eexists; split; [exact Hs'|exact Hw]|done| |done|done].
  apply rebuilt_tracks; [apply Ht|done|apply Ht| |]; eapply deleted_ids_ok; (apply Ht || exact Hf' || exact Hf).
Qed.
End tracking.
