(* ===== verification/Durable.v ===== *)
(** * Durable.v: committed data survives

    A database whose log and snapshot give its data back stays one whatever its
    sessions do, and so every commit is there after any restart.  The statements
    logged have to mean the same without the optimiser and without the
    particular indexes (Tracking.v); the faults excluded are those of the
    findings. *)

From S2P Require Import Prelude Machine Float64 Like Types Concrete Keys Table Eval Queries.
From S2P Require Import Statement Planner Validate Ddl Execute Integrity Alter Params Str Log Parser NotSql Wal.
From S2P Require Import SqlAst Database Tracking.

(** ** Snapshots *)

(** What JSON keeps of a table: the runtime indexes are skipped. *)
Definition stored_table (t : Table) : Table :=
  {| tb_schema := tb_schema t; tb_rows := tb_rows t; tb_row_ids := tb_row_ids t;
     tb_next_row_id := tb_next_row_id t; tb_primary_key_index := ∅; tb_indexes := ∅;
     tb_bloom_false_positive_rate := F_0_01 |}.
Definition stored (s : CatalogSnapshot) : CatalogSnapshot :=
  {| sn_format_version := sn_format_version s; sn_catalog_version := sn_catalog_version s;
     sn_schema_version := sn_schema_version s; sn_timestamp_millis := sn_timestamp_millis s;
     sn_tables := stored_table <$> sn_tables s |}.

(** serde_json reads back what it wrote, where JSON can express it. *)
Class SnapshotLaws `{SnapshotFormat} := {
  snapshot_safe : CatalogSnapshot → Prop;
  snapshot_json_roundtrip : ∀ s, snapshot_safe s → snapshot_from_json (snapshot_to_json s) = Some (stored s);
}.

Section durable.
Context `{RustStd} `{SqlGrammar} `{LogFormat} `{StatementDebug} `{!BraceRefused} `{!SnapshotFormat} `{!SnapshotLaws}.

(** ** Loading a snapshot *)

(** Catalogs a snapshot gives back: names in lower case, schemas the migration
    of old files leaves alone, counters that have started. *)
Record settled (c : Catalog) : Prop := {
  se_regular : regular c;
  se_names : ∀ name t, cat_tables c !! name = Some t → to_ascii_lowercase name = name;
  se_schema : ∀ name t, cat_tables c !! name = Some t → tb_schema (migrate_legacy_rows t) = tb_schema t;
  se_counter : ∀ name t, cat_tables c !! name = Some t → (1 ≤ tb_next_row_id t ≤ u64_max)%N;
}.

Lemma max_row_id_lt ids n : Forall (λ id, id < n)%N ids → (1 ≤ n)%N → (max_row_id ids < n)%N.
Proof. intros Hf Hn. unfold max_row_id. induction Hf as [|id ids Hid _ IH]; cbn [foldr]; lia. Qed.

Lemma max_row_id_ge ids : Forall (λ id, id ≤ max_row_id ids)%N ids.
Proof.
  unfold max_row_id. induction ids as [|id ids IH]; [done|]. cbn [foldr]. constructor; [lia|].
  eapply Forall_impl; [exact IH|]. intros x Hx. cbn beta in Hx |- *. lia.
Qed.

Lemma migrated_tracks t :
  Coherent t → tb_schema (migrate_legacy_rows t) = tb_schema t → (1 ≤ tb_next_row_id t ≤ u64_max)%N →
  table_tracks (migrate_legacy_rows (stored_table t)) t.
Proof.
  intros Hco Hs Hn. destruct (co_ids _ Hco) as [Hlen Hsort Hfresh].
  pose proof (max_row_id_lt _ _ Hfresh (proj1 Hn)) as Hmax.
  split; [exact Hs|done| | |done].
  - unfold migrate_legacy_rows. cbn [tb_next_row_id rebuild_index tb_row_ids tb_rows stored_table].
    rewrite decide_True by done. unfold sat_succ. lia.
  - unfold migrate_legacy_rows. apply rebuild_coherent. cbn [tb_row_ids tb_rows stored_table].
    rewrite decide_True by done. split; cbn [tb_row_ids tb_rows tb_next_row_id]; [done|done|].
    eapply Forall_impl; [apply max_row_id_ge|]. intros id Hid. cbn beta in Hid |- *. unfold sat_succ. lia.
Qed.

(** Inserting the entries of a map, in any order and under names that are
    their own keys, is mapping it. *)
Lemma insert_entries {A B} (f : A → B) (key : string → string) l (m : gmap string B) :
  NoDup l.*1 → Forall (λ kv : string * A, key kv.1 = kv.1) l → ∀ name,
  foldl (λ m '(k, a), <[key k := f a]> m) m l !! name
  = match (list_to_map l : gmap string A) !! name with Some a => Some (f a) | None => m !! name end.
Proof.
  intros Hnd Hk name. revert m. induction Hk as [|[k a] l Hka _ IH]; intros m.
  { change (list_to_map [] : gmap string A) with (∅ : gmap string A). by rewrite lookup_empty. }
  cbn [fmap list_fmap fst] in Hnd, Hka. apply NoDup_cons in Hnd as [Hnot Hnd]. cbn [foldl list_to_map foldr].
  change (list_to_map ((k, a) :: l) : gmap string A) with (<[k := a]> (list_to_map l : gmap string A)).
  rewrite IH, Hka by done. destruct (decide (name = k)) as [->|Hne].
  - rewrite lookup_insert_eq, not_elem_of_list_to_map_1 by done. by rewrite lookup_insert_eq.
  - by rewrite !lookup_insert_ne by done.
Qed.

Lemma from_tables_lookup (tables : gmap string Table) name :
  (∀ name t, tables !! name = Some t → to_ascii_lowercase name = name) →
  cat_tables (from_tables tables) !! name = migrate_legacy_rows <$> tables !! name.
Proof.
  intros Hl. unfold from_tables. cbn [cat_tables].
  rewrite (insert_entries migrate_legacy_rows to_ascii_lowercase).
  - assert ((list_to_map (hm_iter tables) : gmap string Table) = tables) as ->.
    { rewrite <-(list_to_map_to_list tables) at 2. symmetry. apply list_to_map_proper.
      - apply NoDup_fst_map_to_list.
      - symmetry. apply hm_iter_perm. }
    rewrite lookup_empty. by destruct (tables !! name).
  - rewrite (hm_iter_perm _ tables). apply NoDup_fst_map_to_list.
  - apply Forall_forall. intros [k t] Hkt%elem_of_hm_iter. by eapply Hl.
Qed.

Lemma stored_tracks c : CatalogOk c → settled c → tracks (from_tables (stored_table <$> cat_tables c)) c.
Proof.
  intros Hok Hse name. rewrite from_tables_lookup.
  - rewrite lookup_fmap. destruct (cat_tables c !! name) as [t|] eqn:Ht; [|constructor]. constructor.
    apply migrated_tracks; [by eapply Hok|by eapply se_schema|by eapply se_counter].
  - intros n t Hn. rewrite lookup_fmap in Hn. destruct (cat_tables c !! n) eqn:Hc; [|done]. by eapply se_names.
Qed.

(** Configuring the filters rebuilds the indexes of the same rows. *)
Lemma configure_coherent t rate : Coherent t → Coherent (set_bloom_false_positive_rate t rate).
Proof. intros Hco. apply rebuild_coherent. by destruct (co_ids _ Hco). Qed.

Lemma configured_tracks c' c rate : tracks c' c → tracks c' (configure_bloom_false_positive_rate c rate).
Proof.
  intros Ht name. unfold configure_bloom_false_positive_rate. cbn [cat_tables set_tables]. rewrite lookup_fmap.
  destruct (Ht name) as [t' t [? ? ? ? Hco]|]; constructor. split; [done..|]. by apply configure_coherent.
Qed.
Lemma configured_tracks' c' c rate : tracks c' c → tracks (configure_bloom_false_positive_rate c' rate) c.
Proof.
  intros Ht name. unfold configure_bloom_false_positive_rate. cbn [cat_tables set_tables]. rewrite lookup_fmap.
  destruct (Ht name) as [t' t [? ? ? Hco' ?]|]; constructor. split; [done..| |done]. by apply configure_coherent.
Qed.

(** ** Replaying what was logged *)

(** Statements that, from [c] on, succeed again when they are replayed. *)
Fixpoint replayable_from (c : Catalog) (ds : list DurableStatement) : Prop :=
  match ds with
  | [] => True
  | dur :: ds =>
      (∃ st st', durable_meaning dur = Ok st ∧ durable_statement dur = Ok st' ∧ stable_at c st' st ∧ has_room c st) ∧
      ∀ w, run_durable c dur = Ok w → regular w ∧ replayable_from w ds
  end.

Lemma replay_statement_tracks c' c dur w :
  tracks c' c → regular c → replayable_from c [dur] → run_durable c dur = Ok w →
  ∃ w', replay_statement c' dur = Ok w' ∧ tracks w' w.
Proof.
  intros Ht Hreg [(st & st' & Hm & Hs & Hst & Hroom) Hw] Hx. destruct (Hw w Hx) as [Hregw _].
  unfold run_durable in Hx. rewrite Hm in Hx. cbn [mbind outcome_bind] in Hx.
  apply bind_Ok in Hx as ([w1 r] & Hx & Hr).
  assert (w1 = w ∧ is_error r = false) as [-> He] by (destruct r; by simplify_eq).
  destruct (Hst c' w r Ht Hreg Hregw Hroom Hx He) as (w' & r' & Hx' & He' & Htw).
  unfold replay_statement. rewrite Hs. cbn [mbind outcome_bind]. rewrite Hx'. cbn [mbind outcome_bind].
  exists (if is_schema_statement st' then with_schema_version w' (sat_succ (cat_schema_version w')) else w').
  split; [by destruct r'|]. by destruct (is_schema_statement st').
Qed.

Lemma replay_tracks ds : ∀ c' c w,
  tracks c' c → regular c → replayable_from c ds → foldM run_durable c ds = Ok w →
  ∃ w', foldM replay_statement c' ds = Ok w' ∧ tracks w' w.
Proof.
  induction ds as [|dur ds IH]; intros c' c w Ht Hreg Hr Hf.
  { injection Hf as <-. by exists c'. }
  destruct Hr as [Hd Hw].
  rewrite foldM_cons in Hf |- *. apply bind_Ok in Hf as (c1 & Hx & Hf). destruct (Hw c1 Hx) as [Hreg1 Hrest].
  destruct (replay_statement_tracks c' c dur c1) as (c1' & -> & Ht1); [done|done| |done|].
  { split; [done|]. intros w1 Hw1. destruct (Hw w1 Hw1) as [Hr1 _]. by split. }
  cbn [mbind outcome_bind]. by eapply IH.
Qed.

(** ** The invariant: the files give the data back *)

(** The snapshot holds [base]; the log holds records the snapshot has already
    and then those that lead from it to the present, and replaying these tracks
    the catalog in memory. *)
Record durable_at (d : Db) (base : Catalog) (v0 : N) (old new : list WalRecord) (c' : Catalog) : Prop := {
  du_loads : load_catalog (db_disk d) = Ok base;
  du_log : disk_wal (db_disk d) = Some (log_of (old ++ new));
  du_old : chained v0 old (cat_version base);
  du_new : chained (cat_version base) new (cat_version (db_catalog d));
  du_replays : foldM apply_record base new = Ok c';
  du_tracks : tracks c' (db_catalog d);
  du_settled : settled (db_catalog d);
  du_open : db_wal_open d = true;
  du_auto : db_auto_save d = true;
}.
Definition durable (d : Db) : Prop := ∃ base v0 old new c', durable_at d base v0 old new c'.

(** Databases that differ in their caches alone. *)
Record quiet (d d' : Db) : Prop := {
  qu_catalog : db_catalog d' = db_catalog d;
  qu_disk : db_disk d' = db_disk d;
  qu_open : db_wal_open d' = db_wal_open d;
  qu_auto : db_auto_save d' = db_auto_save d;
}.
Lemma quiet_refl d : quiet d d.
Proof. done. Qed.
Lemma quiet_trans d d1 d2 : quiet d d1 → quiet d1 d2 → quiet d d2.
Proof. intros [E1 E2 E3 E4] [E5 E6 E7 E8]. split; congruence. Qed.
Lemma quiet_cache d cache : quiet d (with_cache d cache).
Proof. done. Qed.

Lemma durable_quiet d d' : durable d → quiet d d' → durable d'.
Proof.
  intros (base & v0 & old & new & c' & [E1 E2 E3 E4 E5 E6 E7 E8 E9]) [Q1 Q2 Q3 Q4].
  exists base, v0, old, new, c'. split; rewrite ?Q1, ?Q2, ?Q3, ?Q4; done.
Qed.

(** The log of [d] with one more record: statements [ds] at time [now]. *)
Definition log_with (d : Db) (now : N) (ds : list DurableStatement) : string :=
  default EmptyString (disk_wal (db_disk d)) +:+
  log_line (wal_record_new now (cat_version (db_catalog d)) (sat_succ (cat_version (db_catalog d))) ds).

(** A commit: the statements run on the catalog, logged as one record. *)
Record appended (d : Db) (now : N) (ds : list DurableStatement) (d' : Db) : Prop := {
  ap_run : ∃ w rate, foldM run_durable (db_catalog d) ds = Ok w ∧
    cat_tables (db_catalog d') = cat_tables (configure_bloom_false_positive_rate w rate);
  ap_version : cat_version (db_catalog d') = sat_succ (cat_version (db_catalog d));
  ap_disk : db_disk d' = with_wal (db_disk d) (Some (log_with d now ds));
  ap_open : db_wal_open d' = true;
  ap_auto : db_auto_save d' = db_auto_save d;
}.

(** Records that JSON can express, of statements that can be replayed. *)
Definition recordable (c : Catalog) (ds : list DurableStatement) : Prop :=
  json_safe ds = true ∧ replayable_from c ds.

Lemma load_with_wal disk wal : load_catalog (with_wal disk wal) = load_catalog disk.
Proof. done. Qed.

Lemma log_of_app rs r : log_of (rs ++ [r]) = log_of rs +:+ log_line r.
Proof.
  induction rs as [|x rs IH]; cbn [log_of foldr app]; [by rewrite append_empty_r|].
  change (foldr (λ r s, log_line r +:+ s) EmptyString (rs ++ [r])) with (log_of (rs ++ [r])).
  rewrite IH. symmetry. apply app_assoc_string.
Qed.

Lemma chained_snoc v rs w r :
  chained v rs w → wr_base_version r = w → (w < wr_commit_version r)%N → written r →
  chained v (rs ++ [r]) (wr_commit_version r).
Proof.
  induction 1 as [v|v x rs w Hb Hlt Hw Hc IH]; intros Hr Hlt' Hwr; cbn [app].
  - constructor; [done|done|done|constructor].
  - constructor; [done|done|done|by apply IH].
Qed.

Lemma durable_appended d now ds d' :
  durable d → appended d now ds d' → recordable (db_catalog d) ds → settled (db_catalog d') →
  (cat_version (db_catalog d) < u64_max)%N → durable d'.
Proof.
  intros (base & v0 & old & new & c' & [E1 E2 E3 E4 E5 E6 E7 E8 E9])
    [(w & rate & Hw & Htab) Hver Hdisk Hopen Hauto] [Hsafe Hrep] Hset Hmax.
  destruct (replay_tracks ds c' (db_catalog d) w) as (w' & Hw' & Htw); [done|apply E7|done|done|].
  set (r := wal_record_new now (cat_version (db_catalog d)) (sat_succ (cat_version (db_catalog d))) ds).
  exists base, v0, old, (new ++ [r]), (with_version w' (wr_commit_version r)).
  split; [by rewrite Hdisk, load_with_wal| |done| | | |done|done|congruence].
  - rewrite Hdisk. cbn [with_wal disk_wal]. f_equal. unfold log_with. rewrite E2. cbn [default from_option id].
    change (id ?x) with x. fold r. by rewrite (assoc_L (++)), log_of_app.
  - rewrite Hver. apply (chained_snoc _ _ (cat_version (db_catalog d)) r); [done|done| |].
    + cbn. rewrite sat_succ_below by done. lia.
    + split; [|done]. unfold wal_record_valid. cbn. by rewrite !bool_decide_true.
  - rewrite foldM_app, E5. cbn [mbind outcome_bind]. rewrite foldM_cons.
    assert (apply_record c' r = Ok (with_version w' (wr_commit_version r))) as ->; [|done].
    unfold apply_record. change (wr_statements r) with ds. by rewrite Hw'.
  - eapply tracks_same_tables; [exact (configured_tracks _ _ rate Htw)|done|done].
Qed.

(** ** Snapshots and restarts keep the invariant *)

Lemma durable_saved d env :
  durable d → env_save_fault env ≠ SaveAfterPublish → snapshot_safe (snapshot_of (env_now env) (db_catalog d)) →
  durable (save d env).1.
Proof.
  intros Hd Hf Hsafe. pose proof Hd as (base & v0 & old & new & c' & [E1 E2 E3 E4 E5 E6 E7 E8 E9]).
  unfold save. rewrite E9, E8. destruct (env_save_fault env); [|exact Hd|done].
  set (c := db_catalog d) in *.
  set (loaded := {| cat_version := cat_version c; cat_schema_version := cat_schema_version c;
                    cat_tables := cat_tables (from_tables (stored_table <$> cat_tables c)) |}).
  exists loaded, (cat_version c), [], [], loaded.
  split; try done.
  - unfold load_catalog. cbn [fst db_disk with_disk disk_catalog]. rewrite snapshot_json_roundtrip by done.
    cbn [ok_or mbind outcome_bind]. by rewrite decide_True.
  - apply (chained_nil (cat_version c)).
  - apply (chained_nil (cat_version c)).
  - eapply tracks_same_tables; [exact (stored_tracks c (tracks_ok _ _ E6) E7)|done|done].
Qed.

Lemma tracks_refl c : CatalogOk c → tracks c c.
Proof.
  intros Hok name. destruct (cat_tables c !! name) as [t|] eqn:Ht; constructor.
  apply table_tracks_refl. by eapply Hok.
Qed.

(** What may stand at the end of the log: nothing, or the first bytes of a
    record, cut between two characters. *)
Definition tail_ok (tail : string) : Prop :=
  tail = EmptyString ∨
  ∃ r n, written r ∧ n < String.length (record_to_json r) ∧
    tail = String.substring 0 n (record_to_json r) ∧ valid_utf8 tail = true.

Lemma replay_tail rs tail c :
  Forall written rs → tail_ok tail → replay_wal (log_of rs +:+ tail) c = replay_wal (log_of rs) c.
Proof.
  intros Hrs [->|(r & n & Hr & Hn & -> & Hu)]; [by rewrite append_empty_r|].
  apply replay_torn_tail; [done|]. by apply cut_torn.
Qed.

Lemma opening d base v0 old new c' tail options :
  durable_at d base v0 old new c' → tail_ok tail →
  open_with_options (with_wal (db_disk d) (Some (log_of (old ++ new) +:+ tail))) options =
  Ok {| db_catalog := configure_bloom_false_positive_rate c' (bloom_false_positive_rate options);
        db_options := options; db_auto_save := true; db_wal_open := true;
        db_cache := cache_new (plan_cache_capacity options);
        db_disk := with_wal (db_disk d) (Some (log_of (old ++ new) +:+ tail)) |}.
Proof.
  intros [E1 E2 E3 E4 E5 E6 E7 E8 E9] Htail. unfold open_with_options.
  rewrite load_with_wal, E1. cbn [mbind outcome_bind disk_wal with_wal].
  rewrite replay_tail by (done || (apply Forall_app; split; by eapply chained_written)).
  rewrite (replay_from_snapshot v0 old new (cat_version (db_catalog d)) base E3 E4), E5. done.
Qed.

Lemma durable_version d base v0 old new c' :
  durable_at d base v0 old new c' → cat_version c' = cat_version (db_catalog d).
Proof. intros [_ _ _ E4 E5 _ _ _ _]. by eapply foldM_apply_version. Qed.

Lemma with_wal_same disk file : disk_wal disk = Some file → with_wal disk (Some file) = disk.
Proof. destruct disk. cbn. by intros ->. Qed.

(** Opening the files again gives a durable database that tracks. *)
Lemma durable_reopened d options d2 :
  durable d → open_with_options (db_disk d) options = Ok d2 → settled (db_catalog d2) → durable d2.
Proof.
  intros (base & v0 & old & new & c' & Hat) Ho Hse. pose proof Hat as [E1 E2 E3 E4 E5 E6 E7 E8 E9].
  pose proof (opening d base v0 old new c' EmptyString options Hat (or_introl eq_refl)) as Ho'.
  rewrite append_empty_r, with_wal_same in Ho' by done. rewrite Ho' in Ho. injection Ho as <-.
  exists base, v0, old, new, c'. pose proof (durable_version _ _ _ _ _ _ Hat) as Hv.
  split; cbn [db_catalog db_disk db_wal_open db_auto_save]; try done.
  - change (chained (cat_version base) new (cat_version c')). by rewrite Hv.
  - apply configured_tracks, tracks_refl. by eapply tracks_ok'.
Qed.

(** ** What a call does to the files *)

(** A call leaves catalog and files alone, or logs one record, or logs a
    record and saves. *)
Inductive writes (d : Db) (env : Env) (d' : Db) : Prop :=
| writes_nothing : quiet d d' → writes d env d'
| writes_record ds : appended d (env_now env) ds d' → writes d env d'
| writes_and_saves ds d1 : appended d (env_now env) ds d1 → quiet (save d1 env).1 d' → writes d env d'.

Lemma appended_quiet d d1 now ds d' : quiet d d1 → appended d1 now ds d' → appended d now ds d'.
Proof.
  intros [Q1 Q2 Q3 Q4] [A1 A2 A3 A4 A5]. rewrite Q1 in A1, A2.
  split; [done|done| |done|congruence]. rewrite A3, Q2. unfold log_with. by rewrite Q1, Q2.
Qed.

Lemma appended_then_quiet d now ds d1 d' : appended d now ds d1 → quiet d1 d' → appended d now ds d'.
Proof. intros [A1 A2 A3 A4 A5] [Q1 Q2 Q3 Q4]. split; rewrite ?Q1, ?Q2, ?Q3, ?Q4; done. Qed.

Lemma quiet_writes d d1 env d' : quiet d d1 → writes d1 env d' → writes d env d'.
Proof.
  intros Hq [Hw|ds Hw|ds d2 Hw Hs].
  - apply writes_nothing. by eapply quiet_trans.
  - eapply writes_record, appended_quiet; done.
  - eapply writes_and_saves; [by eapply appended_quiet|done].
Qed.

Lemma log_transaction_writes d env commit ds :
  db_wal_open d = true → env_wal_fault env = WalOk →
  log_transaction d env (cat_version (db_catalog d)) commit ds =
  (with_disk d (with_wal (db_disk d) (Some (default EmptyString (disk_wal (db_disk d)) +:+
     log_line (wal_record_new (env_now env) (cat_version (db_catalog d)) commit ds)))) true, None).
Proof. intros Ho Hf. unfold log_transaction. by rewrite Ho, Hf. Qed.

Lemma run_one c dur st w r :
  durable_meaning dur = Ok st → execute_catalog c st = Ok (w, r) → is_error r = false →
  foldM run_durable c [dur] = Ok w.
Proof.
  intros Hm Hx He. rewrite foldM_cons. unfold run_durable. rewrite Hm. cbn [mbind outcome_bind]. rewrite Hx.
  cbn [mbind outcome_bind]. by destruct r.
Qed.

Lemma autocommit_writes d env dur st d' r :
  db_wal_open d = true → env_wal_fault env = WalOk → durable_meaning dur = Ok st →
  execute_autocommit_durable d env dur st = Ok (d', r) → writes d env d'.
Proof.
  intros Ho Hf Hm Hx. unfold execute_autocommit_durable in Hx. destruct (negb _).
  { apply bind_Ok in Hx as ([w res] & _ & [= <- <-]). by apply writes_nothing. }
  apply bind_Ok in Hx as ([w res] & Hc & Hx). destruct (is_error res) eqn:He.
  { simplify_eq. by apply writes_nothing. }
  set (working := with_version _ _) in Hx. rewrite log_transaction_writes in Hx by done.
  set (d1 := with_catalog _ working) in Hx.
  assert (appended d (env_now env) [dur] d1) as Ha.
  { split; try done. exists w, (bloom_false_positive_rate (db_options d)). split; [by eapply run_one|].
    cbn. by destruct (is_schema_statement st). }
  destruct (is_schema_statement st && db_auto_save d1).
  - destruct (save d1 env) as [d2 e] eqn:Hs. injection Hx as <- _.
    eapply writes_and_saves; [done|by rewrite Hs].
  - injection Hx as <- _. by eapply writes_record.
Qed.

Lemma commit_writes d env s d' s' r :
  db_wal_open d = true → env_wal_fault env = WalOk → session_ok d s →
  commit d env s = (d', s', r) → writes d env d'.
Proof.
  intros Ho Hf Hs Hx. unfold commit in Hx. destruct (s_transaction s) as [t|] eqn:Ht; [|simplify_eq; by apply writes_nothing].
  destruct (Hs t Ht) as (_ & c0 & _ & Hsame & Hrun).
  case_decide as Hv; [|simplify_eq; by apply writes_nothing]. specialize (Hsame Hv). subst c0.
  destruct (tx_statements t) as [|dur ds]; [simplify_eq; by apply writes_nothing|].
  rewrite <-Hv, log_transaction_writes in Hx by done.
  set (d1 := with_catalog _ _) in Hx.
  assert (appended d (env_now env) (dur :: ds) d1) as Ha.
  { split; try done. by exists (tx_catalog t), (bloom_false_positive_rate (db_options d)). }
  destruct (tx_schema_changed t); simplify_eq; [|by eapply writes_record].
  eapply writes_record, appended_then_quiet; [done|apply quiet_cache].
Qed.

Lemma in_session_writes d env s dur st d' s' r :
  db_wal_open d = true → env_wal_fault env = WalOk → durable_meaning dur = Ok st →
  execute_in_session d env s dur st = Ok (d', s', r) → writes d env d'.
Proof.
  intros Ho Hf Hm Hx. unfold execute_in_session in Hx. destruct (s_transaction s).
  - apply bind_Ok in Hx as ([w res] & _ & [= <- _ _]). by apply writes_nothing.
  - apply bind_Ok in Hx as ([d1 res] & Ha & [= <- _ _]). by eapply autocommit_writes.
Qed.

(** A lookup of the cache first. *)
Lemma parse_cached_quiet d sql : quiet d (parse_cached d sql).1.
Proof.
  unfold parse_cached. destruct (cache_get _ _ _) as [cache [st|]]; [done|].
  by destruct (prepare_statement _).
Qed.

Lemma prepared_writes d env s p ps d' s' r :
  db_wal_open d = true → env_wal_fault env = WalOk →
  execute_prepared d env s p ps = Ok (d', s', r) → writes d env d'.
Proof.
  intros Ho Hf Hx. unfold execute_prepared in Hx.
  set (found := if decide _ then _ else _) in Hx.
  assert (quiet d found.1) as Hq by (unfold found; case_decide; [done|apply parse_cached_quiet]).
  destruct found as [d1 parsed]. cbn [fst] in Hq. eapply quiet_writes; [done|].
  apply on_error_Ok in Hx as [(st & _ & Hx)|(e & _ & [= -> _ _])]; [|by apply writes_nothing].
  apply on_error_Ok in Hx as [(bound & _ & Hx)|(e & _ & [= -> _ _])]; [|by apply writes_nothing].
  apply bind_Ok in Hx as (bound' & _ & Hx).
  eapply (in_session_writes d1 env s (DurableBound bound') bound'); [|done|done|exact Hx].
  by rewrite (qu_open _ _ Hq).
Qed.

Lemma statement_writes d env s sql st d' s' r :
  db_wal_open d = true → env_wal_fault env = WalOk → session_ok d s →
  durable_meaning (DurableSql (trim sql)) = Ok st →
  execute_session_statement d env s sql st = Ok (d', s', r) → writes d env d'.
Proof.
  intros Ho Hf Hs Hm Hx.
  destruct st as [| | | | | | | | | | | | |name value|name source|name using_|name| | |];
    cbn [execute_session_statement] in Hx; try (eapply in_session_writes; [done|done|exact Hm|exact Hx]).
  - injection Hx as <- _ _. by apply writes_nothing.
  - apply on_error_Ok in Hx as [(text & _ & Hx)|(e & _ & [= -> _ _])]; [|by apply writes_nothing].
    assert (quiet d (prepare d text).1) as Hq.
    { unfold prepare. pose proof (parse_cached_quiet d text). by destruct (parse_cached d text). }
    destruct (prepare d text) as [d1 m]. cbn [fst] in Hq. apply writes_nothing.
    apply on_error_Ok in Hx as [(p & _ & [= -> _ _])|(e & _ & [= -> _ _])]; done.
  - destruct (s_prepared s !! name) as [p|]; [|simplify_eq; by apply writes_nothing].
    apply on_error_Ok in Hx as [(ps & _ & Hx)|(e & _ & [= -> _ _])]; [|by apply writes_nothing].
    by eapply prepared_writes.
  - destruct (s_prepared s !! name); simplify_eq; by apply writes_nothing.
  - injection Hx as Hx. apply writes_nothing. unfold begin in Hx. by destruct (s_transaction s); simplify_eq.
  - injection Hx as Hx. by eapply commit_writes.
  - injection Hx as <- _ _. by apply writes_nothing.
Qed.

Lemma session_execute_writes d env s sql d' s' r :
  db_wal_open d = true → env_wal_fault env = WalOk → valid_text sql → cache_ok (db_cache d) → session_ok d s →
  session_execute d env s sql = Ok (d', s', r) → writes d env d'.
Proof.
  intros Ho Hf Hv Hc Hs Hx. unfold session_execute in Hx. pose proof (parse_cached_quiet d sql) as Hq.
  destruct (parse_cached d sql) as [d1 m] eqn:E. apply parse_cached_spec in E as (Hm & _ & Hd1); [|done].
  cbn [fst] in Hq. eapply quiet_writes; [exact Hq|].
  apply on_error_Ok in Hx as [(st & Hst & Hx)|(e & _ & [= -> _ _])]; [|by apply writes_nothing].
  eapply (statement_writes d1 env s sql st); [by rewrite (qu_open _ _ Hq)|done| | |exact Hx].
  - rewrite Hd1. by apply session_ok_cache.
  - cbn. rewrite normalize_trim by done. congruence.
Qed.

(** ** Sessions and restarts *)

(** The call that led from [d] to [d'] logged [ds], in the log or in the file a
    snapshot archived. *)
Definition logged (d d' : Db) (now : N) (ds : list DurableStatement) : Prop :=
  disk_wal (db_disk d') = Some (log_with d now ds) ∨ last (disk_archive (db_disk d')) = Some (log_with d now ds).

(** The steps of Database.v, without the faults that lose data, where every
    record is recordable and every catalog settled; and the end of the process
    with a new start. *)
Inductive durable_step : Sys → Sys → Prop :=
| du_connect d ss i : ss !! i = None →
    durable_step {| sys_db := d; sys_sessions := ss |} {| sys_db := d; sys_sessions := <[i := session_new]> ss |}
| du_disconnect d ss i :
    durable_step {| sys_db := d; sys_sessions := ss |} {| sys_db := d; sys_sessions := delete i ss |}
| du_execute d ss i s env sql d' s' r :
    ss !! i = Some s → env_wal_fault env = WalOk → env_save_fault env ≠ SaveAfterPublish → valid_text sql →
    (cat_version (db_catalog d) < u64_max)%N →
    session_execute d env s sql = Ok (d', s', r) →
    (∀ ds, logged d d' (env_now env) ds → recordable (db_catalog d) ds) →
    settled (db_catalog d') → snapshot_safe (snapshot_of (env_now env) (db_catalog d')) →
    durable_step {| sys_db := d; sys_sessions := ss |} {| sys_db := d'; sys_sessions := <[i := s']> ss |}
| du_save d ss env :
    env_save_fault env ≠ SaveAfterPublish → snapshot_safe (snapshot_of (env_now env) (db_catalog d)) →
    durable_step {| sys_db := d; sys_sessions := ss |} {| sys_db := (save d env).1; sys_sessions := ss |}
| du_restart d ss options d2 :
    open_with_options (db_disk d) options = Ok d2 → settled (db_catalog d2) →
    durable_step {| sys_db := d; sys_sessions := ss |} {| sys_db := d2; sys_sessions := ∅ |}.

Inductive durable_run (d0 : Db) : Sys → Prop :=
| durable_start : durable_run d0 {| sys_db := d0; sys_sessions := ∅ |}
| durable_more sys sys' : durable_run d0 sys → durable_step sys sys' → durable_run d0 sys'.


Lemma durable_step_ok sys sys' : durable_step sys sys' → sys_ok sys → sys_ok sys'.
Proof.
  intros Hstep. destruct Hstep.
  - apply sys_step_ok. by constructor.
  - apply sys_step_ok. by constructor.
  - apply sys_step_ok. by econstructor.
  - apply sys_step_ok. by constructor.
  - intros _. split; [apply opened_cache; right; eauto|apply map_Forall_empty].
Qed.

Lemma appended_logged d now ds d' : appended d now ds d' → logged d d' now ds.
Proof. intros Ha. left. by rewrite (ap_disk _ _ _ _ Ha). Qed.

(** The snapshot archives the log that holds the record, when it starts a new
    one. *)
Lemma saved_logged d d1 env now ds d' :
  appended d now ds d1 → db_auto_save d = true → env_save_fault env ≠ SaveAfterPublish →
  quiet (save d1 env).1 d' → logged d d' now ds.
Proof.
  intros Ha Hauto Hf Hq. unfold logged. rewrite (qu_disk _ _ Hq). unfold save.
  rewrite (ap_auto _ _ _ _ Ha), Hauto, (ap_open _ _ _ _ Ha).
  destruct (env_save_fault env); [right|left; cbn [fst]; by rewrite (ap_disk _ _ _ _ Ha)|done].
  cbn [fst db_disk with_disk disk_archive disk_wal]. rewrite (ap_disk _ _ _ _ Ha). cbn [disk_wal with_wal disk_archive].
  change (default EmptyString (Some (log_with d now ds))) with (log_with d now ds).
  rewrite bool_decide_eq_false_2; [apply last_snoc|]. unfold log_with, log_line. intros He.
  apply (f_equal String.length) in He. rewrite !append_length in He. cbn in He. lia.
Qed.

Lemma writes_durable d env d' :
  durable d → writes d env d' → env_save_fault env ≠ SaveAfterPublish →
  (cat_version (db_catalog d) < u64_max)%N →
  (∀ ds, logged d d' (env_now env) ds → recordable (db_catalog d) ds) →
  settled (db_catalog d') → snapshot_safe (snapshot_of (env_now env) (db_catalog d')) → durable d'.
Proof.
  intros Hd Hw Hf Hmax Hrec Hse Hsafe. destruct Hw as [Hq|ds Ha|ds d1 Ha Hq].
  - by eapply durable_quiet.
  - eapply durable_appended; [done|done| |done|done]. by apply Hrec, appended_logged.
  - assert (db_auto_save d = true) as Hauto by (destruct Hd as (? & ? & ? & ? & ? & []); done).
    assert (db_catalog d1 = db_catalog d') as Hc.
    { rewrite (qu_catalog _ _ Hq). symmetry. apply save_catalog. }
    eapply durable_quiet; [|exact Hq]. apply durable_saved; [|done|by rewrite Hc].
    eapply durable_appended; [done|done| |by rewrite Hc|done]. apply Hrec. by eapply saved_logged.
Qed.

Lemma durable_step_durable sys sys' :
  durable_step sys sys' → sys_ok sys → durable (sys_db sys) → durable (sys_db sys').
Proof.
  intros Hstep [Hc Hs] Hd. destruct Hstep as [| |d ss i s env sql d' s' r Hi Hf Hsf Hv Hmax Hx Hrec Hse Hsafe| |];
    cbn [sys_db sys_sessions] in *.
  - done.
  - done.
  - eapply writes_durable; [done| |done|done|done|done|done].
    eapply session_execute_writes; [|done|done|done|by apply (Hs i)|done].
    by destruct Hd as (? & ? & ? & ? & ? & []).
  - by apply durable_saved.
  - by eapply durable_reopened.
Qed.

Lemma durable_run_durable d0 sys :
  durable d0 → cache_ok (db_cache d0) → durable_run d0 sys → durable (sys_db sys) ∧ sys_ok sys.
Proof.
  intros Hd Hc. induction 1 as [|sys sys' _ [IHd IHs] Hstep]; [split; [done|]; split; [done|apply map_Forall_empty]|].
  split; [by eapply durable_step_durable|by eapply durable_step_ok].
Qed.
End durable.

(** ** Property *)

(** C3. Committed data survives as long as no write of the log fails and no
    snapshot fails after it replaced the old one. From a database that starts in
    an empty directory, say, whatever sessions do, with snapshots and restarts in
    between, the files of the database open, at any moment, to the version and to
    exactly the tables, schemas and rows of the committed catalog; also when the
    log ends with the beginning of a further record, cut between two characters.
    It is for statements that mean the same without the optimiser and under other
    indexes, for catalogs whose tables have distinct index names
    and CHECKs without subqueries, and for contents that JSON can express. *)
Theorem committed_data_survives
    `{RustStd} `{SqlGrammar} `{LogFormat} `{StatementDebug} `{!BraceRefused} `{!SnapshotFormat} `{!SnapshotLaws}
    d0 sys tail options :
  durable d0 → cache_ok (db_cache d0) → durable_run d0 sys → tail_ok tail →
  ∃ file d2, disk_wal (db_disk (sys_db sys)) = Some file ∧
    open_with_options (with_wal (db_disk (sys_db sys)) (Some (file +:+ tail))) options = Ok d2 ∧
    cat_version (db_catalog d2) = cat_version (db_catalog (sys_db sys)) ∧
    ∀ name, (λ t, (tb_schema t, tb_rows t)) <$> cat_tables (db_catalog d2) !! name
          = (λ t, (tb_schema t, tb_rows t)) <$> cat_tables (db_catalog (sys_db sys)) !! name.
Proof.
  intros Hd Hc Hrun Htail.
  destruct (durable_run_durable _ _ Hd Hc Hrun) as [(base & v0 & old & new & c' & Hat) _].
  pose proof (opening _ _ _ _ _ _ tail options Hat Htail) as Ho. pose proof (durable_version _ _ _ _ _ _ Hat) as Hv.
  destruct Hat as [_ Hlog _ _ _ Htr _ _ _]. eexists _, _. split; [exact Hlog|]. split; [exact Ho|]. split; [exact Hv|].
  intros name. cbn [db_catalog]. apply (configured_tracks' _ _ (bloom_false_positive_rate options)) in Htr.
  destruct (Htr name) as [t' t [Hs Hr _ _ _]|]; [|done]. cbn. by rewrite Hs, Hr.
Qed.

(** ** A database that starts empty is durable *)

Lemma empty_tables `{RustStd} name : cat_tables (from_tables ∅) !! name = None.
Proof.
  rewrite from_tables_lookup; [by rewrite lookup_empty|]. intros n t Hn. by rewrite lookup_empty in Hn.
Qed.

Lemma tracks_nothing `{RustStd} c' c :
  (∀ name, cat_tables c' !! name = None) → (∀ name, cat_tables c !! name = None) → tracks c' c.
Proof. intros Hn' Hn name. rewrite Hn', Hn. constructor. Qed.

Lemma durable_empty `{RustStd} `{SqlGrammar} `{LogFormat} `{StatementDebug} `{!BraceRefused} `{!SnapshotFormat} `{!SnapshotLaws}
    options d : open_with_options empty_disk options = Ok d → durable d.
Proof.
  unfold open_with_options. change (load_catalog empty_disk) with (Ok (from_tables ∅)).
  cbn [mbind outcome_bind disk_wal empty_disk]. intros [= <-].
  assert (∀ name, cat_tables (configure_bloom_false_positive_rate (from_tables ∅)
    (bloom_false_positive_rate options)) !! name = None) as Hnone.
  { intros name. unfold configure_bloom_false_positive_rate. cbn [cat_tables set_tables].
    rewrite lookup_fmap, empty_tables. done. }
  exists (from_tables ∅), 0%N, [], [], (from_tables ∅). split; try done.
  - apply (chained_nil 0).
  - apply (chained_nil 0).
  - apply tracks_nothing; [apply empty_tables|exact Hnone].
  - split; intros name t Hn; by rewrite Hnone in Hn.
Qed.

(** ** Witness *)

Section durable_examples.
#[local] Existing Instance concrete_std.
#[local] Existing Instance concrete_log.
#[local] Existing Instance concrete_grammar.
#[local] Existing Instance Database.debug_none.

(** The catalog after CREATE and one INSERT, and a format that can express its
    snapshot. *)
Definition inserted : Db * SQLSession := call (db0, session_new) "INSERT 3".
Definition expected : Catalog := db_catalog inserted.1.
#[local] Instance one_snapshot : SnapshotFormat :=
  {| snapshot_to_json := λ _, "S"; snapshot_from_json := λ _, Some (stored (snapshot_of 1000 expected));
     legacy_table_from_json := λ _, None |}.
#[local] Instance one_snapshot_laws : SnapshotLaws :=
  {| snapshot_safe := λ s, stored s = stored (snapshot_of 1000 expected); snapshot_json_roundtrip := λ s H, f_equal Some (eq_sym H) |}.

Lemma settled_one c t :
  map_to_list (cat_tables c) = [("t", t)] → bool_decide (NoDup (index_name <$> schema_indexes (tb_schema t))) = true →
  forallb (λ k, match k with CCheck _ e => row_expression e | _ => true end) (schema_constraints (tb_schema t)) = true →
  tb_schema (migrate_legacy_rows t) = tb_schema t → bool_decide (1 ≤ tb_next_row_id t ≤ u64_max)%N = true →
  settled c.
Proof.
  intros Hm Hn%bool_decide_eq_true Hk Hs Hid%bool_decide_eq_true.
  assert (∀ name u, cat_tables c !! name = Some u → name = "t" ∧ u = t) as Hone.
  { intros name u Hu%elem_of_map_to_list. rewrite Hm in Hu. apply list_elem_of_singleton in Hu. by injection Hu as -> ->. }
  split; intros name u Hu; destruct (Hone name u Hu) as [-> ->]; try done.
  split; [done|]. intros n e He. rewrite forallb_true in Hk. exact (Hk _ He).
Qed.

(** The one table of a catalog. *)
Definition table_of (c : Catalog) : Table := default (table_new (schema_new "t" [])) (cat_tables c !! "t").

Lemma db0_settled : settled (db_catalog db0).
Proof. apply (settled_one _ (table_of (db_catalog db0))); vm_compute; reflexivity. Qed.
Lemma expected_settled : settled expected.
Proof. apply (settled_one _ (table_of expected)); vm_compute; reflexivity. Qed.

Definition created_catalog : Catalog :=
  match execute_catalog catalog_default create_t with Ok (c, _) => c | _ => catalog_default end.

Lemma after_create_ok : CatalogOk after_create.
Proof.
  assert (CatalogOk created_catalog) as Hok.
  { destruct (execute_catalog_spec catalog_default create_t created_catalog (RTableCreated "t")) as [->|(_ & _ & Hok & _)].
    - apply map_Forall_empty.
    - done.
    - vm_compute. reflexivity.
    - apply map_Forall_empty.
    - done. }
  intros name t Ht. apply (Hok name t). rewrite <-Ht. f_equal.
Qed.

Lemma db0_durable : durable db0.
Proof.
  exists catalog_default, 0%N, [], [created], after_create. split.
  - vm_compute. reflexivity.
  - vm_compute. reflexivity.
  - apply (chained_nil 0).
  - replace (cat_version (db_catalog db0)) with (cat_version after_create) by (vm_compute; reflexivity).
    apply created_chained.
  - vm_compute. reflexivity.
  - replace (db_catalog db0) with (configure_bloom_false_positive_rate after_create F_0_01) by (vm_compute; reflexivity).
    apply configured_tracks, tracks_refl, after_create_ok.
  - apply db0_settled.
  - reflexivity.
  - reflexivity.
Qed.

Lemma record_text_injective r r' :
  json_safe (wr_statements r) = true → record_to_json r' = record_to_json r → r' = r.
Proof.
  intros Hr He. destruct (json_safe (wr_statements r')) eqn:Hr'.
  - apply (f_equal record_from_json) in He. rewrite !record_json_roundtrip in He by done. congruence.
  - exfalso. apply (f_equal record_from_json) in He. rewrite (record_json_roundtrip r) in He by done.
    cbn in Hr', He. apply bool_decide_eq_false in Hr'. unfold concrete_to_json in He.
    destruct (all_sql (wr_statements r')) as [l|]; [by destruct Hr'|]. vm_compute in He. discriminate He.
Qed.

Lemma append_cancel_r a b s : a +:+ s = b +:+ s → a = b.
Proof.
  intros He. apply (f_equal String.list_ascii_of_string) in He. rewrite !list_ascii_app in He.
  apply app_inv_tail in He. by rewrite <-(String.string_of_list_ascii_of_string a), He, String.string_of_list_ascii_of_string.
Qed.

Lemma log_with_injective d now ds ds' :
  json_safe ds = true → log_with d now ds' = log_with d now ds → ds' = ds.
Proof.
  unfold log_with, log_line. intros Hs He. apply (inj (String.append _)) in He. apply append_cancel_r in He.
  apply record_text_injective in He; [|done]. by injection He.
Qed.

Lemma insert_runs : session_execute db0 fine session_new "INSERT 3" = Ok (inserted.1, inserted.2, RRowsAffected 1).
Proof. vm_compute. reflexivity. Qed.

Lemma insert_recordable : recordable (db_catalog db0) [DurableSql "INSERT 3"].
Proof.
  split; [reflexivity|]. split.
  - exists insert_three, insert_three. split; [vm_compute; reflexivity|]. split; [vm_compute; reflexivity|].
    split; [apply insert_values_stable|]. intros t rows Ht [= <-].
    replace (cat_tables (db_catalog db0) !! to_ascii_lowercase "t") with (Some (table_of (db_catalog db0))) in Ht
      by (vm_compute; reflexivity).
    apply (inj Some) in Ht. subst t. vm_compute. discriminate.
  - intros w Hw. split; [|done].
    replace w with (match run_durable (db_catalog db0) (DurableSql "INSERT 3") with Ok w => w | _ => catalog_default end)
      by (by rewrite Hw).
    eapply se_regular, (settled_one _ (table_of expected)); vm_compute; reflexivity.
Qed.

Lemma insert_logged ds : logged db0 inserted.1 1000 ds → ds = [DurableSql "INSERT 3"].
Proof.
  assert (disk_wal (db_disk inserted.1) = Some (log_with db0 1000 [DurableSql "INSERT 3"])) as Hw by (vm_compute; reflexivity).
  assert (disk_archive (db_disk inserted.1) = []) as Ha by (vm_compute; reflexivity).
  unfold logged. rewrite Hw, Ha. intros [Hl|Hl]; [|discriminate Hl].
  apply (inj Some) in Hl. symmetry in Hl. by apply log_with_injective in Hl.
Qed.

Definition sys_inserted : Sys :=
  {| sys_db := inserted.1; sys_sessions := <[0 := inserted.2]> (<[0 := session_new]> ∅) |}.
Lemma insert_run : durable_run db0 sys_inserted.
Proof.
  refine (durable_more _ {| sys_db := db0; sys_sessions := <[0 := session_new]> ∅ |} _ _ _).
  { refine (durable_more _ _ _ (durable_start _) _). by constructor. }
  refine (du_execute db0 _ 0 session_new fine "INSERT 3" inserted.1 inserted.2 (RRowsAffected 1) _ _ _ _ _ insert_runs _ _ _).
  - apply lookup_insert_eq.
  - reflexivity.
  - discriminate.
  - by apply (text_valid ["I"; "N"; "S"; "E"; "R"; "T"; " "; "3"]).
  - vm_compute. reflexivity.
  - intros ds Hl%insert_logged. rewrite Hl. exact insert_recordable.
  - exact expected_settled.
  - exact (eq_refl (stored (snapshot_of 1000 expected))).
Qed.

Lemma inserted_rows :
  (λ t, (tb_schema t, tb_rows t)) <$> cat_tables (db_catalog (sys_db sys_inserted)) !! "t"
  = Some (tb_schema (table_of expected), [[VInteger 3; VText "c"]]).
Proof. vm_compute. reflexivity. Qed.

Lemma torn_line_ok : tail_ok torn_line.
Proof.
  right. exists created, 9. split_and!; [apply record_written|apply Nat.ltb_lt; vm_compute; reflexivity| |vm_compute; reflexivity].
  unfold torn_line, log_line. apply substring_short. apply Nat.leb_le. vm_compute. reflexivity.
Qed.

Lemma committed_data_survives_witness :
  ∃ file d2, disk_wal (db_disk (sys_db sys_inserted)) = Some file ∧
    open_with_options (with_wal (db_disk (sys_db sys_inserted)) (Some (file +:+ torn_line))) options = Ok d2 ∧
    (λ t, (tb_schema t, tb_rows t)) <$> cat_tables (db_catalog d2) !! "t"
    = Some (tb_schema (table_of expected), [[VInteger 3; VText "c"]]).
Proof.
  destruct (committed_data_survives db0 sys_inserted torn_line options db0_durable db0_cache_ok insert_run
    torn_line_ok) as (file & d2 & Hf & Ho & _ & Hrows).
  exists file, d2. split; [exact Hf|]. split; [exact Ho|]. rewrite Hrows. exact inserted_rows.
Defined.
End durable_examples.
