(* ===== verification/Replayable.v ===== *)
(** * Replayable.v: statements replayed on a recovered catalog

    What a statement does to the schemas and rows depends on schemas and rows
    only, not on row identifiers, Bloom filters, or the order of a hash map: so
    it does on a recovered catalog what it did on the catalog that was lost.
    This is shown of every schema statement (CREATE, ALTER and DROP TABLE, CREATE
    and DROP INDEX) and of UPDATE and DELETE through whichever index is chosen;
    Tracking has it for INSERT and for full scans. *)

From S2P Require Import Prelude Machine Float64 Like Types Concrete Keys Table Eval Queries.
From S2P Require Import Statement Planner Validate Ddl Execute Integrity Alter Typing Params Str Log Parser Wal.
From S2P Require Import SqlAst Database Tracking Durable.

Section replayable.
Context `{RustStd}.

(** ** Looking at every table *)

Lemma hm_iter_tracks c' c name t' :
  tracks c' c → (name, t') ∈ hm_iter (cat_tables c') →
  ∃ t, (name, t) ∈ hm_iter (cat_tables c) ∧ table_tracks t' t.
Proof.
  intros Hc Hin%elem_of_hm_iter. destruct (tracks_lookup_l _ _ _ _ Hc Hin) as (t & Ht & Htt).
  exists t. by rewrite elem_of_hm_iter.
Qed.

Lemma hm_iter_tracks_r c' c name t :
  tracks c' c → (name, t) ∈ hm_iter (cat_tables c) →
  ∃ t', (name, t') ∈ hm_iter (cat_tables c') ∧ table_tracks t' t.
Proof.
  intros Hc Hin%elem_of_hm_iter. destruct (tracks_lookup _ _ _ _ Hc Hin) as (t' & Ht & Htt).
  exists t'. by rewrite elem_of_hm_iter.
Qed.

(** A test of the names and schemas of the tables. *)
Definition schema_test (p : string → TableSchema → bool) (nt : string * Table) : bool :=
  p nt.1 (tb_schema nt.2).

Lemma existsb_tracks c' c p :
  tracks c' c → existsb (schema_test p) (hm_iter (cat_tables c')) = existsb (schema_test p) (hm_iter (cat_tables c)).
Proof.
  intros Hc. apply eq_true_iff_eq. rewrite !existsb_true. split; intros ([name t] & Hin & Hp).
  - destruct (hm_iter_tracks _ _ _ _ Hc Hin) as (u & Hu & Ht). exists (name, u). split; [done|].
    unfold schema_test in *. cbn in *. by rewrite <-(tt_schema _ _ Ht).
  - destruct (hm_iter_tracks_r _ _ _ _ Hc Hin) as (u & Hu & Ht). exists (name, u). split; [done|].
    unfold schema_test in *. cbn in *. by rewrite (tt_schema _ _ Ht).
Qed.

Lemma find_none_tracks c' c p :
  tracks c' c → find_first (schema_test p) (hm_iter (cat_tables c)) = None →
  find_first (schema_test p) (hm_iter (cat_tables c')) = None.
Proof.
  intros Hc. rewrite !find_first_None. intros Hn [name t'] Hin.
  destruct (hm_iter_tracks _ _ _ _ Hc Hin) as (t & Hin' & Ht). specialize (Hn _ Hin').
  unfold schema_test in *. cbn in *. by rewrite (tt_schema _ _ Ht).
Qed.

(** ** DROP TABLE and the index statements *)

Lemma tracks_delete c' c name :
  tracks c' c → tracks (set_tables c' (delete name (cat_tables c'))) (set_tables c (delete name (cat_tables c))).
Proof.
  intros Hc n. cbn [cat_tables set_tables]. destruct (decide (n = name)) as [->|Hne].
  - rewrite !lookup_delete_eq. constructor.
  - rewrite !lookup_delete_ne by done. apply Hc.
Qed.

Lemma drop_table_stable `{StatementDebug} table_name if_exists :
  stable (DropTable table_name if_exists) (DropTable table_name if_exists).
Proof.
  apply write_stable; [done..|]. intros c' c w r Hc _ _ _ Hi He _. cbn [execute_statement] in *.
  unfold execute_drop_table in *. set (name := to_ascii_lowercase table_name) in *.
  set (p := λ n s, negb (bool_decide (n = name)) && existsb (references_table name) (schema_constraints s)).
  destruct (cat_tables c !! name) as [t|] eqn:Hn.
  - destruct (tracks_lookup _ _ _ _ Hc Hn) as (t' & -> & _).
    change (λ nt : string * Table, negb (bool_decide (nt.1 = name))
      && existsb (references_table name) (schema_constraints (tb_schema nt.2))) with (schema_test p) in *.
    destruct (find_first (schema_test p) (hm_iter (cat_tables c))) as [[other u]|] eqn:Hf; [by simplify_eq|].
    rewrite (find_none_tracks _ _ _ Hc Hf). simplify_eq. eexists. split; [done|]. by apply tracks_delete.
  - rewrite (tracks_none _ _ _ Hc Hn). destruct if_exists; simplify_eq. by exists c'.
Qed.

(** A schema change of two tables with the same data. *)
Lemma schema_change_tracks t' t s :
  table_tracks t' t → table_tracks (rebuild_index (with_schema t' s)) (rebuild_index (with_schema t s)).
Proof.
  intros Ht. apply rebuilt_tracks; [done|apply Ht|apply Ht| |].
  - eapply ids_same_ok, co_ids, (tt_coherent' _ _ Ht). done.
  - eapply ids_same_ok, co_ids, (tt_coherent _ _ Ht). done.
Qed.

Lemma create_index_stable `{StatementDebug} name table_name columns unique if_not_exists :
  stable (CreateIndex name table_name columns unique if_not_exists)
    (CreateIndex name table_name columns unique if_not_exists).
Proof.
  apply write_stable; [done..|]. intros c' c w r Hc _ Hregw _ Hi He _. cbn [execute_statement] in *.
  unfold execute_create_index in *. set (tn := to_ascii_lowercase table_name) in *.
  destruct (cat_tables c !! tn) as [t|] eqn:Hn; [|by simplify_eq].
  destruct (tracks_lookup _ _ _ _ Hc Hn) as (t' & -> & Ht). rewrite (tt_schema _ _ Ht).
  destruct (existsb _ _); [destruct if_not_exists; simplify_eq; by exists c'|].
  case_bool_decide; [by simplify_eq|]. destruct (find_first _ _); [by simplify_eq|].
  apply or_error_Ok in Hi as [([] & Hv & Hi)|(? & _ & ?)]; [|by simplify_eq]. injection Hi as <- <-.
  set (s := with_indexes _ _) in *. pose proof (schema_change_tracks t' t s Ht) as Htr.
  assert (validate_unique_indexes (rebuild_index (with_schema t' s)) = Ok tt) as ->.
  { apply validate_unique_Ok; [apply Htr|]. eapply unique_holds_tracks; [exact Htr| |].
    - apply (rt_names _ (Hregw tn _ (lookup_insert_eq _ _ _))).
    - apply validate_unique_Ok; [apply Htr|exact Hv]. }
  cbn [or_error]. eexists. split; [done|]. by apply tracks_insert.
Qed.

Lemma drop_index_stable `{StatementDebug} name table_name if_exists :
  stable (DropIndex name table_name if_exists) (DropIndex name table_name if_exists).
Proof.
  apply write_stable; [done..|]. intros c' c w r Hc _ _ _ Hi He _. cbn [execute_statement] in *.
  unfold execute_drop_index in *. set (tn := to_ascii_lowercase table_name) in *.
  destruct (cat_tables c !! tn) as [t|] eqn:Hn; [|by simplify_eq].
  destruct (tracks_lookup _ _ _ _ Hc Hn) as (t' & -> & Ht). rewrite (tt_schema _ _ Ht).
  destruct (position _ _) as [i|]; [|destruct if_exists; simplify_eq; by exists c'].
  apply bind_Ok in Hi as (d & Hd & Hi). rewrite Hd. cbn [mbind outcome_bind].
  destruct (index_automatic d); [by simplify_eq|]. injection Hi as <- <-.
  eexists. split; [done|]. apply tracks_insert; [done|]. by apply schema_change_tracks.
Qed.

(** ** ALTER TABLE *)

(** Tables with one schema and the same rows. *)
Definition same_data (t' t : Table) : Prop := tb_schema t' = tb_schema t ∧ tb_rows t' = tb_rows t.

(** What succeeds on one of them succeeds on the other, with the same schema
    and rows. *)
Definition follows {A} (R : A → A → Prop) (m' m : outcome A) : Prop :=
  ∀ a, m = Ok a → ∃ a', m' = Ok a' ∧ R a' a.

Lemma follows_bind {A B} (R : B → B → Prop) (m : outcome A) (k' k : A → outcome B) :
  (∀ a, m = Ok a → follows R (k' a) (k a)) → follows R (m ≫= k') (m ≫= k).
Proof. intros Hk b (a & Ha & Hb)%bind_Ok. rewrite Ha. cbn [mbind outcome_bind]. by eapply Hk. Qed.

Lemma follows_Ok {A} (R : A → A → Prop) a' a : R a' a → follows R (Ok a') (Ok a).
Proof. intros Hr b [= <-]. eauto. Qed.

Lemma follows_Err {A} (R : A → A → Prop) (m' : outcome A) e : follows R m' (Err e).
Proof. by intros a. Qed.

(** Steps through two runs of one operation. *)
Ltac follow :=
  repeat match goal with
  | |- follows _ (Err _) (Err _) => apply follows_Err
  | |- follows _ (mbind _ _) (mbind _ _) => apply follows_bind; intros
  | |- follows _ (if ?b then _ else _) _ => destruct b
  | |- follows _ (match ?o with Some _ => _ | None => _ end) _ => destruct o
  end.

Section alter.
Context (t' t : Table) (Hd : same_data t' t).

Lemma add_column_follows column constraints if_not_exists :
  follows (option_Forall2 same_data) (alter_add_column t' column constraints if_not_exists)
    (alter_add_column t column constraints if_not_exists).
Proof.
  destruct Hd as [Hs Hr]. unfold alter_add_column. rewrite Hs, Hr. follow; apply follows_Ok; constructor.
  split; cbn; by rewrite ?Hs, ?Hr.
Qed.

Lemma drop_column_follows c' c table_name name if_exists :
  tracks c' c →
  follows (option_Forall2 same_data) (alter_drop_column c' table_name t' name if_exists)
    (alter_drop_column c table_name t name if_exists).
Proof.
  intros Hc. destruct Hd as [Hs Hr]. unfold alter_drop_column.
  assert (column_referenced c' table_name t' name = column_referenced c table_name t name) as ->.
  { set (p := λ (n : string) s, negb (bool_decide (n = table_name))
      && existsb (refers_to_column table_name name) (schema_constraints s)).
    unfold column_referenced. rewrite Hs. f_equal. exact (existsb_tracks c' c p Hc). }
  rewrite Hs, Hr. follow; apply follows_Ok; constructor. split; cbn; by rewrite ?Hs.
Qed.

Lemma modify_column_follows old_name column constraints :
  follows same_data (alter_modify_column t' old_name column constraints)
    (alter_modify_column t old_name column constraints).
Proof.
  destruct Hd as [Hs Hr]. unfold alter_modify_column. rewrite Hs, Hr. follow; by apply follows_Ok.
Qed.

Lemma set_default_follows column value :
  follows same_data (alter_set_default t' column value) (alter_set_default t column value).
Proof.
  destruct Hd as [Hs Hr]. unfold alter_set_default. rewrite Hs. follow; apply follows_Ok; split; cbn; by rewrite ?Hs, ?Hr.
Qed.

Lemma set_nullable_follows column nullable :
  follows same_data (alter_set_nullable t' column nullable) (alter_set_nullable t column nullable).
Proof.
  destruct Hd as [Hs Hr]. unfold alter_set_nullable. rewrite Hs, Hr. follow; apply follows_Ok; split; cbn; by rewrite ?Hs, ?Hr.
Qed.

Lemma set_data_type_follows column d :
  follows same_data (alter_set_data_type t' column d) (alter_set_data_type t column d).
Proof.
  destruct Hd as [Hs Hr]. unfold alter_set_data_type. rewrite Hs, Hr. follow; apply follows_Ok; split; cbn; by rewrite ?Hs, ?Hr.
Qed.

Lemma add_constraint_follows k :
  follows same_data (alter_add_constraint t' k) (alter_add_constraint t k).
Proof.
  destruct Hd as [Hs Hr]. unfold alter_add_constraint. cbv zeta. rewrite Hs. follow; apply follows_Ok; split; cbn; by rewrite ?Hs, ?Hr.
Qed.

Lemma drop_constraint_follows name if_exists :
  follows same_data (alter_drop_constraint t' name if_exists) (alter_drop_constraint t name if_exists).
Proof.
  destruct Hd as [Hs Hr]. unfold alter_drop_constraint. cbv zeta. rewrite Hs. follow; apply follows_Ok; split; cbn; by rewrite ?Hs, ?Hr.
Qed.

Lemma drop_primary_key_follows : follows same_data (alter_drop_primary_key t') (alter_drop_primary_key t).
Proof.
  destruct Hd as [Hs Hr]. unfold alter_drop_primary_key. cbv zeta. rewrite Hs. follow; apply follows_Ok; split; cbn; by rewrite ?Hs, ?Hr.
Qed.
End alter.

Lemma tracks_data t' t : table_tracks t' t → same_data t' t.
Proof. by intros []. Qed.

Lemma refresh_tracks t' t u' u :
  table_tracks t' t → ids_same t' u' → ids_same t u → same_data u' u →
  table_tracks (refresh_constraint_metadata u') (refresh_constraint_metadata u).
Proof.
  intros Ht Hi' Hi [Hs Hr].
  unfold refresh_constraint_metadata. rewrite Hs. apply rebuilt_tracks; [done|exact Hr| |..].
  2: { apply (ids_same_ok t' (with_schema u' _)); [exact Hi'|apply co_ids, Ht]. }
  2: { apply (ids_same_ok t (with_schema u _)); [exact Hi|apply co_ids, Ht]. }
  cbn. rewrite (proj1 (proj2 Hi')), (proj1 (proj2 Hi)). apply Ht.
Qed.

(** What an operation leaves: catalogs that track, tables that track. *)
Definition both_track (p' p : Catalog * Table) : Prop := tracks p'.1 p.1 ∧ table_tracks p'.2 p.2.

Lemma refreshed_follows c' c t' t m' m :
  tracks c' c → table_tracks t' t → follows same_data m' m →
  (∀ u, m' = Ok u → ids_same t' u) → (∀ u, m = Ok u → ids_same t u) →
  follows both_track (refreshed c' m') (refreshed c m).
Proof.
  intros Hc Ht Hm Hi' Hi p Hp. unfold refreshed in Hp. apply bind_Ok in Hp as (u & Hu & [= <-]).
  destruct (Hm u Hu) as (u' & Hu' & Hd). unfold refreshed. rewrite Hu'. eexists. split; [done|].
  split; [done|]. eapply refresh_tracks; eauto.
Qed.

Lemma refreshed_opt_follows c' c t' t m' m :
  tracks c' c → table_tracks t' t → follows (option_Forall2 same_data) m' m →
  (∀ u, m' = Ok (Some u) → ids_same t' u) → (∀ u, m = Ok (Some u) → ids_same t u) →
  follows both_track (refreshed_opt c' t' m') (refreshed_opt c t m).
Proof.
  intros Hc Ht Hm Hi' Hi p Hp. unfold refreshed_opt in Hp. apply bind_Ok in Hp as (o & Ho & [= <-]).
  destruct (Hm o Ho) as (o' & Ho' & Hd). unfold refreshed_opt. rewrite Ho'. eexists. split; [done|].
  split; [done|]. destruct Hd as [u' u Hd|]; [|done]. eapply refresh_tracks; eauto.
Qed.

Lemma rename_in_others_tracks c' c n o o' :
  tracks c' c →
  tracks (set_tables c' (rename_in_others n o o' (cat_tables c'))) (set_tables c (rename_in_others n o o' (cat_tables c))).
Proof.
  intros Hc name. cbn [cat_tables set_tables]. unfold rename_in_others. rewrite !map_lookup_imap.
  specialize (Hc name). destruct Hc as [t' t Ht|]; cbn [mbind option_bind]; constructor.
  case_bool_decide; [done|]. rewrite (tt_schema _ _ Ht). destruct (existsb _ _); [|done].
  apply (refresh_tracks t' t); [done..|]. split; [done|apply Ht].
Qed.

Lemma apply_alter_tracks c' c n t' t op :
  tracks c' c → table_tracks t' t →
  follows both_track (apply_alter_operation c' n t' op) (apply_alter_operation c n t op).
Proof.
  intros Hc Ht. pose proof (tracks_data _ _ Ht) as Hd.
  destruct op as [column constraints e|name e|o o'|o column constraints|column value|column nullable|column d|k|name e|];
    cbn [apply_alter_operation].
  - eapply refreshed_opt_follows; [done|done|by apply add_column_follows|..]; intros u; apply alter_add_column_ids.
  - eapply refreshed_opt_follows; [done|done|by apply drop_column_follows|..]; intros u; apply alter_drop_column_ids.
  - intros p Hp. apply bind_Ok in Hp as ([c1 t1] & Hr & [= <-]). unfold alter_rename_column in *.
    rewrite (tt_schema _ _ Ht). case_bool_decide; [done|]. apply bind_Ok in Hr as (i & -> & [= <- <-]).
    cbn [mbind outcome_bind]. eexists. split; [reflexivity|]. split; [by apply rename_in_others_tracks|].
    cbn [snd]. eapply (refresh_tracks t' t); [done..|]. destruct Hd as [Hs Hr]. split; cbn; by rewrite ?Hs, ?Hr.
  - eapply refreshed_follows; [done|done|by apply modify_column_follows|..]; intros u; apply alter_modify_column_ids.
  - eapply refreshed_follows; [done|done|by apply set_default_follows|..]; intros u Hu; apply alter_schema_only_ids; naive_solver.
  - eapply refreshed_follows; [done|done|by apply set_nullable_follows|..]; intros u Hu; apply alter_schema_only_ids; naive_solver.
  - eapply refreshed_follows; [done|done|by apply set_data_type_follows|..]; intros u; apply alter_set_data_type_ids.
  - eapply refreshed_follows; [done|done|by apply add_constraint_follows|..]; intros u Hu; apply alter_schema_only_ids; naive_solver.
  - eapply refreshed_follows; [done|done|by apply drop_constraint_follows|..]; intros u Hu; apply alter_schema_only_ids; naive_solver.
  - eapply refreshed_follows; [done|done|by apply drop_primary_key_follows|..]; intros u Hu; apply alter_schema_only_ids; naive_solver.
Qed.

Lemma alter_loop_tracks n ops : ∀ c' c t' t w r,
  tracks c' c → table_tracks t' t → alter_loop c n t ops = Ok (w, r) → is_error r = false →
  ∃ w', alter_loop c' n t' ops = Ok (w', r) ∧ tracks w' w.
Proof.
  induction ops as [|op ops IH]; intros c' c t' t w r Hc Ht Hx He; cbn [alter_loop] in *.
  - injection Hx as <- <-. eexists. split; [done|]. apply tracks_insert; [done|].
    eapply (refresh_tracks t' t); [done..|]. by apply tracks_data.
  - apply or_error_Ok in Hx as [([c1 t1] & Ha & Hx)|(? & _ & ?)]; [|by simplify_eq].
    destruct (apply_alter_tracks c' c n t' t op Hc Ht _ Ha) as ([c1' t1'] & -> & Hc1 & Ht1). cbn [or_error].
    by eapply IH.
Qed.

Lemma alter_table_stable `{StatementDebug} table_name ops :
  stable (AlterTable table_name ops) (AlterTable table_name ops).
Proof.
  apply write_stable; [done..|]. intros c' c w r Hc _ _ _ Hi He _. cbn [execute_statement] in *.
  unfold execute_alter_table in *. set (name := to_ascii_lowercase table_name) in *.
  destruct (cat_tables c !! name) as [t|] eqn:Hn; [|by simplify_eq].
  destruct (tracks_lookup _ _ _ _ Hc Hn) as (t' & -> & Ht). by eapply alter_loop_tracks.
Qed.

(** ** UPDATE and DELETE through an index *)

(** Each literal an index could look up has the type of its column, which is
    not FLOAT, or is NULL. *)
Definition literals_match (s : TableSchema) (selection : option Expr) : bool :=
  match selection with
  | Some e =>
      forallb (λ p, is_none_or (λ column, negb (bool_decide (col_type column = TFloat))
          && (is_null (ip_value p) || bool_decide (data_type (ip_value p) = col_type column)))
        (column_index s (ip_column p) ≫= (schema_columns s !!.)))
        (collect_index_predicates e)
  | None => true
  end.

(** On a typed table such a selection may use any index. *)
Lemma typed_indexable t selection :
  Coherent t → table_typed t → index_columns_ok (tb_schema t) → literals_match (tb_schema t) selection = true →
  indexable t selection.
Proof.
  intros Hco Hty Hix Hlit. split_and!; [done| |done|].
  { eapply Forall_impl; [exact Hty|]. intros row Hrow. exact (Forall2_length _ _ _ Hrow). }
  intros e ->. cbn in Hlit. rewrite forallb_forall in Hlit. intros p row i v Hp Hrow Hi Hv.
  specialize (Hlit p (proj1 (list_elem_of_In _ _) Hp)). rewrite Hi in Hlit. cbn in Hlit.
  unfold table_typed in Hty. rewrite Forall_forall in Hty. specialize (Hty row Hrow).
  destruct (Forall2_lookup_l _ _ _ _ _ Hty Hv) as (column & Hc & Hst). rewrite Hc in Hlit. cbn in Hlit.
  apply andb_true_iff in Hlit as [Hfl Hl]. apply negb_true_iff, bool_decide_eq_false in Hfl.
  unfold stores in Hst. destruct (is_null v) eqn:Hn; [by destruct v|].
  apply orb_true_iff in Hl as [Hl|Hl]; [by destruct v, (ip_value p)|]. apply bool_decide_eq_true in Hl.
  destruct v, (ip_value p); cbn in *; try done; congruence.
Qed.

Lemma indexable_tracks t' t selection : table_tracks t' t → indexable t selection → indexable t' selection.
Proof.
  intros [Hs Hr _ Hco' _] (_ & Hw & Hix & Hty). unfold indexable, table_wide, predicates_typed in *.
  rewrite Hs, Hr. by split_and!.
Qed.

Lemma update_reference_tracks c' c t' t name assignments selection row :
  table_tracks t' t → row_only selection → Forall (λ a, row_expression a.2 = true) assignments →
  update_reference c' t' name assignments selection row = update_reference c t name assignments selection row.
Proof. intros Ht Hs Ha. exact (update_row_tracks c' c t' t name assignments selection (0, row) Ht Hs Ha). Qed.

(** Every row can be evaluated, so any index finds the rows a scan finds. *)
Definition scannable_update (c : Catalog) (table_name : string) (assignments : list (string * Expr))
    (selection : option Expr) : Prop :=
  ∀ t, let name := to_ascii_lowercase table_name in
    cat_tables c !! name = Some t → indexable t selection ∧
    ∃ results, mapM (update_reference c t name assignments selection) (tb_rows t) = Ok results.
Definition scannable_delete (c : Catalog) (table_name : string) (selection : option Expr) : Prop :=
  ∀ t, let name := to_ascii_lowercase table_name in
    cat_tables c !! name = Some t → indexable t selection ∧ ∃ kept, survivors c t name selection = Ok kept.

Lemma update_scan_stable `{StatementDebug} c table_name assignments selection :
  row_only selection → Forall (λ a, row_expression a.2 = true) assignments →
  scannable_update c table_name assignments selection →
  stable_at c (Update table_name assignments selection) (Update table_name assignments selection).
Proof.
  intros Hs Ha Hsc. apply write_stable_at; [done..|]. intros c' w r Hc _ Hregw _ Hi He _. cbn [execute_statement] in *.
  unfold scannable_update in Hsc. cbv zeta in Hsc. set (name := to_ascii_lowercase table_name) in *.
  destruct (cat_tables c !! name) as [t|] eqn:Hn.
  2: { unfold execute_update in Hi. fold name in Hi. rewrite Hn in Hi. by simplify_eq. }
  destruct (Hsc t eq_refl) as [Hix (results & Hr)].
  destruct (tracks_lookup _ _ _ _ Hc Hn) as (t' & Hn' & Ht).
  rewrite (update_scans c table_name t assignments selection results) in Hi by done.
  rewrite (update_scans c' table_name t' assignments selection results).
  - assert (length results.*1 = length (tb_rows t)) as Hlen by (rewrite length_fmap; by eapply mapM_length).
    eapply store_tracks in Hi as [Hs' Hw]; [eexists; split; [exact Hs'|exact Hw]|done| |done|done].
    destruct Ht as [Hsc' Hro Hnx Hco' Hco], (co_ids _ Hco') as [Hl' Hso' Hf'], (co_ids _ Hco) as [Hl Hso Hf].
    apply rebuilt_tracks; [done|done|done|split; cbn..]; try done; congruence.
  - done.
  - by eapply indexable_tracks.
  - fold name. rewrite (tt_rows _ _ Ht), <-Hr. apply mapM_ext. intros row _. by apply update_reference_tracks.
Qed.

(** DELETE keeps the same rows whatever their identifiers. *)
Definition keep_row (f : Row → outcome bool) (kept : list (Row * N)) (p : Row * N) : outcome (list (Row * N)) :=
  m ← f p.1; Ok (if m : bool then kept else kept ++ [p]).

Lemma keep_rows_same (f' f : Row → outcome bool) rows : (∀ row, f' row = f row) →
  ∀ ids' ids pre' pre kept, length ids' = length rows → length ids = length rows → pre'.*1 = pre.*1 →
  foldM (keep_row f) pre (zip rows ids) = Ok kept →
  ∃ kept', foldM (keep_row f') pre' (zip rows ids') = Ok kept' ∧ kept'.*1 = kept.*1.
Proof.
  intros Hff. induction rows as [|row rows IH]; intros ids' ids pre' pre kept Hl' Hl Hpre Hf.
  { destruct ids, ids'; [|done..]. injection Hf as <-. by exists pre'. }
  destruct ids as [|id ids], ids' as [|id' ids']; [done..|]. cbn [zip zip_with] in *.
  rewrite foldM_cons in Hf |- *.
  change (keep_row f' pre' (row, id')) with (m ← f' row; Ok (if m : bool then pre' else pre' ++ [(row, id')])). rewrite Hff.
  apply bind_Ok in Hf as (pre1 & (m & Hm & [= <-])%bind_Ok & Hf). cbn [fst] in Hm. rewrite Hm. cbn [mbind outcome_bind].
  eapply IH; [by injection Hl'|by injection Hl| |exact Hf]. destruct m; [done|]. by rewrite !fmap_app, Hpre.
Qed.

Lemma survivors_tracks c' c t' t name selection kept :
  table_tracks t' t → row_only selection → survivors c t name selection = Ok kept →
  ∃ kept', survivors c' t' name selection = Ok kept' ∧ kept'.*1 = kept.*1.
Proof.
  intros Ht Hs. pose proof (ids_length _ (co_ids _ (tt_coherent _ _ Ht))) as Hl.
  pose proof (ids_length _ (co_ids _ (tt_coherent' _ _ Ht))) as Hl'. unfold survivors.
  rewrite (tt_rows _ _ Ht) in Hl' |- *. eapply (keep_rows_same (selected c' _ selection)); [|done..]. intros row.
  unfold table_columns. rewrite (tt_schema _ _ Ht). by apply selected_tracks.
Qed.

Lemma delete_scan_stable `{StatementDebug} c table_name selection :
  row_only selection → scannable_delete c table_name selection →
  stable_at c (Delete table_name selection) (Delete table_name selection).
Proof.
  intros Hs Hsc. apply write_stable_at; [done..|]. intros c' w r Hc _ Hregw _ Hi He _. cbn [execute_statement] in *.
  unfold scannable_delete in Hsc. cbv zeta in Hsc. set (name := to_ascii_lowercase table_name) in *.
  destruct (cat_tables c !! name) as [t|] eqn:Hn.
  2: { unfold execute_delete in Hi. fold name in Hi. rewrite Hn in Hi. by simplify_eq. }
  destruct (Hsc t eq_refl) as [Hix (kept & Hk)].
  destruct (tracks_lookup _ _ _ _ Hc Hn) as (t' & Hn' & Ht).
  destruct (survivors_tracks c' c t' t name selection kept Ht Hs Hk) as (kept' & Hk' & Hfst).
  pose proof (indexable_tracks _ _ _ Ht Hix) as Hix'.
  rewrite (delete_is_full_scan c table_name t selection kept) in Hi by done.
  rewrite (delete_is_full_scan c' table_name t' selection kept') by done.
  replace (length (tb_rows t') - length kept') with (length (tb_rows t) - length kept).
  2: { rewrite (tt_rows _ _ Ht), <-(length_fmap fst kept), <-Hfst. by rewrite length_fmap. }
  rewrite Hfst. destruct (delete_rows_reference _ _ _ _ _ Hix Hk) as (d & Hd & _).
  destruct (delete_rows_reference _ _ _ _ _ Hix' Hk') as (d' & Hd' & _). rewrite Hfst in Hd'.
  eapply store_tracks in Hi as [Hs' Hw]; [eexists; split; [exact Hs'|exact Hw]|done| |done|done].
  apply rebuilt_tracks; [apply Ht|done|apply Ht| |]; eapply deleted_ids_ok; (apply Ht || exact Hd' || exact Hd).
Qed.

(** ** The statements a log can replay *)

(** Schema statements, INSERT of values, and UPDATE and DELETE that look at the
    row alone, if no index can serve them or every index serves them alike. *)
Definition replayable (c : Catalog) (st : Statement) : Prop :=
  match st with
  | CreateTable _ _ _ _ | DropTable _ _ | CreateIndex _ _ _ _ _ | DropIndex _ _ _ | AlterTable _ _ => True
  | Insert _ _ (InsertValues _) [] => True
  | Update table_name assignments selection =>
      Forall (λ a, row_expression a.2 = true) assignments ∧
      (row_selection selection ∨ row_only selection ∧ scannable_update c table_name assignments selection)
  | Delete table_name selection =>
      row_selection selection ∨ row_only selection ∧ scannable_delete c table_name selection
  | _ => False
  end.

Lemma replayable_stable `{StatementDebug} c st : replayable c st → stable_at c st st.
Proof.
  destruct st as [| | | | |table_name columns [rows|q] [|a l]| |table_name assignments selection|table_name selection| | | | | | | | | | |];
    try done; intros Hst.
  - apply create_table_stable.
  - apply drop_table_stable.
  - apply create_index_stable.
  - apply drop_index_stable.
  - apply alter_table_stable.
  - apply insert_values_stable.
  - destruct Hst as [Ha [Hs|[Hs Hsc]]]; [by apply update_stable|by apply update_scan_stable].
  - destruct Hst as [Hs|[Hs Hsc]]; [by apply delete_stable|by apply delete_scan_stable].
Qed.
End replayable.

(** C4. A replayable statement that succeeds on a catalog succeeds on every
    catalog with the same schemas and rows, whatever its row identifiers, Bloom
    filters and hash maps, and leaves the same schemas and rows. Replayable are
    the schema statements, INSERT of VALUES without ON DUPLICATE KEY UPDATE, and
    UPDATE and DELETE whose expressions are over the row alone and whose selection
    either gives an index nothing to search for, or compares indexed columns with
    literals of comparable types and, with the assignments, evaluates on every
    row. The catalogs have distinct index names in each table, CHECKs without
    subqueries, and row identifiers to spare. *)
Theorem replayable_statements_replay `{RustStd} `{StatementDebug} st c' c w r :
  replayable c st → tracks c' c → regular c → regular w → has_room c st →
  execute_catalog c st = Ok (w, r) → is_error r = false →
  ∃ w' r', execute_catalog c' st = Ok (w', r') ∧ is_error r' = false ∧
    ∀ name, (λ t, (tb_schema t, tb_rows t)) <$> cat_tables w' !! name
          = (λ t, (tb_schema t, tb_rows t)) <$> cat_tables w !! name.
Proof.
  intros Hst Hc Hreg Hregw Hroom Hx He.
  destruct (replayable_stable c st Hst c' w r Hc Hreg Hregw Hroom Hx He) as (w' & r' & Hx' & He' & Hw).
  exists w', r'. split_and!; [done..|]. intros name. destruct (Hw name) as [t' t Ht|]; [|done].
  cbn. by rewrite (tt_schema _ _ Ht), (tt_rows _ _ Ht).
Qed.

(** ** Witness: an ALTER TABLE replayed under other Bloom filters *)

Section replayable_examples.
#[local] Existing Instance concrete_std.
#[local] Existing Instance Database.debug_none.

Definition alter_t : Statement :=
  AlterTable "t" [AddColumn (column_new "n" TInteger) [] false; RenameColumn "v" "w"].
Definition altered_t : Catalog := match execute_catalog history alter_t with Ok (c, _) => c | _ => history end.
Definition recovered : Catalog := configure_bloom_false_positive_rate history F_0_5.

Lemma history_regular : regular history.
Proof. apply se_regular, (settled_one _ (table_of history)); vm_compute; reflexivity. Qed.
Lemma altered_t_regular : regular altered_t.
Proof. apply se_regular, (settled_one _ (table_of altered_t)); vm_compute; reflexivity. Qed.

(** An UPDATE that the primary key serves. *)
Definition is_three : Expr := EBinary (EColumn None "id") (OpCompare CmpEqual) (ELiteral (VInteger 3)).
Definition update_t : Statement := Update "t" [("v", ELiteral (VText "z"))] (Some is_three).
Definition updated_t : Catalog := match execute_catalog history update_t with Ok (c, _) => c | _ => history end.
Lemma updated_t_regular : regular updated_t.
Proof. apply se_regular, (settled_one _ (table_of updated_t)); vm_compute; reflexivity. Qed.

Lemma history_coherent t : cat_tables history !! "t" = Some t → Coherent t.
Proof. apply (proj1 (reachable_ok _ _ history_reachable)). Qed.

Lemma update_t_replayable : replayable history update_t.
Proof.
  split; [by repeat constructor|]. right. split; [by intros e [= <-]|].
  intros t name Ht. subst name. change (to_ascii_lowercase "t") with "t" in *. split.
  - apply typed_indexable; [by apply history_coherent|by apply (reachable_typed _ _ history_reachable "t")|..].
    all: replace t with (table_of history) by (unfold table_of; by rewrite Ht).
    + intros d column Hd Hc. replace (schema_indexes (tb_schema (table_of history))) with [{| index_name := "t_pk"; index_columns := ["id"]; index_unique := true; index_automatic := true |}] in Hd by (vm_compute; reflexivity).
      apply list_elem_of_singleton in Hd as ->. apply list_elem_of_singleton in Hc as ->. exists 0. vm_compute. reflexivity.
    + vm_compute. reflexivity.
  - replace t with (table_of history) by (unfold table_of; by rewrite Ht). eexists. vm_compute. reflexivity.
Qed.

Lemma recovered_tracks : tracks recovered history.
Proof. apply (configured_tracks' history history F_0_5), tracks_refl. exact (proj1 (reachable_ok _ _ history_reachable)). Qed.

Lemma replayable_statements_replay_witness :
  (∃ w' r', execute_catalog recovered alter_t = Ok (w', r') ∧ is_error r' = false ∧
    (λ t, (tb_schema t, tb_rows t)) <$> cat_tables w' !! "t"
    = Some (tb_schema (table_of altered_t), [[VInteger 3; VText "c"; VNull]])) ∧
  (∃ w' r', execute_catalog recovered update_t = Ok (w', r') ∧ is_error r' = false ∧
    (λ t, (tb_schema t, tb_rows t)) <$> cat_tables w' !! "t"
    = Some (tb_schema (table_of history), [[VInteger 3; VText "z"]])).
Proof.
  split.
  - destruct (replayable_statements_replay alter_t recovered history altered_t (RRowsAffected 0))
      as (w' & r' & Hx & He & Hw); [done|apply recovered_tracks|apply history_regular|apply altered_t_regular|done|vm_compute; reflexivity|done|].
    exists w', r'. split_and!; [done..|]. rewrite Hw. vm_compute. reflexivity.
  - destruct (replayable_statements_replay update_t recovered history updated_t (RRowsAffected 1))
      as (w' & r' & Hx & He & Hw); [apply update_t_replayable|apply recovered_tracks|apply history_regular|apply updated_t_regular|done|vm_compute; reflexivity|done|].
    exists w', r'. split_and!; [done..|]. rewrite Hw. vm_compute. reflexivity.
Defined.
End replayable_examples.
