(* ===== verification/Metadata.v ===== *)
(** * Metadata.v: the columns announced for a prepared query
    (src/sql/database.rs, 713-752 and 917-971)

    What the server tells a client about the result of a prepared query before
    it runs: a name and a type for each column.  The names are those of the
    result for a query over one table; over joins and derived tables the
    announcement falls short of the result. *)

From S2P Require Import Prelude Machine Float64 Like Types Concrete Keys Table Eval Queries.
From S2P Require Import Statement Planner Validate Ddl Execute Integrity Params Str Log Parser Wal Database.

Fixpoint prepared_expression_type (e : Expr) (source_table : option Table) : DataType :=
  match e with
  | ELiteral v => data_type v
  | EColumn _ name =>
      match (t ← source_table; schema_column (tb_schema t) name) with
      | Some c => col_type c
      | None => TText
      end
  | EBinary l op r =>
      match op with
      | OpCompare _ | OpAnd | OpOr => TBoolean
      | OpAdd | OpSubtract | OpMultiply | OpDivide =>
          match prepared_expression_type l source_table, prepared_expression_type r source_table with
          | TFloat, _ | _, TFloat => TFloat
          | TInteger, TInteger => TInteger
          | TNull, d | d, TNull => d
          | _, _ => TText
          end
      end
  | EUnary op e =>
      match op with
      | UNot => TBoolean
      | UNegate | UPlus => prepared_expression_type e source_table
      end
  | EIsNull _ _ | ELike _ _ _ | EInList _ _ _ | EInSubquery _ _ _ | EExists _ _ => TBoolean
  | EAggregate function e _ =>
      match function with
      | AggCount => TInteger
      | AggAvg => TFloat
      | AggSum | AggMin | AggMax =>
          match e with Some e => prepared_expression_type e source_table | None => TText end
      end
  | EParameter _ | EIncoming _ | EScalarSubquery _ => TText
  end.

(** The table of the FROM clause and the name it goes by; joins are not
    looked at. *)
Definition metadata_source (c : Catalog) (q : Query) : option (Table * string) :=
  match q_from q with
  | Some (SrcTable name alias) => t ← cat_tables c !! name; Some (t, unwrap_or alias name)
  | _ => None
  end.

Definition metadata_name (e : Expr) : string :=
  match e with
  | EColumn _ name => name
  | EAggregate f _ _ => aggregate_name f
  | _ => "expression"
  end.

Definition item_metadata (source : option (Table * string)) (i : SelectItem) :
    list (string * DataType) :=
  match i with
  | SWildcard qualifier =>
      match source with
      | Some (t, visible_name) =>
          if is_none_or (λ name, eq_ignore_ascii_case name visible_name) qualifier
          then (λ c, (col_name c, col_type c)) <$> schema_columns (tb_schema t)
          else []
      | None => []
      end
  | SExpr e alias =>
      [(unwrap_or alias (metadata_name e), prepared_expression_type e (fst <$> source))]
  end.

Definition query_metadata (c : Catalog) (q : Query) : list (string * DataType) :=
  foldl (λ result i, result ++ item_metadata (metadata_source c q) i) [] (q_projection q).

Definition prepared_result_metadata (d : Db) (p : PreparedStatement)
    (parameters : option (list Value)) : outcome (list (string * DataType)) :=
  bound ← match parameters with
          | Some values =>
              match bind_parameters (ps_statement p) values with
              | Ok s => Ok s
              | Err _ => Ok (ps_statement p)
              | Panic => Panic
              end
          | None => Ok (ps_statement p)
          end;
  Ok (match bound with SelectQuery q => query_metadata (db_catalog d) q | _ => [] end).

(** ** The announcement and the result *)

Section metadata_laws.
Context `{RustStd}.

(** A projection item the announcement names as the result does. *)
Definition plainly_named (i : SelectItem) : Prop :=
  match i with SExpr (EScalarSubquery _) None => False | _ => True end.

Lemma wildcard_columns qualifier visible_name columns :
  filter (wildcard_matches qualifier)
    ((λ c, {| bc_table := visible_name; bc_name := col_name c |}) <$> columns)
  = if is_none_or (λ name, eq_ignore_ascii_case name visible_name) qualifier
    then (λ c, {| bc_table := visible_name; bc_name := col_name c |}) <$> columns else [].
Proof.
  set (p := is_none_or _ qualifier).
  assert (∀ c : ColumnDef, wildcard_matches qualifier {| bc_table := visible_name; bc_name := col_name c |} = p) as Hp.
  { intros c. unfold wildcard_matches, p. destruct qualifier as [name|]; [|done]. cbn.
    apply eq_true_iff_eq. rewrite !eq_ignore_ascii_case_true. naive_solver. }
  induction columns as [|c columns IH]; [by destruct p|]. rewrite fmap_cons, filter_cons, IH.
  case_decide as Hd; rewrite Hp in Hd; by destruct p.
Qed.

Lemma item_metadata_names t visible_name i cols :
  plainly_named i → item_columns (table_columns t visible_name) i = Ok cols →
  (item_metadata (Some (t, visible_name)) i).*1 = bc_name <$> cols.
Proof.
  intros Hi Hc. destruct i as [qualifier|e alias]; cbn [item_columns item_metadata] in *.
  - unfold table_columns in Hc. rewrite wildcard_columns in Hc. destruct (is_none_or _ qualifier); [|done].
    assert (cols = (λ c, {| bc_table := visible_name; bc_name := col_name c |})
      <$> schema_columns (tb_schema t)) as ->.
    { destruct (schema_columns (tb_schema t)); [done|]. by injection Hc. }
    by rewrite <-!list_fmap_compose.
  - injection Hc as <-. cbn. destruct alias; [done|]. by destruct e.
Qed.

Lemma query_metadata_names c q t visible_name cols :
  metadata_source c q = Some (t, visible_name) → Forall plainly_named (q_projection q) →
  projection_columns (q_projection q) (table_columns t visible_name) = Ok cols →
  (query_metadata c q).*1 = bc_name <$> cols.
Proof.
  intros Hs Hp. unfold query_metadata, projection_columns. rewrite Hs.
  enough (∀ acc0 acc, acc0.*1 = bc_name <$> acc →
    foldM (λ output i, cs ← item_columns (table_columns t visible_name) i; Ok (output ++ cs)) acc
      (q_projection q) = Ok cols →
    (foldl (λ result i, result ++ item_metadata (Some (t, visible_name)) i) acc0 (q_projection q)).*1
      = bc_name <$> cols) as Hgen by by apply Hgen.
  induction Hp as [|i projection Hi _ IH]; intros acc0 acc Hacc Hf; [by injection Hf as <-|].
  rewrite foldM_cons in Hf. apply bind_Ok in Hf as (acc' & Hi' & Hf).
  apply bind_Ok in Hi' as (cs & Hcs & [= <-]). cbn [foldl]. eapply IH; [|exact Hf].
  by rewrite !fmap_app, Hacc, (item_metadata_names _ _ _ _ Hi Hcs).
Qed.

(** The announcement names the columns of the result: for a query over one
    table, without joins or common table expressions, the names sent before
    the query runs are the column names of the relation it returns. *)
Theorem announced_names_match c q t visible_name r :
  q_ctes q = [] → q_joins q = [] → metadata_source c q = Some (t, visible_name) →
  Forall plainly_named (q_projection q) → execute_query c q ∅ = Ok r →
  (query_metadata c q).*1 = bc_name <$> rel_columns r.
Proof.
  intros Hctes Hjoins Hs Hp Hx. rewrite execute_query_unfold in Hx. unfold execute_query_body in Hx.
  rewrite Hctes in Hx. apply bind_Ok in Hx as (ctes & [= <-] & Hx).
  apply bind_Ok in Hx as (source & Hsource & Hx). unfold query_source in Hsource.
  rewrite Hjoins in Hsource. apply bind_Ok in Hsource as (r0 & Hr0 & [= <-]).
  assert (rel_columns r0 = table_columns t visible_name) as Hcols.
  { unfold metadata_source in Hs. destruct (q_from q) as [[name alias|]|]; [|done..].
    cbn [source_relation] in Hr0. rewrite lookup_empty in Hr0.
    destruct (cat_tables c !! name) as [t'|]; [|done]. cbn in Hs, Hr0. by simplify_eq. }
  apply bind_Ok in Hx as (rows & _ & Hx). apply bind_Ok in Hx as (rows' & _ & Hx).
  apply bind_Ok in Hx as (projected & Hproj & Hx). apply bind_Ok in Hx as (rows2 & _ & [= <-]).
  cbn [rel_columns]. apply (query_metadata_names c q t visible_name); [done|done|].
  rewrite <-Hcols. destruct (is_aggregate_query q).
  - unfold aggregate_query in Hproj. apply bind_Ok in Hproj as (groups & _ & Hproj).
    apply bind_Ok in Hproj as (cols & Hc & Hproj). apply bind_Ok in Hproj as (rs & _ & [= <-]). exact Hc.
  - unfold project_query in Hproj. apply bind_Ok in Hproj as (cols & Hc & Hproj).
    apply bind_Ok in Hproj as (rs & _ & [= <-]). exact Hc.
Qed.
End metadata_laws.

Section metadata_examples.
#[local] Existing Instance concrete_std.

Definition t_query : Query :=
  mkQuery [] false [SWildcard None; SExpr (EColumn None "id") (Some "key"); SExpr (EAggregate AggCount None false) None]
    (Some (SrcTable "t" (Some "x"))) [] None [EColumn None "id"; EColumn None "v"] None [] None.

Lemma announced_names_match_witness :
  (query_metadata history t_query).*1 = ["id"; "v"; "key"; "count"].
Proof.
  destruct (execute_query history t_query ∅) as [r| |] eqn:E; [|by vm_compute in E..].
  destruct (metadata_source history t_query) as [[t visible_name]|] eqn:Es; [|by vm_compute in Es].
  rewrite (announced_names_match history t_query t visible_name r); [|done|done|exact Es| |exact E].
  - vm_compute in E. injection E as <-. done.
  - repeat constructor.
Defined.
End metadata_examples.
