(* ===== verification/Soundness.v ===== *)
(** * Soundness.v: the types announced for a query

    The types [prepared_expression_type] announces for the columns of a prepared
    query are the types of the values the query returns, for a query over one
    table (or none) whose stored values have the types of their columns, and
    whether or not the optimiser has folded its expressions in between.  The
    announcement of two forms is wrong and they are excluded: a scalar subquery in the
    place of a value, and SUM, MIN and MAX without an argument, which the parser
    refuses. *)

From S2P Require Import Prelude Machine Float64 Like Types Concrete Keys Table Eval Queries Rows.
From S2P Require Import Statement Planner Validate Ddl Execute Integrity Typing Params Str Log SqlAst Parser Wal Database Metadata.

(** ** Values *)

Lemma cell_fits_null d : cell_fits d VNull.
Proof. by left. Qed.
Lemma truth_value_fits t : cell_fits TBoolean (truth_value t).
Proof. destruct t; cbv; auto. Qed.
Lemma boolean_fits b : cell_fits TBoolean (VBoolean b).
Proof. by right. Qed.
#[export] Hint Resolve cell_fits_null truth_value_fits boolean_fits : rdb.

Lemma cell_fits_type d v : cell_fits d v → is_null v = false → data_type v = d.
Proof. by intros [->|?]. Qed.

Lemma stores_fits v c : stores v c → cell_fits (col_type c) v.
Proof. unfold stores. destruct v; cbn; intros; (by left) || by right. Qed.

(** The type [prepared_expression_type] gives a binary operation. *)
Definition arithmetic_type (l r : DataType) : DataType :=
  match l, r with
  | TFloat, _ | _, TFloat => TFloat
  | TInteger, TInteger => TInteger
  | TNull, d | d, TNull => d
  | _, _ => TText
  end.
Definition is_arithmetic (op : BinaryOp) : bool :=
  match op with OpAdd | OpSubtract | OpMultiply | OpDivide => true | _ => false end.
Definition binary_type (op : BinaryOp) (l r : DataType) : DataType :=
  if is_arithmetic op then arithmetic_type l r else TBoolean.

Lemma prepared_binary_type l op r source :
  prepared_expression_type (EBinary l op r) source =
  binary_type op (prepared_expression_type l source) (prepared_expression_type r source).
Proof.
  unfold binary_type, arithmetic_type. cbn [prepared_expression_type].
  by destruct op, (prepared_expression_type l source), (prepared_expression_type r source).
Qed.

Section values.
Context `{RustStd}.

Lemma numeric_binary_fits dl dr a b integer float v :
  cell_fits dl a → cell_fits dr b → numeric_binary a b integer float = Ok v →
  cell_fits (arithmetic_type dl dr) v.
Proof.
  intros Ha Hb Hv.
  assert (v = VNull ∨ is_null a = false ∧ is_null b = false) as [->|[Hna Hnb]].
  { destruct a, b; cbn in Hv; simplify_eq; auto. }
  { by left. }
  apply cell_fits_type in Ha; [|done]. apply cell_fits_type in Hb; [|done]. subst dl dr.
  destruct a, b; cbn in Hv; try discriminate Hv; try (injection Hv as <-; by right).
  apply fmap_Ok in Hv as (z' & _ & <-). by right.
Qed.

Lemma apply_arithmetic_fits op dl dr a b v :
  is_arithmetic op = true → cell_fits dl a → cell_fits dr b → apply_binary op a b = Ok v →
  cell_fits (arithmetic_type dl dr) v.
Proof.
  intros Hop Ha Hb. destruct op; try discriminate Hop; cbn [apply_binary]; try by apply numeric_binary_fits.
  destruct (is_zero b); [done|]. by apply numeric_binary_fits.
Qed.

Lemma apply_unary_fits op d a v :
  cell_fits d a → apply_unary op a = Ok v → cell_fits (match op with UNot => TBoolean | _ => d end) v.
Proof.
  intros Ha Hv. destruct op; cbn in Hv; [injection Hv as <-; apply truth_value_fits| |];
    destruct Ha as [->|<-]; simplify_eq; try (by left); destruct a; simplify_eq; try (by right).
  apply fmap_Ok in Hv as (z' & _ & <-). by right.
Qed.

(** ** Aggregates *)

Lemma sum_flag d present acc r :
  Forall (λ v, data_type v = d) present → foldM sum_step acc present = Ok r →
  present = [] ∨ (d = TInteger ∧ r.2 = acc.2) ∨ (d = TFloat ∧ r.2 = false).
Proof.
  intros Hp. revert acc. induction Hp as [|v present Hv Hp IH]; intros acc Hf; [by left|right].
  rewrite foldM_cons in Hf. apply bind_Ok in Hf as (acc' & Hs & Hf).
  assert (∀ l, Forall (λ v, data_type v = d) l → l = [] → foldM sum_step acc' l = Ok r → r = acc') as Hnil
    by (intros l _ -> Hl; by injection Hl).
  destruct v; cbn in Hs; simplify_eq/=; destruct (IH _ Hf) as [->|Hc];
    try (rewrite (Hnil [] ltac:(done) eq_refl Hf); cbn; auto); naive_solver.
Qed.

Lemma foldl_choice_fits d (f : Value → Value → Value) v rest :
  (∀ x y, f x y = x ∨ f x y = y) → cell_fits d v → Forall (cell_fits d) rest → cell_fits d (foldl f v rest).
Proof.
  intros Hf Hv Hr. revert v Hv. induction Hr as [|x rest Hx _ IH]; intros v Hv; [done|].
  cbn. apply IH. by destruct (Hf v x) as [->| ->].
Qed.

Lemma min_value_choice x y : min_value x y = x ∨ min_value x y = y.
Proof. unfold min_value. destruct (value_order x y); auto. Qed.
Lemma max_value_choice x y : max_value x y = x ∨ max_value x y = y.
Proof. unfold max_value. destruct (value_order x y); auto. Qed.

(** The announced type of an aggregate over values of a type. *)
Definition aggregate_type (f : AggregateFunction) (d : DataType) : DataType :=
  match f with AggCount => TInteger | AggAvg => TFloat | _ => d end.

(** The functions whose type does not depend on the argument. *)
Definition fixed_type (f : AggregateFunction) : bool :=
  match f with AggCount | AggAvg => true | _ => false end.

Lemma fixed_type_fits f distinct values d v :
  fixed_type f = true → aggregate_values f distinct values = Ok v → cell_fits (aggregate_type f d) v.
Proof.
  unfold aggregate_values. generalize (filter (λ v, negb (is_null v))
    (if distinct then retain_first value_key ∅ values else values)) as present. intros present Hf.
  destruct f; try discriminate Hf; cbn [aggregate_type].
  - intros [= <-]. by right.
  - destruct present as [|x rest]; [intros [= <-]; by left|].
    intros Ha. apply bind_Ok in Ha as ([sum flag] & _ & Ha). cbn in Ha. injection Ha as <-. by right.
Qed.

Lemma aggregate_values_fits f distinct values d v :
  (fixed_type f = false → Forall (cell_fits d) values) → aggregate_values f distinct values = Ok v →
  cell_fits (aggregate_type f d) v.
Proof.
  intros Hv. destruct (fixed_type f) eqn:Hfix; [by apply fixed_type_fits|]. specialize (Hv eq_refl).
  unfold aggregate_values. set (kept := if distinct then retain_first value_key ∅ values else values).
  assert (Forall (cell_fits d) kept) as Hkept.
  { unfold kept. destruct distinct; [|done]. rewrite Forall_forall in *. intros x Hx%retain_first_subset. auto. }
  set (present := filter (λ v, negb (is_null v)) kept).
  assert (Forall (cell_fits d) present) as Hpf.
  { unfold present. rewrite Forall_forall in *. intros x [_ Hin]%list_elem_of_filter. auto. }
  assert (Forall (λ v, data_type v = d) present) as Hp.
  { rewrite Forall_forall in *. intros x Hin. apply cell_fits_type; [auto|].
    apply list_elem_of_filter in Hin as [Hx _]. by destruct (is_null x). }
  clearbody present. destruct f; try discriminate Hfix; cbn [aggregate_type];
    (destruct present as [|x rest]; [intros [= <-]; by left|]); intros Ha.
  - apply bind_Ok in Ha as ([sum flag] & Hs & Ha). destruct (sum_flag _ _ _ _ Hp Hs) as [?|[[-> Hf]|[-> Hf]]]; [done|..];
      cbn in Hf; subst flag; cbn in Ha; injection Ha as <-; by right.
  - injection Ha as <-. apply Forall_cons in Hpf as [Hx Hr]. by apply foldl_choice_fits; [apply max_value_choice|..].
  - injection Ha as <-. apply Forall_cons in Hpf as [Hx Hr]. by apply foldl_choice_fits; [apply min_value_choice|..].
Qed.
End values.

(** ** Expressions *)

(** Expressions whose type the announcement can know. *)
Fixpoint typable (e : Expr) : bool :=
  match e with
  | EBinary l op r => if is_arithmetic op then typable l && typable r else true
  | EUnary op e => match op with UNot => true | _ => typable e end
  | EAggregate f e _ =>
      if fixed_type f then true else match e with Some e => typable e | None => false end
  | EScalarSubquery _ => false
  | _ => true
  end.

Lemma Forall_subset {A} (P : A → Prop) l l' : l' ⊆ l → Forall P l → Forall P l'.
Proof. rewrite !Forall_forall. auto. Qed.

Lemma position_find_first {A} (p : A → bool) l i : position p l = Some i → l !! i = find_first p l.
Proof.
  revert i. induction l as [|x l IH]; intros i Hi; [done|]. cbn in *. destruct (p x); [by simplify_eq|].
  apply fmap_Some in Hi as (j & Hj & ->). by apply IH.
Qed.

(** The columns a query over one table, or over none, evaluates against, and
    their types. *)
Definition frame_columns (source : option (Table * string)) : list BoundColumn :=
  match source with Some (t, visible_name) => table_columns t visible_name | None => [] end.
Definition frame_types (source : option (Table * string)) : list DataType :=
  match source with Some (t, _) => table_types t | None => [] end.

Section soundness.
Context `{RustStd} (c : Catalog) (source : option (Table * string)).

Let columns := frame_columns source.
Abbreviation row_fits := (Forall2 cell_fits (frame_types source)).
Abbreviation announced e := (prepared_expression_type e (fst <$> source)).

(** Every value of the expression fits the type, on a typed row in a typed
    group. *)
Definition sound (e : Expr) (d : DataType) : Prop :=
  ∀ row group ctes v, row_fits row → (∀ g, group = Some g → Forall row_fits g) →
    eval_expr c e columns row group ctes = Ok v → cell_fits d v.

Lemma nulls_fit types : Forall2 cell_fits types (nulls (length types)).
Proof. induction types as [|d types IH]; constructor; [by left|exact IH]. Qed.

Lemma literal_sound v d : cell_fits d v → sound (ELiteral v) d.
Proof. by intros Hv row group ctes w _ _ [= <-]. Qed.

Lemma sound_literal v d : sound (ELiteral v) d → cell_fits d v.
Proof.
  intros Hs. apply (Hs (nulls (length (frame_types source))) None ∅); [apply nulls_fit|done|done].
Qed.

Lemma column_sound qualifier name : sound (EColumn qualifier name) (announced (EColumn qualifier name)).
Proof.
  intros row group ctes v Hrow _ Hx. rewrite eval_expr_unfold in Hx. cbn [eval_expr_body] in Hx.
  apply bind_Ok in Hx as (i & Hi & Hv). destruct (row !! i) as [w|] eqn:Hw; cbn in Hv; [|done].
  injection Hv as <-. unfold columns in Hi. destruct source as [[t visible_name]|]; [|done].
  apply resolve_table_column in Hi. unfold column_index in Hi.
  cbn [prepared_expression_type fmap option_fmap option_map fst mbind option_bind frame_types] in *.
  unfold schema_column. rewrite <-(position_find_first _ _ _ Hi).
  apply position_Some in Hi as (col & Hcol & _). rewrite Hcol.
  destruct (Forall2_lookup_r _ _ _ _ _ Hrow Hw) as (d & Hd & Hf). unfold table_types in Hd.
  rewrite list_lookup_fmap, Hcol in Hd. by injection Hd as <-.
Qed.

Lemma binary_sound l op r dl dr :
  (is_arithmetic op = true → sound l dl ∧ sound r dr) → sound (EBinary l op r) (binary_type op dl dr).
Proof.
  intros Hop row group ctes v Hrow Hg Hx. rewrite eval_expr_unfold in Hx. unfold binary_type.
  destruct (is_arithmetic op) eqn:Ha.
  - destruct (Hop eq_refl) as [Hl Hr]. destruct op; try discriminate Ha; cbn [eval_expr_body] in Hx;
      apply bind_Ok in Hx as (a & Hea & Hx); apply bind_Ok in Hx as (b & Heb & Hx);
      (eapply apply_arithmetic_fits; [exact Ha|by eapply Hl|by eapply Hr|exact Hx]).
  - destruct op as [| | | |k| |]; try discriminate Ha; cbn [eval_expr_body] in Hx;
      apply bind_Ok in Hx as (a & _ & Hx); try (case_bool_decide; [injection Hx as <-; apply boolean_fits|]);
      apply bind_Ok in Hx as (b & _ & [= <-]); apply truth_value_fits.
Qed.

Lemma unary_sound op e d :
  (op ≠ UNot → sound e d) → sound (EUnary op e) (match op with UNot => TBoolean | _ => d end).
Proof.
  intros He row group ctes v Hrow Hg Hx. rewrite eval_expr_unfold in Hx. cbn [eval_expr_body] in Hx.
  apply bind_Ok in Hx as (a & Ha & Hx). destruct op.
  - injection Hx as <-. apply truth_value_fits.
  - by eapply (apply_unary_fits UNegate); [eapply He|].
  - by eapply (apply_unary_fits UPlus); [eapply He|].
Qed.

Lemma aggregate_sound f e distinct d :
  (fixed_type f = false → ∃ e', e = Some e' ∧ sound e' d) → sound (EAggregate f e distinct) (aggregate_type f d).
Proof.
  intros He row group ctes v Hrow Hg Hx. rewrite eval_expr_unfold in Hx. cbn [eval_expr_body] in Hx.
  destruct group as [g|]; [|done]. cbn in Hx. unfold eval_aggregate in Hx.
  apply bind_Ok in Hx as (values & Hvs & Hx). specialize (Hg g eq_refl).
  eapply aggregate_values_fits; [|exact Hx]. intros Hf. destruct (He Hf) as (e' & -> & He').
  apply mapM_Ok in Hvs. clear Hx. induction Hvs as [|row' w g values Hw _ IH]; constructor.
  - apply Forall_cons in Hg as [Hr' _]. by apply (He' row' None ctes).
  - apply Forall_cons in Hg as [_ Hg]. by apply IH.
Qed.

(** The forms whose value is a truth value. *)
Lemma predicate_sound e :
  match e with EIsNull _ _ | ELike _ _ _ | EInList _ _ _ | EInSubquery _ _ _ | EExists _ _ => True | _ => False end →
  sound e TBoolean.
Proof.
  intros He row group ctes v Hrow Hg Hx. rewrite eval_expr_unfold in Hx.
  destruct e; try done; cbn [eval_expr_body] in Hx; repeat (apply bind_Ok in Hx as (? & _ & Hx));
    injection Hx as <-; auto with rdb.
Qed.

Lemma error_sound e d : (∀ row group ctes v, eval_expr c e columns row group ctes ≠ Ok v) → sound e d.
Proof. intros He row group ctes v _ _ Hx. by apply He in Hx. Qed.

Lemma fold_binary_sound l op r e dl dr :
  (is_arithmetic op = true → sound l dl ∧ sound r dr) → fold_binary_node l op r = Ok e →
  sound e (binary_type op dl dr).
Proof.
  intros Hop Hf. assert (sound (EBinary l op r) (binary_type op dl dr)) as Hsame by by apply binary_sound.
  unfold fold_binary_node in Hf. destruct l as [|a| | | | | | | | | | |]; try (by injection Hf as <-).
  destruct r as [|b| | | | | | | | | | |]; try (by injection Hf as <-).
  apply bind_Ok in Hf as ([v|] & Hv & [= <-]); [|done]. apply literal_sound.
  unfold fold_binary in Hv. destruct (is_null a || is_null b); [injection Hv as <-; by left|].
  unfold binary_type. destruct (is_arithmetic op) eqn:Ha.
  - destruct (Hop eq_refl) as [Hl%sound_literal Hr%sound_literal].
    destruct op; try discriminate Ha; try (destruct (is_zero b); [done|]);
      apply fold_numeric_numeric in Hv; by eapply numeric_binary_fits.
  - destruct op; try discriminate Ha; injection Hv as <-; apply truth_value_fits.
Qed.

Lemma fold_unary_sound op e e' d :
  (op ≠ UNot → sound e d) → fold_unary_node op e = Ok e' →
  sound e' (match op with UNot => TBoolean | _ => d end).
Proof.
  intros Hop Hf. pose proof (unary_sound op e d Hop) as Hsame.
  unfold fold_unary_node in Hf. destruct e as [|a| | | | | | | | | | |]; try (by injection Hf as <-).
  apply bind_Ok in Hf as ([v|] & Hv & [= <-]); [|done]. apply literal_sound.
  assert (apply_unary op a = Ok v) as Ha.
  { destruct op, a; cbn in *; try (by injection Hv as <-); try done;
      destruct (i64_arith _ _); cbn in *; naive_solver. }
  destruct op; [injection Ha as <-; apply truth_value_fits|..];
    (eapply (apply_unary_fits _ d) in Ha; [exact Ha|by apply sound_literal, Hop]).
Qed.

(** The expression itself or what folding makes of it. *)
Definition folds_to (e e' : Expr) : Prop := e' = e ∨ fold_expr e = Ok e'.

(** Evaluation gives the announced type, before and after folding. *)
Lemma eval_sound e : typable e = true → ∀ e', folds_to e e' → sound e' (announced e).
Proof.
  apply (Expr_tree_ind (λ e, typable e = true → ∀ e', folds_to e e' → sound e' (announced e))
    (λ _, True) (λ _, True) (λ _, True) (λ _, True) (λ _, True) (λ _, True)); try done; clear e.
  - intros q name _ e' [->|[= <-]]; apply column_sound.
  - intros v _ e' [->|[= <-]]; apply literal_sound; by right.
  - intros i _ e' [->|[= <-]]; by apply error_sound.
  - intros i _ e' [->|[= <-]]; by apply error_sound.
  - intros l IHl op r IHr Ht e' He. rewrite prepared_binary_type. cbn [typable] in Ht.
    assert (∀ l' r', folds_to l l' → folds_to r r' →
      is_arithmetic op = true → sound l' (announced l) ∧ sound r' (announced r)) as Hop.
    { intros l' r' Hl Hr Hop. rewrite Hop in Ht. apply andb_true_iff in Ht as [Htl Htr]. auto. }
    destruct He as [->|He]; [apply binary_sound; apply Hop; by left|]. cbn in He.
    apply bind_Ok in He as (l' & Hl' & He). apply bind_Ok in He as (r' & Hr' & He).
    eapply fold_binary_sound; [|exact He]. apply Hop; by right.
  - intros op e IH Ht e' He. cbn [typable] in Ht.
    assert (∀ e1, folds_to e e1 → op ≠ UNot → sound e1 (announced e)) as Hop.
    { intros e1 H1 Hop. apply IH; [by destruct op|done]. }
    assert (announced (EUnary op e) = match op with UNot => TBoolean | _ => announced e end) as -> by by destruct op.
    destruct He as [->|He]; [apply unary_sound; apply Hop; by left|].
    cbn in He. apply bind_Ok in He as (e1 & He1 & He). eapply fold_unary_sound; [|exact He]. apply Hop. by right.
  - intros e _ negated _ e' [->|He]; [by apply predicate_sound|]. cbn in He.
    apply bind_Ok in He as (e1 & _ & [= <-]). destruct e1; try by apply predicate_sound.
    apply literal_sound, boolean_fits.
  - intros e _ p _ negated _ e' [->|He]; [by apply predicate_sound|]. cbn in He.
    apply bind_Ok in He as (e1 & _ & He). apply bind_Ok in He as (p1 & _ & [= <-]).
    destruct e1; try by apply predicate_sound. destruct p1; try by apply predicate_sound.
    apply literal_sound, truth_value_fits.
  - intros e _ items _ negated _ e' [->|He]; [by apply predicate_sound|]. cbn in He.
    apply bind_Ok in He as (? & _ & He). apply bind_Ok in He as (? & _ & [= <-]). by apply predicate_sound.
  - intros e _ q _ negated _ e' [->|He]; [by apply predicate_sound|]. cbn in He.
    apply bind_Ok in He as (? & _ & He). apply bind_Ok in He as (? & _ & [= <-]). by apply predicate_sound.
  - intros q _ negated _ e' [->|He]; [by apply predicate_sound|]. cbn in He.
    apply bind_Ok in He as (? & _ & [= <-]). by apply predicate_sound.
  - intros f o IH distinct Ht e' He. cbn [typable] in Ht.
    set (d := match o with Some e => announced e | None => TText end).
    assert (announced (EAggregate f o distinct) = aggregate_type f d) as -> by by destruct f.
    destruct He as [->|He].
    + apply aggregate_sound. intros Hf. rewrite Hf in Ht. destruct o as [e|]; [|done].
      exists e. split; [done|]. apply option_all_Some in IH. apply IH; [done|by left].
    + cbn in He. apply bind_Ok in He as (o' & Ho & [= <-]). apply aggregate_sound. intros Hf.
      rewrite Hf in Ht. destruct o as [e|]; [|done]. cbn in Ho. apply bind_Ok in Ho as (e1 & He1 & [= <-]).
      exists e1. split; [done|]. apply option_all_Some in IH. apply IH; [done|by right].
Qed.

(** ** Projections *)

Definition typable_item (i : SelectItem) : bool :=
  match i with SExpr e _ => typable e | SWildcard _ => true end.

(** The types the announcement gives the columns of an item. *)
Definition item_types (i : SelectItem) : list DataType := (item_metadata source i).*2.

Definition item_sound (i : SelectItem) (types : list DataType) : Prop :=
  ∀ row group ctes vs, row_fits row → (∀ g, group = Some g → Forall row_fits g) →
    project_item (eval_expr c) columns row group ctes i = Ok vs → Forall2 cell_fits types vs.

(** A wildcard takes all columns of the table or none. *)
Lemma wildcard_positions qualifier t visible_name :
  positions (wildcard_matches qualifier) (table_columns t visible_name) =
  if is_none_or (λ name, eq_ignore_ascii_case name visible_name) qualifier
  then seq 0 (length (table_types t)) else [].
Proof.
  set (p := is_none_or _ qualifier).
  assert (Forall (λ col, wildcard_matches qualifier col = p) (table_columns t visible_name)) as Hp.
  { apply Forall_fmap, Forall_forall. intros col _. cbn. unfold p. destruct qualifier as [name|]; [|done]. cbn.
    apply eq_true_iff_eq. rewrite !eq_ignore_ascii_case_true. naive_solver. }
  replace (length (table_types t)) with (length (table_columns t visible_name))
    by (unfold table_types, table_columns; by rewrite !length_fmap).
  induction Hp as [|col cols Hcol _ IH]; [by destruct p|].
  rewrite positions_cons, Hcol, IH. destruct p; [|done]. cbn. by rewrite fmap_S_seq.
Qed.

Lemma vec_index_all (row : Row) n vs :
  length row = n → mapM (vec_index row) (seq 0 n) = Ok vs → vs = row.
Proof.
  intros Hn Hm%mapM_Ok. apply list_eq. intros i. destruct (decide (i < n)) as [Hi|Hi].
  - assert (seq 0 n !! i = Some i) as Hs by by rewrite lookup_seq_lt.
    destruct (Forall2_lookup_l _ _ _ _ _ Hm Hs) as (v & Hv & Hr%vec_index_Ok). by rewrite Hv, Hr.
  - rewrite !lookup_ge_None_2; [done|lia|]. apply Forall2_length in Hm. rewrite length_seq in Hm. lia.
Qed.

Lemma wildcard_sound qualifier : item_sound (SWildcard qualifier) (item_types (SWildcard qualifier)).
Proof.
  intros row group ctes vs Hrow _ Hx. cbn [project_item] in Hx. unfold item_types. cbn [item_metadata].
  unfold columns in Hx. destruct source as [[t visible_name]|]; [|by injection Hx as <-].
  cbn [frame_columns] in Hx. rewrite wildcard_positions in Hx.
  destruct (is_none_or _ qualifier); [|by injection Hx as <-].
  apply vec_index_all in Hx as ->; [|by apply Forall2_length in Hrow].
  rewrite <-list_fmap_compose. exact Hrow.
Qed.

Lemma item_sound_announced i i' :
  typable_item i = true → i' = i ∨ optimize_item i = Ok i' → item_sound i' (item_types i).
Proof.
  intros Ht Hi. destruct i as [qualifier|e alias].
  - assert (i' = SWildcard qualifier) as -> by (destruct Hi as [->|Hi]; [done|by injection Hi as <-]).
    apply wildcard_sound.
  - assert (∃ e', i' = SExpr e' alias ∧ folds_to e e') as (e' & -> & He).
    { destruct Hi as [->|Hi]; [exists e; split; [done|by left]|].
      cbn in Hi. apply bind_Ok in Hi as (e' & He & [= <-]). exists e'. split; [done|by right]. }
    intros row group ctes vs Hrow Hg Hx. cbn [project_item] in Hx. apply bind_Ok in Hx as (v & Hv & [= <-]).
    constructor; [|constructor]. by eapply eval_sound.
Qed.

Lemma project_row_fits projection typess row group ctes out :
  Forall2 item_sound projection typess → row_fits row → (∀ g, group = Some g → Forall row_fits g) →
  project_row (eval_expr c) projection columns row group ctes = Ok out → Forall2 cell_fits (concat typess) out.
Proof.
  intros Hp Hrow Hg. unfold project_row.
  enough (∀ types0 out0, Forall2 cell_fits types0 out0 →
    foldM (λ output i, vs ← project_item (eval_expr c) columns row group ctes i; Ok (output ++ vs)) out0 projection = Ok out →
    Forall2 cell_fits (types0 ++ concat typess) out) as Hgen by by apply (Hgen [] []).
  induction Hp as [|i types projection typess Hi _ IH]; intros types0 out0 H0 Hf.
  - injection Hf as <-. by rewrite app_nil_r.
  - rewrite foldM_cons in Hf. apply bind_Ok in Hf as (out1 & Hs & Hf). apply bind_Ok in Hs as (vs & Hvs & [= <-]).
    cbn [concat]. rewrite app_assoc. eapply IH; [|exact Hf]. apply Forall2_app; [done|]. by eapply Hi.
Qed.

(** ** Queries *)

(** A query over one table of the catalog, or over none, whose items have a
    type the announcement can know. *)
Definition plain_query (q : Query) : bool :=
  match q_ctes q, q_joins q, q_from q with
  | [], [], (None | Some (SrcTable _ _)) => true
  | _, _, _ => false
  end.

Lemma query_metadata_types q :
  metadata_source c q = source → (query_metadata c q).*2 = concat (item_types <$> q_projection q).
Proof.
  intros Hs. unfold query_metadata. rewrite Hs.
  enough (∀ acc, (foldl (λ result i, result ++ item_metadata source i) acc (q_projection q)).*2
    = acc.*2 ++ concat (item_types <$> q_projection q)) as Hgen by apply (Hgen []).
  induction (q_projection q) as [|i items IH]; intros acc; [by rewrite app_nil_r|].
  cbn [foldl fmap list_fmap concat]. rewrite IH, fmap_app, <-app_assoc. done.
Qed.

Lemma project_query_fits q r typess r' :
  Forall2 item_sound (q_projection q) typess → rel_columns r = columns → Forall row_fits (rel_rows r) →
  project_query (eval_expr c) q r ∅ = Ok r' → Forall (Forall2 cell_fits (concat typess)) (rel_rows r').
Proof.
  intros Hp Hcols Hr Hx. unfold project_query in Hx. rewrite Hcols in Hx.
  apply bind_Ok in Hx as (cols & _ & Hx). apply bind_Ok in Hx as (rows & Hm%mapM_Ok & [= <-]). cbn [rel_rows].
  induction Hm as [|row out rows outs Hrow _ IH]; constructor.
  - apply Forall_cons in Hr as [Hr _]. eapply project_row_fits; [exact Hp|exact Hr| |exact Hrow]. by intros g [=].
  - apply Forall_cons in Hr as [_ Hr]. by apply IH.
Qed.

Lemma aggregate_query_fits q r typess r' :
  Forall2 item_sound (q_projection q) typess → rel_columns r = columns → length columns = length (frame_types source) →
  Forall row_fits (rel_rows r) →
  aggregate_query (eval_expr c) q r ∅ = Ok r' → Forall (Forall2 cell_fits (concat typess)) (rel_rows r').
Proof.
  intros Hp Hcols Hlen Hr Hx. unfold aggregate_query in Hx. rewrite Hcols in Hx.
  apply bind_Ok in Hx as (groups & Hg & Hx).
  apply bind_Ok in Hx as (cols & _ & Hx). apply bind_Ok in Hx as (rows & Hf & [= <-]). cbn [rel_rows].
  set (groups' := match groups, q_group_by q with [], [] => [("", [])] | _, _ => groups end) in Hf.
  assert (Forall (Forall row_fits) groups'.*2) as Hgs.
  { assert (Forall (Forall row_fits) groups.*2) as Hgs.
    { apply group_rows_grouped in Hg as (key & Hg & _). apply Forall_fmap, Forall_forall.
      intros [k l] Hin. destruct (gr_rows _ _ _ Hg k l Hin) as [-> _]. cbn.
      eapply Forall_subset; [|exact Hr]. intros x [_ ?]%list_elem_of_filter. done. }
    unfold groups'. destruct groups, (q_group_by q); try done. by repeat constructor. }
  refine (foldM_inv (Forall (Forall2 cell_fits (concat typess))) _ _ _ _ _ _ Hf); [constructor|].
  intros acc group acc' Hin Hacc Hs. unfold project_group in Hs.
  apply bind_Ok in Hs as ([] & _ & Hs); [|by injection Hs as <-].
  apply bind_Ok in Hs as (out & Ho & [= <-]). apply Forall_app. split; [done|]. constructor; [|constructor].
  rewrite Forall_forall in Hgs. specialize (Hgs group Hin).
  eapply project_row_fits; [exact Hp| | |exact Ho].
  - destruct group as [|row group]; cbn; [rewrite Hlen; apply nulls_fit|by apply Forall_cons in Hgs as [? _]].
  - by intros g [= <-].
Qed.

(** The rows before the projection are rows of the table, or the empty row. *)
Lemma source_fits q r :
  plain_query q = true → metadata_source c q = source → catalog_typed c →
  query_source c (eval_expr c) (execute_query c) q ∅ = Ok r →
  rel_columns r = columns ∧ length columns = length (frame_types source) ∧ Forall row_fits (rel_rows r).
Proof.
  intros Hp Hs Hc Hx. unfold plain_query in Hp. destruct (q_ctes q); [|done].
  unfold query_source in Hx. destruct (q_joins q); [|done].
  apply bind_Ok in Hx as (r0 & Hr0 & [= <-]). unfold metadata_source in Hs. unfold columns.
  destruct (q_from q) as [[name alias|]|]; [|done|subst source; injection Hr0 as <-; by repeat constructor].
  cbn [source_relation] in Hr0. rewrite lookup_empty in Hr0.
  destruct (cat_tables c !! name) as [t|] eqn:Ht; [|done]. cbn in Hs, Hr0. subst source. injection Hr0 as <-.
  cbn [frame_columns frame_types]. split_and!; [done|by unfold table_columns, table_types; rewrite !length_fmap|].
  cbn [rel_rows relation_from_table]. eapply Forall_subset; [apply scan_subset|].
  eapply Forall_impl; [exact (Hc name t Ht)|]. intros row Hrow. unfold table_types.
  apply Forall2_fmap_l, Forall2_flip. eapply Forall2_impl; [exact Hrow|]. intros v col. apply stores_fits.
Qed.

Lemma query_fits q typess r :
  plain_query q = true → metadata_source c q = source → catalog_typed c →
  Forall2 item_sound (q_projection q) typess → execute_query c q ∅ = Ok r →
  Forall (Forall2 cell_fits (concat typess)) (rel_rows r).
Proof.
  intros Hp Hs Hc Hi Hx. rewrite execute_query_unfold in Hx. unfold execute_query_body in Hx.
  assert (q_ctes q = []) as Hctes by (unfold plain_query in Hp; by destruct (q_ctes q)).
  rewrite Hctes in Hx. apply bind_Ok in Hx as (ctes & [= <-] & Hx).
  apply bind_Ok in Hx as (r0 & Hr0 & Hx). destruct (source_fits q r0 Hp Hs Hc Hr0) as (Hcols & Hlen & Hrows).
  apply bind_Ok in Hx as (rows1 & Hr1%filter_rows_subset & Hx). apply bind_Ok in Hx as (rows2 & Hr2 & Hx).
  assert (Forall row_fits rows2) as Hrows2.
  { eapply Forall_subset; [|exact Hrows]. etransitivity; [|exact Hr1].
    destruct (orders_before_projection q (rel_columns r0)); [|by injection Hr2 as <-].
    apply sort_by_perm in Hr2. intros x. by rewrite Hr2. }
  apply bind_Ok in Hx as (projected & Hproj & Hx). apply bind_Ok in Hx as (rows3 & Hr3 & [= <-]). cbn [rel_rows].
  assert (Forall (Forall2 cell_fits (concat typess)) (rel_rows projected)) as Hpf.
  { destruct (is_aggregate_query q).
    - by eapply aggregate_query_fits; [exact Hi| | | |exact Hproj].
    - by eapply project_query_fits; [exact Hi| | |exact Hproj]. }
  rewrite Forall_forall in *. intros x Hx. apply Hpf.
  assert (x ∈ rows3) as Hx3 by (destruct (q_limit q); [by apply take_subset' in Hx|done]).
  assert (x ∈ (if q_distinct q then retain_first row_key ∅ (rel_rows projected) else rel_rows projected)) as Hxd.
  { destruct (_ && _); [by apply order_projected_subset in Hr3; apply Hr3|by injection Hr3 as <-]. }
  destruct (q_distinct q); [by apply retain_first_subset in Hxd|done].
Qed.
End soundness.

(** Optimising keeps the shape and folds the items. *)
Lemma optimize_plain `{RustStd} q q' :
  plain_query q = true → optimize_query q = Ok q' →
  plain_query q' = true ∧ q_from q' = q_from q ∧
  Forall2 (λ i i', optimize_item i = Ok i') (q_projection q) (q_projection q').
Proof.
  intros Hp Ho. destruct q as [ctes distinct projection from joins selection group_by having order_by limit].
  unfold plain_query in *. cbn [q_ctes q_joins q_from] in Hp. destruct ctes, joins; try done.
  change (optimize_query _) with (projection ← mapM optimize_item projection;
      from ← map_opt optimize_source from; selection ← map_opt fold_expr selection;
      group_by ← mapM fold_expr group_by; having ← map_opt fold_expr having;
      order_by ← mapM optimize_order order_by;
      Ok (mkQuery [] distinct projection from [] selection group_by having order_by limit)) in Ho.
  apply bind_Ok in Ho as (projection' & Hm%mapM_Ok & Ho). apply bind_Ok in Ho as (from' & Hf & Ho).
  repeat (apply bind_Ok in Ho as (? & _ & Ho)). injection Ho as <-. cbn.
  assert (from' = from) as -> by (destruct from as [[]|]; try done; by injection Hf as <-).
  by split_and!.
Qed.

Lemma announced_types_hold `{RustStd} c q q' r :
  plain_query q = true → forallb typable_item (q_projection q) = true → catalog_typed c →
  q' = q ∨ optimize_query q = Ok q' → execute_query c q' ∅ = Ok r →
  Forall (Forall2 cell_fits (query_metadata c q).*2) (rel_rows r).
Proof.
  intros Hp Ht Hc Hq Hx. rewrite forallb_true in Ht.
  assert (plain_query q' = true ∧ q_from q' = q_from q ∧
    Forall2 (λ i i', i' = i ∨ optimize_item i = Ok i') (q_projection q) (q_projection q')) as (Hp' & Hf & Hi).
  { destruct Hq as [->|Ho].
    - split_and!; [done..|]. apply Forall_Forall2_diag, Forall_forall. by left.
    - destruct (optimize_plain _ _ Hp Ho) as (? & ? & Hi). split_and!; [done..|].
      eapply Forall2_impl; [exact Hi|]. by right. }
  rewrite (query_metadata_types c (metadata_source c q)) by done.
  apply (query_fits c (metadata_source c q) q'); [done| |done| |done].
  { unfold metadata_source. by rewrite Hf. }
  revert Ht. induction Hi as [|i i' items items' Hi _ IH]; intros Ht; constructor.
  - apply item_sound_announced; [apply Ht; left|done].
  - apply IH. intros j Hj. apply Ht. by right.
Qed.

(** C18. On every catalog that a history of statements leads to, a query over one
    table or over none whose items do not take their type from a scalar subquery,
    as prepared or as the optimiser rewrites it, returns rows whose values are
    NULL or of the types announced for its columns before it ran. *)
Theorem announced_types_match `{RustStd} `{StatementDebug} c n q q' r :
  reachable c n → plain_query q = true → forallb typable_item (q_projection q) = true →
  q' = q ∨ optimize_query q = Ok q' → execute_query c q' ∅ = Ok r →
  Forall (λ row, Forall2 (λ announced v, v = VNull ∨ data_type v = announced) (query_metadata c q).*2 row)
    (rel_rows r).
Proof. intros Hr Hp Ht Hq Hx. eapply announced_types_hold; [done|done|by eapply reachable_typed|done|done]. Qed.

Section soundness_examples.
#[local] Existing Instance concrete_std.
#[local] Existing Instance Integrity.debug_none.

(** SELECT *, id + 2.0, NULL AND TRUE AS n FROM t, which the optimiser folds. *)
Definition mixed_query : Query :=
  mkQuery [] false [SWildcard None; SExpr (EBinary (EColumn None "id") OpAdd (ELiteral (VFloat (f64_of_Z 2)))) None;
      SExpr (EBinary (ELiteral VNull) OpAnd (ELiteral (VBoolean true))) (Some "n")]
    (Some (SrcTable "t" None)) [] None [] None [] None.
Definition mixed_folded : Query :=
  match optimize_query mixed_query with Ok q => q | _ => mixed_query end.

Lemma announced_types_match_witness :
  ∃ r, execute_query history mixed_folded ∅ = Ok r ∧ (query_metadata history mixed_query).*2 = [TInteger; TText; TFloat; TBoolean] ∧
    Forall (λ row, Forall2 (λ announced v, v = VNull ∨ data_type v = announced)
      [TInteger; TText; TFloat; TBoolean] row) (rel_rows r).
Proof.
  destruct (execute_query history mixed_folded ∅) as [r| |] eqn:E; [|by vm_compute in E..].
  exists r. split; [done|]. split; [vm_compute; reflexivity|].
  apply (announced_types_match history 2 mixed_query mixed_folded r);
    [apply history_reachable|done|done|right; vm_compute; reflexivity|exact E].
Defined.
End soundness_examples.
