(* ===== verification/Protocol.v ===== *)
(** * Protocol.v: the MySQL wire format (src/wire/protocol.rs)

    Length-encoded integers and strings, the packets the server builds, the
    handshake response it parses and the password check, on lists of bytes.
    Beside them stand the readers and writers a client needs, as the
    specification: what the server writes a client reads back, and the
    response a client writes the server reads back. *)

From S2P Require Import Prelude Machine Float64 Like Types Concrete Str.

#[local] Open Scope Z_scope.

(** SHA-1 of the [sha1] crate. *)
Class Sha1 := {
  sha1 : list Z → list Z;
  sha1_length : ∀ l, length (sha1 l) = 20%nat;
  sha1_bytes : ∀ l, Forall (λ b, is_byte b = true) (sha1 l);
}.

(** ** Constants *)

Definition CLIENT_LONG_PASSWORD : Z := 0x00000001.
Definition CLIENT_FOUND_ROWS : Z := 0x00000002.
Definition CLIENT_LONG_FLAG : Z := 0x00000004.
Definition CLIENT_CONNECT_WITH_DB : Z := 0x00000008.
Definition CLIENT_PROTOCOL_41 : Z := 0x00000200.
Definition CLIENT_TRANSACTIONS : Z := 0x00002000.
Definition CLIENT_SECURE_CONNECTION : Z := 0x00008000.
Definition CLIENT_MULTI_RESULTS : Z := 0x00020000.
Definition CLIENT_PLUGIN_AUTH : Z := 0x00080000.
Definition CLIENT_PLUGIN_AUTH_LENENC_CLIENT_DATA : Z := 0x00200000.

Definition SERVER_STATUS_AUTOCOMMIT : Z := 2.
Definition SERVER_STATUS_IN_TRANS : Z := 1.

Definition MYSQL_TYPE_TINY : Z := 0x01.
Definition MYSQL_TYPE_SHORT : Z := 0x02.
Definition MYSQL_TYPE_LONG : Z := 0x03.
Definition MYSQL_TYPE_FLOAT : Z := 0x04.
Definition MYSQL_TYPE_DOUBLE : Z := 0x05.
Definition MYSQL_TYPE_LONGLONG : Z := 0x08.
Definition MYSQL_TYPE_VAR_STRING : Z := 0xFD.
Definition MYSQL_TYPE_NULL : Z := 0x06.

Definition NOT_NULL_FLAG : Z := 0x0001.
Definition PRI_KEY_FLAG : Z := 0x0002.
Definition NUM_FLAG : Z := 0x8000.

Definition SERVER_VERSION : string := "5.7.99-RustyDB-0.3.0-beta".

Definition SERVER_CAPABILITIES : Z :=
  foldr Z.lor 0 [CLIENT_LONG_PASSWORD; CLIENT_FOUND_ROWS; CLIENT_LONG_FLAG; CLIENT_CONNECT_WITH_DB;
    CLIENT_PROTOCOL_41; CLIENT_TRANSACTIONS; CLIENT_SECURE_CONNECTION; CLIENT_MULTI_RESULTS;
    CLIENT_PLUGIN_AUTH].

Definition CHARSET_UTF8MB4 : Z := 45.

(** ** Strings and bytes *)

(** One step of the UTF-8 decoder of the standard library: the length of a
    character, or of the longest part of one before an unexpected byte. *)
Definition is_cont (b : option Z) : bool :=
  match b with Some b => (128 <=? b) && (b <? 192) | None => false end.
Definition second_ok (first : Z) (b : option Z) : bool :=
  match b with
  | Some b =>
      if first =? 0xE0 then (0xA0 <=? b) && (b <? 0xC0)
      else if first =? 0xED then (0x80 <=? b) && (b <? 0xA0)
      else if first =? 0xF0 then (0x90 <=? b) && (b <? 0xC0)
      else if first =? 0xF4 then (0x80 <=? b) && (b <? 0x90)
      else (0x80 <=? b) && (b <? 0xC0)
  | None => false
  end.
Definition utf8_step (first : Z) (rest : list Z) : nat + nat :=
  if first <? 0x80 then inl 1%nat
  else if first <? 0xC2 then inr 1%nat
  else if first <? 0xE0 then if is_cont (rest !! 0%nat) then inl 2%nat else inr 1%nat
  else if first <? 0xF0 then
    if second_ok first (rest !! 0%nat) then
      if is_cont (rest !! 1%nat) then inl 3%nat else inr 2%nat
    else inr 1%nat
  else if first <? 0xF5 then
    if second_ok first (rest !! 0%nat) then
      if is_cont (rest !! 1%nat) then
        if is_cont (rest !! 2%nat) then inl 4%nat else inr 3%nat
      else inr 2%nat
    else inr 1%nat
  else inr 1%nat.

(** [String::from_utf8_lossy]: every undecodable part becomes U+FFFD. *)
Definition replacement : list Z := [0xEF; 0xBF; 0xBD].
Fixpoint lossy_bytes (fuel : nat) (l : list Z) : list Z :=
  match fuel, l with
  | S fuel, first :: rest =>
      match utf8_step first rest with
      | inl n => take n l ++ lossy_bytes fuel (drop n l)
      | inr n => replacement ++ lossy_bytes fuel (drop n l)
      end
  | _, _ => []
  end.
Definition from_utf8_lossy (l : list Z) : string := bytes_string (lossy_bytes (length l) l).

(** [String::from_utf8]. *)
Definition from_utf8 (l : list Z) : option string :=
  if valid_utf8 (bytes_string l) then Some (bytes_string l) else None.

(** [&data[start..end]]. *)
Definition slice (data : list Z) (start stop : nat) : outcome (list Z) :=
  if decide (start ≤ stop ∧ stop ≤ length data)%nat then Ok (take (stop - start) (drop start data))
  else Panic.

(** ** Length-encoded values *)

Definition encode_lenenc_int (val : Z) : list Z :=
  if val <? 251 then [val]
  else if val <? 65536 then 0xFC :: to_le_bytes 2 val
  else if val <? 16777216 then 0xFD :: take 3 (to_le_bytes 4 val)
  else 0xFE :: to_le_bytes 8 val.

Definition encode_lenenc_str (s : string) : list Z :=
  encode_lenenc_int (Z.of_nat (String.length s)) ++ string_bytes s.

(** A position of the source is an index into [data]; readers return the next
    one.  The scan stops at the first zero byte or at the end. *)
Fixpoint scan_zero (l : list Z) : nat :=
  match l with
  | [] => O
  | b :: l => if b =? 0 then O else S (scan_zero l)
  end.

Definition read_null_terminated (data : list Z) (pos : nat) : outcome (string * nat) :=
  let stop := (pos + scan_zero (drop pos data))%nat in
  raw ← slice data pos stop;
  Ok (from_utf8_lossy raw, if decide (stop < length data)%nat then S stop else stop).

Definition read_lenenc_int (data : list Z) (pos : nat) : option Z * nat :=
  match data !! pos with
  | None => (None, pos)
  | Some first =>
      let pos := S pos in
      let fixed (n : nat) : option Z * nat :=
        if decide (length data - pos < n)%nat then (None, pos)
        else (Some (from_le_bytes (take n (drop pos data))), (pos + n)%nat) in
      if first =? 0xFC then fixed 2%nat
      else if first =? 0xFD then fixed 3%nat
      else if first =? 0xFE then fixed 8%nat
      else (Some first, pos)
  end.

(** ** The challenge and the password check *)

Section authentication.
Context `{Sha1}.

(** From the connection, the clock and the process. *)
Definition generate_scramble (conn_id nanos pid : Z) : list Z :=
  (λ b, if b =? 0 then 1 else b)
    <$> sha1 (to_le_bytes 4 conn_id ++ to_le_bytes 16 nanos ++ to_le_bytes 4 pid).

Definition verify_mysql_native_password (password : string) (scramble client_auth : list Z) : bool :=
  if bool_decide (password = EmptyString) && bool_decide (client_auth = []) then true
  else if decide (length client_auth = 20)%nat then
    let stage1 := sha1 (string_bytes password) in
    let stage2 := sha1 stage1 in
    let scramble_hash := sha1 (scramble ++ stage2) in
    bool_decide (zip_with Z.lxor stage1 scramble_hash = client_auth)
  else false.
End authentication.

(** ** Packets of the server *)

Definition build_handshake_v10 (conn_id : Z) (scramble : list Z) : outcome (list Z) :=
  part1 ← slice scramble 0 8;
  part2 ← slice scramble 8 20;
  Ok ([10] ++ string_bytes SERVER_VERSION ++ [0] ++ to_le_bytes 4 conn_id ++ part1 ++ [0]
      ++ to_le_bytes 2 (Z.land SERVER_CAPABILITIES 0xFFFF) ++ [CHARSET_UTF8MB4]
      ++ to_le_bytes 2 SERVER_STATUS_AUTOCOMMIT
      ++ to_le_bytes 2 (Z.land (Z.shiftr SERVER_CAPABILITIES 16) 0xFFFF) ++ [21]
      ++ replicate 10 0 ++ part2 ++ [0] ++ string_bytes "mysql_native_password" ++ [0]).

Definition build_ok_packet_with_status (affected_rows last_insert_id status : Z) : list Z :=
  [0x00] ++ encode_lenenc_int affected_rows ++ encode_lenenc_int last_insert_id
  ++ to_le_bytes 2 status ++ to_le_bytes 2 0.
Definition build_ok_packet (affected_rows last_insert_id : Z) : list Z :=
  build_ok_packet_with_status affected_rows last_insert_id SERVER_STATUS_AUTOCOMMIT.

Definition build_err_packet (code : Z) (state msg : string) : list Z :=
  [0xFF] ++ to_le_bytes 2 code ++ [35]
  ++ ((λ i, default 48 (string_bytes state !! i)) <$> seq 0 5) ++ string_bytes msg.

Definition build_eof_packet_with_status (status : Z) : list Z :=
  [0xFE] ++ to_le_bytes 2 0 ++ to_le_bytes 2 status.
Definition build_eof_packet : list Z := build_eof_packet_with_status SERVER_STATUS_AUTOCOMMIT.

Definition build_column_count (count : Z) : list Z := encode_lenenc_int count.

Definition build_column_def (name table : string) (col_type col_flags : Z) : list Z :=
  let charset := if col_type =? MYSQL_TYPE_VAR_STRING then 45 else 63 in
  let col_len :=
    if col_type =? MYSQL_TYPE_LONGLONG then 20
    else if col_type =? MYSQL_TYPE_DOUBLE then 22
    else if col_type =? MYSQL_TYPE_TINY then 4
    else if col_type =? MYSQL_TYPE_VAR_STRING then 65535
    else 255 in
  encode_lenenc_str "def" ++ encode_lenenc_str "rustydb" ++ encode_lenenc_str table
  ++ encode_lenenc_str table ++ encode_lenenc_str name ++ encode_lenenc_str name ++ [0x0C]
  ++ to_le_bytes 2 charset ++ to_le_bytes 4 col_len ++ [col_type] ++ to_le_bytes 2 col_flags
  ++ [if col_type =? MYSQL_TYPE_DOUBLE then 31 else 0] ++ [0; 0].

Definition text_cell `{RustStd} (v : Value) : list Z :=
  match v with
  | VNull => [0xFB]
  | VBoolean b => encode_lenenc_str (if b then "1" else "0")
  | other => encode_lenenc_str (value_display other)
  end.
Definition build_text_row `{RustStd} (values : list Value) : list Z :=
  foldl (λ pkt v, pkt ++ text_cell v) [] values.

Definition build_stmt_prepare_ok (statement_id columns parameters : Z) : list Z :=
  [0x00] ++ to_le_bytes 4 statement_id ++ to_le_bytes 2 columns ++ to_le_bytes 2 parameters
  ++ [0] ++ to_le_bytes 2 0.

(** [i64::to_le_bytes] is two's complement. *)
Definition i64_le (z : Z) : list Z := to_le_bytes 8 z.

Definition binary_cell (v : Value) : list Z :=
  match v with
  | VInteger z => i64_le z
  | VFloat f => to_le_bytes 8 (to_bits f)
  | VBoolean b => [if b then 1 else 0]
  | VText s => encode_lenenc_str s
  | VNull => []
  end.
Definition binary_step (packet : list Z) (iv : nat * Value) : outcome (list Z) :=
  let '(index, v) := iv in
  if is_null v then
    let bit := (index + 2)%nat in
    byte ← vec_index packet (1 + bit / 8);
    vec_set packet (1 + bit / 8) (Z.lor byte (Z.shiftl 1 (Z.of_nat (bit mod 8))))
  else Ok (packet ++ binary_cell v).
Definition build_binary_row (values : list Value) : outcome (list Z) :=
  let bitmap_len := ((length values + 9) / 8)%nat in
  foldM binary_step (0x00 :: replicate bitmap_len 0)
    (zip (seq 0 (length values)) values).

Definition datatype_to_mysql (dt : DataType) : Z :=
  match dt with
  | TInteger => MYSQL_TYPE_LONGLONG | TFloat => MYSQL_TYPE_DOUBLE | TText => MYSQL_TYPE_VAR_STRING
  | TBoolean => MYSQL_TYPE_TINY | TNull => MYSQL_TYPE_NULL
  end.

Definition column_flags (dt : DataType) (nullable primary_key : bool) : Z :=
  let flags := if nullable then 0 else NOT_NULL_FLAG in
  let flags := if primary_key then Z.lor flags (Z.lor PRI_KEY_FLAG NOT_NULL_FLAG) else flags in
  match dt with TInteger | TFloat | TBoolean => Z.lor flags NUM_FLAG | _ => flags end.

(** ** The handshake response *)

Record ClientHandshake := {
  capabilities : Z;
  username : string;
  auth_response : list Z;
  database : option string;
  auth_plugin : option string;
}.

Definition has_flag (capabilities flag : Z) : bool := negb (Z.land capabilities flag =? 0).

Definition read_auth (data : list Z) (caps : Z) (pos : nat) : outcome (list Z * nat) :=
  if has_flag caps CLIENT_PLUGIN_AUTH_LENENC_CLIENT_DATA then
    let '(len, pos) := read_lenenc_int data pos in
    len ← ok_or len "Invalid length-encoded auth response";
    if Z.of_nat (length data - pos) <? len then Err "Auth response length exceeds packet size"
    else
      let stop := (pos + Z.to_nat len)%nat in
      auth ← slice data pos stop; Ok (auth, stop)
  else if has_flag caps CLIENT_SECURE_CONNECTION then
    match data !! pos with
    | None => Ok ([], pos)
    | Some len =>
        let pos := S pos in
        let stop := Nat.min (pos + Z.to_nat len) (length data) in
        auth ← slice data pos stop; Ok (auth, stop)
    end
  else
    let stop := (pos + scan_zero (drop pos data))%nat in
    auth ← slice data pos stop;
    Ok (auth, if decide (stop < length data)%nat then S stop else stop).

(** The database name and the plugin name: absent, or a string that is not
    empty. *)
Definition read_optional (data : list Z) (present : bool) (pos : nat) :
    outcome (option string * nat) :=
  if present && bool_decide (pos < length data)%nat then
    '(s, pos) ← read_null_terminated data pos;
    Ok (if bool_decide (s = EmptyString) then None else Some s, pos)
  else Ok (None, pos).

Definition parse_client_handshake (data : list Z) : outcome ClientHandshake :=
  if decide (length data < 32)%nat then Err "Handshake response too short"
  else
    let caps := from_le_bytes (take 4 data) in
    '(user, pos) ← read_null_terminated data 32;
    '(auth, pos) ← read_auth data caps pos;
    '(db, pos) ← read_optional data (has_flag caps CLIENT_CONNECT_WITH_DB) pos;
    '(plugin, _) ← read_optional data (has_flag caps CLIENT_PLUGIN_AUTH) pos;
    Ok {| capabilities := caps; username := user; auth_response := auth; database := db;
          auth_plugin := plugin |}.

(** ** The client's side *)

(** What mysql_native_password tells a client to answer. *)
Definition client_response `{Sha1} (password : string) (scramble : list Z) : list Z :=
  zip_with Z.lxor (sha1 (string_bytes password))
    (sha1 (scramble ++ sha1 (sha1 (string_bytes password)))).

(** HandshakeResponse41 as a client writes it. *)
Definition cstring (s : string) : list Z := string_bytes s ++ [0].
Definition write_auth (caps : Z) (auth : list Z) : list Z :=
  if has_flag caps CLIENT_PLUGIN_AUTH_LENENC_CLIENT_DATA then
    encode_lenenc_int (Z.of_nat (length auth)) ++ auth
  else if has_flag caps CLIENT_SECURE_CONNECTION then Z.of_nat (length auth) :: auth
  else auth ++ [0].
Definition write_optional (present : bool) (o : option string) : list Z :=
  if present then cstring (default EmptyString o) else [].
Definition write_handshake (h : ClientHandshake) (max_packet charset : Z) : list Z :=
  to_le_bytes 4 (capabilities h) ++ to_le_bytes 4 max_packet ++ [charset] ++ replicate 23 0
  ++ cstring (username h) ++ write_auth (capabilities h) (auth_response h)
  ++ write_optional (has_flag (capabilities h) CLIENT_CONNECT_WITH_DB) (database h)
  ++ write_optional (has_flag (capabilities h) CLIENT_PLUGIN_AUTH) (auth_plugin h).

Definition c_text (s : string) : Prop := valid_utf8 s = true ∧ (0 ∉ string_bytes s).
Definition wf_optional (present : bool) (o : option string) : Prop :=
  match o with
  | Some s => present = true ∧ s ≠ EmptyString ∧ c_text s
  | None => True
  end.
Definition wf_auth (caps : Z) (auth : list Z) : Prop :=
  if has_flag caps CLIENT_PLUGIN_AUTH_LENENC_CLIENT_DATA then Z.of_nat (length auth) < 2 ^ 64
  else if has_flag caps CLIENT_SECURE_CONNECTION then (length auth < 256)%nat
  else 0 ∉ auth.
Record wf_handshake (h : ClientHandshake) : Prop := {
  wf_capabilities : 0 ≤ capabilities h < 2 ^ 32;
  wf_username : c_text (username h);
  wf_auth_response : wf_auth (capabilities h) (auth_response h);
  wf_database : wf_optional (has_flag (capabilities h) CLIENT_CONNECT_WITH_DB) (database h);
  wf_plugin : wf_optional (has_flag (capabilities h) CLIENT_PLUGIN_AUTH) (auth_plugin h);
}.

(** Rows as a client reads them, by what is left of the packet. *)
Definition next_lenenc (l : list Z) : option (Z * list Z) :=
  let '(v, pos) := read_lenenc_int l 0 in v ← v; Some (v, drop pos l).
Definition next_bytes (n : Z) (l : list Z) : option (list Z * list Z) :=
  if Z.of_nat (length l) <? n then None else Some (take (Z.to_nat n) l, drop (Z.to_nat n) l).
Definition next_string (l : list Z) : option (string * list Z) :=
  '(n, l) ← next_lenenc l; '(raw, l) ← next_bytes n l; Some (bytes_string raw, l).

Fixpoint read_text_row (columns : nat) (l : list Z) : option (list (option string)) :=
  match columns with
  | O => match l with [] => Some [] | _ => None end
  | S columns =>
      if decide (head l = Some 0xFB) then
        rest ← read_text_row columns (tail l); Some (None :: rest)
      else '(s, l) ← next_string l; rest ← read_text_row columns l; Some (Some s :: rest)
  end.

Definition text_value `{RustStd} (v : Value) : option string :=
  match v with
  | VNull => None
  | VBoolean b => Some (if b then "1" else "0")
  | other => Some (value_display other)
  end.

(** The value of a column of a given wire type in a binary row. *)
Definition signed64 (z : Z) : Z := if z <? 2 ^ 63 then z else z - 2 ^ 64.
Definition next_cell (col_type : Z) (l : list Z) : option (Value * list Z) :=
  if col_type =? MYSQL_TYPE_LONGLONG then
    '(raw, l) ← next_bytes 8 l; Some (VInteger (signed64 (from_le_bytes raw)), l)
  else if col_type =? MYSQL_TYPE_DOUBLE then
    '(raw, l) ← next_bytes 8 l; Some (VFloat (F64 (from_le_bytes raw)), l)
  else if col_type =? MYSQL_TYPE_TINY then
    '(raw, l) ← next_bytes 1 l; Some (VBoolean (negb (from_le_bytes raw =? 0)), l)
  else if col_type =? MYSQL_TYPE_VAR_STRING then
    '(s, l) ← next_string l; Some (VText s, l)
  else None.
Definition null_bit (bitmap : list Z) (index : nat) : bool :=
  Z.testbit (default 0 (bitmap !! ((index + 2) / 8)%nat)) (Z.of_nat ((index + 2) mod 8)).
Fixpoint read_cells (types : list Z) (index : nat) (bitmap l : list Z) : option (list Value) :=
  match types with
  | [] => match l with [] => Some [] | _ => None end
  | t :: types =>
      if null_bit bitmap index then
        rest ← read_cells types (S index) bitmap l; Some (VNull :: rest)
      else
        '(v, l) ← next_cell t l; rest ← read_cells types (S index) bitmap l; Some (v :: rest)
  end.
Definition read_binary_row (types data : list Z) : option (list Value) :=
  match data with
  | 0 :: l =>
      let n := ((length types + 9) / 8)%nat in read_cells types 0 (take n l) (drop n l)
  | _ => None
  end.

Definition encodable (v : Value) : Prop :=
  value_valid v ∧ match v with VText s => Z.of_nat (String.length s) < 2 ^ 64 | _ => True end.

(** ** Lemmas on bytes and slices *)

Abbreviation bytes := (Forall (λ b, is_byte b = true)).

Lemma take_app_exact {A} (l k : list A) n : n = length l → take n (l ++ k) = l.
Proof. intros ->. apply take_app_length. Qed.
Lemma drop_app_exact {A} (l k : list A) n : n = length l → drop n (l ++ k) = k.
Proof. intros ->. apply drop_app_length. Qed.

Lemma slice_mid pre x post n m :
  n = length pre → m = (length pre + length x)%nat → slice (pre ++ x ++ post) n m = Ok x.
Proof.
  intros -> ->. unfold slice. rewrite decide_True by (rewrite !length_app; lia).
  rewrite drop_app_length. rewrite take_app_exact by lia. done.
Qed.

Lemma slice_total data a b : (a ≤ b ≤ length data)%nat → ∃ l, slice data a b = Ok l.
Proof. intros. unfold slice. rewrite decide_True by lia. eauto. Qed.

Lemma scan_zero_bound l : (scan_zero l ≤ length l)%nat.
Proof. induction l as [|b l IH]; cbn; [done|]. destruct (b =? 0); lia. Qed.

Lemma scan_zero_app l post : 0 ∉ l → scan_zero (l ++ 0 :: post) = length l.
Proof.
  induction l as [|b l IH]; intros Hl; cbn; [done|]. apply not_elem_of_cons in Hl as [Hb Hl].
  destruct (Z.eqb_spec b 0); [congruence|]. by rewrite IH.
Qed.

Lemma take3_le z : 0 ≤ z < 2 ^ 24 → from_le_bytes (take 3 (to_le_bytes 4 z)) = z.
Proof.
  intros Hz. change (take 3 (to_le_bytes 4 z)) with (to_le_bytes 3 z).
  apply (from_to_le_bytes_id 3). exact Hz.
Qed.

Lemma lookup_mid {A} (pre : list A) x post : (pre ++ x :: post) !! length pre = Some x.
Proof. rewrite lookup_app_r by lia. by rewrite Nat.sub_diag. Qed.

(** Reading back a length-encoded integer, wherever it stands. *)
Lemma read_encode_lenenc pre v post :
  0 ≤ v < 2 ^ 64 →
  read_lenenc_int (pre ++ encode_lenenc_int v ++ post) (length pre)
    = (Some v, (length pre + length (encode_lenenc_int v))%nat).
Proof.
  intros Hv. unfold encode_lenenc_int.
  assert (∀ first n enc, length enc = n → from_le_bytes enc = v →
    (if decide (length (pre ++ (first :: enc) ++ post) - S (length pre) < n)%nat
     then (None, S (length pre))
     else (Some (from_le_bytes (take n (drop (S (length pre)) (pre ++ (first :: enc) ++ post)))),
           (S (length pre) + n)%nat)) = (Some v, (length pre + S n)%nat)) as Hfixed.
  { intros first n enc Hn Henc. rewrite decide_False by (rewrite !length_app; cbn; lia).
    cbn [app]. rewrite cons_middle, app_assoc, drop_app_exact by (rewrite length_app; cbn; lia).
    rewrite take_app_exact, Henc by lia. f_equal. lia. }
  destruct (Z.ltb_spec v 251); [|destruct (Z.ltb_spec v 65536); [|destruct (Z.ltb_spec v 16777216)]];
    unfold read_lenenc_int; cbn [app]; rewrite lookup_mid.
  - rewrite (proj2 (Z.eqb_neq v 0xFC)), (proj2 (Z.eqb_neq v 0xFD)), (proj2 (Z.eqb_neq v 0xFE)) by lia.
    f_equal. cbn. lia.
  - apply (Hfixed 0xFC 2%nat (to_le_bytes 2 v)); [done|]. apply (from_to_le_bytes_id 2).
    change (2 ^ (8 * Z.of_nat 2)) with 65536. lia.
  - apply (Hfixed 0xFD 3%nat (take 3 (to_le_bytes 4 v))); [done|]. apply take3_le. lia.
  - apply (Hfixed 0xFE 8%nat (to_le_bytes 8 v)); [done|]. by apply (from_to_le_bytes_id 8).
Qed.

Lemma next_lenenc_encode v l :
  0 ≤ v < 2 ^ 64 → next_lenenc (encode_lenenc_int v ++ l) = Some (v, l).
Proof.
  intros Hv. unfold next_lenenc. pose proof (read_encode_lenenc [] v l Hv) as Hr.
  cbn [app length Nat.add] in Hr. rewrite Hr. cbn. by rewrite drop_app_length.
Qed.

Lemma next_bytes_app raw l n : n = Z.of_nat (length raw) → next_bytes n (raw ++ l) = Some (raw, l).
Proof.
  intros ->. unfold next_bytes. destruct (Z.ltb_spec (Z.of_nat (length (raw ++ l))) (Z.of_nat (length raw))) as [Hl|_].
  - rewrite length_app in Hl. lia.
  - by rewrite Nat2Z.id, take_app_length, drop_app_length.
Qed.

Lemma next_string_encode s l :
  Z.of_nat (String.length s) < 2 ^ 64 → next_string (encode_lenenc_str s ++ l) = Some (s, l).
Proof.
  intros Hs. unfold next_string, encode_lenenc_str. rewrite <-app_assoc, next_lenenc_encode by lia.
  cbn. rewrite next_bytes_app by by rewrite string_bytes_length. cbn. by rewrite string_bytes_inv.
Qed.

Lemma encode_lenenc_head v l : 0 ≤ v → head (encode_lenenc_int v ++ l) ≠ Some 0xFB.
Proof.
  intros Hv. unfold encode_lenenc_int.
  destruct (Z.ltb_spec v 251); [cbn; intros [=]; lia|]. by repeat case_match.
Qed.

(** ** Decoding valid text *)

Lemma utf8_step_char ch rest :
  utf8_char ch = true →
  ∃ first r, string_bytes ch = first :: r ∧
    utf8_step first (r ++ rest) = inl (length (string_bytes ch)).
Proof.
  unfold utf8_char, char_codes, string_bytes, ascii_code.
  destruct (String.list_ascii_of_string ch) as [|a [|b [|c [|d [|e l]]]]]; cbn [fmap list_fmap];
    intros Hch; try discriminate; eexists _, _; (split; [reflexivity|]);
    repeat match goal with |- context [Ascii.N_of_ascii ?x] =>
      let n := fresh "n" in set (n := Ascii.N_of_ascii x) in * end; clearbody n; 
    repeat (rewrite ?andb_true_iff, ?orb_true_iff, ?bool_decide_eq_true in Hch);
    unfold utf8_step, second_ok, is_cont; cbn [app lookup list_lookup length];
    repeat (case_match; try reflexivity); lia.
Qed.

Lemma string_bytes_app a b : string_bytes (a +:+ b) = string_bytes a ++ string_bytes b.
Proof.
  unfold string_bytes. rewrite <-fmap_app. f_equal.
  induction a as [|c a IH]; [done|]. cbn. by rewrite <-IH.
Qed.

Lemma lossy_of_chars l fuel :
  Forall (λ ch, utf8_char ch = true) l → (length (string_bytes (of_chars l)) ≤ fuel)%nat →
  lossy_bytes fuel (string_bytes (of_chars l)) = string_bytes (of_chars l).
Proof.
  intros Hl. revert fuel. induction Hl as [|ch l Hch Hl IH]; intros fuel Hf; [by destruct fuel|].
  change (of_chars (ch :: l)) with (ch +:+ of_chars l) in *. rewrite string_bytes_app in *.
  destruct (utf8_step_char ch (string_bytes (of_chars l)) Hch) as (first & r & Hb & Hstep).
  rewrite Hb in Hstep |- *. rewrite Hb, length_app in Hf. cbn [length] in Hf, Hstep.
  destruct fuel as [|fuel]; [lia|]. cbn [lossy_bytes app]. rewrite Hstep.
  cbn [take drop]. rewrite take_app_exact, drop_app_exact by done. rewrite IH by lia. done.
Qed.

Lemma from_utf8_lossy_valid s : valid_utf8 s = true → from_utf8_lossy (string_bytes s) = s.
Proof.
  intros Hs. unfold valid_utf8 in Hs. rewrite forallb_true in Hs. unfold from_utf8_lossy.
  rewrite <-(of_chars_chars s). rewrite lossy_of_chars; [apply string_bytes_inv|by apply Forall_forall|done].
Qed.

(** ** Reading what a client writes *)

Lemma read_cstring pre s post :
  c_text s →
  read_null_terminated (pre ++ cstring s ++ post) (length pre)
    = Ok (s, (length pre + length (cstring s))%nat).
Proof.
  intros [Hv Hz]. unfold read_null_terminated, cstring.
  rewrite drop_app_length, <-app_assoc. cbn [app]. rewrite scan_zero_app by done.
  rewrite (slice_mid pre (string_bytes s)) by done. cbn. rewrite from_utf8_lossy_valid by done.
  rewrite decide_True by (rewrite !length_app; cbn; lia). rewrite length_app. cbn. do 2 f_equal. lia.
Qed.

Lemma read_null_terminated_total data pos :
  (pos ≤ length data)%nat →
  ∃ s pos', read_null_terminated data pos = Ok (s, pos') ∧ (pos' ≤ length data)%nat.
Proof.
  intros Hp. unfold read_null_terminated. pose proof (scan_zero_bound (drop pos data)) as Hb.
  rewrite length_drop in Hb.
  destruct (slice_total data pos (pos + scan_zero (drop pos data))) as [raw ->]; [lia|].
  eexists _, _. split; [reflexivity|]. case_decide; lia.
Qed.

Lemma read_lenenc_bound data pos v pos' :
  bytes data → (pos ≤ length data)%nat → read_lenenc_int data pos = (v, pos') →
  (pos' ≤ length data)%nat ∧ (∀ z, v = Some z → 0 ≤ z).
Proof.
  intros Hd Hp Hr. unfold read_lenenc_int in Hr.
  destruct (data !! pos) as [first|] eqn:E; [|by simplify_eq].
  pose proof (lookup_lt_Some _ _ _ E) as Hlt. pose proof (proj1 (Forall_lookup _ _) Hd _ _ E) as Hf.
  assert (∀ n, 0 ≤ from_le_bytes (take n (drop (S pos) data))) as Hle.
  { intros n. apply from_le_bytes_range. by apply Forall_take, Forall_drop. }
  repeat (case_match; simplify_eq); cbn in Hf |- *; (split; [lia|]); intros z [= <-]; auto;
    unfold is_byte in Hf; lia.
Qed.

Lemma read_auth_total data caps pos :
  bytes data → (pos ≤ length data)%nat →
  read_auth data caps pos ≠ Panic ∧
  ∀ auth pos', read_auth data caps pos = Ok (auth, pos') → (pos' ≤ length data)%nat.
Proof.
  intros Hd Hp. unfold read_auth. case_match.
  - destruct (read_lenenc_int data pos) as [[len|] pos1] eqn:E; cbn; [|by split].
    destruct (read_lenenc_bound _ _ _ _ Hd Hp E) as [Hp1 Hlen]. specialize (Hlen len eq_refl).
    destruct (Z.ltb_spec (Z.of_nat (length data - pos1)) len); [by split|].
    destruct (slice_total data pos1 (pos1 + Z.to_nat len)) as [raw ->]; [lia|].
    cbn. split; [done|]. intros auth pos' [= <- <-]. lia.
  - case_match.
    + destruct (data !! pos) as [len|] eqn:E; [|split; [done|]; by intros ? ? [= <- <-]].
      apply lookup_lt_Some in E.
      destruct (slice_total data (S pos) (Nat.min (S pos + Z.to_nat len) (length data))) as [raw ->]; [lia|].
      split; [done|]. intros auth pos' [= _ <-]. apply (Nat.le_min_r (S pos + Z.to_nat len)).
    + pose proof (scan_zero_bound (drop pos data)) as Hb. rewrite length_drop in Hb.
      destruct (slice_total data pos (pos + scan_zero (drop pos data))) as [raw ->]; [lia|].
      cbn. split; [done|]. intros auth pos' [= <- <-]. case_decide; lia.
Qed.

Lemma read_optional_total data present pos :
  (pos ≤ length data)%nat →
  ∃ s pos', read_optional data present pos = Ok (s, pos') ∧ (pos' ≤ length data)%nat.
Proof.
  intros Hp. unfold read_optional. case_match; [|eauto].
  destruct (read_null_terminated_total data pos Hp) as (s & pos' & -> & Hp'). cbn. eauto.
Qed.

(** No response of a client makes the server panic. *)
Lemma parse_client_handshake_total data : bytes data → parse_client_handshake data ≠ Panic.
Proof.
  intros Hd. unfold parse_client_handshake. case_decide; [done|].
  destruct (read_null_terminated_total data 32) as (user & p1 & -> & H1); [lia|]. cbn.
  destruct (read_auth_total data (from_le_bytes (take 4 data)) p1 Hd H1) as [Hn Hb].
  destruct (read_auth _ _ p1) as [[auth p2]| |] eqn:E; [|done..]. cbn. specialize (Hb _ _ eq_refl).
  destruct (read_optional_total data (has_flag (from_le_bytes (take 4 data)) CLIENT_CONNECT_WITH_DB) p2 Hb)
    as (db & p3 & -> & H3). cbn.
  destruct (read_optional_total data (has_flag (from_le_bytes (take 4 data)) CLIENT_PLUGIN_AUTH) p3 H3)
    as (plugin & p4 & -> & _). done.
Qed.

Lemma read_write_auth pre caps auth post :
  wf_auth caps auth →
  read_auth (pre ++ write_auth caps auth ++ post) caps (length pre)
    = Ok (auth, (length pre + length (write_auth caps auth))%nat).
Proof.
  unfold wf_auth, read_auth, write_auth. case_match; [|case_match]; intros Hw.
  - rewrite <-app_assoc, read_encode_lenenc by lia. cbn [ok_or mbind outcome_bind].
    destruct (Z.ltb_spec (Z.of_nat (length (pre ++ encode_lenenc_int (Z.of_nat (length auth)) ++ auth ++ post)
      - (length pre + length (encode_lenenc_int (Z.of_nat (length auth)))))) (Z.of_nat (length auth))) as [Hl|_].
    { rewrite !length_app in Hl. lia. }
    rewrite Nat2Z.id, app_assoc.
    rewrite (slice_mid (pre ++ encode_lenenc_int (Z.of_nat (length auth))) auth post)
      by (rewrite length_app; lia).
    cbn. rewrite length_app. do 2 f_equal. lia.
  - cbn [app]. rewrite lookup_mid, Nat2Z.id, cons_middle, app_assoc.
    rewrite Nat.min_l by (rewrite !length_app; cbn; lia).
    rewrite (slice_mid (pre ++ [Z.of_nat (length auth)]) auth post) by (rewrite length_app; cbn; lia).
    cbn. do 2 f_equal. lia.
  - rewrite <-app_assoc, drop_app_length. cbn [app]. rewrite scan_zero_app by done.
    rewrite (slice_mid pre auth) by done. cbn.
    rewrite decide_True by (rewrite !length_app; cbn; lia). rewrite length_app. cbn. do 2 f_equal. lia.
Qed.

Lemma read_write_optional pre present o post :
  wf_optional present o →
  read_optional (pre ++ write_optional present o ++ post) present (length pre)
    = Ok (o, (length pre + length (write_optional present o))%nat).
Proof.
  unfold wf_optional, read_optional, write_optional. intros Hw. destruct present.
  - rewrite bool_decide_eq_true_2 by (rewrite !length_app; unfold cstring; rewrite length_app; cbn; lia).
    cbn [andb]. rewrite read_cstring.
    + cbn. destruct o as [s|]; cbn [default]; [|done]. destruct Hw as (_ & Hne & _).
      rewrite bool_decide_eq_false_2 by done. done.
    + destruct o as [s|]; [apply Hw|]. split; [done|]. apply not_elem_of_nil.
  - destruct o as [s|]; [by destruct Hw|]. cbn. do 2 f_equal. lia.
Qed.

(** ** Rows *)

Lemma text_row_cells `{RustStd} values : build_text_row values = concat (text_cell <$> values).
Proof.
  unfold build_text_row. change (concat (text_cell <$> values)) with ([] ++ concat (text_cell <$> values)).
  generalize (@nil Z) as acc. induction values as [|v values IH]; intros acc; cbn; [by rewrite app_nil_r|].
  by rewrite IH, app_assoc.
Qed.

Lemma signed64_le z : in_i64 z = true → signed64 (from_le_bytes (i64_le z)) = z.
Proof.
  intros Hz%in_i64_spec. unfold i64_le, signed64. rewrite from_to_le_bytes.
  change (2 ^ (8 * Z.of_nat 8)) with (2 ^ 64). unfold i64_min, i64_max in Hz.
  destruct (Z.ltb_spec (z mod 2 ^ 64) (2 ^ 63)) as [Hlt|Hge].
  - destruct (decide (0 ≤ z)); [rewrite Z.mod_small; lia|].
    rewrite <-(Z_mod_plus_full z 1), Z.mod_small in Hlt; lia.
  - destruct (decide (0 ≤ z)) as [Hp|Hn]; [rewrite Z.mod_small in Hge; lia|].
    rewrite <-(Z_mod_plus_full z 1), Z.mod_small; lia.
Qed.

Lemma next_binary_cell dt v l :
  v ≠ VNull → cell_fits dt v → encodable v →
  next_cell (datatype_to_mysql dt) (binary_cell v ++ l) = Some (v, l).
Proof.
  intros Hn [->|<-] [Hv He]; [done|]. destruct v as [z|f|s|b|]; cbn [data_type datatype_to_mysql]; unfold next_cell;
    cbn -[next_bytes next_string app i64_le to_le_bytes].
  - rewrite next_bytes_app by done. cbn -[from_le_bytes i64_le]. by rewrite signed64_le.
  - rewrite next_bytes_app by done. cbn -[from_le_bytes to_le_bytes].
    rewrite (from_to_le_bytes_id 8) by exact Hv. by destruct f.
  - rewrite next_string_encode by done. done.
  - rewrite (next_bytes_app [if b then 1 else 0]) by done. by destruct b.
  - done.
Qed.

(** The bitmap after marking column [i] as NULL. *)
Definition set_null (bm : list Z) (i : nat) : list Z :=
  alter (λ b, Z.lor b (Z.shiftl 1 (Z.of_nat ((i + 2) mod 8)))) ((i + 2) / 8)%nat bm.

Lemma null_bit_set bm i j :
  ((i + 2) / 8 < length bm)%nat → null_bit (set_null bm i) j = null_bit bm j || bool_decide (i = j).
Proof.
  intros Hi. unfold null_bit, set_null. destruct (lookup_lt_is_Some_2 bm ((i + 2) / 8) Hi) as [b Hb].
  destruct (decide ((i + 2) / 8 = (j + 2) / 8)%nat) as [Heq|Hne].
  - rewrite <-Heq, list_lookup_alter_eq, Hb. cbn [fmap option_fmap option_map from_option id].
    rewrite Z.lor_spec, Z.shiftl_spec by lia. f_equal.
    destruct (decide (i = j)) as [->|Hij].
    + rewrite bool_decide_eq_true_2 by done. by rewrite Z.sub_diag.
    + rewrite bool_decide_eq_false_2 by done.
      assert ((i + 2) mod 8 ≠ (j + 2) mod 8)%nat as Hm.
      { pose proof (Nat.div_mod_eq (i + 2) 8). pose proof (Nat.div_mod_eq (j + 2) 8). lia. }
      destruct (Z.of_nat ((j + 2) mod 8) - Z.of_nat ((i + 2) mod 8)) eqn:Hd; [lia| |done].
      by rewrite Z.bits_above_log2 by (cbn; lia).
  - rewrite list_lookup_alter_ne by done.
    rewrite (bool_decide_eq_false_2 (i = j)) by congruence. by rewrite orb_false_r.
Qed.

Lemma set_null_insert bm i b :
  bm !! ((i + 2) / 8)%nat = Some b →
  <[((i + 2) / 8)%nat := Z.lor b (Z.shiftl 1 (Z.of_nat ((i + 2) mod 8)))]> bm = set_null bm i.
Proof.
  intros Hb. rewrite list_insert_alter. apply list_eq. intros j. unfold set_null.
  destruct (decide (j = (i + 2) / 8)%nat) as [->|Hne].
  - by rewrite !list_lookup_alter_eq, Hb.
  - by rewrite !list_lookup_alter_ne.
Qed.

Lemma set_null_length bm i : length (set_null bm i) = length bm.
Proof. apply length_alter. Qed.

Lemma binary_step_spec bm cells i v :
  ((i + 2) / 8 < length bm)%nat →
  binary_step (0 :: bm ++ cells) (i, v)
    = Ok (0 :: (if is_null v then set_null bm i else bm) ++ cells ++ binary_cell v).
Proof.
  intros Hi. unfold binary_step. destruct (is_null v) eqn:En.
  - destruct v; try done. cbn [binary_cell]. rewrite app_nil_r.
    destruct (lookup_lt_is_Some_2 bm ((i + 2) / 8) Hi) as [b Hb].
    unfold vec_index. change ((0 :: bm ++ cells) !! (1 + (i + 2) / 8)%nat) with ((bm ++ cells) !! ((i + 2) / 8)%nat).
    rewrite lookup_app_l, Hb by done. cbn [mbind outcome_bind]. unfold vec_set.
    rewrite decide_True by (cbn [length]; rewrite length_app; lia).
    change (<[(1 + (i + 2) / 8)%nat := ?x]> (0 :: bm ++ cells)) with (0 :: <[((i + 2) / 8)%nat := x]> (bm ++ cells)).
    rewrite insert_app_l by done. do 3 f_equal. by apply set_null_insert.
  - by rewrite <-app_comm_cons, <-app_assoc.
Qed.

Lemma binary_fold l : ∀ i bm cells,
  (i + length l + 2 ≤ 8 * length bm)%nat →
  ∃ bm', length bm' = length bm ∧
    foldM binary_step (0 :: bm ++ cells) (zip (seq i (length l)) l)
      = Ok (0 :: bm' ++ cells ++ concat (binary_cell <$> l)) ∧
    ∀ j, null_bit bm' j = null_bit bm j ||
      bool_decide (i ≤ j)%nat && match l !! (j - i)%nat with Some v => is_null v | None => false end.
Proof.
  induction l as [|v l IH]; intros i bm cells Hlen.
  { exists bm. split; [done|]. cbn. rewrite app_nil_r. split; [done|].
    intros j. by rewrite andb_false_r, orb_false_r. }
  cbn [length] in Hlen. cbn [length seq zip_with fmap list_fmap concat].
  assert ((i + 2) / 8 < length bm)%nat as Hi by (apply Nat.Div0.div_lt_upper_bound; lia).
  rewrite foldM_cons, binary_step_spec by done. cbn [mbind outcome_bind].
  destruct (IH (S i) (if is_null v then set_null bm i else bm) (cells ++ binary_cell v))
    as (bm' & Hl & Hf & Hb).
  { destruct (is_null v); rewrite ?set_null_length; lia. }
  exists bm'. split; [|split].
  - rewrite Hl. by destruct (is_null v); rewrite ?set_null_length.
  - rewrite Hf. by rewrite <-app_assoc.
  - intros j. rewrite Hb.
    assert (null_bit (if is_null v then set_null bm i else bm) j
      = null_bit bm j || bool_decide (i = j) && is_null v) as ->.
    { destruct (is_null v); [rewrite null_bit_set by done; by rewrite andb_true_r|].
      by rewrite andb_false_r, orb_false_r. }
    rewrite <-orb_assoc. f_equal. destruct (decide (i = j)) as [->|Hne].
    + rewrite bool_decide_eq_true_2, (bool_decide_eq_false_2 (S j ≤ j)%nat), bool_decide_eq_true_2, Nat.sub_diag by lia.
      cbn. by rewrite orb_false_r.
    + rewrite (bool_decide_eq_false_2 (i = j)) by done. cbn [andb orb].
      destruct (decide (i ≤ j)%nat).
      * rewrite !bool_decide_eq_true_2 by lia. by replace (j - i)%nat with (S (j - S i)) by lia.
      * by rewrite !bool_decide_eq_false_2 by lia.
Qed.

Lemma binary_row_shape values :
  ∃ bm, length bm = ((length values + 9) / 8)%nat ∧
    build_binary_row values = Ok (0 :: bm ++ concat (binary_cell <$> values)) ∧
    ∀ i v, values !! i = Some v → null_bit bm i = is_null v.
Proof.
  set (n := ((length values + 9) / 8)%nat).
  destruct (binary_fold values 0 (replicate n 0) []) as (bm & Hl & Hf & Hb).
  { rewrite length_replicate. pose proof (Nat.div_mod_eq (length values + 9) 8).
    pose proof (Nat.mod_upper_bound (length values + 9) 8 ltac:(lia)). fold n in H. lia. }
  exists bm. rewrite Hl, length_replicate. split; [done|]. unfold build_binary_row. fold n.
  rewrite app_nil_r in Hf. rewrite Hf. split; [done|].
  intros i v Hv. rewrite Hb, Nat.sub_0_r, Hv, bool_decide_eq_true_2 by lia.
  unfold null_bit at 1. cbn [andb].
  destruct (decide ((i + 2) / 8 < n)%nat) as [Hlt|Hge].
  - rewrite lookup_replicate_2 by done. cbn [from_option id]. by rewrite Z.bits_0.
  - rewrite lookup_ge_None_2 by (rewrite length_replicate; lia). cbn [from_option id]. by rewrite Z.bits_0.
Qed.

Lemma read_cells_row types values : ∀ i bm,
  Forall2 cell_fits types values → Forall encodable values →
  (∀ j v, values !! j = Some v → null_bit bm (i + j) = is_null v) →
  read_cells (datatype_to_mysql <$> types) i bm (concat (binary_cell <$> values)) = Some values.
Proof.
  intros i bm Hf. revert i. induction Hf as [|dt v types values Hv _ IH]; intros i He Hb; [done|].
  apply Forall_cons in He as [Hev He]. rewrite !fmap_cons. cbn [concat read_cells].
  pose proof (Hb 0%nat v eq_refl) as H0. rewrite Nat.add_0_r in H0. rewrite H0.
  assert (read_cells (datatype_to_mysql <$> types) (S i) bm (concat (binary_cell <$> values)) = Some values) as Hrest.
  { apply IH; [done|]. intros j w Hw. rewrite <-(Hb (S j) w Hw). f_equal. lia. }
  destruct (decide (v = VNull)) as [->|Hn].
  - cbn [is_null binary_cell app]. by rewrite Hrest.
  - rewrite (next_binary_cell dt v) by done.
    destruct v; try done; cbn [is_null mbind option_bind]; by rewrite Hrest.
Qed.

Lemma read_text_cells `{RustStd} values :
  Forall (λ v, ∀ s, text_value v = Some s → Z.of_nat (String.length s) < 2 ^ 64) values →
  read_text_row (length values) (concat (text_cell <$> values)) = Some (text_value <$> values).
Proof.
  induction 1 as [|v values Hv _ IH]; [done|]. rewrite !fmap_cons. cbn [length concat read_text_row].
  assert (∀ s, text_value v = Some s → text_cell v = encode_lenenc_str s) as Hs.
  { intros s. destruct v; cbn; by intros [= <-]. }
  destruct (text_value v) as [s|] eqn:E.
  - rewrite (Hs s eq_refl). rewrite decide_False.
    2: { unfold encode_lenenc_str. rewrite <-app_assoc. apply encode_lenenc_head. lia. }
    rewrite next_string_encode by by apply Hv. cbn [mbind option_bind]. by rewrite IH.
  - destruct v; try done. cbn [text_cell app head tail]. rewrite decide_True by done. by rewrite IH.
Qed.

(** ** Properties *)

(** C29. The server reads what a client writes: from a HandshakeResponse41 with
    any capabilities, it recovers the user, the authentication response in each
    of its three encodings, the database and the plugin. *)
Theorem handshake_roundtrip h max_packet charset :
  wf_handshake h → parse_client_handshake (write_handshake h max_packet charset) = Ok h.
Proof.
  intros [Hc Hu Ha Hd Hp]. unfold parse_client_handshake, write_handshake.
  set (caps := to_le_bytes 4 (capabilities h)). set (user := cstring (username h)).
  set (auth := write_auth _ _). set (db := write_optional _ (database h)).
  set (plugin := write_optional _ (auth_plugin h)).
  set (pre := caps ++ to_le_bytes 4 max_packet ++ [charset] ++ replicate 23 0).
  assert (caps ++ to_le_bytes 4 max_packet ++ [charset] ++ replicate 23 0 ++ user ++ auth ++ db ++ plugin
    = pre ++ user ++ auth ++ db ++ plugin) as ->.
  { unfold pre. by rewrite <-!app_assoc. }
  assert (length pre = 32%nat) as Hpre by done.
  rewrite decide_False by (rewrite length_app; lia).
  assert (from_le_bytes (take 4 (pre ++ user ++ auth ++ db ++ plugin)) = capabilities h) as Hcaps.
  { unfold pre. rewrite <-!app_assoc, take_app_exact by done. by apply (from_to_le_bytes_id 4). }
  rewrite Hcaps. cbv zeta. rewrite <-Hpre.
  pose proof (read_cstring pre (username h) (auth ++ db ++ plugin) Hu) as Huser. fold user in Huser.
  rewrite Huser. cbn [mbind outcome_bind].
  pose proof (read_write_auth (pre ++ user) (capabilities h) (auth_response h) (db ++ plugin) Ha) as Hauth.
  pose proof (read_write_optional (pre ++ user ++ auth) _ _ plugin Hd) as Hdb.
  pose proof (read_write_optional (pre ++ user ++ auth ++ db) _ _ [] Hp) as Hplugin.
  fold auth in Hauth. fold db in Hdb. fold plugin in Hplugin.
  rewrite app_nil_r in Hplugin.
  repeat rewrite <-app_assoc in Hauth. repeat rewrite length_app in Hauth.
  repeat rewrite <-app_assoc in Hdb. repeat rewrite length_app in Hdb.
  repeat rewrite <-app_assoc in Hplugin. repeat rewrite length_app in Hplugin.
  rewrite Hauth. cbn [mbind outcome_bind]. rewrite <-!Nat.add_assoc. rewrite Hdb. cbn [mbind outcome_bind].
  rewrite <-!Nat.add_assoc. rewrite Hplugin. cbn [mbind outcome_bind]. by destruct h.
Qed.

(** A client reads back the rows the server writes: in a binary row every
    value, NULL included, when each has the type announced for its column, and
    in a text row every value as its text. *)
Theorem result_rows_roundtrip `{RustStd} types values :
  Forall2 cell_fits types values → Forall encodable values →
  Forall (λ v, ∀ s, text_value v = Some s → Z.of_nat (String.length s) < 2 ^ 64) values →
  (∃ data, build_binary_row values = Ok data ∧
     read_binary_row (datatype_to_mysql <$> types) data = Some values) ∧
  read_text_row (length values) (build_text_row values) = Some (text_value <$> values).
Proof.
  intros Hf He Ht. split; [|by rewrite text_row_cells, read_text_cells].
  destruct (binary_row_shape values) as (bm & Hl & Hrow & Hb). eexists. split; [exact Hrow|].
  cbn [read_binary_row]. rewrite length_fmap, (Forall2_length _ _ _ Hf), <-Hl.
  rewrite take_app_length, drop_app_length. by apply read_cells_row.
Qed.

(** The password check accepts the response of mysql_native_password and, for
    an empty password, the empty one; nothing else. *)
Theorem password_check_exact `{Sha1} password scramble auth :
  verify_mysql_native_password password scramble auth = true ↔
  (password = EmptyString ∧ auth = []) ∨ auth = client_response password scramble.
Proof.
  unfold verify_mysql_native_password. cbv zeta. fold (client_response password scramble).
  assert (length (client_response password scramble) = 20%nat) as Hlen.
  { unfold client_response. rewrite length_zip_with, !sha1_length. done. }
  destruct (bool_decide (password = EmptyString) && bool_decide (auth = [])) eqn:E.
  - apply andb_true_iff in E as [->%bool_decide_eq_true ->%bool_decide_eq_true]. split; [by left|done].
  - assert (¬ (password = EmptyString ∧ auth = [])) as Hn.
    { intros [-> ->]. by rewrite !bool_decide_eq_true_2 in E. }
    destruct (decide (length auth = 20)%nat) as [Hd|Hd].
    + rewrite bool_decide_eq_true. naive_solver.
    + split; [done|]. intros [?| ->]; [done|]. by rewrite Hlen in Hd.
Qed.

(** The challenge has twenty bytes and no zero among them, as the protocol
    requires of a null-terminated field. *)
Theorem scramble_has_no_zero `{Sha1} conn_id nanos pid :
  length (generate_scramble conn_id nanos pid) = 20%nat ∧
  0 ∉ generate_scramble conn_id nanos pid ∧ bytes (generate_scramble conn_id nanos pid).
Proof.
  unfold generate_scramble. rewrite length_fmap, sha1_length. split_and!; [done| |].
  - intros (b & Hb & _)%list_elem_of_fmap. by destruct (Z.eqb_spec b 0).
  - apply Forall_fmap. eapply Forall_impl; [apply sha1_bytes|]. intros b Hb. cbn.
    by destruct (b =? 0).
Qed.

(** ** Witnesses *)

Section protocol_examples.
#[local] Existing Instance concrete_std.

Definition root_login : ClientHandshake :=
  {| capabilities := Z.lor CLIENT_SECURE_CONNECTION (Z.lor CLIENT_CONNECT_WITH_DB CLIENT_PLUGIN_AUTH);
     username := "root"; auth_response := [7; 0; 9]; database := Some "shop"; auth_plugin := None |}.

Lemma handshake_roundtrip_witness :
  parse_client_handshake (write_handshake root_login 65535 45) = Ok root_login.
Proof.
  apply (handshake_roundtrip root_login 65535 45). split.
  - vm_compute. by split.
  - split; [vm_compute; reflexivity|].
    apply (bool_decide_eq_true_1 (0 ∉ string_bytes "root")). vm_compute. reflexivity.
  - vm_compute. lia.
  - split_and!; [vm_compute; reflexivity|done|].
    split; [vm_compute; reflexivity|].
    apply (bool_decide_eq_true_1 (0 ∉ string_bytes "shop")). vm_compute. reflexivity.
  - exact I.
Defined.

Definition order_row : list Value := [VInteger (-3); VNull; VText "pear"; VBoolean true; VFloat f64_one].
Definition order_types : list DataType := [TInteger; TText; TText; TBoolean; TFloat].

Lemma result_rows_roundtrip_witness :
  read_binary_row (datatype_to_mysql <$> order_types)
    (match build_binary_row order_row with Ok l => l | _ => [] end) = Some order_row.
Proof.
  destruct (result_rows_roundtrip order_types order_row) as [(data & Hd & Hr) _].
  - repeat (constructor; [(by right) || (by left)|]). constructor.
  - repeat (apply Forall_cons; split; [split; [vm_compute; try done; by split|by vm_compute]|]).
    apply Forall_nil_2.
  - repeat (constructor; [intros s [= <-]; vm_compute; reflexivity|]). constructor.
  - rewrite Hd. exact Hr.
Defined.
End protocol_examples.
