(* ===== verification/Wire.v ===== *)
(** * Wire.v: the MySQL server (src/wire/mod.rs)

    Packets on a byte stream, the queries answered without the engine, the
    encoding of results, the decoding of statement parameters, and a
    connection: handshake, then one command after the other on the session the
    connection owns. *)

From Stdlib Require Import Ascii Floats.SpecFloat.
From S2P Require Import Prelude Machine Float64 Like Types Concrete Keys Table Eval Queries.
From S2P Require Import Statement Planner Validate Ddl Execute Params Str Log Parser Wal Database.
From S2P Require Import SqlAst Metadata Protocol.

#[local] Open Scope Z_scope.

(** ** Packets *)

(** [read_packet]: [None] when the stream ends before the packet does. *)
Definition read_packet (stream : list Z) : option (Z * list Z * list Z) :=
  match stream with
  | h0 :: h1 :: h2 :: seq_id :: rest =>
      let payload_len := Z.lor (Z.lor h0 (Z.shiftl h1 8)) (Z.shiftl h2 16) in
      '(payload, rest) ← next_bytes payload_len rest;
      Some (seq_id, payload, rest)
  | _ => None
  end.

Definition write_packet (seq_id : Z) (payload : list Z) : list Z :=
  let len := Z.of_nat (length payload) in
  [Z.land len 0xFF; Z.land (Z.shiftr len 8) 0xFF; Z.land (Z.shiftr len 16) 0xFF; seq_id] ++ payload.

(** [write_packets]: what is written and the next sequence number. *)
Fixpoint write_packets (start_seq : Z) (payloads : list (list Z)) : list Z * Z :=
  match payloads with
  | [] => ([], start_seq)
  | payload :: payloads =>
      let '(out, next) := write_packets ((start_seq + 1) mod 256) payloads in
      (write_packet start_seq payload ++ out, next)
  end.

(** ** Queries answered without the engine *)

Section system_queries.
Context `{RustStd} `{UnicodeTables}.

Definition contains_str (pattern s : string) : bool := bool_decide (find_str pattern s ≠ None).

(** [&s[start..end]]. *)
Definition slice_str (s : string) (start stop : nat) : outcome string :=
  if is_char_boundary s start && is_char_boundary s stop && bool_decide (start ≤ stop)%nat
  then Ok (String.substring start (stop - start) s) else Panic.

Definition known_vars : list (string * string) :=
  [("@@version_comment", "RustyDB SQL Engine"); ("@@version", SERVER_VERSION);
   ("@@max_allowed_packet", "67108864"); ("@@character_set_client", "utf8mb4");
   ("@@character_set_connection", "utf8mb4"); ("@@character_set_results", "utf8mb4");
   ("@@character_set_server", "utf8mb4"); ("@@character_set_database", "utf8mb4");
   ("@@collation_connection", "utf8mb4_general_ci"); ("@@collation_server", "utf8mb4_general_ci");
   ("@@collation_database", "utf8mb4_general_ci"); ("@@interactive_timeout", "28800");
   ("@@wait_timeout", "28800"); ("@@net_write_timeout", "60"); ("@@sql_mode", "TRADITIONAL");
   ("@@time_zone", "SYSTEM"); ("@@system_time_zone", "UTC"); ("@@autocommit", "1");
   ("@@tx_isolation", "REPEATABLE-READ"); ("@@transaction_isolation", "REPEATABLE-READ");
   ("@@lower_case_table_names", "1"); ("@@license", "Apache-2.0"); ("@@session.autocommit", "1");
   ("@@session.transaction_read_only", "0"); ("@@session.auto_increment_increment", "1");
   ("@@session.transaction_isolation", "REPEATABLE-READ");
   ("@@session.tx_isolation", "REPEATABLE-READ"); ("@@session.sql_mode", "TRADITIONAL");
   ("@@global.max_allowed_packet", "67108864"); ("@@global.net_buffer_length", "16384")].

Definition known_var (name : string) : string :=
  default EmptyString
    (snd <$> find_first (λ kv, bool_decide (lowercase_chars kv.1 = lowercase_chars name)) known_vars).

Definition is_name_char (ch : string) : bool :=
  is_alphanumeric ch || char_is "_" ch || char_is "." ch.

(** The end of the name that starts at position [i]. *)
Fixpoint name_end (cs : list string) (i : nat) : nat :=
  match cs with
  | ch :: cs => if is_name_char ch then name_end cs (S i) else i
  | [] => i
  end.

(** The scan for "@@" counts characters and slices [query] at those positions
    as if they were bytes. *)
Fixpoint sysvar_loop (fuel : nat) (query : string) (cs : list string) (i : nat)
    (found : list (string * string)) : outcome (list (string * string)) :=
  match fuel with
  | O => Ok found
  | S fuel =>
      if decide (i < length cs - 1)%nat then
        if char_is "@" (nth i cs EmptyString) && char_is "@" (nth (S i) cs EmptyString) then
          let stop := name_end (drop (i + 2) cs) (i + 2) in
          var_name ← slice_str query i stop;
          sysvar_loop fuel query cs stop (found ++ [(var_name, known_var var_name)])
        else sysvar_loop fuel query cs (S i) found
      else Ok found
  end.

Definition one_row (columns : list string) (row : Row) : ExecutionResult :=
  RSelect {| rs_columns := columns; rs_rows := [row] |}.

Definition handle_sysvar_query (query : string) : outcome ExecutionResult :=
  found ← sysvar_loop (length (chars query)) query (chars query) 0 [];
  Ok (match found with
      | [] => one_row ["@@unknown"] [VText EmptyString]
      | _ => one_row found.*1 (VText <$> found.*2)
      end).

Definition try_handle_system_query (query : string) : outcome (option ExecutionResult) :=
  let trimmed := normalize query in
  let upper := to_uppercase trimmed in
  let select := starts_with_str "SELECT" upper in
  set ← (if starts_with_str "SET " upper then
           rest ← slice_from trimmed 4;
           Ok (negb (starts_with_str "@" (trim_start_matches is_whitespace rest)))
         else Ok false);
  if set : bool then Ok (Some (RRowsAffected 0))
  else if starts_with_str "USE " upper then Ok (Some (RRowsAffected 0))
  else if starts_with_str "KILL" upper then Ok (Some (RRowsAffected 0))
  else if select && contains_str "@@" upper then r ← handle_sysvar_query trimmed; Ok (Some r)
  else if select && contains_str "DATABASE()" upper then
    Ok (Some (one_row ["DATABASE()"] [VText "rustydb"]))
  else if select && (contains_str "USER()" upper || contains_str "CURRENT_USER" upper) then
    Ok (Some (one_row ["USER()"] [VText "rustydb_user@localhost"]))
  else if bool_decide (upper = "SELECT 1") then Ok (Some (one_row ["1"] [VInteger 1]))
  else if starts_with_str "SHOW WARNINGS" upper then
    Ok (Some (RSelect {| rs_columns := ["Level"; "Code"; "Message"]; rs_rows := [] |}))
  else if bool_decide (upper = "SHOW DATABASES") then
    Ok (Some (one_row ["Database"] [VText "rustydb"]))
  else if starts_with_str "SHOW " upper && negb (starts_with_str "SHOW TABLES" upper)
       && negb (starts_with_str "SHOW CREATE" upper) then
    Ok (Some (RSelect {| rs_columns := ["Variable_name"; "Value"]; rs_rows := [] |}))
  else Ok None.
End system_queries.

(** ** Results *)

Section results.
Context `{RustStd}.

(** The type of a text column is that of its value in the first row. *)
Definition text_column_def (rs : ResultSet) (table_name col_name : string) : list Z :=
  let '(col_type, col_flags) :=
    match rs_rows rs with
    | first :: _ =>
        let col_idx := default 0%nat (position (λ c, bool_decide (c = col_name)) (rs_columns rs)) in
        match first !! col_idx with
        | Some v => (datatype_to_mysql (data_type v), column_flags (data_type v) true false)
        | None => (MYSQL_TYPE_VAR_STRING, 0)
        end
    | [] => (MYSQL_TYPE_VAR_STRING, 0)
    end in
  build_column_def col_name table_name col_type col_flags.

Definition encode_result_set (rs : ResultSet) (table_name : string) (status : Z) : list (list Z) :=
  [build_column_count (Z.of_nat (length (rs_columns rs)))]
  ++ (text_column_def rs table_name <$> rs_columns rs)
  ++ [build_eof_packet_with_status status]
  ++ (build_text_row <$> rs_rows rs)
  ++ [build_eof_packet_with_status status].

Definition describe_row (col : ColumnDef) : Row :=
  [VText (col_name col); VText (data_type_display (col_type col));
   VText (if col_nullable col then "YES" else "NO");
   VText (if col_primary_key col then "PRI" else ""); VText "NULL"; VText ""].
Definition index_rows (index : IndexDef) : list Row :=
  (λ column, [VText (index_name index); VText column;
              VInteger (if index_unique index then 0 else 1)]) <$> index_columns index.

Definition encode_result (result : ExecutionResult) (status : Z) : list (list Z) :=
  match result with
  | RSelect rs => encode_result_set rs "" status
  | RRowsAffected n => [build_ok_packet_with_status (Z.of_nat n) 0 status]
  | RTableCreated _ | RTableDropped _ | RIndexCreated _ | RIndexDropped _
  | RTransactionStarted | RTransactionCommitted | RTransactionRolledBack =>
      [build_ok_packet_with_status 0 0 status]
  | RTables tables =>
      encode_result_set {| rs_columns := ["Tables_in_rustydb"];
                           rs_rows := (λ t, [VText t]) <$> tables |} "" status
  | RTableDescription table_name columns =>
      encode_result_set {| rs_columns := ["Field"; "Type"; "Null"; "Key"; "Default"; "Extra"];
                           rs_rows := describe_row <$> columns |} table_name status
  | RIndexes indexes =>
      encode_result_set {| rs_columns := ["Key_name"; "Column_name"; "Non_unique"];
                           rs_rows := concat (index_rows <$> indexes) |} "" status
  | RExplain lines =>
      encode_result_set {| rs_columns := ["plan"]; rs_rows := (λ l, [VText l]) <$> lines |} "" status
  | RError msg => [build_err_packet 1064 "42000" msg]
  end.

Definition announced_type (metadata : list (string * DataType)) (index : nat) : DataType :=
  match metadata !! index with Some (_, d) => d | None => TText end.

Definition typed_column_def (name : string) (d : DataType) : list Z :=
  build_column_def name "" (datatype_to_mysql d) (column_flags d true false).

Definition encode_prepared_result (result : ExecutionResult) (metadata : list (string * DataType))
    (status : Z) : outcome (list (list Z)) :=
  match result with
  | RSelect rs =>
      rows ← mapM build_binary_row (rs_rows rs);
      Ok ([build_column_count (Z.of_nat (length (rs_columns rs)))]
          ++ imap (λ index column, typed_column_def column (announced_type metadata index))
               (rs_columns rs)
          ++ [build_eof_packet_with_status status] ++ rows ++ [build_eof_packet_with_status status])
  | _ => Ok (encode_result result status)
  end.
End results.

(** ** Statement parameters *)

Record WirePreparedStatement := {
  prepared : PreparedStatement;
  parameter_types : list Z;
  long_data : gmap nat (list Z);
}.

Definition with_types (s : WirePreparedStatement) (types : list Z) : WirePreparedStatement :=
  {| prepared := prepared s; parameter_types := types; long_data := long_data s |}.
Definition with_long_data (s : WirePreparedStatement) (m : gmap nat (list Z)) :
    WirePreparedStatement :=
  {| prepared := prepared s; parameter_types := parameter_types s; long_data := m |}.

(** [f32::from_bits(b) as f64]: exact, and a NaN becomes quiet. *)
Definition f64_of_f32_bits (b : Z) : f64 :=
  let s := Z.testbit b 31 in
  let e := (b / 2 ^ 23) mod 2 ^ 8 in
  let f := b mod 2 ^ 23 in
  if e =? 255 then
    if f =? 0 then encode (S754_infinity s)
    else F64 (sign_weight s + 2047 * 2 ^ 52 + Z.lor (f * 2 ^ 29) (2 ^ 51))
  else
    let m := if e =? 0 then f else f + 2 ^ 23 in
    let e := if e =? 0 then -149 else e - 150 in
    encode (match m with
            | Z.pos p => binary_normalize 53 1024 (if s then Z.neg p else Z.pos p) e s
            | _ => S754_zero s
            end).

(** [raw as iN]: two's complement on [n] bytes. *)
Definition signed (n : nat) (z : Z) : Z :=
  if z <? 2 ^ (8 * Z.of_nat n - 1) then z else z - 2 ^ (8 * Z.of_nat n).

(** [take]: a slice at the position, which moves behind it. *)
Definition take_bytes (data : list Z) (pos : nat) (length_ : Z) : outcome (list Z * nat) :=
  if Z.of_nat (length data - pos) <? length_ then Err "Truncated prepared parameter"
  else
    let stop := (pos + Z.to_nat length_)%nat in
    raw ← slice data pos stop; Ok (raw, stop).

(** An integer of [n] bytes. *)
Definition take_int (data : list Z) (pos : nat) (n : nat) (unsigned : bool) : outcome (Value * nat) :=
  '(raw, pos) ← take_bytes data pos (Z.of_nat n);
  let raw := from_le_bytes raw in
  Ok (VInteger (if unsigned then raw else signed n raw), pos).

Definition hex_upper (z : Z) : string :=
  let digit z := String (Ascii.ascii_of_N (Z.to_N (if z <? 10 then 48 + z else 55 + z))) EmptyString in
  digit (z / 16) +:+ digit (z mod 16).

Definition decode_value (data : list Z) (parameter_type : Z) (pos : nat) : outcome (Value * nat) :=
  let type_code := parameter_type mod 256 in
  let unsigned := negb (Z.land parameter_type 0x8000 =? 0) in
  if type_code =? MYSQL_TYPE_NULL then Ok (VNull, pos)
  else if type_code =? MYSQL_TYPE_TINY then take_int data pos 1 unsigned
  else if type_code =? MYSQL_TYPE_SHORT then take_int data pos 2 unsigned
  else if type_code =? MYSQL_TYPE_LONG then take_int data pos 4 unsigned
  else if type_code =? MYSQL_TYPE_LONGLONG then
    '(raw, pos) ← take_bytes data pos 8;
    let raw := from_le_bytes raw in
    if unsigned && (i64_max <? raw) then Err "Unsigned integer exceeds RustyDB INTEGER range"
    else Ok (VInteger (signed 8 raw), pos)
  else if type_code =? MYSQL_TYPE_FLOAT then
    '(raw, pos) ← take_bytes data pos 4; Ok (VFloat (f64_of_f32_bits (from_le_bytes raw)), pos)
  else if type_code =? MYSQL_TYPE_DOUBLE then
    '(raw, pos) ← take_bytes data pos 8; Ok (VFloat (F64 (from_le_bytes raw)), pos)
  else if bool_decide (type_code ∈ [MYSQL_TYPE_VAR_STRING; 0x0F; 0xFC; 0xFE]) then
    let '(length_, pos) := read_lenenc_int data pos in
    length_ ← ok_or length_ "Invalid string parameter length";
    '(raw, pos) ← take_bytes data pos length_;
    s ← ok_or (from_utf8 raw) "String parameter is not valid UTF-8";
    Ok (VText s, pos)
  else Err ("Unsupported prepared parameter type 0x" +:+ hex_upper type_code).

Definition is_null_parameter (null_bitmap : list Z) (index : nat) : bool :=
  is_some_and (λ byte, negb (Z.land byte (Z.shiftl 1 (Z.of_nat (index mod 8))) =? 0))
    (null_bitmap !! (index / 8)%nat).

(** The parameters one by one: NULL by the bitmap, then data sent ahead, then
    the packet.  The data sent ahead is consumed even when decoding fails
    later. *)
Fixpoint decode_values (data null_bitmap : list Z) (types : list Z) (index : nat) (pos : nat)
    (long : gmap nat (list Z)) : gmap nat (list Z) * outcome (list Value) :=
  match types with
  | [] => (long, Ok [])
  | t :: types =>
      if is_null_parameter null_bitmap index then
        let '(long, vs) := decode_values data null_bitmap types (S index) pos long in
        (long, vs ← vs; Ok (VNull :: vs))
      else
        match long !! index with
        | Some raw =>
            let long := delete index long in
            match from_utf8 raw with
            | None => (long, Err "Long parameter data is not valid UTF-8")
            | Some s =>
                let '(long, vs) := decode_values data null_bitmap types (S index) pos long in
                (long, vs ← vs; Ok (VText s :: vs))
            end
        | None =>
            match decode_value data t pos with
            | Ok (v, pos) =>
                let '(long, vs) := decode_values data null_bitmap types (S index) pos long in
                (long, vs ← vs; Ok (v :: vs))
            | Err e => (long, Err e)
            | Panic => (long, Panic)
            end
        end
  end.

(** The types of a packet: two bytes each. *)
Fixpoint read_types (count : nat) (data : list Z) (pos : nat) : outcome (list Z * nat) :=
  match count with
  | O => Ok ([], pos)
  | S count =>
      a ← vec_index data pos; b ← vec_index data (S pos);
      '(types, pos) ← read_types count data (pos + 2)%nat;
      Ok (from_le_bytes [a; b] :: types, pos)
  end.

Definition decode_stmt_parameters (data : list Z) (statement : WirePreparedStatement) :
    WirePreparedStatement * outcome (list Value) :=
  let count := N.to_nat (ps_parameter_count (prepared statement)) in
  if decide (length data < 10)%nat then (statement, Err "COM_STMT_EXECUTE packet is too short")
  else
    let position := 10%nat in
    let bitmap_len := ((count + 7) / 8)%nat in
    if decide (length data - position < bitmap_len + 1)%nat then
      (statement, Err "Invalid parameter null bitmap")
    else
      let header : outcome (list Z * bool) :=
        null_bitmap ← slice data position (position + bitmap_len)%nat;
        flag ← vec_index data (position + bitmap_len)%nat;
        Ok (null_bitmap, negb (flag =? 0)) in
      match header with
      | Ok (null_bitmap, new_types) =>
          let position := (position + bitmap_len + 1)%nat in
          if new_types && bool_decide (length data - position < count * 2)%nat then
            (statement, Err "Missing prepared parameter types")
          else
            match (if new_types then read_types count data position
                   else Ok (parameter_types statement, position)) with
            | Ok (types, position) =>
                let statement := with_types statement types in
                if decide (length types = count) then
                  let '(long, values) :=
                    decode_values data null_bitmap types 0 position (long_data statement) in
                  (with_long_data statement long, values)
                else (statement, Err "Parameter types were not supplied")
            | Err e => (statement, Err e)
            | Panic => (statement, Panic)
            end
      | Err e => (statement, Err e)
      | Panic => (statement, Panic)
      end.

(** ** A connection *)

Definition COM_QUIT : Z := 0x01.
Definition COM_INIT_DB : Z := 0x02.
Definition COM_QUERY : Z := 0x03.
Definition COM_FIELD_LIST : Z := 0x04.
Definition COM_PING : Z := 0x0E.
Definition COM_STMT_PREPARE : Z := 0x16.
Definition COM_STMT_EXECUTE : Z := 0x17.
Definition COM_STMT_SEND_LONG_DATA : Z := 0x18.
Definition COM_STMT_CLOSE : Z := 0x19.
Definition COM_STMT_RESET : Z := 0x1A.

(** What a connection owns after the handshake. *)
Record Connection := {
  cn_session : SQLSession;
  cn_statements : gmap N WirePreparedStatement;
  cn_next_statement_id : N;
}.

Definition connection_new : Connection :=
  {| cn_session := session_new; cn_statements := ∅; cn_next_statement_id := 1 |}.
Definition with_session (c : Connection) (s : SQLSession) : Connection :=
  {| cn_session := s; cn_statements := cn_statements c;
     cn_next_statement_id := cn_next_statement_id c |}.
Definition with_statements (c : Connection) (m : gmap N WirePreparedStatement) : Connection :=
  {| cn_session := cn_session c; cn_statements := m;
     cn_next_statement_id := cn_next_statement_id c |}.

(** What a command leads to: the packets of its response (none for the
    commands without one) or the end of the connection. *)
Inductive Reply := Respond (packets : list (list Z)) | Close.

Section connection.
Context `{RustStd} `{UnicodeTables} `{SqlGrammar} `{LogFormat} `{StatementDebug} `{SnapshotFormat}.

Definition session_status (s : SQLSession) : Z :=
  if is_in_transaction s then Z.lor SERVER_STATUS_AUTOCOMMIT SERVER_STATUS_IN_TRANS
  else SERVER_STATUS_AUTOCOMMIT.

Definition Command : Type := outcome (Db * Connection * Reply).
Definition err_reply (d : Db) (c : Connection) (code : Z) (state msg : string) : Command :=
  Ok (d, c, Respond [build_err_packet code state msg]).

Definition com_query (d : Db) (env : Env) (c : Connection) (data : list Z) : Command :=
  let query := from_utf8_lossy (tail data) in
  answered ← try_handle_system_query query;
  '(d, s, result) ← match answered with
                    | Some result => Ok (d, cn_session c, result)
                    | None => session_execute d env (cn_session c) query
                    end;
  Ok (d, with_session c s, Respond (encode_result result (session_status s))).

(** [wrapping_add(1).max(1)]. *)
Definition next_id (id : N) : N := N.max ((id + 1) mod 2 ^ 32) 1.

Definition com_stmt_prepare (d : Db) (c : Connection) (data : list Z) : Command :=
  let sql := from_utf8_lossy (tail data) in
  let '(d, result) := prepare d sql in
  match result with
  | Err e => err_reply d c 1064 "42000" e
  | Panic => Panic
  | Ok p =>
      let id := cn_next_statement_id c in
      let count := N.to_nat (ps_parameter_count p) in
      metadata ← prepared_result_metadata d p None;
      let eof := build_eof_packet_with_status SERVER_STATUS_AUTOCOMMIT in
      let packets :=
        [build_stmt_prepare_ok (Z.of_N id) (Z.of_nat (length metadata)) (Z.of_nat count)]
        ++ ((λ i : nat, build_column_def ("param" +:+ pretty (i + 1)%nat) "" MYSQL_TYPE_VAR_STRING 0)
              <$> seq 0 count)
        ++ (if decide (0 < count)%nat then [eof] else [])
        ++ ((λ '(name, t), typed_column_def name t) <$> metadata)
        ++ (match metadata with [] => [] | _ => [eof] end) in
      Ok (d, {| cn_session := cn_session c;
                cn_statements := <[id := {| prepared := p; parameter_types := []; long_data := ∅ |}]>
                                   (cn_statements c);
                cn_next_statement_id := next_id id |}, Respond packets)
  end.

(** The statement a command names in bytes 1 to 4. *)
Definition statement_id (data : list Z) : N := Z.to_N (from_le_bytes (take 4 (drop 1 data))).
Definition unknown_statement : string := "Unknown prepared statement handler".

Definition com_stmt_execute (d : Db) (env : Env) (c : Connection) (data : list Z) : Command :=
  if decide (length data < 10)%nat then err_reply d c 1243 "HY000" "Invalid statement execute packet"
  else
    let id := statement_id data in
    match cn_statements c !! id with
    | None => err_reply d c 1243 "HY000" unknown_statement
    | Some statement =>
        let '(statement, decoded) := decode_stmt_parameters data statement in
        let c := with_statements c (<[id := statement]> (cn_statements c)) in
        match decoded with
        | Err e => err_reply d c 1210 "HY000" e
        | Panic => Panic
        | Ok parameters =>
            metadata ← prepared_result_metadata d (prepared statement) (Some parameters);
            '(d, s, result) ←
              execute_prepared d env (cn_session c) (prepared statement) parameters;
            packets ← encode_prepared_result result metadata (session_status s);
            Ok (d, with_session c s, Respond packets)
        end
    end.

Definition com_stmt_send_long_data (d : Db) (c : Connection) (data : list Z) : Command :=
  if decide (length data < 7)%nat then Ok (d, c, Respond [])
  else
    let id := statement_id data in
    let parameter_id := Z.to_nat (from_le_bytes (take 2 (drop 5 data))) in
    Ok (d, match cn_statements c !! id with
           | Some st =>
               with_statements c
                 (<[id := with_long_data st
                     (<[parameter_id := default [] (long_data st !! parameter_id) ++ drop 7 data]>
                        (long_data st))]> (cn_statements c))
           | None => c
           end, Respond []).

Definition com_stmt_reset (d : Db) (c : Connection) (data : list Z) : Command :=
  if decide (length data < 5)%nat then err_reply d c 1243 "HY000" "Invalid statement reset packet"
  else
    let id := statement_id data in
    match cn_statements c !! id with
    | Some st =>
        Ok (d, with_statements c (<[id := with_long_data st ∅]> (cn_statements c)),
            Respond [build_ok_packet 0 0])
    | None => err_reply d c 1243 "HY000" unknown_statement
    end.

Definition com_stmt_close (d : Db) (c : Connection) (data : list Z) : Command :=
  Ok (d, if decide (5 ≤ length data)%nat
         then with_statements c (delete (statement_id data) (cn_statements c)) else c, Respond []).

(** One turn of the command loop. *)
Definition handle_command (d : Db) (env : Env) (c : Connection) (data : list Z) : Command :=
  match data with
  | [] => Ok (d, c, Close)
  | cmd :: _ =>
      if cmd =? COM_QUIT then Ok (d, c, Close)
      else if (cmd =? COM_PING) || (cmd =? COM_INIT_DB) then Ok (d, c, Respond [build_ok_packet 0 0])
      else if cmd =? COM_FIELD_LIST then Ok (d, c, Respond [build_eof_packet])
      else if cmd =? COM_QUERY then com_query d env c data
      else if cmd =? COM_STMT_PREPARE then com_stmt_prepare d c data
      else if cmd =? COM_STMT_EXECUTE then com_stmt_execute d env c data
      else if cmd =? COM_STMT_SEND_LONG_DATA then com_stmt_send_long_data d c data
      else if cmd =? COM_STMT_RESET then com_stmt_reset d c data
      else if cmd =? COM_STMT_CLOSE then com_stmt_close d c data
      else err_reply d c 1047 "08S01" ("Unsupported command: 0x" +:+ hex_upper cmd)
  end.

(** The command loop on the bytes the client sends, one environment per
    command: it ends with the stream, with QUIT or with an empty packet.
    Every response starts at sequence number 1. *)
Fixpoint serve_commands (d : Db) (c : Connection) (envs : list Env) (stream : list Z) (out : list Z) :
    outcome (Db * list Z) :=
  match envs with
  | [] => Ok (d, out)
  | env :: envs =>
      match read_packet stream with
      | None => Ok (d, out)
      | Some (_, data, stream) =>
          '(d, c, reply) ← handle_command d env c data;
          match reply with
          | Close => Ok (d, out)
          | Respond packets => serve_commands d c envs stream (out ++ (write_packets 1 packets).1)
          end
      end
  end.

(** [handle_connection]: greeting, response, verdict, commands.
    [credentials] are the user and password of the configuration, if both are
    set; [peer] is the client's address. *)
Definition handle_connection `{Sha1} (d : Db) (credentials : option (string * string))
    (conn_id nanos pid : Z) (peer : string) (envs : list Env) (stream : list Z) :
    outcome (Db * list Z) :=
  let scramble := generate_scramble conn_id nanos pid in
  greeting ← build_handshake_v10 conn_id scramble;
  let out := write_packet 0 greeting in
  match read_packet stream with
  | None => Ok (d, out)
  | Some (_, client_data, stream) =>
      match parse_client_handshake client_data with
      | Panic => Panic
      | Err e =>
          Ok (d, out ++ write_packet 2 (build_err_packet 1045 "28000" ("Bad handshake: " +:+ e)))
      | Ok handshake =>
          let auth_ok :=
            match credentials with
            | Some (user, password) =>
                bool_decide (username handshake = user)
                && verify_mysql_native_password password scramble (auth_response handshake)
            | None => true
            end in
          if auth_ok then
            serve_commands d connection_new envs stream (out ++ write_packet 2 (build_ok_packet 0 0))
          else
            Ok (d, out ++ write_packet 2 (build_err_packet 1045 "28000"
              ("Access denied for user '" +:+ username handshake +:+ "'@'" +:+ peer +:+ "'")))
      end
  end.
End connection.

(** ** Packets are read back *)

Lemma header_length len :
  0 ≤ len < 2 ^ 24 →
  Z.lor (Z.lor (Z.land len 0xFF) (Z.shiftl (Z.land (Z.shiftr len 8) 0xFF) 8))
    (Z.shiftl (Z.land (Z.shiftr len 16) 0xFF) 16) = len.
Proof.
  intros Hlen. change 0xFF with (Z.ones 8). rewrite !Z.land_ones, !Z.shiftr_div_pow2 by lia.
  apply Z.bits_inj'. intros i Hi. rewrite !Z.lor_spec, !Z.shiftl_spec by lia.
  assert (∀ k z, 0 ≤ k → Z.testbit ((len / 2 ^ k) mod 2 ^ 8) z
    = bool_decide (0 ≤ z < 8) && Z.testbit len (z + k)) as Hbyte.
  { intros k z Hk. destruct (decide (0 ≤ z < 8)) as [Hz|Hz].
    - rewrite bool_decide_eq_true_2, Z.mod_pow2_bits_low, Z.div_pow2_bits by lia. done.
    - rewrite bool_decide_eq_false_2 by done. destruct (decide (z < 0)).
      + by rewrite Z.testbit_neg_r.
      + by rewrite Z.mod_pow2_bits_high by lia. }
  replace (len mod 2 ^ 8) with ((len / 2 ^ 0) mod 2 ^ 8) by (by rewrite Z.pow_0_r, Z.div_1_r).
  rewrite !Hbyte by lia. rewrite Z.add_0_r, !Z.sub_add.
  destruct (decide (i < 24)) as [Hl|Hh].
  - repeat case_bool_decide; cbn [andb orb]; rewrite ?orb_false_r, ?orb_diag; (reflexivity || lia).
  - rewrite !bool_decide_eq_false_2 by lia. cbn [andb orb]. symmetry.
    apply Z.bits_above_log2; [lia|]. destruct (decide (len = 0)) as [->|]; [cbn; lia|].
    apply Z.log2_lt_pow2; [lia|]. eapply Z.lt_le_trans; [apply Hlen|]. apply Z.pow_le_mono_r; lia.
Qed.

Lemma read_write_packet seq_id payload rest :
  Z.of_nat (length payload) < 2 ^ 24 →
  read_packet (write_packet seq_id payload ++ rest) = Some (seq_id, payload, rest).
Proof.
  intros Hlen. unfold read_packet, write_packet. cbv zeta. cbn [app].
  rewrite header_length by lia. by rewrite next_bytes_app.
Qed.

(** The packets at the head of a stream, with their sequence numbers. *)
Fixpoint read_packets (count : nat) (stream : list Z) : option (list (Z * list Z) * list Z) :=
  match count with
  | O => Some ([], stream)
  | S count =>
      '(seq_id, payload, stream) ← read_packet stream;
      '(packets, stream) ← read_packets count stream;
      Some ((seq_id, payload) :: packets, stream)
  end.

(** The sequence numbers from [start] on: one byte, wrapping around. *)
Fixpoint sequence (start : Z) (count : nat) : list Z :=
  match count with O => [] | S count => start :: sequence ((start + 1) mod 256) count end.

(** A client reads back what the server writes: the payloads in order,
    numbered consecutively modulo 256, and then the rest of the stream, when no
    payload reaches 16 megabytes. *)
Theorem packets_roundtrip payloads start rest :
  Forall (λ p, Z.of_nat (length p) < 2 ^ 24) payloads →
  read_packets (length payloads) ((write_packets start payloads).1 ++ rest)
    = Some (zip (sequence start (length payloads)) payloads, rest).
Proof.
  intros Hp. revert start. induction Hp as [|p payloads Hp _ IH]; intros start; [done|].
  cbn [write_packets length read_packets sequence]. specialize (IH ((start + 1) mod 256)).
  destruct (write_packets ((start + 1) mod 256) payloads) as [out next]. cbn [fst] in IH |- *.
  rewrite <-app_assoc, read_write_packet by done. cbn [mbind option_bind]. by rewrite IH.
Qed.

(** ** Statement parameters are read back *)

(** COM_STMT_EXECUTE as a client writes it: 64-bit integers, doubles, strings,
    and booleans as one-byte integers, with the types when they are new. *)
Definition value_type (v : Value) : Z :=
  match v with
  | VNull => MYSQL_TYPE_NULL
  | VInteger _ => MYSQL_TYPE_LONGLONG
  | VFloat _ => MYSQL_TYPE_DOUBLE
  | VText _ => MYSQL_TYPE_VAR_STRING
  | VBoolean _ => MYSQL_TYPE_TINY
  end.
Definition null_byte (values : list Value) (byte : nat) : Z :=
  foldr (λ i acc, match values !! (8 * byte + i)%nat with
                  | Some VNull => Z.lor acc (Z.shiftl 1 (Z.of_nat i))
                  | _ => acc
                  end) 0 (seq 0 8).
Definition null_bitmap (values : list Value) : list Z :=
  null_byte values <$> seq 0 ((length values + 7) / 8).
Definition write_types (values : list Value) : list Z :=
  concat ((λ v, to_le_bytes 2 (value_type v)) <$> values).
Definition write_execute (id : N) (new_types : bool) (values : list Value) : list Z :=
  [COM_STMT_EXECUTE] ++ to_le_bytes 4 (Z.of_N id) ++ [0] ++ to_le_bytes 4 1
  ++ null_bitmap values ++ [if new_types then 1 else 0]
  ++ (if new_types then write_types values else []) ++ concat (binary_cell <$> values).

(** What the server takes them for: it has no boolean parameters. *)
Definition received (v : Value) : Value :=
  match v with VBoolean b => VInteger (if b then 1 else 0) | v => v end.

Definition sendable (v : Value) : Prop :=
  encodable v ∧ match v with VText s => valid_utf8 s = true | _ => True end.

Lemma testbit_one k i : 0 ≤ k → Z.testbit (Z.shiftl 1 k) i = bool_decide (i = k).
Proof.
  intros Hk. rewrite Z.shiftl_1_l. destruct (decide (i = k)) as [->|Hne].
  - by rewrite Z.pow2_bits_true, bool_decide_eq_true_2.
  - by rewrite Z.pow2_bits_false, bool_decide_eq_false_2.
Qed.

Lemma null_byte_spec values byte i :
  (i < 8)%nat →
  Z.testbit (null_byte values byte) (Z.of_nat i)
    = match values !! (8 * byte + i)%nat with Some v => is_null v | None => false end.
Proof.
  intros Hi. unfold null_byte.
  assert (∀ l, Z.testbit (foldr (λ i acc, match values !! (8 * byte + i)%nat with
      | Some VNull => Z.lor acc (Z.shiftl 1 (Z.of_nat i)) | _ => acc end) 0 l) (Z.of_nat i)
    = bool_decide (i ∈ l) && match values !! (8 * byte + i)%nat with Some v => is_null v | None => false end)
    as Hl.
  { induction l as [|j l IH]; cbn [foldr]; [by rewrite Z.bits_0|].
    assert (bool_decide (i ∈ j :: l) = bool_decide (i = j) || bool_decide (i ∈ l)) as ->.
    { rewrite <-bool_decide_or. apply bool_decide_ext. apply elem_of_cons. }
    destruct (decide (i = j)) as [->|Hne].
    - rewrite (bool_decide_eq_true_2 (j = j)) by done. cbn [orb andb].
      destruct (values !! _) as [[]|] eqn:E; rewrite ?IH, ?andb_false_r; try done.
      by rewrite Z.lor_spec, testbit_one, bool_decide_eq_true_2, orb_true_r by lia.
    - rewrite (bool_decide_eq_false_2 (i = j)) by done. cbn [orb]. rewrite <-IH.
      destruct (values !! (8 * byte + j)%nat) as [[]|]; try done.
      rewrite Z.lor_spec, testbit_one by lia. rewrite bool_decide_eq_false_2 by lia. by rewrite orb_false_r. }
  rewrite Hl, bool_decide_eq_true_2; [done|]. apply elem_of_seq. lia.
Qed.

Lemma null_bitmap_bit values index v :
  values !! index = Some v → is_null_parameter (null_bitmap values) index = is_null v.
Proof.
  intros Hv. unfold is_null_parameter, null_bitmap. rewrite list_lookup_fmap, lookup_seq_lt.
  - cbn [fmap option_fmap option_map is_some_and]. rewrite Nat.add_0_l, land_bit by lia.
    rewrite null_byte_spec by (apply Nat.mod_upper_bound; lia).
    by rewrite <-Nat.div_mod_eq, Hv.
  - apply lookup_lt_Some in Hv. apply Nat.Div0.div_lt_upper_bound.
    pose proof (Nat.div_mod_eq (length values + 7) 8).
    pose proof (Nat.mod_upper_bound (length values + 7) 8 ltac:(lia)). lia.
Qed.

(** Reading at a position: the packet is what is before it and what is left. *)
Lemma take_bytes_app pre raw rest n pos :
  n = Z.of_nat (length raw) → pos = length pre →
  take_bytes (pre ++ raw ++ rest) pos n = Ok (raw, (pos + length raw)%nat).
Proof.
  intros -> ->. unfold take_bytes.
  destruct (Z.ltb_spec (Z.of_nat (length (pre ++ raw ++ rest) - length pre)) (Z.of_nat (length raw))) as [Hl|_].
  - rewrite !length_app in Hl. lia.
  - cbv zeta. by rewrite Nat2Z.id, (slice_mid pre raw rest).
Qed.

Lemma signed_8 z : signed 8 z = signed64 z.
Proof. done. Qed.

Lemma decode_value_cell pre v rest :
  v ≠ VNull → sendable v →
  decode_value (pre ++ binary_cell v ++ rest) (value_type v) (length pre)
    = Ok (received v, (length pre + length (binary_cell v))%nat).
Proof.
  intros Hn [[Hv He] Hs]. destruct v as [z|f|s|b|]; unfold decode_value; cbn [value_type].
  - cbn [binary_cell]. rewrite (take_bytes_app pre (i64_le z) rest) by done.
    cbn [mbind outcome_bind].
    change (Ok (VInteger (signed 8 (from_le_bytes (i64_le z))), (length pre + length (i64_le z))%nat)
      = Ok (VInteger z, (length pre + length (i64_le z))%nat)).
    by rewrite signed_8, signed64_le.
  - cbn [binary_cell]. rewrite (take_bytes_app pre (to_le_bytes 8 (to_bits f)) rest) by done.
    cbn [mbind outcome_bind].
    change (Ok (VFloat (F64 (from_le_bytes (to_le_bytes 8 (to_bits f)))), (length pre + 8)%nat)
      = Ok (VFloat f, (length pre + 8)%nat)).
    rewrite (from_to_le_bytes_id 8) by exact Hv. by destruct f.
  - cbn [binary_cell received]. unfold encode_lenenc_str.
    change (MYSQL_TYPE_VAR_STRING mod 256) with 0xFD. cbn -[read_lenenc_int app].
    rewrite <-app_assoc, read_encode_lenenc by lia. cbn [mbind outcome_bind ok_or].
    rewrite app_assoc, (take_bytes_app (pre ++ _) (string_bytes s) rest)
      by (rewrite ?string_bytes_length, ?length_app; done).
    cbn [mbind outcome_bind]. unfold from_utf8. rewrite string_bytes_inv, Hs.
    cbn. rewrite length_app. do 2 f_equal. lia.
  - cbn [binary_cell]. change (MYSQL_TYPE_TINY mod 256) with 1. cbn -[take_int app].
    unfold take_int. rewrite (take_bytes_app pre [if b then 1 else 0] rest) by done. by destruct b.
  - done.
Qed.

Lemma decode_values_cells all values : ∀ pre index,
  Forall sendable values → values = drop index all →
  decode_values (pre ++ concat (binary_cell <$> values)) (null_bitmap all) (value_type <$> values)
    index (length pre) ∅ = (∅, Ok (received <$> values)).
Proof.
  induction values as [|v values IH]; intros pre index Hs Hall; [done|].
  apply Forall_cons in Hs as [Hv Hs]. rewrite !fmap_cons. cbn [decode_values concat].
  assert (all !! index = Some v) as Hi.
  { rewrite <-(Nat.add_0_r index), <-lookup_drop, <-Hall. done. }
  assert (values = drop (S index) all) as Hrest.
  { by rewrite <-(Nat.add_1_r index), <-drop_drop, <-Hall. }
  rewrite (null_bitmap_bit _ _ _ Hi).
  destruct (decide (v = VNull)) as [->|Hn].
  - cbn [is_null binary_cell app]. by rewrite (IH pre (S index) Hs Hrest).
  - replace (is_null v) with false by (by destruct v).
    rewrite lookup_empty, (decode_value_cell pre v _ Hn Hv).
    rewrite app_assoc, <-length_app, (IH (pre ++ binary_cell v) (S index) Hs Hrest).
    by destruct v.
Qed.

Lemma vec_index_mid {A} (pre : list A) x l : vec_index (pre ++ x :: l) (length pre) = Ok x.
Proof. unfold vec_index. by rewrite lookup_mid. Qed.

Lemma read_types_write pre values rest :
  read_types (length values) (pre ++ write_types values ++ rest) (length pre)
    = Ok (value_type <$> values, (length pre + length (write_types values))%nat).
Proof.
  revert pre. induction values as [|v values IH]; intros pre; [cbn; do 2 f_equal; lia|].
  set (a := value_type v mod 256). set (b := value_type v / 256 mod 256).
  change (write_types (v :: values)) with (a :: b :: write_types values).
  cbn [length read_types app]. rewrite vec_index_mid. cbn [mbind outcome_bind].
  specialize (IH (pre ++ [a; b])). rewrite length_app in IH. cbn [length] in IH.
  rewrite <-app_assoc in IH. cbn [app] in IH. rewrite IH.
  pose proof (vec_index_mid (pre ++ [a]) b (write_types values ++ rest)) as Hb.
  rewrite length_app, <-app_assoc, Nat.add_1_r in Hb. cbn [app length] in Hb. rewrite Hb.
  cbn [mbind outcome_bind]. rewrite fmap_cons.
  assert (from_le_bytes [a; b] = value_type v) as -> by by destruct v.
  do 2 f_equal. lia.
Qed.

Lemma write_types_length values : length (write_types values) = (length values * 2)%nat.
Proof. unfold write_types. induction values as [|v values IH]; [done|]. cbn in *. lia. Qed.

Lemma parameters_decoded st id new_types values :
  ps_parameter_count (prepared st) = N.of_nat (length values) → long_data st = ∅ →
  Forall sendable values → (new_types = false → parameter_types st = value_type <$> values) →
  decode_stmt_parameters (write_execute id new_types values) st
    = (with_types st (value_type <$> values), Ok (received <$> values)).
Proof.
  intros Hcount Hlong Hs Htypes. unfold decode_stmt_parameters. rewrite Hcount, Nat2N.id.
  set (n := length values). set (m := ((n + 7) / 8)%nat).
  set (head := [COM_STMT_EXECUTE] ++ to_le_bytes 4 (Z.of_N id) ++ [0] ++ to_le_bytes 4 1).
  set (bitmap := null_bitmap values). set (cells := concat (binary_cell <$> values)).
  set (flag := [if new_types then 1 else 0]).
  set (types := if new_types then write_types values else []).
  assert (write_execute id new_types values = head ++ bitmap ++ flag ++ types ++ cells) as ->.
  { unfold write_execute, head. by rewrite <-!app_assoc. }
  assert (length head = 10%nat) as Hhead by done.
  assert (length bitmap = m) as Hbitmap by (unfold bitmap, null_bitmap; by rewrite length_fmap, length_seq).
  rewrite decide_False by (rewrite length_app; lia). cbv zeta.
  rewrite decide_False by (rewrite !length_app; cbn [length flag]; lia).
  rewrite (slice_mid head bitmap) by (rewrite ?Hbitmap; lia). cbn [mbind outcome_bind].
  assert (vec_index (head ++ bitmap ++ flag ++ types ++ cells) (10 + m)
    = Ok (if new_types then 1 else 0)) as ->.
  { rewrite app_assoc. replace (10 + m)%nat with (length (head ++ bitmap)) by (rewrite length_app; lia).
    apply vec_index_mid. }
  cbn [mbind outcome_bind].
  assert (negb ((if new_types then 1 else 0) =? 0) = new_types) as -> by by destruct new_types.
  assert (length types = if new_types then (n * 2)%nat else 0%nat) as Htl.
  { unfold types. destruct new_types; [apply write_types_length|done]. }
  replace (new_types && bool_decide
    (length (head ++ bitmap ++ flag ++ types ++ cells) - (10 + m + 1) < n * 2)%nat) with false.
  2: { symmetry. apply andb_false_iff. destruct new_types; [right|by left].
       apply bool_decide_eq_false. rewrite !length_app. cbn [length flag]. lia. }
  set (pre := head ++ bitmap ++ flag).
  assert (length pre = (10 + m + 1)%nat) as Hpre
    by (unfold pre; rewrite !length_app, Hhead, Hbitmap; cbn; lia).
  assert (head ++ bitmap ++ flag ++ types ++ cells = pre ++ types ++ cells) as ->
    by (unfold pre; by rewrite <-!app_assoc).
  rewrite <-Hpre.
  assert ((if new_types then read_types n (pre ++ types ++ cells) (length pre)
           else Ok (parameter_types st, length pre))
    = Ok (value_type <$> values, length (pre ++ types))) as ->.
  { unfold types. destruct new_types.
    - unfold n. rewrite read_types_write. by rewrite length_app.
    - rewrite Htypes by done. by rewrite app_nil_r. }
  rewrite decide_True by (by rewrite length_fmap). rewrite app_assoc.
  change (long_data (with_types st (value_type <$> values))) with (long_data st). rewrite Hlong.
  unfold cells, bitmap. rewrite (decode_values_cells values values (pre ++ types) 0) by done.
  f_equal. unfold with_long_data, with_types. cbn. by rewrite <-Hlong.
Qed.

(** The server decodes the parameters a client sends with a statement: the
    same values in the same order, NULLs by the bitmap, booleans as integers,
    with the types sent along or remembered from an earlier execution. *)
Theorem statement_parameters_roundtrip st id new_types values :
  ps_parameter_count (prepared st) = N.of_nat (length values) → long_data st = ∅ →
  Forall sendable values → (new_types = false → parameter_types st = value_type <$> values) →
  decode_stmt_parameters (write_execute id new_types values) st
    = (with_types st (value_type <$> values), Ok (received <$> values)).
Proof. apply parameters_decoded. Qed.

(** ** No bytes of a client make decoding panic *)

(** A reader that neither panics nor leaves the packet. *)
Definition safe_read {A} (data : list Z) (m : outcome (A * nat)) : Prop :=
  match m with Ok (_, pos) => (pos ≤ length data)%nat | Err _ => True | Panic => False end.

Lemma safe_bind {A B} data (m : outcome (A * nat)) (k : A → nat → outcome (B * nat)) :
  safe_read data m → (∀ a pos, (pos ≤ length data)%nat → safe_read data (k a pos)) →
  safe_read data (m ≫= λ '(a, pos), k a pos).
Proof. destruct m as [[a pos]| |]; cbn; auto. Qed.

Lemma take_bytes_safe data pos n :
  0 ≤ n → (pos ≤ length data)%nat → safe_read data (take_bytes data pos n).
Proof.
  intros Hn Hp. unfold take_bytes. destruct (Z.ltb_spec (Z.of_nat (length data - pos)) n); [done|].
  cbv zeta. destruct (slice_total data pos (pos + Z.to_nat n)) as [raw ->]; [lia|]. cbn. lia.
Qed.

Lemma take_int_safe data pos n unsigned :
  (pos ≤ length data)%nat → safe_read data (take_int data pos n unsigned).
Proof. intros Hp. apply safe_bind; [apply take_bytes_safe; lia|]. intros raw pos' Hp'. exact Hp'. Qed.

Lemma decode_value_safe data t pos :
  bytes data → (pos ≤ length data)%nat → safe_read data (decode_value data t pos).
Proof.
  intros Hd Hp. unfold decode_value. cbv zeta.
  repeat (case_match; [first [exact Hp | by apply take_int_safe
    | apply safe_bind; [by apply take_bytes_safe|]; intros raw pos' Hp'; cbv zeta; try (case_match; done); exact Hp'
    | idtac]|]); [|done].
  destruct (read_lenenc_int data pos) as [len pos1] eqn:E.
  destruct (read_lenenc_bound _ _ _ _ Hd Hp E) as [Hp1 Hlen].
  destruct len as [len|]; [|done]. cbn [ok_or mbind outcome_bind].
  apply safe_bind; [apply take_bytes_safe; [by apply Hlen|done]|]. intros raw pos' Hp'.
  destruct (from_utf8 raw); [exact Hp'|done].
Qed.

Lemma bind_not_panic {A B} (m : outcome A) (k : A → outcome B) :
  m ≠ Panic → (∀ a, k a ≠ Panic) → (m ≫= k) ≠ Panic.
Proof. destruct m; cbn; auto. Qed.

Lemma decode_values_safe data bm types : ∀ index pos long,
  bytes data → (pos ≤ length data)%nat → (decode_values data bm types index pos long).2 ≠ Panic.
Proof.
  induction types as [|t types IH]; intros index pos long Hd Hp; [done|]. cbn [decode_values].
  assert (∀ v long pos, (pos ≤ length data)%nat →
    (let '(long, vs) := decode_values data bm types (S index) pos long in
     (long, vs ← vs; Ok (v :: vs))).2 ≠ Panic) as Hrest.
  { intros v long' pos' Hp'. specialize (IH (S index) pos' long' Hd Hp').
    destruct (decode_values _ _ _ _ _ _) as [long2 vs]. cbn in *. by apply bind_not_panic. }
  destruct (is_null_parameter bm index); [by apply Hrest|]. destruct (long !! index) as [raw|].
  - destruct (from_utf8 raw); [by apply Hrest|done].
  - pose proof (decode_value_safe data t pos Hd Hp) as Hv.
    destruct (decode_value data t pos) as [[v pos']| |]; [by apply Hrest|done|by destruct Hv].
Qed.

Lemma read_types_safe data count : ∀ pos,
  (pos + count * 2 ≤ length data)%nat → safe_read data (read_types count data pos).
Proof.
  induction count as [|count IH]; intros pos Hp; [cbn; lia|]. cbn [read_types]. unfold vec_index.
  destruct (lookup_lt_is_Some_2 data pos) as [a ->]; [lia|]. cbn [mbind outcome_bind].
  destruct (lookup_lt_is_Some_2 data (S pos)) as [b ->]; [lia|]. cbn [mbind outcome_bind].
  apply safe_bind; [apply IH; lia|]. intros types pos' Hp'. exact Hp'.
Qed.

Lemma decode_stmt_parameters_total data st : bytes data → (decode_stmt_parameters data st).2 ≠ Panic.
Proof.
  intros Hd. unfold decode_stmt_parameters. cbv zeta. case_decide; [done|].
  set (count := N.to_nat _). set (m := ((count + 7) / 8)%nat). case_decide; [done|].
  destruct (slice_total data 10 (10 + m)) as [bm ->]; [lia|]. cbn [mbind outcome_bind].
  unfold vec_index. destruct (lookup_lt_is_Some_2 data (10 + m)) as [flag ->]; [lia|].
  cbn [mbind outcome_bind]. set (new_types := negb (flag =? 0)). case_match eqn:Hsize; [done|].
  set (types := if new_types then _ else _).
  assert (safe_read data types) as Htypes.
  { unfold types. destruct new_types; [|unfold safe_read; lia].
    apply read_types_safe. apply andb_false_iff in Hsize as [|Hs%bool_decide_eq_false]; [done|]. lia. }
  destruct types as [[ts pos]| |]; [|done|by destruct Htypes]. destruct (decide (length ts = count)) as [Hc|Hc]; [|discriminate].
  assert (pos ≤ length data)%nat as Hpos by exact Htypes.
  pose proof (decode_values_safe data bm ts 0 pos (long_data (with_types st ts)) Hd Hpos) as Hv.
  by destruct (decode_values _ _ _ _ _ _).
Qed.

(** C21. No bytes of a client make decoding panic: neither the response to the
    greeting, whatever its lengths and flags, nor the parameters of a
    statement, whatever its bitmap, types and values. *)
Theorem client_bytes_never_panic data st :
  bytes data →
  parse_client_handshake data ≠ Panic ∧ (decode_stmt_parameters data st).2 ≠ Panic.
Proof. intros Hd. split; [by apply parse_client_handshake_total|by apply decode_stmt_parameters_total]. Qed.

(** ** Result sets are read back *)

(** A client reads the name and the type of a column, then rows until EOF. *)
Definition read_column_def (l : list Z) : option (string * Z) :=
  '(_, l) ← next_string l; '(_, l) ← next_string l; '(_, l) ← next_string l;
  '(_, l) ← next_string l; '(name, l) ← next_string l; '(_, l) ← next_string l;
  col_type ← l !! 7%nat; Some (name, col_type).

Fixpoint read_rows (types : list Z) (packets : list (list Z)) : option (list Row) :=
  match packets with
  | [] => None
  | packet :: packets =>
      if decide (head packet = Some 0xFE) then match packets with [] => Some [] | _ => None end
      else row ← read_binary_row types packet; rows ← read_rows types packets; Some (row :: rows)
  end.

Definition read_result (packets : list (list Z)) : option ResultSet :=
  match packets with
  | count :: packets =>
      '(n, _) ← next_lenenc count;
      columns ← mapM read_column_def (take (Z.to_nat n) packets);
      rows ← read_rows columns.*2 (drop (S (Z.to_nat n)) packets);
      Some {| rs_columns := columns.*1; rs_rows := rows |}
  | [] => None
  end.

Lemma read_typed_column_def name d :
  Z.of_nat (String.length name) < 2 ^ 64 →
  read_column_def (typed_column_def name d) = Some (name, datatype_to_mysql d).
Proof.
  intros Hn. unfold typed_column_def, build_column_def, read_column_def. cbv zeta.
  do 4 (rewrite next_string_encode by done; cbn [mbind option_bind]).
  do 2 (rewrite next_string_encode by done; cbn [mbind option_bind]). by destruct d.
Qed.

Lemma read_rows_encoded types rows packets eof :
  head eof = Some 0xFE →
  Forall2 (λ row packet, ∃ rest, packet = 0 :: rest ∧ read_binary_row types packet = Some row)
    rows packets →
  read_rows types (packets ++ [eof]) = Some rows.
Proof.
  intros He. induction 1 as [|row packet rows packets (rest & -> & Hr) _ IH]; cbn [app read_rows].
  - by rewrite decide_True.
  - rewrite decide_False by done. rewrite Hr. cbn [mbind option_bind]. by rewrite IH.
Qed.

Lemma binary_rows_encoded types rows :
  Forall (λ row, Forall2 cell_fits types row ∧ Forall encodable row) rows →
  ∃ packets, mapM build_binary_row rows = Ok packets ∧
    Forall2 (λ row packet, ∃ rest, packet = 0 :: rest ∧
      read_binary_row (datatype_to_mysql <$> types) packet = Some row) rows packets.
Proof.
  induction 1 as [|row rows [Hf He] _ (packets & Hp & IH)]; [by exists []|].
  destruct (binary_row_shape row) as (bm & Hl & Hrow & Hb).
  exists ((0 :: bm ++ concat (binary_cell <$> row)) :: packets). split.
  - cbn [mapM]. rewrite Hrow. cbn [mbind outcome_bind]. by rewrite Hp.
  - constructor; [|done]. eexists. split; [reflexivity|]. cbn [read_binary_row].
    rewrite length_fmap, (Forall2_length _ _ _ Hf), <-Hl, take_app_length, drop_app_length.
    by apply read_cells_row.
Qed.

Definition announced_types (metadata : list (string * DataType)) (columns : nat) : list DataType :=
  announced_type metadata <$> seq 0 columns.

Lemma read_column_defs metadata columns : ∀ start,
  Forall (λ c, Z.of_nat (String.length c) < 2 ^ 64) columns →
  mapM read_column_def
    (imap (λ i c, typed_column_def c (announced_type metadata (start + i)%nat)) columns)
  = Some (zip columns (datatype_to_mysql <$> (announced_type metadata <$> seq start (length columns)))).
Proof.
  induction columns as [|c columns IH]; intros start Hc; [done|].
  apply Forall_cons in Hc as [Hc Hcs]. rewrite imap_cons. cbn [mapM].
  rewrite read_typed_column_def by done. cbn [mbind option_bind].
  specialize (IH (S start) Hcs).
  rewrite (imap_ext _ (λ i c, typed_column_def c (announced_type metadata (S start + i)%nat))).
  - rewrite IH. cbn [mbind option_bind length seq]. rewrite !fmap_cons. by rewrite Nat.add_0_r.
  - intros i x _. cbn. do 2 f_equal. lia.
Qed.

Lemma prepared_result_read `{RustStd} rs metadata status :
  Z.of_nat (length (rs_columns rs)) < 2 ^ 64 →
  Forall (λ c, Z.of_nat (String.length c) < 2 ^ 64) (rs_columns rs) →
  Forall (λ row, Forall2 cell_fits (announced_types metadata (length (rs_columns rs))) row ∧
                 Forall encodable row) (rs_rows rs) →
  ∃ packets, encode_prepared_result (RSelect rs) metadata status = Ok packets ∧
    read_result packets = Some rs.
Proof.
  intros Hn Hc Hrows. destruct (binary_rows_encoded _ _ Hrows) as (rows & Hm & Hr).
  unfold encode_prepared_result. rewrite Hm. cbn [mbind outcome_bind]. eexists. split; [reflexivity|].
  cbn [app read_result]. unfold build_column_count.
  pose proof (next_lenenc_encode (Z.of_nat (length (rs_columns rs))) [] ltac:(lia)) as Hcount.
  rewrite app_nil_r in Hcount. rewrite Hcount. cbn [mbind option_bind]. rewrite Nat2Z.id.
  set (defs := imap _ _). assert (length defs = length (rs_columns rs)) as Hd by apply length_imap.
  rewrite <-Hd at 1. rewrite take_app_length.
  assert (mapM read_column_def defs = Some (zip (rs_columns rs)
    (datatype_to_mysql <$> announced_types metadata (length (rs_columns rs))))) as Hdefs
    by exact (read_column_defs metadata (rs_columns rs) 0 Hc).
  rewrite Hdefs. cbn [mbind option_bind].
  assert (drop (S (length (rs_columns rs))) (defs ++ build_eof_packet_with_status status :: rows
    ++ [build_eof_packet_with_status status]) = rows ++ [build_eof_packet_with_status status]) as ->.
  { rewrite cons_middle, app_assoc, drop_app_exact; [done|]. rewrite length_app, Hd. cbn. lia. }
  assert (length (datatype_to_mysql <$> announced_types metadata (length (rs_columns rs)))
    = length (rs_columns rs)) as Ht by (unfold announced_types; by rewrite !length_fmap, length_seq).
  rewrite snd_zip, fst_zip by lia.
  rewrite (read_rows_encoded _ (rs_rows rs) rows) by done. cbn [mbind option_bind]. by destruct rs.
Qed.

(** A client reads back the result of a prepared query: its column names
    and every row, value by value, whenever the values have the types announced
    for their columns. *)
Theorem prepared_result_roundtrip `{RustStd} rs metadata status :
  Z.of_nat (length (rs_columns rs)) < 2 ^ 64 →
  Forall (λ c, Z.of_nat (String.length c) < 2 ^ 64) (rs_columns rs) →
  Forall (λ row, Forall2 cell_fits (announced_types metadata (length (rs_columns rs))) row ∧
                 Forall encodable row) (rs_rows rs) →
  ∃ packets, encode_prepared_result (RSelect rs) metadata status = Ok packets ∧
    read_result packets = Some rs.
Proof. apply prepared_result_read. Qed.

(** C20. Without the configured credentials a client changes nothing: a
    connection that leaves the database different began with a response that
    names the configured user and answers the challenge of this connection as
    mysql_native_password does (or, for an empty password, with nothing). *)
Theorem unauthenticated_changes_nothing
    `{RustStd} `{UnicodeTables} `{SqlGrammar} `{LogFormat} `{StatementDebug} `{SnapshotFormat} `{Sha1}
    d user password conn_id nanos pid peer envs stream d' out :
  handle_connection d (Some (user, password)) conn_id nanos pid peer envs stream = Ok (d', out) →
  d' = d ∨
  ∃ seq_id data rest h,
    read_packet stream = Some (seq_id, data, rest) ∧ parse_client_handshake data = Ok h ∧
    username h = user ∧
    (auth_response h = client_response password (generate_scramble conn_id nanos pid) ∨
     password = EmptyString ∧ auth_response h = []).
Proof.
  intros Hx. unfold handle_connection in Hx. cbv zeta in Hx. apply bind_Ok in Hx as (greeting & _ & Hx).
  destruct (read_packet stream) as [[[seq_id data] rest]|]; [|left; congruence].
  destruct (parse_client_handshake data) as [h|e|] eqn:Hh; [|left; congruence|done].
  destruct (bool_decide (username h = user) && verify_mysql_native_password password
    (generate_scramble conn_id nanos pid) (auth_response h)) eqn:Hauth.
  - right. apply andb_true_iff in Hauth as [Hu%bool_decide_eq_true Hp].
    apply password_check_exact in Hp. exists seq_id, data, rest, h. naive_solver.
  - left. congruence.
Qed.

(** ** Witnesses and deviations *)

Section wire_examples.
#[local] Existing Instance concrete_std.
#[local] Existing Instance concrete_log.
#[local] Existing Instance concrete_grammar.
#[local] Existing Instance Database.debug_none.
#[local] Existing Instance Database.no_snapshots.

#[local] Instance ascii_tables : UnicodeTables :=
  {| to_uppercase := to_ascii_uppercase; to_lowercase := to_ascii_lowercase;
     is_alphanumeric := λ ch, match char_codes ch with
       | [n] => bool_decide (48 ≤ n ≤ 57 ∨ 65 ≤ n ≤ 90 ∨ 97 ≤ n ≤ 122)%N | _ => false end;
     to_uppercase_ascii := λ s _, eq_refl; to_lowercase_ascii := λ s _, eq_refl |}.
#[local] Instance constant_sha1 : Sha1.
Proof. by refine {| sha1 := λ _, replicate 20 7 |}; intros _; vm_compute; repeat constructor. Defined.

Lemma packets_roundtrip_witness :
  read_packets 2 ((write_packets 255 [[1; 2]; [3]]).1 ++ [9]) = Some ([(255, [1; 2]); (0, [3])], [9]).
Proof. apply (packets_roundtrip [[1; 2]; [3]] 255 [9]). by repeat constructor. Defined.

Definition wire_statement : WirePreparedStatement :=
  {| prepared := {| ps_sql := "UPDATE t SET name = ?, active = ? WHERE id = ?"; ps_statement := Begin;
                    ps_parameter_count := 3; ps_schema_version := 0 |};
     parameter_types := []; long_data := ∅ |}.
Definition wire_values : list Value := [VText "plum"; VNull; VInteger (-7)].

Lemma statement_parameters_roundtrip_witness :
  (decode_stmt_parameters (write_execute 1 true wire_values) wire_statement).2 = Ok wire_values.
Proof.
  rewrite (statement_parameters_roundtrip wire_statement 1 true wire_values); [done|done|done| |done].
  repeat constructor.
Defined.

Lemma client_bytes_never_panic_witness :
  (decode_stmt_parameters [23; 1; 0; 0; 0; 0; 1; 0; 0; 0; 0; 1; 8; 0; 253; 0; 253; 255; 1]
     wire_statement).2 ≠ Panic.
Proof.
  apply (client_bytes_never_panic
    [23; 1; 0; 0; 0; 0; 1; 0; 0; 0; 0; 1; 8; 0; 253; 0; 253; 255; 1] wire_statement).
  by repeat constructor.
Defined.

Definition two_columns : ResultSet :=
  {| rs_columns := ["id"; "name"]; rs_rows := [[VInteger 3; VText "c"]; [VInteger (-4); VNull]] |}.
Definition two_types : list (string * DataType) := [("id", TInteger); ("name", TText)].

Lemma prepared_result_roundtrip_witness :
  ∃ packets, encode_prepared_result (RSelect two_columns) two_types 2 = Ok packets ∧
    read_result packets = Some two_columns.
Proof.
  apply (prepared_result_roundtrip two_columns two_types 2); [done|by repeat constructor|].
  repeat (apply Forall_cons; split); [| |apply Forall_nil_2];
    (split; [repeat (constructor; [(by right) || (by left)|]); constructor
            |repeat (apply Forall_cons; split; [by split|]); apply Forall_nil_2]).
Defined.

(** A response with a wrong answer to the challenge, and QUIT. *)
Definition refused_stream : list Z :=
  write_packet 1 (write_handshake root_login 65535 45) ++ write_packet 0 [COM_QUIT].
Definition refused : outcome (Db * list Z) :=
  handle_connection db0 (Some ("root", "secret")) 1 2 3 "peer" [fine] refused_stream.

Lemma unauthenticated_changes_nothing_witness :
  ∃ d' out, refused = Ok (d', out) ∧ d' = db0.
Proof.
  destruct refused as [[d' out]| |] eqn:E; [|by vm_compute in E..].
  exists d', out. split; [done|]. unfold refused in E.
  destruct (unauthenticated_changes_nothing db0 "root" "secret" 1 2 3 "peer" [fine] refused_stream d' out E)
    as [Hd|(seq_id & data & rest & h & Hr & Hh & _ & [Ha|[Hp _]])]; [done| |discriminate].
  exfalso. unfold refused_stream in Hr. rewrite read_write_packet in Hr by by vm_compute.
  injection Hr as _ <- _. assert (h = root_login) as ->.
  { assert (Ok h = Ok root_login) as [= ->]; [|done]. rewrite <-Hh. vm_compute. reflexivity. }
  apply (f_equal length) in Ha. unfold client_response in Ha.
  rewrite length_zip_with, !sha1_length in Ha. discriminate Ha.
Defined.

(** The types announced for a query over a derived table are all TEXT, but its
    integers are sent as eight bytes: a client cannot read the result. *)
Definition derived_query : Query :=
  mkQuery [] false [SExpr (EColumn None "id") None]
    (Some (SrcDerived (mkQuery [] false [SExpr (EColumn None "id") None] (Some (SrcTable "t" None))
      [] None [] None [] None) "d")) [] None [] None [] None.

Theorem derived_table_result_unreadable :
  let c := db_catalog (opened (disk_of [created; record 1 "INSERT 3"])) in
  ∃ r packets, execute_query c derived_query ∅ = Ok r ∧ rel_rows r = [[VInteger 3]] ∧
    encode_prepared_result (RSelect (relation_to_result r)) (query_metadata c derived_query) 2
      = Ok packets ∧
    read_result packets = None.
Proof.
  exists {| rel_columns := [{| bc_table := ""; bc_name := "id" |}]; rel_rows := [[VInteger 3]] |}.
  eexists. split_and!; [vm_compute; reflexivity|done|vm_compute; reflexivity|vm_compute; reflexivity].
Qed.

(** SHOW INDEX, which the engine answers, never reaches it over the wire. *)
Theorem show_index_shadowed d env c :
  parse_sql "SHOW INDEX FROM t" = Ok (ShowIndexes "t") ∧
  handle_command d env c (COM_QUERY :: string_bytes "SHOW INDEX FROM t")
    = Ok (d, c, Respond (encode_result (RSelect {| rs_columns := ["Variable_name"; "Value"];
        rs_rows := [] |}) (session_status (cn_session c)))).
Proof.
  split; [vm_compute; reflexivity|].
  change (handle_command d env c (COM_QUERY :: string_bytes "SHOW INDEX FROM t"))
    with (com_query d env c (COM_QUERY :: string_bytes "SHOW INDEX FROM t")).
  unfold com_query. cbv zeta. cbn [tail].
  replace (try_handle_system_query (from_utf8_lossy (string_bytes "SHOW INDEX FROM t")))
    with (Ok (Some (RSelect {| rs_columns := ["Variable_name"; "Value"]; rs_rows := [] |})))
    by (vm_compute; reflexivity).
  cbn [mbind outcome_bind]. by destruct c.
Qed.

(** The scan for system variables slices text at character positions: a
    character of two bytes before the variable makes the connection panic. *)
Definition accented_query : string :=
  "SELECT " +:+ bytes_string [0xC3; 0xA9] +:+ "@@version".

Theorem system_variable_after_accent_panics d env c :
  handle_command d env c (COM_QUERY :: string_bytes accented_query) = Panic.
Proof.
  change (handle_command d env c (COM_QUERY :: string_bytes accented_query))
    with (com_query d env c (COM_QUERY :: string_bytes accented_query)).
  unfold com_query. cbv zeta. cbn [tail].
  replace (try_handle_system_query (from_utf8_lossy (string_bytes accented_query)))
    with (@Panic (option ExecutionResult)) by (vm_compute; reflexivity).
  done.
Qed.

(** The length of a packet is truncated to three bytes: the header of a
    payload of 16 megabytes announces an empty one. *)
Theorem long_packet_truncated seq_id payload :
  Z.of_nat (length payload) = 2 ^ 24 →
  read_packet (write_packet seq_id payload) = Some (seq_id, [], payload).
Proof.
  intros Hl. unfold write_packet, read_packet. cbv zeta. rewrite Hl. cbn [app].
  change (Z.lor _ _) with 0. by rewrite (next_bytes_app [] payload).
Qed.
End wire_examples.
