(* ===== verification/Prepared.v ===== *)
(** * Prepared.v: prepared queries from end to end

    A client of the MySQL server that executes a prepared query over one table
    reads back exactly the result of the query: parameters, optimiser,
    evaluation, announced types and binary rows compose.  The stored values have
    the types of their columns in every database the server can reach, whatever
    its connections do ([server_run]). *)

From S2P Require Import Prelude Machine Float64 Like Types Concrete Keys Table Eval Queries.
From S2P Require Import Statement Planner Validate Ddl Execute Integrity Typing Params Str Log Parser Wal Database.
From S2P Require Import SqlAst Durable Metadata Soundness Protocol Wire.

#[local] Open Scope Z_scope.

(** ** Typed catalogs in a database and its sessions *)

Section typed_sessions.
Context `{RustStd} `{UnicodeTables} `{SqlGrammar} `{LogFormat} `{StatementDebug} `{SnapshotFormat}.

Lemma configured_typed c rate : catalog_typed c → catalog_typed (configure_bloom_false_positive_rate c rate).
Proof.
  intros Hc name t Ht. unfold configure_bloom_false_positive_rate in Ht. cbn [cat_tables set_tables] in Ht.
  apply lookup_fmap_Some in Ht as (t0 & <- & Ht0). exact (Hc name t0 Ht0).
Qed.

Definition session_typed (s : SQLSession) : Prop :=
  ∀ t, s_transaction s = Some t → catalog_typed (tx_catalog t).
Definition typed (d : Db) (s : SQLSession) : Prop := catalog_typed (db_catalog d) ∧ session_typed s.

Lemma typed_same d d' s : db_catalog d' = db_catalog d → typed d s → typed d' s.
Proof. intros Hd [Hc Hs]. split; [by rewrite Hd|done]. Qed.

Lemma autocommit_typed d env dur st d' r :
  catalog_typed (db_catalog d) → execute_autocommit_durable d env dur st = Ok (d', r) →
  catalog_typed (db_catalog d').
Proof.
  intros Hc Hx. unfold execute_autocommit_durable in Hx. destruct (negb _).
  { apply bind_Ok in Hx as ([w res] & _ & [= <- <-]). done. }
  apply bind_Ok in Hx as ([w res] & Hw & Hx). destruct (is_error res); [by simplify_eq|].
  apply execute_catalog_typed in Hw; [|done].
  set (working := with_version _ _) in Hx.
  assert (catalog_typed working) as Hwt.
  { assert (catalog_typed (configure_bloom_false_positive_rate w (bloom_false_positive_rate (db_options d)))) as Hcf
      by by apply configured_typed.
    unfold working. destruct (is_schema_statement st); exact Hcf. }
  pose proof (log_transaction_catalog d env (cat_version (db_catalog d)) (cat_version working) [dur]) as Hl.
  destruct (log_transaction _ _ _ _ _) as [d1 [e|]]; cbn [fst] in Hl; [simplify_eq; by rewrite Hl|].
  destruct (_ && _).
  - destruct (save_catalog (with_catalog d1 working) env) as [Hsv _].
    destruct (save _ _) as [d2 o]. cbn [fst] in Hsv. simplify_eq. by rewrite Hsv.
  - by simplify_eq.
Qed.

Lemma execute_in_session_typed d env s dur st d' s' r :
  typed d s → execute_in_session d env s dur st = Ok (d', s', r) → typed d' s'.
Proof.
  intros [Hc Hs] Hx. unfold execute_in_session in Hx. destruct (s_transaction s) as [t|] eqn:Ht.
  - apply bind_Ok in Hx as ([w res] & Hw & [= <- <- _]). split; [done|]. intros t' [= <-].
    eapply execute_catalog_typed; [by apply Hs|exact Hw].
  - apply bind_Ok in Hx as ([d1 res] & Hx & [= <- <- _]). split; [by eapply autocommit_typed|done].
Qed.

Lemma commit_typed d env s d' s' r : typed d s → commit d env s = (d', s', r) → typed d' s'.
Proof.
  intros [Hc Hs] Hx. unfold commit in Hx. destruct (s_transaction s) as [t|] eqn:Ht; [|by simplify_eq].
  case_decide; [|simplify_eq; split; [done|]; by intros t'].
  destruct (tx_statements t) as [|dur ds]; [simplify_eq; split; [done|]; by intros t'|].
  assert (catalog_typed (committed_catalog d t)) as Hcc by by apply configured_typed, Hs.
  pose proof (log_transaction_catalog d env (tx_base_version t) (cat_version (committed_catalog d t)) (dur :: ds)) as Hl.
  destruct (log_transaction _ _ _ _ _) as [d1 [e|]]; cbn [fst] in Hl; simplify_eq.
  - split; [by rewrite Hl|]. by intros t' [= <-].
  - split; [|by intros t']. by destruct (tx_schema_changed t).
Qed.

Lemma prepare_quiet d sql : quiet d (prepare d sql).1.
Proof. unfold prepare. pose proof (parse_cached_quiet d sql) as Hq. by destruct (parse_cached d sql). Qed.

Lemma execute_prepared_typed d env s p ps d' s' r :
  typed d s → execute_prepared d env s p ps = Ok (d', s', r) → typed d' s'.
Proof.
  intros Hd Hx. unfold execute_prepared in Hx.
  assert (∃ d1 parsed, (if decide (cat_schema_version (db_catalog d) = ps_schema_version p)
    then (d, Ok (ps_statement p)) else parse_cached d (ps_sql p)) = (d1, parsed) ∧ typed d1 s)
    as (d1 & parsed & Heq & Hd1).
  { case_decide; [by eexists _, _|]. pose proof (parse_cached_quiet d (ps_sql p)) as Hq.
    destruct (parse_cached d (ps_sql p)) as [d1 m]. eexists _, _. split; [done|].
    eapply typed_same; [apply Hq|exact Hd]. }
  rewrite Heq in Hx.
  apply on_error_Ok in Hx as [(st & _ & Hx)|(e & _ & [= -> -> _])]; [|done].
  apply on_error_Ok in Hx as [(bound & _ & Hx)|(e & _ & [= -> -> _])]; [|done].
  apply bind_Ok in Hx as (bound' & _ & Hx). by eapply execute_in_session_typed.
Qed.

Lemma session_execute_typed d env s sql d' s' r :
  typed d s → session_execute d env s sql = Ok (d', s', r) → typed d' s'.
Proof.
  intros Hd Hx. unfold session_execute in Hx. pose proof (parse_cached_quiet d sql) as Hq.
  destruct (parse_cached d sql) as [d1 m]. apply (typed_same d d1) in Hd; [|apply Hq]. clear Hq.
  apply on_error_Ok in Hx as [(st & _ & Hx)|(e & _ & [= -> -> _])]; [|done].
  destruct st as [| | | | | | | | | | | | |name value|name source|name using_|name| | |];
    cbn [execute_session_statement] in Hx; try by eapply execute_in_session_typed.
  - injection Hx as <- <- _. exact Hd.
  - apply on_error_Ok in Hx as [(text & _ & Hx)|(e & _ & [= -> -> _])]; [|done].
    pose proof (prepare_quiet d1 text) as Hq. destruct (prepare d1 text) as [d2 m2].
    apply (typed_same d1 d2) in Hd; [|apply Hq].
    apply on_error_Ok in Hx as [(p & _ & [= <- <- _])|(e & _ & [= -> -> _])]; exact Hd.
  - destruct (s_prepared s !! name) as [p|]; [|by simplify_eq].
    apply on_error_Ok in Hx as [(ps & _ & Hx)|(e & _ & [= -> -> _])]; [|done]. by eapply execute_prepared_typed.
  - destruct (s_prepared s !! name); simplify_eq; exact Hd.
  - injection Hx as Hx. unfold begin in Hx. destruct (s_transaction s) eqn:Ht; simplify_eq; [done|].
    split; [exact (proj1 Hd)|]. intros t [= <-]. exact (proj1 Hd).
  - injection Hx as Hx. by eapply commit_typed.
  - injection Hx as <- <- _. split; [exact (proj1 Hd)|by intros t].
Qed.

(** *** Opening *)

Lemma replay_statement_typed c dur c' : catalog_typed c → replay_statement c dur = Ok c' → catalog_typed c'.
Proof.
  intros Hc Hx. unfold replay_statement in Hx. apply bind_Ok in Hx as (s & _ & Hx).
  apply bind_Ok in Hx as ([w r] & Hw & Hx). apply execute_catalog_typed in Hw; [|done].
  destruct r; try done; destruct (is_schema_statement s); by injection Hx as <-.
Qed.

Lemma replay_transaction_typed c base commit ds c' :
  catalog_typed c → replay_transaction c base commit ds = Ok c' → catalog_typed c'.
Proof.
  intros Hc Hx. unfold replay_transaction in Hx. repeat case_decide; try done; [by injection Hx as <-|].
  apply bind_Ok in Hx as (w & Hf & [= <-]). change (catalog_typed w).
  refine (foldM_inv catalog_typed _ _ _ _ Hc _ Hf). intros c1 dur c2 _. apply replay_statement_typed.
Qed.

Lemma replay_lines_typed ls c c' : catalog_typed c → replay_lines ls c = Ok c' → catalog_typed c'.
Proof.
  revert c. induction ls as [|line ls IH]; intros c Hc Hx; cbn in Hx; [by injection Hx as <-|].
  destruct (negb _); [done|]. case_bool_decide; [by eapply IH|].
  destruct (record_from_json line) as [r|].
  { destruct (wal_record_valid r); [|by injection Hx as <-]. apply bind_Ok in Hx as (c1 & Hc1 & Hx).
    eapply IH; [|exact Hx]. by eapply replay_transaction_typed. }
  destruct (legacy_from_json line) as [r|].
  { destruct (legacy_record_valid r); [|by injection Hx as <-]. apply bind_Ok in Hx as (c1 & Hc1 & Hx).
    eapply IH; [|exact Hx]. by eapply replay_transaction_typed. }
  destruct (parse_sql line) as [s|e|]; [|by injection Hx as <-|done].
  apply bind_Ok in Hx as (c1 & Hc1 & Hx). eapply IH; [|exact Hx].
  unfold replay_sql_line in Hc1. apply bind_Ok in Hc1 as ([w r] & Hw & Hc1).
  apply execute_catalog_typed in Hw; [|done].
  destruct (is_error r); [by injection Hc1 as <-|]. destruct (is_schema_statement s); by injection Hc1 as <-.
Qed.

(** A database is typed when its snapshot is; in particular one whose files are
    a log alone. *)
Lemma opened_typed disk options c d :
  load_catalog disk = Ok c → catalog_typed c → open_with_options disk options = Ok d → catalog_typed (db_catalog d).
Proof.
  intros Hl Hc Hx. unfold open_with_options in Hx. rewrite Hl in Hx. cbn [mbind outcome_bind] in Hx.
  apply bind_Ok in Hx as (c1 & Hr & [= <-]). cbn [db_catalog]. apply configured_typed.
  destruct (disk_wal disk); [by eapply replay_lines_typed|by injection Hr as <-].
Qed.
End typed_sessions.

(** ** The server *)

Section server.
Context `{RustStd} `{UnicodeTables} `{SqlGrammar} `{LogFormat} `{StatementDebug} `{SnapshotFormat}.

(** The catalog the statements of a session see. *)
Definition session_catalog (d : Db) (s : SQLSession) : Catalog :=
  match s_transaction s with Some t => tx_catalog t | None => db_catalog d end.

Lemma session_catalog_typed d s : typed d s → catalog_typed (session_catalog d s).
Proof. intros [Hc Hs]. unfold session_catalog. destruct (s_transaction s) eqn:Ht; [by apply Hs|done]. Qed.

(** Connections come and go and send one command after the other, in any
    order. *)
Inductive server_run (d0 : Db) : Db → gmap nat Connection → Prop :=
| run_start : server_run d0 d0 ∅
| run_accept d cs i :
    server_run d0 d cs → cs !! i = None → server_run d0 d (<[i := connection_new]> cs)
| run_leave d cs i : server_run d0 d cs → server_run d0 d (delete i cs)
| run_command d cs i c env data d' c' reply :
    server_run d0 d cs → cs !! i = Some c → handle_command d env c data = Ok (d', c', reply) →
    server_run d0 d' (<[i := c']> cs).

Lemma handle_command_typed d env c data d' c' reply :
  typed d (cn_session c) → handle_command d env c data = Ok (d', c', reply) → typed d' (cn_session c').
Proof.
  intros Hd Hx. unfold handle_command in Hx. destruct data as [|cmd rest]; [by simplify_eq|].
  set (data := cmd :: rest) in *.
  repeat match type of Hx with (if ?b then _ else _) = _ => destruct b end; try (by simplify_eq).
  - unfold com_query in Hx. apply bind_Ok in Hx as (answered & _ & Hx).
    apply bind_Ok in Hx as ([[d1 s1] result] & Hs & [= <- <- _]). cbn [cn_session with_session].
    destruct answered as [res|]; [by simplify_eq|]. by eapply session_execute_typed.
  - unfold com_stmt_prepare in Hx. pose proof (prepare_quiet d (from_utf8_lossy (tail data))) as Hq.
    destruct (prepare d _) as [d1 m]. apply (typed_same d d1) in Hd; [|apply Hq].
    destruct m as [p|e|]; [|by injection Hx as <- <- _|done].
    cbv zeta in Hx. apply bind_Ok in Hx as (metadata & _ & Hx). injection Hx as <- <- _. exact Hd.
  - unfold com_stmt_execute in Hx. case_decide; [by injection Hx as <- <- _|].
    destruct (cn_statements c !! _) as [st|]; [|by injection Hx as <- <- _].
    destruct (decode_stmt_parameters data st) as [st' [ps|e|]]; [|by injection Hx as <- <- _|done].
    apply bind_Ok in Hx as (metadata & _ & Hx). apply bind_Ok in Hx as ([[d1 s1] result] & Hs & Hx).
    apply bind_Ok in Hx as (packets & _ & [= <- <- _]). by eapply execute_prepared_typed.
  - unfold com_stmt_send_long_data in Hx. case_decide; injection Hx as <- <- _; [exact Hd|].
    destruct (cn_statements c !! _); exact Hd.
  - unfold com_stmt_reset in Hx. case_decide; [by injection Hx as <- <- _|].
    destruct (cn_statements c !! _); injection Hx as <- <- _; exact Hd.
  - unfold com_stmt_close in Hx. injection Hx as <- <- _. case_decide; exact Hd.
  - injection Hx as <- <- _. exact Hd.
Qed.

Lemma server_run_typed d0 d cs :
  catalog_typed (db_catalog d0) → server_run d0 d cs →
  catalog_typed (db_catalog d) ∧ map_Forall (λ _ c, session_typed (cn_session c)) cs.
Proof.
  intros Hd0. induction 1 as [|d cs i _ [IHd IHc] _|d cs i _ [IHd IHc]|d cs i c env data d' c' reply _ [IHd IHc] Hi Hx].
  - split; [done|apply map_Forall_empty].
  - split; [done|]. apply map_Forall_insert_2; [by intros t|done].
  - split; [done|]. by apply map_Forall_delete.
  - apply handle_command_typed in Hx as [Hd Hs]; [|split; [done|by eapply IHc]].
    split; [done|]. by apply map_Forall_insert_2.
Qed.

(** ** The command *)

Lemma write_execute_length id values : (10 ≤ length (write_execute id true values))%nat.
Proof. unfold write_execute. rewrite !length_app. cbn. lia. Qed.

Lemma write_execute_id id new_types values :
  (id < 2 ^ 32)%N → statement_id (write_execute id new_types values) = id.
Proof.
  intros Hid. unfold statement_id, write_execute. cbn [app drop].
  rewrite drop_0.   rewrite (take_app_length' (to_le_bytes 4 (Z.of_N id))) by (symmetry; apply to_le_bytes_length).
  rewrite from_to_le_bytes_id by lia. by rewrite N2Z.id.
Qed.

(** A query reads the session's catalog and leaves the database as it is. *)
Lemma session_query d env s dur q r :
  execute_query (session_catalog d s) q ∅ = Ok r →
  ∃ s', execute_in_session d env s dur (SelectQuery q) = Ok (d, s', RSelect (relation_to_result r)).
Proof.
  intros Hq. unfold execute_in_session, session_catalog in *. destruct (s_transaction s) as [t|].
  - unfold execute_catalog. cbn [is_write_statement execute_statement or_error].
    rewrite Hq. cbn [or_error mbind outcome_bind]. by eexists.
  - exists s. unfold execute_autocommit_durable, execute_catalog.
    cbn [is_write_statement execute_statement or_error negb]. rewrite Hq. done.
Qed.

Lemma query_command d env c id values st q q' r :
  cn_statements c !! id = Some st → (id < 2 ^ 32)%N →
  ps_parameter_count (prepared st) = N.of_nat (length values) → long_data st = ∅ → Forall sendable values →
  cat_schema_version (db_catalog d) = ps_schema_version (prepared st) →
  bind_parameters (ps_statement (prepared st)) (received <$> values) = Ok (SelectQuery q) →
  optimize_query q = Ok q' → execute_query (session_catalog d (cn_session c)) q' ∅ = Ok r →
  ∃ c' status, handle_command d env c (write_execute id true values) =
    (packets ← encode_prepared_result (RSelect (relation_to_result r)) (query_metadata (db_catalog d) q) status;
     Ok (d, c', Respond packets)).
Proof.
  intros Hst Hid Hcount Hlong Hs Hver Hb Ho Hq.
  change (handle_command d env c (write_execute id true values))
    with (com_stmt_execute d env c (write_execute id true values)).
  unfold com_stmt_execute. rewrite decide_False by (pose proof (write_execute_length id values); lia).
  cbv zeta. rewrite write_execute_id by done. rewrite Hst.
  rewrite (parameters_decoded st id true values) by done.
  unfold prepared_result_metadata. cbn [prepared with_types]. rewrite Hb. cbn [mbind outcome_bind].
  unfold execute_prepared. rewrite decide_True by done. cbn [on_error]. rewrite Hb. cbn [on_error optimize_statement].
  rewrite Ho. cbn [mbind outcome_bind].
  destruct (session_query d env (cn_session c) (DurableBound (SelectQuery q')) q' r Hq) as [s' Hx].
  cbn [cn_session with_statements]. rewrite Hx. cbn [mbind outcome_bind]. by eexists _, (session_status s').
Qed.

(** The types a client sees are those announced, one per column. *)
Lemma announced_types_all metadata (columns : nat) :
  length metadata = columns → announced_types metadata columns = metadata.*2.
Proof.
  intros <-. unfold announced_types. apply list_eq. intros i. rewrite !list_lookup_fmap.
  destruct (metadata !! i) as [[name d]|] eqn:Hi.
  - rewrite lookup_seq_lt by by eapply lookup_lt_Some. cbn. unfold announced_type. by rewrite Hi.
  - rewrite lookup_ge_None_2; [done|]. rewrite length_seq. by apply lookup_ge_None.
Qed.

(** What every result of the program satisfies: lengths of 64 bits, integers
    and floats of the machine. *)
Definition representable (r : Relation) : Prop :=
  Z.of_nat (length (rel_columns r)) < 2 ^ 64 ∧
  Forall (λ col, Z.of_nat (String.length (bc_name col)) < 2 ^ 64) (rel_columns r) ∧
  Forall (Forall encodable) (rel_rows r).

(** A client that executes a prepared query over one table or over none reads
    back the result. *)
Lemma query_read d env c id values st q q' r :
  typed d (cn_session c) → cn_statements c !! id = Some st → (id < 2 ^ 32)%N →
  ps_parameter_count (prepared st) = N.of_nat (length values) → long_data st = ∅ → Forall sendable values →
  cat_schema_version (db_catalog d) = ps_schema_version (prepared st) →
  bind_parameters (ps_statement (prepared st)) (received <$> values) = Ok (SelectQuery q) →
  plain_query q = true → forallb typable_item (q_projection q) = true →
  query_metadata (session_catalog d (cn_session c)) q = query_metadata (db_catalog d) q →
  optimize_query q = Ok q' → execute_query (session_catalog d (cn_session c)) q' ∅ = Ok r → representable r →
  ∃ c' packets, handle_command d env c (write_execute id true values) = Ok (d, c', Respond packets) ∧
    read_result packets = Some (relation_to_result r).
Proof.
  intros Hd Hst Hid Hcount Hlong Hs Hver Hb Hp Ht Hmeta Ho Hq (Hcols & Hnames & Henc).
  destruct (query_command d env c id values st q q' r) as (c' & status & Hx); [done..|].
  pose proof (announced_types_hold _ q q' r Hp Ht (session_catalog_typed _ _ Hd) (or_intror Ho) Hq) as Hfit.
  rewrite Hmeta in Hfit. pose proof (execute_query_wide _ _ _ _ Hq) as Hw. unfold wide, rows_wide in Hw.
  destruct (prepared_result_read (relation_to_result r) (query_metadata (db_catalog d) q) status)
    as (packets & He & Hr).
  - cbn. by rewrite length_fmap.
  - cbn. by apply Forall_fmap.
  - cbn [rs_columns rs_rows relation_to_result]. rewrite length_fmap. rewrite Forall_forall in *.
    intros row Hrow. split; [|by apply Henc]. specialize (Hfit row Hrow). specialize (Hw row Hrow).
    rewrite announced_types_all; [exact Hfit|]. apply Forall2_length in Hfit. rewrite length_fmap in Hfit. lia.
  - exists c', packets. rewrite Hx, He. done.
Qed.
End server.

(** C17. A prepared query is a round trip from end to end. Whatever the
    connections of a MySQL server have done to a database with typed values, a
    client that executes a prepared query over one table, or over none, reads back
    exactly the result of the optimised query with the values it sent. It is for
    items that do not take their type from a scalar subquery, parameters sent
    whole rather than as long data, values the protocol can carry, a schema
    version that has not changed since the query was prepared, and a transaction
    of the client, if one is open, that sees the announced columns. *)
Theorem prepared_query_roundtrip
    `{RustStd} `{UnicodeTables} `{SqlGrammar} `{LogFormat} `{StatementDebug} `{SnapshotFormat}
    d0 d cs i c env id values st q q' r :
  catalog_typed (db_catalog d0) → server_run d0 d cs → cs !! i = Some c →
  cn_statements c !! id = Some st → (id < 2 ^ 32)%N →
  ps_parameter_count (prepared st) = N.of_nat (length values) → long_data st = ∅ → Forall sendable values →
  cat_schema_version (db_catalog d) = ps_schema_version (prepared st) →
  bind_parameters (ps_statement (prepared st)) (received <$> values) = Ok (SelectQuery q) →
  plain_query q = true → forallb typable_item (q_projection q) = true →
  query_metadata (session_catalog d (cn_session c)) q = query_metadata (db_catalog d) q →
  optimize_query q = Ok q' → execute_query (session_catalog d (cn_session c)) q' ∅ = Ok r → representable r →
  ∃ c' packets, handle_command d env c (write_execute id true values) = Ok (d, c', Respond packets) ∧
    read_result packets = Some (relation_to_result r).
Proof.
  intros Hd0 Hrun Hc. destruct (server_run_typed _ _ _ Hd0 Hrun) as [Hd Hs].
  apply query_read. split; [exact Hd|by eapply Hs].
Qed.

(** ** Witness and defects *)

Section prepared_examples.
#[local] Existing Instance concrete_std.
#[local] Existing Instance concrete_log.
#[local] Existing Instance concrete_grammar.
#[local] Existing Instance Wire.ascii_tables.
#[local] Existing Instance Database.debug_none.
#[local] Existing Instance Database.no_snapshots.

Lemma db0_typed : catalog_typed (db_catalog db0).
Proof.
  apply (opened_typed (disk_of [created]) options (from_tables ∅) db0); [done| |vm_compute; reflexivity].
  intros name t Ht. by rewrite empty_tables in Ht.
Qed.

(** A client's command, which leaves everything as it is when it panics. *)
Definition turn (st : Db * Connection) (data : list Z) : Db * Connection :=
  match handle_command st.1 fine st.2 data with Ok (d, c, _) => (d, c) | _ => st end.
Definition query_packet (sql : string) : list Z := COM_QUERY :: string_bytes sql.
Definition prepare_packet (sql : string) : list Z := COM_STMT_PREPARE :: string_bytes sql.

Lemma run_turns d0 d cs i c packets :
  server_run d0 d cs → cs !! i = Some c →
  server_run d0 (foldl turn (d, c) packets).1 (<[i := (foldl turn (d, c) packets).2]> cs).
Proof.
  revert d cs c. induction packets as [|data packets IH]; intros d cs c Hrun Hc; [by rewrite insert_id|].
  cbn [foldl]. unfold turn at 2 4. cbn [fst snd].
  destruct (handle_command d fine c data) as [[[d1 c1] reply]| |] eqn:Hx; [|by apply IH..].
  assert (server_run d0 d1 (<[i := c1]> cs)) as Hrun1 by by eapply run_command.
  specialize (IH d1 _ c1 Hrun1 (lookup_insert_eq _ _ _)). by rewrite insert_insert_eq in IH.
Qed.

(** The client inserts a row and prepares SELECT id + ? AS n, v FROM t WHERE
    id = ?. *)
Definition client : Db * Connection :=
  foldl turn (db0, connection_new) [query_packet "INSERT 3"; prepare_packet "SELECT"].
Definition client_statement : WirePreparedStatement :=
  default {| prepared := {| ps_sql := ""; ps_statement := Begin; ps_parameter_count := 0; ps_schema_version := 0 |};
             parameter_types := []; long_data := ∅ |} (cn_statements client.2 !! 1%N).
Definition bound_query : Query :=
  match bind_parameters (ps_statement (prepared client_statement)) [VInteger 7; VInteger 3] with
  | Ok (SelectQuery q) => q | _ => t_query end.
Definition bound_result : Relation :=
  {| rel_columns := [{| bc_table := ""; bc_name := "n" |}; {| bc_table := ""; bc_name := "v" |}];
     rel_rows := [[VInteger 10; VText "c"]] |}.

Lemma client_run : server_run db0 client.1 (<[0%nat := client.2]> (<[0%nat := connection_new]> ∅)).
Proof. apply run_turns; [apply run_accept; [constructor|done]|apply lookup_insert_eq]. Qed.

Lemma prepared_query_roundtrip_witness :
  ∃ c' packets, handle_command client.1 fine client.2 (write_execute 1 true [VInteger 7; VInteger 3])
      = Ok (client.1, c', Respond packets) ∧
    read_result packets = Some {| rs_columns := ["n"; "v"]; rs_rows := [[VInteger 10; VText "c"]] |}.
Proof.
  apply (prepared_query_roundtrip db0 client.1 (<[0%nat := client.2]> (<[0%nat := connection_new]> ∅)) 0%nat client.2 fine 1%N
    [VInteger 7; VInteger 3] client_statement bound_query bound_query bound_result).
  - apply db0_typed.
  - apply client_run.
  - apply lookup_insert_eq.
  - vm_compute. reflexivity.
  - reflexivity.
  - vm_compute. reflexivity.
  - vm_compute. reflexivity.
  - repeat constructor.
  - vm_compute. reflexivity.
  - vm_compute. reflexivity.
  - vm_compute. reflexivity.
  - vm_compute. reflexivity.
  - vm_compute. reflexivity.
  - vm_compute. reflexivity.
  - vm_compute. reflexivity.
  - by repeat constructor.
Defined.

(** A transaction that changes a column's type is not seen by the announcement,
    which looks at the committed catalog: the client reads the bits of the sum
    10.0 as an integer. *)
Definition altered : Db * Connection := foldl turn client [query_packet "BEGIN"; query_packet "ALTER"].

(** What the client reads of the response to a command. *)
Definition reading (st : Db * Connection) (data : list Z) : option ResultSet :=
  match handle_command st.1 fine st.2 data with
  | Ok (_, _, Respond packets) => read_result packets
  | _ => None
  end.

Theorem altered_column_misread :
  (q ← match bind_parameters (ps_statement (prepared client_statement)) [VInteger 7; VFloat (f64_of_Z 3)] with
       | Ok (SelectQuery q) => Some q | _ => None end;
   match execute_query (session_catalog altered.1 (cn_session altered.2)) q ∅ with
   | Ok r => Some (rel_rows r) | _ => None end) = Some [[VFloat (f64_of_Z 10); VText "c"]] ∧
  reading altered (write_execute 1 true [VInteger 7; VFloat (f64_of_Z 3)]) = Some {| rs_columns := ["n"; "v"];
    rs_rows := [[VInteger (to_bits (f64_of_Z 10)); VText "c"]] |}.
Proof. split; vm_compute; reflexivity. Qed.

(** A scalar subquery is announced as TEXT whatever it returns. *)
Definition scalar_query : Query :=
  mkQuery [] false [SExpr (EScalarSubquery (mkQuery [] false [SExpr (EColumn None "id") None]
    (Some (SrcTable "t" None)) [] None [] None [] None)) (Some "first")] None [] None [] None [] None.

Theorem scalar_subquery_unreadable :
  ∃ r packets, execute_query (db_catalog client.1) scalar_query ∅ = Ok r ∧ rel_rows r = [[VInteger 3]] ∧
    encode_prepared_result (RSelect (relation_to_result r)) (query_metadata (db_catalog client.1) scalar_query) 2
      = Ok packets ∧
    read_result packets = None.
Proof.
  exists {| rel_columns := [{| bc_table := ""; bc_name := "first" |}]; rel_rows := [[VInteger 3]] |}.
  eexists. split_and!; [vm_compute; reflexivity|done|vm_compute; reflexivity|vm_compute; reflexivity].
Qed.
End prepared_examples.
