(* ===== verification/Persistence.v ===== *)
(** * Persistence.v: the log and the snapshots of the key-value store
    (src/persistence.rs)

    Records with a checksum and a sequence number, the queue of asynchronous
    writes and its background flush, recovery from the snapshot and the log,
    and the snapshot that replaces them.  Every call is a function on the
    manager and the files it owns; the clock and the faults of the disk are
    arguments. *)

From S2P Require Import Prelude Machine Str Log.

#[local] Open Scope N_scope.

(** ** Data *)

Inductive Operation := OpSet (key value : string) | OpDelete (key : string) | OpClear.
#[export] Instance Operation_eq_dec : EqDecision Operation.
Proof. solve_decision. Defined.

Definition KV_FORMAT_VERSION : N := 2.

Record KvWalRecord := {
  kr_format_version : N;
  kr_sequence : N;
  kr_timestamp_millis : N;
  kr_operation : Operation;
  kr_checksum : N;
}.

Record KvSnapshot := {
  ks_format_version : N;
  ks_sequence : N;
  ks_timestamp_millis : N;
  ks_entries : list (string * string);
}.

(** [crc32fast] and [serde_json]: what is written is read back, a record on
    one line that is not blank; a record cut short is not JSON. *)
Class KvFormat := {
  kv_crc32 : list Z → N;
  operation_json : Operation → string;
  operation_from_json : string → option Operation;
  kv_record_to_json : KvWalRecord → string;
  kv_record_from_json : string → option KvWalRecord;
  kv_snapshot_to_json : KvSnapshot → string;
  kv_snapshot_from_json : string → option KvSnapshot;
  kv_record_json_roundtrip : ∀ r, kv_record_from_json (kv_record_to_json r) = Some r;
  kv_record_json_line : ∀ r, no_control (kv_record_to_json r) ∧
    valid_utf8 (kv_record_to_json r) = true ∧ trim (kv_record_to_json r) ≠ EmptyString;
  kv_record_json_prefix : ∀ r (n : nat), (n < String.length (kv_record_to_json r))%nat →
    kv_record_from_json (String.substring 0 n (kv_record_to_json r)) = None ∧
    operation_from_json (String.substring 0 n (kv_record_to_json r)) = None;
  kv_snapshot_json_roundtrip : ∀ s, kv_snapshot_from_json (kv_snapshot_to_json s) = Some s;
  kv_snapshot_json_utf8 : ∀ s, valid_utf8 (kv_snapshot_to_json s) = true;
}.

(** [rustydb.db], [rustydb.wal] and the archived logs. *)
Record KvDisk := {
  kd_snapshot : option string;
  kd_wal : option string;
  kd_archive : list string;
}.

(** The open manager. [pm_wal_open] is false while no log file is held. *)
Record Manager := {
  pm_disk : KvDisk;
  pm_wal_open : bool;
  pm_pending : list Operation;
  pm_next_sequence : N;
}.

(** What a call meets outside the program: the clock, one fault for each write
    to the log (none when the list is used up), and how far a snapshot gets. *)
Inductive SnapshotFault :=
| SnapshotOk | FailsBeforePublish | FailsBeforeArchive | FailsBeforeReopen.
Record KvEnv := { ke_now : N; ke_faults : list WalFault; ke_snapshot : SnapshotFault }.
Definition ke_fault (env : KvEnv) : WalFault := default WalOk (head (ke_faults env)).
Definition ke_next (env : KvEnv) : KvEnv :=
  {| ke_now := ke_now env; ke_faults := tail (ke_faults env); ke_snapshot := ke_snapshot env |}.

Definition set_disk (m : Manager) (d : KvDisk) : Manager :=
  {| pm_disk := d; pm_wal_open := pm_wal_open m; pm_pending := pm_pending m;
     pm_next_sequence := pm_next_sequence m |}.
Definition set_wal_open (m : Manager) (b : bool) : Manager :=
  {| pm_disk := pm_disk m; pm_wal_open := b; pm_pending := pm_pending m;
     pm_next_sequence := pm_next_sequence m |}.
Definition set_pending (m : Manager) (ops : list Operation) : Manager :=
  {| pm_disk := pm_disk m; pm_wal_open := pm_wal_open m; pm_pending := ops;
     pm_next_sequence := pm_next_sequence m |}.
Definition set_sequence (m : Manager) (n : N) : Manager :=
  {| pm_disk := pm_disk m; pm_wal_open := pm_wal_open m; pm_pending := pm_pending m;
     pm_next_sequence := n |}.
Definition set_wal (d : KvDisk) (wal : option string) : KvDisk :=
  {| kd_snapshot := kd_snapshot d; kd_wal := wal; kd_archive := kd_archive d |}.

(** [AtomicU64::fetch_add(1)] wraps. *)
Definition fetch_add (n : N) : N := (n + 1) mod 2 ^ 64.

Section persistence.
Context `{KvFormat}.

Definition kv_checksum (sequence timestamp : N) (op : Operation) : N :=
  kv_crc32 (u64_le sequence ++ u64_le timestamp ++ string_bytes (operation_json op)).

Definition kv_record_new (now sequence : N) (op : Operation) : KvWalRecord :=
  {| kr_format_version := KV_FORMAT_VERSION; kr_sequence := sequence; kr_timestamp_millis := now;
     kr_operation := op; kr_checksum := kv_checksum sequence now op |}.

Definition kv_record_valid (r : KvWalRecord) : bool :=
  bool_decide (kr_format_version r = KV_FORMAT_VERSION)
  && bool_decide (kr_checksum r = kv_checksum (kr_sequence r) (kr_timestamp_millis r) (kr_operation r)).

Definition kv_line (r : KvWalRecord) : string := kv_record_to_json r +:+ String newline EmptyString.

(** ** Opening *)

(** The lines of a file up to the first that is not text ([map_while]). *)
Fixpoint text_prefix (ls : list string) : list string :=
  match ls with
  | l :: ls => if valid_utf8 l then l :: text_prefix ls else []
  | [] => []
  end.

Definition valid_record (line : string) : option KvWalRecord :=
  r ← kv_record_from_json line; if kv_record_valid r then Some r else None.

Definition max_sequence (l : list N) : N := foldr N.max 0 l.

Definition scan_max_sequence (snapshot wal : option string) : N :=
  let snapshot_sequence :=
    default 0 (content ← snapshot;
               if valid_utf8 content then ks_sequence <$> kv_snapshot_from_json content else None) in
  let wal_sequence :=
    default 0 (content ← wal;
               Some (max_sequence (kr_sequence <$> omap valid_record (text_prefix (lines content))))) in
  N.max snapshot_sequence wal_sequence.

(** [PersistenceManager::new], on the files of its directory. *)
Definition manager_new (d : KvDisk) : Manager :=
  {| pm_disk := set_wal d (Some (default EmptyString (kd_wal d))); pm_wal_open := true;
     pm_pending := []; pm_next_sequence := sat_succ (scan_max_sequence (kd_snapshot d) (kd_wal d)) |}.

(** ** Logging *)

(** One record at the end of the log. *)
Definition write_operation (m : Manager) (env : KvEnv) (op : Operation) : Manager :=
  let r := kv_record_new (ke_now env) (pm_next_sequence m) op in
  let d := pm_disk m in
  set_sequence
    (set_disk m (set_wal d (Some (append_text (ke_fault env) (default EmptyString (kd_wal d)) (kv_line r)))))
    (fetch_add (pm_next_sequence m)).

Definition log_operation_async (m : Manager) (op : Operation) : Manager :=
  set_pending m (pm_pending m ++ [op]).

(** [log_operation_sync]: without an open file it logs nothing and succeeds. *)
Definition log_operation_sync (m : Manager) (env : KvEnv) (op : Operation) : Manager * outcome () :=
  if pm_wal_open m then
    (write_operation m env op,
     match ke_fault env with
     | WalOk => Ok ()
     | WalWriteFails _ => Err "Failed to write to WAL: fault"
     | WalSyncFails => Err "Failed to sync WAL: fault"
     end)
  else (m, Ok ()).

(** [flush]: the queue is taken first; an error ends the loop and what is left
    of the queue is dropped. *)
Fixpoint flush_operations (m : Manager) (env : KvEnv) (ops : list Operation) :
    Manager * outcome () :=
  match ops with
  | [] => (m, Ok ())
  | op :: ops =>
      match log_operation_sync m env op with
      | (m, Ok _) => flush_operations m (ke_next env) ops
      | (m, e) => (m, e)
      end
  end.
Definition flush (m : Manager) (env : KvEnv) : Manager * outcome () :=
  flush_operations (set_pending m []) env (pm_pending m).

(** One round of the background thread: the queue is taken; with an open file
    its operations are written and errors ignored. *)
Fixpoint write_operations (m : Manager) (env : KvEnv) (ops : list Operation) : Manager :=
  match ops with
  | [] => m
  | op :: ops => write_operations (write_operation m env op) (ke_next env) ops
  end.
Definition background_flush (m : Manager) (env : KvEnv) : Manager :=
  let ops := pm_pending m in
  let m := set_pending m [] in
  match ops with
  | [] => m
  | _ => if pm_wal_open m then write_operations m env ops else m
  end.

(** ** Recovery *)

(** The lines of an old snapshot: one operation each. *)
Fixpoint parse_operations (ls : list string) : outcome (list Operation) :=
  match ls with
  | [] => Ok []
  | l :: ls =>
      if bool_decide (trim l = EmptyString) then parse_operations ls
      else
        op ← ok_or (operation_from_json l) "Failed to parse operation: error";
        ops ← parse_operations ls; Ok (op :: ops)
  end.

Definition snapshot_operations (content : string) : outcome (list Operation) :=
  if negb (valid_utf8 content) then
    Err "Failed to open snapshot: stream did not contain valid UTF-8"
  else
    match kv_snapshot_from_json content with
    | Some s => Ok ((λ '(key, value), OpSet key value) <$> ks_entries s)
    | None => parse_operations (lines content)
    end.

(** The log: a record with a wrong checksum ends it, a line that is neither a
    record nor an operation is skipped. *)
Fixpoint wal_operations (ls : list string) : outcome (list Operation) :=
  match ls with
  | [] => Ok []
  | l :: ls =>
      if negb (valid_utf8 l) then Err "Failed to read line: stream did not contain valid UTF-8"
      else if bool_decide (trim l = EmptyString) then wal_operations ls
      else
        match kv_record_from_json l with
        | Some r =>
            if kv_record_valid r then ops ← wal_operations ls; Ok (kr_operation r :: ops) else Ok []
        | None =>
            match operation_from_json l with
            | Some op => ops ← wal_operations ls; Ok (op :: ops)
            | None => wal_operations ls
            end
        end
  end.

Definition recover (d : KvDisk) : outcome (list Operation) :=
  base ← match kd_snapshot d with Some content => snapshot_operations content | None => Ok [] end;
  logged ← match kd_wal d with Some content => wal_operations (lines content) | None => Ok [] end;
  Ok (base ++ logged).

(** ** Snapshots *)

Definition current_sequence (m : Manager) : N := pm_next_sequence m - 1.

Definition publish (d : KvDisk) (s : KvSnapshot) : KvDisk :=
  {| kd_snapshot := Some (kv_snapshot_to_json s); kd_wal := kd_wal d; kd_archive := kd_archive d |}.
(** A log that is not empty moves to the archive. *)
Definition archive (d : KvDisk) : KvDisk :=
  match kd_wal d with
  | Some wal =>
      if bool_decide (wal = EmptyString) then d
      else {| kd_snapshot := kd_snapshot d; kd_wal := None; kd_archive := kd_archive d ++ [wal] |}
  | None => d
  end.

Definition create_snapshot (m : Manager) (env : KvEnv) (data : list (string * string)) :
    Manager * outcome () :=
  match flush m env with
  | (m, Ok _) =>
      let snapshot := {| ks_format_version := KV_FORMAT_VERSION; ks_sequence := current_sequence m;
                         ks_timestamp_millis := ke_now env; ks_entries := data |} in
      let published := set_wal_open (set_disk m (publish (pm_disk m) snapshot)) false in
      let archived := set_disk published (archive (pm_disk published)) in
      match ke_snapshot env with
      | FailsBeforePublish => (m, Err "Failed to rename snapshot: fault")
      | FailsBeforeArchive => (published, Err "Failed to archive KV WAL: fault")
      | FailsBeforeReopen => (archived, Err "Failed to reopen WAL: fault")
      | SnapshotOk =>
          (set_wal_open (set_disk archived (set_wal (pm_disk archived)
             (Some (default EmptyString (kd_wal (pm_disk archived)))))) true, Ok ())
      end
  | (m, e) => (m, e)
  end.

Definition wal_size (m : Manager) : nat :=
  match kd_wal (pm_disk m) with Some wal => String.length wal | None => 0%nat end.

(** [shutdown]: the background thread ends and the queue is flushed.  [Drop]
    does the same and ignores the error. *)
Definition shutdown (m : Manager) (env : KvEnv) : Manager * outcome () := flush m env.
Definition manager_drop (m : Manager) (env : KvEnv) : KvDisk := pm_disk (flush m env).1.
End persistence.
