(* ===== verification/KvStore.v ===== *)
(** * KvStore.v: the key-value store (src/kvstore.rs)

    A concurrent map with an optional persistence manager.  A write is logged
    before the map changes.  The operations are functions on the store; each
    write of the source takes the manager's lock for the logging and releases
    it before it touches the map, which is why the interleavings of KvCrash.v are
    separate. *)

From S2P Require Import Prelude Machine Str Log Persistence.

Record KVStore := { kv_data : gmap string string; kv_persistence : option Manager }.

Definition with_data (s : KVStore) (m : gmap string string) : KVStore :=
  {| kv_data := m; kv_persistence := kv_persistence s |}.
Definition with_manager (s : KVStore) (m : Manager) : KVStore :=
  {| kv_data := kv_data s; kv_persistence := Some m |}.

Definition apply_operation (m : gmap string string) (op : Operation) : gmap string string :=
  match op with
  | OpSet key value => <[key := value]> m
  | OpDelete key => delete key m
  | OpClear => ∅
  end.
Definition apply_operations (m : gmap string string) (ops : list Operation) : gmap string string :=
  foldl apply_operation m ops.

(** [DashMap::iter]: every entry once, in some order. *)
Class DashIter := {
  dash_iter : gmap string string → list (string * string);
  dash_iter_perm : ∀ m, dash_iter m ≡ₚ map_to_list m;
}.

Section store.
Context `{KvFormat} `{DashIter}.

(** [KVStore::new], in memory. *)
Definition kv_new : KVStore := {| kv_data := ∅; kv_persistence := None |}.

(** [KVStore::recover]: what the manager recovers is applied to the map. *)
Definition kv_recover (s : KVStore) : outcome KVStore :=
  match kv_persistence s with
  | Some m =>
      ops ← recover (pm_disk m);
      Ok (with_data s (apply_operations (kv_data s) ops))
  | None => Ok s
  end.

(** [with_persistence] and [open]. *)
Definition with_persistence (d : KvDisk) : outcome KVStore :=
  kv_recover {| kv_data := ∅; kv_persistence := Some (manager_new d) |}.

(** Logging first: an error leaves the map as it was. *)
Definition log_sync (s : KVStore) (env : KvEnv) (op : Operation) : KVStore * outcome () :=
  match kv_persistence s with
  | Some m => let '(m, r) := log_operation_sync m env op in (with_manager s m, r)
  | None => (s, Ok ())
  end.

Definition kv_set (s : KVStore) (env : KvEnv) (key value : string) : KVStore * outcome () :=
  match log_sync s env (OpSet key value) with
  | (s, Ok _) => (with_data s (<[key := value]> (kv_data s)), Ok ())
  | (s, e) => (s, e)
  end.

Definition kv_set_async (s : KVStore) (key value : string) : KVStore :=
  let s := match kv_persistence s with
           | Some m => with_manager s (log_operation_async m (OpSet key value))
           | None => s
           end in
  with_data s (<[key := value]> (kv_data s)).

Definition kv_get (s : KVStore) (key : string) : option string := kv_data s !! key.

Definition kv_get_many (s : KVStore) (keys : list string) : list (string * string) :=
  omap (λ key, v ← kv_data s !! key; Some (key, v)) keys.

Fixpoint kv_set_many_from (s : KVStore) (env : KvEnv) (pairs : list (string * string)) :
    KVStore * outcome () :=
  match pairs with
  | [] => (s, Ok ())
  | (key, value) :: pairs =>
      match kv_set s env key value with
      | (s, Ok _) => kv_set_many_from s (ke_next env) pairs
      | (s, e) => (s, e)
      end
  end.
Definition kv_set_many (s : KVStore) (env : KvEnv) (pairs : list (string * string)) :
    KVStore * outcome nat :=
  let '(s, r) := kv_set_many_from s env pairs in (s, _ ← r; Ok (length pairs)).

Definition kv_delete (s : KVStore) (env : KvEnv) (key : string) : KVStore * outcome bool :=
  match log_sync s env (OpDelete key) with
  | (s, Ok _) => (with_data s (delete key (kv_data s)), Ok (bool_decide (is_Some (kv_data s !! key))))
  | (s, Err e) => (s, Err e)
  | (s, Panic) => (s, Panic)
  end.

Definition kv_len (s : KVStore) : nat := size (kv_data s).
Definition kv_is_empty (s : KVStore) : bool := bool_decide (kv_data s = ∅).

Definition kv_clear (s : KVStore) (env : KvEnv) : KVStore * outcome () :=
  match log_sync s env OpClear with
  | (s, Ok _) => (with_data s ∅, Ok ())
  | (s, e) => (s, e)
  end.

Definition kv_snapshot (s : KVStore) (env : KvEnv) : KVStore * outcome () :=
  match kv_persistence s with
  | Some m =>
      let '(m, r) := create_snapshot m env (dash_iter (kv_data s)) in (with_manager s m, r)
  | None => (s, Ok ())
  end.

Definition kv_wal_size (s : KVStore) : nat :=
  match kv_persistence s with Some m => wal_size m | None => 0 end.
Definition kv_current_sequence (s : KVStore) : N :=
  match kv_persistence s with Some m => current_sequence m | None => 0%N end.

Definition kv_flush (s : KVStore) (env : KvEnv) : KVStore * outcome () :=
  match kv_persistence s with
  | Some m => let '(m, r) := flush m env in (with_manager s m, r)
  | None => (s, Ok ())
  end.

(** A round of the manager's background thread. *)
Definition kv_background (s : KVStore) (env : KvEnv) : KVStore :=
  match kv_persistence s with
  | Some m => with_manager s (background_flush m env)
  | None => s
  end.
End store.

(** ** Operations on the map *)

(** The effect of a sequence of operations on one key: the last one that
    touches it decides; a key that none touches keeps its value. *)
Definition touches (key : string) (op : Operation) : bool :=
  match op with
  | OpSet k _ | OpDelete k => bool_decide (k = key)
  | OpClear => true
  end.
Definition outcome_of (op : Operation) : option string :=
  match op with OpSet _ value => Some value | _ => None end.

Lemma apply_operation_lookup m op key :
  apply_operation m op !! key = if touches key op then outcome_of op else m !! key.
Proof.
  destruct op as [k v|k|]; cbn; [case_bool_decide; subst; by simplify_map_eq..|apply lookup_empty].
Qed.

Lemma apply_operations_snoc m ops op :
  apply_operations m (ops ++ [op]) = apply_operation (apply_operations m ops) op.
Proof. unfold apply_operations. by rewrite foldl_app. Qed.

Lemma apply_operations_app m ops ops' :
  apply_operations m (ops ++ ops') = apply_operations (apply_operations m ops) ops'.
Proof. unfold apply_operations. by rewrite foldl_app. Qed.

Lemma apply_operations_lookup ops m key :
  apply_operations m ops !! key =
    match last (filter (λ op, touches key op = true) ops) with
    | Some op => outcome_of op
    | None => m !! key
    end.
Proof.
  induction ops as [|op ops IH] using rev_ind; [done|].
  rewrite apply_operations_snoc, apply_operation_lookup, filter_app.
  destruct (touches key op) eqn:E.
  - rewrite filter_cons_True, filter_nil by done. by rewrite last_snoc.
  - rewrite filter_cons_False by congruence. by rewrite filter_nil, app_nil_r.
Qed.

(** Applying the operations again changes nothing. *)
Lemma apply_operations_idemp m ops :
  apply_operations (apply_operations m ops) ops = apply_operations m ops.
Proof.
  apply map_eq. intros key. rewrite !apply_operations_lookup. by case_match.
Qed.

(** The entries of a map, set one by one, are the map. *)
Lemma apply_entries m l :
  NoDup l.*1 → apply_operations m ((λ '(key, value), OpSet key value) <$> l) = list_to_map l ∪ m.
Proof.
  revert m. induction l as [|[k v] l IH]; intros m Hl; [by rewrite list_to_map_nil, (left_id_L ∅ (∪))|].
  apply NoDup_cons in Hl as [Hk Hl]. rewrite fmap_cons.
  change (apply_operations m (?op :: ?ops)) with (apply_operations (apply_operation m op) ops).
  rewrite IH by done. cbn [apply_operation list_to_map foldr]. cbn.
  rewrite <-insert_union_r by by apply not_elem_of_list_to_map_1. by rewrite insert_union_l.
Qed.
