(* ===== verification/KvDurable.v ===== *)
(** * KvDurable.v: what the files of the key-value store hold

    The map a snapshot and a log stand for, what opening the files gives, and
    how logging, flushing and snapshots change it when the disk does not
    fail. *)

From S2P Require Import Prelude Machine Str Log Persistence KvStore.

(** ** What the files hold *)

Section durability.
Context `{KvFormat} `{DashIter}.

(** Records this program wrote, numbered from [b + 1] on. *)
Definition kv_log (b : N) (rs : list KvWalRecord) : Prop :=
  ∀ i r, rs !! i = Some r → kv_record_valid r = true ∧ kr_sequence r = (b + N.of_nat i + 1)%N.

Definition kv_log_text (rs : list KvWalRecord) : string := text_lines (kv_record_to_json <$> rs).

(** The snapshot file: absent, or the entries of a map with the last sequence
    number it covers. *)
Inductive snapshot_holds : option string → N → gmap string string → Prop :=
| holds_nothing : snapshot_holds None 0 ∅
| holds_entries now b entries : NoDup entries.*1 →
    snapshot_holds (Some (kv_snapshot_to_json {| ks_format_version := KV_FORMAT_VERSION;
      ks_sequence := b; ks_timestamp_millis := now; ks_entries := entries |})) b (list_to_map entries).

(** The files hold a map [base] and the operations [rs] on top of it. *)
Definition disk_holds (d : KvDisk) (b : N) (base : gmap string string) (rs : list KvWalRecord) : Prop :=
  snapshot_holds (kd_snapshot d) b base ∧ kv_log b rs ∧ default EmptyString (kd_wal d) = kv_log_text rs.

(** What opening the files gives. *)
Definition recovered (d : KvDisk) : outcome (gmap string string) :=
  ops ← recover d; Ok (apply_operations ∅ ops).

Lemma kv_log_nil b : kv_log b [].
Proof. by intros i r ?. Qed.

Lemma kv_log_snoc b rs now op :
  kv_log b rs → kv_log b (rs ++ [kv_record_new now (b + N.of_nat (length rs) + 1) op]).
Proof.
  intros Hl i r [Hi|[Hlt Hi]]%lookup_app_Some; [by apply Hl|].
  destruct (i - length rs) as [|k] eqn:E; [|by destruct k]. injection Hi as <-.
  unfold kv_record_valid. cbn. rewrite !bool_decide_eq_true_2 by done. split; [done|]. lia.
Qed.

Lemma kv_lines_log rs tail :
  lines (kv_log_text rs +:+ tail) = (kv_record_to_json <$> rs) ++ lines tail.
Proof. apply lines_text. apply Forall_fmap, Forall_true. intros r. apply kv_record_json_line. Qed.

Lemma wal_operations_records rs ls :
  Forall (λ r, kv_record_valid r = true) rs →
  wal_operations ((kv_record_to_json <$> rs) ++ ls) =
    (ops ← wal_operations ls; Ok ((kr_operation <$> rs) ++ ops)).
Proof.
  induction 1 as [|r rs Hr _ IH]; [rewrite !fmap_nil; cbn [app]; by destruct (wal_operations ls)|].
  rewrite fmap_cons. cbn [app wal_operations]. destruct (kv_record_json_line r) as (_ & Hu & Hb).
  rewrite Hu. cbn [negb]. rewrite bool_decide_eq_false_2 by done.
  rewrite kv_record_json_roundtrip, Hr, IH. by destruct (wal_operations ls).
Qed.

Lemma kv_log_valid b rs : kv_log b rs → Forall (λ r, kv_record_valid r = true) rs.
Proof. intros Hl. apply Forall_lookup. intros i r Hi. by apply (Hl i r). Qed.

Lemma snapshot_recovers content b base :
  snapshot_holds content b base →
  ∃ ops, match content with Some c => snapshot_operations c | None => Ok [] end = Ok ops ∧
    apply_operations ∅ ops = base.
Proof.
  destruct 1 as [|now b entries Hnd]; [by exists []|]. eexists. split.
  - unfold snapshot_operations. rewrite kv_snapshot_json_utf8. cbn [negb].
    rewrite kv_snapshot_json_roundtrip. reflexivity.
  - cbn [ks_entries]. rewrite apply_entries by done. by rewrite (right_id_L ∅ (∪)).
Qed.

(** Opening applies the logged operations to the map of the snapshot, and what
    can be read of the text behind them. *)
Lemma recovered_log snapshot wal archived b b' base rs tail :
  snapshot_holds snapshot b base → kv_log b' rs → wal = kv_log_text rs +:+ tail →
  recovered {| kd_snapshot := snapshot; kd_wal := Some wal; kd_archive := archived |} =
    (ops ← wal_operations (lines tail);
     Ok (apply_operations (apply_operations base (kr_operation <$> rs)) ops)).
Proof.
  intros Hs Hl ->. unfold recovered, recover. cbn [kd_snapshot kd_wal].
  destruct (snapshot_recovers _ _ _ Hs) as (ops & -> & Hops). cbn [mbind outcome_bind].
  rewrite kv_lines_log, wal_operations_records by by eapply kv_log_valid.
  destruct (wal_operations (lines tail)) as [ops'|e|]; cbn [mbind outcome_bind]; [|done..].
  by rewrite !apply_operations_app, Hops.
Qed.

Lemma recovered_holds d b base rs :
  disk_holds d b base rs → recovered d = Ok (apply_operations base (kr_operation <$> rs)).
Proof.
  destruct d as [snapshot wal archived]. intros (Hs & Hl & Hw). cbn in Hw.
  transitivity (recovered {| kd_snapshot := snapshot; kd_wal := Some (default EmptyString wal);
    kd_archive := archived |}); [by destruct wal|].
  by rewrite (recovered_log _ _ _ b b base rs EmptyString) by (try done; by rewrite append_empty_r).
Qed.

(** A snapshot without its log, as between archiving and reopening. *)
Lemma recovered_snapshot snapshot archived b base :
  snapshot_holds snapshot b base →
  recovered {| kd_snapshot := snapshot; kd_wal := None; kd_archive := archived |} = Ok base.
Proof.
  intros Hs. unfold recovered, recover. cbn [kd_snapshot kd_wal].
  destruct (snapshot_recovers _ _ _ Hs) as (ops & -> & Hops). cbn. by rewrite app_nil_r, Hops.
Qed.

(** What a crash leaves of a record: nothing that is read, a tail that is not
    text, or, when only the line end is missing, the record. *)
Lemma cut_record_operations r n :
  n < String.length (kv_line r) → kv_record_valid r = true →
  wal_operations (lines (String.substring 0 n (kv_line r))) =
    if bool_decide (n = String.length (kv_record_to_json r)) then Ok [kr_operation r]
    else if valid_utf8 (String.substring 0 n (kv_record_to_json r)) then Ok []
    else Err "Failed to read line: stream did not contain valid UTF-8".
Proof.
  intros Hn Hr. unfold kv_line in Hn. rewrite append_length in Hn. cbn [String.length] in Hn.
  destruct (kv_record_json_line r) as (Hc & Hu & Hb). unfold kv_line. rewrite substring_short by lia.
  rewrite lines_last by by apply no_control_substring.
  destruct (decide (n = String.length (kv_record_to_json r))) as [->|Hfull].
  - rewrite (bool_decide_eq_true_2 (_ = String.length _)) by done.
    assert (String.substring 0 (String.length (kv_record_to_json r)) (kv_record_to_json r)
      = kv_record_to_json r) as ->.
    { rewrite <-(append_empty_r (kv_record_to_json r)) at 2 3.
      by rewrite substring_full, Nat.sub_diag by done. }
    rewrite bool_decide_eq_false_2 by (intros He; by rewrite He in Hb). cbn [wal_operations].
    rewrite Hu, bool_decide_eq_false_2 by done. cbn [negb]. by rewrite kv_record_json_roundtrip, Hr.
  - rewrite (bool_decide_eq_false_2 (n = _)) by done.
    destruct (kv_record_json_prefix r n) as [Hp Ho]; [lia|].
    set (tail := String.substring 0 n _) in *. case_bool_decide as He; [by rewrite He|].
    cbn [wal_operations]. destruct (valid_utf8 tail); [|done]. cbn [negb].
    case_bool_decide; [done|]. by rewrite Hp, Ho.
Qed.

(** ** Histories without faults *)

Definition fault_free (env : KvEnv) : Prop :=
  Forall (λ f, f = WalOk) (ke_faults env) ∧ ke_snapshot env = SnapshotOk.

Lemma fault_free_head env : fault_free env → ke_fault env = WalOk.
Proof. intros [Hf _]. unfold ke_fault. by destruct Hf. Qed.
Lemma fault_free_next env : fault_free env → fault_free (ke_next env).
Proof. intros [Hf Hs]. split; [|done]. cbn. by destruct Hf. Qed.

(** A manager whose files hold [base] and [rs], with room for [n] records. *)
Record manager_holds (m : Manager) (n : nat) b base rs : Prop := {
  mh_open : pm_wal_open m = true;
  mh_disk : disk_holds (pm_disk m) b base rs;
  mh_next : pm_next_sequence m = (b + N.of_nat (length rs) + 1)%N;
  mh_room : (pm_next_sequence m + N.of_nat n < 2 ^ 64)%N;
}.

Lemma manager_holds_pending m n b base rs ops :
  manager_holds m n b base rs → manager_holds (set_pending m ops) n b base rs.
Proof. by intros []. Qed.

Lemma write_operation_holds m env op n b base rs :
  fault_free env → manager_holds m (S n) b base rs →
  ∃ r, kr_operation r = op ∧ manager_holds (write_operation m env op) n b base (rs ++ [r]) ∧
    pm_pending (write_operation m env op) = pm_pending m.
Proof.
  intros He [Ho (Hs & Hl & Hw) Hn Hroom].
  exists (kv_record_new (ke_now env) (pm_next_sequence m) op). split; [done|]. split; [|done].
  split; unfold write_operation, set_sequence, set_disk, set_wal; cbn [pm_wal_open pm_disk pm_next_sequence].
  - done.
  - rewrite (fault_free_head env He). split; [done|]. rewrite Hn. split; [by apply kv_log_snoc|].
    cbn [kd_wal append_text]. rewrite Hw. cbn [default from_option id].
    unfold kv_log_text. rewrite fmap_app. cbn [fmap list_fmap]. by rewrite text_lines_snoc.
  - unfold fetch_add. rewrite N.mod_small by lia. rewrite length_app. cbn. lia.
  - unfold fetch_add. rewrite N.mod_small by lia. lia.
Qed.

Lemma write_operations_holds ops : ∀ m env n b base rs,
  fault_free env → manager_holds m (length ops + n) b base rs →
  ∃ rs', kr_operation <$> rs' = ops ∧ manager_holds (write_operations m env ops) n b base (rs ++ rs') ∧
    pm_pending (write_operations m env ops) = pm_pending m.
Proof.
  induction ops as [|op ops IH]; intros m env n b base rs He Hm.
  - exists []. by rewrite app_nil_r.
  - destruct (write_operation_holds m env op (length ops + n) b base rs He Hm) as (r & Hr & Hw & Hp).
    destruct (IH _ (ke_next env) n b base (rs ++ [r]) (fault_free_next _ He) Hw) as (rs' & Hrs & Hm' & Hp').
    exists (r :: rs'). rewrite fmap_cons, Hr, Hrs. split; [done|].
    rewrite <-app_assoc in Hm'. split; [exact Hm'|]. cbn [write_operations]. by rewrite Hp', Hp.
Qed.

Lemma log_sync_holds m env op n b base rs :
  fault_free env → manager_holds m n b base rs →
  log_operation_sync m env op = (write_operation m env op, Ok ()).
Proof.
  intros He Hm. unfold log_operation_sync. rewrite (mh_open _ _ _ _ _ Hm).
  by rewrite (fault_free_head env He).
Qed.

Lemma flush_operations_holds ops : ∀ m env n b base rs,
  fault_free env → manager_holds m (length ops + n) b base rs →
  flush_operations m env ops = (write_operations m env ops, Ok ()).
Proof.
  induction ops as [|op ops IH]; intros m env n b base rs He Hm; [done|]. cbn [flush_operations].
  rewrite (log_sync_holds _ _ _ _ _ _ _ He Hm).
  destruct (write_operation_holds m env op (length ops + n) b base rs He Hm) as (r & _ & Hw & _).
  by rewrite (IH _ _ n b base _ (fault_free_next _ He) Hw).
Qed.

Lemma flush_holds m env n b base rs :
  fault_free env → manager_holds m (length (pm_pending m) + n) b base rs →
  ∃ m' rs', flush m env = (m', Ok ()) ∧ kr_operation <$> rs' = pm_pending m ∧
    manager_holds m' n b base (rs ++ rs') ∧ pm_pending m' = [].
Proof.
  intros He Hm. apply (manager_holds_pending _ _ _ _ _ []) in Hm.
  destruct (write_operations_holds _ _ env n b base rs He Hm) as (rs' & Hrs & Hm' & Hp).
  exists (write_operations (set_pending m []) env (pm_pending m)), rs'.
  split; [|by split_and!]. unfold flush. by rewrite (flush_operations_holds _ _ _ n b base rs He Hm).
Qed.

(** Publishing a snapshot, archiving the log and starting a new one. *)
Lemma archive_wal d : default EmptyString (kd_wal (archive d)) = EmptyString.
Proof.
  destruct d as [snapshot [wal|] archived]; unfold archive; cbn [kd_wal]; [|done].
  by case_bool_decide as He; [rewrite He|].
Qed.

Lemma archive_snapshot d : kd_snapshot (archive d) = kd_snapshot d.
Proof. destruct d as [snapshot [wal|] archived]; unfold archive; cbn [kd_wal]; [by case_bool_decide|done]. Qed.

Definition taken (m : Manager) (now : N) (data : gmap string string) : KvSnapshot :=
  {| ks_format_version := KV_FORMAT_VERSION; ks_sequence := current_sequence m;
     ks_timestamp_millis := now; ks_entries := dash_iter data |}.

Lemma taken_holds m now data d :
  snapshot_holds (kd_snapshot (publish d (taken m now data))) (current_sequence m) data.
Proof.
  cbn [publish kd_snapshot]. unfold taken.
  replace data with (list_to_map (dash_iter data) : gmap string string) at 2.
  - constructor. rewrite dash_iter_perm. apply NoDup_fst_map_to_list.
  - rewrite (list_to_map_proper (dash_iter data) (map_to_list data)); [apply list_to_map_to_list| |apply dash_iter_perm].
    rewrite dash_iter_perm. apply NoDup_fst_map_to_list.
Qed.

Lemma create_snapshot_holds m env n b base rs data :
  fault_free env → manager_holds m (length (pm_pending m) + n) b base rs →
  ∃ m' b', create_snapshot m env (dash_iter data) = (m', Ok ()) ∧
    manager_holds m' n b' data [] ∧ pm_pending m' = [].
Proof.
  intros He Hm. destruct (flush_holds m env n b base rs He Hm) as (m1 & rs' & Hf & _ & Hm1 & Hp).
  unfold create_snapshot. rewrite Hf. destruct He as [_ ->].
  change {| ks_format_version := KV_FORMAT_VERSION; ks_sequence := current_sequence m1;
            ks_timestamp_millis := ke_now env; ks_entries := dash_iter data |}
    with (taken m1 (ke_now env) data).
  eexists _, (current_sequence m1). split; [reflexivity|]. split; [|done].
  destruct Hm1 as [Ho _ Hn Hroom].
  split; cbn [pm_wal_open pm_disk pm_next_sequence set_wal_open set_disk].
  - done.
  - split; [|split; [apply kv_log_nil|exact (archive_wal _)]].
    cbn [set_wal kd_snapshot]. rewrite archive_snapshot. apply taken_holds.
  - unfold current_sequence. cbn. lia.
  - done.
Qed.

(** ** The store invariant *)

(** The map is what the files hold with the queued operations on top. *)
Definition store_ok (s : KVStore) (n : nat) : Prop :=
  ∃ m b base rs, kv_persistence s = Some m ∧ manager_holds m (length (pm_pending m) + n) b base rs ∧
    apply_operations base ((kr_operation <$> rs) ++ pm_pending m) = kv_data s.

Definition queue_empty (s : KVStore) : Prop :=
  match kv_persistence s with Some m => pm_pending m = [] | None => True end.

(** A logged write takes one number and keeps the invariant. *)
Lemma log_sync_ok s env op n :
  fault_free env → queue_empty s → store_ok s (S n) →
  ∃ s', log_sync s env op = (s', Ok ()) ∧ kv_data s' = kv_data s ∧ queue_empty s' ∧
    store_ok (with_data s' (apply_operation (kv_data s) op)) n.
Proof.
  intros He Hq (m & b & base & rs & Hm & Hh & Hd). unfold queue_empty in Hq. rewrite Hm in Hq.
  rewrite Hq in Hh, Hd. cbn [length Nat.add] in Hh.
  destruct (write_operation_holds m env op n b base rs He Hh) as (r & Hr & Hw & Hp).
  unfold log_sync. rewrite Hm, (log_sync_holds _ _ _ _ _ _ _ He Hh).
  eexists. split; [reflexivity|]. split; [done|].
  split; [unfold queue_empty; cbn [kv_persistence with_manager]; by rewrite Hp|].
  exists (write_operation m env op), b, base, (rs ++ [r]). split; [done|].
  rewrite Hp, Hq. split; [exact Hw|]. cbn [kv_data with_data].
  rewrite app_nil_r in Hd |- *. rewrite fmap_app. cbn [fmap list_fmap].
  by rewrite Hr, apply_operations_snoc, Hd.
Qed.

Lemma store_ok_mono s n : store_ok s (S n) → store_ok s n.
Proof.
  intros (m & b & base & rs & Hm & [Ho Hdisk Hn Hroom] & Hd). exists m, b, base, rs.
  split; [done|]. split; [|done]. split; [done|done|done|lia].
Qed.

(** Queueing takes no number until the queue is written. *)
Lemma set_async_ok s key value n :
  store_ok s (S n) → store_ok (kv_set_async s key value) n.
Proof.
  intros (m & b & base & rs & Hm & [Ho Hdisk Hn Hroom] & Hd). unfold kv_set_async. rewrite Hm.
  exists (log_operation_async m (OpSet key value)), b, base, rs. split; [done|].
  split; [split; [done|done|done|]|]; cbn [log_operation_async set_pending pm_pending pm_next_sequence].
  - rewrite length_app. cbn [length]. lia.
  - by rewrite app_assoc, apply_operations_snoc, Hd.
Qed.

Lemma flush_ok s env n :
  fault_free env → store_ok s n →
  ∃ s', kv_flush s env = (s', Ok ()) ∧ kv_data s' = kv_data s ∧ queue_empty s' ∧ store_ok s' n.
Proof.
  intros He (m & b & base & rs & Hm & Hh & Hd). unfold kv_flush. rewrite Hm.
  destruct (flush_holds m env n b base rs He Hh) as (m' & rs' & -> & Hrs & Hh' & Hp).
  eexists. split; [reflexivity|]. split; [done|]. split; [done|].
  exists m', b, base, (rs ++ rs'). rewrite Hp.
  split; [done|]. split; [done|]. by rewrite app_nil_r, fmap_app, Hrs.
Qed.

Lemma background_flush_writes m env :
  pm_wal_open m = true → background_flush m env = write_operations (set_pending m []) env (pm_pending m).
Proof.
  intros Ho. unfold background_flush. destruct (pm_pending m); [done|].
  cbn [set_pending pm_wal_open]. by rewrite Ho.
Qed.

Lemma background_ok s env n :
  fault_free env → store_ok s n →
  kv_data (kv_background s env) = kv_data s ∧ queue_empty (kv_background s env) ∧
  store_ok (kv_background s env) n.
Proof.
  intros He (m & b & base & rs & Hm & Hh & Hd). unfold kv_background. rewrite Hm.
  rewrite background_flush_writes by by eapply mh_open.
  apply (manager_holds_pending _ _ _ _ _ []) in Hh.
  destruct (write_operations_holds (pm_pending m) _ env n b base rs He Hh) as (rs' & Hrs & Hh' & Hp).
  split; [done|]. split; [done|]. eexists _, b, base, (rs ++ rs'). split; [reflexivity|].
  rewrite Hp. split; [exact Hh'|]. cbn [set_pending pm_pending].
  by rewrite app_nil_r, fmap_app, Hrs.
Qed.

Lemma snapshot_ok s env n :
  fault_free env → store_ok s n →
  ∃ s', kv_snapshot s env = (s', Ok ()) ∧ kv_data s' = kv_data s ∧ queue_empty s' ∧ store_ok s' n.
Proof.
  intros He (m & b & base & rs & Hm & Hh & Hd). unfold kv_snapshot. rewrite Hm.
  destruct (create_snapshot_holds m env n b base rs (kv_data s) He Hh) as (m' & b' & -> & Hh' & Hp).
  eexists. split; [reflexivity|]. split; [done|]. split; [done|].
  exists m', b', (kv_data s), []. by rewrite Hp.
Qed.

(** ** Opening *)

Lemma text_prefix_all ls : Forall (λ l, valid_utf8 l = true) ls → text_prefix ls = ls.
Proof. induction 1 as [|l ls Hl _ IH]; [done|]. cbn. by rewrite Hl, IH. Qed.

Lemma max_sequence_log b rs :
  kv_log b rs → N.max b (max_sequence (kr_sequence <$> rs)) = (b + N.of_nat (length rs))%N.
Proof.
  induction rs as [|r rs IH] using rev_ind; intros Hl; [cbn; lia|].
  assert (kv_log b rs) as Hl'.
  { intros i x Hi. apply (Hl i x). by apply lookup_app_l_Some. }
  destruct (Hl (length rs) r) as [_ Hr]; [by apply list_lookup_middle|].
  assert (∀ l k, max_sequence (l ++ [k]) = N.max (max_sequence l) k) as Hsnoc.
  { induction l as [|x l IHl]; intros k; unfold max_sequence in *; cbn [app foldr]; [lia|].
    rewrite IHl. lia. }
  rewrite fmap_app. cbn [fmap list_fmap].
  rewrite Hsnoc, N.max_assoc, (IH Hl'), length_app, Hr. cbn [length]. lia.
Qed.

Lemma snapshot_sequence_holds content b base :
  snapshot_holds content b base →
  default 0%N (content ← content;
    if valid_utf8 content then ks_sequence <$> kv_snapshot_from_json content else None) = b.
Proof.
  destruct 1 as [|now b entries _]; [done|]. cbn [mbind option_bind].
  by rewrite kv_snapshot_json_utf8, kv_snapshot_json_roundtrip.
Qed.

Lemma scan_max_sequence_holds d b base rs :
  disk_holds d b base rs → scan_max_sequence (kd_snapshot d) (kd_wal d) = (b + N.of_nat (length rs))%N.
Proof.
  intros (Hs & Hl & Hw). transitivity (scan_max_sequence (kd_snapshot d) (Some (default EmptyString (kd_wal d))));
    [by destruct (kd_wal d)|].
  unfold scan_max_sequence. rewrite Hw, (snapshot_sequence_holds _ _ _ Hs).
  cbn [mbind option_bind].
  assert (lines (kv_log_text rs) = kv_record_to_json <$> rs) as ->.
  { rewrite <-(append_empty_r (kv_log_text rs)), kv_lines_log. by rewrite app_nil_r. }
  rewrite text_prefix_all by (apply Forall_fmap, Forall_true; intros r; apply kv_record_json_line).
  assert (omap valid_record (kv_record_to_json <$> rs) = rs) as ->.
  { pose proof (kv_log_valid _ _ Hl) as Hv. clear Hl Hw. induction Hv as [|r rs Hr _ IH]; [done|].
    rewrite fmap_cons. cbn [omap list_omap]. unfold valid_record at 1. rewrite kv_record_json_roundtrip.
    cbn [mbind option_bind]. rewrite Hr. by f_equal. }
  exact (max_sequence_log b rs Hl).
Qed.

(** Opening files that hold a map gives a store with that map. *)
Lemma open_ok d b base rs n :
  disk_holds d b base rs → (b + N.of_nat (length rs) + 1 + N.of_nat n < 2 ^ 64)%N →
  ∃ s, with_persistence d = Ok s ∧ store_ok s n ∧ queue_empty s ∧
    kv_data s = apply_operations base (kr_operation <$> rs).
Proof.
  intros Hd Hn. pose proof (recovered_holds d b base rs Hd) as Hr. unfold recovered in Hr.
  assert (disk_holds (pm_disk (manager_new d)) b base rs) as Hdisk by exact Hd.
  assert (recover (pm_disk (manager_new d)) = recover d) as Hrec by by destruct d as [? [wal|] ?].
  unfold with_persistence, kv_recover. cbn [kv_persistence]. rewrite Hrec.
  apply bind_Ok in Hr as (ops & -> & [= Hr]). cbn [mbind outcome_bind].
  eexists. split; [reflexivity|]. split; [|by split].
  exists (manager_new d), b, base, rs. split; [done|]. split; [|cbn; by rewrite app_nil_r].
  split; [done|done| |]; cbn [manager_new pm_next_sequence pm_pending length];
    rewrite (scan_max_sequence_holds d b base rs Hd); unfold sat_succ, u64_max; lia.
Qed.
End durability.
