(* ===== verification/KvConcrete.v ===== *)
(** * KvConcrete.v: a concrete format for the log of the key-value store

    Records, operations and snapshots as a tag, the bits of a number and a full
    stop.  It satisfies the laws of the format class, so the theorems over it
    apply to running examples. *)

From Stdlib Require Import Ascii.
From stdpp Require Import countable.
From S2P Require Import Prelude Machine Str Log Coding Persistence KvStore.

(** ** The format *)

#[export] Instance Operation_countable : Countable Operation.
Proof.
  refine (inj_countable' (λ op, match op with OpSet k v => inl (k, v) | OpDelete k => inr (Some k) | OpClear => inr None end)
    (λ x, match x with inl (k, v) => OpSet k v | inr (Some k) => OpDelete k | inr None => OpClear end) _).
  by intros [].
Defined.
#[export] Instance KvWalRecord_eq_dec : EqDecision KvWalRecord.
Proof. solve_decision. Defined.
#[export] Instance KvWalRecord_countable : Countable KvWalRecord.
Proof.
  refine (inj_countable' (λ r, (kr_format_version r, kr_sequence r, kr_timestamp_millis r, kr_operation r, kr_checksum r))
    (λ '(a, b, c, d, e), {| kr_format_version := a; kr_sequence := b; kr_timestamp_millis := c;
       kr_operation := d; kr_checksum := e |}) _). by intros [].
Defined.
#[export] Instance KvSnapshot_eq_dec : EqDecision KvSnapshot.
Proof. solve_decision. Defined.
#[export] Instance KvSnapshot_countable : Countable KvSnapshot.
Proof.
  refine (inj_countable' (λ s, (ks_format_version s, ks_sequence s, ks_timestamp_millis s, ks_entries s))
    (λ '(a, b, c, d), {| ks_format_version := a; ks_sequence := b; ks_timestamp_millis := c; ks_entries := d |}) _).
  by intros [].
Defined.

#[export] Instance concrete_kv : KvFormat.
Proof.
  refine {| kv_crc32 := λ bytes, Z.to_N (foldr Z.add 0 bytes mod 2 ^ 32)%Z;
    operation_json := coded "O"; operation_from_json := decoded "O";
    kv_record_to_json := coded "R"; kv_record_from_json := decoded "R";
    kv_snapshot_to_json := coded "S"; kv_snapshot_from_json := decoded "S" |}.
  - intros r. apply decoded_coded.
  - intros r. by apply coded_line.
  - intros r n Hn. split; by apply decoded_prefix.
  - intros s. apply decoded_coded.
  - intros s. by apply coded_line.
Defined.

#[export] Instance concrete_dash : DashIter := {| dash_iter := map_to_list; dash_iter_perm := λ m, reflexivity _ |}.

(** An empty directory, and an environment without faults. *)
Definition empty_dir : KvDisk := {| kd_snapshot := None; kd_wal := None; kd_archive := [] |}.
Definition calm : KvEnv := {| ke_now := 1700000000000; ke_faults := []; ke_snapshot := SnapshotOk |}.
