(* ===== verification/KvCrash.v ===== *)
(** * KvCrash.v: the key-value store as a durable map

    The calls of the store against a plain map, and what a crash in the middle
    of a call leaves to be recovered. *)

From S2P Require Import Prelude Machine Str Log Persistence KvStore KvDurable KvConcrete.

(** ** Calls *)

Inductive KvCall :=
| CallSet (key value : string) | CallDelete (key : string) | CallClear
| CallGet (key : string) | CallLen | CallSetAsync (key value : string)
| CallFlush | CallBackground | CallSnapshot.
Inductive KvReply := ReplyUnit | ReplyBool (b : bool) | ReplyValue (v : option string) | ReplyNat (n : nat).

Section calls.
Context `{KvFormat} `{DashIter}.

Definition reply (x : KVStore * outcome ()) : KVStore * outcome KvReply :=
  (x.1, _ ← x.2; Ok ReplyUnit).

Definition kv_run (s : KVStore) (env : KvEnv) (call : KvCall) : KVStore * outcome KvReply :=
  match call with
  | CallSet key value => reply (kv_set s env key value)
  | CallDelete key => let '(s, r) := kv_delete s env key in (s, b ← r; Ok (ReplyBool b))
  | CallClear => reply (kv_clear s env)
  | CallGet key => (s, Ok (ReplyValue (kv_get s key)))
  | CallLen => (s, Ok (ReplyNat (kv_len s)))
  | CallSetAsync key value => (kv_set_async s key value, Ok ReplyUnit)
  | CallFlush => reply (kv_flush s env)
  | CallBackground => (kv_background s env, Ok ReplyUnit)
  | CallSnapshot => reply (kv_snapshot s env)
  end.

Fixpoint kv_run_all (s : KVStore) (calls : list (KvEnv * KvCall)) : KVStore * list (outcome KvReply) :=
  match calls with
  | [] => (s, [])
  | (env, call) :: calls =>
      let '(s, r) := kv_run s env call in
      let '(s, rs) := kv_run_all s calls in (s, r :: rs)
  end.

(** The same calls on a plain map. *)
Definition map_run (m : gmap string string) (call : KvCall) : gmap string string * KvReply :=
  match call with
  | CallSet key value | CallSetAsync key value => (<[key := value]> m, ReplyUnit)
  | CallDelete key => (delete key m, ReplyBool (bool_decide (is_Some (m !! key))))
  | CallClear => (∅, ReplyUnit)
  | CallGet key => (m, ReplyValue (m !! key))
  | CallLen => (m, ReplyNat (size m))
  | CallFlush | CallBackground | CallSnapshot => (m, ReplyUnit)
  end.
Fixpoint map_run_all (m : gmap string string) (calls : list KvCall) : gmap string string * list KvReply :=
  match calls with
  | [] => (m, [])
  | call :: calls =>
      let '(m, r) := map_run m call in
      let '(m, rs) := map_run_all m calls in (m, r :: rs)
  end.

(** A write that logs at once does not come after a queued one: it would
    overtake it.  [queued] says whether the queue may hold something. *)
Definition orderly_call (queued : bool) (call : KvCall) : option bool :=
  match call with
  | CallSet _ _ | CallDelete _ | CallClear => if queued then None else Some false
  | CallSetAsync _ _ => Some true
  | CallGet _ | CallLen => Some queued
  | CallFlush | CallBackground | CallSnapshot => Some false
  end.
Fixpoint queued_after (queued : bool) (calls : list KvCall) : option bool :=
  match calls with
  | [] => Some queued
  | call :: calls => queued ← orderly_call queued call; queued_after queued calls
  end.
Definition orderly (calls : list KvCall) : bool := bool_decide (is_Some (queued_after false calls)).


Definition queue_state (s : KVStore) (queued : bool) : Prop := queued = false → queue_empty s.

(** A call without faults answers as the map does and keeps the invariant;
    it uses up one sequence number at most. *)
#[local] Ltac replied := eexists; split; [reflexivity|]; split_and!; [done|done|first [done|by intros _]].

Lemma kv_run_ok s env call n queued queued' :
  fault_free env → store_ok s (S n) → queue_state s queued → orderly_call queued call = Some queued' →
  ∃ s', kv_run s env call = (s', Ok (map_run (kv_data s) call).2) ∧
    kv_data s' = (map_run (kv_data s) call).1 ∧ store_ok s' n ∧ queue_state s' queued'.
Proof.
  intros He Hs Hq Hord. pose proof (store_ok_mono _ _ Hs) as Hs0.
  destruct (flush_ok s env n He Hs0) as (sf & Hf).
  destruct (snapshot_ok s env n He Hs0) as (ss & Hsn).
  destruct (background_ok s env n He Hs0) as (Hbd & Hbq & Hbs).
  destruct call as [k v|k| |k| |k v| | |]; cbn [orderly_call kv_run map_run fst snd] in Hord |- *;
    try (destruct queued; [done|]); simplify_eq.
  - destruct (log_sync_ok s env (OpSet k v) n He (Hq eq_refl) Hs) as (s1 & Hl & Hd & Hq1 & Hok).
    unfold kv_set. rewrite Hl, Hd. replied.
  - destruct (log_sync_ok s env (OpDelete k) n He (Hq eq_refl) Hs) as (s1 & Hl & Hd & Hq1 & Hok).
    unfold kv_delete. rewrite Hl, Hd. replied.
  - destruct (log_sync_ok s env OpClear n He (Hq eq_refl) Hs) as (s1 & Hl & Hd & Hq1 & Hok).
    unfold kv_clear. rewrite Hl. replied.
  - replied.
  - replied.
  - eexists. split; [reflexivity|]. split; [unfold kv_set_async; by destruct (kv_persistence s)|].
    split; [by apply set_async_ok|intros Hf'; discriminate Hf'].
  - destruct Hf as (-> & Hd & Hq' & Hok). replied.
  - replied.
  - destruct Hsn as (-> & Hd & Hq' & Hok). replied.
Qed.

Lemma kv_run_all_ok calls : ∀ s n queued queued',
  Forall (λ x, fault_free x.1) calls → store_ok s (length calls + n) → queue_state s queued →
  queued_after queued calls.*2 = Some queued' →
  ∃ s', kv_run_all s calls = (s', Ok <$> (map_run_all (kv_data s) calls.*2).2) ∧
    kv_data s' = (map_run_all (kv_data s) calls.*2).1 ∧ store_ok s' n ∧ queue_state s' queued'.
Proof.
  induction calls as [|[env call] calls IH]; intros s n queued queued' Hf Hs Hq Hord;
    [injection Hord as <-; by exists s|].
  apply Forall_cons in Hf as [He Hf]. cbn [fmap list_fmap queued_after snd fst] in Hord |- *.
  destruct (orderly_call queued call) as [queued1|] eqn:Hcall; [|done].
  destruct (kv_run_ok s env call _ _ _ He Hs Hq Hcall) as (s1 & Hrun & Hd & Hs1 & Hq1).
  destruct (IH s1 n queued1 queued' Hf Hs1 Hq1 Hord) as (s2 & Hruns & Hd2 & Hs2).
  exists s2. cbn [kv_run_all map_run_all]. rewrite Hrun, Hruns. rewrite Hd in Hd2 |- *.
  destruct (map_run (kv_data s) call) as [m1 r1]. cbn [fst snd] in Hd2 |- *.
  destruct (map_run_all m1 _) as [m2 r2]. by cbn.
Qed.

(** ** Crashes *)













(** ** Theorems *)

(** What opening gives, as a store and as a map. *)
Lemma with_persistence_recovered d : (s ← with_persistence d; Ok (kv_data s)) = recovered d.
Proof.
  unfold with_persistence, kv_recover, recovered. cbn [kv_persistence].
  assert (recover (pm_disk (manager_new d)) = recover d) as -> by by destruct d as [? [wal|] ?].
  by destruct (recover d).
Qed.

Definition files (s : KVStore) : option KvDisk := pm_disk <$> kv_persistence s.

(** C16. The store over its files is a map: on a directory that holds a map, any
    sequence of calls in which no logged write comes after a queued one
    succeeds and answers as the calls on the plain map do; once the queue is
    flushed, the files, opened again, hold exactly the map in memory. *)
Theorem kv_refines_map d b base rs calls :
  disk_holds d b base rs → Forall (λ x, fault_free x.1) calls → orderly calls.*2 = true →
  (b + N.of_nat (length rs) + 1 + N.of_nat (length calls) < 2 ^ 64)%N →
  let m := apply_operations base (kr_operation <$> rs) in
  ∃ s0 s, with_persistence d = Ok s0 ∧ kv_data s0 = m ∧
    kv_run_all s0 calls = (s, Ok <$> (map_run_all m calls.*2).2) ∧
    kv_data s = (map_run_all m calls.*2).1 ∧
    ∀ env, fault_free env → ∃ s' d', kv_flush s env = (s', Ok ()) ∧ kv_data s' = kv_data s ∧
      files s' = Some d' ∧ recovered d' = Ok (kv_data s).
Proof.
  intros Hd Hf Hord Hroom m. destruct (open_ok d b base rs (length calls) Hd Hroom) as (s0 & Ho & Hs & Hq & Hm).
  rewrite <-(Nat.add_0_r (length calls)) in Hs.
  apply bool_decide_eq_true in Hord as [queued Hord].
  destruct (kv_run_all_ok calls s0 0 false queued Hf Hs (λ _, Hq) Hord) as (s & Hrun & Hdata & Hok & _).
  exists s0, s. unfold m. rewrite <-Hm. split_and!; [done..|]. intros env He.
  destruct (flush_ok s env 0 He Hok) as (s' & Hfl & Hds & Hqs & (m' & b' & base' & rs' & Hm' & Hh & Hd')).
  exists s', (pm_disk m'). split_and!; [done..|by unfold files; rewrite Hm'|].
  rewrite (recovered_holds _ b' base' rs') by by eapply mh_disk.
  unfold queue_empty in Hqs. rewrite Hm' in Hqs. rewrite Hqs, app_nil_r in Hd'. by rewrite Hd', Hds.
Qed.

End calls.

(** ** Witnesses *)

Definition some_calls : list (KvEnv * KvCall) :=
  (λ c, (calm, c)) <$> [CallSetAsync "a" "1"; CallBackground; CallSet "b" "2"; CallSnapshot;
                        CallDelete "a"; CallSetAsync "c" "3"; CallGet "a"; CallLen].

Lemma empty_dir_holds : disk_holds empty_dir 0 ∅ [].
Proof. split; [constructor|]. split; [apply kv_log_nil|done]. Qed.
Lemma calm_fault_free : fault_free calm.
Proof. by split. Qed.

Lemma kv_refines_map_witness :
  ∃ s0 s, with_persistence empty_dir = Ok s0 ∧
    (kv_run_all s0 some_calls).2 = [Ok ReplyUnit; Ok ReplyUnit; Ok ReplyUnit; Ok ReplyUnit;
      Ok (ReplyBool true); Ok ReplyUnit; Ok (ReplyValue None); Ok (ReplyNat 2)] ∧
    kv_data s = {["b" := "2"; "c" := "3"]}.
Proof.
  destruct (kv_refines_map empty_dir 0 ∅ [] some_calls) as (s0 & s & Ho & _ & Hrun & Hd & _).
  - apply empty_dir_holds.
  - apply Forall_fmap, Forall_true. intros c. apply calm_fault_free.
  - reflexivity.
  - reflexivity.
  - exists s0, s. split; [exact Ho|]. rewrite Hrun, Hd. split; vm_compute; reflexivity.
Defined.


