(* ===== verification/KvFaults.v ===== *)
(** * KvFaults.v: orders of calls and faults that lose writes

    What the key-value store does where the conditions of KvCrash.v fail: a
    logged write after a queued one, a snapshot between the logging and the
    change of the map, and faults of the disk. *)

From S2P Require Import Prelude Machine Str Log Persistence KvStore KvDurable KvConcrete.

Section faults.
Context `{KvFormat} `{DashIter}.

(** A log held by a store whose queue is empty, with one more record. *)
Lemma logged_recovers s env op n :
  fault_free env → queue_empty s → store_ok s (S n) →
  ∃ s' m, log_sync s env op = (s', Ok ()) ∧ kv_data s' = kv_data s ∧ kv_persistence s' = Some m ∧
    queue_empty s' ∧ recovered (pm_disk m) = Ok (apply_operation (kv_data s) op).
Proof.
  intros He Hq Hs. destruct (log_sync_ok s env op n He Hq Hs) as (s' & Hl & Hd & Hq' & m & b & base & rs & Hm & Hh & Ha).
  exists s', m. cbn [kv_persistence with_data] in Hm. split_and!; [done..|].
  unfold queue_empty in Hq'. rewrite Hm in Hq'. rewrite Hq', app_nil_r in Ha.
  rewrite (recovered_holds _ b base rs) by by eapply mh_disk. by rewrite Ha.
Qed.

(** A snapshot taken while a write is between its logging and the change of
    the map loses the write: the lock is released in between, the snapshot has
    the map without the key and the log with the record goes to the archive.
    The write is acknowledged, and is not there after reopening. *)
Theorem snapshot_loses_write s env env' key value n s1 s2 :
  fault_free env → fault_free env' → queue_empty s → store_ok s (S n) → kv_data s !! key = None →
  log_sync s env (OpSet key value) = (s1, Ok ()) → kv_snapshot s1 env' = (s2, Ok ()) →
  let s3 := with_data s2 (<[key := value]> (kv_data s2)) in
  kv_set s env key value = (with_data s1 (<[key := value]> (kv_data s1)), Ok ()) ∧
  kv_get s3 key = Some value ∧
  ∃ m, kv_persistence s3 = Some m ∧ pm_pending m = [] ∧ recovered (pm_disk m) = Ok (kv_data s).
Proof.
  intros He He' Hq Hs Hk Hlog Hsnap s3. split; [unfold kv_set; by rewrite Hlog|].
  split; [apply lookup_insert_eq|].
  destruct (log_sync_ok s env (OpSet key value) n He Hq Hs) as (s1' & Hl & Hd & Hq1 & m & b & base & rs & Hm & Hh & _).
  assert (s1' = s1) as -> by congruence. cbn [kv_persistence with_data] in Hm.
  unfold kv_snapshot in Hsnap. rewrite Hm in Hsnap.
  destruct (create_snapshot_holds m env' n b base rs (kv_data s1) He' Hh) as (m' & b' & Hc & Hh' & Hp).
  rewrite Hc in Hsnap. injection Hsnap as <-. exists m'. split; [done|]. split; [done|].
  rewrite (recovered_holds _ b' (kv_data s1) []) by by eapply mh_disk. by rewrite Hd.
Qed.

(** A queued write is logged after a later synchronous write of the same
    key: the map has the later value, and reopening gives the earlier one. *)
Theorem queued_write_overtaken s env key v1 v2 n :
  fault_free env → queue_empty s → store_ok s (S (S n)) →
  ∃ s' s'' m, kv_set (kv_set_async s key v1) env key v2 = (s', Ok ()) ∧
    kv_flush s' env = (s'', Ok ()) ∧ kv_get s'' key = Some v2 ∧ kv_persistence s'' = Some m ∧
    recovered (pm_disk m) = Ok (<[key := v1]> (kv_data s'')).
Proof.
  intros He Hq (m & b & base & rs & Hm & Hh & Hdata).
  unfold queue_empty in Hq. rewrite Hm in Hq. rewrite Hq in Hh, Hdata. rewrite app_nil_r in Hdata.
  cbn [length Nat.add] in Hh.
  set (queued := log_operation_async m (OpSet key v1)).
  assert (manager_holds queued (S (S n)) b base rs) as Hqd by exact (manager_holds_pending _ _ _ _ _ _ Hh).
  destruct (write_operation_holds queued env (OpSet key v2) (S n) b base rs He Hqd) as (r2 & Hr2 & H2 & Hp2).
  assert (pm_pending queued = [OpSet key v1]) as Hpq by (cbn; by rewrite Hq).
  rewrite Hpq in Hp2.
  destruct (flush_holds (write_operation queued env (OpSet key v2)) env n b base (rs ++ [r2]) He)
    as (m' & rs' & Hf & Hrs' & Hh' & _).
  { rewrite Hp2. exact H2. }
  unfold kv_set_async, kv_set, log_sync. rewrite Hm. cbn [with_data with_manager kv_persistence].
  fold queued. rewrite (log_sync_holds _ _ _ _ _ _ _ He Hqd).
  eexists _, _, m'. split; [reflexivity|]. unfold kv_flush. cbn [with_data with_manager kv_persistence].
  rewrite Hf. split; [reflexivity|]. split; [apply lookup_insert_eq|]. split; [done|].
  rewrite (recovered_holds _ b base _) by by eapply mh_disk.
  rewrite !fmap_app. cbn [fmap list_fmap]. rewrite Hr2, Hrs', Hp2.
  rewrite !apply_operations_snoc, Hdata. cbn [with_data with_manager kv_data apply_operation].
  f_equal. by rewrite !insert_insert_eq.
Qed.

Lemma flush_succeeds ops : ∀ m env,
  Forall (λ f, f = WalOk) (ke_faults env) → ∃ m', flush_operations m env ops = (m', Ok ()).
Proof.
  induction ops as [|op ops IH]; intros m env Hf; [by exists m|]. cbn [flush_operations].
  assert (ke_fault env = WalOk) as Hok by (unfold ke_fault; by destruct Hf).
  assert (∃ m', log_operation_sync m env op = (m', Ok ())) as [m' ->].
  { unfold log_operation_sync. rewrite Hok. destruct (pm_wal_open m); by eexists. }
  apply IH. cbn. by destruct Hf.
Qed.

(** A snapshot that fails once it is published leaves the store without a
    log file: every later write succeeds and changes nothing on disk. *)
Theorem failed_snapshot_stops_logging s m env env' key value s1 r :
  kv_persistence s = Some m → Forall (λ f, f = WalOk) (ke_faults env) →
  ke_snapshot env = FailsBeforeArchive ∨ ke_snapshot env = FailsBeforeReopen →
  kv_snapshot s env = (s1, r) →
  (∃ e, r = Err e) ∧
  ∃ s2, kv_set s1 env' key value = (s2, Ok ()) ∧ kv_get s2 key = Some value ∧
    kv_persistence s2 = kv_persistence s1.
Proof.
  intros Hm Hf Hfault Hsnap. unfold kv_snapshot, create_snapshot, flush in Hsnap. rewrite Hm in Hsnap.
  destruct (flush_succeeds (pm_pending m) (set_pending m []) env Hf) as [m' Hm']. rewrite Hm' in Hsnap.
  assert (∃ m1 e, s1 = with_manager s m1 ∧ r = Err e ∧ pm_wal_open m1 = false) as (m1 & e & -> & -> & Ho).
  { destruct Hfault as [Hx|Hx]; rewrite Hx in Hsnap; cbv zeta in Hsnap; injection Hsnap as <- <-;
      by eexists _, _. }
  split; [by eexists|]. unfold kv_set, log_sync. cbn [kv_persistence with_manager].
  unfold log_operation_sync. rewrite Ho. eexists. split; [reflexivity|].
  split; [apply lookup_insert_eq|done].
Qed.

(** A flush that fails on its first write empties the queue all the same:
    the other queued writes are never logged. *)
Theorem failed_flush_drops_queue m env op ops :
  pm_wal_open m = true → pm_pending m = op :: ops → ke_fault env ≠ WalOk →
  ∃ e, flush m env = (write_operation (set_pending m []) env op, Err e) ∧
    pm_pending (write_operation (set_pending m []) env op) = [].
Proof.
  intros Ho Hp Hf. unfold flush. rewrite Hp. cbn [flush_operations]. unfold log_operation_sync.
  cbn [set_pending pm_wal_open]. rewrite Ho. destruct (ke_fault env); [done|..]; by eexists.
Qed.

(** A write refused because the sync failed is in the log: the map does not
    have it, and it is there after reopening. *)
Theorem refused_write_recovered s m env key value n b base rs :
  kv_persistence s = Some m → pm_pending m = [] → manager_holds m (S n) b base rs →
  apply_operations base (kr_operation <$> rs) = kv_data s →
  ke_fault env = WalSyncFails →
  ∃ s' m', kv_set s env key value = (s', Err "Failed to sync WAL: fault") ∧ kv_data s' = kv_data s ∧
    kv_persistence s' = Some m' ∧ recovered (pm_disk m') = Ok (<[key := value]> (kv_data s)).
Proof.
  intros Hm Hp Hh Hdata Hf.
  unfold kv_set, log_sync, log_operation_sync. rewrite Hm, (mh_open _ _ _ _ _ Hh), Hf.
  eexists _, _. split; [reflexivity|]. split; [done|]. split; [reflexivity|].
  assert (pm_disk (write_operation m env (OpSet key value)) =
    pm_disk (write_operation m {| ke_now := ke_now env; ke_faults := []; ke_snapshot := SnapshotOk |}
      (OpSet key value))) as -> by (unfold write_operation; by rewrite Hf).
  destruct (write_operation_holds m {| ke_now := ke_now env; ke_faults := []; ke_snapshot := SnapshotOk |}
    (OpSet key value) n b base rs) as (r & Hr & Hh' & _); [by split|done|].
  rewrite (recovered_holds _ b base (rs ++ [r])) by by eapply mh_disk.
  rewrite fmap_app. cbn [fmap list_fmap]. rewrite Hr. by rewrite apply_operations_snoc, Hdata.
Qed.

(** A torn record is not removed when the store is opened: the next record is
    written behind it, on the same line, and is lost although it was synced. *)
Theorem torn_record_swallows_next snapshot archived b base rs tail r :
  snapshot_holds snapshot b base → kv_log b rs → no_control tail →
  let glued := tail +:+ kv_record_to_json r in
  valid_utf8 glued = true → kv_record_from_json glued = None → operation_from_json glued = None →
  recovered {| kd_snapshot := snapshot; kd_archive := archived;
               kd_wal := Some ((kv_log_text rs +:+ tail) +:+ kv_line r) |}
    = Ok (apply_operations base (kr_operation <$> rs)).
Proof.
  intros Hs Hl Ht glued Hu Hr Ho.
  rewrite (recovered_log _ _ _ b b base rs (tail +:+ kv_line r) Hs Hl) by apply app_assoc_string.
  unfold kv_line. rewrite <-app_assoc_string. fold glued. rewrite lines_cons.
  - change (lines EmptyString) with (@nil string). cbn [wal_operations]. rewrite Hu. cbn [negb].
    case_bool_decide; [done|]. by rewrite Hr, Ho.
  - unfold glued, no_control. rewrite list_ascii_app. apply Forall_app. split; [done|].
    apply kv_record_json_line.
Qed.
End faults.

(** ** Witnesses *)

Definition one_set : KVStore :=
  match with_persistence empty_dir with Ok s => (kv_set s calm "a" "1").1 | _ => kv_new end.
Definition fails (f : SnapshotFault) : KvEnv := {| ke_now := 0; ke_faults := []; ke_snapshot := f |}.
Definition sync_fails : KvEnv := {| ke_now := 0; ke_faults := [WalSyncFails]; ke_snapshot := SnapshotOk |}.
Definition one_record : KvWalRecord := kv_record_new (ke_now calm) 1 (OpSet "a" "1").

Definition manager_of (s : KVStore) : Manager := default (manager_new empty_dir) (kv_persistence s).

Lemma one_set_holds n : n < 1000 → manager_holds (manager_of one_set) n 0 ∅ [one_record].
Proof.
  intros Hn. split; [vm_compute; reflexivity| |vm_compute; reflexivity|].
  - split; [|split; [|vm_compute; reflexivity]].
    { assert (kd_snapshot (pm_disk (manager_of one_set)) = None) as -> by (vm_compute; reflexivity).
      apply holds_nothing. }
    apply (kv_log_snoc 0 []). apply kv_log_nil.
  - assert (pm_next_sequence (manager_of one_set) = 2%N) as -> by (vm_compute; reflexivity). lia.
Qed.

Lemma one_set_holds_pending n :
  n < 1000 → manager_holds (manager_of one_set) (length (pm_pending (manager_of one_set)) + n) 0 ∅ [one_record].
Proof.
  intros Hn. assert (pm_pending (manager_of one_set) = []) as -> by (vm_compute; reflexivity).
  by apply one_set_holds.
Qed.

Lemma one_set_ok n : n < 1000 → store_ok one_set n.
Proof.
  intros Hn. exists (manager_of one_set), 0%N, ∅, [one_record].
  split; [vm_compute; reflexivity|]. split; [apply one_set_holds_pending; exact Hn|].
  vm_compute. reflexivity.
Qed.

Definition logged_b : KVStore := (log_sync one_set calm (OpSet "b" "2")).1.
Definition snapshot_b : KVStore := (kv_snapshot logged_b calm).1.

Lemma snapshot_loses_write_witness :
  let s3 := with_data snapshot_b (<["b" := "2"]> (kv_data snapshot_b)) in
  kv_get s3 "b" = Some "2" ∧
  ∃ m, kv_persistence s3 = Some m ∧ recovered (pm_disk m) = Ok ({["a" := "1"]} : gmap string string).
Proof.
  destruct (snapshot_loses_write one_set calm calm "b" "2" 10 logged_b snapshot_b) as (_ & Hg & m & Hm & _ & Hr).
  - by split.
  - by split.
  - vm_compute; reflexivity.
  - apply one_set_ok. lia.
  - vm_compute; reflexivity.
  - vm_compute; reflexivity.
  - vm_compute; reflexivity.
  - split; [exact Hg|]. exists m. split; [exact Hm|]. rewrite Hr. vm_compute. reflexivity.
Defined.

Lemma queued_write_overtaken_witness :
  ∃ s' m, kv_get s' "a" = Some "3" ∧ kv_persistence s' = Some m ∧
    recovered (pm_disk m) = Ok (<["a" := "2"]> (kv_data s')).
Proof.
  destruct (queued_write_overtaken one_set calm "a" "2" "3" 10) as (s' & s'' & m & _ & _ & Hg & Hm & Hr).
  - by split.
  - vm_compute; reflexivity.
  - apply one_set_ok. lia.
  - by exists s'', m.
Defined.

Lemma failed_snapshot_stops_logging_witness :
  let s1 := (kv_snapshot one_set (fails FailsBeforeArchive)).1 in
  ∃ s2, kv_set s1 calm "b" "2" = (s2, Ok ()) ∧ kv_persistence s2 = kv_persistence s1.
Proof.
  destruct (failed_snapshot_stops_logging one_set (manager_of one_set) (fails FailsBeforeArchive) calm "b" "2"
    (kv_snapshot one_set (fails FailsBeforeArchive)).1 (kv_snapshot one_set (fails FailsBeforeArchive)).2)
    as (_ & s2 & Hs & _ & Hp).
  - vm_compute; reflexivity.
  - constructor.
  - by left.
  - apply surjective_pairing.
  - by exists s2.
Defined.

Lemma failed_flush_drops_queue_witness :
  let m := set_pending (manager_of one_set) [OpClear; OpDelete "a"] in
  ∃ m' e, flush m sync_fails = (m', Err e) ∧ pm_pending m' = [].
Proof.
  destruct (failed_flush_drops_queue (set_pending (manager_of one_set) [OpClear; OpDelete "a"]) sync_fails
    OpClear [OpDelete "a"]) as (e & Hf & Hp).
  - vm_compute; reflexivity.
  - reflexivity.
  - discriminate.
  - eexists _, e. split; [exact Hf|exact Hp].
Defined.

Lemma refused_write_recovered_witness :
  ∃ s' m', kv_set one_set sync_fails "b" "2" = (s', Err "Failed to sync WAL: fault") ∧
    kv_get s' "b" = None ∧ kv_persistence s' = Some m' ∧
    recovered (pm_disk m') = Ok ({["a" := "1"; "b" := "2"]} : gmap string string).
Proof.
  destruct (refused_write_recovered one_set (manager_of one_set) sync_fails "b" "2" 10 0 ∅ [one_record])
    as (s' & m' & Hs & Hd & Hm & Hr).
  - vm_compute; reflexivity.
  - vm_compute; reflexivity.
  - apply one_set_holds. lia.
  - vm_compute; reflexivity.
  - reflexivity.
  - exists s', m'. split; [exact Hs|]. split; [unfold kv_get; rewrite Hd; vm_compute; reflexivity|].
    split; [exact Hm|]. rewrite Hr. vm_compute. reflexivity.
Defined.

Lemma torn_record_swallows_next_witness :
  recovered {| kd_snapshot := None; kd_archive := [];
    kd_wal := Some ((kv_log_text [one_record] +:+ "R0101") +:+ kv_line (kv_record_new 5 2 OpClear)) |}
    = Ok ({["a" := "1"]} : gmap string string).
Proof.
  etransitivity; [apply (torn_record_swallows_next None [] 0 ∅ [one_record] "R0101")|vm_compute; reflexivity].
  - constructor.
  - apply (kv_log_snoc 0 []). apply kv_log_nil.
  - repeat constructor; vm_compute; discriminate.
  - vm_compute; reflexivity.
  - vm_compute; reflexivity.
  - vm_compute; reflexivity.
Defined.
