(* ===== verification/Calendar.v ===== *)
(** * Calendar.v: timestamps (src/recovery.rs)

    The parser for RFC 3339 timestamps and the day count of a date, on [i32]
    and [i64] as the source computes them.  A [SystemTime] is its milliseconds
    since the epoch. *)

From Stdlib Require Import Ascii.
From S2P Require Import Prelude Machine Str Types Concrete.

#[local] Open Scope Z_scope.

Definition in_i32 (z : Z) : bool := (- 2 ^ 31 <=? z) && (z <=? 2 ^ 31 - 1).
Definition wrap_i32 (z : Z) : Z := (z + 2 ^ 31) mod 2 ^ 32 - 2 ^ 31.
Definition i32_arith (overflow_checks : bool) (z : Z) : outcome Z :=
  if in_i32 z then Ok z else if overflow_checks then Panic else Ok (wrap_i32 z).

(** [FromStr] of an unsigned integer: no minus sign. *)
Definition parse_unsigned (hi : Z) (s : string) : option Z :=
  match s with String "-"%char _ => None | _ => parse_int 0 hi s end.
Definition parse_i32 : string → option Z := parse_int (- 2 ^ 31) (2 ^ 31 - 1).
Definition parse_u32 : string → option Z := parse_unsigned (2 ^ 32 - 1).
Definition parse_u64 : string → option Z := parse_unsigned (2 ^ 64 - 1).
Definition parse_i64 : string → option Z := parse_int i64_min i64_max.

(** ** Dates *)

(** [%] truncates towards zero. *)
Definition is_leap_year (year : Z) : bool :=
  (Z.rem year 4 =? 0) && (negb (Z.rem year 100 =? 0) || (Z.rem year 400 =? 0)).

Definition days_in_month (year month : Z) : Z :=
  if month =? 2 then if is_leap_year year then 29 else 28
  else if (month =? 4) || (month =? 6) || (month =? 9) || (month =? 11) then 30
  else 31.

Section calendar.
Context `{RustStd}.
#[local] Notation i32 := (i32_arith overflow_checks).
#[local] Notation i64 := (i64_arith overflow_checks).

(** For a month and a day that the parser has checked; only the arithmetic on
    the year can overflow. *)
Definition days_from_civil (year month day : Z) : outcome Z :=
  year ← i32 (year - (if month <=? 2 then 1 else 0));
  shifted ← if 0 <=? year then Ok year else i32 (year - 399);
  let era := Z.quot shifted 400 in
  start ← i32 (era * 400);
  year_of_era ← i32 (year - start);
  let day_of_year := Z.quot (153 * (month + (if 2 <? month then -3 else 9)) + 2) 5 + day - 1 in
  let day_of_era := year_of_era * 365 + Z.quot year_of_era 4 - Z.quot year_of_era 100 + day_of_year in
  era_days ← i32 (era * 146097);
  days ← i32 (era_days + day_of_era);
  i32 (days - 719468).

(** ** RFC 3339 *)

(** [str::strip_suffix(char)]. *)
Definition strip_char (x s : string) : option string :=
  match reverse (chars s) with
  | c :: r => if bool_decide (c = x) then Some (of_chars (reverse r)) else None
  | [] => None
  end.

(** The last sign that is not the first character: the text before it, and
    from it on. *)
Fixpoint last_sign (l : list string) : option nat :=
  match l with
  | [] => None
  | c :: l =>
      match last_sign l with
      | Some i => Some (S i)
      | None => if bool_decide (c = "+" ∨ c = "-") then Some 0%nat else None
      end
  end.
Definition split_offset (time : string) : option (string * string) :=
  match chars time with
  | [] => None
  | c :: l => i ← last_sign l; Some (of_chars (take (S i) (c :: l)), of_chars (drop (S i) (c :: l)))
  end.

Definition parse_offset (offset : string) : outcome Z :=
  let sign := if starts_with_str "-" offset then -1 else 1 in
  match split_char ":" (String.substring 1 (String.length offset - 1) offset) with
  | [] => Err "Invalid timestamp offset"
  | hours :: parts =>
      hours ← ok_or (parse_i64 hours) "Invalid timestamp offset";
      match parts with
      | [] => Err "Invalid timestamp offset"
      | minutes :: parts =>
          minutes ← ok_or (parse_i64 minutes) "Invalid timestamp offset";
          if bool_decide (parts ≠ []) || (23 <? hours) || (59 <? minutes) then
            Err "Invalid timestamp offset"
          else
            h ← i64 (hours * 3600); m ← i64 (minutes * 60);
            sum ← i64 (h + m); i64 (sign * sum)
      end
  end.

(** The digits after the point, in milliseconds. *)
Definition parse_fraction (second_part fraction : string) : outcome Z :=
  if bool_decide (fraction = EmptyString) then
    if bool_decide (is_Some (strip_char "." second_part)) then Err "Invalid timestamp fraction" else Ok 0
  else if negb (forallb (λ b, (48 <=? b) && (b <=? 57)) (string_bytes fraction)) then
    Err "Invalid timestamp fraction"
  else
    let digits := of_chars (take 3 (chars fraction)) in
    parsed ← ok_or (parse_u64 digits) "Invalid timestamp fraction";
    Ok (parsed * 10 ^ (3 - Z.of_nat (String.length digits))).

Definition parse_date (date : string) : outcome (Z * Z * Z) :=
  match split_char "-" date with
  | [] => Err "Invalid timestamp year"
  | year :: parts =>
      year ← ok_or (parse_i32 year) "Invalid timestamp year";
      match parts with
      | [] => Err "Invalid timestamp month"
      | month :: parts =>
          month ← ok_or (parse_u32 month) "Invalid timestamp month";
          match parts with
          | [] => Err "Invalid timestamp day"
          | day :: parts =>
              day ← ok_or (parse_u32 day) "Invalid timestamp day";
              if bool_decide (parts ≠ []) || negb ((1 <=? month) && (month <=? 12)) then
                Err "Invalid timestamp date"
              else if negb ((1 <=? day) && (day <=? days_in_month year month)) then
                Err "Invalid timestamp date"
              else Ok (year, month, day)
          end
      end
  end.

(** Hour, minute, second and milliseconds. *)
Definition parse_clock (clock : string) : outcome (Z * Z * Z * Z) :=
  match split_char ":" clock with
  | [] => Err "Invalid timestamp hour"
  | hour :: parts =>
      hour ← ok_or (parse_i64 hour) "Invalid timestamp hour";
      match parts with
      | [] => Err "Invalid timestamp minute"
      | minute :: parts =>
          minute ← ok_or (parse_i64 minute) "Invalid timestamp minute";
          match parts with
          | [] => Err "Invalid timestamp second"
          | second_part :: parts =>
              if bool_decide (parts ≠ []) || (23 <? hour) || (59 <? minute) then
                Err "Invalid timestamp time"
              else
                let '(seconds_text, fraction) := default (second_part, EmptyString) (split_once "." second_part) in
                second ← ok_or (parse_i64 seconds_text) "Invalid timestamp second";
                if 59 <? second then Err "Invalid timestamp second"
                else millis ← parse_fraction second_part fraction; Ok (hour, minute, second, millis)
          end
      end
  end.

Definition parse_rfc3339 (value : string) : outcome Z :=
  let value := trim value in
  '(date, time) ← ok_or (match split_once "T" value with Some x => Some x | None => split_once "t" value end)
    "Timestamp must use RFC 3339 date-time syntax";
  '(year, month, day) ← parse_date date;
  '(clock, offset_seconds) ←
    match (match strip_char "Z" time with Some c => Some c | None => strip_char "z" time end) with
    | Some clock => Ok (clock, 0)
    | None =>
        '(clock, offset) ← ok_or (split_offset time) "RFC 3339 timestamp requires Z or a UTC offset";
        seconds ← parse_offset offset; Ok (clock, seconds)
    end;
  '(hour, minute, second, millis) ← parse_clock clock;
  days ← days_from_civil year month day;
  a ← i64 (days * 86400); b ← i64 (hour * 3600); ab ← i64 (a + b);
  c ← i64 (minute * 60); abc ← i64 (ab + c); abcd ← i64 (abc + second);
  unix_seconds ← i64 (abcd - offset_seconds);
  if unix_seconds <? 0 then Err "Recovery timestamp predates the Unix epoch"
  else Ok (unix_seconds * 1000 + millis).
End calendar.

(** ** Counting days *)

(** A date of the calendar, and the day after it. *)
Definition valid_date (year month day : Z) : Prop :=
  1 ≤ month ≤ 12 ∧ 1 ≤ day ≤ days_in_month year month.
Definition next_date (date : Z * Z * Z) : Z * Z * Z :=
  let '(year, month, day) := date in
  if day <? days_in_month year month then (year, month, day + 1)
  else if month <? 12 then (year, month + 1, 1)
  else (year + 1, 1, 1).

(** Days before a month in a year that begins in March. *)
Definition march_day (month day : Z) : Z :=
  (153 * (month + (if 2 <? month then -3 else 9)) + 2) / 5 + day - 1.
(** The closed form: days before the year, with its leap days. *)
Definition day_number (year month day : Z) : Z :=
  let y := year - (if month <=? 2 then 1 else 0) in
  365 * y + y / 4 - y / 100 + y / 400 + march_day month day - 719468.

Lemma is_leap_year_mod year :
  is_leap_year year = true ↔ year mod 4 = 0 ∧ (year mod 100 ≠ 0 ∨ year mod 400 = 0).
Proof.
  assert (∀ n, 0 < n → Z.rem year n = 0 ↔ year mod n = 0) as Hrem.
  { intros n Hn. rewrite Z.rem_divide, Z.mod_divide by lia. done. }
  unfold is_leap_year. rewrite andb_true_iff, orb_true_iff, negb_true_iff, !Z.eqb_eq, Z.eqb_neq, !Hrem by lia.
  done.
Qed.

(** The leap days counted by the closed form. *)
Lemma div_step n y : 0 < n → y / n - (y - 1) / n = if decide (y mod n = 0) then 1 else 0.
Proof.
  intros Hn. pose proof (Z.div_mod y n ltac:(lia)) as Hy. pose proof (Z.mod_pos_bound y n Hn).
  case_decide as Hz.
  - rewrite <-(Z.div_unique_pos (y - 1) n (y / n - 1) (n - 1)); [lia|lia|nia].
  - rewrite <-(Z.div_unique_pos (y - 1) n (y / n) (y mod n - 1)); [lia|lia|lia].
Qed.

Lemma leap_days year :
  (year / 4 - year / 100 + year / 400) - ((year - 1) / 4 - (year - 1) / 100 + (year - 1) / 400) =
    if is_leap_year year then 1 else 0.
Proof.
  pose proof (div_step 4 year). pose proof (div_step 100 year). pose proof (div_step 400 year).
  assert (year mod 100 = 0 → year mod 4 = 0) as H100.
  { rewrite !Z.mod_divide by lia. intros Hd. etransitivity; [|exact Hd]. by exists 25. }
  assert (year mod 400 = 0 → year mod 100 = 0) as H400.
  { rewrite !Z.mod_divide by lia. intros Hd. etransitivity; [|exact Hd]. by exists 4. }
  pose proof (is_leap_year_mod year) as Hleap. clear -H H0 H1 H100 H400 Hleap.
  destruct (is_leap_year year); repeat case_decide; lia.
Qed.

#[local] Ltac constants :=
  repeat match goal with |- context [?a / 5] => let v := eval vm_compute in (a / 5) in change (a / 5) with v end.

Lemma day_number_next year month day :
  valid_date year month day →
  let '(y, m, d) := next_date (year, month, day) in
  valid_date y m d ∧ day_number y m d = day_number year month day + 1.
Proof.
  intros [Hm Hd]. pose proof (leap_days year) as Hleap.
  assert (∀ y m, 28 ≤ days_in_month y m) as Hmin.
  { intros y m. unfold days_in_month. repeat case_match; lia. }
  assert (month = 1 ∨ month = 2 ∨ month = 3 ∨ month = 4 ∨ month = 5 ∨ month = 6 ∨ month = 7 ∨ month = 8 ∨
    month = 9 ∨ month = 10 ∨ month = 11 ∨ month = 12) as Hcases by lia.
  cbn [next_date]. destruct (Z.ltb_spec day (days_in_month year month)) as [Hlt|Hge].
  - split; [split; [done|lia]|]. unfold day_number, march_day. lia.
  - destruct (Z.ltb_spec month 12) as [Hlt|Hge12].
    + split; [split; [lia|]; specialize (Hmin year (month + 1)); lia|].
      unfold day_number, march_day.
      destruct Hcases as [->|[->|[->|[->|[->|[->|[->|[->|[->|[->|[->| ->]]]]]]]]]]]; try lia;
        clear Hmin; unfold days_in_month in *;
        (match goal with |- context [?a + 1 <=? 2] =>
           let v := eval vm_compute in (a + 1) in change (a + 1) with v end);
        cbn in Hd, Hge |- *; try (destruct (is_leap_year year)); rewrite ?Z.sub_0_r; constants; lia.
    + split; [split; [lia|]; specialize (Hmin (year + 1) 1); lia|].
      assert (month = 12) as -> by lia. unfold day_number, march_day.
      unfold days_in_month in *; cbn in Hd, Hge |- *. rewrite Z.add_simpl_r, Z.sub_0_r. constants. lia.
Qed.

Lemma era_quot y : Z.quot (if 0 <=? y then y else y - 399) 400 = y / 400.
Proof.
  destruct (Z.leb_spec 0 y); [by rewrite Z.quot_div_nonneg by lia|].
  pose proof (Z.div_mod y 400). pose proof (Z.mod_pos_bound y 400).
  rewrite <-(Z.opp_involutive (y - 399)), Z.quot_opp_l, Z.quot_div_nonneg by lia.
  rewrite <-(Z.div_unique_pos (- (y - 399)) 400 (- (y / 400)) (399 - y mod 400)); lia.
Qed.

(** Days from the years: eras of 400 years with 97 leap years each. *)
Lemma era_days y :
  365 * y + y / 4 - y / 100 + y / 400 =
  y / 400 * 146097 + ((y - y / 400 * 400) * 365 + Z.quot (y - y / 400 * 400) 4 - Z.quot (y - y / 400 * 400) 100).
Proof.
  pose proof (Z.div_mod y 400). pose proof (Z.mod_pos_bound y 400).
  set (r := y - y / 400 * 400). assert (0 ≤ r < 400) as Hr by lia.
  rewrite !Z.quot_div_nonneg by lia.
  replace y with (r + (100 * (y / 400)) * 4) at 2 by lia. rewrite Z.div_add by lia.
  replace y with (r + (4 * (y / 400)) * 100) at 3 by lia. rewrite Z.div_add by lia.
  lia.
Qed.

Lemma march_day_range month day : 1 ≤ month ≤ 12 → 1 ≤ day ≤ 31 → 0 ≤ march_day month day ≤ 367.
Proof.
  intros Hm Hd. unfold march_day.
  assert (0 ≤ month + (if 2 <? month then -3 else 9) ≤ 11) by (case_match; lia).
  set (k := month + _) in *. pose proof (Z.div_mod (153 * k + 2) 5). pose proof (Z.mod_pos_bound (153 * k + 2) 5).
  lia.
Qed.

Lemma days_in_month_range y m : 28 ≤ days_in_month y m ≤ 31.
Proof. unfold days_in_month. repeat case_match; lia. Qed.

Section counting.
Context `{RustStd}.

Lemma i32_arith_ok z : - 2 ^ 31 ≤ z < 2 ^ 31 → i32_arith overflow_checks z = Ok z.
Proof. intros Hz. unfold i32_arith, in_i32. by rewrite !(proj2 (Z.leb_le _ _)) by lia. Qed.

(** No intermediate result overflows for years up to 5,800,000. *)
Lemma days_from_civil_exact year month day :
  valid_date year month day → -5800000 ≤ year ≤ 5800000 →
  days_from_civil year month day = Ok (day_number year month day).
Proof.
  intros [Hm Hd] Hy. pose proof (days_in_month_range year month).
  pose proof (march_day_range month day Hm) as Hdoy. unfold days_from_civil.
  set (y := year - (if month <=? 2 then 1 else 0)).
  assert (-5800001 ≤ y ≤ 5800000) as Hy' by (unfold y; case_match; lia).
  rewrite (i32_arith_ok y) by lia. cbn [mbind outcome_bind].
  assert ((if 0 <=? y then Ok y else i32_arith overflow_checks (y - 399)) =
    Ok (if 0 <=? y then y else y - 399)) as ->.
  { destruct (0 <=? y); [done|]. by rewrite i32_arith_ok by lia. }
  cbn [mbind outcome_bind]. rewrite era_quot.
  pose proof (Z.div_mod y 400). pose proof (Z.mod_pos_bound y 400).
  set (era := y / 400) in *. set (r := y - era * 400). assert (0 ≤ r < 400) as Hr by lia.
  rewrite (i32_arith_ok (era * 400)) by lia. cbn [mbind outcome_bind]. fold r.
  rewrite (i32_arith_ok r) by lia. cbn [mbind outcome_bind].
  assert (Z.quot (153 * (month + (if 2 <? month then -3 else 9)) + 2) 5 + day - 1 = march_day month day) as ->.
  { unfold march_day. rewrite Z.quot_div_nonneg; [done|case_match; lia|lia]. }
  set (doe := r * 365 + Z.quot r 4 - Z.quot r 100 + march_day month day).
  assert (0 ≤ doe ≤ 150000) as Hdoe.
  { unfold doe. rewrite !Z.quot_div_nonneg by lia.
    pose proof (Z.div_mod r 4). pose proof (Z.mod_pos_bound r 4).
    pose proof (Z.div_mod r 100). pose proof (Z.mod_pos_bound r 100). lia. }
  rewrite (i32_arith_ok (era * 146097)) by lia. cbn [mbind outcome_bind].
  rewrite (i32_arith_ok (era * 146097 + doe)) by lia. cbn [mbind outcome_bind].
  rewrite i32_arith_ok by lia. f_equal. unfold day_number. fold y.
  rewrite era_days. fold era. fold r. unfold doe. lia.
Qed.

Lemma nth_date n :
  let '(y, m, d) := Nat.iter n next_date (1970, 1, 1) in
  valid_date y m d ∧ day_number y m d = Z.of_nat n ∧ 1970 ≤ y.
Proof.
  induction n as [|n IH].
  { split_and!; [split; [lia|]|done|lia]. change (days_in_month 1970 1) with 31. lia. }
  change (Nat.iter (S n) next_date (1970, 1, 1)) with (next_date (Nat.iter n next_date (1970, 1, 1))).
  destruct (Nat.iter n next_date (1970, 1, 1)) as [[y m] d]. destruct IH as (Hv & Hn & Hy).
  pose proof (day_number_next y m d Hv) as Hnext.
  assert (y ≤ (next_date (y, m, d)).1.1) as Hy' by (cbn [next_date]; repeat case_match; cbn; lia).
  destruct (next_date (y, m, d)) as [[y1 m1] d1]. cbn in Hy'. destruct Hnext as [Hv' Hn']; (split_and!; [exact Hv'|lia|lia]).
Qed.

(** C31. The day count is exact: the n-th day after 1 January 1970, stepping
    through the calendar day by day, gets the number n, without overflow for
    two thousand million days (some five million years). *)
Theorem days_from_civil_counts n :
  Z.of_nat n ≤ 2000000000 →
  let '(y, m, d) := Nat.iter n next_date (1970, 1, 1) in days_from_civil y m d = Ok (Z.of_nat n).
Proof.
  intros Hn. pose proof (nth_date n) as Hd. destruct (Nat.iter n next_date (1970, 1, 1)) as [[y m] d].
  destruct Hd as (Hv & Hnum & Hy). rewrite days_from_civil_exact; [by rewrite Hnum|done|].
  destruct Hv as [Hm Hday]. pose proof (march_day_range m d Hm). pose proof (days_in_month_range y m).
  unfold day_number in Hnum. set (y' := y - (if m <=? 2 then 1 else 0)) in *.
  assert (y - 1 ≤ y' ≤ y) by (unfold y'; case_match; lia).
  pose proof (Z.div_mod y' 4). pose proof (Z.mod_pos_bound y' 4).
  pose proof (Z.div_mod y' 100). pose proof (Z.mod_pos_bound y' 100).
  pose proof (Z.div_mod y' 400). pose proof (Z.mod_pos_bound y' 400). lia.
Qed.

(** Beyond, the arithmetic of the source overflows: with overflow checks the
    parser panics on a year of seven digits. *)
Lemma huge_year_panics :
  overflow_checks = true → days_from_civil 5900000 1 1 = Panic ∧ parse_rfc3339 "5900000-01-01T00:00:00Z" = Panic.
Proof. intros Hc. unfold parse_rfc3339, days_from_civil. rewrite Hc. by vm_compute. Qed.

(** Only the upper bounds of hour, minute, second and offset are checked. *)
Lemma negative_hour_accepted :
  parse_rfc3339 "2024-01-01T-5:-1:-1Z" = parse_rfc3339 "2023-12-31T18:58:59Z".
Proof. vm_compute. reflexivity. Qed.
End counting.

Lemma days_from_civil_counts_witness :
  let '(y, m, d) := Nat.iter 366 next_date (1970, 1, 1) in
  (y, m, d) = (1971, 1, 2) ∧ days_from_civil (H := concrete_std) y m d = Ok 366.
Proof.
  pose proof (days_from_civil_counts (H := concrete_std) 366) as Hd. vm_compute in Hd |- *.
  split; [reflexivity|]. apply Hd. discriminate.
Defined.
