(* ===== verification/Timestamp.v ===== *)
(** * Timestamp.v: printing and parsing timestamps

    A printer for RFC 3339 with milliseconds and an offset, and the proof that
    the parser of Calendar.v reads every printed timestamp back. *)

From Stdlib Require Import Ascii.
From S2P Require Import Prelude Machine Str Log Types Concrete Calendar.

#[local] Open Scope Z_scope.

(** ** The text *)

Definition digit_char (d : Z) : string := String (ascii_of_N (48 + Z.to_N d)) EmptyString.
(** The last [k] decimal digits of a number. *)
Fixpoint digits (k : nat) (n : Z) : list string :=
  match k with O => [] | S k => digits k (n / 10) ++ [digit_char (n mod 10)] end.

(** A timestamp with milliseconds and a UTC offset. *)
Record Timestamp := {
  ts_year : Z; ts_month : Z; ts_day : Z; ts_hour : Z; ts_minute : Z; ts_second : Z; ts_millis : Z;
  ts_west : bool; ts_offset_hours : Z; ts_offset_minutes : Z;
}.
Definition valid_timestamp (t : Timestamp) : Prop :=
  0 ≤ ts_year t ≤ 9999 ∧ valid_date (ts_year t) (ts_month t) (ts_day t) ∧
  0 ≤ ts_hour t ≤ 23 ∧ 0 ≤ ts_minute t ≤ 59 ∧ 0 ≤ ts_second t ≤ 59 ∧ 0 ≤ ts_millis t ≤ 999 ∧
  0 ≤ ts_offset_hours t ≤ 23 ∧ 0 ≤ ts_offset_minutes t ≤ 59.

Definition date_chars (t : Timestamp) : list string :=
  digits 4 (ts_year t) ++ "-" :: digits 2 (ts_month t) ++ "-" :: digits 2 (ts_day t).
Definition clock_chars (t : Timestamp) : list string :=
  digits 2 (ts_hour t) ++ ":" :: digits 2 (ts_minute t) ++ ":" :: digits 2 (ts_second t)
    ++ "." :: digits 3 (ts_millis t).
Definition offset_chars (t : Timestamp) : list string :=
  (if ts_west t then "-" else "+") :: digits 2 (ts_offset_hours t) ++ ":" :: digits 2 (ts_offset_minutes t).
Definition timestamp_text (t : Timestamp) : string :=
  of_chars (date_chars t ++ "T" :: clock_chars t ++ offset_chars t).

Definition offset_seconds (t : Timestamp) : Z :=
  (if ts_west t then -1 else 1) * (ts_offset_hours t * 3600 + ts_offset_minutes t * 60).
Definition unix_seconds (t : Timestamp) : Z :=
  day_number (ts_year t) (ts_month t) (ts_day t) * 86400 + ts_hour t * 3600 + ts_minute t * 60
    + ts_second t - offset_seconds t.

(** *** Digits *)

Definition is_digit (ch : string) : bool := existsb (λ d, bool_decide (ch = digit_char d)) (seqZ 0 10).

Lemma digit_char_is_digit d : 0 ≤ d < 10 → is_digit (digit_char d) = true.
Proof.
  intros Hd. apply existsb_true. exists d. split; [by apply elem_of_seqZ|by apply bool_decide_eq_true].
Qed.

(** What holds of the ten digits holds of a digit. *)
Lemma digit_cases (p : string → bool) ch :
  forallb (λ d, p (digit_char d)) (seqZ 0 10) = true → is_digit ch = true → p ch = true.
Proof.
  intros Hp (d & Hd & ->%bool_decide_eq_true)%existsb_true. rewrite forallb_true in Hp. by apply Hp.
Qed.

Lemma digits_digit k n : Forall (λ ch, is_digit ch = true) (digits k n).
Proof.
  revert n. induction k as [|k IH]; intros n; [constructor|]. apply Forall_app. split; [apply IH|].
  constructor; [|constructor]. apply digit_char_is_digit. pose proof (Z.mod_pos_bound n 10). lia.
Qed.

Lemma digits_all (p : string → bool) k n :
  forallb (λ d, p (digit_char d)) (seqZ 0 10) = true → Forall (λ ch, p ch = true) (digits k n).
Proof. intros Hp. eapply Forall_impl; [apply digits_digit|]. intros ch. by apply digit_cases. Qed.

Lemma digits_length k n : length (digits k n) = k.
Proof. revert n. induction k as [|k IH]; intros n; [done|]. cbn. rewrite length_app, IH. cbn. lia. Qed.

Definition digit_value (ch : string) : Z :=
  match ch with String c _ => Z.of_N (ascii_code c) - 48 | _ => 0 end.

Lemma digit_value_char d : 0 ≤ d < 10 → digit_value (digit_char d) = d.
Proof. intros Hd. unfold digit_value, digit_char, ascii_code. rewrite N_ascii_embedding by lia. lia. Qed.

Lemma parse_digits_app l : ∀ acc s,
  Forall (λ ch, is_digit ch = true) l →
  parse_digits (of_chars l +:+ s) acc =
    parse_digits s (foldl (λ acc ch, 10 * acc + digit_value ch) acc l).
Proof.
  induction l as [|ch l IH]; intros acc s Hl; [done|]. apply Forall_cons in Hl as [Hch Hl].
  cbn [foldl]. rewrite <-IH by done. apply existsb_true in Hch as (d & Hd & ->%bool_decide_eq_true).
  apply elem_of_seqZ in Hd. unfold digit_char.
  change (of_chars (String ?c EmptyString :: l) +:+ s) with (String c (of_chars l +:+ s)).
  cbn [parse_digits]. change (Ascii.N_of_ascii ?c) with (ascii_code c). unfold ascii_code.
  rewrite N_ascii_embedding by lia.
  rewrite !(proj2 (Z.leb_le _ _)) by lia. cbn [andb]. f_equal.
  change (String (ascii_of_N (48 + Z.to_N d)) EmptyString) with (digit_char d).
  rewrite digit_value_char by lia. lia.
Qed.

Lemma digits_value k : ∀ n acc, 0 ≤ n →
  foldl (λ acc ch, 10 * acc + digit_value ch) acc (digits k n) = acc * 10 ^ Z.of_nat k + n mod 10 ^ Z.of_nat k.
Proof.
  induction k as [|k IH]; intros n acc Hn; [cbn; rewrite Z.mod_1_r; lia|]. cbn [digits].
  rewrite foldl_app, IH by (apply Z.div_pos; lia). cbn [foldl].
  pose proof (Z.mod_pos_bound n 10). rewrite Nat2Z.inj_succ, Z.pow_succ_r by lia.
  rewrite digit_value_char by lia.
  rewrite Z.rem_mul_r by lia. lia.
Qed.

Lemma of_chars_cons_digit l : l ≠ [] → Forall (λ ch, is_digit ch = true) l →
  ∃ c rest, of_chars l = String c rest ∧ c ≠ "-"%char ∧ c ≠ "+"%char.
Proof.
  intros Hne Hl. destruct l as [|ch l]; [done|]. apply Forall_cons in Hl as [Hch _].
  apply existsb_true in Hch as (d & Hd & ->%bool_decide_eq_true). apply elem_of_seqZ in Hd.
  eexists _, (of_chars l). split; [reflexivity|].
  split; intros Hc; apply (f_equal ascii_code) in Hc; unfold ascii_code in Hc;
    rewrite N_ascii_embedding in Hc by lia; vm_compute (N_of_ascii _) in Hc; lia.
Qed.

Lemma parse_int_digits lo hi k n :
  (0 < k)%nat → lo ≤ 0 → 0 ≤ n < 10 ^ Z.of_nat k → n ≤ hi → parse_int lo hi (of_chars (digits k n)) = Some n.
Proof.
  intros Hk Hlo Hn Hhi. destruct (of_chars_cons_digit (digits k n)) as (c & rest & Hs & Hm & Hp).
  { intros Hd. apply (f_equal length) in Hd. rewrite digits_length in Hd. cbn in Hd. lia. }
  { apply digits_digit. }
  assert (parse_digits (of_chars (digits k n)) 0 = Some n) as Hd.
  { pose proof (parse_digits_app (digits k n) 0 EmptyString (digits_digit k n)) as Happ.
    rewrite append_empty_r in Happ. rewrite Happ.
    rewrite digits_value by lia. rewrite Z.mod_small by lia. done. }
  assert ((lo <=? n) && (n <=? hi) = true) as Hb by by rewrite !(proj2 (Z.leb_le _ _)) by lia.
  rewrite Hs in Hd |- *. unfold parse_int.
  destruct c as [[] [] [] [] [] [] [] []]; first [congruence|cbv beta iota zeta; by rewrite Hd, Hb].
Qed.

Lemma parse_unsigned_digits hi k n :
  (0 < k)%nat → 0 ≤ n < 10 ^ Z.of_nat k → n ≤ hi → parse_unsigned hi (of_chars (digits k n)) = Some n.
Proof.
  intros Hk Hn Hhi. destruct (of_chars_cons_digit (digits k n)) as (c & rest & Hs & Hm & _).
  { intros Hd. apply (f_equal length) in Hd. rewrite digits_length in Hd. cbn in Hd. lia. }
  { apply digits_digit. }
  pose proof (parse_int_digits 0 hi k n Hk) as Hp. rewrite Hs in Hp |- *. unfold parse_unsigned.
  rewrite <-Hp by lia. destruct c as [[] [] [] [] [] [] [] []]; congruence.
Qed.

(** *** Splitting *)

Lemma position_app {A} (p : A → bool) l x l' :
  Forall (λ x, p x = false) l → p x = true → position p (l ++ x :: l') = Some (length l).
Proof.
  intros Hl Hx. induction Hl as [|y l Hy _ IH]; cbn [app position]; [by rewrite Hx|]. by rewrite Hy, IH.
Qed.

(** No digit is a separator. *)
Definition separator (x : string) : bool := bool_decide (x ∈ ["-"; ":"; "."; "T"; "t"; "Z"; "z"; "+"]).

Lemma digits_no_separator x k n :
  separator x = true → Forall (λ ch, char_is x ch = false) (digits k n).
Proof.
  intros Hx%bool_decide_eq_true. eapply Forall_impl; [|intros ch; apply negb_true_iff].
  apply (digits_all (λ ch, negb (char_is x ch))).
  repeat (apply elem_of_cons in Hx as [->|Hx]; [vm_compute; reflexivity|]). by apply elem_of_nil in Hx.
Qed.

Lemma digits_wf k n : wf_chars (digits k n).
Proof. apply (digits_all wf_char). vm_compute. reflexivity. Qed.

Lemma wf_chars_app l l' : wf_chars (l ++ l') ↔ wf_chars l ∧ wf_chars l'.
Proof. apply Forall_app. Qed.
Lemma wf_chars_cons ch l : wf_chars (ch :: l) ↔ wf_char ch = true ∧ wf_chars l.
Proof. unfold wf_chars. by rewrite Forall_cons. Qed.

(** Text of digits and separators is well formed. *)
#[local] Ltac wf :=
  repeat first [rewrite wf_chars_app|rewrite wf_chars_cons]; split_and?; try apply digits_wf; try reflexivity.

Lemma split_char_chars x l : wf_chars l → split_char x (of_chars l) = of_chars <$> split_on (char_is x) l.
Proof. intros Hl. unfold split_char. by rewrite chars_of_chars. Qed.

Lemma split_once_chars x l l' :
  wf_chars (l ++ x :: l') → Forall (λ ch, char_is x ch = false) l →
  split_once x (of_chars (l ++ x :: l')) = Some (of_chars l, of_chars l').
Proof.
  intros Hwf Hl. unfold split_once. rewrite chars_of_chars by done.
  rewrite position_app by (done || by apply bool_decide_eq_true). cbn [mbind option_bind].
  rewrite take_app_length. by rewrite (cons_middle x), (app_assoc l), drop_app_length' by (rewrite length_app; cbn; lia).
Qed.

Section roundtrip.
Context `{RustStd} (t : Timestamp) (Hvalid : valid_timestamp t).

Lemma date_wf : wf_chars (date_chars t).
Proof. unfold date_chars. wf. Qed.
Lemma clock_wf : wf_chars (clock_chars t).
Proof. unfold clock_chars. wf. Qed.
Lemma offset_wf : wf_chars (offset_chars t).
Proof. unfold offset_chars. wf. by destruct (ts_west t). Qed.

Lemma parse_date_text :
  parse_date (of_chars (date_chars t)) = Ok (ts_year t, ts_month t, ts_day t).
Proof.
  destruct Hvalid as (Hy & [Hm Hd] & _). pose proof (days_in_month_range (ts_year t) (ts_month t)).
  unfold parse_date. rewrite split_char_chars by apply date_wf. unfold date_chars.
  rewrite !split_on_app, split_on_plain by first [by apply digits_no_separator|by apply bool_decide_eq_true].
  rewrite !fmap_cons. unfold parse_i32, parse_u32. rewrite parse_int_digits by lia. cbn [ok_or mbind outcome_bind].
  rewrite parse_unsigned_digits by lia. cbn [ok_or mbind outcome_bind].
  rewrite parse_unsigned_digits by lia. cbn [ok_or mbind outcome_bind].
  rewrite fmap_nil, bool_decide_eq_false_2 by (intros Hn; by apply Hn).
  by rewrite !(proj2 (Z.leb_le _ _)) by lia.
Qed.

Lemma digits_string k n : Forall (λ ch, String.length ch = 1%nat) (digits k n).
Proof.
  eapply Forall_impl; [apply digits_digit|]. intros ch (d & _ & ->%bool_decide_eq_true)%existsb_true. done.
Qed.

Lemma of_chars_length l : Forall (λ ch, String.length ch = 1%nat) l → String.length (of_chars l) = length l.
Proof.
  induction 1 as [|ch l Hch _ IH]; [done|]. change (of_chars (ch :: l)) with (ch +:+ of_chars l).
  by rewrite append_length, Hch, IH.
Qed.

Lemma digits_bytes k n :
  forallb (λ b, (48 <=? b) && (b <=? 57)) (string_bytes (of_chars (digits k n))) = true.
Proof.
  pose proof (digits_digit k n) as Hd. induction Hd as [|ch l Hch _ IH]; [done|].
  apply existsb_true in Hch as (d & Hd & ->%bool_decide_eq_true).
  change (string_bytes (of_chars (digit_char d :: l))) with (Z.of_N (ascii_code (ascii_of_N (48 + Z.to_N d))) :: string_bytes (of_chars l)).
  apply elem_of_seqZ in Hd. cbn [forallb]. rewrite IH. unfold ascii_code. rewrite N_ascii_embedding by lia.
  by rewrite !(proj2 (Z.leb_le _ _)) by lia.
Qed.

Lemma parse_fraction_text second_part n :
  0 ≤ n ≤ 999 → parse_fraction second_part (of_chars (digits 3 n)) = Ok n.
Proof.
  intros Hn. unfold parse_fraction.
  assert (String.length (of_chars (digits 3 n)) = 3%nat) as Hlen
    by (rewrite of_chars_length by apply digits_string; apply digits_length).
  rewrite bool_decide_eq_false_2 by (intros He; by rewrite He in Hlen).
  rewrite digits_bytes. cbn [negb]. rewrite chars_of_chars by apply digits_wf.
  rewrite take_ge by by rewrite digits_length. unfold parse_u64.
  rewrite parse_unsigned_digits by lia. cbn [ok_or mbind outcome_bind]. rewrite Hlen. f_equal. lia.
Qed.

Lemma parse_clock_text :
  parse_clock (of_chars (clock_chars t)) = Ok (ts_hour t, ts_minute t, ts_second t, ts_millis t).
Proof.
  destruct Hvalid as (_ & _ & Hh & Hmi & Hs & Hms & _).
  unfold parse_clock. rewrite split_char_chars by apply clock_wf. unfold clock_chars.
  rewrite !split_on_app, split_on_plain
    by first [by apply digits_no_separator|by apply bool_decide_eq_true|
      apply Forall_app; split; [by apply digits_no_separator|constructor; [done|by apply digits_no_separator]]].
  rewrite !fmap_cons. unfold parse_i64, i64_min, i64_max.
  rewrite parse_int_digits by lia. cbn [ok_or mbind outcome_bind].
  rewrite parse_int_digits by lia. cbn [ok_or mbind outcome_bind].
  rewrite fmap_nil, bool_decide_eq_false_2 by (intros Hn; by apply Hn).
  rewrite !(proj2 (Z.ltb_ge _ _)) by lia. cbn [orb].
  rewrite split_once_chars; [|wf|by apply digits_no_separator].
  cbn [from_option id]. rewrite parse_int_digits by lia. cbn [ok_or mbind outcome_bind].
  rewrite (proj2 (Z.ltb_ge _ _)) by lia. by rewrite parse_fraction_text.
Qed.

Lemma i64_arith_ok z : - 2 ^ 63 ≤ z < 2 ^ 63 → i64_arith overflow_checks z = Ok z.
Proof. intros Hz. unfold i64_arith. by rewrite (proj2 (in_i64_spec z)) by (unfold i64_min, i64_max; lia). Qed.

Lemma parse_offset_text : parse_offset (of_chars (offset_chars t)) = Ok (offset_seconds t).
Proof.
  destruct Hvalid as (_ & _ & _ & _ & _ & _ & Hoh & Hom).
  set (rest := digits 2 (ts_offset_hours t) ++ ":" :: digits 2 (ts_offset_minutes t)).
  assert (split_char ":" (of_chars rest) =
    [of_chars (digits 2 (ts_offset_hours t)); of_chars (digits 2 (ts_offset_minutes t))]) as Hsplit.
  { unfold rest. rewrite split_char_chars by wf.
    by rewrite !split_on_app, split_on_plain by first [by apply digits_no_separator|by apply bool_decide_eq_true]. }
  assert (∀ c, String.substring 1 (String.length (String c (of_chars rest)) - 1) (String c (of_chars rest))
    = of_chars rest) as Hsub.
  { intros c. cbn [String.length]. rewrite Nat.sub_succ, Nat.sub_0_r. cbn [String.substring].
    rewrite <-(append_empty_r (of_chars rest)) at 2. apply substring_app_l. }
  unfold parse_offset.
  assert (∃ c, of_chars (offset_chars t) = String c (of_chars rest)) as [c Hc]
    by (unfold offset_chars; destruct (ts_west t); by eexists).
  assert (starts_with_str "-" (of_chars (offset_chars t)) = ts_west t) as ->
    by (unfold offset_chars; by destruct (ts_west t)).
  rewrite Hc, Hsub, Hsplit. unfold parse_i64, i64_min, i64_max.
  rewrite parse_int_digits by lia. cbn [ok_or mbind outcome_bind].
  rewrite parse_int_digits by lia. cbn [ok_or mbind outcome_bind].
  rewrite bool_decide_eq_false_2 by (intros Hn; by apply Hn).
  rewrite !(proj2 (Z.ltb_ge _ _)) by lia. cbn [orb].
  rewrite (i64_arith_ok (ts_offset_hours t * 3600)) by lia. cbn [mbind outcome_bind].
  rewrite (i64_arith_ok (ts_offset_minutes t * 60)) by lia. cbn [mbind outcome_bind].
  rewrite i64_arith_ok by lia. cbn [mbind outcome_bind].
  rewrite i64_arith_ok by (case_match; lia). done.
Qed.

Lemma last_sign_app l x l' :
  Forall (λ ch, separator ch = false ∨ ch = ":") l' → x = "+" ∨ x = "-" →
  last_sign (l ++ x :: l') = Some (length l).
Proof.
  intros Hl Hx. assert (last_sign l' = None) as Hnone.
  { induction Hl as [|ch l' Hch _ IH]; [done|]. cbn [last_sign]. rewrite IH.
    rewrite bool_decide_eq_false_2; [done|]. intros [-> | ->]; destruct Hch as [Hch|Hch]; by vm_compute in Hch. }
  induction l as [|ch l IH]; cbn [app last_sign length]; [|by rewrite IH].
  by rewrite Hnone, bool_decide_eq_true_2.
Qed.

Lemma split_offset_text :
  split_offset (of_chars (clock_chars t ++ offset_chars t)) =
    Some (of_chars (clock_chars t), of_chars (offset_chars t)).
Proof.
  unfold split_offset. rewrite chars_of_chars by (apply wf_chars_app; split; [apply clock_wf|apply offset_wf]).
  assert (∃ c l, clock_chars t = c :: l) as (c & l & Hc).
  { destruct (clock_chars t) as [|c l] eqn:E; [|by eexists _, _]. apply (f_equal length) in E.
    unfold clock_chars in E. rewrite length_app, digits_length in E. cbn in E. lia. }
  rewrite Hc. cbn [app]. unfold offset_chars.
  rewrite last_sign_app; [|apply Forall_app; split; [|constructor; [by right|]]|destruct (ts_west t); by auto].
  2, 3: eapply Forall_impl; [apply (digits_all (λ ch, negb (separator ch))); vm_compute; reflexivity|];
    intros ch Hch%negb_true_iff; by left.
  cbn [mbind option_bind]. rewrite app_comm_cons.
  change (S (length l)) with (length (c :: l)). by rewrite take_app_length, drop_app_length.
Qed.

Definition text_chars : list string := date_chars t ++ "T" :: clock_chars t ++ offset_chars t.

Lemma text_wf : wf_chars text_chars.
Proof. unfold text_chars. rewrite wf_chars_app, wf_chars_cons, wf_chars_app.
  split_and!; [apply date_wf|done|apply clock_wf|apply offset_wf]. Qed.

Lemma date_no_t : Forall (λ ch, char_is "T" ch = false) (date_chars t).
Proof.
  unfold date_chars. repeat (apply Forall_app; split; [by apply digits_no_separator|constructor; [done|]]).
  by apply digits_no_separator.
Qed.

(** The text begins and ends with a digit. *)
Lemma text_last l : ∃ l' d, l ++ offset_chars t = l' ++ [d] ∧ is_digit d = true.
Proof.
  unfold offset_chars. change (digits 2 (ts_offset_minutes t)) with
    (digits 1 (ts_offset_minutes t / 10) ++ [digit_char (ts_offset_minutes t mod 10)]).
  eexists (l ++ _ :: digits 2 (ts_offset_hours t) ++ ":" :: digits 1 (ts_offset_minutes t / 10)),
    (digit_char (ts_offset_minutes t mod 10)).
  split; [|apply digit_char_is_digit; pose proof (Z.mod_pos_bound (ts_offset_minutes t) 10); lia].
  rewrite <-(app_assoc l). f_equal.
Qed.

Lemma text_head : ∃ c l, text_chars = c :: l ∧ is_digit c = true.
Proof.
  unfold text_chars, date_chars. pose proof (digits_digit 4 (ts_year t)) as Hd.
  destruct (digits 4 (ts_year t)) as [|c l] eqn:E.
  - apply (f_equal length) in E. by rewrite digits_length in E.
  - apply Forall_cons in Hd as [Hc _]. by eexists c, _.
Qed.

Lemma trim_text : trim (of_chars text_chars) = of_chars text_chars.
Proof.
  rewrite trim_of_chars by apply text_wf. f_equal.
  assert (∀ d, is_digit d = true → is_whitespace d = false) as Hspace.
  { intros d Hd. apply negb_true_iff. by apply (digit_cases (λ d, negb (is_whitespace d)) d). }
  destruct text_head as (c & l & Hhead & Hc). unfold trim_list. rewrite Hhead. cbn [drop_while].
  rewrite Hspace by done. rewrite <-Hhead.
  destruct (text_last ((date_chars t ++ ["T"]) ++ clock_chars t)) as (l' & d & Hlast & Hd).
  assert (text_chars = l' ++ [d]) as -> by (rewrite <-Hlast; unfold text_chars; by rewrite <-!app_assoc).
  unfold trim_end_list. rewrite reverse_snoc. cbn [drop_while]. rewrite Hspace by done.
  by rewrite reverse_cons, reverse_involutive.
Qed.

Lemma no_zulu x : separator x = true →
  strip_char x (of_chars (clock_chars t ++ offset_chars t)) = None.
Proof.
  intros Hx. unfold strip_char. rewrite chars_of_chars by (apply wf_chars_app; split; [apply clock_wf|apply offset_wf]).
  destruct (text_last (clock_chars t)) as (l' & d & -> & Hd). rewrite reverse_snoc.
  rewrite bool_decide_eq_false_2; [done|]. intros ->.
  apply (digit_cases (λ d, negb (separator d))) in Hd; [|vm_compute; reflexivity]. by rewrite Hx in Hd.
Qed.

Lemma day_number_bounds y m d : valid_date y m d → 0 ≤ y ≤ 9999 → -800000 ≤ day_number y m d ≤ 4000000.
Proof.
  intros [Hm Hd] Hy. pose proof (days_in_month_range y m). pose proof (march_day_range m d Hm).
  unfold day_number. set (y' := y - _). assert (-1 ≤ y' ≤ 9999) by (unfold y'; case_match; lia).
  pose proof (Z.div_mod y' 4). pose proof (Z.mod_pos_bound y' 4).
  pose proof (Z.div_mod y' 100). pose proof (Z.mod_pos_bound y' 100).
  pose proof (Z.div_mod y' 400). pose proof (Z.mod_pos_bound y' 400). lia.
Qed.

(** C30. Parsing reads a printed timestamp back: every valid date and time with
    milliseconds and an offset gives its milliseconds since the epoch, and an
    error exactly when it lies before. *)
Theorem rfc3339_roundtrip :
  parse_rfc3339 (timestamp_text t) =
    if unix_seconds t <? 0 then Err "Recovery timestamp predates the Unix epoch"
    else Ok (unix_seconds t * 1000 + ts_millis t).
Proof.
  pose proof Hvalid as (Hy & Hdate & Hh & Hmi & Hs & Hms & Hoh & Hom). pose proof Hdate as [Hm Hd].
  pose proof (day_number_bounds _ _ _ Hdate Hy) as Hdays.
  unfold parse_rfc3339, timestamp_text. fold text_chars. rewrite trim_text. unfold text_chars. rewrite split_once_chars; [|apply text_wf|apply date_no_t].
  cbn [ok_or mbind outcome_bind]. rewrite parse_date_text. cbn [mbind outcome_bind].
  rewrite !no_zulu by done. rewrite split_offset_text. cbn [ok_or mbind outcome_bind].
  rewrite parse_offset_text. cbn [mbind outcome_bind]. rewrite parse_clock_text. cbn [mbind outcome_bind].
  rewrite days_from_civil_exact by (done || lia). cbn [mbind outcome_bind].
  assert (-86400 ≤ offset_seconds t ≤ 86400) by (unfold offset_seconds; case_match; lia).
  repeat (rewrite i64_arith_ok by lia; cbn [mbind outcome_bind]). done.
Qed.
End roundtrip.

(** *** Witness *)

Definition leap_night : Timestamp :=
  {| ts_year := 2024; ts_month := 2; ts_day := 29; ts_hour := 23; ts_minute := 59; ts_second := 59;
     ts_millis := 123; ts_west := true; ts_offset_hours := 5; ts_offset_minutes := 30 |}.

Lemma rfc3339_roundtrip_witness :
  timestamp_text leap_night = "2024-02-29T23:59:59.123-05:30" ∧
  parse_rfc3339 (H := concrete_std) "2024-02-29T23:59:59.123-05:30" = Ok 1709270999123.
Proof.
  split; [reflexivity|].
  change "2024-02-29T23:59:59.123-05:30" with (timestamp_text leap_night).
  rewrite (rfc3339_roundtrip leap_night).
  - reflexivity.
  - unfold valid_timestamp, valid_date. cbn -[days_in_month].
    change (days_in_month 2024 2) with 29. lia.
Defined.
