(* ===== verification/Recovery.v ===== *)
(** * Recovery.v: backup and restore (src/recovery.rs)

    Creating a backup from a data directory, restoring a backup to its latest
    state, to a point or to a time, and pruning archived logs, each with the lock
    files (src/lock.rs) it leaves behind.  A directory is
    the contents of its files by path; reading and writing them does not fail
    here, what the program refuses does. *)

From Stdlib Require Import Ascii.
From S2P Require Import Prelude Machine Float64 Like Types Concrete Keys Table Eval Queries.
From S2P Require Import Statement Planner Validate Ddl Execute Integrity Params Str Log Parser Wal Database.
From S2P Require Import SqlAst Persistence Calendar.

#[local] Open Scope N_scope.

(** ** Data *)

Record RecoveryPoint := { sql_commit_version : N; kv_sequence : N }.
#[export] Instance RecoveryPoint_eq_dec : EqDecision RecoveryPoint.
Proof. solve_decision. Defined.

Inductive RecoveryTarget := Latest | AtTimestamp (millis : Z) | AtPoint (point : RecoveryPoint).

Record BackupFile := { bf_path : string; bf_size : N; bf_checksum : N }.
Record BackupManifest := {
  bm_format_version : N;
  bm_created_at_millis : N;
  bm_base_point : RecoveryPoint;
  bm_recovery_point : RecoveryPoint;
  bm_sql_base_timestamp_millis : N;
  bm_kv_base_timestamp_millis : N;
  bm_files : list BackupFile;
}.
Definition BACKUP_FORMAT_VERSION : N := 1.

Class BackupFormat := {
  manifest_to_json : BackupManifest → string;
  manifest_from_json : string → option BackupManifest;
  manifest_json_roundtrip : ∀ m, manifest_from_json (manifest_to_json m) = Some m;
}.

(** [RecoveryPoint::from_str]. *)
Definition parse_n (s : string) : option N := Z.to_N <$> parse_u64 s.

Fixpoint parse_point_parts (parts : list string) (sql kv : option N) : outcome (option N * option N) :=
  match parts with
  | [] => Ok (sql, kv)
  | part :: parts =>
      '(name, value) ← ok_or (split_once ":" part) "Recovery point must be sql:N,kv:N";
      let name := to_ascii_lowercase (trim name) in
      if bool_decide (name = "sql") then
        n ← ok_or (parse_n (trim value)) "Invalid SQL commit version"; parse_point_parts parts (Some n) kv
      else if bool_decide (name = "kv") then
        n ← ok_or (parse_n (trim value)) "Invalid KV sequence"; parse_point_parts parts sql (Some n)
      else Err "Recovery point must be sql:N,kv:N"
  end.
Definition recovery_point_from_str (value : string) : outcome RecoveryPoint :=
  '(sql, kv) ← parse_point_parts (split_char "," value) None None;
  sql ← ok_or sql "Recovery point is missing sql:N";
  kv ← ok_or kv "Recovery point is missing kv:N";
  Ok {| sql_commit_version := sql; kv_sequence := kv |}.

(** ** Directories *)

Abbreviation path := (list string).
Abbreviation Tree := (gmap (list string) string).

(** A directory: its name, its files, and the engines that hold its locks. *)
Record Dir := { dir_name : string; dir_files : Tree; dir_sql_active : bool; dir_kv_active : bool }.

(** [PathBuf]'s order: component by component. *)
Fixpoint path_leb (p q : path) : bool :=
  match p, q with
  | [], _ => true
  | _ :: _, [] => false
  | a :: p, b :: q => match String.compare a b with Lt => true | Eq => path_leb p q | Gt => false end
  end.

Fixpoint insert_path (x : path * string) (l : list (path * string)) : list (path * string) :=
  match l with
  | [] => [x]
  | y :: l => if path_leb x.1 y.1 then x :: y :: l else y :: insert_path x l
  end.
(** [list_files]: every file below the directory, in the order of the paths. *)
Definition list_files (t : Tree) : list (path * string) := foldr insert_path [] (map_to_list t).

Definition file_name (p : path) : string := default EmptyString (last p).
Definition slash : ascii := ascii_of_N 47.
Definition backslash : ascii := ascii_of_N 92.

(** A relative path as text, with the backslashes replaced, and back: empty
    components and [.] are skipped. *)
Fixpoint join_path (p : path) : list ascii :=
  match p with
  | [] => []
  | [a] => String.list_ascii_of_string a
  | a :: p => String.list_ascii_of_string a ++ slash :: join_path p
  end.
Definition path_text (p : path) : string :=
  String.string_of_list_ascii ((λ c, if bool_decide (c = backslash) then slash else c) <$> join_path p).
Definition path_of_text (s : string) : path :=
  filter (λ a, a ≠ EmptyString ∧ a ≠ ".")
    (String.string_of_list_ascii <$> split_on (λ c, bool_decide (c = slash)) (String.list_ascii_of_string s)).

Definition display (d : Dir) (p : path) : string := dir_name d +:+ "/" +:+ path_text p.

Definition ensure_destination_empty (d : Dir) : outcome () :=
  if bool_decide (dir_files d = ∅) then Ok ()
  else Err ("Destination '" +:+ dir_name d +:+ "' must be empty").

(** [DataDirLock::acquire]: the lock file is created unless it is there, its
    contents left alone, before the lock is tried. *)
Definition touch (name : string) (t : Tree) : Tree :=
  match t !! [name] with Some _ => t | None => <[[name] := EmptyString]> t end.
Definition lock_name (engine : string) : string := "." +:+ engine +:+ ".lock".
Definition acquire (d : Dir) (engine : string) (active : bool) (t : Tree) : Tree * outcome () :=
  (touch (lock_name engine) t,
   if active then Err ("The " +:+ engine +:+ " engine is active in data directory '" +:+ dir_name d +:+ "'")
   else Ok ()).

(** The locks of both engines, the SQL one first. *)
Definition acquire_locks (d : Dir) : Tree * outcome () :=
  let '(t, sql) := acquire d "sql" (dir_sql_active d) (dir_files d) in
  match sql with
  | Ok _ => acquire d "kv" (dir_kv_active d) t
  | _ => (t, sql)
  end.

(** The files of one subdirectory. *)
Definition subtree (name : string) (t : Tree) : Tree := filter (λ kv, head kv.1 = Some name) t.

(** ** Collecting records *)

(** The records of the logs by number, the first one of each number. *)
Section collect.
Context {R : Type} (from_json : string → option R) (valid : R → bool) (key : R → N).

Fixpoint or_insert (r : R) (l : list R) : list R :=
  match l with
  | [] => [r]
  | x :: l => if key r <? key x then r :: x :: l else if key r =? key x then x :: l else x :: or_insert r l
  end.

Fixpoint collect_lines (invalid : string) (ls : list string) (l : list R) : outcome (list R) :=
  match ls with
  | [] => Ok l
  | line :: ls =>
      match from_json line with
      | Some r => if valid r then collect_lines invalid ls (or_insert r l) else Err invalid
      | None => collect_lines invalid ls l
      end
  end.

Fixpoint collect_files (d : Dir) (kind : string) (is_log : string → bool) (files : list (path * string))
    (l : list R) : outcome (list R) :=
  match files with
  | [] => Ok l
  | (p, content) :: files =>
      if is_log (file_name p) then
        l ← collect_lines ("Invalid " +:+ kind +:+ " WAL record in " +:+ display d p)
              (text_prefix (lines content)) l;
        collect_files d kind is_log files l
      else collect_files d kind is_log files l
  end.

Fixpoint collect_roots (kind : string) (is_log : string → bool) (roots : list Dir) (l : list R) :
    outcome (list R) :=
  match roots with
  | [] => Ok l
  | d :: roots => l ← collect_files d kind is_log (list_files (dir_files d)) l; collect_roots kind is_log roots l
  end.

(** The records a restore writes and how it ends: those after the base, up to the time or the
    number asked for; each has to follow the one before. *)
Context (time : R → N) (follows : R → N → bool) (missing : R → N → string).

Fixpoint select (base : N) (cutoff : option N) (point : option N) (l : list R) (restored : N) :
    list R * outcome N :=
  match l with
  | [] => ([], Ok restored)
  | r :: l =>
      if key r <=? base then select base cutoff point l restored
      else if match cutoff with Some c => c <? time r | None => false end then ([], Ok restored)
      else if match point with Some p => p <? key r | None => false end then
        select base cutoff point l restored
      else if negb (follows r restored) then ([], Err (missing r restored))
      else let '(selected, result) := select base cutoff point l (key r) in (r :: selected, result)
  end.
End collect.

Definition ends_with (suffix s : string) : bool :=
  bool_decide (String.substring (String.length s - String.length suffix) (String.length suffix) s = suffix).
Definition is_sql_log (name : string) : bool :=
  bool_decide (is_Some (find_str "sql" name)) && (ends_with ".wal" name || bool_decide (name = "sql_wal.log")).
Definition is_kv_log (name : string) : bool :=
  starts_with_str "kv-" name || bool_decide (name = "rustydb.wal").

(** ** The backup manager *)

Section manager.
Context `{RustStd} `{SqlGrammar} `{LogFormat} `{StatementDebug} `{SnapshotFormat} `{KvFormat} `{BackupFormat}.

Definition collect_sql_records (roots : list Dir) : outcome (list WalRecord) :=
  collect_roots record_from_json wal_record_valid wr_commit_version "SQL" is_sql_log roots [].
Definition collect_kv_records (roots : list Dir) : outcome (list KvWalRecord) :=
  collect_roots kv_record_from_json kv_record_valid kr_sequence "KV" is_kv_log roots [].

(** The highest number, when the logs can be read. *)
Definition max_sql_version (d : Dir) (base : N) : N :=
  match collect_sql_records [d] with
  | Ok l => N.max (default base (wr_commit_version <$> last l)) base
  | _ => base
  end.
Definition max_kv_sequence (d : Dir) (base : N) : N :=
  match collect_kv_records [d] with
  | Ok l => N.max (default base (kr_sequence <$> last l)) base
  | _ => base
  end.

Definition select_sql : N → option N → option N → list WalRecord → N → list WalRecord * outcome N :=
  select wr_commit_version wr_timestamp_millis (λ r restored, wr_base_version r =? restored)
    (λ r restored, "Missing SQL WAL segment between commit " +:+ pretty restored +:+ " and "
       +:+ pretty (wr_commit_version r)).
Definition select_kv : N → option N → option N → list KvWalRecord → N → list KvWalRecord * outcome N :=
  select kr_sequence kr_timestamp_millis (λ r restored, kr_sequence r =? sat_succ restored)
    (λ r restored, "Missing KV WAL record after sequence " +:+ pretty restored).

Definition checksum_file (content : string) : N := kv_crc32 (string_bytes content).

Definition read_sql_snapshot (content : option string) : outcome (N * N) :=
  match content with
  | None => Ok (0, 0)
  | Some content =>
      s ← ok_or (snapshot_from_json content) "Failed to parse SQL catalog snapshot: error";
      Ok (sn_catalog_version s, sn_timestamp_millis s)
  end.
Definition read_kv_snapshot (content : option string) : outcome (N * N) :=
  match content with
  | None => Ok (0, 0)
  | Some content =>
      if negb (valid_utf8 content) then Err "stream did not contain valid UTF-8"
      else
        match kv_snapshot_from_json content with
        | Some s => Ok (ks_sequence s, ks_timestamp_millis s)
        | None => Ok (0, 0)
        end
  end.

(** The lines of a log in an older format, or torn ones: not blank and not a
    record. *)
Definition legacy_lines {R} (from_json : string → option R) (content : option string) : list string :=
  match content with
  | None => []
  | Some content =>
      filter (λ line, trim line ≠ EmptyString ∧ from_json line = None) (text_prefix (lines content))
  end.

(** *** Creating a backup *)

Definition base_names : list string := ["catalog.json"; "sql_wal.log"; "rustydb.db"; "rustydb.wal"].

(** The files at the top of [src] under [base], the archived logs as they are. *)
Definition copy_named (names : list string) (source : string → option string) (target : string → path) (t : Tree) :
    Tree :=
  foldl (λ t name, match source name with Some content => <[target name := content]> t | None => t end) t names.
Definition backup_files (source : Tree) : Tree :=
  copy_named base_names (λ name, source !! [name]) (λ name, ["base"; name]) (subtree "wal_archive" source).

Definition backup_file (x : path * string) : BackupFile :=
  {| bf_path := path_text x.1; bf_size := N.of_nat (String.length x.2); bf_checksum := checksum_file x.2 |}.
Definition is_manifest (name : string) : bool :=
  bool_decide (name = "manifest.json") || bool_decide (name = "manifest.json.tmp").

(** The files of the source, in which the lock files appear, those of the
    destination, which may be the same directory, and how it ends. *)
Definition create_backup (source destination : Dir) (now : N) : Tree * Tree * outcome BackupManifest :=
  match ensure_destination_empty destination with
  | Ok _ =>
      let '(locked, locks) := acquire_locks source in
      let empty := if bool_decide (dir_name source = dir_name destination) then locked
                   else dir_files destination in
      match locks with
      | Ok _ =>
          let t := backup_files locked ∪ empty in
          let copied := {| dir_name := dir_name destination; dir_files := t;
                           dir_sql_active := false; dir_kv_active := false |} in
          match sql ← read_sql_snapshot (t !! ["base"; "catalog.json"]);
                kv ← read_kv_snapshot (t !! ["base"; "rustydb.db"]); Ok (sql, kv) with
          | Ok ((sql_base, sql_time), (kv_base, kv_time)) =>
              let manifest :=
                {| bm_format_version := BACKUP_FORMAT_VERSION;
                   bm_created_at_millis := now;
                   bm_base_point := {| sql_commit_version := sql_base; kv_sequence := kv_base |};
                   bm_recovery_point := {| sql_commit_version := max_sql_version copied sql_base;
                                           kv_sequence := max_kv_sequence copied kv_base |};
                   bm_sql_base_timestamp_millis := sql_time;
                   bm_kv_base_timestamp_millis := kv_time;
                   bm_files := backup_file <$> filter (λ x, is_manifest (file_name x.1) = false) (list_files t) |} in
              (locked, <[["manifest.json"] := manifest_to_json manifest]> t, Ok manifest)
          | Err e => (locked, t, Err e)
          | Panic => (locked, t, Panic)
          end
      | Err e => (locked, empty, Err e)
      | Panic => (locked, empty, Panic)
      end
  | Err e => (dir_files source, dir_files destination, Err e)
  | Panic => (dir_files source, dir_files destination, Panic)
  end.

(** *** Restoring *)

Fixpoint validate_files (t : Tree) (files : list BackupFile) : outcome () :=
  match files with
  | [] => Ok ()
  | f :: files =>
      match t !! path_of_text (bf_path f) with
      | None => Err ("Backup file '" +:+ bf_path f +:+ "' is missing: not found")
      | Some content =>
          if negb (N.of_nat (String.length content) =? bf_size f)
             || negb (checksum_file content =? bf_checksum f)
          then Err ("Backup file '" +:+ bf_path f +:+ "' failed checksum validation")
          else validate_files t files
      end
  end.

Definition read_manifest (t : Tree) : outcome BackupManifest :=
  content ← ok_or (t !! ["manifest.json"]) "Failed to read backup manifest: not found";
  m ← ok_or (manifest_from_json content) "Failed to parse backup manifest: error";
  if negb (bm_format_version m =? BACKUP_FORMAT_VERSION) then
    Err ("Unsupported backup format " +:+ pretty (bm_format_version m))
  else _ ← validate_files t (bm_files m); Ok m.

(** The snapshots and the archived logs, copied into the locked directory. *)
Definition restore_base (backup locked : Tree) : Tree :=
  copy_named ["catalog.json"; "rustydb.db"] (λ name, backup !! ["base"; name]) (λ name, [name])
    (subtree "wal_archive" backup ∪ locked).

(** The time and the point asked for, against the base of the backup. *)
Definition check_target (m : BackupManifest) (target : RecoveryTarget) :
    outcome (option N * option RecoveryPoint) :=
  match target with
  | Latest => Ok (None, None)
  | AtTimestamp millis =>
      if (millis <? 0)%Z then Err "Recovery timestamp predates the Unix epoch"
      else
        let cutoff := Z.to_N millis in
        let base_time := N.max (bm_sql_base_timestamp_millis m) (bm_kv_base_timestamp_millis m) in
        if negb (base_time =? 0) && (cutoff <? base_time) then
          Err "Recovery timestamp predates the backup base snapshots"
        else Ok (Some cutoff, None)
  | AtPoint point =>
      if (sql_commit_version point <? sql_commit_version (bm_base_point m))
         || (kv_sequence point <? kv_sequence (bm_base_point m)) then
        Err "Recovery point predates the backup base snapshots"
      else Ok (None, Some point)
  end.

(** One log of the restored directory: the older lines, then the selected
    records. *)
Definition restore_log {R} (kind : string) (to_json : R → string) (latest : bool) (legacy : list string)
    (selected : list R * outcome N) : string * outcome N :=
  if bool_decide (legacy ≠ []) && negb latest then
    (EmptyString, Err ("Timestamp/exact recovery requires the versioned " +:+ kind
       +:+ " WAL format; restore Latest once to upgrade legacy WAL"))
  else (text_lines (legacy ++ (to_json <$> selected.1)), selected.2).

Definition not_available (point restored : RecoveryPoint) : string :=
  "Requested recovery point sql:" +:+ pretty (sql_commit_version point) +:+ ",kv:" +:+ pretty (kv_sequence point)
  +:+ " is not fully available (restored sql:" +:+ pretty (sql_commit_version restored) +:+ ",kv:"
  +:+ pretty (kv_sequence restored) +:+ ")".

Definition is_latest (target : RecoveryTarget) : bool := match target with Latest => true | _ => false end.

(** The two logs, the SQL one first. *)
Definition restore_logs (backup : Tree) (m : BackupManifest) (latest : bool) (cutoff : option N)
    (point : option RecoveryPoint) (sqls : list WalRecord) (kvs : list KvWalRecord) (t : Tree) :
    Tree * outcome RecoveryPoint :=
  let base := bm_base_point m in
  let '(sql_log, sql_end) := restore_log "SQL" record_to_json latest
    (legacy_lines record_from_json (backup !! ["base"; "sql_wal.log"]))
    (select_sql (sql_commit_version base) cutoff (sql_commit_version <$> point) sqls (sql_commit_version base)) in
  let t := <[["sql_wal.log"] := sql_log]> t in
  match sql_end with
  | Ok sql =>
      let '(kv_log, kv_end) := restore_log "KV" kv_record_to_json latest
        (legacy_lines kv_record_from_json (backup !! ["base"; "rustydb.wal"]))
        (select_kv (kv_sequence base) cutoff (kv_sequence <$> point) kvs (kv_sequence base)) in
      let t := <[["rustydb.wal"] := kv_log]> t in
      (t, kv ← kv_end;
          let restored := {| sql_commit_version := sql; kv_sequence := kv |} in
          match point with
          | Some point => if bool_decide (restored = point) then Ok restored else Err (not_available point restored)
          | None => Ok restored
          end)
  | Err e => (t, Err e)
  | Panic => (t, Panic)
  end.

Definition restore (backup : Dir) (wal_archive : option Dir) (destination : Dir) (target : RecoveryTarget) :
    Tree * outcome RecoveryPoint :=
  match _ ← ensure_destination_empty destination; read_manifest (dir_files backup) with
  | Ok m =>
      let '(locked, locks) := acquire_locks destination in
      match locks with
      | Ok _ =>
          let t := restore_base (dir_files backup) locked in
          let roots := backup :: option_list wal_archive in
          match '(cutoff, point) ← check_target m target;
                sqls ← collect_sql_records roots; kvs ← collect_kv_records roots; Ok (cutoff, point, sqls, kvs) with
          | Ok (cutoff, point, sqls, kvs) =>
              restore_logs (dir_files backup) m (is_latest target) cutoff point sqls kvs t
          | Err e => (t, Err e)
          | Panic => (t, Panic)
          end
      | Err e => (locked, Err e)
      | Panic => (locked, Panic)
      end
  | Err e => (dir_files destination, Err e)
  | Panic => (dir_files destination, Panic)
  end.

(** *** Pruning *)

Definition record_times (line : string) : list N :=
  match record_from_json line with
  | Some r => if wal_record_valid r then [wr_timestamp_millis r] else []
  | None => []
  end ++
  match kv_record_from_json line with
  | Some r => if kv_record_valid r then [kr_timestamp_millis r] else []
  | None => []
  end.
Definition latest_record_timestamp (content : string) : option N :=
  foldl (λ latest t, Some (N.max (default 0 latest) t)) None (text_prefix (lines content) ≫= record_times).

Record PruneReport := { pr_files : list path; pr_bytes : N; pr_applied : bool }.

Definition prune (d : Dir) (before : Z) (apply : bool) : Tree * outcome PruneReport :=
  let '(locked, locks) := acquire_locks d in
  match _ ← locks; if (before <? 0)%Z then Err "Recovery timestamp predates the Unix epoch" else Ok () with
  | Ok _ =>
      let old := filter (λ x, match latest_record_timestamp x.2 with
                              | Some t => t <? Z.to_N before
                              | None => false
                              end = true) (list_files (subtree "wal_archive" locked)) in
      (if apply then foldl (λ t x, delete x.1 t) locked old else locked,
       Ok {| pr_files := old.*1; pr_bytes := foldl (λ n x, n + N.of_nat (String.length x.2)) 0 old;
             pr_applied := apply |})
  | Err e => (locked, Err e)
  | Panic => (locked, Panic)
  end.
End manager.
