(* ===== verification/Restore.v ===== *)
(** * Restore.v: what a backup gives back

    The records collected from the logs of a backup, the selection a restore
    makes of them, and the round trip from a data directory through a backup to
    the restored directory. *)

From Stdlib Require Import Ascii Sorting.Sorted.
From stdpp Require Import countable.
From S2P Require Import Prelude Machine Float64 Like Types Concrete Keys Table Eval Queries.
From S2P Require Import Statement Planner Validate Ddl Execute Integrity Params Str Log Coding Parser Wal Database.
From S2P Require Import SqlAst Persistence KvStore KvDurable KvConcrete Calendar Recovery.

(** ** Collecting *)

Section collect_laws.
Context {R : Type} (from_json : string → option R) (valid : R → bool) (key : R → N).
#[local] Notation put := (Recovery.or_insert key).

Definition before (r r' : R) : Prop := (key r < key r')%N.

Lemma or_insert_elem r l x : x ∈ put r l → x = r ∨ x ∈ l.
Proof.
  induction l as [|y l IH]; cbn [Recovery.or_insert]; [set_solver|].
  repeat case_match; rewrite ?elem_of_cons in *; naive_solver.
Qed.

Lemma or_insert_keeps r l x : x ∈ l → x ∈ put r l.
Proof.
  induction l as [|y l IH]; cbn [Recovery.or_insert]; [by intros ?%elem_of_nil|].
  repeat case_match; rewrite ?elem_of_cons in *; naive_solver.
Qed.

Lemma or_insert_key r l : ∃ x, x ∈ put r l ∧ key x = key r.
Proof.
  induction l as [|y l (x & Hx & Hk)]; cbn [Recovery.or_insert]; [exists r; by rewrite elem_of_cons; auto|].
  destruct (N.ltb_spec (key r) (key y)); [exists r; rewrite elem_of_cons; auto|].
  destruct (N.eqb_spec (key r) (key y)); [exists y; rewrite elem_of_cons; auto|].
  exists x. rewrite elem_of_cons. auto.
Qed.

Lemma or_insert_sorted r l : StronglySorted before l → StronglySorted before (put r l).
Proof.
  induction 1 as [|y l Hs IH Hy]; cbn [Recovery.or_insert]; [by repeat constructor|].
  destruct (N.ltb_spec (key r) (key y)) as [Hlt|Hge].
  - constructor; [by constructor|]. constructor; [done|].
    eapply Forall_impl; [exact Hy|]. intros x Hx. unfold before in *. lia.
  - destruct (N.eqb_spec (key r) (key y)) as [He|Hne]; [by constructor|]. constructor; [done|].
    apply Forall_forall. intros x [->|Hx]%or_insert_elem; [unfold before; lia|].
    rewrite Forall_forall in Hy. by apply Hy.
Qed.

Definition insert_all (l rs : list R) : list R := foldl (λ l r, put r l) l rs.

Lemma insert_all_spec rs : ∀ l, StronglySorted before l →
  StronglySorted before (insert_all l rs) ∧
  (∀ x, x ∈ insert_all l rs → x ∈ l ∨ x ∈ rs) ∧
  (∀ x, x ∈ l → x ∈ insert_all l rs) ∧
  (∀ r, r ∈ rs → ∃ x, x ∈ insert_all l rs ∧ key x = key r).
Proof.
  induction rs as [|r rs IH]; intros l Hl.
  - split_and!; [done|by left|done|by intros r ?%elem_of_nil].
  - destruct (IH (put r l) (or_insert_sorted r l Hl)) as (Hs & He & Hk & Hr).
    split_and!; [exact Hs| | |].
    + intros x [Hx|Hx]%He; [|right; by right]. apply or_insert_elem in Hx as [->|Hx]; [right; by left|by left].
    + intros x Hx. apply Hk. by apply or_insert_keeps.
    + intros x [->|Hx]%elem_of_cons; [|by apply Hr].
      destruct (or_insert_key r l) as (y & Hy & Hyk). exists y. split; [by apply Hk|done].
Qed.

(** Strictly sorted lists with the same elements are equal. *)
Lemma sorted_unique l l' :
  StronglySorted before l → StronglySorted before l' → (∀ x, x ∈ l ↔ x ∈ l') → l = l'.
Proof.
  intros Hl. revert l'. induction Hl as [|x l Hl IH Hx]; intros l' Hl' Heq.
  - destruct l' as [|y l']; [done|]. assert (y ∈ @nil R) as Hy by (apply Heq; by left). by apply elem_of_nil in Hy.
  - destruct Hl' as [|y l' Hl' Hy]; [assert (x ∈ @nil R) as Hn by (apply Heq; by left); by apply elem_of_nil in Hn|].
    rewrite Forall_forall in Hx, Hy. unfold before in Hx, Hy.
    assert (x = y) as <-.
    { assert (x ∈ y :: l') as [->|H1]%elem_of_cons by (apply Heq; by left); [done|].
      assert (y ∈ x :: l) as [->|H2]%elem_of_cons by (apply Heq; by left); [done|].
      specialize (Hx y H2). specialize (Hy x H1). lia. }
    f_equal. apply IH; [done|]. intros z. split; intros Hz.
    + assert (z ∈ x :: l') as [->|H1]%elem_of_cons by (apply Heq; by right); [|done].
      specialize (Hx x Hz). lia.
    + assert (z ∈ x :: l) as [->|H1]%elem_of_cons by (apply Heq; by right); [|done].
      specialize (Hy x Hz). lia.
Qed.

(** The records of a text, and of the logs among some files. *)
Definition readable (content : string) : list R := omap from_json (text_prefix (lines content)).
Definition log_records (is_log : string → bool) (files : list (path * string)) : list R :=
  files ≫= (λ x, if is_log (file_name x.1) then readable x.2 else []).

Lemma collect_lines_all invalid ls : ∀ l,
  Forall (λ r, valid r = true) (omap from_json ls) →
  collect_lines from_json valid key invalid ls l = Ok (insert_all l (omap from_json ls)).
Proof.
  induction ls as [|line ls IH]; intros l Hv; [done|]. cbn [collect_lines omap list_omap] in Hv |- *.
  destruct (from_json line) as [r|]; [|by apply IH]. apply Forall_cons in Hv as [-> Hv]. by apply IH.
Qed.

Lemma collect_files_all d kind is_log files : ∀ l,
  Forall (λ r, valid r = true) (log_records is_log files) →
  collect_files from_json valid key d kind is_log files l = Ok (insert_all l (log_records is_log files)).
Proof.
  induction files as [|[p content] files IH]; intros l Hv; [done|].
  change (log_records is_log ((p, content) :: files)) with
    ((if is_log (file_name p) then readable content else []) ++ log_records is_log files) in *.
  cbn [collect_files]. apply Forall_app in Hv as [Hc Hv].
  destruct (is_log (file_name p)); [|by apply IH]. rewrite collect_lines_all by done.
  cbn [mbind outcome_bind]. rewrite IH by done. unfold insert_all. by rewrite foldl_app.
Qed.

(** The collected records beyond the base are the ones of a sorted list that
    the logs hold exactly, whatever they hold up to the base. *)
Lemma collect_beyond d kind is_log base rs :
  let all := log_records is_log (list_files (dir_files d)) in
  Forall (λ r, valid r = true) all → StronglySorted before rs →
  (∀ r, (base < key r)%N → r ∈ all ↔ r ∈ rs) → Forall (λ r, base < key r)%N rs →
  ∃ l, collect_roots from_json valid key kind is_log [d] [] = Ok l ∧
    StronglySorted before l ∧ filter (λ r, base < key r)%N l = rs.
Proof.
  intros all Hv Hrs Hbeyond Hbase. cbn [collect_roots]. rewrite collect_files_all by done.
  exists (insert_all [] all). split; [done|].
  destruct (insert_all_spec all []) as (Hs & He & _ & Hk); [constructor|]. split; [done|].
  apply sorted_unique.
  - clear -Hs. induction Hs as [|x l Hs IH Hx]; [constructor|]. rewrite filter_cons. case_decide; [|done].
    constructor; [done|]. rewrite Forall_forall in Hx |- *.
    intros y [_ Hy]%list_elem_of_filter. by apply Hx.
  - done.
  - intros x. rewrite list_elem_of_filter. split.
    + intros [Hb [Hx|Hx]%He]; [by apply elem_of_nil in Hx|]. by apply Hbeyond.
    + intros Hx. assert (base < key x)%N as Hb by (rewrite Forall_forall in Hbase; by apply Hbase).
      split; [done|]. assert (x ∈ all) as Hall by by apply Hbeyond.
      destruct (Hk x Hall) as (y & Hy & Hyk). apply He in Hy as Hy'. destruct Hy' as [Hy'|Hy'];
        [by apply elem_of_nil in Hy'|]. assert (y ∈ rs) as Hyrs by (apply Hbeyond; [lia|done]).
      enough (y = x) as <- by done. clear -Hrs Hx Hyrs Hyk.
      induction Hrs as [|z rs Hrs IH Hz]; [by apply elem_of_nil in Hx|].
      rewrite Forall_forall in Hz. unfold before in Hz.
      apply elem_of_cons in Hx as [->|Hx], Hyrs as [->|Hy]; [done|..].
      * specialize (Hz y Hy). lia.
      * specialize (Hz x Hx). lia.
      * by apply IH.
Qed.

(** ** Selecting *)

Context (time : R → N) (follows : R → N → bool) (missing : R → N → string).
#[local] Notation pick := (Recovery.select key time follows missing).

Lemma select_filter base cutoff point l : ∀ restored,
  pick base cutoff point l restored = pick base cutoff point (filter (λ r, base < key r)%N l) restored.
Proof.
  induction l as [|r l IH]; intros restored; [done|]. rewrite filter_cons. cbn [Recovery.select].
  case_decide as Hb.
  - cbn [Recovery.select]. rewrite (proj2 (N.leb_gt _ _)) by done.
    by rewrite <-(IH restored), <-(IH (key r)).
  - rewrite (proj2 (N.leb_le _ _)) by lia. apply IH.
Qed.

(** Records that follow each other from one number to another. *)
Fixpoint linked (restored : N) (l : list R) (final : N) : Prop :=
  match l with
  | [] => final = restored
  | r :: l => follows r restored = true ∧ linked (key r) l final
  end.

(** What of the sorted records is asked for, and what is not. *)
Definition wanted (cutoff point : option N) (r : R) : Prop :=
  match cutoff with Some c => (time r ≤ c)%N | None => True end ∧
  match point with Some p => (key r ≤ p)%N | None => True end.
Definition unwanted (cutoff point : option N) (l : list R) : Prop :=
  match l with
  | [] => True
  | r :: _ =>
      (∃ c, cutoff = Some c ∧ (c < time r)%N) ∨
      (cutoff = None ∧ ∃ p, point = Some p ∧ Forall (λ r, p < key r)%N l)
  end.

Lemma select_unwanted base cutoff point l restored :
  Forall (λ r, base < key r)%N l → unwanted cutoff point l →
  pick base cutoff point l restored = ([], Ok restored).
Proof.
  intros Hb Hl. destruct l as [|r l]; [done|]. destruct Hl as [(c & -> & Hc)|(-> & p & -> & Hp)].
  - apply Forall_cons in Hb as [Hb _]. cbn [Recovery.select].
    rewrite (proj2 (N.leb_gt _ _)) by done. by rewrite (proj2 (N.ltb_lt _ _)) by done.
  - induction Hp as [|x l' Hx _ IH]; [done|]. apply Forall_cons in Hb as [Hx' Hb]. cbn [Recovery.select].
    rewrite (proj2 (N.leb_gt _ _)) by done. rewrite (proj2 (N.ltb_lt _ _)) by done. by apply IH.
Qed.

Lemma select_prefix base cutoff point l l' : ∀ restored final,
  Forall (λ r, base < key r)%N (l ++ l') → Forall (wanted cutoff point) l → unwanted cutoff point l' →
  linked restored l final → pick base cutoff point (l ++ l') restored = (l, Ok final).
Proof.
  induction l as [|r l IH]; intros restored final Hb Hw Hu Hl.
  - cbn in Hl. subst. by apply select_unwanted.
  - cbn [app] in Hb |- *. apply Forall_cons in Hb as [Hr Hb]. apply Forall_cons in Hw as [[Hc Hp] Hw].
    destruct Hl as [Hf Hl]. cbn [Recovery.select]. rewrite (proj2 (N.leb_gt _ _)) by done.
    assert (match cutoff with Some c => (c <? time r)%N | None => false end = false) as ->
      by (destruct cutoff; [by apply N.ltb_ge|done]).
    assert (match point with Some p => (p <? key r)%N | None => false end = false) as ->
      by (destruct point; [by apply N.ltb_ge|done]).
    rewrite Hf. cbn [negb]. by rewrite (IH _ final).
Qed.
End collect_laws.

(** ** Paths and trees *)

(** A component that its text gives back. *)
Definition plain_name (a : string) : Prop :=
  a ≠ EmptyString ∧ a ≠ "." ∧ Forall (λ c, c ≠ slash ∧ c ≠ backslash) (String.list_ascii_of_string a).
Definition plain_path (p : path) : Prop := p ≠ [] ∧ Forall plain_name p.

Lemma join_path_split p :
  p ≠ [] → Forall plain_name p →
  split_on (λ c, bool_decide (c = slash)) (join_path p) = String.list_ascii_of_string <$> p.
Proof.
  intros Hne Hp. destruct p as [|a p]; [done|]. clear Hne. revert a Hp.
  induction p as [|b p IH]; intros a [(_ & _ & Ha) Hp]%Forall_cons.
  - apply split_on_plain. eapply Forall_impl; [exact Ha|]. intros c [Hc _]. by apply bool_decide_eq_false.
  - change (join_path (a :: b :: p)) with (String.list_ascii_of_string a ++ slash :: join_path (b :: p)).
    rewrite split_on_app; [by rewrite IH| |by apply bool_decide_eq_true].
    eapply Forall_impl; [exact Ha|]. intros c [Hc _]. by apply bool_decide_eq_false.
Qed.

Lemma path_text_roundtrip p : plain_path p → path_of_text (path_text p) = p.
Proof.
  intros [Hne Hp]. unfold path_of_text, path_text. rewrite String.list_ascii_of_string_of_list_ascii.
  assert ((λ c, if bool_decide (c = backslash) then slash else c) <$> join_path p = join_path p) as ->.
  { clear Hne. induction Hp as [|a p (_ & _ & Ha) _ IH]; [done|].
    assert ((λ c, if bool_decide (c = backslash) then slash else c) <$> String.list_ascii_of_string a
      = String.list_ascii_of_string a) as Hmap.
    { clear IH. induction Ha as [|c l [_ Hc] _ IH]; [done|]. rewrite fmap_cons, IH.
      by rewrite bool_decide_eq_false_2. }
    destruct p as [|b p]; [exact Hmap|].
    change (join_path (a :: b :: p)) with (String.list_ascii_of_string a ++ slash :: join_path (b :: p)).
    by rewrite fmap_app, fmap_cons, Hmap, IH. }
  rewrite join_path_split by done. rewrite <-list_fmap_compose.
  induction Hp as [|a p (He & Hd & _) Hp IH]; [done|]. clear Hne. rewrite fmap_cons. cbn [compose].
  rewrite String.string_of_list_ascii_of_string, filter_cons_True by done. f_equal.
  destruct p; [done|]. by apply IH.
Qed.

Lemma insert_path_perm x l : insert_path x l ≡ₚ x :: l.
Proof. induction l as [|y l IH]; [done|]. cbn [insert_path]. case_match; [done|]. rewrite IH. constructor. Qed.

Lemma list_files_perm t : list_files t ≡ₚ map_to_list t.
Proof.
  unfold list_files. induction (map_to_list t) as [|x l IH]; [done|]. cbn [foldr].
  etransitivity; [apply insert_path_perm|by constructor].
Qed.

Lemma elem_of_list_files t p c : (p, c) ∈ list_files t ↔ t !! p = Some c.
Proof. rewrite list_files_perm. apply elem_of_map_to_list. Qed.

Section copy.
Context (source : string → option string) (target : string → path) `{!Inj (=) (=) target}.

Lemma copy_named_other names t p :
  (∀ name, name ∈ names → p ≠ target name) → copy_named names source target t !! p = t !! p.
Proof.
  revert t. induction names as [|n names IH]; intros t Hp; [done|].
  change (copy_named (n :: names) source target t) with (copy_named names source target
    (match source n with Some content => <[target n := content]> t | None => t end)).
  rewrite IH by (intros name Hn; apply Hp; by right). destruct (source n); [|done].
  apply lookup_insert_ne. intros He. apply (Hp n); [by left|done].
Qed.

Lemma copy_named_lookup names t name :
  name ∈ names → t !! target name = None → copy_named names source target t !! target name = source name.
Proof.
  intros Hn Ht.
  assert (t !! target name = None ∨ t !! target name = source name) as Hor by by left. clear Ht.
  revert t Hor. induction names as [|n names IH]; intros t Hor; [by apply elem_of_nil in Hn|].
  change (copy_named (n :: names) source target t) with (copy_named names source target
    (match source n with Some content => <[target n := content]> t | None => t end)).
  destruct (decide (name ∈ names)) as [Hin|Hin].
  - apply IH; [done|]. destruct (decide (n = name)) as [->|Hne].
    + destruct (source name) eqn:E; [right; by rewrite lookup_insert_eq|].
      left. destruct Hor as [Hor|Hor]; congruence.
    + destruct (source n); [|done]. rewrite lookup_insert_ne by (intros He; by apply Hne, (inj target)). done.
  - apply elem_of_cons in Hn as [->|Hn]; [|done].
    rewrite copy_named_other by (intros name Hname He; apply (inj target) in He; congruence).
    destruct (source n) eqn:E; [by rewrite lookup_insert_eq|]. destruct Hor; congruence.
Qed.
End copy.

(** ** From the source through the backup *)

(** ** The lock files *)

(** The files of a directory whose locks were taken. *)
Definition locked (t : Tree) : Tree := touch ".kv.lock" (touch ".sql.lock" t).

Lemma acquire_locks_ok d : (acquire_locks d).2 = Ok () → acquire_locks d = (locked (dir_files d), Ok ()).
Proof. unfold acquire_locks, acquire. by destruct (dir_sql_active d), (dir_kv_active d). Qed.

Lemma touch_lookup name t p :
  touch name t !! p = t !! p ∨ p = [name] ∧ t !! p = None ∧ touch name t !! p = Some EmptyString.
Proof.
  unfold touch. destruct (t !! [name]) eqn:Hn; [by left|].
  destruct (decide ([name] = p)) as [<-|Hne]; [right; by rewrite lookup_insert_eq|left; by rewrite lookup_insert_ne].
Qed.

(** Taking the locks changes nothing but a lock file that was not there. *)
Definition lock_path (p : path) : Prop := p = [".sql.lock"] ∨ p = [".kv.lock"].

Lemma acquire_locks_lookup d p :
  (acquire_locks d).1 !! p = dir_files d !! p ∨
  lock_path p ∧ dir_files d !! p = None ∧ (acquire_locks d).1 !! p = Some EmptyString.
Proof.
  unfold acquire_locks, acquire. change (lock_name "sql") with ".sql.lock". change (lock_name "kv") with ".kv.lock".
  destruct (touch_lookup ".sql.lock" (dir_files d) p) as [Hs|(-> & Hn & Hs)].
  - destruct (dir_sql_active d); [by left|]. cbn [fst].
    destruct (touch_lookup ".kv.lock" (touch ".sql.lock" (dir_files d)) p) as [Hk|(-> & Hn & Hk)].
    + left. by rewrite Hk.
    + right. rewrite <-Hs. by split; [right|].
  - right. split; [by left|]. split; [done|]. destruct (dir_sql_active d); [done|]. cbn [fst].
    by destruct (touch_lookup ".kv.lock" (touch ".sql.lock" (dir_files d)) [".sql.lock"]) as [Hk|(? & _)];
      [rewrite Hk|].
Qed.

Lemma touch_other name t p : p ≠ [name] → touch name t !! p = t !! p.
Proof. intros Hp. by destruct (touch_lookup name t p) as [?|(? & _)]. Qed.

Lemma subtree_locked t : subtree "wal_archive" (locked t) = subtree "wal_archive" t.
Proof.
  unfold subtree. apply map_eq. intros p. apply option_eq. intros c.
  rewrite !map_lookup_filter_Some. cbn [fst]. unfold locked.
  split; intros [Hc Hh]; (split; [|done]); revert Hc; by rewrite !touch_other by (intros ->; discriminate).
Qed.

Lemma backup_files_locked t : backup_files (locked t) = backup_files t.
Proof.
  unfold backup_files. rewrite subtree_locked. unfold copy_named, base_names. cbn [foldl]. unfold locked.
  by rewrite !touch_other by done.
Qed.

Section backup.
Context `{RustStd} `{SqlGrammar} `{LogFormat} `{StatementDebug} `{SnapshotFormat} `{KvFormat} `{BackupFormat}.

#[local] Instance base_inj : Inj (=) (=) (λ name : string, ["base"; name]).
Proof. by intros a b [= ->]. Qed.
#[local] Instance single_inj : Inj (=) (=) (λ name : string, [name]).
Proof. by intros a b [= ->]. Qed.

Lemma subtree_lookup name t p : head p = Some name → subtree name t !! p = t !! p.
Proof.
  intros Hp. unfold subtree. apply option_eq. intros c. rewrite map_lookup_filter_Some. naive_solver.
Qed.
Lemma subtree_lookup_other name t p : head p ≠ Some name → subtree name t !! p = None.
Proof. intros Hp. unfold subtree. apply map_lookup_filter_None. right. naive_solver. Qed.

Lemma backup_base t name : name ∈ base_names → backup_files t !! ["base"; name] = t !! [name].
Proof.
  intros Hn. unfold backup_files.
  apply (copy_named_lookup (λ name, t !! [name]) (λ name, ["base"; name])); [done|].
  by apply subtree_lookup_other.
Qed.

Lemma backup_archive t p : head p = Some "wal_archive" → backup_files t !! p = t !! p.
Proof.
  intros Hp. unfold backup_files. rewrite copy_named_other by (intros name _ ->; done).
  by apply subtree_lookup.
Qed.

(** What a backup holds: the four files at its base, and the archive. *)
Lemma backup_cases t p c :
  backup_files t !! p = Some c →
  (∃ name, name ∈ base_names ∧ p = ["base"; name] ∧ t !! [name] = Some c) ∨
  (head p = Some "wal_archive" ∧ t !! p = Some c).
Proof.
  intros Hp. destruct (decide (head p = Some "wal_archive")) as [Hh|Hh].
  - right. split; [done|]. by rewrite backup_archive in Hp.
  - left. destruct (decide (Exists (λ name, p = ["base"; name]) base_names)) as [He|He].
    + apply Exists_exists in He as (name & Hn & ->). exists name. rewrite backup_base in Hp by done. done.
    + unfold backup_files in Hp. rewrite copy_named_other, subtree_lookup_other in Hp; [done|done|].
      intros name Hn ->. apply He, Exists_exists. by exists name.
Qed.

(** A data directory at rest: a snapshot of the key-value store numbered [b]
    that stands for [base], its log [rs]; a catalog at version [v], its log of
    old commits and of [new] ones up to [w]; archived logs that go no further
    than the snapshots. *)
Record source_ok (t : Tree) b base (rs : list KvWalRecord) v (old new : list WalRecord) w
    (sql_time kv_time : N) : Prop := {
  src_paths : ∀ p c, t !! p = Some c → plain_path p;
  src_snapshot : snapshot_holds (t !! ["rustydb.db"]) b base;
  src_snapshot_time : read_kv_snapshot (t !! ["rustydb.db"]) = Ok (b, kv_time);
  src_kv_log : kv_log b rs;
  src_kv_wal : default EmptyString (t !! ["rustydb.wal"]) = kv_log_text rs;
  src_kv_room : (b + N.of_nat (length rs) < u64_max)%N;
  src_kv_archive : ∀ p c r, t !! p = Some c → head p = Some "wal_archive" → is_kv_log (file_name p) = true →
    r ∈ readable kv_record_from_json c → kv_record_valid r = true ∧ (kr_sequence r ≤ b)%N;
  src_catalog : read_sql_snapshot (t !! ["catalog.json"]) = Ok (v, sql_time);
  src_sql_wal : default EmptyString (t !! ["sql_wal.log"]) = log_of (old ++ new);
  src_old : Forall (λ r, written r ∧ wr_commit_version r ≤ v)%N old;
  src_new : chained v new w;
  src_sql_archive : ∀ p c r, t !! p = Some c → head p = Some "wal_archive" → is_sql_log (file_name p) = true →
    r ∈ readable record_from_json c → wal_record_valid r = true ∧ (wr_commit_version r ≤ v)%N;
}.

(** *** The records of the logs *)

Lemma text_prefix_lines ls rest :
  Forall (λ l, no_control l ∧ valid_utf8 l = true) ls → text_prefix (lines (text_lines ls +:+ rest)) = ls ++ text_prefix (lines rest).
Proof.
  intros Hl. rewrite lines_text by (eapply Forall_impl; [exact Hl|naive_solver]).
  induction Hl as [|l ls [_ Hu] _ IH]; [done|]. cbn [app text_prefix]. by rewrite Hu, IH.
Qed.

Lemma readable_kv rs : readable kv_record_from_json (kv_log_text rs) = rs.
Proof.
  unfold readable. rewrite <-(append_empty_r (kv_log_text rs)). unfold kv_log_text.
  rewrite text_prefix_lines by (apply Forall_fmap, Forall_true; intros r; by destruct (kv_record_json_line r) as (? & ? & _)).
  rewrite app_nil_r. induction rs as [|r rs IH]; [done|]. rewrite fmap_cons. cbn [omap list_omap].
  by rewrite kv_record_json_roundtrip, IH.
Qed.

Lemma log_of_lines rs : log_of rs = text_lines (record_to_json <$> rs).
Proof.
  induction rs as [|r rs IH]; [done|].
  change (log_of (r :: rs)) with (log_line r +:+ log_of rs). unfold log_line. rewrite IH.
  by rewrite app_assoc_string.
Qed.

Lemma readable_sql rs : Forall written rs → readable record_from_json (log_of rs) = rs.
Proof.
  intros Hw. unfold readable. rewrite <-(append_empty_r (log_of rs)), log_of_lines.
  rewrite text_prefix_lines.
  - rewrite app_nil_r. induction Hw as [|r rs [_ Hs] _ IH]; [done|]. rewrite fmap_cons. cbn [omap list_omap].
    by rewrite record_json_roundtrip, IH.
  - apply Forall_fmap. eapply Forall_impl; [exact Hw|]. intros r [_ Hs]. by destruct (record_json_line r Hs) as (? & ? & _).
Qed.

(** No line of such a log counts as an older format. *)
Lemma legacy_kv rs content : default EmptyString content = kv_log_text rs → legacy_lines kv_record_from_json content = [].
Proof.
  intros Hc. destruct content as [content|]; [|done]. cbn in Hc. subst. unfold legacy_lines.
  rewrite <-(append_empty_r (kv_log_text rs)). unfold kv_log_text.
  rewrite text_prefix_lines by (apply Forall_fmap, Forall_true; intros r; by destruct (kv_record_json_line r) as (? & ? & _)).
  rewrite app_nil_r. induction rs as [|r rs IH]; [done|]. rewrite fmap_cons, filter_cons_False; [done|].
  rewrite kv_record_json_roundtrip. naive_solver.
Qed.

Lemma legacy_sql rs content :
  Forall written rs → default EmptyString content = log_of rs → legacy_lines record_from_json content = [].
Proof.
  intros Hw Hc. destruct content as [content|]; [|done]. cbn in Hc. subst. unfold legacy_lines.
  rewrite <-(append_empty_r (log_of rs)), log_of_lines. rewrite text_prefix_lines.
  - rewrite app_nil_r. induction Hw as [|r rs [_ Hs] _ IH]; [done|]. rewrite fmap_cons, filter_cons_False; [done|].
    rewrite record_json_roundtrip by done. naive_solver.
  - apply Forall_fmap. eapply Forall_impl; [exact Hw|]. intros r [_ Hs]. by destruct (record_json_line r Hs) as (? & ? & _).
Qed.

(** *** Collecting them from the backup *)

Definition published (t : Tree) (manifest : string) : Tree := <[["manifest.json"] := manifest]> (backup_files t).

(** A tree that holds the files of [t] a backup takes, and at most a manifest
    besides. *)
Record backs_up (t bt : Tree) : Prop := {
  bu_base : ∀ name, name ∈ base_names → bt !! ["base"; name] = t !! [name];
  bu_archive : ∀ p, head p = Some "wal_archive" → bt !! p = t !! p;
  bu_cases : ∀ p c, bt !! p = Some c → p = ["manifest.json"] ∨
    (∃ name, name ∈ base_names ∧ p = ["base"; name] ∧ t !! [name] = Some c) ∨
    (head p = Some "wal_archive" ∧ t !! p = Some c);
}.

Lemma backup_files_backs_up t : backs_up t (backup_files t).
Proof.
  split; [apply backup_base|apply backup_archive|]. intros p c Hp. right. by apply backup_cases.
Qed.

Lemma published_backs_up t manifest : backs_up t (published t manifest).
Proof.
  destruct (backup_files_backs_up t) as [Hb Ha Hc]. unfold published. split.
  - intros name Hn. rewrite lookup_insert_ne by done. by apply Hb.
  - intros p Hp. rewrite lookup_insert_ne by (intros <-; by cbn in Hp). by apply Ha.
  - intros p c Hp. destruct (decide (p = ["manifest.json"])) as [->|Hne]; [by left|].
    rewrite lookup_insert_ne in Hp by done. by apply Hc.
Qed.

Lemma backup_log_records {R} (from_json : string → option R) is_log log t bt r :
  backs_up t bt → is_log "manifest.json" = false → (∀ name, name ∈ base_names → is_log name = true → name = log) →
  is_log log = true → log ∈ base_names →
  r ∈ log_records from_json is_log (list_files bt) ↔
    (∃ c, t !! [log] = Some c ∧ r ∈ readable from_json c) ∨
    (∃ p c, head p = Some "wal_archive" ∧ t !! p = Some c ∧ is_log (file_name p) = true ∧ r ∈ readable from_json c).
Proof.
  intros [Hbase Harch Hcases] Hm Hone Hlog Hin. unfold log_records. rewrite list_elem_of_bind. split.
  - intros ([p c] & Hr & Hp%elem_of_list_files). cbn [fst snd] in Hr.
    destruct (is_log (file_name p)) eqn:Hl; [|by apply elem_of_nil in Hr].
    apply Hcases in Hp as [->|[(name & Hn & -> & Hc)|[Hh Hc]]]; [|left|right; by eexists p, c].
    { change (file_name ["manifest.json"]) with "manifest.json" in Hl. congruence. }
    change (file_name ["base"; name]) with name in Hl. rewrite (Hone name Hn Hl) in Hc. by exists c.
  - intros [(c & Hc & Hr)|(p & c & Hh & Hc & Hl & Hr)].
    + exists (["base"; log], c). cbn [fst snd]. change (file_name ["base"; log]) with log. rewrite Hlog.
      split; [done|]. apply elem_of_list_files. by rewrite Hbase.
    + exists (p, c). cbn [fst snd]. rewrite Hl. split; [done|]. apply elem_of_list_files. by rewrite Harch.
Qed.

Context (t : Tree) (b : N) (base : gmap string string) (rs : list KvWalRecord) (v : N)
  (old new : list WalRecord) (w sql_time kv_time : N) (Hsource : source_ok t b base rs v old new w sql_time kv_time).

Lemma kv_readable r : (∃ c, t !! ["rustydb.wal"] = Some c ∧ r ∈ readable kv_record_from_json c) ↔ r ∈ rs.
Proof.
  pose proof (src_kv_wal _ _ _ _ _ _ _ _ _ _ Hsource) as Hw. rewrite <-(readable_kv rs), <-Hw.
  destruct (t !! ["rustydb.wal"]) as [c|]; cbn [default from_option id]; [naive_solver|].
  split; [by intros (? & ? & ?)|by intros ?%elem_of_nil].
Qed.

Lemma sql_readable r :
  (∃ c, t !! ["sql_wal.log"] = Some c ∧ r ∈ readable record_from_json c) ↔ r ∈ old ++ new.
Proof.
  pose proof (src_sql_wal _ _ _ _ _ _ _ _ _ _ Hsource) as Hw.
  assert (Forall written (old ++ new)) as Hwr.
  { apply Forall_app. split; [|by eapply chained_written, src_new].
    eapply Forall_impl; [by eapply src_old|naive_solver]. }
  rewrite <-(readable_sql _ Hwr), <-Hw.
  destruct (t !! ["sql_wal.log"]) as [c|]; cbn [default from_option id]; [naive_solver|].
  split; [by intros (? & ? & ?)|by intros ?%elem_of_nil].
Qed.

Lemma kv_sorted : StronglySorted (before kr_sequence) rs ∧ Forall (λ r, b < kr_sequence r)%N rs ∧
  Forall (λ r, kv_record_valid r = true) rs.
Proof.
  pose proof (src_kv_log _ _ _ _ _ _ _ _ _ _ Hsource) as Hl. clear -Hl. split_and!.
  - assert (∀ i j r r', i < j → rs !! i = Some r → rs !! j = Some r' → before kr_sequence r r') as Hlt.
    { intros i j r r' Hij [_ Hi]%Hl [_ Hj]%Hl. unfold before. lia. }
    clear Hl. induction rs as [|r l IH]; [constructor|]. constructor.
    + apply IH. intros i j x y Hij Hx Hy. apply (Hlt (S i) (S j)); [lia|done|done].
    + apply Forall_lookup. intros i x Hx. by apply (Hlt 0 (S i)); [lia|..].
  - apply Forall_lookup. intros i r [_ Hr]%Hl. lia.
  - by eapply kv_log_valid.
Qed.

Lemma sql_sorted : StronglySorted (before wr_commit_version) new ∧ Forall (λ r, v < wr_commit_version r)%N new.
Proof.
  pose proof (src_new _ _ _ _ _ _ _ _ _ _ Hsource) as Hn. clear -Hn.
  induction Hn as [|v r l w Hb Hlt _ _ [IHs IHf]]; [split; constructor|]. split.
  - constructor; [done|]. exact IHf.
  - constructor; [done|]. eapply Forall_impl; [exact IHf|]. cbn. lia.
Qed.

Lemma collected_kv d :
  backs_up t (dir_files d) →
  ∃ l, collect_kv_records [d] = Ok l ∧ StronglySorted (before kr_sequence) l ∧
    filter (λ r, b < kr_sequence r)%N l = rs.
Proof.
  intros Hbt. destruct kv_sorted as (Hs & Hb & Hv).
  assert (∀ r, r ∈ log_records kv_record_from_json is_kv_log (list_files (dir_files d)) →
    r ∈ rs ∨ kv_record_valid r = true ∧ (kr_sequence r ≤ b)%N) as Hall.
  { intros r Hr. apply (backup_log_records _ _ "rustydb.wal" _ _ _ Hbt) in Hr as [Hr|(p & c & Hh & Hc & Hl & Hr)].
    - left. by apply kv_readable.
    - right. by apply (src_kv_archive _ _ _ _ _ _ _ _ _ _ Hsource p c r).
    - reflexivity.
    - intros n Hn. repeat (apply elem_of_cons in Hn as [->|Hn]; [done|]). by apply elem_of_nil in Hn.
    - reflexivity.
    - do 3 right. left. }
  apply collect_beyond; [|done| |done].
  - apply Forall_forall. intros r [Hr|[Hr _]]%Hall; [|done]. rewrite Forall_forall in Hv. by apply Hv.
  - intros r Hlt. split; [intros [Hr|[_ Hr]]%Hall; [done|lia]|]. intros Hr.
    apply (backup_log_records _ _ "rustydb.wal" _ _ _ Hbt); [done| |done|do 3 right; left|left; by apply kv_readable].
    intros n Hn. repeat (apply elem_of_cons in Hn as [->|Hn]; [done|]). by apply elem_of_nil in Hn.
Qed.

Lemma collected_sql d :
  backs_up t (dir_files d) →
  ∃ l, collect_sql_records [d] = Ok l ∧ StronglySorted (before wr_commit_version) l ∧
    filter (λ r, v < wr_commit_version r)%N l = new.
Proof.
  intros Hbt. destruct sql_sorted as (Hs & Hb). pose proof (src_old _ _ _ _ _ _ _ _ _ _ Hsource) as Hold.
  pose proof (chained_written _ _ _ (src_new _ _ _ _ _ _ _ _ _ _ Hsource)) as Hnew.
  assert (∀ r, r ∈ log_records record_from_json is_sql_log (list_files (dir_files d)) →
    r ∈ new ∨ wal_record_valid r = true ∧ (wr_commit_version r ≤ v)%N) as Hall.
  { intros r Hr. apply (backup_log_records _ _ "sql_wal.log" _ _ _ Hbt) in Hr as [Hr|(p & c & Hh & Hc & Hl & Hr)].
    - apply sql_readable, elem_of_app in Hr as [Hr|Hr]; [right|by left].
      rewrite Forall_forall in Hold. by destruct (Hold r Hr) as [[? _] ?].
    - right. by apply (src_sql_archive _ _ _ _ _ _ _ _ _ _ Hsource p c r).
    - reflexivity.
    - intros n Hn. repeat (apply elem_of_cons in Hn as [->|Hn]; [done|]). by apply elem_of_nil in Hn.
    - reflexivity.
    - right. left. }
  apply collect_beyond; [|done| |done].
  - apply Forall_forall. intros r [Hr|[Hr _]]%Hall; [|done]. rewrite Forall_forall in Hnew. by apply Hnew.
  - intros r Hlt. split; [intros [Hr|[_ Hr]]%Hall; [done|lia]|]. intros Hr.
    apply (backup_log_records _ _ "sql_wal.log" _ _ _ Hbt); [done| |done|right; left|
      left; apply sql_readable, elem_of_app; by right].
    intros n Hn. repeat (apply elem_of_cons in Hn as [->|Hn]; [done|]). by apply elem_of_nil in Hn.
Qed.

(** *** Creating *)

Definition last_of {R} (key : R → N) (base : N) (l : list R) : N := N.max (default base (key <$> last l)) base.

(** The highest number among sorted records beyond a base. *)
Lemma last_beyond {R} (key : R → N) from l rs' :
  StronglySorted (before key) l → filter (λ r, from < key r)%N l = rs' →
  last_of key from l = default from (key <$> last rs').
Proof.
  intros Hs <-. unfold last_of. induction l as [|x l IH] using rev_ind; [cbn; lia|].
  rewrite filter_app, last_snoc. cbn [fmap option_fmap option_map default from_option id].
  destruct (decide (from < key x)%N) as [Hlt|Hge].
  - rewrite filter_cons_True, filter_nil by done. rewrite last_snoc. cbn. lia.
  - rewrite filter_cons_False, filter_nil, app_nil_r by done.
    assert (filter (λ r, from < key r)%N l = []) as ->; [|cbn; lia].
    apply StronglySorted_app in Hs as (Hlt & _ & _).
    destruct (filter _ l) as [|y k] eqn:E; [done|].
    assert (y ∈ filter (λ r, from < key r)%N l) as [Hy Hin]%list_elem_of_filter by (rewrite E; by left).
    specialize (Hlt y x Hin ltac:(by left)). unfold before in Hlt. lia.
Qed.

Lemma validate_backup l bt :
  Forall (λ x, bt !! x.1 = Some x.2 ∧ plain_path x.1) l → validate_files bt (backup_file <$> l) = Ok ().
Proof.
  intros Hl. induction Hl as [|[p c] l (Hc & Hp) _ IH]; [done|]. rewrite fmap_cons.
  cbn [validate_files backup_file bf_path bf_size bf_checksum fst snd] in Hc |- *.
  rewrite path_text_roundtrip by done. rewrite Hc, !N.eqb_refl. exact IH.
Qed.

Lemma base_plain name : name ∈ base_names → plain_path ["base"; name].
Proof.
  intros Hn. split; [done|].
  assert (∀ a, a ≠ EmptyString → a ≠ "." →
    forallb (λ c, negb (bool_decide (c = slash)) && negb (bool_decide (c = backslash))) (String.list_ascii_of_string a) = true →
    plain_name a) as Hplain.
  { intros a He Hd Hc. split_and!; [done|done|]. apply Forall_forall. intros c Hin.
    rewrite forallb_true in Hc. specialize (Hc c Hin). apply andb_true_iff in Hc as [Hs Hb].
    split; intros ->; [vm_compute in Hs|vm_compute in Hb]; congruence. }
  constructor; [by apply Hplain|]. constructor; [|constructor].
  repeat (apply elem_of_cons in Hn as [->|Hn]; [by apply Hplain|]). by apply elem_of_nil in Hn.
Qed.

Lemma backup_plain p c : backup_files t !! p = Some c → plain_path p.
Proof.
  intros Hp. apply backup_cases in Hp as [(name & Hn & -> & _)|[_ Hc]]; [by apply base_plain|].
  by eapply (src_paths _ _ _ _ _ _ _ _ _ _ Hsource).
Qed.

(** What creating a backup of such a directory makes. *)
Definition manifest_of (now : N) : BackupManifest :=
  {| bm_format_version := BACKUP_FORMAT_VERSION;
     bm_created_at_millis := now;
     bm_base_point := {| sql_commit_version := v; kv_sequence := b |};
     bm_recovery_point := {| sql_commit_version := w; kv_sequence := b + N.of_nat (length rs) |};
     bm_sql_base_timestamp_millis := sql_time;
     bm_kv_base_timestamp_millis := kv_time;
     bm_files := backup_file <$> filter (λ x, is_manifest (file_name x.1) = false) (list_files (backup_files t)) |}.

Lemma last_kv : default b (kr_sequence <$> last rs) = (b + N.of_nat (length rs))%N.
Proof.
  pose proof (src_kv_log _ _ _ _ _ _ _ _ _ _ Hsource) as Hl. clear -Hl.
  destruct rs as [|r l _] using rev_ind; [cbn; lia|]. rewrite last_snoc, length_app.
  destruct (Hl (length l) r) as [_ Hr]; [by apply list_lookup_middle|].
  change (kr_sequence r = b + N.of_nat (length l + 1))%N. lia.
Qed.

Lemma last_sql : default v (wr_commit_version <$> last new) = w.
Proof.
  pose proof (src_new _ _ _ _ _ _ _ _ _ _ Hsource) as Hn. clear -Hn.
  induction Hn as [|v r l w Hb Hlt _ Hc IH]; [done|]. destruct l as [|r' l]; [by inversion Hc|].
  change (last (r :: r' :: l)) with (last (r' :: l)). destruct (last (r' :: l)) eqn:E; [exact IH|].
  by apply last_None in E.
Qed.

Lemma max_sql d : backs_up t (dir_files d) → max_sql_version d v = w.
Proof.
  intros Hd. destruct (collected_sql d Hd) as (l & Hl & Hs & Hf). unfold max_sql_version. rewrite Hl.
  change (last_of wr_commit_version v l = w). rewrite (last_beyond _ _ _ _ Hs Hf). apply last_sql.
Qed.

Lemma max_kv d : backs_up t (dir_files d) → max_kv_sequence d b = (b + N.of_nat (length rs))%N.
Proof.
  intros Hd. destruct (collected_kv d Hd) as (l & Hl & Hs & Hf). unfold max_kv_sequence. rewrite Hl.
  change (last_of kr_sequence b l = b + N.of_nat (length rs))%N. rewrite (last_beyond _ _ _ _ Hs Hf). apply last_kv.
Qed.

Lemma create_ok source destination now :
  dir_files source = t → dir_files destination = ∅ → dir_name source ≠ dir_name destination →
  (acquire_locks source).2 = Ok () →
  create_backup source destination now =
    (locked t, published t (manifest_to_json (manifest_of now)), Ok (manifest_of now)).
Proof.
  intros Ht Hd Hne Hlocks%acquire_locks_ok. unfold create_backup, ensure_destination_empty.
  rewrite bool_decide_eq_true_2 by done. rewrite Hlocks, Ht, Hd.
  rewrite bool_decide_eq_false_2, backup_files_locked by done. cbv zeta.
  assert (backup_files t ∪ ∅ = backup_files t) as -> by apply map_union_empty.
  rewrite !backup_base by (repeat (first [left|right])).
  rewrite (src_catalog _ _ _ _ _ _ _ _ _ _ Hsource). cbn [mbind outcome_bind].
  rewrite (src_snapshot_time _ _ _ _ _ _ _ _ _ _ Hsource). cbn [mbind outcome_bind].
  by rewrite max_sql, max_kv by apply backup_files_backs_up.
Qed.

(** *** Restoring *)

Lemma read_manifest_ok now :
  read_manifest (published t (manifest_to_json (manifest_of now))) = Ok (manifest_of now).
Proof.
  unfold read_manifest, published. rewrite lookup_insert_eq. cbn [ok_or mbind outcome_bind].
  rewrite manifest_json_roundtrip. cbn [ok_or mbind outcome_bind manifest_of bm_format_version].
  rewrite N.eqb_refl. cbn [negb].
  assert (validate_files (published t (manifest_to_json (manifest_of now))) (bm_files (manifest_of now)) = Ok ()) as Hv;
    [|unfold published in Hv; by rewrite Hv].
  unfold manifest_of at 2. cbn [bm_files]. apply validate_backup.
  apply Forall_forall. intros [p c] [Hm Hp%elem_of_list_files]%list_elem_of_filter. cbn [fst snd].
  split; [|by eapply backup_plain]. unfold published. rewrite lookup_insert_ne; [done|]. intros <-. by vm_compute in Hm.
Qed.

(** The prefixes of the logs that a target reaches. *)
Inductive reaches : RecoveryTarget → list WalRecord → list WalRecord → N →
    list KvWalRecord → list KvWalRecord → Prop :=
| reaches_latest : reaches Latest new [] w rs []
| reaches_point sqls sqls' mid kvs kvs' :
    new = sqls ++ sqls' → chained v sqls mid → rs = kvs ++ kvs' →
    reaches (AtPoint {| sql_commit_version := mid; kv_sequence := b + N.of_nat (length kvs) |}) sqls sqls' mid kvs kvs'
| reaches_time time sqls sqls' mid kvs kvs' :
    new = sqls ++ sqls' → chained v sqls mid → rs = kvs ++ kvs' →
    (N.max sql_time kv_time ≤ time)%N →
    Forall (λ r, wr_timestamp_millis r ≤ time)%N sqls →
    match sqls' with r :: _ => (time < wr_timestamp_millis r)%N | [] => True end →
    Forall (λ r, kr_timestamp_millis r ≤ time)%N kvs →
    match kvs' with r :: _ => (time < kr_timestamp_millis r)%N | [] => True end →
    reaches (AtTimestamp (Z.of_N time)) sqls sqls' mid kvs kvs'.

Definition target_cutoff (target : RecoveryTarget) : option N :=
  match target with AtTimestamp z => Some (Z.to_N z) | _ => None end.
Definition target_point (target : RecoveryTarget) : option RecoveryPoint :=
  match target with AtPoint p => Some p | _ => None end.

Lemma chained_app u l l' z :
  chained u (l ++ l') z → ∃ m, chained u l m ∧ chained m l' z.
Proof.
  revert u. induction l as [|r l IH]; intros u Hc; [exists u; split; [constructor|done]|].
  inversion Hc; subst. destruct (IH _ ltac:(eassumption)) as (m & Hl & Hl'). exists m. by split; [constructor|].
Qed.

Lemma chained_end u l m m' : chained u l m → chained u l m' → m = m'.
Proof. intros Hm. revert m'. induction Hm; intros m' Hm'; inversion Hm'; subst; auto. Qed.

Lemma reaches_split target sqls sqls' mid kvs kvs' :
  reaches target sqls sqls' mid kvs kvs' →
  new = sqls ++ sqls' ∧ chained v sqls mid ∧ chained mid sqls' w ∧ rs = kvs ++ kvs'.
Proof.
  pose proof (src_new _ _ _ _ _ _ _ _ _ _ Hsource) as Hnew.
  assert (∀ l l' m, new = l ++ l' → chained v l m → chained m l' w) as Hrest.
  { intros l l' m -> Hm. apply chained_app in Hnew as (m' & Hl & Hl'). by rewrite (chained_end _ _ _ _ Hm Hl). }
  destruct 1 as [|? ? ? ? ? -> Hm ->|? ? ? ? ? ? -> Hm -> _ _ _ _ _].
  - rewrite !app_nil_r. split_and!; [done|done|constructor|done].
  - split_and!; [done|done|by eapply Hrest|done].
  - split_and!; [done|done|by eapply Hrest|done].
Qed.

Lemma check_target_ok target sqls sqls' mid kvs kvs' now :
  reaches target sqls sqls' mid kvs kvs' →
  check_target (manifest_of now) target = Ok (target_cutoff target, target_point target).
Proof.
  destruct 1 as [|sqls sqls' mid kvs kvs' _ Hm _|time sqls sqls' mid kvs kvs' _ _ _ Ht _ _ _ _]; [done|..].
  - unfold check_target. cbn [manifest_of bm_base_point sql_commit_version kv_sequence].
    pose proof (proj1 (chained_le _ _ _ Hm)). by rewrite !(proj2 (N.ltb_ge _ _)) by lia.
  - unfold check_target. rewrite (proj2 (Z.ltb_ge _ _)) by lia. rewrite N2Z.id. cbn [manifest_of bm_sql_base_timestamp_millis bm_kv_base_timestamp_millis].
    rewrite (proj2 (N.ltb_ge _ _)) by lia. rewrite andb_false_r. cbn [target_cutoff target_point]. by rewrite N2Z.id.
Qed.

Lemma chained_above u l z : chained u l z → Forall (λ r, u < wr_commit_version r)%N l.
Proof.
  induction 1 as [|u r l z Hb Hlt _ _ IH]; [constructor|]. constructor; [done|].
  eapply Forall_impl; [exact IH|]. cbn. lia.
Qed.

Lemma selected_sql target sqls sqls' mid kvs kvs' l :
  reaches target sqls sqls' mid kvs kvs' → filter (λ r, v < wr_commit_version r)%N l = new →
  select_sql v (target_cutoff target) (sql_commit_version <$> target_point target) l v = (sqls, Ok mid).
Proof.
  intros Hr Hl. destruct (reaches_split _ _ _ _ _ _ Hr) as (Hnew & Hm & Hm' & _).
  unfold select_sql. rewrite select_filter, Hl, Hnew. apply select_prefix.
  - rewrite <-Hnew. apply sql_sorted.
  - destruct Hr as [|? ? ? ? ? _ _ _|? ? ? ? ? ? _ _ _ _ Ht _ _ _]; cbn [target_cutoff target_point fmap option_fmap option_map].
    + apply Forall_true. by split.
    + eapply Forall_impl; [apply (chained_le _ _ _ Hm)|]. intros r Hle. by split.
    + rewrite N2Z.id. eapply Forall_impl; [exact Ht|]. intros r Hle. by split.
  - destruct Hr as [|sqls sqls' ? ? ? _ _ _|? sqls sqls' ? ? ? _ _ _ _ _ Ht _ _]; [done|..].
    + destruct sqls' as [|r l']; [done|]. right. split; [done|]. eexists. split; [reflexivity|].
      by eapply chained_above.
    + destruct sqls' as [|r l']; [done|]. left. eexists. split; [reflexivity|]. by rewrite N2Z.id.
  - clear -Hm. induction Hm as [|u r l z Hb Hlt _ _ IH]; [done|]. split; [|exact IH]. by apply N.eqb_eq.
Qed.

Lemma kv_log_app b' l l' : kv_log b' (l ++ l') → kv_log b' l ∧ kv_log (b' + N.of_nat (length l)) l'.
Proof.
  intros Hl. split; intros i r Hi.
  - apply Hl. by apply lookup_app_l_Some.
  - destruct (Hl (length l + i) r) as [Hv Hs].
    + rewrite lookup_app_r by lia. by rewrite Nat.add_comm, Nat.add_sub.
    + split; [done|]. lia.
Qed.

Lemma kv_log_bounds b' l : kv_log b' l →
  Forall (λ r, b' < kr_sequence r ∧ kr_sequence r ≤ b' + N.of_nat (length l))%N l.
Proof.
  intros Hl. apply Forall_lookup. intros i r Hi. apply lookup_lt_Some in Hi as Hlt.
  destruct (Hl i r Hi) as [_ ->]. lia.
Qed.

Lemma kv_linked l : ∀ b', kv_log b' l → (b' + N.of_nat (length l) < u64_max)%N →
  linked kr_sequence (λ r restored, kr_sequence r =? sat_succ restored)%N b' l (b' + N.of_nat (length l)).
Proof.
  induction l as [|r l IH]; intros b' Hl Hroom; [cbn; lia|].
  destruct (kv_log_app b' [r] l Hl) as [_ Hl']. destruct (Hl 0 r eq_refl) as [_ Hr].
  cbn [length] in Hroom, Hl'. split.
  - apply N.eqb_eq. rewrite sat_succ_below by lia. lia.
  - assert (kr_sequence r = b' + N.of_nat 1)%N as -> by lia.
    replace (b' + N.of_nat (length (r :: l)))%N with (b' + N.of_nat 1 + N.of_nat (length l))%N by (cbn; lia).
    apply IH; [done|lia].
Qed.

Lemma selected_kv target sqls sqls' mid kvs kvs' l :
  reaches target sqls sqls' mid kvs kvs' → filter (λ r, b < kr_sequence r)%N l = rs →
  select_kv b (target_cutoff target) (kv_sequence <$> target_point target) l b =
    (kvs, Ok (b + N.of_nat (length kvs))%N).
Proof.
  intros Hr Hl. destruct (reaches_split _ _ _ _ _ _ Hr) as (_ & _ & _ & Hrs).
  pose proof (src_kv_log _ _ _ _ _ _ _ _ _ _ Hsource) as Hlog. rewrite Hrs in Hlog.
  apply kv_log_app in Hlog as [Hkvs Hkvs'].
  pose proof (src_kv_room _ _ _ _ _ _ _ _ _ _ Hsource) as Hroom. rewrite Hrs, length_app in Hroom.
  unfold select_kv. rewrite select_filter, Hl, Hrs. apply select_prefix.
  - rewrite <-Hrs. apply kv_sorted.
  - pose proof (kv_log_bounds _ _ Hkvs) as Hb.
    destruct Hr as [|? ? ? ? ? _ _ _|? ? ? ? ? ? _ _ _ _ _ _ Ht _]; cbn [target_cutoff target_point fmap option_fmap option_map].
    + apply Forall_true. by split.
    + eapply Forall_impl; [exact Hb|]. intros r [_ Hle]. by split.
    + rewrite N2Z.id. eapply Forall_impl; [exact Ht|]. intros r Hle. by split.
  - destruct Hr as [|? ? ? kvs kvs' _ _ _|? ? ? ? kvs kvs' _ _ _ _ _ _ _ Ht]; [done|..].
    + destruct kvs' as [|r l']; [done|]. right. split; [done|]. eexists. split; [reflexivity|].
      eapply Forall_impl; [apply (kv_log_bounds _ _ Hkvs')|]. cbn. lia.
    + destruct kvs' as [|r l']; [done|]. left. eexists. split; [reflexivity|]. by rewrite N2Z.id.
  - apply kv_linked; [done|lia].
Qed.

Lemma restore_base_lookup bt name :
  backs_up t bt → name ∈ ["catalog.json"; "rustydb.db"] → restore_base bt (locked ∅) !! [name] = t !! [name].
Proof.
  intros [Hb _ _] Hn. unfold restore_base.
  rewrite (copy_named_lookup (λ name, bt !! ["base"; name]) (λ name, [name])); [apply Hb|done|].
  - repeat (apply elem_of_cons in Hn as [->|Hn]; [repeat (first [left|right])|]). by apply elem_of_nil in Hn.
  - repeat (apply elem_of_cons in Hn as [->|Hn];
      [by rewrite lookup_union, (subtree_lookup_other _ bt) by done|]). by apply elem_of_nil in Hn.
Qed.

Lemma restore_log_plain {R} kind (to_json : R → string) latest selected :
  restore_log kind to_json latest [] selected = (text_lines (to_json <$> selected.1), selected.2).
Proof. unfold restore_log. by rewrite bool_decide_eq_false_2 by (intros Hn; by apply Hn). Qed.

Lemma restore_ok bt name fresh now target sqls sqls' mid kvs kvs' :
  bt = published t (manifest_to_json (manifest_of now)) → dir_files fresh = ∅ → (acquire_locks fresh).2 = Ok () →
  reaches target sqls sqls' mid kvs kvs' →
  restore {| dir_name := name; dir_files := bt; dir_sql_active := false; dir_kv_active := false |} None fresh target =
    (<[["rustydb.wal"] := kv_log_text kvs]> (<[["sql_wal.log"] := log_of sqls]> (restore_base bt (locked ∅))),
     Ok {| sql_commit_version := mid; kv_sequence := b + N.of_nat (length kvs) |}).
Proof.
  intros -> Hempty Hlocks%acquire_locks_ok Hr.
  pose proof (published_backs_up t (manifest_to_json (manifest_of now))) as Hbt.
  unfold restore, ensure_destination_empty. rewrite bool_decide_eq_true_2 by done. cbn [mbind outcome_bind dir_files].
  rewrite read_manifest_ok, Hlocks, Hempty.
  rewrite (check_target_ok _ _ _ _ _ _ now Hr). cbn [mbind outcome_bind].
  set (d := {| dir_name := name; dir_files := _; dir_sql_active := _; dir_kv_active := _ |}).
  change (option_list None) with (@nil Dir).
  destruct (collected_sql d Hbt) as (ls & -> & _ & Hls).
  destruct (collected_kv d Hbt) as (lk & -> & _ & Hlk). cbn [mbind outcome_bind].
  unfold restore_logs. cbn [manifest_of bm_base_point sql_commit_version kv_sequence].
  rewrite !(bu_base _ _ Hbt) by (repeat (first [left|right])).
  rewrite (legacy_sql (old ++ new)), (legacy_kv rs).
  2: by apply (src_kv_wal _ _ _ _ _ _ _ _ _ _ Hsource).
  2: { apply Forall_app. split; [|by eapply chained_written, src_new].
       eapply Forall_impl; [by eapply src_old|naive_solver]. }
  2: by apply (src_sql_wal _ _ _ _ _ _ _ _ _ _ Hsource).
  rewrite !restore_log_plain.
  rewrite (selected_sql _ _ _ _ _ _ _ Hr Hls), (selected_kv _ _ _ _ _ _ _ Hr Hlk).
  cbn [fst snd mbind outcome_bind]. rewrite log_of_lines. f_equal.
  destruct Hr; cbn [target_point]; [done| |done]. by rewrite bool_decide_eq_true_2.
Qed.
End backup.

(** ** The round trip *)

Section roundtrip.
Context `{RustStd} `{SqlGrammar} `{LogFormat} `{StatementDebug} `{SnapshotFormat} `{KvFormat} `{BackupFormat}.

(** The files of a directory the key-value store opens. *)
Definition kv_files (t : Tree) : KvDisk :=
  {| kd_snapshot := t !! ["rustydb.db"]; kd_wal := t !! ["rustydb.wal"]; kd_archive := [] |}.

(** C6. A backup restores to the state asked for. From a data directory at rest,
    whose two logs are whole, in the current format and continue the snapshots
    without a gap, and whose archives hold nothing later than the snapshots,
    creating a backup in another directory and restoring it, to the latest state,
    to a commit and a sequence number, or to a time no earlier than the snapshots,
    succeeds and reports the point it reached. The restored key-value store opens
    to the map after exactly the operations up to there, and the restored catalog
    with its log replays to exactly the transactions up to there. *)
Theorem backup_restore_roundtrip source destination fresh b base rs v old new w sql_time kv_time now
    target sqls sqls' mid kvs kvs' :
  source_ok (dir_files source) b base rs v old new w sql_time kv_time →
  (acquire_locks source).2 = Ok () → dir_files destination = ∅ →
  dir_name source ≠ dir_name destination →
  dir_files fresh = ∅ → (acquire_locks fresh).2 = Ok () →
  reaches b rs v new w sql_time kv_time target sqls sqls' mid kvs kvs' →
  ∃ bt m rt, create_backup source destination now = (locked (dir_files source), bt, Ok m) ∧
    bm_recovery_point m = {| sql_commit_version := w; kv_sequence := b + N.of_nat (length rs) |} ∧
    restore {| dir_name := dir_name destination; dir_files := bt; dir_sql_active := false; dir_kv_active := false |}
      None fresh target = (rt, Ok {| sql_commit_version := mid; kv_sequence := b + N.of_nat (length kvs) |}) ∧
    recovered (kv_files rt) = Ok (apply_operations base (kr_operation <$> kvs)) ∧
    rt !! ["catalog.json"] = dir_files source !! ["catalog.json"] ∧
    ∀ c, cat_version c = v →
      replay_wal (default EmptyString (rt !! ["sql_wal.log"])) c = foldM apply_record c sqls.
Proof.
  intros Hsource Hlocks Hempty Hne Hfresh Hfresh_locks Hr.
  eexists _, _, _. split; [by eapply create_ok|]. split; [reflexivity|].
  split; [by eapply restore_ok|].
  destruct (reaches_split _ _ _ _ _ _ _ _ _ _ Hsource _ _ _ _ _ _ Hr) as (_ & Hm & _ & Hrs).
  pose proof (published_backs_up (dir_files source)) as Hbt.
  split_and!.
  - apply (recovered_holds _ b base kvs). split_and!; cbn [kv_files kd_snapshot kd_wal].
    + rewrite !lookup_insert_ne by done. rewrite (restore_base_lookup (dir_files source)); [by eapply src_snapshot|apply Hbt|].
      repeat (first [left|right]).
    + pose proof (src_kv_log _ _ _ _ _ _ _ _ _ _ Hsource) as Hl. rewrite Hrs in Hl. by apply kv_log_app in Hl as [Hl _].
    + by rewrite lookup_insert_eq.
  - rewrite !lookup_insert_ne by done. apply (restore_base_lookup (dir_files source)); [apply Hbt|left].
  - intros c Hc. rewrite lookup_insert_ne, lookup_insert_eq by done. cbn [default from_option id].
    rewrite <-(append_empty_r (log_of sqls)), replay_log by by eapply chained_written.
    rewrite (replay_chained v sqls mid c Hm Hc). by destruct (foldM apply_record c sqls).
Qed.

(** A log with a torn last line, which opening it would skip, is restored
    with that line in front: replaying the restored log stops there and every
    commit of it is lost, although the restore reports the last one; restoring
    to a point or a time refuses. *)
Theorem restored_torn_tail_loses_log rs tail selected c :
  Forall written rs → torn tail → trim tail ≠ EmptyString →
  let legacy := legacy_lines record_from_json (Some (log_of rs +:+ tail)) in
  let '(file, result) := restore_log "SQL" record_to_json true legacy selected in
  result = selected.2 ∧ replay_wal file c = Ok c ∧
  ∃ e, (restore_log "SQL" record_to_json false legacy selected).2 = Err e.
Proof.
  intros Hw Ht Hb. pose proof Ht as (Hn & Hu & Hnone & _).
  assert (legacy_lines record_from_json (Some (log_of rs +:+ tail)) = [tail]) as ->.
  { unfold legacy_lines. rewrite log_of_lines, text_prefix_lines.
    - rewrite lines_last by done. rewrite bool_decide_eq_false_2 by (by intros ->).
      cbn [text_prefix]. rewrite Hu.
      induction Hw as [|r rs [_ Hs] _ IH]; [|].
      { rewrite fmap_nil. cbn [app]. by rewrite filter_cons_True, filter_nil by done. }
      rewrite fmap_cons. cbn [app]. rewrite filter_cons_False; [done|].
      rewrite record_json_roundtrip by done. naive_solver.
    - apply Forall_fmap. eapply Forall_impl; [exact Hw|]. intros r [_ Hs].
      by destruct (record_json_line r Hs) as (? & ? & _). }
  unfold restore_log. rewrite bool_decide_eq_true_2 by done. cbn [negb andb].
  split; [done|]. split; [|by eexists]. unfold replay_wal. cbn [app].
  change (text_lines (tail :: ?ls)) with (tail +:+ String newline (text_lines ls)).
  rewrite lines_cons by done. by apply replay_torn.
Qed.

Lemma delete_files_lookup (old : list (path * string)) (t : Tree) p :
  foldl (λ t x, delete x.1 t) t old !! p = if bool_decide (p ∈ old.*1) then None else t !! p.
Proof.
  induction old as [|[q c] old IH] using rev_ind; [done|]. rewrite foldl_app, fmap_app. cbn [foldl fst].
  destruct (decide (q = p)) as [->|Hne].
  - rewrite lookup_delete_eq, bool_decide_eq_true_2; [done|]. apply elem_of_app. right. left.
  - rewrite lookup_delete_ne, IH by done.
    assert (p ∈ old.*1 ↔ p ∈ old.*1 ++ [(q, c)].*1) as Hiff by (cbn; set_solver).
    by rewrite (bool_decide_ext _ _ Hiff).
Qed.

(** Pruning removes exactly the archived logs whose latest record is older than
    the time given, and nothing without [apply]; the lock files appear. *)
Theorem prune_exact d before apply :
  (acquire_locks d).2 = Ok () → (0 ≤ before)%Z →
  ∃ t report, prune d before apply = (t, Ok report) ∧
    (∀ p, p ∈ pr_files report ↔ ∃ c latest, dir_files d !! p = Some c ∧ head p = Some "wal_archive" ∧
      latest_record_timestamp c = Some latest ∧ (latest < Z.to_N before)%N) ∧
    ∀ p, t !! p = if apply && bool_decide (p ∈ pr_files report) then None else locked (dir_files d) !! p.
Proof.
  intros Hlocks%acquire_locks_ok Hb. unfold prune. rewrite Hlocks. cbn [mbind outcome_bind].
  rewrite (proj2 (Z.ltb_ge _ _)) by done. eexists _, _. split; [reflexivity|]. cbn [pr_files].
  rewrite subtree_locked. set (old := filter _ _). split.
  - intros p. rewrite list_elem_of_fmap. unfold old. split.
    + intros ([p' c] & -> & [Hl Hp]%list_elem_of_filter). cbn [fst snd] in *.
      apply elem_of_list_files, map_lookup_filter_Some in Hp as [Hp Hh].
      destruct (latest_record_timestamp c) as [l|] eqn:E; [|done]. exists c, l. by rewrite N.ltb_lt in Hl.
    + intros (c & l & Hp & Hh & Hl & Hlt). exists (p, c). split; [done|].
      apply list_elem_of_filter. cbn [snd]. rewrite Hl. split; [by apply N.ltb_lt|].
      apply elem_of_list_files. by apply map_lookup_filter_Some.
  - intros p. destruct apply; [apply delete_files_lookup|done].
Qed.

(** What the commands change, however they end. *)
Definition lock_created (d : Dir) (t : Tree) (p : path) : Prop :=
  lock_path p ∧ dir_files d !! p = None ∧ t !! p = Some EmptyString.

Lemma create_backup_source source destination now ts td r p :
  create_backup source destination now = (ts, td, r) → ts !! p = dir_files source !! p ∨ lock_created source ts p.
Proof.
  unfold create_backup. pose proof (acquire_locks_lookup source p) as Hl.
  destruct (ensure_destination_empty destination); [|by intros [= <- _ _]; left..].
  destruct (acquire_locks source) as [locked [[]|e|]]; [|by intros [= <- _ _]..]. cbn [fst] in Hl.
  repeat case_match; by intros [= <- _ _].
Qed.

Lemma create_backup_destination source destination now ts td r :
  create_backup source destination now = (ts, td, r) → td ≠ dir_files destination → dir_files destination = ∅.
Proof. unfold create_backup, ensure_destination_empty. case_bool_decide; [done|]. by intros [= _ <- _]. Qed.

Lemma restore_destination backup archive destination target t r :
  restore backup archive destination target = (t, r) → t ≠ dir_files destination → dir_files destination = ∅.
Proof. unfold restore, ensure_destination_empty. case_bool_decide; [done|]. by intros [= <- _]. Qed.

Lemma prune_effects d before apply t r p :
  prune d before apply = (t, r) →
  t !! p = dir_files d !! p ∨ lock_created d t p ∨
  apply = true ∧ head p = Some "wal_archive" ∧ t !! p = None ∧
    ∃ c latest, dir_files d !! p = Some c ∧ latest_record_timestamp c = Some latest ∧ (latest < Z.to_N before)%N.
Proof.
  unfold prune. pose proof (acquire_locks_lookup d p) as Hl. pose proof (acquire_locks_ok d) as Hok.
  destruct (acquire_locks d) as [t' [[]|e|]]; [|by intros [= <- _]; destruct Hl; [left|right; left]..].
  injection (Hok eq_refl) as ->. cbn [fst mbind outcome_bind] in *.
  destruct (before <? 0)%Z; [by intros [= <- _]; destruct Hl; [left|right; left]|].
  rewrite subtree_locked. intros [= <- _]. destruct apply; [|by destruct Hl; [left|right; left]].
  unfold lock_created. rewrite delete_files_lookup. case_bool_decide as Hin; [|tauto].
  apply list_elem_of_fmap in Hin as ([q c] & -> & [Hold Hc]%list_elem_of_filter).
  apply elem_of_list_files, map_lookup_filter_Some in Hc as [Hc Hh]. cbn [fst snd] in *.
  destruct (latest_record_timestamp c) as [l|] eqn:El; [|done].
  right. right. split_and!; [done..|]. exists c, l. by rewrite N.ltb_lt in Hold.
Qed.
End roundtrip.

(** *** Witnesses *)

Section witnesses.
#[local] Existing Instance concrete_std.
#[local] Existing Instance concrete_log.
#[local] Existing Instance concrete_grammar.
#[local] Instance debug_none : StatementDebug := λ _, "statement".
#[local] Instance no_snapshots : SnapshotFormat :=
  {| snapshot_to_json := λ _, EmptyString; snapshot_from_json := λ _, None;
     legacy_table_from_json := λ _, None |}.

#[local] Instance backup_file_eq_dec : EqDecision BackupFile.
Proof. solve_decision. Defined.
#[local] Instance backup_file_countable : Countable BackupFile.
Proof.
  refine (inj_countable' (λ f, (bf_path f, bf_size f, bf_checksum f))
    (λ '(a, b, c), {| bf_path := a; bf_size := b; bf_checksum := c |}) _). by intros [].
Defined.
#[local] Instance point_countable : Countable RecoveryPoint.
Proof.
  refine (inj_countable' (λ p, (sql_commit_version p, kv_sequence p))
    (λ '(a, b), {| sql_commit_version := a; kv_sequence := b |}) _). by intros [].
Defined.
#[local] Instance manifest_eq_dec : EqDecision BackupManifest.
Proof. solve_decision. Defined.
#[local] Instance manifest_countable : Countable BackupManifest.
Proof.
  refine (inj_countable' (λ m, (bm_format_version m, bm_created_at_millis m, bm_base_point m, bm_recovery_point m,
      bm_sql_base_timestamp_millis m, bm_kv_base_timestamp_millis m, bm_files m))
    (λ '(a, b, c, d, e, f, g), {| bm_format_version := a; bm_created_at_millis := b; bm_base_point := c;
       bm_recovery_point := d; bm_sql_base_timestamp_millis := e; bm_kv_base_timestamp_millis := f;
       bm_files := g |}) _). by intros [].
Defined.
#[local] Instance concrete_backup : BackupFormat :=
  {| manifest_to_json := coded "M"; manifest_from_json := decoded "M"; manifest_json_roundtrip := decoded_coded "M" |}.

Definition three_sets : list KvWalRecord :=
  [kv_record_new 1000 1 (OpSet "a" "1"); kv_record_new 2000 2 (OpSet "b" "2"); kv_record_new 3000 3 (OpDelete "a")].
Definition some_files : Tree :=
  {[ ["sql_wal.log"] := log_of (created :: inserts); ["rustydb.wal"] := kv_log_text three_sets ]}.
Definition source_dir : Dir :=
  {| dir_name := "data"; dir_files := some_files; dir_sql_active := false; dir_kv_active := false |}.
Definition empty_at (name : string) : Dir :=
  {| dir_name := name; dir_files := ∅; dir_sql_active := false; dir_kv_active := false |}.

Lemma some_files_cases p c : some_files !! p = Some c → p = ["sql_wal.log"] ∨ p = ["rustydb.wal"].
Proof.
  unfold some_files. intros Hp. destruct (decide (p = ["sql_wal.log"])) as [->|Hne]; [by left|].
  rewrite lookup_insert_ne in Hp by done. apply lookup_singleton_Some in Hp as [<- _]. by right.
Qed.

Lemma some_files_ok : source_ok some_files 0 ∅ three_sets 0 [] (created :: inserts) 3 0 0.
Proof.
  split.
  - intros p c [-> | ->]%some_files_cases; (split; [done|constructor; [|constructor]]);
      (split; [done|split; [done|]]); apply (bool_decide_unpack _); vm_compute; exact I.
  - change (snapshot_holds None 0 ∅). constructor.
  - reflexivity.
  - apply (kv_log_snoc 0 [_; _]). apply (kv_log_snoc 0 [_]). apply (kv_log_snoc 0 []). apply kv_log_nil.
  - reflexivity.
  - vm_compute. reflexivity.
  - intros p c r [-> | ->]%some_files_cases Hh; discriminate Hh.
  - reflexivity.
  - reflexivity.
  - constructor.
  - apply (record_chained 0 ["CREATE t"; "INSERT 3"; "INSERT 4"]). reflexivity.
  - intros p c r [-> | ->]%some_files_cases Hh; discriminate Hh.
Qed.

(** A restore to the first insertion and the second write. *)
Lemma backup_restore_roundtrip_witness :
  ∃ bt m rt, create_backup source_dir (empty_at "backup") 5000 = (locked some_files, bt, Ok m) ∧
    restore {| dir_name := "backup"; dir_files := bt; dir_sql_active := false; dir_kv_active := false |} None
      (empty_at "restored") (AtPoint {| sql_commit_version := 2; kv_sequence := 2 |}) =
      (rt, Ok {| sql_commit_version := 2; kv_sequence := 2 |}) ∧
    recovered (kv_files rt) = Ok ({["a" := "1"; "b" := "2"]} : gmap string string) ∧
    rows_at "t" (replay_wal (default EmptyString (rt !! ["sql_wal.log"])) catalog_default)
      = Some [[VInteger 3; VText "c"]].
Proof.
  destruct (backup_restore_roundtrip source_dir (empty_at "backup") (empty_at "restored") 0 ∅ three_sets 0 []
    (created :: inserts) 3 0 0 5000 (AtPoint {| sql_commit_version := 2; kv_sequence := 2 |})
    [created; record 1 "INSERT 3"] [record 2 "INSERT 4"] 2 (take 2 three_sets) (drop 2 three_sets))
    as (bt & m & rt & Hc & _ & Hr & Hk & _ & Hs).
  - apply some_files_ok.
  - reflexivity.
  - reflexivity.
  - done.
  - reflexivity.
  - reflexivity.
  - apply (reaches_point 0 three_sets 0 (created :: inserts) 3 0 0 [created; record 1 "INSERT 3"]
      [record 2 "INSERT 4"] 2 (take 2 three_sets) (drop 2 three_sets)); [reflexivity| |reflexivity].
    apply (record_chained 0 ["CREATE t"; "INSERT 3"]). reflexivity.
  - exists bt, m, rt. split; [exact Hc|]. split; [exact Hr|]. split; [rewrite Hk; vm_compute; reflexivity|].
    rewrite Hs by reflexivity. vm_compute. reflexivity.
Defined.

Lemma prune_exact_witness :
  ∃ t report, prune source_dir 10000 true = (t, Ok report) ∧ t !! ["rustydb.wal"] = some_files !! ["rustydb.wal"].
Proof.
  destruct (prune_exact source_dir 10000 true) as (t & report & Hp & Hold & Ht).
  - reflexivity.
  - done.
  - exists t, report. split; [exact Hp|]. rewrite Ht. rewrite bool_decide_eq_false_2; [reflexivity|].
    intros (c & l & _ & Hh & _)%Hold. discriminate Hh.
Defined.

Lemma restored_torn_tail_loses_log_witness :
  let '(file, result) := restore_log "SQL" record_to_json true
    (legacy_lines record_from_json (Some (log_of (created :: inserts) +:+ torn_line)))
    (created :: inserts, Ok 3%N) in
  result = Ok 3%N ∧ replay_wal file catalog_default = Ok catalog_default.
Proof.
  pose proof (restored_torn_tail_loses_log (created :: inserts) torn_line (created :: inserts, Ok 3%N)
    catalog_default records_written torn_line_torn) as Hlost.
  assert (trim torn_line ≠ EmptyString) as Hb by (vm_compute; discriminate).
  specialize (Hlost Hb). cbv zeta in Hlost. revert Hlost.
  destruct (restore_log "SQL" record_to_json true _ _) as [file result].
  intros (Hr & Hreplay & _). split; [exact Hr|exact Hreplay].
Defined.
End witnesses.
