(* ===== verification/Render.v ===== *)
(** * Render.v: results as text (src/sql/types.rs, ResultSet::to_table_string;
    src/sql/executor.rs, Display of ExecutionResult)

    The text tables and messages of the shell.  Widths are counted in bytes,
    padding in characters, and a value is written through [write!], which
    ignores the width asked for. *)

From Stdlib Require Import Ascii.
From S2P Require Import Prelude Machine Float64 Like Types Concrete Keys Table Eval Queries.
From S2P Require Import Statement Planner Validate Ddl Str Log.

(** [{:width$}] of a string: spaces up to the width, counted in characters. *)
Definition repeat_str (n : nat) (s : string) : string := foldr String.append EmptyString (replicate n s).
Definition pad (width : nat) (s : string) : string := s +:+ repeat_str (width - length (chars s)) " ".
Definition line_end : string := String newline EmptyString.

Section render.
Context `{RustStd}.

(** The widths: each column's name, and the values below it. *)
Fixpoint widen (widths : list nat) (row : Row) : list nat :=
  match widths, row with
  | w :: widths, v :: row => Nat.max w (String.length (value_display v)) :: widen widths row
  | widths, [] => widths
  | [], _ => []
  end.
Definition table_widths (r : ResultSet) : list nat :=
  foldl widen (String.length <$> rs_columns r) (rs_rows r).

Definition separator_line (widths : list nat) : string :=
  "+" +:+ join_with "+" ((λ w, repeat_str (w + 2) "-") <$> widths) +:+ "+" +:+ line_end.

Fixpoint header_cells (widths : list nat) (columns : list string) : string :=
  match widths, columns with
  | w :: widths, c :: columns => " " +:+ pad w c +:+ " |" +:+ header_cells widths columns
  | _, _ => EmptyString
  end.

(** The cells of a row; [widths[index]] panics beyond the columns.  The width
    does not reach the text: [Value]'s [fmt] writes without it. *)
Fixpoint row_cells (widths : list nat) (row : Row) {struct row} : outcome string :=
  match row with
  | [] => Ok EmptyString
  | v :: row =>
      match widths with
      | [] => Panic
      | _ :: widths => rest ← row_cells widths row; Ok (" " +:+ value_display v +:+ " |" +:+ rest)
      end
  end.
Definition row_line (widths : list nat) (row : Row) : outcome string :=
  cells ← row_cells widths row; Ok ("|" +:+ cells +:+ line_end).

Definition to_table_string (r : ResultSet) : outcome string :=
  match rs_columns r with
  | [] => Ok "Empty result set"
  | _ =>
      let widths := table_widths r in
      let separator := separator_line widths in
      lines ← mapM (row_line widths) (rs_rows r);
      Ok (separator +:+ "|" +:+ header_cells widths (rs_columns r) +:+ line_end +:+ separator
          +:+ foldr String.append EmptyString lines +:+ separator
          +:+ pretty (length (rs_rows r)) +:+ " row(s)" +:+ line_end)
  end.

Definition yes_no (b : bool) : string := if b then "YES" else "NO".
Definition description_rule : string :=
  "+----------------+----------+----------+-------------+--------+" +:+ line_end.
(** The type of a column is written through [write!] too. *)
Definition description_line (c : ColumnDef) : string :=
  "| " +:+ pad 14 (col_name c) +:+ " | " +:+ data_type_display (col_type c)
  +:+ " | " +:+ pad 8 (yes_no (col_nullable c))
  +:+ " | " +:+ pad 11 (yes_no (col_primary_key c)) +:+ " | " +:+ pad 6 (yes_no (col_unique c)) +:+ " |"
  +:+ line_end.

(** [ExecutionResult]'s [Display]. *)
Definition result_display (r : ExecutionResult) : outcome string :=
  match r with
  | RSelect result => to_table_string result
  | RRowsAffected n => Ok (pretty n +:+ " row(s) affected")
  | RTableCreated name => Ok ("Table '" +:+ name +:+ "' created")
  | RTableDropped name => Ok ("Table '" +:+ name +:+ "' dropped")
  | RIndexCreated name => Ok ("Index '" +:+ name +:+ "' created")
  | RIndexDropped name => Ok ("Index '" +:+ name +:+ "' dropped")
  | RTables names => Ok (match names with [] => "No tables" | _ => join_with line_end names end)
  | RIndexes indexes =>
      Ok (join_with line_end
            ((λ i, index_name i +:+ " (" +:+ join_with ", " (index_columns i) +:+ ")"
                   +:+ (if index_unique i then " UNIQUE" else "")) <$> indexes))
  | RTableDescription name columns =>
      Ok ("Table: " +:+ name +:+ line_end +:+ description_rule
          +:+ "| Column         | Type     | Nullable | Primary Key | Unique |" +:+ line_end
          +:+ description_rule
          +:+ foldr String.append EmptyString (description_line <$> columns) +:+ description_rule)
  | RExplain lines => Ok (join_with line_end lines)
  | RTransactionStarted => Ok "Transaction started"
  | RTransactionCommitted => Ok "Transaction committed"
  | RTransactionRolledBack => Ok "Transaction rolled back"
  | RError message => Ok ("Error: " +:+ message)
  end.
End render.

(** ** Properties *)

Section render_laws.
Context `{RustStd}.

Lemma widen_length widths row : length (widen widths row) = length widths.
Proof.
  revert row. induction widths as [|w widths IH]; intros [|v row]; try done.
  cbn [widen length]. by rewrite IH.
Qed.

Lemma table_widths_length r : length (table_widths r) = length (rs_columns r).
Proof.
  unfold table_widths. rewrite <-(length_fmap String.length (rs_columns r)).
  generalize (String.length <$> rs_columns r). induction (rs_rows r) as [|row rows IH]; intros widths; [done|].
  cbn [foldl]. rewrite IH. apply widen_length.
Qed.

Lemma row_cells_total widths row : length row ≤ length widths → ∃ s, row_cells widths row = Ok s.
Proof.
  revert widths. induction row as [|v row IH]; intros widths Hl; [by eexists|].
  destruct widths as [|w widths]; cbn [length] in Hl; [lia|]. cbn [row_cells].
  destruct (IH widths) as [s ->]; [lia|]. by eexists.
Qed.

(** The table of a rectangular result is printed; rows with more values than
    there are columns would panic. *)
Theorem table_string_total r :
  Forall (λ row, length row = length (rs_columns r)) (rs_rows r) → ∃ s, to_table_string r = Ok s.
Proof.
  intros Hr. unfold to_table_string. destruct (rs_columns r) as [|c cs] eqn:E; [by eexists|].
  rewrite <-E in *. cbv zeta.
  assert (∃ lines, mapM (row_line (table_widths r)) (rs_rows r) = Ok lines) as [lines ->].
  { apply mapM_Ok_total. intros row Hrow. rewrite Forall_forall in Hr.
    destruct (row_cells_total (table_widths r) row) as [s Hs].
    { rewrite table_widths_length. by rewrite (Hr row Hrow). }
    exists ("|" +:+ s +:+ line_end). unfold row_line. by rewrite Hs. }
  by eexists.
Qed.

(** The cells of a row do not depend on the widths: the columns do not line
    up. *)
Lemma cells_unpadded widths widths' row s s' :
  row_cells widths row = Ok s → row_cells widths' row = Ok s' → s = s'.
Proof.
  revert widths widths' s s'. induction row as [|v row IH]; intros widths widths' s s' Hs Hs'; [cbn in Hs, Hs'; congruence|].
  destruct widths as [|w widths], widths' as [|w' widths']; cbn in Hs, Hs'; [done..|].
  apply bind_Ok in Hs as (r & Hr & [= <-]). apply bind_Ok in Hs' as (r' & Hr' & [= <-]).
  by rewrite (IH _ _ _ _ Hr Hr').
Qed.
End render_laws.
