(* ===== verification/Server.v ===== *)
(** * Server.v: the HTTP server (src/server.rs)

    The configuration, Basic authentication, the routes and the handlers over
    the key-value store and the database, with the JSON they answer.  Axum's
    matching of a path against the routes and its extraction of bodies, the
    header text and base64 are parameters. *)

From Stdlib Require Import Ascii.
From S2P Require Import Prelude Machine Float64 Like Types Concrete Keys Table Eval Queries.
From S2P Require Import Statement Planner Validate Ddl Execute Integrity Params Str Log Parser Wal Database Protocol.
From S2P Require Import SqlAst Persistence KvStore KvDurable KvConcrete Calendar Render.

(** ** Configuration *)

Record ServerConfig := {
  sc_host : string;
  sc_port : N;
  sc_username : option string;
  sc_password : option string;
  sc_data_dir : string;
  sc_memory_only : bool;
  sc_wire_port : N;
  sc_plan_cache_capacity : N;
  sc_memory_pool_capacity : N;
  sc_bloom_false_positive_rate : f64;
}.

Definition f64_is_finite (a : f64) : bool :=
  match decode a with
  | SpecFloat.S754_zero _ | SpecFloat.S754_finite _ _ _ => true
  | _ => false
  end.

Section config.
Context `{RustStd}.

Definition parse_bloom_false_positive_rate (value : option string) : f64 :=
  default F_0_01 (
    s ← value; v ← f64_from_str s;
    if f64_is_finite v && bool_decide (f64_compare v f64_zero = Some Gt)
       && bool_decide (f64_compare v f64_one = Some Lt)
    then Some v else None).

Definition parse_unsigned_n (hi : Z) (s : string) : option N := Z.to_N <$> parse_unsigned hi s.

(** [ServerConfig::from_env]: a number that does not parse is the default. *)
Definition from_env (env : string → option string) : ServerConfig :=
  {| sc_host := default "0.0.0.0" (env "RUSTYDB_HOST");
     sc_port := default 8080%N (env "RUSTYDB_PORT" ≫= parse_unsigned_n (2 ^ 16 - 1));
     sc_username := env "RUSTYDB_USERNAME";
     sc_password := env "RUSTYDB_PASSWORD";
     sc_data_dir := default "./rustydb_data" (env "RUSTYDB_DATA_DIR");
     sc_memory_only :=
       match env "RUSTYDB_MEMORY_ONLY" with
       | Some v => bool_decide (v = "true") || bool_decide (v = "1")
       | None => false
       end;
     sc_wire_port := default 3307%N (env "RUSTYDB_WIRE_PORT" ≫= parse_unsigned_n (2 ^ 16 - 1));
     sc_plan_cache_capacity := default 256%N (env "RUSTYDB_PLAN_CACHE_CAPACITY" ≫= parse_unsigned_n (2 ^ 64 - 1));
     sc_memory_pool_capacity := default 32%N (env "RUSTYDB_MEMORY_POOL_CAPACITY" ≫= parse_unsigned_n (2 ^ 64 - 1));
     sc_bloom_false_positive_rate := parse_bloom_false_positive_rate (env "RUSTYDB_BLOOM_FALSE_POSITIVE_RATE") |}.
End config.

Definition auth_required (c : ServerConfig) : bool :=
  bool_decide (is_Some (sc_username c)) && bool_decide (is_Some (sc_password c)).

(** ** Responses *)

Inductive Json :=
| JNull | JBool (b : bool) | JInteger (z : Z) | JFloat (f : f64) | JString (s : string)
| JArray (l : list Json) | JObject (fields : list (string * Json)).

Record Response := { rp_status : N; rp_body : Json }.

(** A field that is left out when it is [None]. *)
Definition opt_field (name : string) (v : option Json) : list (string * Json) :=
  match v with Some j => [(name, j)] | None => [] end.
(** [ApiResponse::success] and [ApiResponse::error]. *)
Definition api_success (data : Json) : Json := JObject [("success", JBool true); ("data", data)].
Definition api_error (message : string) : Json := JObject [("success", JBool false); ("error", JString message)].

Definition OK : N := 200.
Definition BAD_REQUEST : N := 400.
Definition UNAUTHORIZED : N := 401.
Definition NOT_FOUND : N := 404.
Definition METHOD_NOT_ALLOWED : N := 405.
Definition INTERNAL_SERVER_ERROR : N := 500.

Definition respond (status : N) (data : Json) : Response := {| rp_status := status; rp_body := api_success data |}.

Definition value_response (key : string) (value : option string) : Json :=
  JObject [("key", JString key); ("value", match value with Some v => JString v | None => JNull end);
           ("exists", JBool (bool_decide (is_Some value)))].

Definition value_to_json (v : Value) : Json :=
  match v with
  | VNull => JNull
  | VInteger z => JInteger z
  | VFloat f => if f64_is_finite f then JFloat f else JNull
  | VText s => JString s
  | VBoolean b => JBool b
  end.

(** ** State, requests and handlers *)

Record AppState := { as_kv : KVStore; as_sql : Db; as_config : ServerConfig }.
Definition with_kv (s : AppState) (kv : KVStore) : AppState :=
  {| as_kv := kv; as_sql := as_sql s; as_config := as_config s |}.
Definition with_sql (s : AppState) (d : Db) : AppState :=
  {| as_kv := as_kv s; as_sql := d; as_config := as_config s |}.

Inductive Method := GET | PUT | POST | DELETE.
#[export] Instance Method_eq_dec : EqDecision Method.
Proof. solve_decision. Defined.

(** A body, as the handlers' extractors read it. *)
Inductive Body :=
| NoBody | SetRequest (value : string) | SetManyRequest (pairs : list (string * string))
| GetManyRequest (keys : list string) | SqlRequest (query : string).

Record Request := { rq_method : Method; rq_path : string; rq_authorization : option (list Z); rq_body : Body }.

(** What a call meets outside the program. *)
Record ServerEnv := { se_kv : KvEnv; se_sql : Env }.

Inductive Handler :=
| HKvGet | HKvSet | HKvSetAsync | HKvDelete | HKvGetMany | HKvSetMany | HKvInfo | HKvClear | HKvSnapshot
| HKvFlush | HSqlExecute | HSqlTables | HSqlSave | HHealth.

(** [create_router]: the routes, the protected ones nested under [/kv] and
    [/sql]; nesting [/] gives the prefix itself. *)
Definition routes : list (string * Method * Handler) :=
  [("/health", GET, HHealth);
   ("/kv/{key}", GET, HKvGet); ("/kv/{key}", PUT, HKvSet); ("/kv/{key}", POST, HKvSetAsync);
   ("/kv/{key}", DELETE, HKvDelete); ("/kv", POST, HKvSetMany); ("/kv/mget", POST, HKvGetMany);
   ("/kv/mset", POST, HKvSetMany); ("/kv/info", GET, HKvInfo); ("/kv/clear", POST, HKvClear);
   ("/kv/snapshot", POST, HKvSnapshot); ("/kv/flush", POST, HKvFlush);
   ("/sql/execute", POST, HSqlExecute); ("/sql/tables", GET, HSqlTables); ("/sql/save", POST, HSqlSave)].
Definition protected_pattern (p : string) : bool := negb (bool_decide (p = "/health")).

(** Axum: a path selects a pattern, a literal one before one with a parameter,
    with the parameter's text; then the method selects the handler.  A body
    that does not fit is answered by axum. *)
Class Axum := {
  match_path : list string → string → option (string * string);
  match_literal : ∀ patterns p, p ∈ patterns → p ≠ "/kv/{key}" → match_path patterns p = Some (p, EmptyString);
  not_found : Response;
  method_not_allowed : Response;
  rejection : Response;
  header_to_str : list Z → option string;
  base64_decode : string → option (list Z);
  version : string;
}.

Section server.
Context `{RustStd} `{SqlGrammar} `{LogFormat} `{StatementDebug} `{SnapshotFormat} `{KvFormat} `{DashIter} `{Axum}.

(** *** Authentication *)

Definition refuse (message : string) : Response :=
  {| rp_status := UNAUTHORIZED; rp_body := api_error message |}.

(** [auth_middleware]: [None] lets the request through. *)
Definition auth_middleware (c : ServerConfig) (authorization : option (list Z)) : option Response :=
  match sc_username c, sc_password c with
  | Some expected_user, Some expected_pass =>
      match authorization with
      | None => Some (refuse "Authentication required")
      | Some header =>
          match header_to_str header with
          | None => Some (refuse "Invalid authorization header")
          | Some auth_str =>
              if negb (starts_with_str "Basic " auth_str) then Some (refuse "Basic authentication required")
              else
                match base64_decode (String.substring 6 (String.length auth_str - 6) auth_str) with
                | None => Some (refuse "Invalid base64 encoding")
                | Some decoded =>
                    if negb (valid_utf8 (bytes_string decoded)) then Some (refuse "Invalid UTF-8 in credentials")
                    else
                      match split_once ":" (bytes_string decoded) with
                      | None => Some (refuse "Invalid credentials format")
                      | Some (user, pass) =>
                          if negb (bool_decide (user = expected_user)) || negb (bool_decide (pass = expected_pass))
                          then Some (refuse "Invalid username or password")
                          else None
                      end
                end
          end
      end
  | _, _ => None
  end.

(** *** The key-value handlers *)

Definition handle_kv_get (s : AppState) (key : string) : Response :=
  match kv_get (as_kv s) key with
  | Some value => respond OK (value_response key (Some value))
  | None => respond NOT_FOUND (value_response key None)
  end.

Definition handle_kv_set (s : AppState) (env : KvEnv) (key value : string) : AppState * Response :=
  let '(kv, r) := kv_set (as_kv s) env key value in
  (with_kv s kv,
   match r with
   | Ok _ => respond OK (value_response key (Some value))
   | _ => respond INTERNAL_SERVER_ERROR (value_response key None)
   end).

Definition handle_kv_set_async (s : AppState) (key value : string) : AppState * Response :=
  (with_kv s (kv_set_async (as_kv s) key value), respond OK (value_response key (Some value))).

Definition error_text {A} (m : outcome A) : string := match m with Err e => e | _ => EmptyString end.

Definition handle_kv_delete (s : AppState) (env : KvEnv) (key : string) : AppState * Response :=
  let '(kv, r) := kv_delete (as_kv s) env key in
  (with_kv s kv,
   match r with
   | Ok deleted =>
       respond (if deleted : bool then OK else NOT_FOUND)
         (JObject [("key", JString key); ("deleted", JBool deleted)])
   | _ =>
       respond INTERNAL_SERVER_ERROR
         (JObject [("key", JString key); ("deleted", JBool false); ("error", JString (error_text r))])
   end).

(** The values in the order of the keys asked for, each found among the
    results. *)
Definition handle_kv_get_many (s : AppState) (keys : list string) : Response :=
  let results := kv_get_many (as_kv s) keys in
  respond OK (JArray
    ((λ key, value_response key (snd <$> find_first (λ r, bool_decide (r.1 = key)) results)) <$> keys)).

Definition handle_kv_set_many (s : AppState) (env : KvEnv) (pairs : list (string * string)) : AppState * Response :=
  let '(kv, r) := kv_set_many (as_kv s) env pairs in
  (with_kv s kv,
   match r with
   | Ok n => respond OK (JObject [("requested", JInteger (Z.of_nat (length pairs))); ("set", JInteger (Z.of_nat n))])
   | _ => respond INTERNAL_SERVER_ERROR (JObject [("error", JString (error_text r))])
   end).

Definition handle_kv_info (s : AppState) : Response :=
  respond OK (JObject [("keys_count", JInteger (Z.of_nat (kv_len (as_kv s)))); ("is_empty", JBool (kv_is_empty (as_kv s)));
                       ("wal_size_bytes", JInteger (Z.of_nat (kv_wal_size (as_kv s))))]).

(** [clear], [snapshot] and [flush] answer alike. *)
Definition done_response (name : string) (r : outcome ()) : Response :=
  match r with
  | Ok _ => respond OK (JObject [(name, JBool true)])
  | _ => respond INTERNAL_SERVER_ERROR (JObject [(name, JBool false); ("error", JString (error_text r))])
  end.
Definition handle_kv_clear (s : AppState) (env : KvEnv) : AppState * Response :=
  let '(kv, r) := kv_clear (as_kv s) env in (with_kv s kv, done_response "cleared" r).
Definition handle_kv_snapshot (s : AppState) (env : KvEnv) : AppState * Response :=
  let '(kv, r) := kv_snapshot (as_kv s) env in (with_kv s kv, done_response "snapshot" r).
Definition handle_kv_flush (s : AppState) (env : KvEnv) : AppState * Response :=
  let '(kv, r) := kv_flush (as_kv s) env in (with_kv s kv, done_response "flushed" r).

(** *** The SQL handlers *)

Definition strings (l : list string) : Json := JArray (JString <$> l).
(** [SqlResultResponse]; the fields that are [None] are left out. *)
Definition sql_response (query result_type : string) (rows_affected : option Json) (table_name tables columns rows schema
    message : option Json) : Response :=
  respond OK (JObject ([("query", JString query); ("result_type", JString result_type)]
    ++ opt_field "rows_affected" rows_affected ++ opt_field "table_name" table_name ++ opt_field "tables" tables
    ++ opt_field "columns" columns ++ opt_field "rows" rows ++ opt_field "schema" schema
    ++ opt_field "message" message)).

Definition column_info (c : ColumnDef) : Json :=
  JObject [("name", JString (col_name c)); ("data_type", JString (data_type_display (col_type c)));
           ("nullable", JBool (col_nullable c)); ("primary_key", JBool (col_primary_key c))].

Definition result_response (query : string) (r : ExecutionResult) : Response :=
  let text s := Some (JString s) in
  match r with
  | RSelect rs =>
      sql_response query "select" None None None (Some (strings (rs_columns rs)))
        (Some (JArray ((λ row, JArray (value_to_json <$> row)) <$> rs_rows rs))) None
        (text (pretty (length (rs_rows rs)) +:+ " row(s) returned"))
  | RRowsAffected n =>
      sql_response query "rows_affected" (Some (JInteger (Z.of_nat n))) None None None None None
        (text (pretty n +:+ " row(s) affected"))
  | RTableCreated name =>
      sql_response query "table_created" None (text name) None None None None (text ("Table '" +:+ name +:+ "' created"))
  | RTableDropped name =>
      sql_response query "table_dropped" None (text name) None None None None (text ("Table '" +:+ name +:+ "' dropped"))
  | RIndexCreated name =>
      sql_response query "index_created" None (text name) None None None None (text ("Index '" +:+ name +:+ "' created"))
  | RIndexDropped name =>
      sql_response query "index_dropped" None (text name) None None None None (text ("Index '" +:+ name +:+ "' dropped"))
  | RTables tables => sql_response query "tables" None None (Some (strings tables)) None None None None
  | RTableDescription name columns =>
      sql_response query "describe" None (text name) None None None (Some (JArray (column_info <$> columns))) None
  | RIndexes indexes =>
      sql_response query "indexes" None None None (Some (strings ["name"; "columns"; "unique"]))
        (Some (JArray ((λ i, JArray [JString (index_name i); JString (join_with ", " (index_columns i));
                                     JBool (index_unique i)]) <$> indexes))) None None
  | RExplain lines =>
      sql_response query "explain" None None None (Some (strings ["plan"]))
        (Some (JArray ((λ line, JArray [JString line]) <$> lines))) None None
  | RTransactionStarted =>
      sql_response query "transaction" None None None None None None (text "Transaction started")
  | RTransactionCommitted =>
      sql_response query "transaction" None None None None None None (text "Transaction committed")
  | RTransactionRolledBack =>
      sql_response query "transaction" None None None None None None (text "Transaction rolled back")
  | RError e => {| rp_status := BAD_REQUEST; rp_body := api_error e |}
  end.

Definition handle_sql_execute (s : AppState) (env : Env) (query : string) : outcome (AppState * Response) :=
  '(d, r) ← database_execute (as_sql s) env query; Ok (with_sql s d, result_response query r).

Definition handle_sql_tables (s : AppState) : Response :=
  let tables := list_tables (as_sql s) in
  respond OK (JObject [("tables", strings tables); ("count", JInteger (Z.of_nat (length tables)))]).

Definition handle_sql_save (s : AppState) (env : Env) : AppState * Response :=
  let '(d, error) := save (as_sql s) env in
  (with_sql s d,
   match error with
   | None => respond OK (JObject [("saved", JBool true)])
   | Some e => respond INTERNAL_SERVER_ERROR (JObject [("saved", JBool false); ("error", JString e)])
   end).

(** *** The router *)

Definition handle_health : Response :=
  respond OK (JObject [("status", JString "healthy"); ("version", JString version)]).

(** A handler on what its extractors found; another body is rejected. *)
Definition handle (h : Handler) (s : AppState) (env : ServerEnv) (key : string) (body : Body) :
    outcome (AppState * Response) :=
  match h, body with
  | HKvGet, _ => Ok (s, handle_kv_get s key)
  | HKvSet, SetRequest value => Ok (handle_kv_set s (se_kv env) key value)
  | HKvSetAsync, SetRequest value => Ok (handle_kv_set_async s key value)
  | HKvDelete, _ => Ok (handle_kv_delete s (se_kv env) key)
  | HKvGetMany, GetManyRequest keys => Ok (s, handle_kv_get_many s keys)
  | HKvSetMany, SetManyRequest pairs => Ok (handle_kv_set_many s (se_kv env) pairs)
  | HKvInfo, _ => Ok (s, handle_kv_info s)
  | HKvClear, _ => Ok (handle_kv_clear s (se_kv env))
  | HKvSnapshot, _ => Ok (handle_kv_snapshot s (se_kv env))
  | HKvFlush, _ => Ok (handle_kv_flush s (se_kv env))
  | HSqlExecute, SqlRequest query => handle_sql_execute s (se_sql env) query
  | HSqlTables, _ => Ok (s, handle_sql_tables s)
  | HSqlSave, _ => Ok (handle_sql_save s (se_sql env))
  | HHealth, _ => Ok (s, handle_health)
  | _, _ => Ok (s, rejection)
  end.

Definition patterns : list string := (λ r, r.1.1) <$> routes.
Definition find_route (pattern : string) (m : Method) : option Handler :=
  snd <$> find_first (λ r, bool_decide (r.1 = (pattern, m))) routes.

(** A request: its path, the middleware of the protected routes, its method. *)
Definition serve (s : AppState) (env : ServerEnv) (r : Request) : outcome (AppState * Response) :=
  match match_path patterns (rq_path r) with
  | None => Ok (s, not_found)
  | Some (pattern, key) =>
      match (if protected_pattern pattern then auth_middleware (as_config s) (rq_authorization r) else None) with
      | Some refused => Ok (s, refused)
      | None =>
          match find_route pattern (rq_method r) with
          | Some h => handle h s env key (rq_body r)
          | None => Ok (s, method_not_allowed)
          end
      end
  end.

(** [start_server]: the stores it serves; a directory that cannot be opened is
    replaced by an empty store in memory. *)
Definition sql_options (c : ServerConfig) : SQLDatabaseOptions :=
  {| plan_cache_capacity := N.to_nat (sc_plan_cache_capacity c);
     memory_pool_capacity := N.to_nat (sc_memory_pool_capacity c);
     bloom_false_positive_rate := sc_bloom_false_positive_rate c |}.
Definition or_memory {A} (m : outcome A) (memory : A) : outcome A :=
  match m with Err _ => Ok memory | m => m end.
Definition start_state (c : ServerConfig) (kv_disk : KvDisk) (sql_disk : Disk) : outcome AppState :=
  kv ← if sc_memory_only c then Ok kv_new else or_memory (with_persistence kv_disk) kv_new;
  d ← if sc_memory_only c then Ok (database_new (sql_options c))
      else or_memory (open_with_options sql_disk (sql_options c)) (database_new (sql_options c));
  Ok {| as_kv := kv; as_sql := d; as_config := c |}.
End server.

(** ** Properties *)

Section properties.
Context `{RustStd} `{SqlGrammar} `{LogFormat} `{StatementDebug} `{SnapshotFormat} `{KvFormat} `{DashIter} `{Axum}.

(** The text a header has to carry, in base64 behind [Basic ]. *)
Definition credentials (user pass : string) : string := user +:+ ":" +:+ pass.

Lemma split_once_inv s a b : split_once ":" s = Some (a, b) → s = credentials a b.
Proof.
  unfold split_once, credentials. intros Hs. destruct (position (char_is ":") (chars s)) as [i|] eqn:E; [|done].
  cbn [mbind option_bind] in Hs. injection Hs as <- <-. apply position_Some in E as (x & Hx & Hc & _).
  apply bool_decide_eq_true in Hc as ->. rewrite <-(of_chars_chars s) at 1.
  rewrite <-(take_drop_middle _ _ _ Hx) at 1. rewrite of_chars_app. done.
Qed.

Lemma prefix_split p : ∀ s, String.prefix p s = true →
  s = p +:+ String.substring (String.length p) (String.length s - String.length p) s.
Proof.
  induction p as [|c p IH]; intros s Hp.
  - cbn [String.length]. rewrite Nat.sub_0_r. rewrite <-(append_empty_r s) at 3. by rewrite substring_app_l.
  - destruct s as [|d s]; [done|]. cbn [String.prefix] in Hp. destruct (ascii_dec c d) as [<-|]; [|done].
    cbn [String.length]. rewrite Nat.sub_succ. cbn [String.substring].
    change (String c p +:+ ?t) with (String c (p +:+ t)). f_equal. by apply IH.
Qed.

(** Passing the middleware means no authentication is configured, or the
    header carries the configured credentials. *)
Lemma auth_passes c authorization :
  auth_middleware c authorization = None →
  auth_required c = false ∨
  ∃ user pass header encoded decoded,
    sc_username c = Some user ∧ sc_password c = Some pass ∧ authorization = Some header ∧
    header_to_str header = Some ("Basic " +:+ encoded) ∧ base64_decode encoded = Some decoded ∧
    bytes_string decoded = credentials user pass.
Proof.
  unfold auth_middleware, auth_required. destruct (sc_username c) as [user|]; [|by left].
  destruct (sc_password c) as [pass|]; [|left; by rewrite andb_false_r]. intros Ha. right.
  destruct authorization as [header|]; [|done]. destruct (header_to_str header) as [auth_str|] eqn:Hh; [|done].
  destruct (starts_with_str "Basic " auth_str) eqn:Hp; [|done]. cbn [negb] in Ha.
  destruct (base64_decode _) as [decoded|] eqn:Hd; [|done].
  destruct (valid_utf8 _); [|done]. cbn [negb] in Ha.
  destruct (split_once ":" _) as [[u p]|] eqn:Hs; [|done].
  destruct (decide (u = user)) as [->|]; [|by rewrite bool_decide_eq_false_2 in Ha].
  destruct (decide (p = pass)) as [->|]; [|by rewrite (bool_decide_eq_false_2 (p = pass)), orb_true_r in Ha].
  eexists _, _, _, _, _. split_and!; [done|done|done| |exact Hd|by apply split_once_inv].
  rewrite Hh. f_equal. by apply (prefix_split "Basic ").
Qed.

(** C22. Without the configured credentials a request changes nothing: when a
    user and a password are configured, any request that changes the server's
    state carried them. *)
Theorem unauthorized_request_changes_nothing s env r s' response :
  serve s env r = Ok (s', response) → auth_required (as_config s) = true → s' ≠ s →
  ∃ user pass header encoded decoded,
    sc_username (as_config s) = Some user ∧ sc_password (as_config s) = Some pass ∧
    rq_authorization r = Some header ∧ header_to_str header = Some ("Basic " +:+ encoded) ∧
    base64_decode encoded = Some decoded ∧ bytes_string decoded = credentials user pass.
Proof.
  intros Hs Hauth Hne. unfold serve in Hs. destruct (match_path _ _) as [[pattern key]|]; [|congruence].
  destruct (decide (pattern = "/health")) as [->|Hp].
  - exfalso. change (protected_pattern "/health") with false in Hs.
    assert (find_route "/health" (rq_method r) = Some HHealth ∨ find_route "/health" (rq_method r) = None) as [Hr|Hr]
      by (destruct (rq_method r); vm_compute; auto); rewrite Hr in Hs; [cbn [handle] in Hs|]; congruence.
  - assert (protected_pattern pattern = true) as Hprot by (unfold protected_pattern; by rewrite bool_decide_eq_false_2).
    rewrite Hprot in Hs. destruct (auth_middleware _ _) eqn:Ha; [congruence|].
    apply auth_passes in Ha as [Ha|Ha]; [congruence|done].
Qed.

Lemma find_in_results (m : gmap string string) key keys :
  key ∈ keys →
  snd <$> find_first (λ r : string * string, bool_decide (r.1 = key)) (omap (λ key, v ← m !! key; Some (key, v)) keys)
    = m !! key.
Proof.
  destruct (m !! key) as [v|] eqn:E.
  - induction keys as [|k keys IH]; [by intros ?%elem_of_nil|]. intros Hk. cbn [omap list_omap].
    destruct (decide (k = key)) as [->|Hne].
    + rewrite E. cbn [mbind option_bind find_first fst]. by rewrite bool_decide_eq_true_2.
    + apply elem_of_cons in Hk as [->|Hk]; [done|].
      destruct (m !! k); cbn [mbind option_bind]; [|by apply IH].
      cbn [find_first fst]. rewrite bool_decide_eq_false_2 by done. by apply IH.
  - intros _. destruct (find_first _ _) as [[k v]|] eqn:Hf; [|done]. exfalso.
    apply find_first_Some in Hf as [Hi Hk]. apply list_elem_of_omap in Hi as (k' & _ & Hv).
    cbn [fst] in Hk. apply bool_decide_eq_true in Hk as ->.
    destruct (m !! k') eqn:E'; [|done]. cbn in Hv. congruence.
Qed.

(** Getting many keys answers each of them, in the order asked for, with its
    value. *)
Theorem get_many_exact s keys :
  handle_kv_get_many s keys =
    respond OK (JArray ((λ key, value_response key (kv_data (as_kv s) !! key)) <$> keys)).
Proof.
  unfold handle_kv_get_many. f_equal. f_equal. apply list_fmap_ext. intros i key Hi. f_equal.
  unfold kv_get_many. apply find_in_results. by eapply list_elem_of_lookup_2.
Qed.

(** A value that was put is got back. *)
Theorem put_then_get s env authorization key value path s1 :
  match_path patterns path = Some ("/kv/{key}", key) →
  auth_middleware (as_config s) authorization = None →
  serve s env {| rq_method := PUT; rq_path := path; rq_authorization := authorization; rq_body := SetRequest value |}
    = Ok (s1, respond OK (value_response key (Some value))) →
  serve s1 env {| rq_method := GET; rq_path := path; rq_authorization := authorization; rq_body := NoBody |}
    = Ok (s1, respond OK (value_response key (Some value))).
Proof.
  intros Hp Ha. unfold serve. cbn [rq_path rq_method rq_authorization rq_body]. rewrite Hp.
  change (protected_pattern "/kv/{key}") with true. cbv iota. rewrite Ha.
  change (find_route "/kv/{key}" PUT) with (Some HKvSet). change (find_route "/kv/{key}" GET) with (Some HKvGet).
  cbn [handle]. unfold handle_kv_set. destruct (kv_set _ _ _ _) as [kv r] eqn:Hset. intros [= <- Hr].
  cbn [with_kv as_config]. rewrite Ha. unfold handle_kv_get, kv_get. cbn [as_kv with_kv].
  unfold kv_set in Hset. destruct (log_sync _ _ _) as [kv' r'] eqn:Hl.
  destruct r' as [u|e|]; injection Hset as <- <-; [|discriminate Hr..].
  cbn [kv_data with_data]. by rewrite lookup_insert_eq.
Qed.

(** The names of the literal routes are no keys: posting a value for the key
    [clear], which sets other keys, clears the store. *)
Theorem reserved_key_clears_store s env value :
  auth_middleware (as_config s) None = None → kv_persistence (as_kv s) = None →
  ∃ s' response,
    serve s env {| rq_method := POST; rq_path := "/kv/clear"; rq_authorization := None;
                   rq_body := SetRequest value |} = Ok (s', response) ∧ kv_data (as_kv s') = ∅.
Proof.
  intros Ha Hm. unfold serve. cbn [rq_path rq_method rq_authorization rq_body].
  rewrite match_literal by (try done; unfold patterns, routes; rewrite !fmap_cons; set_solver).
  change (protected_pattern "/kv/clear") with true. cbv iota. rewrite Ha.
  change (find_route "/kv/clear" POST) with (Some HKvClear). cbn [handle].
  unfold handle_kv_clear, kv_clear, log_sync. rewrite Hm. by eexists _, _.
Qed.

(** A write that fails is answered with [success: true]. *)
Theorem failed_set_reports_success s env key value kv e :
  kv_set (as_kv s) env key value = (kv, Err e) →
  rp_body (handle_kv_set s env key value).2 = api_success (value_response key None).
Proof. intros Hs. unfold handle_kv_set. by rewrite Hs. Qed.

(** A directory that cannot be opened is served as an empty store that keeps
    nothing. *)
Theorem broken_directory_serves_memory c kv_disk sql_disk e d s :
  sc_memory_only c = false → with_persistence kv_disk = Err e →
  open_with_options sql_disk (sql_options c) = Ok d → start_state c kv_disk sql_disk = Ok s →
  kv_data (as_kv s) = ∅ ∧ kv_persistence (as_kv s) = None.
Proof.
  intros Hm Hk Hd. unfold start_state. rewrite Hm, Hk, Hd. cbn [or_memory mbind outcome_bind].
  by intros [= <-].
Qed.
End properties.

(** *** Witness *)

Section server_examples.
#[local] Existing Instance concrete_std.
#[local] Existing Instance concrete_log.
#[local] Existing Instance concrete_grammar.
#[local] Instance debug_none : StatementDebug := λ _, "statement".
#[local] Instance no_snapshots : SnapshotFormat :=
  {| snapshot_to_json := λ _, EmptyString; snapshot_from_json := λ _, None;
     legacy_table_from_json := λ _, None |}.

Definition concrete_match (ps : list string) (p : string) : option (string * string) :=
  if bool_decide (p ∈ ps ∧ p ≠ "/kv/{key}") then Some (p, EmptyString)
  else if String.prefix "/kv/" p then Some ("/kv/{key}", String.substring 4 (String.length p - 4) p) else None.
Lemma concrete_match_literal ps p : p ∈ ps → p ≠ "/kv/{key}" → concrete_match ps p = Some (p, EmptyString).
Proof. intros Hp Hk. unfold concrete_match. by rewrite bool_decide_eq_true_2. Qed.
#[local] Instance concrete_axum : Axum :=
  {| match_path := concrete_match; match_literal := concrete_match_literal;
     not_found := respond NOT_FOUND JNull; method_not_allowed := respond METHOD_NOT_ALLOWED JNull;
     rejection := respond BAD_REQUEST JNull; header_to_str := λ l, Some (bytes_string l);
     base64_decode := λ s, Some (string_bytes s); version := "0" |}.

Definition guarded : ServerConfig :=
  from_env (λ name, if bool_decide (name = "RUSTYDB_USERNAME") then Some "root"
                    else if bool_decide (name = "RUSTYDB_PASSWORD") then Some "secret" else None).
Definition guarded_state : AppState :=
  {| as_kv := kv_new; as_sql := database_new (sql_options guarded); as_config := guarded |}.
Definition put_a : Request :=
  {| rq_method := PUT; rq_path := "/kv/a"; rq_authorization := Some (string_bytes "Basic root:secret");
     rq_body := SetRequest "1" |}.
Definition after_put : AppState :=
  with_kv guarded_state (kv_set kv_new calm "a" "1").1.
Definition calm_server : ServerEnv := {| se_kv := calm; se_sql := fine |}.

Lemma unauthorized_request_changes_nothing_witness :
  serve guarded_state calm_server put_a = Ok (after_put, respond OK (value_response "a" (Some "1"))) ∧
  ∃ encoded decoded, header_to_str (string_bytes "Basic root:secret") = Some ("Basic " +:+ encoded) ∧
    base64_decode encoded = Some decoded ∧ bytes_string decoded = credentials "root" "secret".
Proof.
  assert (serve guarded_state calm_server put_a = Ok (after_put, respond OK (value_response "a" (Some "1")))) as Hserve
    by (vm_compute; reflexivity).
  split; [exact Hserve|].
  destruct (unauthorized_request_changes_nothing guarded_state calm_server put_a after_put
    (respond OK (value_response "a" (Some "1"))) Hserve) as (user & pass & header & encoded & decoded & Hu & Hp & Hr & Hh & Hd & Hc).
  - vm_compute. reflexivity.
  - intros He. apply (f_equal (λ s, kv_data (as_kv s) !! "a")) in He. vm_compute in He. discriminate He.
  - vm_compute in Hu, Hp, Hr. injection Hu as <-. injection Hp as <-. injection Hr as <-.
    exists encoded, decoded. split; [exact Hh|]. split; [exact Hd|exact Hc].
Defined.
End server_examples.
