(* ===== verification/Shell.v ===== *)
(** * Shell.v: the command line (src/main.rs)

    The flags, the backup commands, and the two interactive shells as functions
    from the lines read to the lines printed.  At the end of the input every
    further line is empty, as [read_line] gives it; the loops have fuel, one
    unit per line read. *)

From Stdlib Require Import Ascii.
From S2P Require Import Prelude Machine Float64 Like Types Concrete Keys Table Eval Queries.
From S2P Require Import Statement Planner Validate Ddl Execute Params Str Log Parser Wal Database.
From S2P Require Import SqlAst Persistence KvStore KvDurable KvConcrete Calendar Recovery Restore Render Server.

(** ** Arguments *)

Definition flag (name : string) (args : list string) : bool := bool_decide (name ∈ args).

(** [option]: the first argument [--name=value]. *)
Fixpoint option_value (name : string) (args : list string) : option string :=
  match args with
  | [] => None
  | a :: args =>
      match strip_prefix ("--" +:+ name +:+ "=") a with
      | Some v => Some v
      | None => option_value name args
      end
  end.

Definition default_data_dir : string := "./rustydb_data".
(** The argument [--data=], every repetition of the prefix removed. *)
Definition data_dir_argument (args : list string) : string :=
  default default_data_dir
    (strip_prefixes "--data=" <$> find_first (λ a, starts_with_str "--data=" a) args).

Inductive Mode := ServerMode (memory_only : bool) (data_dir : string)
| SqlMode (data_dir : string) (memory_only : bool) | KvMode (data_dir : string) (memory_only : bool).
Definition mode_of (args : list string) : Mode :=
  let data_dir := data_dir_argument args in
  let memory_only := flag "--memory" args in
  if flag "--server" args then ServerMode memory_only data_dir
  else if flag "--sql" args then SqlMode data_dir memory_only
  else KvMode data_dir memory_only.

(** [run_server_mode]: the environment, overridden by the arguments. *)
Definition server_mode_config `{RustStd} (env : string → option string) (memory_only : bool) (data_dir : string) :
    ServerConfig :=
  let c := from_env env in
  {| sc_host := sc_host c; sc_port := sc_port c; sc_username := sc_username c; sc_password := sc_password c;
     sc_data_dir := if bool_decide (data_dir = default_data_dir) then sc_data_dir c else data_dir;
     sc_memory_only := if memory_only then true else sc_memory_only c;
     sc_wire_port := sc_wire_port c; sc_plan_cache_capacity := sc_plan_cache_capacity c;
     sc_memory_pool_capacity := sc_memory_pool_capacity c;
     sc_bloom_false_positive_rate := sc_bloom_false_positive_rate c |}.

(** ** The backup commands *)

(** The directories by the text that names them. *)
Definition World : Type := string → Dir.
Definition set_files (w : World) (name : string) (t : Tree) : World := λ n,
  if bool_decide (n = name) then
    {| dir_name := dir_name (w name); dir_files := t; dir_sql_active := dir_sql_active (w name);
       dir_kv_active := dir_kv_active (w name) |}
  else w n.

Section recovery_commands.
Context `{RustStd} `{SqlGrammar} `{LogFormat} `{StatementDebug} `{SnapshotFormat} `{KvFormat} `{BackupFormat}.

Definition at_point (p : RecoveryPoint) : string :=
  "sql:" +:+ pretty (sql_commit_version p) +:+ ",kv:" +:+ pretty (kv_sequence p).

Definition backup_command (w : World) (now : N) (args : list string) : World * outcome string :=
  let data := default default_data_dir (option_value "data" args) in
  match option_value "output" args with
  | None => (w, Err "backup requires --output=DIR")
  | Some output =>
      let '(source, t, r) := create_backup (w data) (w output) now in
      (set_files (set_files w data source) output t,
       m ← r; Ok ("Backup complete at recovery point " +:+ at_point (bm_recovery_point m)))
  end.

Definition restore_target (args : list string) : outcome RecoveryTarget :=
  match option_value "target-time" args, option_value "target-point" args with
  | Some _, Some _ => Err "Choose only one of --target-time or --target-point"
  | Some timestamp, None => millis ← parse_rfc3339 timestamp; Ok (AtTimestamp millis)
  | None, Some point => p ← recovery_point_from_str point; Ok (AtPoint p)
  | None, None => Ok Latest
  end.

Definition restore_command (w : World) (args : list string) : World * outcome string :=
  match backup ← ok_or (option_value "backup" args) "restore requires --backup=DIR";
        output ← ok_or (option_value "output" args) "restore requires --output=DIR";
        target ← restore_target args; Ok (backup, output, target) with
  | Ok (backup, output, target) =>
      let '(t, r) := restore (w backup) (w <$> option_value "wal-archive" args) (w output) target in
      (set_files w output t, p ← r; Ok ("Restore complete at recovery point " +:+ at_point p))
  | Err e => (w, Err e)
  | Panic => (w, Panic)
  end.

Definition prune_message (apply : bool) (r : PruneReport) : string :=
  (if apply then "Pruned" else "Would prune") +:+ " " +:+ pretty (length (pr_files r)) +:+ " WAL segment(s), "
  +:+ pretty (pr_bytes r) +:+ " bytes" +:+ (if apply then "" else " (dry run; pass --yes to apply)").

Definition prune_command (w : World) (args : list string) : World * outcome string :=
  let data := default default_data_dir (option_value "data" args) in
  match before ← ok_or (option_value "before" args) "wal-prune requires --before=RFC3339"; parse_rfc3339 before with
  | Ok before =>
      let apply := flag "--yes" args in
      let '(t, r) := prune (w data) before apply in
      (set_files w data t, report ← r; Ok (prune_message apply report))
  | Err e => (w, Err e)
  | Panic => (w, Panic)
  end.

(** [run_recovery_command]: [None] when the first argument is not one of the
    commands. *)
Definition run_recovery_command (w : World) (now : N) (args : list string) : option (World * outcome string) :=
  match args !! 1 with
  | None => None
  | Some command =>
      if bool_decide (command = "backup") then Some (backup_command w now args)
      else if bool_decide (command = "restore") then Some (restore_command w args)
      else if bool_decide (command = "wal-prune") then Some (prune_command w args)
      else None
  end.
End recovery_commands.

(** ** What the shells print *)

Definition sql_help : list string :=
  ["";
   "  RustyDB SQL Mode";
   "  =================";
   "";
   "  SQL Commands:";
   "    CREATE TABLE name (col1 TYPE, col2 TYPE, ...)";
   "    CREATE [UNIQUE] INDEX name ON table (col1, ...)";
   "    DROP INDEX name ON table";
   "    DROP TABLE name";
   "    INSERT INTO table VALUES (val1, val2, ...)";
   "    SELECT ... FROM ... [JOIN ...] [WHERE ...] [GROUP BY ...] [HAVING ...]";
   "    UPDATE table SET col = val [WHERE ...]";
   "    DELETE FROM table [WHERE ...]";
   "    SHOW TABLES";
   "    SHOW INDEXES FROM table";
   "    DESCRIBE table";
   "    EXPLAIN SELECT ...";
   "    BEGIN, COMMIT, ROLLBACK";
   "";
   "  Data Types:";
   "    INTEGER, INT        - Integer numbers";
   "    FLOAT, DOUBLE       - Floating point numbers";
   "    TEXT, VARCHAR(n)    - Text strings";
   "    BOOLEAN, BOOL       - TRUE or FALSE";
   "";
   "  Column Modifiers:";
   "    PRIMARY KEY         - Unique identifier";
   "    UNIQUE              - Unique column or column group";
   "    CHECK (expression)  - Row validation";
   "    FOREIGN KEY (...) REFERENCES table (...) - Referential integrity";
   "    NOT NULL            - Cannot be NULL";
   "";
   "  WHERE Operators:";
   "    =, !=, <, <=, >, >= - Comparison";
   "    LIKE                - Pattern matching (% and _)";
   "    AND, OR             - Logical operators";
   "";
   "  Special Commands:";
   "    tables, \dt         - List all tables";
   "    save, checkpoint    - Save database to disk";
   "    help, \h            - Show this help";
   "    exit, quit, \q      - Exit RustyDB";
   "";
   "  Examples:";
   "    CREATE TABLE users (id INT PRIMARY KEY, name VARCHAR(100), age INT);";
   "    INSERT INTO users VALUES (1, 'Alice', 30);";
   "    SELECT * FROM users WHERE age > 25 ORDER BY name;";
   ""].

Definition kv_help : list string :=
  ["";
   "  RustyDB Key-Value Mode";
   "  ======================";
   "";
   "  Basic Operations:";
   "    SET <key> <value>      - Store a key-value pair (sync, crash-safe)";
   "    SETASYNC <key> <value> - Store a key-value pair (async, faster)";
   "    GET <key>              - Retrieve a value by key";
   "    DELETE <key>           - Delete a key";
   "    LEN                    - Get number of keys";
   "    ISEMPTY                - Check if store is empty";
   "    CLEAR                  - Delete all keys";
   "";
   "  Batch Operations:";
   "    MGET <key1> <key2> ... - Get multiple keys at once";
   "    MSET <k1> <v1> ...     - Set multiple key-value pairs";
   "";
   "  Persistence:";
   "    SNAPSHOT               - Compact WAL into snapshot";
   "    FLUSH                  - Flush pending writes to disk";
   "    WALSIZE                - Show current WAL file size";
   "";
   "  Other:";
   "    SQL                    - Info about SQL mode";
   "    HELP                   - Show this help message";
   "    EXIT                   - Quit RustyDB";
   ""].
Definition goodbye : string := "Data saved. Goodbye!".
Definition error_line (e : string) : string := "Error: " +:+ e.

(** The lines of a result; a panic ends the process. *)
Definition report {A} (r : outcome A) (text : A → list string) : outcome (list string) :=
  match r with Ok a => Ok (text a) | Err e => Ok [error_line e] | Panic => Panic end.

(** What a line does to a shell: the new state and the lines printed, and
    whether the shell ends. *)
Notation Turn S := (outcome (S * list string * bool)).
Definition say {S} (s : S) (lines : list string) : Turn S := Ok (s, lines, false).

(** The loop of a shell: [None] while it still runs when the fuel is used up.
    [read_line] fails, and the shell panics, on a line that is not UTF-8. *)
Section loop.
Context {S E : Type} (turn : S → E → string → Turn S).

Fixpoint shell_loop (fuel : nat) (s : S) (envs : nat → E) (input : list string) (printed : list string) :
    option (outcome (S * list string)) :=
  match fuel with
  | 0 => None
  | Datatypes.S fuel =>
      let line := default EmptyString (head input) in
      if negb (valid_utf8 line) then Some Panic
      else
        match turn s (envs 0) line with
        | Ok (s, lines, true) => Some (Ok (s, printed ++ lines))
        | Ok (s, lines, false) => shell_loop fuel s (λ i, envs (Datatypes.S i)) (tail input) (printed ++ lines)
        | Err e => Some (Err e)
        | Panic => Some Panic
        end
  end.
End loop.

(** *** The key-value shell *)

Inductive KvCommand := KSet | KGet | KDelete | KLen | KClear | KHelp | KSetAsync | KGetMany | KSetMany | KIsEmpty
| KSnapshot | KFlush | KWalSize | KSql | KExit.
#[export] Instance KvCommand_eq_dec : EqDecision KvCommand.
Proof. solve_decision. Defined.
Definition kv_commands : list (string * KvCommand) :=
  [("set", KSet); ("get", KGet); ("del", KDelete); ("delete", KDelete); ("len", KLen); ("size", KLen);
   ("clear", KClear); ("help", KHelp); ("setasync", KSetAsync); ("set_async", KSetAsync); ("mget", KGetMany);
   ("getmany", KGetMany); ("get_many", KGetMany); ("mset", KSetMany); ("setmany", KSetMany); ("set_many", KSetMany);
   ("isempty", KIsEmpty); ("is_empty", KIsEmpty); ("empty", KIsEmpty); ("snapshot", KSnapshot); ("flush", KFlush);
   ("walsize", KWalSize); ("sql", KSql); ("sqlmode", KSql); ("exit", KExit); ("quit", KExit)].
Definition find_kv_command (command : string) : option KvCommand :=
  snd <$> find_first (λ c, bool_decide (c.1 = command)) kv_commands.

(** The pairs of MSET, two words at a time. *)
Fixpoint pair_up (l : list string) : list (string * string) :=
  match l with k :: v :: l => (k, v) :: pair_up l | _ => [] end.

(** [{:.2}] of an [f64]. *)
Class TwoDecimals := two_decimals : f64 → string.

(** A call's store with the lines of its result. *)
Definition answer {A} (r : KVStore * outcome A) (text : A → list string) : Turn KVStore :=
  lines ← report r.2 text; say r.1 lines.

Section kv_shell.
Context `{RustStd} `{UnicodeTables} `{TwoDecimals} `{KvFormat} `{DashIter}.

Definition wal_size_line (size : Z) : string :=
  (if bool_decide (size < 1024) then pretty size +:+ " bytes"
   else if bool_decide (size < 1024 * 1024) then two_decimals (f64_div (f64_of_Z size) (f64_of_Z 1024)) +:+ " KB"
   else two_decimals (f64_div (f64_of_Z size) (f64_mul (f64_of_Z 1024) (f64_of_Z 1024))) +:+ " MB")%Z.

Definition kv_turn (s : KVStore) (env : KvEnv) (line : string) : Turn KVStore :=
  let input := trim line in
  if bool_decide (input = EmptyString) then say s []
  else
    let parts := splitn 3 " " input in
    let words := split_whitespace input in
    let command := to_lowercase (default EmptyString (head parts)) in
    match find_kv_command command with
    | Some KSet =>
        match parts with
        | _ :: key :: value :: _ => answer (kv_set s env key value) (λ _, ["OK"])
        | _ => say s ["Error: SET requires a key and value"; "Usage: SET <key> <value>"]
        end
    | Some KGet =>
        match parts with
        | _ :: key :: _ => say s [default "(nil)" (kv_get s key)]
        | _ => say s ["Error: GET requires a key"; "Usage: GET <key>"]
        end
    | Some KDelete =>
        match parts with
        | _ :: key :: _ =>
            answer (kv_delete s env key) (λ deleted, [if deleted : bool then "OK (deleted)" else "OK (key not found)"])
        | _ => say s ["Error: DELETE requires a key"; "Usage: DELETE <key>"]
        end
    | Some KLen => say s [pretty (kv_len s)]
    | Some KClear => answer (kv_clear s env) (λ _, ["OK (all keys deleted)"])
    | Some KHelp => say s kv_help
    | Some KSetAsync =>
        match parts with
        | _ :: key :: value :: _ => say (kv_set_async s key value) ["OK (queued for async write)"]
        | _ => say s ["Error: SETASYNC requires a key and value"; "Usage: SETASYNC <key> <value>"]
        end
    | Some KGetMany =>
        match parts with
        | _ :: _ :: _ =>
            say s (match kv_get_many s (drop 1 words) with
                   | [] => ["(empty - no keys found)"]
                   | results => (λ '(key, value), key +:+ ": " +:+ value) <$> results
                   end)
        | _ => say s ["Error: MGET requires at least one key"; "Usage: MGET <key1> <key2> ..."]
        end
    | Some KSetMany =>
        if bool_decide (length words < 3) || negb (Nat.even (length words - 1))
        then say s ["Error: MSET requires key-value pairs"; "Usage: MSET <key1> <value1> <key2> <value2> ..."]
        else answer (kv_set_many s env (pair_up (drop 1 words))) (λ n, ["OK (" +:+ pretty n +:+ " keys set)"])
    | Some KIsEmpty =>
        say s [if kv_is_empty s then "true (store is empty)"
               else "false (store has " +:+ pretty (kv_len s) +:+ " keys)"]
    | Some KSnapshot => answer (kv_snapshot s env) (λ _, ["OK (snapshot created, WAL compacted)"])
    | Some KFlush => answer (kv_flush s env) (λ _, ["OK (all pending writes flushed)"])
    | Some KWalSize => say s [wal_size_line (Z.of_nat (kv_wal_size s))]
    | Some KSql =>
        say s ["Switching to SQL mode not supported in this session."; "Restart with --sql flag to use SQL mode."]
    | Some KExit => Ok ((kv_flush s env).1, [goodbye], true)
    | None => say s ["Unknown command: '" +:+ command +:+ "'"; "Type 'help' for available commands"]
    end.

(** [run_kv_mode]: a store that does not open is replaced by one in memory. *)
Definition kv_start (disk : KvDisk) (data_dir : string) (memory_only : bool) : outcome (KVStore * list string) :=
  let banner := ["Running in Key-Value mode"; "(Use --sql flag for SQL mode)"; ""] in
  if memory_only then Ok (kv_new, banner ++ ["Running in memory-only mode (no persistence)"; ""])
  else
    let banner := banner ++ ["Data directory: " +:+ data_dir] in
    match with_persistence disk with
    | Ok s =>
        Ok (s, banner ++ (if bool_decide (0 < kv_len s)
                          then ["Recovered " +:+ pretty (kv_len s) +:+ " keys from disk"] else []) ++ [""])
    | Err e =>
        Ok (kv_new, banner ++ ["Failed to open persistent store: " +:+ e; "Falling back to memory-only mode"; ""])
    | Panic => Panic
    end.

Definition run_kv_mode (fuel : nat) (disk : KvDisk) (data_dir : string) (memory_only : bool) (envs : nat → KvEnv)
    (input : list string) : option (outcome (KVStore * list string)) :=
  match kv_start disk data_dir memory_only with
  | Ok (s, printed) => shell_loop kv_turn fuel s envs input printed
  | Err e => Some (Err e)
  | Panic => Some Panic
  end.
End kv_shell.

(** *** The SQL shell *)

Record SqlShell := { sh_db : Db; sh_session : SQLSession; sh_buffer : string; sh_multiline : bool }.

Inductive SqlCommand := QExit | QHelp | QTables | QSave | QKv.
Definition sql_commands : list (string * SqlCommand) :=
  [("exit", QExit); ("quit", QExit); ("\q", QExit); ("help", QHelp); ("\h", QHelp); ("\?", QHelp);
   ("tables", QTables); ("\dt", QTables); ("save", QSave); ("checkpoint", QSave); ("kv", QKv); ("kvmode", QKv)].
Definition find_sql_command (input : string) : option SqlCommand :=
  snd <$> find_first (λ c, bool_decide (c.1 = input)) sql_commands.

Section sql_shell.
Context `{RustStd} `{UnicodeTables} `{SqlGrammar} `{LogFormat} `{StatementDebug} `{SnapshotFormat}.

Definition ends_with_semicolon (s : string) : bool := bool_decide (last_char s = Some (ascii_of_N 59)).
(** A buffer that need not wait for another line. *)
Definition is_complete (trimmed : string) : bool :=
  ends_with_semicolon trimmed || starts_with_str "SHOW " (to_uppercase trimmed)
  || starts_with_str "DESCRIBE " (to_uppercase trimmed) || starts_with_str "DESC " (to_uppercase trimmed).

Definition sql_command (sh : SqlShell) (env : Env) (c : SqlCommand) : Turn SqlShell :=
  let with_db d := {| sh_db := d; sh_session := sh_session sh; sh_buffer := sh_buffer sh; sh_multiline := sh_multiline sh |} in
  match c with
  | QExit =>
      let '(d, error) := save (sh_db sh) env in
      Ok (with_db d, match error with
                     | Some e => ["Warning: Failed to save: " +:+ e; goodbye]
                     | None => [goodbye]
                     end, true)
  | QHelp => say sh sql_help
  | QTables =>
      say sh (match list_tables (sh_db sh) with
              | [] => ["No tables"]
              | tables => "Tables:" :: ((λ t, "  " +:+ t) <$> tables)
              end)
  | QSave =>
      let '(d, error) := save (sh_db sh) env in
      say (with_db d) [match error with Some e => error_line e | None => "Database saved" end]
  | QKv =>
      say sh ["Switching to KV mode not supported in this session."; "Restart with --sql flag removed to use KV mode."]
  end.

(** The buffer with the line added, run when it is complete or the line is
    empty. *)
Definition sql_input (sh : SqlShell) (env : Env) (input : string) : Turn SqlShell :=
  let buffer := sh_buffer sh +:+ input +:+ " " in
  let trimmed := trim buffer in
  if negb (is_complete trimmed) && negb (bool_decide (input = EmptyString)) then
    say {| sh_db := sh_db sh; sh_session := sh_session sh; sh_buffer := buffer; sh_multiline := true |} []
  else if bool_decide (trimmed = EmptyString) then
    say {| sh_db := sh_db sh; sh_session := sh_session sh; sh_buffer := EmptyString; sh_multiline := false |} []
  else
    '(d, s, r) ← session_execute (sh_db sh) env (sh_session sh) trimmed;
    text ← result_display r;
    say {| sh_db := d; sh_session := s; sh_buffer := EmptyString; sh_multiline := false |} [text].

Definition sql_turn (sh : SqlShell) (env : Env) (line : string) : Turn SqlShell :=
  let input := trim line in
  if sh_multiline sh then sql_input sh env input
  else if bool_decide (input = EmptyString) then say sh []
  else
    match find_sql_command (to_lowercase input) with
    | Some c => sql_command sh env c
    | None => sql_input sh env input
    end.

Definition shell_of (d : Db) : SqlShell :=
  {| sh_db := d; sh_session := session_new; sh_buffer := EmptyString; sh_multiline := false |}.

(** [SQLDatabaseOptions::default], [SQLDatabase::new] and [open]. *)
Definition default_options : SQLDatabaseOptions :=
  {| plan_cache_capacity := 256; memory_pool_capacity := 32; bloom_false_positive_rate := F_0_01 |}.

(** [run_sql_mode]. *)
Definition sql_start (disk : Disk) (data_dir : string) (memory_only : bool) :
    outcome (SqlShell * list string) :=
  let banner := ["Running in SQL mode"] in
  if memory_only then
    Ok (shell_of (database_new default_options), banner ++ ["Using in-memory database (no persistence)"; ""])
  else
    let banner := banner ++ ["Data directory: " +:+ data_dir] in
    match open_with_options disk default_options with
    | Ok d =>
        let tables := list_tables d in
        Ok (shell_of d, banner ++ (if bool_decide (tables = []) then []
              else ["Loaded " +:+ pretty (length tables) +:+ " table(s): " +:+ join_with ", " tables]) ++ [""])
    | Err e =>
        Ok (shell_of (database_new default_options),
            banner ++ ["Failed to open database: " +:+ e; "Falling back to in-memory mode"; ""])
    | Panic => Panic
    end.

Definition run_sql_mode (fuel : nat) (disk : Disk) (data_dir : string)
    (memory_only : bool) (envs : nat → Env) (input : list string) : option (outcome (SqlShell * list string)) :=
  match sql_start disk data_dir memory_only with
  | Ok (sh, printed) => shell_loop sql_turn fuel sh envs input printed
  | Err e => Some (Err e)
  | Panic => Some Panic
  end.
End sql_shell.

(** ** Properties of the loop *)

Section loop_laws.
Context {S E : Type} (turn : S → E → string → Turn S).
Implicit Types (s : S) (envs : nat → E) (input printed : list string).

(** Turns that never fail, and stop the shell exactly on some lines. *)
Definition decided_by (stops : string → bool) : Prop :=
  ∀ s env line, ∃ s' lines, turn s env line = Ok (s', lines, stops line).
Definition ends (stops : string → bool) (line : string) : bool := negb (valid_utf8 line) || stops line.

Lemma loop_goes_on s envs line input printed fuel s' lines :
  valid_utf8 line = true → turn s (envs 0) line = Ok (s', lines, false) →
  shell_loop turn (Datatypes.S fuel) s envs (line :: input) printed
  = shell_loop turn fuel s' (λ i, envs (Datatypes.S i)) input (printed ++ lines).
Proof.
  intros Hl Ht. cbn [shell_loop]. change (default EmptyString (head (line :: input))) with line.
  by rewrite Hl, Ht.
Qed.

Lemma loop_ends stops :
  decided_by stops → ∀ input s envs printed,
  Exists (λ line, ends stops line = true) input →
  ∃ r, shell_loop turn (length input) s envs input printed = Some r.
Proof.
  intros Ht. induction input as [|line input IH]; intros s envs printed Hx; [by apply Exists_nil in Hx|].
  cbn [shell_loop length]. change (default EmptyString (head (line :: input))) with line.
  destruct (valid_utf8 line) eqn:Hv; cbn [negb]; [|by eexists].
  destruct (Ht s (envs 0) line) as (s' & lines & ->). destruct (stops line) eqn:Hs; [by eexists|].
  apply IH. apply Exists_cons in Hx as [Hx|Hx]; [|done]. unfold ends in Hx. rewrite Hv, Hs in Hx. done.
Qed.

Lemma loop_never_ends stops :
  decided_by stops → ends stops EmptyString = false → ∀ fuel input s envs printed,
  Forall (λ line, ends stops line = false) input →
  shell_loop turn fuel s envs input printed = None.
Proof.
  intros Ht He. induction fuel as [|fuel IH]; intros input s envs printed Hf; [done|].
  assert (ends stops (default EmptyString (head input)) = false) as Hl by (destruct Hf; done).
  cbn [shell_loop]. unfold ends in Hl. apply orb_false_iff in Hl as [-> Hs].
  destruct (Ht s (envs 0) (default EmptyString (head input))) as (s' & lines & ->). rewrite Hs.
  apply IH. by destruct Hf.
Qed.
End loop_laws.

(** ** The key-value shell *)

Section kv_shell_laws.
Context `{RustStd} `{UnicodeTables} `{TwoDecimals} `{KvFormat} `{DashIter}.

(** The calls of the store succeed or fail; they do not panic. *)
Definition settled {A} (r : outcome A) : Prop := r ≠ Panic.

Lemma log_sync_settled s env op : settled (log_sync s env op).2.
Proof.
  unfold settled, log_sync, log_operation_sync. destruct (kv_persistence s) as [m|]; [|done].
  destruct (pm_wal_open m); [|done]. by destruct (ke_fault env).
Qed.

Lemma kv_set_settled s env key value : settled (kv_set s env key value).2.
Proof.
  pose proof (log_sync_settled s env (OpSet key value)) as Hs. unfold kv_set.
  by destruct (log_sync s env (OpSet key value)) as [s' []].
Qed.

Lemma kv_delete_settled s env key : settled (kv_delete s env key).2.
Proof.
  pose proof (log_sync_settled s env (OpDelete key)) as Hs. unfold kv_delete.
  by destruct (log_sync s env (OpDelete key)) as [s' []].
Qed.

Lemma kv_clear_settled s env : settled (kv_clear s env).2.
Proof.
  pose proof (log_sync_settled s env OpClear) as Hs. unfold kv_clear.
  by destruct (log_sync s env OpClear) as [s' []].
Qed.

Lemma kv_set_many_settled s env pairs : settled (kv_set_many s env pairs).2.
Proof.
  assert (settled (kv_set_many_from s env pairs).2) as Hs.
  { revert s env. induction pairs as [|[k v] pairs IH]; intros s env; [done|].
    cbn [kv_set_many_from]. pose proof (kv_set_settled s env k v) as Hk.
    destruct (kv_set s env k v) as [s' []]; [apply IH|done..]. }
  unfold kv_set_many. by destruct (kv_set_many_from s env pairs) as [s' []].
Qed.

Lemma flush_settled m env : settled (flush m env).2.
Proof.
  unfold flush. generalize (set_pending m []) as m'. generalize (pm_pending m) as ops. revert env.
  intros env ops. revert env. induction ops as [|op ops IH]; intros env m'; [done|].
  cbn [flush_operations]. unfold log_operation_sync.
  destruct (pm_wal_open m'); [destruct (ke_fault env)|]; [apply IH|done..|apply IH].
Qed.

Lemma kv_flush_settled s env : settled (kv_flush s env).2.
Proof.
  unfold kv_flush. destruct (kv_persistence s) as [m|]; [|done].
  pose proof (flush_settled m env). by destruct (flush m env).
Qed.

Lemma kv_snapshot_settled s env : settled (kv_snapshot s env).2.
Proof.
  unfold kv_snapshot. destruct (kv_persistence s) as [m|]; [|done].
  pose proof (flush_settled m env) as Hf. unfold create_snapshot.
  destruct (flush m env) as [m' []]; [by destruct (ke_snapshot env)|done..].
Qed.

Lemma answer_goes_on {A} (r : KVStore * outcome A) text :
  settled r.2 → ∃ s lines, answer r text = Ok (s, lines, false).
Proof. unfold answer, report, say. intros Hr. destruct r as [s []]; [by do 2 eexists..|done]. Qed.

#[local] Hint Resolve kv_set_settled kv_delete_settled kv_clear_settled kv_set_many_settled
  kv_flush_settled kv_snapshot_settled : settled.

(** The lines that end the shell: EXIT and QUIT. *)
Definition kv_stops (line : string) : bool :=
  bool_decide (trim line ≠ EmptyString) &&
  bool_decide (find_kv_command (to_lowercase (default EmptyString (head (splitn 3 " " (trim line))))) = Some KExit).

Lemma kv_turn_decided : decided_by kv_turn kv_stops.
Proof.
  intros s env line. unfold kv_turn, kv_stops. destruct (decide (trim line = EmptyString)) as [He|He].
  { rewrite bool_decide_eq_true_2 by done. rewrite (bool_decide_eq_false_2 (trim line ≠ _)) by tauto. by do 2 eexists. }
  rewrite bool_decide_eq_false_2 by done. rewrite (bool_decide_eq_true_2 (trim line ≠ _)) by done. cbv zeta.
  set (command := to_lowercase _). set (parts := splitn 3 " " (trim line)).
  destruct (find_kv_command command) as [[]|] eqn:Hc; cbn [andb];
    try (rewrite bool_decide_eq_false_2 by done); try (rewrite bool_decide_eq_true_2 by done);
    repeat match goal with
    | |- ∃ _ _, answer _ _ = _ => apply answer_goes_on; auto with settled
    | |- ∃ _ _, say _ _ = _ => unfold say; by do 2 eexists
    | |- ∃ _ _, Ok _ = _ => by do 2 eexists
    | |- ∃ _ _, (match ?l with [] => _ | _ :: _ => _ end) = _ => destruct l
    | |- ∃ _ _, (if ?b then _ else _) = _ => destruct b
    end.
Qed.

(** C23. The key-value shell ends exactly when some line of its input is EXIT
    or QUIT, or is not text, within one turn per line; on any other input, the
    end of the input included, it runs forever. *)
Theorem kv_shell_ends_at_exit s envs input printed :
  (Exists (λ line, ends kv_stops line = true) input →
   ∃ r, shell_loop kv_turn (length input) s envs input printed = Some r) ∧
  (¬ Exists (λ line, ends kv_stops line = true) input →
   ∀ fuel, shell_loop kv_turn fuel s envs input printed = None).
Proof.
  split; [apply loop_ends, kv_turn_decided|]. intros Hn fuel.
  apply (loop_never_ends _ kv_stops); [apply kv_turn_decided|done|].
  apply Forall_forall. intros line Hl. apply not_true_iff_false. intros Hx. apply Hn, Exists_exists. by exists line.
Qed.
End kv_shell_laws.

(** ** The SQL shell *)

Section sql_shell_laws.
Context `{RustStd} `{UnicodeTables} `{SqlGrammar} `{LogFormat} `{StatementDebug} `{SnapshotFormat}.

(** The buffer after some lines, and the statement in it. *)
Definition buffered (ls : list string) : string := foldl (λ b l, b +:+ trim l +:+ " ") EmptyString ls.
Definition statement_text (ls : list string) : string := trim (buffered ls).

(** Lines that make one statement: text, none blank, the first no command of
    the shell, complete with the last and not before. *)
Record statement_lines (ls : list string) (last : string) : Prop := {
  lines_text : Forall (λ l, valid_utf8 l = true ∧ trim l ≠ EmptyString) (ls ++ [last]);
  lines_no_command : ∀ l, head (ls ++ [last]) = Some l → find_sql_command (to_lowercase (trim l)) = None;
  lines_open : ∀ before after, ls = before ++ after → before ≠ [] → is_complete (statement_text before) = false;
  lines_complete : is_complete (statement_text (ls ++ [last])) = true;
}.

(** A shell that has read some lines of a statement. *)
Definition reading (d : Db) (s : SQLSession) (ls : list string) : SqlShell :=
  {| sh_db := d; sh_session := s; sh_buffer := buffered ls; sh_multiline := negb (bool_decide (ls = [])) |}.

Lemma buffered_snoc ls l : buffered (ls ++ [l]) = buffered ls +:+ trim l +:+ " ".
Proof. unfold buffered. by rewrite foldl_app. Qed.

Lemma turn_takes_line d s ls line env :
  trim line ≠ EmptyString → (ls = [] → find_sql_command (to_lowercase (trim line)) = None) →
  sql_turn (reading d s ls) env line = sql_input (reading d s ls) env (trim line).
Proof.
  intros Hne Hc. unfold sql_turn. destruct ls as [|l ls]; [|done]. cbn [sh_multiline reading].
  rewrite (bool_decide_eq_false_2 (trim line = _)) by done. by rewrite Hc.
Qed.

Lemma turn_accumulates d s ls line env :
  trim line ≠ EmptyString → (ls = [] → find_sql_command (to_lowercase (trim line)) = None) →
  is_complete (statement_text (ls ++ [line])) = false →
  sql_turn (reading d s ls) env line = say (reading d s (ls ++ [line])) [].
Proof.
  intros Hne Hc Ho. rewrite turn_takes_line by done. unfold sql_input, statement_text in *. rewrite buffered_snoc in Ho.
  cbn [sh_buffer reading] in *. rewrite Ho, (bool_decide_eq_false_2 (trim line = _)) by done. cbn.
  unfold reading. rewrite buffered_snoc, bool_decide_eq_false_2; [done|]. by destruct ls.
Qed.

Lemma loop_reads d s more : ∀ ls envs rest printed fuel last,
  statement_lines (ls ++ more) last →
  shell_loop sql_turn (length more + fuel) (reading d s ls) envs (more ++ rest) printed
  = shell_loop sql_turn fuel (reading d s (ls ++ more)) (λ i, envs (length more + i)) rest printed.
Proof.
  induction more as [|line more IH]; intros ls envs rest printed fuel last Hl.
  { cbn [length app]. rewrite app_nil_r. done. }
  pose proof (lines_text _ _ Hl) as Ht. rewrite !Forall_app, Forall_cons in Ht.
  destruct Ht as [(_ & (Hv & Hne) & _) _]. cbn [length app].
  change (S (length more) + fuel)%nat with (S (length more + fuel))%nat.
  rewrite (loop_goes_on _ _ _ _ _ _ _ (reading d s (ls ++ [line])) []); [|done|].
  - rewrite (IH (ls ++ [line]) (λ i, envs (S i)) rest (printed ++ []) fuel last); rewrite <-(assoc app) by done; [|done].
    by rewrite app_nil_r.
  - apply turn_accumulates; [done| |].
    + intros ->. by apply (lines_no_command _ _ Hl).
    + apply (lines_open _ _ Hl _ more); [by rewrite <-(assoc app)|]. by destruct ls.
Qed.

(** C24. The SQL shell runs a statement typed over several lines exactly once:
    when its last line completes it, with the lines trimmed and joined by
    blanks, in the shell's session; then it reads on with an empty buffer. *)
Theorem statement_over_lines_runs_once d s ls last envs rest printed fuel d' s' r text :
  statement_lines ls last →
  session_execute d (envs (length ls)) s (statement_text (ls ++ [last])) = Ok (d', s', r) →
  result_display r = Ok text →
  shell_loop sql_turn (length (ls ++ [last]) + fuel) (reading d s []) envs (ls ++ last :: rest) printed
  = shell_loop sql_turn fuel (reading d' s' []) (λ i, envs (length ls + S i)) rest (printed ++ [text]).
Proof.
  intros Hl Hx Hr. rewrite length_app. cbn [length]. rewrite <-Nat.add_assoc.
  rewrite (loop_reads d s ls [] envs (last :: rest) printed _ last) by done. cbn [app].
  pose proof (lines_text _ _ Hl) as Ht. rewrite Forall_app, Forall_singleton in Ht. destruct Ht as (_ & Hv & Hne).
  change (1 + fuel) with (S fuel).
  rewrite (loop_goes_on _ _ _ _ _ _ _ (reading d' s' []) [text]); [done|done|].
  rewrite turn_takes_line; [|done|intros ->; by apply (lines_no_command _ _ Hl)].
  unfold sql_input. pose proof (lines_complete _ _ Hl) as Hc. unfold statement_text in *. rewrite buffered_snoc in *.
  cbn [sh_buffer sh_db sh_session reading]. rewrite Hc. cbn [negb andb].
  rewrite bool_decide_eq_false_2; [by rewrite Nat.add_0_r, Hx; cbn; rewrite Hr|].
  intros He. rewrite He in Hc. unfold is_complete in Hc.
  rewrite !to_uppercase_ascii in Hc by done. by vm_compute in Hc.
Qed.
End sql_shell_laws.

(** At the end of its input the shell prints prompts forever. *)
Lemma end_of_input_never_ends `{RustStd} `{UnicodeTables} `{SqlGrammar} `{LogFormat} `{StatementDebug}
    `{SnapshotFormat} d s envs printed fuel :
  shell_loop sql_turn fuel (reading d s []) envs [] printed = None.
Proof.
  revert envs printed. induction fuel as [|fuel IH]; intros envs printed; [done|].
  cbn [shell_loop]. change (default EmptyString (head [])) with EmptyString.
  change (negb (valid_utf8 EmptyString)) with false. cbn iota.
  assert (sql_turn (reading d s []) (envs 0) EmptyString = say (reading d s []) []) as -> by done.
  apply IH.
Qed.

(** A semicolon at the end of a line ends the statement, inside a literal
    too. *)
Lemma literal_semicolon_ends_statement `{UnicodeTables} : is_complete "INSERT INTO t VALUES ('a;" = true.
Proof. done. Qed.

(** ** The backup commands *)

Section recovery_command_laws.
Context `{RustStd} `{SqlGrammar} `{LogFormat} `{StatementDebug} `{SnapshotFormat} `{KvFormat} `{BackupFormat}.

Lemma set_files_other w name t n : n ≠ name → set_files w name t n = w n.
Proof. intros Hn. unfold set_files. by rewrite bool_decide_eq_false_2. Qed.

Lemma set_files_at w name t : dir_files (set_files w name t name) = t.
Proof. unfold set_files. by rewrite bool_decide_eq_true_2. Qed.

Definition data_argument (args : list string) : string := default default_data_dir (option_value "data" args).
Definition changed (w w' : World) (n : string) (p : path) : Prop := dir_files (w' n) !! p ≠ dir_files (w n) !! p.

Lemma set_files_changed w name t n p : changed w (set_files w name t) n p → n = name ∧ t ≠ dir_files (w n).
Proof.
  unfold changed. destruct (decide (n = name)) as [->|Hn]; [|by rewrite set_files_other].
  rewrite set_files_at. intros Hp. split; [done|]. by intros ->.
Qed.

Lemma backup_command_effects w now args w' r n p :
  backup_command w now args = (w', r) → changed w w' n p →
  (option_value "output" args = Some n ∧ dir_files (w n) = ∅) ∨
  (n = data_argument args ∧ lock_created (w n) (dir_files (w' n)) p).
Proof.
  unfold backup_command. destruct (option_value "output" args) as [output|]; [|by intros [= <- <-]].
  cbv zeta. fold (data_argument args). destruct (create_backup _ _ now) as [[ts td] m] eqn:Hc.
  intros [= <- <-] Hp. unfold changed in Hp. destruct (decide (n = output)) as [->|Hn].
  - rewrite set_files_at in Hp. left. split; [done|]. eapply create_backup_destination; [exact Hc|]. by intros ->.
  - rewrite set_files_other in Hp |- * by done. destruct (set_files_changed _ _ _ _ _ Hp) as [-> _].
    rewrite set_files_at in Hp |- *. right. split; [done|].
    by destruct (create_backup_source _ _ _ _ _ _ p Hc).
Qed.

Lemma restore_command_effects w args w' r n p :
  restore_command w args = (w', r) → changed w w' n p → option_value "output" args = Some n ∧ dir_files (w n) = ∅.
Proof.
  unfold restore_command. destruct (option_value "backup" args) as [b|]; [|by intros [= <- <-]].
  destruct (option_value "output" args) as [output|]; [|by intros [= <- <-]]. cbn.
  destruct (restore_target args) as [target| |]; [|by intros [= <- <-]..]. cbn.
  destruct (restore _ _ _ target) as [t m] eqn:Hr. intros [= <- <-] [-> Hn]%set_files_changed.
  split; [done|]. by eapply restore_destination.
Qed.

Lemma prune_command_effects w args w' r n p :
  prune_command w args = (w', r) → changed w w' n p → n = data_argument args ∧
  (lock_created (w n) (dir_files (w' n)) p ∨
   flag "--yes" args = true ∧ head p = Some "wal_archive" ∧ dir_files (w' n) !! p = None ∧
   ∃ text before c latest, option_value "before" args = Some text ∧ parse_rfc3339 text = Ok before ∧
     dir_files (w n) !! p = Some c ∧ latest_record_timestamp c = Some latest ∧ (latest < Z.to_N before)%N).
Proof.
  unfold prune_command. cbv zeta. fold (data_argument args).
  destruct (option_value "before" args) as [text|]; [|by intros [= <- <-]]. cbn [ok_or mbind outcome_bind].
  destruct (parse_rfc3339 text) as [before| |] eqn:Hb; [|by intros [= <- <-]..].
  destruct (prune _ before (flag "--yes" args)) as [t m] eqn:Hp. intros [= <- <-] Hn.
  destruct (set_files_changed _ _ _ _ _ Hn) as [-> _]. split; [done|]. unfold changed in Hn.
  rewrite set_files_at in Hn |- *.
  destruct (prune_effects _ _ _ _ _ p Hp) as [Heq|[Hl|(Hy & Hh & Ht & c & l & Hc)]]; [done|by left|].
  right. split_and!; [done..|]. by exists text, before, c, l.
Qed.

(** C25. What a backup command may change, however it ends: a file of the
    directory --output of a backup or restore, which was empty; a lock file of the
    directory --data of a backup or wal-prune, created empty where there was none;
    or an archived log of the directory --data of a wal-prune with --yes, removed
    because its latest record is older than --before.  Everything else stays as it
    is, the directories that a backup or a restore reads included. *)
Theorem recovery_command_effects w now args w' r n p :
  run_recovery_command w now args = Some (w', r) → dir_files (w' n) !! p ≠ dir_files (w n) !! p →
  (args !! 1 ∈ [Some "backup"; Some "restore"] ∧ option_value "output" args = Some n ∧ dir_files (w n) = ∅) ∨
  (args !! 1 ∈ [Some "backup"; Some "wal-prune"] ∧ n = data_argument args ∧
   lock_created (w n) (dir_files (w' n)) p) ∨
  (args !! 1 = Some "wal-prune" ∧ flag "--yes" args = true ∧ n = data_argument args ∧
   head p = Some "wal_archive" ∧ dir_files (w' n) !! p = None ∧
   ∃ text before c latest, option_value "before" args = Some text ∧ parse_rfc3339 text = Ok before ∧
     dir_files (w n) !! p = Some c ∧ latest_record_timestamp c = Some latest ∧ (latest < Z.to_N before)%N).
Proof.
  unfold run_recovery_command. destruct (args !! 1) as [command|]; [|done].
  case_bool_decide as Hb; [|case_bool_decide as Hr; [|case_bool_decide as Hp; [|done]]];
    subst command; intros [= Hc] Hn.
  - destruct (backup_command_effects _ _ _ _ _ _ _ Hc Hn) as [Ho|Ho]; [left|right; left]; (split; [left|exact Ho]).
  - left. split; [right; left|]. exact (restore_command_effects _ _ _ _ _ _ Hc Hn).
  - right. destruct (prune_command_effects _ _ _ _ _ _ Hc Hn) as [Hd [Hl|(Hy & Ho)]].
    + left. split; [right; left|]. by split.
    + right. exact (conj eq_refl (conj Hy (conj Hd Ho))).
Qed.
End recovery_command_laws.

(** [--data=./rustydb_data] is taken for the absence of the argument. *)
Lemma explicit_default_overridden `{RustStd} env memory_only :
  sc_data_dir (server_mode_config env memory_only (data_dir_argument ["rustydb"; "--server"; "--data=./rustydb_data"]))
  = default default_data_dir (env "RUSTYDB_DATA_DIR").
Proof. done. Qed.

(** ** Witnesses *)

Section shell_examples.
#[local] Existing Instance concrete_std.
#[local] Existing Instance concrete_log.
#[local] Existing Instance concrete_grammar.
#[local] Existing Instance Database.debug_none.
#[local] Existing Instance Database.no_snapshots.
#[local] Instance ascii_case : UnicodeTables :=
  {| to_uppercase := to_ascii_uppercase; to_lowercase := to_ascii_lowercase; is_alphanumeric := λ _, false;
     to_uppercase_ascii := λ s _, eq_refl; to_lowercase_ascii := λ s _, eq_refl |}.
#[local] Instance no_decimals : TwoDecimals := λ _, EmptyString.

(** Two blanks between the words of SET: the key is empty. *)
Lemma double_space_sets_empty_key :
  kv_turn kv_new calm "SET  color red" = say (kv_set kv_new calm EmptyString "color red").1 ["OK"].
Proof. vm_compute. reflexivity. Qed.

Lemma kv_shell_ends_at_exit_witness :
  (∃ r, shell_loop kv_turn 2 kv_new (λ _, calm) ["SET a 1"; "Exit"] [] = Some r) ∧
  ∀ fuel, shell_loop kv_turn fuel kv_new (λ _, calm) ["SET a 1"; "LEN"] [] = None.
Proof.
  split.
  - apply (proj1 (kv_shell_ends_at_exit kv_new (λ _, calm) ["SET a 1"; "Exit"] [])).
    apply Exists_exists. exists "Exit". split; [set_solver|vm_compute; reflexivity].
  - apply (proj2 (kv_shell_ends_at_exit kv_new (λ _, calm) ["SET a 1"; "LEN"] [])).
    intros Hx. rewrite !Exists_cons, Exists_nil in Hx. destruct Hx as [Hx|[Hx|Hx]]; [vm_compute in Hx; discriminate..|done].
Defined.

Lemma insert_three_lines : statement_lines ["INSERT "] " 3;".
Proof.
  split.
  - repeat constructor; vm_compute; discriminate.
  - intros l [= <-]. vm_compute. reflexivity.
  - intros before after Hb Hne. destruct before as [|b [|]]; [done| |].
    + injection Hb as <- _. vm_compute. reflexivity.
    + injection Hb as _ Hb. discriminate Hb.
  - vm_compute. reflexivity.
Qed.

Lemma statement_over_lines_runs_once_witness :
  ∃ d' s', shell_loop sql_turn (2 + 0) (reading db0 session_new []) (λ _, fine) ["INSERT "; " 3;"] []
    = shell_loop sql_turn 0 (reading d' s' []) (λ _, fine) [] ["1 row(s) affected"].
Proof.
  destruct (session_execute db0 fine session_new (statement_text ["INSERT "; " 3;"])) as [[[d' s'] r]| |] eqn:Hx.
  2,3: exfalso; revert Hx; vm_compute; discriminate.
  exists d', s'.
  assert (r = RRowsAffected 1) as Hr by (revert Hx; vm_compute; congruence).
  refine (statement_over_lines_runs_once db0 session_new ["INSERT "] " 3;" (λ _, fine) [] [] 0 d' s' r
    "1 row(s) affected" insert_three_lines Hx _).
  rewrite Hr. vm_compute. reflexivity.
Defined.

#[local] Existing Instance Restore.concrete_backup.
Definition two_directories : World := λ n,
  if bool_decide (n = "data") then source_dir else empty_at n.
Definition backup_arguments : list string := ["rustydb"; "backup"; "--data=data"; "--output=out"].
Definition backed_up : World * outcome string :=
  match run_recovery_command two_directories 5000 backup_arguments with Some r => r | None => (two_directories, Panic) end.

Lemma recovery_command_effects_witness :
  is_Ok backed_up.2 ∧ lock_created (two_directories "data") (dir_files (backed_up.1 "data")) [".sql.lock"].
Proof.
  split; [vm_compute; by eexists|].
  destruct (recovery_command_effects two_directories 5000 backup_arguments backed_up.1 backed_up.2 "data" [".sql.lock"])
    as [(_ & Ho & _)|[(_ & _ & Hl)|(Hc & _)]].
  - unfold backed_up. destruct (run_recovery_command two_directories 5000 backup_arguments) as [[w r]|] eqn:He; [done|].
    discriminate He.
  - vm_compute. discriminate.
  - discriminate Ho.
  - exact Hl.
  - discriminate Hc.
Defined.
End shell_examples.
