(* ===== verification/Version.v ===== *)
(** * Version.v: the update check (src/version_check.rs)

    Which of the published tags is the newest version, and whether it is newer
    than the program.  Parsing and comparing semantic versions is the crate
    semver, and the tags come from the network: both are parameters. *)

From S2P Require Import Prelude Str.

(** [semver::Version]: a total order. *)
Class SemVer := {
  Version : Type;
  parse_version : string → option Version;
  version_cmp : Version → Version → comparison;
  version_cmp_opp : ∀ v w, version_cmp w v = CompOpp (version_cmp v w);
  version_le_trans : ∀ u v w, version_cmp u v ≠ Gt → version_cmp v w ≠ Gt → version_cmp u w ≠ Gt;
}.

Section version.
Context `{SemVer}.

Definition parse_tag_version (tag : string) : option Version :=
  parse_version (default tag (strip_prefix "v" tag)).

(** [Iterator::max_by]: the later one of equal elements. *)
Definition later_max {A} (cmp : A → A → comparison) (x y : A) : A :=
  match cmp x y with Gt => x | _ => y end.
Definition max_by {A} (cmp : A → A → comparison) (l : list A) : option A :=
  match l with [] => None | x :: l => Some (foldl (later_max cmp) x l) end.

Definition latest_semver_tag (tags : list string) : option string :=
  snd <$> max_by (λ l r, version_cmp l.1 r.1)
            (omap (λ tag, v ← parse_tag_version tag; Some (v, tag)) tags).

Definition is_newer_version (candidate current : string) : bool :=
  match parse_tag_version candidate, parse_tag_version current with
  | Some candidate, Some current => bool_decide (version_cmp candidate current = Gt)
  | _, _ => false
  end.

Definition update_check_disabled (env : string → option string) : bool :=
  match env "RUSTYDB_UPDATE_CHECK" with
  | Some value => bool_decide (to_ascii_lowercase (trim value) ∈ ["0"; "false"; "off"; "no"])
  | None => false
  end.

Record UpdateInfo := { current_version : string; latest_version : string }.

(** [check_for_update], on the tags the registry answered with. *)
Definition check_for_update (current : string) (fetched : outcome (option (list string))) :
    outcome (option UpdateInfo) :=
  tags ← fetched;
  latest ← ok_or (latest_semver_tag (default [] tags)) "no semantic version tags found for RustyDB package";
  Ok (if is_newer_version latest current
      then Some {| current_version := current; latest_version := latest |} else None).

Definition outdated_version_warning (env : string → option string) (current : string)
    (fetched : outcome (option (list string))) : list string :=
  if update_check_disabled env then []
  else
    match check_for_update current fetched with
    | Ok (Some update) =>
        ["WARNING: RustyDB " +:+ current_version update +:+ " is outdated. Latest available package version is "
           +:+ latest_version update +:+ ".";
         "         Update from: https://github.com/IPandral/RustyDB/pkgs/container/rustydb"; ""]
    | _ => []
    end.

(** ** Properties *)

Lemma version_le_refl v : version_cmp v v ≠ Gt.
Proof. pose proof (version_cmp_opp v v) as He. intros Hg. by rewrite Hg in He. Qed.

Lemma foldl_max_spec (l : list (Version * string)) x :
  let m := foldl (later_max (λ l r, version_cmp l.1 r.1)) x l in
  m ∈ x :: l ∧ ∀ y, y ∈ x :: l → version_cmp y.1 m.1 ≠ Gt.
Proof.
  cbv zeta. revert x. induction l as [|z l IH]; intros x.
  { split; [apply list_elem_of_singleton; done|]. intros y ->%list_elem_of_singleton. apply version_le_refl. }
  cbn [foldl]. destruct (IH (later_max (λ l r, version_cmp l.1 r.1) x z)) as [Hm Hle].
  set (m := foldl _ _ l) in *.
  assert (∀ y, y = x ∨ y = z → version_cmp y.1 (later_max (λ l r, version_cmp l.1 r.1) x z).1 ≠ Gt) as Hxz.
  { unfold later_max. destruct (version_cmp x.1 z.1) eqn:E; intros y [-> | ->];
      try apply version_le_refl; rewrite ?E; try done.
    rewrite version_cmp_opp, E. done. }
  split.
  - apply elem_of_cons in Hm as [->|Hm]; [|set_solver]. unfold later_max. destruct (version_cmp _ _); set_solver.
  - intros y Hy. assert (y = x ∨ y = z ∨ y ∈ l) as [Hy'|[Hy'|Hy']] by set_solver.
    + eapply version_le_trans; [apply Hxz; by left|]. apply Hle. set_solver.
    + eapply version_le_trans; [apply Hxz; by right|]. apply Hle. set_solver.
    + apply Hle. set_solver.
Qed.

(** The tag chosen is one of the tags, is a version, and no tag is newer; none
    is chosen only when no tag is a version. *)
Theorem latest_tag_exact tags :
  match latest_semver_tag tags with
  | Some tag => tag ∈ tags ∧ is_Some (parse_tag_version tag) ∧ ∀ other, other ∈ tags → is_newer_version other tag = false
  | None => ∀ other, other ∈ tags → parse_tag_version other = None
  end.
Proof.
  unfold latest_semver_tag. set (l := omap _ tags).
  assert (∀ v tag, (v, tag) ∈ l ↔ tag ∈ tags ∧ parse_tag_version tag = Some v) as Hl.
  { intros v tag. unfold l. rewrite list_elem_of_omap. split.
    - intros (t & Ht & Hv). destruct (parse_tag_version t) eqn:E; [|done]. by injection Hv as <- <-.
    - intros [Ht Hv]. exists tag. by rewrite Hv. }
  destruct l as [|x l'] eqn:El; cbn [max_by fmap option_fmap option_map].
  { intros other Ho. destruct (parse_tag_version other) as [v|] eqn:E; [|done].
    assert ((v, other) ∈ ([] : list (Version * string))) as Hx by (by apply Hl). by apply elem_of_nil in Hx. }
  destruct (foldl_max_spec l' x) as [Hm Hle]. set (m := foldl _ x l') in *. destruct m as [v tag].
  apply Hl in Hm as [Ht Hv]. cbn. split_and!; [done|by eexists|].
  intros other Ho. unfold is_newer_version. rewrite Hv. destruct (parse_tag_version other) as [w|] eqn:E; [|done].
  apply bool_decide_eq_false. apply (Hle (w, other)). by apply Hl.
Qed.
End version.
